(* ===== verification/_CoqProject ===== *)
-Q . S2P
Prelude.v
Claims.v
Provider.v
Departure.v
Port.v
PortFinite.v
Accountant.v
Ranking.v
UpdatePolicy.v
PathPlanner.v
OrderedMap.v
LeasedMap.v
Topology.v
DeviceId.v
Hubs.v
Ring.v
HubTree.v
Modes.v
Parenting.v
Bytes.v
Shaping.v
UnitAssembly.v
H264.v
UnitDelivery.v
VideoPath.v
VideoScenarios.v
LeasedQueue.v
Reliable.v
ReliableLink.v
ReliableProgress.v
Identity.v
EndpointAuth.v
EndpointWorld.v
Content.v
StorageCodec.v
Merkle.v
HubIntroduction.v
Ancestry.v
Projection.v
FactGraph.v
Residency.v
Evaluator.v
Admission.v
GraphIndex.v
GraphProvenance.v
GraphInv.v
Rebuild.v
Authority.v
Bootstrap.v
QuarantineInv.v
Journal.v
Accounts.v
IndexBytes.v
Scenarios.v
BootstrapScenarios.v
Histories.v
