(* ===== verification/Prelude.v ===== *)
(** * MyOwnMesh: a verification library for the mesh core

    MyOwnMesh is a peer-to-peer mesh daemon written in Rust.  The code this
    library is about is the crate src/crates/myownmesh-core/src, with the version policy
    of the updater; paths below are relative to it.  The library is a shallow embedding: every operation is a Rocq
    function with the source's name where Rocq allows it, a fallible operation
    returns [result], a method that may change its object before it fails is an
    [op] that returns the state on both branches, and a machine integer is a [Z]
    with the checked, saturating or wrapping operation the source calls.
    A long function of the source is split into definitions that stand next to the one
    that bears its name.

    ** The program's parts and how they interact

    - Resources (resource/provider.rs, mod.rs, map.rs, queue.rs).  All memory,
      handles and tasks of the core are funded by leases from one provider.  The
      finite provider keeps the accounts, the port hands out scopes and leases
      whose destructors give claims back, and the containers (a treap, a queue)
      own one lease per entry.  The accountant only observes.
    - Reliable sessions (runtime/peer_session/reliable.rs, engine/reliable.rs).  A
      session retains every sequenced frame in a leased queue until the peer
      acknowledges it, and remembers how far it has accepted the peer's frames.
    - Endpoint authentication (endpoint_auth/*.rs, connector/*.rs).  A connected
      channel is authenticated by an exchange of fresh contributions and signatures
      over one transcript before it carries anything else.
    - Introductions (protocol/hub_introduction.rs).  Hubs help two members to connect
      by forwarding signed envelopes, each forwarder signing what came before.
    - Topology (topology/*.rs, config.rs).  A selector decides, from the member
      list alone, which peers a node connects to and where a frame goes next; in
      the hub tree engine/parenting.rs keeps the negotiated parents and children.
      The passes of engine/ladder.rs bring the links of a node to that shape.
    - Real-time units (transport/webrtc/unit_assembly.rs, h264.rs).  Packets of a video
      stream are collected into units against a reservation of the flow, and a
      complete unit is framed for the decoder.
    - Semantic layer (semantic/*.rs, identity.rs, signing.rs).  Governance is a set
      of signed facts.  A fact has canonical content, an identity (the digest of
      its encoding) and a signature; the causal graph admits facts whose
      dependencies it has, quarantines the others, and judges each candidate
      against its causal past; the projection turns the admitted facts into the
      effective value of every exclusive cell and commits to it with a
      Patricia-Merkle root; the evaluator reads roles, memberships and session
      admission from the projection.  The storage codec is the form of a fact in
      the database.  A bootstrap record (semantic/bootstrap.rs) names the context of
      a mesh and, for a closed one, the root whose signature everything rests on.

    Resources fund everything else; a session exists only after authentication; the
    topology decides which sessions there are; the graph decides who may hold one.

    ** Files

    - Prelude.v: results, operations, machine integers, list lemmas.
      Ranking.v: comparators, ordered sets, bounded insertion.  Bytes.v: byte
      strings and prefix codes.
    - Claims.v, Provider.v: [ResourceClaim] and [mod finite] of
      resource/provider.rs; the state behind the mutex is [State], panics under
      the mutex poison it.  Port.v: [ResourceProviderPort], [ResourceScope],
      [ResourceLease] against the class [ResourceProvider]; [Process] is the heap
      of live tokens, so a destructor runs when the last holder goes.
      PortFinite.v discharges the class.  Accountant.v: [ResourceAccountant] of
      resource/mod.rs.  OrderedMap.v: the interface of an ordered map whose
      entries own leases; LeasedMap.v: the treap of resource/map.rs, which
      implements it.  LeasedQueue.v: the two-chain queue of resource/queue.rs.
    - Reliable.v: [ReliableState]; what an operation does to the outside is a list
      of effects.  ReliableLink.v: two sessions, the callers, the writes of
      [flush_owner] and a lossy network as a step relation, with its invariant.
      ReliableProgress.v: schedules that finish, and a concrete session.
    - Topology.v (the [Topology] trait, full mesh, star), Hubs.v, Ring.v,
      HubTree.v, Modes.v ([TopologyMode], [validate_topology], [from_mode]),
      DeviceId.v (the two identity parsers), Parenting.v ([ParentingState], against
      OrderedMap.v).
      Shaping.v: the passes of engine/ladder.rs over one node, against the [Topology]
      record: which links are shelved, dropped and dialed.
    - UnitAssembly.v: [RealtimeUnitAssembler] against the class [RealtimeUnitFraming],
      with the flow's answers as an input of each push.  H264.v: the framing, its
      reference, and the instance of the class.  UnitDelivery.v: a sender's stream and
      a network that loses, repeats and reorders.  VideoPath.v: both together.
      VideoScenarios.v: a concrete stream.
    - PathPlanner.v: [WebRtcCandidatePathPlanner] of transport/webrtc/policy.rs and the
      ranking of transport/ice.rs.  Departure.v: runtime/peer_session/departure.rs and
      recovery.rs, with the cells that waiters and handles share.  UpdatePolicy.v:
      policy.rs of the crate myownmesh-updater.
    - Identity.v: identity.rs, signing.rs and the class [Crypto] of third-party
      primitives.  EndpointAuth.v: the transcript and the task of endpoint_auth/task.rs;
      EndpointWorld.v: tasks of many devices under an adversary that owns the network
      and every key but the honest ones.  Content.v: semantic/content.rs, fact.rs, verify.rs.
      StorageCodec.v: semantic/storage_codec.rs.  Merkle.v: the commitment tree of
      semantic/projection.rs; Projection.v: the rest of it, against the class
      [GraphView].  HubIntroduction.v: [HubIntroductionEnvelope].
    - The causal graph, semantic/causal.rs.  Ancestry.v: the worklist walks.
      FactGraph.v: the state ([FactGraph], its [Indexes] and its [Quarantine]),
      index maintenance, authority lineages and which facts are authoritative; the
      instance of [GraphView].  Residency.v: selector provenance and the byte
      accounting of the indexes.  Evaluator.v: rebuilding, causal pasts, roles and
      tiers, authoring witnesses.  Admission.v: cost, reservations, checks,
      insertion, quarantine, retry and the journaled admission.
    - Proofs about the causal graph.  GraphIndex.v and GraphProvenance.v: what the
      indexes and the provenance must be, and that insertion keeps them so.
      GraphInv.v: admission as a step relation, reachable graphs and their
      invariant.  Rebuild.v: Kahn's algorithm and the scoped graphs.  Authority.v:
      why an admitted fact was allowed.  QuarantineInv.v: the waiting tables and
      the retry loop.  Journal.v: replaying the delta of an admission.  Accounts.v and
      IndexBytes.v: counters and limits.
      Scenarios.v: a concrete graph with signed facts on which the theorems are
      applied.  Histories.v: three histories with surprising outcomes.
    - Bootstrap.v: semantic/bootstrap.rs and the graph of a verified record;
      BootstrapScenarios.v: a concrete mesh.

    ** What the theorems show

    - Resources: the accounts of the provider are exact in every reachable state
      and never exceed the grant; leases and reservations correspond one to one; no
      use of the port by safe code poisons the provider, and a process that drops
      everything returns everything; the treap refines the ordered list of its rows
      and the queue a first-in first-out list.
    - Reliable sessions: a caller told success was delivered, each request at most
      once and unchanged, whatever the link loses, repeats or reorders; no state is
      stuck.
    - Topology: every selector keeps the trait's contract, bounded scans compute
      prefixes of one global ranking, a validated hub tree delivers within the
      flood limit, the ring is connected; the parenting table's counters and
      tickets are exact; shelving follows the preferred set and settles, of two nodes
      that see an edge of a pruning topology exactly one dials, and the rotation
      starves no edge.
    - Real-time units: however packets are lost, repeated or reordered within half the
      sequence space, an emitted unit is a sent one, complete to its end; while the
      flow refuses nothing units come in order, and a unit whose packets all arrive at
      an assembler anchored before it is emitted; what is held is what is funded; the two passes of the framing agree with
      a plain listing of the NAL units, and fragmentation is undone exactly.
    - Candidate paths are tried in ranked order, each once and boundedly many at a time,
      until one is selected or all failed; a departure is answered once and a recovery
      demand satisfied once, with exact leases; automatic updates only move forward.
    - Endpoint authentication: a task that issues an authenticated channel agrees on
      every signed field with exactly one task of its peer; channels are neither lost
      nor issued twice; an error ends the attempt; two honest ends succeed.
    - Introductions: a forwarder's signature binds the whole history, and forwarding
      keeps an envelope valid within its budget.
    - Facts: the canonical encoding is injective, an identity binds its content and
      a signature its key, an authored fact verifies, storage is a round trip, the
      commitment root is canonical and binds the projected map.
    - The causal graph: every reachable graph has exact indexes, provenance,
      quarantine tables, counters and byte accounts, stays within its policy, and
      equals what would be rebuilt from its facts; a candidate is judged in exactly
      its causal past, where its author must have the role its body asks for, and
      every such role rests on admitted grants down to an authority root; the
      closed-session gate passes exactly the devices in good standing; a journaled
      admission leaves no completed waiter and returns a delta that replays it;
      projections are updated, undone, replayed and restored exactly.
    - Bootstrap: exactly the well-formed and signed records verify, the identity of a
      context binds its policy, a created mesh verifies, and every fact admitted to a
      closed mesh rests on the root that signed it.

    ** Parameters

    SHA-256, the base32 codec and Ed25519 are the operations of [Crypto]; what is
    assumed of them is [CryptoLaws].  Collision freedom is never assumed: theorems
    that need it conclude with an explicit collision; that honest keys are not forged
    is a premise of the adversary's step in EndpointWorld.v.  The key hash of the treap,
    the digest of the topology ranking, bincode (StorageCodec.v) and the sizes of
    Rust types with the length of a JSON text ([Layout]) are parameters too.
    The JSON text of a channel frame is
    [ChannelCodec], of which only that parsing inverts printing is assumed; the texts
    of an introduction are [IntroductionJson], injective and free of raw NULs.
    [demo_crypto], [demo_layout] and [demo_codec] are concrete instances.

    ** Fuel

    Worklist walks run with [walk_fuel]: the pending entries plus the out-degrees
    of all facts, because every round consumes an entry and the successors of a
    fact are pushed once; Ancestry.v proves it enough.  Kahn's loop takes one fact
    per round, the treap's teardown one node, the retry loop at least one attempt
    of its budget ([bounded_loops_suffice]).  Resolution chains visit a present fact
    at most once, so one more step than there are facts suffices, and the rounds of
    [relevant_typed_selectors] remove at least one pending selector each.  The loops
    of a reliable session remove one retained frame per round.  The aggregation loops of
    the H.264 framing move past at least two bytes per round, so the length of the
    payload is enough.

    ** What is not modelled

    - In modelled files: retired cold history and staged overlays of the causal
      graph (its model keeps every row resident), the aggregate batch admission,
      and the rollback journal, whose effect is that a failed call leaves the
      caller's graph as it was, except that the projection cache may be empty
      afterwards ([reach_refused]); that the cache is taken before a journaled
      candidate is judged and refilled on reads is modelled.  Serde, Display and Debug code,
      interning, key files and accessors.
    - Of the reliable sessions, the retirement of a session whose delivery was
      refused (the link of ReliableLink.v then simply goes quiet) and the timers.
    - Of the passes over links, the calls that drop and dial a link and the timers; of
      the real-time flow, the accounts behind its answers.
    - The rest of the engine, runtimes, gateway, transport, signaling drivers,
      services, daemon, updater and GUI: async tasks, sockets, timers, SQLite
      statements, files and processes.  Their state lives in tokio, webrtc and sqlite
      objects that are not part of the sources.
    - The vendored libraries: third-party protocol stacks. *)

From Stdlib Require Export ZArith Lia.
From stdpp Require Export base tactics numbers list option gmap strings sorting.

(** ** Rust results and the operator [?]

    [result E A] is [Result<A, E>].  The [MBind] instance is the [?] operator:
    an [Err] ends the computation. *)
Inductive result (E A : Type) : Type :=
| Ok (a : A)
| Err (e : E).
Arguments Ok {E A} a.
Arguments Err {E A} e.

#[export] Instance result_ret {E} : MRet (result E) := λ A a, Ok a.
#[export] Instance result_bind {E} : MBind (result E) := λ A B f m,
  match m with Ok a => f a | Err e => Err e end.

(** [Option::ok_or]. *)
Definition ok_or {E A} (e : E) (o : option A) : result E A :=
  match o with Some a => Ok a | None => Err e end.

(** [Result::map_err]. *)
Definition map_err {E F A} (f : E → F) (r : result E A) : result F A :=
  match r with Ok a => Ok a | Err e => Err (f e) end.

Definition is_ok {E A} (r : result E A) : bool :=
  match r with Ok _ => true | Err _ => false end.

#[export] Instance result_eq_dec {E A} `{EqDecision E, EqDecision A} : EqDecision (result E A).
Proof. solve_decision. Defined.

(** ** Methods that take [&mut self] and return a [Result]

    A state change made before an early [Err] return persists, so the state is
    threaded on both branches. *)
Definition op (S E A : Type) : Type := S → S * result E A.

#[export] Instance op_ret {S E} : MRet (op S E) := λ A a s, (s, Ok a).
#[export] Instance op_bind {S E} : MBind (op S E) := λ A B f m s,
  match m s with
  | (s', Ok a) => f a s'
  | (s', Err e) => (s', Err e)
  end.

Definition op_get {S E} : op S E S := λ s, (s, Ok s).
Definition op_put {S E} (s' : S) : op S E () := λ _, (s', Ok ()).
Definition op_lift {S E A} (r : result E A) : op S E A := λ s, (s, r).
Definition op_fail {S E A} (e : E) : op S E A := λ s, (s, Err e).

(** ** Machine integers

    A [uN] value is a [Z] in [0, 2^N); every operation that can leave the range
    is the checked, saturating or wrapping one the source calls. *)
Open Scope Z_scope.

Definition u16_max : Z := 2 ^ 16 - 1.
Definition u32_max : Z := 2 ^ 32 - 1.
Definition u64_max : Z := 2 ^ 64 - 1.
Definition usize_max : Z := u64_max.

Definition in_u (m x : Z) : Prop := 0 ≤ x ≤ m.
#[global] Hint Unfold in_u : core.

Definition checked_add (m x y : Z) : option Z := if x + y <=? m then Some (x + y) else None.
Definition checked_mul (m x y : Z) : option Z := if x * y <=? m then Some (x * y) else None.
Definition checked_sub (x y : Z) : option Z := if y <=? x then Some (x - y) else None.
Definition saturating_add (m x y : Z) : Z := Z.min m (x + y).
Definition saturating_sub (x y : Z) : Z := Z.max 0 (x - y).
Definition wrapping_sub (w x y : Z) : Z := (x - y) mod 2 ^ w.

(** Reinterpreting a [w]-bit unsigned value as a signed one ([as iN]). *)
Definition as_signed (w x : Z) : Z := if x <? 2 ^ (w - 1) then x else x - 2 ^ w.

Local Ltac solve_checked :=
  split; intros Hc;
  [ try discriminate Hc; try (injection Hc as <-); repeat split; lia
  | first [destruct Hc as [-> ?]; first [reflexivity | lia] | first [reflexivity | lia]] ].

Lemma checked_add_Some m x y z : checked_add m x y = Some z ↔ z = x + y ∧ x + y ≤ m.
Proof. unfold checked_add. destruct (Z.leb_spec (x + y) m); solve_checked. Qed.
Lemma checked_add_None m x y : checked_add m x y = None ↔ m < x + y.
Proof. unfold checked_add. destruct (Z.leb_spec (x + y) m); solve_checked. Qed.
Lemma checked_mul_Some m x y z : checked_mul m x y = Some z ↔ z = x * y ∧ x * y ≤ m.
Proof. unfold checked_mul. destruct (Z.leb_spec (x * y) m); solve_checked. Qed.
Lemma checked_mul_None m x y : checked_mul m x y = None ↔ m < x * y.
Proof. unfold checked_mul. destruct (Z.leb_spec (x * y) m); solve_checked. Qed.
Lemma checked_sub_Some x y z : checked_sub x y = Some z ↔ z = x - y ∧ y ≤ x.
Proof. unfold checked_sub. destruct (Z.leb_spec y x); solve_checked. Qed.
Lemma checked_sub_None x y : checked_sub x y = None ↔ x < y.
Proof. unfold checked_sub. destruct (Z.leb_spec y x); solve_checked. Qed.

(** Turn equations on checked operations and boolean tests into arithmetic. *)
Ltac z_norm :=
  repeat match goal with
  | H : checked_add _ _ _ = Some _ |- _ => apply checked_add_Some in H as [? ?]
  | H : checked_add _ _ _ = None |- _ => apply checked_add_None in H
  | H : checked_mul _ _ _ = Some _ |- _ => apply checked_mul_Some in H as [? ?]
  | H : checked_mul _ _ _ = None |- _ => apply checked_mul_None in H
  | H : checked_sub _ _ = Some _ |- _ => apply checked_sub_Some in H as [? ?]
  | H : checked_sub _ _ = None |- _ => apply checked_sub_None in H
  | H : (_ <=? _) = true |- _ => apply Z.leb_le in H
  | H : (_ <=? _) = false |- _ => apply Z.leb_gt in H
  | H : (_ <? _) = true |- _ => apply Z.ltb_lt in H
  | H : (_ <? _) = false |- _ => apply Z.ltb_ge in H
  | H : (_ =? _) = true |- _ => apply Z.eqb_eq in H
  | H : (_ =? _) = false |- _ => apply Z.eqb_neq in H
  | H : _ && _ = true |- _ => apply andb_true_iff in H as [? ?]
  | H : _ || _ = false |- _ => apply orb_false_iff in H as [? ?]
  | H : _ && _ = false |- _ => apply andb_false_iff in H
  | H : _ || _ = true |- _ => apply orb_true_iff in H
  | H : negb _ = true |- _ => apply negb_true_iff in H
  | H : negb _ = false |- _ => apply negb_false_iff in H
  | H : bool_decide _ = true |- _ => apply bool_decide_eq_true in H
  | H : bool_decide _ = false |- _ => apply bool_decide_eq_false in H
  end.

(** Split on every scrutinee of the goal and of the hypotheses. *)
Ltac run_cases := repeat (case_match; simplify_eq/=).

(** The hint databases of the development: [claims] for well-formedness of
    resource claims, [provider] for the provider invariant, [mesh] for the rest. *)
Create HintDb claims.
Create HintDb provider.
Create HintDb mesh.

(** ** Sums over finite maps *)
Section msum.
Context `{Countable K} {V : Type}.
Implicit Types (m : gmap K V) (f g : V → Z).

Definition msum f m : Z := map_fold (λ _ v acc, f v + acc) 0 m.

Lemma msum_empty f : msum f ∅ = 0.
Proof. apply map_fold_empty. Qed.

Lemma msum_insert f m k v : m !! k = None → msum f (<[k:=v]> m) = f v + msum f m.
Proof. intros. unfold msum. rewrite map_fold_insert_L; [done| |done]. intros; lia. Qed.

Lemma msum_delete f m k v : m !! k = Some v → msum f m = f v + msum f (delete k m).
Proof. intros. unfold msum. rewrite (map_fold_delete_L _ _ k v); [done| |done]. intros; lia. Qed.

Lemma msum_replace f m k v w :
  m !! k = Some v → msum f (<[k:=w]> m) = msum f m - f v + f w.
Proof.
  intros Hk. rewrite <- insert_delete_eq, msum_insert by apply lookup_delete_eq.
  rewrite (msum_delete f m k v) by done. lia.
Qed.

Lemma msum_nonneg f m : (∀ k v, m !! k = Some v → 0 ≤ f v) → 0 ≤ msum f m.
Proof.
  induction m as [|k v m Hk IH] using map_ind; intros Hf; [by rewrite msum_empty|].
  rewrite msum_insert by done.
  assert (0 ≤ f v) by (apply (Hf k); apply lookup_insert_eq).
  assert (0 ≤ msum f m); [|lia].
  apply IH. intros k' v' Hk'. apply (Hf k'). rewrite lookup_insert_ne; naive_solver.
Qed.

Lemma msum_ext f g m : (∀ k v, m !! k = Some v → f v = g v) → msum f m = msum g m.
Proof.
  induction m as [|k v m Hk IH] using map_ind; intros Hf; [by rewrite !msum_empty|].
  rewrite !msum_insert by done. f_equal.
  - apply (Hf k), lookup_insert_eq.
  - apply IH. intros k' v' Hk'. apply (Hf k'). rewrite lookup_insert_ne; naive_solver.
Qed.

Lemma msum_const c m : msum (λ _, c) m = c * Z.of_nat (size m).
Proof.
  induction m as [|k v m Hk IH] using map_ind; [rewrite msum_empty, map_size_empty; lia|].
  rewrite msum_insert, IH, map_size_insert_None by done. lia.
Qed.

Lemma msum_le f g m : (∀ k v, m !! k = Some v → f v ≤ g v) → msum f m ≤ msum g m.
Proof.
  induction m as [|k v m Hk IH] using map_ind; intros Hf; [by rewrite !msum_empty|].
  rewrite !msum_insert by done.
  assert (f v ≤ g v) by apply (Hf k), lookup_insert_eq.
  assert (msum f m ≤ msum g m); [|lia].
  apply IH. intros k' v' Hk'. apply (Hf k'). rewrite lookup_insert_ne; naive_solver.
Qed.

Lemma msum_le_lookup f m k v :
  (∀ k v, m !! k = Some v → 0 ≤ f v) → m !! k = Some v → f v ≤ msum f m.
Proof.
  intros Hf Hk. rewrite (msum_delete f m k v) by done.
  assert (0 ≤ msum f (delete k m)); [|lia].
  apply msum_nonneg. intros k' v' Hk'. apply (Hf k'). by apply lookup_delete_Some in Hk' as [_ ?].
Qed.
End msum.

(** ** Lists *)
Lemma elem_of_take_in {A} n (l : list A) x : x ∈ take n l → x ∈ l.
Proof. intros H. rewrite <- (take_drop n l). apply elem_of_app. by left. Qed.

Lemma elem_of_drop_in {A} n (l : list A) x : x ∈ drop n l → x ∈ l.
Proof. intros H. rewrite <- (take_drop n l). apply elem_of_app. by right. Qed.

Lemma NoDup_take {A} n (l : list A) : NoDup l → NoDup (take n l).
Proof. rewrite <- (take_drop n l) at 1. by intros [? _]%NoDup_app. Qed.

(** ** Counting *)

Definition count {A} (P : A → bool) (l : list A) : Z := foldr (λ x n, Z.b2z (P x) + n) 0 l.

Lemma count_cons {A} (P : A → bool) x l : count P (x :: l) = Z.b2z (P x) + count P l.
Proof. done. Qed.

#[export] Instance count_perm {A} (P : A → bool) : Proper ((≡ₚ) ==> (=)) (count P).
Proof. intros l1 l2. induction 1; rewrite ?count_cons; lia. Qed.

Lemma count_nonneg {A} (P : A → bool) l : 0 ≤ count P l.
Proof. induction l as [|x l IH]; [done|]. rewrite count_cons. destruct (P x); cbn; lia. Qed.

Lemma count_le {A} (P Q : A → bool) l :
  (∀ x, x ∈ l → P x = true → Q x = true) → count P l ≤ count Q l.
Proof.
  induction l as [|x l IH]; intros H; [done|]. rewrite !count_cons.
  assert (count P l ≤ count Q l) by (apply IH; intros; apply H; [by right|done]).
  specialize (H x ltac:(by left)). destruct (P x), (Q x); cbn; try lia; by specialize (H eq_refl).
Qed.

Lemma count_all {A} (l : list A) : count (λ _, true) l = Z.of_nat (length l).
Proof. induction l as [|x l IH]; [done|]. rewrite count_cons, IH. cbn. lia. Qed.

Lemma count_le_length {A} (P : A → bool) l : count P l ≤ Z.of_nat (length l).
Proof. rewrite <- count_all. by apply count_le. Qed.

Lemma count_pos {A} (P : A → bool) l x : x ∈ l → P x = true → 1 ≤ count P l.
Proof.
  intros Hx HP. apply list_elem_of_split in Hx as (l1 & l2 & ->).
  rewrite <- Permutation_middle, count_cons, HP. pose proof (count_nonneg P (l1 ++ l2)). cbn. lia.
Qed.
