(* ===== verification/Claims.v ===== *)
(** * Resource claims: the eleven-dimensional finite quantity

    Models [ResourceClass], [ResourceClaim] and its checked arithmetic from
    crates/myownmesh-core/src/resource/provider.rs.  Arithmetic runs over the
    dimensions in declaration order and stops at the first dimension that
    overflows or underflows, which it names. *)

From S2P Require Import Prelude.
Local Open Scope Z_scope.

Inductive ResourceClass : Type :=
| AccountedMemoryBytes
| QueuedBytes
| SocketOrHandle
| NativeTransportObject
| WorkerOrTask
| CallbackOrScheduledWork
| StorageBytes
| StorageObject
| RelayOrProviderAllocation
| ParsingOrCpuWork
| OpaqueDependencyResidual.

#[export] Instance ResourceClass_eq_dec : EqDecision ResourceClass.
Proof. solve_decision. Defined.

Definition RESOURCE_CLASS_COUNT : nat := 11.

Definition ALL : list ResourceClass :=
  [AccountedMemoryBytes; QueuedBytes; SocketOrHandle; NativeTransportObject; WorkerOrTask;
   CallbackOrScheduledWork; StorageBytes; StorageObject; RelayOrProviderAllocation;
   ParsingOrCpuWork; OpaqueDependencyResidual].

Definition index (d : ResourceClass) : nat :=
  match d with
  | AccountedMemoryBytes => 0
  | QueuedBytes => 1
  | SocketOrHandle => 2
  | NativeTransportObject => 3
  | WorkerOrTask => 4
  | CallbackOrScheduledWork => 5
  | StorageBytes => 6
  | StorageObject => 7
  | RelayOrProviderAllocation => 8
  | ParsingOrCpuWork => 9
  | OpaqueDependencyResidual => 10
  end%nat.

Record ResourceClaim : Type := mkClaim { amounts : list Z }.

#[export] Instance ResourceClaim_eq_dec : EqDecision ResourceClaim.
Proof. solve_decision. Defined.

Definition claim_ZERO : ResourceClaim := mkClaim (replicate RESOURCE_CLASS_COUNT 0).

Definition single (d : ResourceClass) (amount : Z) : ResourceClaim :=
  mkClaim (<[index d := amount]> (replicate RESOURCE_CLASS_COUNT 0)).

Definition amount (c : ResourceClaim) (d : ResourceClass) : Z := nth (index d) (amounts c) 0.

Arguments amount : simpl never.

Inductive ResourceClaimArithmeticError : Type :=
| Overflow (dimension : ResourceClass)
| Underflow (dimension : ResourceClass).

#[export] Instance ResourceClaimArithmeticError_eq_dec : EqDecision ResourceClaimArithmeticError.
Proof. solve_decision. Defined.

(** The [for dimension in ResourceClass::ALL] loop that fills [result.amounts]
    at [dimension.index()] and returns early on an error. *)
Fixpoint fill {E} (f : ResourceClass → result E Z) (dims : list ResourceClass)
    (acc : ResourceClaim) : result E ResourceClaim :=
  match dims with
  | [] => Ok acc
  | d :: dims =>
      match f d with
      | Ok v => fill f dims (mkClaim (<[index d := v]> (amounts acc)))
      | Err e => Err e
      end
  end.

Definition claim_checked_add (a b : ResourceClaim) : result ResourceClaimArithmeticError ResourceClaim :=
  fill (λ d, ok_or (Overflow d) (checked_add u64_max (amount a d) (amount b d))) ALL claim_ZERO.

Definition claim_checked_sub (a b : ResourceClaim) : result ResourceClaimArithmeticError ResourceClaim :=
  fill (λ d, ok_or (Underflow d) (checked_sub (amount a d) (amount b d))) ALL claim_ZERO.

Definition claim_checked_scale (a : ResourceClaim) (factor : Z) :
    result ResourceClaimArithmeticError ResourceClaim :=
  fill (λ d, ok_or (Overflow d) (checked_mul u64_max (amount a d) factor)) ALL claim_ZERO.

Arguments claim_checked_add : simpl never.
Arguments claim_checked_sub : simpl never.
Arguments claim_checked_scale : simpl never.

Fixpoint try_from_entries_from (claim : ResourceClaim) (entries : list (ResourceClass * Z)) :
    result ResourceClaimArithmeticError ResourceClaim :=
  match entries with
  | [] => Ok claim
  | (d, v) :: entries =>
      match checked_add u64_max (amount claim d) v with
      | Some v' => try_from_entries_from (mkClaim (<[index d := v']> (amounts claim))) entries
      | None => Err (Overflow d)
      end
  end.

Definition try_from_entries (entries : list (ResourceClass * Z)) :
    result ResourceClaimArithmeticError ResourceClaim :=
  try_from_entries_from claim_ZERO entries.

Definition claim_is_zero (c : ResourceClaim) : bool := forallb (λ a, a =? 0) (amounts c).

(** ** The representation invariant of a claim: eleven [u64] amounts *)
Definition claim_wf (c : ResourceClaim) : Prop :=
  length (amounts c) = RESOURCE_CLASS_COUNT ∧ Forall (in_u u64_max) (amounts c).

Lemma index_lt d : (index d < RESOURCE_CLASS_COUNT)%nat.
Proof. destruct d; cbn; unfold RESOURCE_CLASS_COUNT; lia. Qed.

Lemma index_inj d e : index d = index e → d = e.
Proof. destruct d, e; cbn; congruence. Qed.

Lemma ALL_complete d : d ∈ ALL.
Proof. destruct d; set_solver. Qed.

Lemma ALL_NoDup : NoDup ALL.
Proof. apply (bool_decide_unpack (NoDup ALL)). vm_compute. exact I. Qed.

Lemma amount_mk_insert c d v e :
  length (amounts c) = RESOURCE_CLASS_COUNT →
  amount (mkClaim (<[index d := v]> (amounts c))) e = if decide (d = e) then v else amount c e.
Proof.
  intros Hlen. unfold amount; cbn [amounts].
  rewrite !nth_lookup. case_decide as Hde.
  - subst e. rewrite list_lookup_insert_eq; [done|]. rewrite Hlen. apply index_lt.
  - rewrite list_lookup_insert_ne; [done|]. intros ?%index_inj; congruence.
Qed.

Lemma amount_bounds c d : claim_wf c → 0 ≤ amount c d ≤ u64_max.
Proof.
  intros [Hlen Hall]. unfold amount. rewrite nth_lookup.
  destruct (amounts c !! index d) as [v|] eqn:Hv; cbn; [|unfold u64_max; lia].
  rewrite Forall_lookup in Hall. by apply (Hall (index d)).
Qed.

Lemma claim_ext a b : claim_wf a → claim_wf b → (∀ d, amount a d = amount b d) → a = b.
Proof.
  destruct a as [la], b as [lb]. intros [Ha _] [Hb _] Hext; cbn in *. f_equal.
  unfold RESOURCE_CLASS_COUNT in *.
  repeat (destruct la as [|? la]; cbn in Ha; [lia|]); destruct la; [|cbn in Ha; lia].
  repeat (destruct lb as [|? lb]; cbn in Hb; [lia|]); destruct lb; [|cbn in Hb; lia].
  pose proof (Hext AccountedMemoryBytes). pose proof (Hext QueuedBytes).
  pose proof (Hext SocketOrHandle). pose proof (Hext NativeTransportObject).
  pose proof (Hext WorkerOrTask). pose proof (Hext CallbackOrScheduledWork).
  pose proof (Hext StorageBytes). pose proof (Hext StorageObject).
  pose proof (Hext RelayOrProviderAllocation). pose proof (Hext ParsingOrCpuWork).
  pose proof (Hext OpaqueDependencyResidual).
  unfold amount in *; cbn in *. subst. done.
Qed.

Lemma claim_ZERO_wf : claim_wf claim_ZERO.
Proof. split; [done|]. cbn. repeat constructor; unfold in_u, u64_max; lia. Qed.

Lemma amount_ZERO d : amount claim_ZERO d = 0.
Proof. by destruct d. Qed.

Lemma amount_single d v e : amount (single d v) e = if decide (d = e) then v else 0.
Proof. by destruct d, e. Qed.

Lemma insert_wf c d v : claim_wf c → in_u u64_max v → claim_wf (mkClaim (<[index d := v]> (amounts c))).
Proof.
  intros [Hlen Hall] Hv. split; cbn; [by rewrite length_insert|]. by apply Forall_insert.
Qed.

Lemma single_wf d v : in_u u64_max v → claim_wf (single d v).
Proof. intros. apply (insert_wf claim_ZERO); [apply claim_ZERO_wf|done]. Qed.

(** ** What the fill loop computes *)
Section fill.
Context {E : Type} (f : ResourceClass → result E Z).

Lemma fill_Ok dims acc c :
  length (amounts acc) = RESOURCE_CLASS_COUNT → NoDup dims → fill f dims acc = Ok c →
  length (amounts c) = RESOURCE_CLASS_COUNT ∧
  ∀ d, (d ∈ dims → f d = Ok (amount c d)) ∧ (d ∉ dims → amount c d = amount acc d).
Proof.
  revert acc. induction dims as [|d dims IH]; intros acc Hlen Hnd Hfill; cbn in *.
  { simplify_eq. set_solver. }
  apply NoDup_cons in Hnd as [Hd Hnd].
  destruct (f d) as [v|e] eqn:Hfd; [|done].
  apply IH in Hfill as [Hlenc Hc]; [|cbn; by rewrite length_insert|done].
  split; [done|]. intros e. destruct (Hc e) as [Hin Hout]. split.
  - intros [->|He]%elem_of_cons; [|auto].
    rewrite Hout, amount_mk_insert, decide_True; auto.
  - intros [Hne He]%not_elem_of_cons. rewrite Hout, amount_mk_insert, decide_False; auto.
Qed.

Lemma fill_total dims acc : (∀ d, d ∈ dims → ∃ v, f d = Ok v) → ∃ c, fill f dims acc = Ok c.
Proof.
  revert acc. induction dims as [|d dims IH]; intros acc Hf; cbn; [eauto|].
  destruct (Hf d) as [v ->]; [set_solver|]. apply IH. set_solver.
Qed.

(** The error is the one of the first failing dimension. *)
Lemma fill_Err dims acc e :
  fill f dims acc = Err e ↔
  ∃ pre d post, dims = pre ++ d :: post ∧ f d = Err e ∧ ∀ d', d' ∈ pre → is_ok (f d').
Proof.
  revert acc. induction dims as [|d dims IH]; intros acc; cbn.
  { split; [done|]. intros (pre & d & post & Heq & _). by destruct pre. }
  destruct (f d) as [v|e'] eqn:Hfd.
  - rewrite IH. split.
    + intros (pre & d' & post & -> & ? & ?). exists (d :: pre), d', post.
      split_and!; try done. intros ? [->|?]%elem_of_cons; [by rewrite Hfd|auto].
    + intros (pre & d' & post & Heq & He & Hpre). destruct pre as [|d0 pre]; simplify_eq/=; [congruence|].
      exists pre, d', post. split_and!; try done. intros ??; apply Hpre; set_solver.
  - split.
    + intros ?; simplify_eq. exists [], d, dims. split_and!; try done. set_solver.
    + intros (pre & d' & post & Heq & He & Hpre). destruct pre as [|d0 pre]; simplify_eq/=; [congruence|].
      exfalso. specialize (Hpre d0 ltac:(set_solver)). by rewrite Hfd in Hpre.
Qed.
End fill.

Lemma fill_ALL_Ok {E} (f : ResourceClass → result E Z) c :
  fill f ALL claim_ZERO = Ok c →
  length (amounts c) = RESOURCE_CLASS_COUNT ∧ ∀ d, f d = Ok (amount c d).
Proof.
  intros Hf. eapply fill_Ok in Hf as [? Hc]; [|done|apply ALL_NoDup].
  split; [done|]. intros d. apply Hc, ALL_complete.
Qed.

Lemma wf_of_amounts c :
  length (amounts c) = RESOURCE_CLASS_COUNT → (∀ d, 0 ≤ amount c d ≤ u64_max) → claim_wf c.
Proof.
  destruct c as [l]. intros Hl Hd. split; [done|]. cbn in *. unfold RESOURCE_CLASS_COUNT in Hl.
  repeat (destruct l as [|? l]; cbn in Hl; [lia|]); destruct l; [|cbn in Hl; lia].
  repeat constructor.
  1-2: apply (Hd AccountedMemoryBytes). 1-2: apply (Hd QueuedBytes).
  1-2: apply (Hd SocketOrHandle). 1-2: apply (Hd NativeTransportObject).
  1-2: apply (Hd WorkerOrTask). 1-2: apply (Hd CallbackOrScheduledWork).
  1-2: apply (Hd StorageBytes). 1-2: apply (Hd StorageObject).
  1-2: apply (Hd RelayOrProviderAllocation). 1-2: apply (Hd ParsingOrCpuWork).
  1-2: apply (Hd OpaqueDependencyResidual).
Qed.

Lemma claim_add_Ok a b c :
  claim_wf a → claim_wf b → claim_checked_add a b = Ok c →
  claim_wf c ∧ ∀ d, amount c d = amount a d + amount b d.
Proof.
  intros Ha Hb [Hlen Hc]%fill_ALL_Ok.
  assert (Hd : ∀ d, amount c d = amount a d + amount b d ∧ amount c d ≤ u64_max).
  { intros d. specialize (Hc d). destruct (checked_add _ _ _) eqn:Hadd; simplify_eq/=. z_norm. lia. }
  split; [|apply Hd]. apply wf_of_amounts; [done|]. intros d.
  pose proof (amount_bounds a d Ha). pose proof (amount_bounds b d Hb). specialize (Hd d). lia.
Qed.

Lemma claim_sub_Ok a b c :
  claim_wf a → claim_wf b → claim_checked_sub a b = Ok c →
  claim_wf c ∧ ∀ d, amount c d = amount a d - amount b d.
Proof.
  intros Ha Hb [Hlen Hc]%fill_ALL_Ok.
  assert (Hd : ∀ d, amount c d = amount a d - amount b d ∧ amount b d ≤ amount a d).
  { intros d. specialize (Hc d). destruct (checked_sub _ _) eqn:Hsub; simplify_eq/=. z_norm. lia. }
  split; [|apply Hd]. apply wf_of_amounts; [done|]. intros d.
  pose proof (amount_bounds a d Ha). pose proof (amount_bounds b d Hb). specialize (Hd d). lia.
Qed.

Lemma claim_sub_total a b :
  (∀ d, amount b d ≤ amount a d) → ∃ c, claim_checked_sub a b = Ok c.
Proof.
  intros Hle. apply fill_total. intros d _. specialize (Hle d).
  unfold checked_sub. case_match; cbn; [eauto|]. z_norm. lia.
Qed.

Lemma claim_add_total a b :
  (∀ d, amount a d + amount b d ≤ u64_max) → ∃ c, claim_checked_add a b = Ok c.
Proof.
  intros Hle. apply fill_total. intros d _. specialize (Hle d).
  unfold checked_add. case_match; cbn; [eauto|]. z_norm. lia.
Qed.

Lemma claim_scale_Ok a n c :
  claim_wf a → 0 ≤ n → claim_checked_scale a n = Ok c →
  claim_wf c ∧ ∀ d, amount c d = amount a d * n.
Proof.
  intros Ha Hn [Hlen Hc]%fill_ALL_Ok.
  assert (Hd : ∀ d, amount c d = amount a d * n ∧ amount c d ≤ u64_max).
  { intros d. specialize (Hc d). destruct (checked_mul _ _ _) eqn:Hmul; simplify_eq/=. z_norm. lia. }
  split; [|apply Hd]. apply wf_of_amounts; [done|]. intros d.
  pose proof (amount_bounds a d Ha). specialize (Hd d). nia.
Qed.
