(* ===== verification/Provider.v ===== *)
(** * The finite resource provider

    Models [mod finite] of crates/myownmesh-core/src/resource/provider.rs: the
    accounting state behind the provider mutex and every operation of the
    [ResourceProvider] trait on it.  An operation runs under the mutex, so it is
    a function on [State]; an early [Err] keeps whatever was changed before it.

    [Arc] identities ([ResourceScopeIdentity], scope ids) are addresses, hence
    [Z].  A panic while the mutex is held ([expect] and [assert!] in the
    reservation path) leaves the mutex poisoned; [lock_state] turns that into the
    provider's own [poisoned] marker on the next call. *)

From S2P Require Import Prelude Claims.
Local Open Scope Z_scope.

(** [AdmittedWork] is the source's [Admitted]. *)
Inductive ResourceAuthorityClass : Type := Cleanup | AdmittedWork | Speculative.

#[export] Instance ResourceAuthorityClass_eq_dec : EqDecision ResourceAuthorityClass.
Proof. solve_decision. Defined.

Record ResourcePressure : Type := mkPressure {
  pr_scope_id : Z;
  pr_authority : ResourceAuthorityClass;
  pr_dimension : ResourceClass;
  pr_requested : Z;
  pr_in_use : Z;
  pr_capacity : Z;
}.

Inductive ResourceUnavailable : Type :=
| Pressure (p : ResourcePressure)
| UnknownScope (scope_id : Z)
| ProviderInvariant (dimension : ResourceClass).

(** Either a typed refusal or a panic of the calling thread. *)
Inductive failure : Type :=
| Refused (u : ResourceUnavailable)
| Panicked.

Record Reservation : Type := mkReservation {
  rv_scope_id : Z;
  rv_authority : ResourceAuthorityClass;
  rv_claim : ResourceClaim;
}.

#[export] Instance Reservation_eq_dec : EqDecision Reservation.
Proof. solve_decision. Defined.

Record State : Type := mkState {
  grant : ResourceClaim;
  in_use : ResourceClaim;
  retained_after_failed_cleanup : ResourceClaim;
  poisoned : option ResourceClass;
  provider_authority : option Z;
  next_reservation_id : Z;
  reservations : gmap Z Reservation;
  scopes : gset Z;
  mutex_poisoned : bool;
}.

Definition set_in_use (c : ResourceClaim) (st : State) : State :=
  mkState (grant st) c (retained_after_failed_cleanup st) (poisoned st) (provider_authority st)
    (next_reservation_id st) (reservations st) (scopes st) (mutex_poisoned st).
Definition set_retained (c : ResourceClaim) (st : State) : State :=
  mkState (grant st) (in_use st) c (poisoned st) (provider_authority st)
    (next_reservation_id st) (reservations st) (scopes st) (mutex_poisoned st).
Definition set_poisoned (p : option ResourceClass) (st : State) : State :=
  mkState (grant st) (in_use st) (retained_after_failed_cleanup st) p (provider_authority st)
    (next_reservation_id st) (reservations st) (scopes st) (mutex_poisoned st).
Definition set_provider_authority (a : option Z) (st : State) : State :=
  mkState (grant st) (in_use st) (retained_after_failed_cleanup st) (poisoned st) a
    (next_reservation_id st) (reservations st) (scopes st) (mutex_poisoned st).
Definition set_next_reservation_id (n : Z) (st : State) : State :=
  mkState (grant st) (in_use st) (retained_after_failed_cleanup st) (poisoned st)
    (provider_authority st) n (reservations st) (scopes st) (mutex_poisoned st).
Definition set_reservations (r : gmap Z Reservation) (st : State) : State :=
  mkState (grant st) (in_use st) (retained_after_failed_cleanup st) (poisoned st)
    (provider_authority st) (next_reservation_id st) r (scopes st) (mutex_poisoned st).
Definition set_scopes (s : gset Z) (st : State) : State :=
  mkState (grant st) (in_use st) (retained_after_failed_cleanup st) (poisoned st)
    (provider_authority st) (next_reservation_id st) (reservations st) s (mutex_poisoned st).
Definition set_mutex_poisoned (b : bool) (st : State) : State :=
  mkState (grant st) (in_use st) (retained_after_failed_cleanup st) (poisoned st)
    (provider_authority st) (next_reservation_id st) (reservations st) (scopes st) b.

(** [FiniteResourceProvider::new]. *)
Definition provider_new (g : ResourceClaim) : State :=
  mkState g claim_ZERO claim_ZERO None None 1 ∅ ∅ false.

(** [Option::get_or_insert] on the [poisoned] field. *)
Definition poison (d : ResourceClass) (st : State) : State :=
  match poisoned st with
  | Some _ => st
  | None => set_poisoned (Some d) st
  end.

Definition lock_state (st : State) : State :=
  if mutex_poisoned st then poison OpaqueDependencyResidual st else st.

Definition bookkeeping_claim : ResourceClaim := single OpaqueDependencyResidual 1.

Definition reservation_charge (claim : ResourceClaim) : result ResourceUnavailable ResourceClaim :=
  map_err (λ _, ProviderInvariant OpaqueDependencyResidual) (claim_checked_add claim bookkeeping_claim).

Definition bind_provider_authority (authority : Z) (st : State) : State * result ResourceUnavailable () :=
  match provider_authority st with
  | Some bound =>
      if bound =? authority then (st, Ok ())
      else (st, Err (ProviderInvariant OpaqueDependencyResidual))
  | None => (set_provider_authority (Some authority) st, Ok ())
  end.

Definition require_provider_authority (st : State) (authority : Z) : result ResourceUnavailable () :=
  match provider_authority st with
  | Some bound =>
      if bound =? authority then Ok () else Err (ProviderInvariant OpaqueDependencyResidual)
  | None => Err (ProviderInvariant OpaqueDependencyResidual)
  end.

Definition check_poisoned (st : State) : result ResourceUnavailable () :=
  match poisoned st with
  | Some d => Err (ProviderInvariant d)
  | None => Ok ()
  end.

(** One iteration of the admission loop; the first component says whether the
    iteration poisoned the provider. *)
Definition admit_dimension (st : State) (base : ResourceClaim) (scope_id : Z)
    (authority : ResourceAuthorityClass) (parts : list ResourceClaim) (d : ResourceClass) :
    bool * result ResourceUnavailable Z :=
  let used := amount base d in
  let capacity := amount (grant st) d in
  if capacity <? used then (true, Err (ProviderInvariant d))
  else
    let total := foldr (λ part sum, amount part d + sum) 0 parts in
    if u64_max <? total then (false, Err (ProviderInvariant d))
    else if capacity - used <? total then
      (false, Err (Pressure (mkPressure scope_id authority d total used capacity)))
    else
      match checked_add u64_max used total with
      | Some next => (false, Ok next)
      | None => (false, Err (ProviderInvariant d))
      end.

(** [checked_admission] returns the in-use claim after admission (the caller
    discards the first component of the source's pair). *)
Fixpoint checked_admission_from (dims : list ResourceClass) (st : State) (base : ResourceClaim)
    (scope_id : Z) (authority : ResourceAuthorityClass) (parts : list ResourceClaim)
    (next : ResourceClaim) : State * result ResourceUnavailable ResourceClaim :=
  match dims with
  | [] => (st, Ok next)
  | d :: dims =>
      match admit_dimension st base scope_id authority parts d with
      | (_, Ok v) =>
          checked_admission_from dims st base scope_id authority parts
            (mkClaim (<[index d := v]> (amounts next)))
      | (true, Err e) => (poison d st, Err e)
      | (false, Err e) => (st, Err e)
      end
  end.

Definition checked_admission (st : State) (base : ResourceClaim) (scope_id : Z)
    (authority : ResourceAuthorityClass) (parts : list ResourceClaim) :
    State * result ResourceUnavailable ResourceClaim :=
  checked_admission_from ALL st base scope_id authority parts base.

Arguments checked_admission : simpl never.

(** [allocate_reservation_id]: [None] is the panic on an exhausted counter. *)
Definition allocate_reservation_id (st : State) : option (State * Z) :=
  let id := next_reservation_id st in
  match checked_add u64_max id 1 with
  | Some n => Some (set_next_reservation_id n st, id)
  | None => None
  end.

(** Insert the reservation under a fresh identity; both [expect] and [assert!]
    panic with the mutex held. *)
Definition insert_reservation (st : State) (r : Reservation) (next : ResourceClaim) :
    State * result failure Z :=
  match allocate_reservation_id st with
  | None => (set_mutex_poisoned true st, Err Panicked)
  | Some (st, id) =>
      match reservations st !! id with
      | Some _ => (set_mutex_poisoned true (set_reservations (<[id := r]> (reservations st)) st), Err Panicked)
      | None => (set_in_use next (set_reservations (<[id := r]> (reservations st)) st), Ok id)
      end
  end.

Definition create_scope (st : State) (authority scope_id : Z) (parent : option Z) :
    State * result failure () :=
  let st := lock_state st in
  match check_poisoned st with Err e => (st, Err (Refused e)) | Ok _ =>
  match bind_provider_authority authority st with (st, Err e) => (st, Err (Refused e)) | (st, Ok _) =>
  match (match parent with
         | Some p => if decide (p ∈ scopes st) then None else Some p
         | None => None
         end) with
  | Some p => (st, Err (Refused (UnknownScope p)))
  | None =>
  if decide (scope_id ∈ scopes st) then
    (poison OpaqueDependencyResidual st, Err (Refused (ProviderInvariant OpaqueDependencyResidual)))
  else
    match checked_admission st (in_use st) scope_id Speculative [bookkeeping_claim] with
    | (st, Err e) => (st, Err (Refused e))
    | (st, Ok next) => (set_in_use next (set_scopes ({[scope_id]} ∪ scopes st) st), Ok ())
    end
  end end end.

Definition create_scope_and_acquire (st : State) (authority scope_id parent : Z)
    (class : ResourceAuthorityClass) (claim : ResourceClaim) : State * result failure Z :=
  let st := lock_state st in
  match check_poisoned st with Err e => (st, Err (Refused e)) | Ok _ =>
  match require_provider_authority st authority with Err e => (st, Err (Refused e)) | Ok _ =>
  if decide (parent ∉ scopes st) then (st, Err (Refused (UnknownScope parent)))
  else if decide (scope_id ∈ scopes st) then
    (poison OpaqueDependencyResidual st, Err (Refused (ProviderInvariant OpaqueDependencyResidual)))
  else
    match (match reservation_charge claim with
           | Ok c => map_err (λ _, ProviderInvariant OpaqueDependencyResidual)
                       (claim_checked_add c bookkeeping_claim)
           | Err e => Err e
           end) with
    | Err e => (st, Err (Refused e))
    | Ok charge =>
      match checked_admission st (in_use st) scope_id class [charge] with
      | (st, Err e) => (st, Err (Refused e))
      | (st, Ok next) =>
          insert_reservation (set_scopes ({[scope_id]} ∪ scopes st) st)
            (mkReservation scope_id class claim) next
      end
    end
  end end.

Definition release_scope (st : State) (authority scope_id : Z) : State :=
  let st := lock_state st in
  match require_provider_authority st authority with
  | Err _ => st
  | Ok _ =>
    if decide (scope_id ∉ scopes st ∨
               map_Exists (λ _ r, rv_scope_id r = scope_id) (reservations st)) then
      poison OpaqueDependencyResidual st
    else
      match claim_checked_sub (in_use st) bookkeeping_claim with
      | Err _ => poison OpaqueDependencyResidual st
      | Ok next => set_in_use next (set_scopes (scopes st ∖ {[scope_id]}) st)
      end
  end.

Definition acquire (st : State) (authority scope_id : Z) (class : ResourceAuthorityClass)
    (claim : ResourceClaim) : State * result failure Z :=
  let st := lock_state st in
  match check_poisoned st with Err e => (st, Err (Refused e)) | Ok _ =>
  match require_provider_authority st authority with Err e => (st, Err (Refused e)) | Ok _ =>
  if decide (scope_id ∉ scopes st) then (st, Err (Refused (UnknownScope scope_id)))
  else
    match reservation_charge claim with
    | Err e => (st, Err (Refused e))
    | Ok charge =>
      match checked_admission st (in_use st) scope_id class [charge] with
      | (st, Err e) => (st, Err (Refused e))
      | (st, Ok next) => insert_reservation st (mkReservation scope_id class claim) next
      end
    end
  end end.

(** The [exact] test shared by [transition], [release] and
    [retain_after_failed_cleanup]. *)
Definition exact_reservation (st : State) (reservation_id scope_id : Z)
    (class : ResourceAuthorityClass) (claim : ResourceClaim) : bool :=
  match reservations st !! reservation_id with
  | Some r => bool_decide (r = mkReservation scope_id class claim)
  | None => false
  end.

Definition arithmetic_unavailable (e : ResourceClaimArithmeticError) : ResourceUnavailable :=
  match e with Overflow d | Underflow d => ProviderInvariant d end.

Definition transition (st : State) (authority reservation_id scope_id : Z)
    (class : ResourceAuthorityClass) (claim : ResourceClaim)
    (class' : ResourceAuthorityClass) (claim' : ResourceClaim) : State * result failure () :=
  let st := lock_state st in
  match check_poisoned st with Err e => (st, Err (Refused e)) | Ok _ =>
  match require_provider_authority st authority with Err e => (st, Err (Refused e)) | Ok _ =>
  if decide (scope_id ∉ scopes st) then (st, Err (Refused (UnknownScope scope_id)))
  else if negb (exact_reservation st reservation_id scope_id class claim) then
    (poison OpaqueDependencyResidual st, Err (Refused (ProviderInvariant OpaqueDependencyResidual)))
  else
    match (match reservation_charge claim with
           | Ok c => map_err arithmetic_unavailable (claim_checked_sub (in_use st) c)
           | Err e => Err e
           end) with
    | Err e => (st, Err (Refused e))
    | Ok without_current =>
      match reservation_charge claim' with
      | Err e => (st, Err (Refused e))
      | Ok charge =>
        match checked_admission st without_current scope_id class' [charge] with
        | (st, Err e) => (st, Err (Refused e))
        | (st, Ok next) =>
            (set_in_use next
               (set_reservations
                  (<[reservation_id := mkReservation scope_id class' claim']> (reservations st)) st),
             Ok ())
        end
      end
    end
  end end.

Definition release (st : State) (authority reservation_id scope_id : Z)
    (class : ResourceAuthorityClass) (claim : ResourceClaim) : State :=
  let st := lock_state st in
  match require_provider_authority st authority with
  | Err _ => st
  | Ok _ =>
    if decide (scope_id ∉ scopes st) then poison OpaqueDependencyResidual st
    else if negb (exact_reservation st reservation_id scope_id class claim) then
      poison OpaqueDependencyResidual st
    else
      match reservation_charge claim with
      | Err _ => poison OpaqueDependencyResidual st
      | Ok charged =>
        match claim_checked_sub (in_use st) charged with
        | Err _ => poison OpaqueDependencyResidual st
        | Ok next => set_in_use next (set_reservations (delete reservation_id (reservations st)) st)
        end
      end
  end.

Definition retain_after_cleanup (st : State) (authority reservation_id scope_id : Z)
    (class : ResourceAuthorityClass) (claim : ResourceClaim) :
    State * result failure ResourceClaim :=
  let st := lock_state st in
  match require_provider_authority st authority with
  | Err _ => (st, Err (Refused (ProviderInvariant OpaqueDependencyResidual)))
  | Ok _ =>
    if decide (scope_id ∉ scopes st) then
      (poison OpaqueDependencyResidual st, Err (Refused (ProviderInvariant OpaqueDependencyResidual)))
    else if negb (exact_reservation st reservation_id scope_id class claim) then
      (poison OpaqueDependencyResidual st, Err (Refused (ProviderInvariant OpaqueDependencyResidual)))
    else
      match claim_checked_add (retained_after_failed_cleanup st) claim with
      | Err _ => (poison OpaqueDependencyResidual st, Err (Refused (ProviderInvariant OpaqueDependencyResidual)))
      | Ok retained =>
        match claim_checked_sub (in_use st) bookkeeping_claim with
        | Err _ => (poison OpaqueDependencyResidual st, Err (Refused (ProviderInvariant OpaqueDependencyResidual)))
        | Ok next =>
            (set_in_use next (set_retained retained
               (set_reservations (delete reservation_id (reservations st)) st)), Ok claim)
        end
      end
  end.

(** [pressure]: reads under the lock, reserves nothing. *)
Definition pressure (st : State) (_authority scope_id : Z) (class : ResourceAuthorityClass)
    (d : ResourceClass) : State * ResourcePressure :=
  let st := lock_state st in
  (st, mkPressure scope_id class d 0 (amount (in_use st) d) (amount (grant st) d)).

(** ** The accounting view of a state

    What a refusal must not touch. *)
Definition accounts (st : State) :
    ResourceClaim * ResourceClaim * ResourceClaim * gmap Z Reservation * gset Z * Z :=
  (grant st, in_use st, retained_after_failed_cleanup st, reservations st, scopes st,
   next_reservation_id st).

(** What is charged in dimension [d]: retained claims, every live reservation
    with its bookkeeping unit, and one bookkeeping unit per scope. *)
Definition charged (st : State) (d : ResourceClass) : Z :=
  amount (retained_after_failed_cleanup st) d
  + msum (λ r, amount (rv_claim r) d + amount bookkeeping_claim d) (reservations st)
  + amount bookkeeping_claim d * Z.of_nat (size (scopes st)).

(** The provider invariant. *)
Record provider_inv (st : State) : Prop := {
  inv_grant_wf : claim_wf (grant st);
  inv_in_use_wf : claim_wf (in_use st);
  inv_retained_wf : claim_wf (retained_after_failed_cleanup st);
  inv_claims_wf : map_Forall (λ _ r, claim_wf (rv_claim r)) (reservations st);
  inv_within_grant : ∀ d, amount (in_use st) d ≤ amount (grant st) d;
  inv_conserved : mutex_poisoned st = false → ∀ d, amount (in_use st) d = charged st d;
  inv_ids : map_Forall (λ id _, 1 ≤ id < next_reservation_id st) (reservations st);
  inv_next : 1 ≤ next_reservation_id st ≤ u64_max;
  inv_scoped : map_Forall (λ _ r, rv_scope_id r ∈ scopes st) (reservations st);
}.

Lemma bookkeeping_wf : claim_wf bookkeeping_claim.
Proof. apply single_wf. unfold in_u, u64_max. lia. Qed.
#[export] Hint Resolve bookkeeping_wf claim_ZERO_wf : claims.

Lemma bookkeeping_bound d : 0 ≤ amount bookkeeping_claim d ≤ 1.
Proof. unfold bookkeeping_claim. rewrite amount_single. case_decide; lia. Qed.

Lemma accounts_poison d st : accounts (poison d st) = accounts st.
Proof. unfold poison. by destruct (poisoned st). Qed.

Lemma accounts_lock st : accounts (lock_state st) = accounts st.
Proof. unfold lock_state. destruct (mutex_poisoned st); [apply accounts_poison|done]. Qed.

Lemma mutex_poison d st : mutex_poisoned (poison d st) = mutex_poisoned st.
Proof. unfold poison. by destruct (poisoned st). Qed.

Lemma mutex_lock st : mutex_poisoned (lock_state st) = mutex_poisoned st.
Proof. unfold lock_state. destruct (mutex_poisoned st) eqn:?; [by rewrite mutex_poison|done]. Qed.

(** The invariant only reads the accounting view and the mutex flag. *)
Lemma provider_inv_accounts st st' :
  accounts st' = accounts st → mutex_poisoned st' = mutex_poisoned st →
  provider_inv st → provider_inv st'.
Proof.
  unfold accounts. intros [= Hg Hu Hr Hres Hs Hn] Hm []. unfold charged in *.
  split; rewrite ?Hg, ?Hu, ?Hr, ?Hres, ?Hs, ?Hn; try done.
  rewrite Hm. unfold charged. rewrite Hr, Hres, Hs. done.
Qed.

Lemma provider_inv_poison d st : provider_inv st → provider_inv (poison d st).
Proof. apply provider_inv_accounts; [apply accounts_poison|apply mutex_poison]. Qed.
Lemma provider_inv_lock st : provider_inv st → provider_inv (lock_state st).
Proof. apply provider_inv_accounts; [apply accounts_lock|apply mutex_lock]. Qed.
#[export] Hint Resolve provider_inv_poison provider_inv_lock : provider.

(** ** The admission loop *)
Definition parts_total (parts : list ResourceClaim) (d : ResourceClass) : Z :=
  foldr (λ part sum, amount part d + sum) 0 parts.

Lemma admit_dimension_spec st base s a parts d :
  let '(p, r) := admit_dimension st base s a parts d in
  match r with
  | Ok v => v = amount base d + parts_total parts d ∧ v ≤ amount (grant st) d
  | Err _ => p = true → amount (grant st) d < amount base d
  end.
Proof.
  unfold admit_dimension. fold (parts_total parts d).
  repeat case_match; simplify_eq; z_norm; try done; try lia.
Qed.

Lemma admission_from_spec dims st base s a parts next :
  length (amounts next) = RESOURCE_CLASS_COUNT → NoDup dims →
  let '(st', r) := checked_admission_from dims st base s a parts next in
  accounts st' = accounts st ∧ mutex_poisoned st' = mutex_poisoned st ∧
  provider_authority st' = provider_authority st ∧
  match r with
  | Ok c =>
      st' = st ∧ length (amounts c) = RESOURCE_CLASS_COUNT ∧
      ∀ d, (d ∈ dims → amount c d = amount base d + parts_total parts d ∧
                       amount c d ≤ amount (grant st) d) ∧
           (d ∉ dims → amount c d = amount next d)
  | Err _ => st' = st ∨ ∃ d, st' = poison d st ∧ amount (grant st) d < amount base d
  end.
Proof.
  revert next. induction dims as [|d dims IH]; intros next Hlen Hnd; cbn.
  { split_and!; try done. intros d; split; [by intros ?%elem_of_nil|done]. }
  apply NoDup_cons in Hnd as [Hd Hnd].
  pose proof (admit_dimension_spec st base s a parts d) as Hdim.
  destruct (admit_dimension st base s a parts d) as [p [v|e]].
  - destruct Hdim as [-> Hle].
    specialize (IH (mkClaim (<[index d := amount base d + parts_total parts d]> (amounts next)))).
    cbn [amounts] in IH. rewrite length_insert in IH. specialize (IH Hlen Hnd).
    assert (Hstep : ∀ c, (∀ d', (d' ∈ dims → amount c d' = amount base d' + parts_total parts d' ∧
                                   amount c d' ≤ amount (grant st) d') ∧
             (d' ∉ dims → amount c d' =
                amount (mkClaim (<[index d := amount base d + parts_total parts d]> (amounts next))) d')) →
      ∀ d', (d' ∈ d :: dims → amount c d' = amount base d' + parts_total parts d' ∧
                                   amount c d' ≤ amount (grant st) d') ∧
             (d' ∉ d :: dims → amount c d' = amount next d')).
    { intros c Hc d'. destruct (Hc d') as [Hin Hout]. split.
      - intros [->|?]%elem_of_cons; [|auto].
        rewrite Hout, amount_mk_insert, decide_True by done. lia.
      - intros [? ?]%not_elem_of_cons. by rewrite Hout, amount_mk_insert, decide_False by done. }
    destruct p.
    all: destruct (checked_admission_from _ _ _ _ _ _ _) as [st' [c|e]]; [|done].
    all: destruct IH as (? & ? & ? & ? & ? & IH); split_and!; auto.
  - destruct p; split_and!; try done.
    + apply accounts_poison.
    + apply mutex_poison.
    + unfold poison. by destruct (poisoned st).
    + right. exists d. split; [done|]. by apply Hdim.
    + by left.
Qed.

Lemma checked_admission_spec st base s a parts st' r :
  claim_wf base → (∀ d, 0 ≤ parts_total parts d) → claim_wf (grant st) →
  checked_admission st base s a parts = (st', r) →
  accounts st' = accounts st ∧ mutex_poisoned st' = mutex_poisoned st ∧
  provider_authority st' = provider_authority st ∧
  match r with
  | Ok c =>
      st' = st ∧ claim_wf c ∧
      ∀ d, amount c d = amount base d + parts_total parts d ∧ amount c d ≤ amount (grant st) d
  | Err _ => st' = st ∨ ∃ d, st' = poison d st ∧ amount (grant st) d < amount base d
  end.
Proof.
  intros Hbase Hparts Hgrant Hadm.
  pose proof (admission_from_spec ALL st base s a parts base (proj1 Hbase) ALL_NoDup) as Hspec.
  unfold checked_admission in Hadm. rewrite Hadm in Hspec.
  destruct Hspec as (? & ? & ? & Hr). split_and!; try done.
  destruct r as [c|e]; [|done]. destruct Hr as (-> & Hlen & Hc).
  assert (Hd : ∀ d, amount c d = amount base d + parts_total parts d ∧ amount c d ≤ amount (grant st) d).
  { intros d. apply Hc, ALL_complete. }
  split_and!; try done. apply wf_of_amounts; [done|]. intros d.
  pose proof (amount_bounds base d Hbase). pose proof (amount_bounds (grant st) d Hgrant).
  specialize (Hd d). specialize (Hparts d). lia.
Qed.

(** Admission succeeds exactly when every dimension fits under the grant. *)
Lemma checked_admission_fits st base s a parts :
  claim_wf base → claim_wf (grant st) → (∀ d, 0 ≤ parts_total parts d) →
  (∀ d, amount base d + parts_total parts d ≤ amount (grant st) d) →
  ∃ c, checked_admission st base s a parts = (st, Ok c).
Proof.
  intros Hbase Hgrant Hparts Hfit. unfold checked_admission.
  assert (Hd : ∀ d, admit_dimension st base s a parts d
                    = (false, Ok (amount base d + parts_total parts d))).
  { intros d. unfold admit_dimension. fold (parts_total parts d).
    pose proof (amount_bounds base d Hbase). pose proof (amount_bounds (grant st) d Hgrant).
    specialize (Hfit d). specialize (Hparts d).
    repeat case_match; z_norm; simplify_eq; try lia; repeat f_equal; lia. }
  generalize base at 2. induction ALL as [|d dims IH]; intros next; cbn; [eauto|].
  rewrite Hd. apply IH.
Qed.

Lemma parts_total_one c d : parts_total [c] d = amount c d.
Proof. cbn. lia. Qed.

Lemma reservation_charge_Ok c c' :
  claim_wf c → reservation_charge c = Ok c' →
  claim_wf c' ∧ ∀ d, amount c' d = amount c d + amount bookkeeping_claim d.
Proof.
  unfold reservation_charge. intros Hc. destruct (claim_checked_add _ _) eqn:Hadd; intros; simplify_eq/=.
  apply claim_add_Ok in Hadd as [? ?]; auto with claims.
Qed.

(** ** Preservation, operation by operation *)
Lemma insert_reservation_inv st r next :
  provider_inv (set_mutex_poisoned true st) →
  claim_wf (rv_claim r) → rv_scope_id r ∈ scopes st → claim_wf next →
  (∀ d, amount next d ≤ amount (grant st) d) →
  (mutex_poisoned st = false →
     ∀ d, amount next d = charged st d + (amount (rv_claim r) d + amount bookkeeping_claim d)) →
  provider_inv (insert_reservation st r next).1.
Proof.
  intros Hinv Hr Hs Hnext Hle Hcons.
  unfold insert_reservation, allocate_reservation_id.
  destruct (checked_add u64_max (next_reservation_id st) 1) as [n|] eqn:Hn; [|done].
  z_norm. subst n. destruct Hinv; cbn in *.
  assert (Hfresh : reservations st !! next_reservation_id st = None).
  { destruct (reservations st !! next_reservation_id st) eqn:Hlk; [|done].
    apply inv_ids0 in Hlk; cbn in Hlk. lia. }
  rewrite Hfresh. split; cbn; try done.
  - by apply map_Forall_insert_2.
  - intros Hm d. unfold charged; cbn. rewrite msum_insert by done.
    rewrite (Hcons Hm d). unfold charged. cbv beta. lia.
  - apply map_Forall_insert_2; [lia|]. eapply map_Forall_impl; [exact inv_ids0|]. cbn; intros; lia.
  - lia.
  - by apply map_Forall_insert_2.
Qed.

Lemma insert_reservation_Ok st r next :
  provider_inv (set_mutex_poisoned true st) → next_reservation_id st < u64_max →
  insert_reservation st r next =
  (set_in_use next (set_reservations (<[next_reservation_id st := r]> (reservations st))
     (set_next_reservation_id (next_reservation_id st + 1) st)), Ok (next_reservation_id st)).
Proof.
  intros Hinv Hlt. unfold insert_reservation, allocate_reservation_id.
  destruct (checked_add u64_max (next_reservation_id st) 1) as [n|] eqn:Hn; z_norm; [|lia].
  subst n. cbn. destruct (reservations st !! next_reservation_id st) eqn:Hlk; [|done].
  apply (inv_ids _ Hinv) in Hlk; cbn in Hlk. lia.
Qed.

Lemma provider_inv_weaken st : provider_inv st → provider_inv (set_mutex_poisoned true st).
Proof. intros []. by split. Qed.

Lemma provider_inv_authority a st : provider_inv st → provider_inv (set_provider_authority a st).
Proof. by apply provider_inv_accounts. Qed.

(** Closing an operation: split every test, then use the accounting lemmas. *)
Ltac provider_cases :=
  repeat match goal with
  | |- context [match ?x with _ => _ end] => destruct x eqn:?; cbn [fst snd]
  end; auto with provider.

Lemma create_scope_inv st a s p : provider_inv st → provider_inv (create_scope st a s p).1.
Proof.
  intros Hinv. apply provider_inv_lock in Hinv. unfold create_scope.
  revert Hinv. generalize (lock_state st). clear st. intros st Hinv.
  destruct (check_poisoned st); [|done].
  assert (Hb : provider_inv (bind_provider_authority a st).1).
  { unfold bind_provider_authority. provider_cases. by apply provider_inv_authority. }
  destruct (bind_provider_authority a st) as [st1 [|]]; [|done]. cbn in Hb. clear Hinv st.
  destruct (match p with Some _ => _ | None => None end); [done|].
  case_decide as Hs; [cbn; by apply provider_inv_poison|].
  destruct (checked_admission _ _ _ _ _) as [st2 r] eqn:Hadm.
  apply checked_admission_spec in Hadm as (Hacc & Hm & _ & Hr); try apply Hb.
  2:{ intros d. rewrite parts_total_one. apply bookkeeping_bound. }
  destruct r as [next|e]; cbn; [|by eapply provider_inv_accounts].
  destruct Hr as (-> & Hwf & Hn). destruct Hb. split; cbn; try done.
  - intros d. apply Hn.
  - intros Hmf d. destruct (Hn d) as [-> _]. rewrite parts_total_one, inv_conserved0 by done.
    unfold charged; cbn. rewrite size_union, size_singleton by set_solver. lia.
  - eapply map_Forall_impl; [exact inv_scoped0|]. set_solver.
Qed.

Lemma acquire_inv st a s cl c : claim_wf c → provider_inv st → provider_inv (acquire st a s cl c).1.
Proof.
  intros Hc Hinv. apply provider_inv_lock in Hinv. unfold acquire.
  revert Hinv. generalize (lock_state st). clear st. intros st Hinv.
  destruct (check_poisoned st); [|done].
  destruct (require_provider_authority st a); [|done].
  case_decide as Hs; [done|].
  destruct (reservation_charge c) as [charge|] eqn:Hch; [|done].
  apply reservation_charge_Ok in Hch as [Hchwf Hch]; [|done].
  destruct (checked_admission _ _ _ _ _) as [st2 r] eqn:Hadm.
  apply checked_admission_spec in Hadm as (Hacc & Hm & _ & Hr); try apply Hinv.
  2:{ intros d. rewrite parts_total_one. by apply amount_bounds. }
  destruct r as [next|e]; cbn; [|by eapply provider_inv_accounts].
  destruct Hr as (-> & Hwf & Hn).
  apply insert_reservation_inv; cbn; try done; [by apply provider_inv_weaken|apply Hn|].
  intros Hmf d. destruct (Hn d) as [-> _]. rewrite parts_total_one, Hch.
  rewrite (inv_conserved _ Hinv Hmf). lia.
Qed.

Lemma create_scope_and_acquire_inv st a s p cl c :
  claim_wf c → provider_inv st → provider_inv (create_scope_and_acquire st a s p cl c).1.
Proof.
  intros Hc Hinv. apply provider_inv_lock in Hinv. unfold create_scope_and_acquire.
  revert Hinv. generalize (lock_state st). clear st. intros st Hinv.
  destruct (check_poisoned st); [|done].
  destruct (require_provider_authority st a); [|done].
  case_decide as Hp; [done|]. case_decide as Hs; [cbn; by apply provider_inv_poison|].
  destruct (reservation_charge c) as [c1|] eqn:Hc1; [|done].
  apply reservation_charge_Ok in Hc1 as [Hwf1 Hc1]; [|done].
  destruct (claim_checked_add c1 bookkeeping_claim) as [charge|] eqn:Hc2; cbn; [|done].
  apply claim_add_Ok in Hc2 as [Hwf2 Hc2]; auto with claims.
  destruct (checked_admission _ _ _ _ _) as [st2 r] eqn:Hadm.
  apply checked_admission_spec in Hadm as (Hacc & Hm & _ & Hr); try apply Hinv.
  2:{ intros d. rewrite parts_total_one. by apply amount_bounds. }
  destruct r as [next|e]; cbn; [|by eapply provider_inv_accounts].
  destruct Hr as (-> & Hwf & Hn).
  apply insert_reservation_inv; cbn; try done; [|set_solver|apply Hn|].
  - destruct Hinv. split; cbn; try done. eapply map_Forall_impl; [exact inv_scoped0|]. set_solver.
  - intros Hmf d. destruct (Hn d) as [-> _]. rewrite parts_total_one, Hc2, Hc1.
    rewrite (inv_conserved _ Hinv Hmf). unfold charged; cbn.
    rewrite size_union, size_singleton by set_solver. lia.
Qed.

Lemma release_scope_inv st a s : provider_inv st → provider_inv (release_scope st a s).
Proof.
  intros Hinv. apply provider_inv_lock in Hinv. unfold release_scope.
  revert Hinv. generalize (lock_state st). clear st. intros st Hinv.
  destruct (require_provider_authority st a); [|done].
  case_decide as Hs; [by apply provider_inv_poison|].
  destruct (claim_checked_sub _ _) as [next|] eqn:Hsub; [|by apply provider_inv_poison].
  destruct Hinv. apply claim_sub_Ok in Hsub as [Hwf Hn]; auto with claims.
  apply Decidable.not_or in Hs as [Hin Hex]. apply dec_stable in Hin.
  split; cbn; try done.
  - intros d. rewrite Hn. specialize (inv_within_grant0 d). pose proof (bookkeeping_bound d). lia.
  - intros Hmf d. rewrite Hn, inv_conserved0 by done. unfold charged; cbn.
    rewrite size_difference, size_singleton by set_solver.
    assert (size (scopes st) ≠ 0%nat).
    { intros Hz%size_empty_inv. set_solver. }
    rewrite Nat2Z.inj_sub by lia. pose proof (bookkeeping_bound d). lia.
  - intros id r Hid. specialize (inv_scoped0 id r Hid); cbn in inv_scoped0.
    apply elem_of_difference. split; [done|]. intros Hr%elem_of_singleton.
    apply Hex. by exists id, r.
Qed.

Lemma exact_reservation_true st i s cl c :
  exact_reservation st i s cl c = true → reservations st !! i = Some (mkReservation s cl c).
Proof. unfold exact_reservation. destruct (reservations st !! i); [|done]. intros ->%bool_decide_eq_true. done. Qed.

Lemma transition_inv st a i s cl c cl' c' :
  claim_wf c' → provider_inv st → provider_inv (transition st a i s cl c cl' c').1.
Proof.
  intros Hc' Hinv. apply provider_inv_lock in Hinv. unfold transition.
  revert Hinv. generalize (lock_state st). clear st. intros st Hinv.
  destruct (check_poisoned st); [|done].
  destruct (require_provider_authority st a); [|done].
  case_decide as Hs; [done|].
  destruct (exact_reservation st i s cl c) eqn:Hex; cbn; [|by apply provider_inv_poison].
  apply exact_reservation_true in Hex.
  assert (Hc : claim_wf c) by apply (inv_claims_wf _ Hinv _ _ Hex).
  destruct (reservation_charge c) as [ch|] eqn:Hch; [|done].
  apply reservation_charge_Ok in Hch as [Hchwf Hch]; [|done].
  destruct (claim_checked_sub (in_use st) ch) as [wo|] eqn:Hwo; cbn; [|done].
  apply claim_sub_Ok in Hwo as [Hwowf Hwo]; [|apply Hinv|done].
  destruct (reservation_charge c') as [ch'|] eqn:Hch'; cbn; [|done].
  apply reservation_charge_Ok in Hch' as [Hchwf' Hch']; [|done].
  destruct (checked_admission _ _ _ _ _) as [st2 r] eqn:Hadm.
  apply checked_admission_spec in Hadm as (Hacc & Hm & _ & Hr); try done; try apply Hinv.
  2:{ intros d. rewrite parts_total_one. by apply amount_bounds. }
  destruct r as [next|e]; cbn; [|by eapply provider_inv_accounts].
  destruct Hr as (-> & Hwf & Hn). destruct Hinv. split; cbn; try done.
  - by apply map_Forall_insert_2.
  - intros d. apply Hn.
  - intros Hmf d. destruct (Hn d) as [-> _]. rewrite parts_total_one, Hch', Hwo, Hch.
    rewrite inv_conserved0 by done. unfold charged; cbn.
    erewrite msum_replace by done. cbn. lia.
  - apply map_Forall_insert_2; [|done]. by apply (inv_ids0 _ _ Hex).
  - by apply map_Forall_insert_2.
Qed.

Lemma release_inv st a i s cl c : provider_inv st → provider_inv (release st a i s cl c).
Proof.
  intros Hinv. apply provider_inv_lock in Hinv. unfold release.
  revert Hinv. generalize (lock_state st). clear st. intros st Hinv.
  destruct (require_provider_authority st a); [|done].
  case_decide as Hs; [by apply provider_inv_poison|].
  destruct (exact_reservation st i s cl c) eqn:Hex; cbn; [|by apply provider_inv_poison].
  apply exact_reservation_true in Hex.
  assert (Hc : claim_wf c) by apply (inv_claims_wf _ Hinv _ _ Hex).
  destruct (reservation_charge c) as [ch|] eqn:Hch; [|by apply provider_inv_poison].
  apply reservation_charge_Ok in Hch as [Hchwf Hch]; [|done].
  destruct (claim_checked_sub (in_use st) ch) as [next|] eqn:Hsub; [|by apply provider_inv_poison].
  destruct Hinv. apply claim_sub_Ok in Hsub as [Hwf Hn]; [|done..].
  split; cbn; try (by apply map_Forall_delete); try done.
  - intros d. rewrite Hn. specialize (inv_within_grant0 d). pose proof (amount_bounds ch d Hchwf). lia.
  - intros Hmf d. rewrite Hn, Hch, inv_conserved0 by done. unfold charged; cbn.
    rewrite (msum_delete _ (reservations st) i _ Hex). cbn. lia.
Qed.

Lemma retain_inv st a i s cl c : provider_inv st → provider_inv (retain_after_cleanup st a i s cl c).1.
Proof.
  intros Hinv. apply provider_inv_lock in Hinv. unfold retain_after_cleanup.
  revert Hinv. generalize (lock_state st). clear st. intros st Hinv.
  destruct (require_provider_authority st a); [|done].
  case_decide as Hs; [by apply provider_inv_poison|].
  destruct (exact_reservation st i s cl c) eqn:Hex; cbn; [|by apply provider_inv_poison].
  apply exact_reservation_true in Hex.
  assert (Hc : claim_wf c) by apply (inv_claims_wf _ Hinv _ _ Hex).
  destruct (claim_checked_add _ c) as [ret|] eqn:Hret; [|by apply provider_inv_poison].
  destruct (claim_checked_sub (in_use st) _) as [next|] eqn:Hsub; [|by apply provider_inv_poison].
  destruct Hinv. apply claim_sub_Ok in Hsub as [Hwf Hn]; auto with claims.
  apply claim_add_Ok in Hret as [Hrwf Hr]; [|done..].
  split; cbn; try (by apply map_Forall_delete); try done.
  - intros d. rewrite Hn. specialize (inv_within_grant0 d). pose proof (bookkeeping_bound d). lia.
  - intros Hmf d. rewrite Hn, inv_conserved0 by done. unfold charged; cbn.
    rewrite (msum_delete _ (reservations st) i _ Hex), Hr. cbn. lia.
Qed.
#[export] Hint Resolve create_scope_inv acquire_inv create_scope_and_acquire_inv release_scope_inv
  transition_inv release_inv retain_inv : provider.

Lemma provider_new_inv g : claim_wf g → provider_inv (provider_new g).
Proof.
  intros Hg. split; cbn; auto with claims; try apply map_Forall_empty.
  - intros d. rewrite amount_ZERO. by apply amount_bounds.
  - intros _ d. unfold charged; cbn. rewrite amount_ZERO, msum_empty, size_empty. lia.
  - unfold u64_max. lia.
Qed.

(** ** Reachable states

    One rule per trait method, with arbitrary arguments: a caller may present
    any authority, identity and claim. *)
Inductive provider_step : State → State → Prop :=
| step_create_scope st a s p : provider_step st (create_scope st a s p).1
| step_create_and_acquire st a s p cl c :
    claim_wf c → provider_step st (create_scope_and_acquire st a s p cl c).1
| step_release_scope st a s : provider_step st (release_scope st a s)
| step_acquire st a s cl c : claim_wf c → provider_step st (acquire st a s cl c).1
| step_transition st a i s cl c cl' c' :
    claim_wf c → claim_wf c' → provider_step st (transition st a i s cl c cl' c').1
| step_release st a i s cl c : claim_wf c → provider_step st (release st a i s cl c)
| step_retain st a i s cl c : claim_wf c → provider_step st (retain_after_cleanup st a i s cl c).1
| step_pressure st a s cl d : provider_step st (pressure st a s cl d).1.

Lemma provider_step_inv st st' : provider_step st st' → provider_inv st → provider_inv st'.
Proof. destruct 1; eauto with provider. by apply provider_inv_lock. Qed.

Lemma provider_steps_inv st st' : rtc provider_step st st' → provider_inv st → provider_inv st'.
Proof. induction 1; eauto using provider_step_inv. Qed.

(** ** Facts every step keeps: the grant, identities, the poison marker *)
Lemma admission_accounts dims st base s a parts next :
  let st' := (checked_admission_from dims st base s a parts next).1 in
  accounts st' = accounts st ∧ mutex_poisoned st' = mutex_poisoned st ∧
  provider_authority st' = provider_authority st ∧ (is_Some (poisoned st) → is_Some (poisoned st')).
Proof.
  revert next. induction dims as [|d dims IH]; intros next; cbn; [done|].
  destruct (admit_dimension _ _ _ _ _ _) as [[] [v|e]]; cbn; auto.
  split_and!; [apply accounts_poison|apply mutex_poison| |]; unfold poison;
    destruct (poisoned st) eqn:?; cbn; congruence || by eauto.
Qed.

(** A refusal changes no account.  [quiet st r] is that statement for the
    outcome [r] of one operation started in [st]. *)
Definition quiet {A} (st : State) (r : State * result failure A) : Prop :=
  match r.2 with
  | Err (Refused _) => accounts r.1 = accounts st
  | _ => True
  end.

Lemma insert_reservation_quiet st0 st r next : quiet st0 (insert_reservation st r next).
Proof. unfold quiet, insert_reservation. repeat case_match; naive_solver. Qed.

Lemma checked_admission_accounts st base s a parts st' r :
  checked_admission st base s a parts = (st', r) → accounts st' = accounts st.
Proof.
  intros Hadm. pose proof (admission_accounts ALL st base s a parts base) as (Hacc & _).
  unfold checked_admission in Hadm. by rewrite Hadm in Hacc.
Qed.

Ltac quiet_cases :=
  repeat match goal with
  | |- quiet _ (insert_reservation _ _ _) => apply insert_reservation_quiet
  | H : checked_admission _ _ _ _ _ = _ |- _ => apply checked_admission_accounts in H
  | |- context [match ?x with _ => _ end] => destruct x eqn:?
  end; unfold quiet; cbn -[accounts poison]; rewrite ?accounts_poison; try done; try congruence.

Lemma bind_accounts a st : accounts (bind_provider_authority a st).1 = accounts st.
Proof. unfold bind_provider_authority. repeat case_match; done. Qed.

Lemma quiet_lock {A} st (r : State * result failure A) : quiet (lock_state st) r → quiet st r.
Proof. unfold quiet. by rewrite accounts_lock. Qed.

Lemma create_scope_quiet st a s p : quiet st (create_scope st a s p).
Proof.
  apply quiet_lock. unfold create_scope. generalize (lock_state st). clear st. intros st.
  destruct (check_poisoned st); [|done].
  pose proof (bind_accounts a st) as Hb.
  destruct (bind_provider_authority a st) as [st1 [|]]; cbn in Hb; [|done].
  quiet_cases.
Qed.

Lemma create_scope_and_acquire_quiet st a s p cl c :
  quiet st (create_scope_and_acquire st a s p cl c).
Proof. apply quiet_lock. unfold create_scope_and_acquire. generalize (lock_state st). intros. quiet_cases. Qed.

Lemma acquire_quiet st a s cl c : quiet st (acquire st a s cl c).
Proof. apply quiet_lock. unfold acquire. generalize (lock_state st). intros. quiet_cases. Qed.

Lemma transition_quiet st a i s cl c cl' c' : quiet st (transition st a i s cl c cl' c').
Proof. apply quiet_lock. unfold transition. generalize (lock_state st). intros. quiet_cases. Qed.

Lemma retain_quiet st a i s cl c : quiet st (retain_after_cleanup st a i s cl c).
Proof. apply quiet_lock. unfold retain_after_cleanup. generalize (lock_state st). intros. quiet_cases. Qed.

(** What no operation undoes: the grant, the bound authority, the poison
    markers, and the absence of an identity below the counter. *)
Record evolves (st st' : State) : Prop := {
  ev_grant : grant st' = grant st;
  ev_next : next_reservation_id st ≤ next_reservation_id st';
  ev_absent : ∀ id, id < next_reservation_id st →
    reservations st !! id = None → reservations st' !! id = None;
  ev_poisoned : is_Some (poisoned st) → is_Some (poisoned st');
  ev_mutex : mutex_poisoned st = true → mutex_poisoned st' = true;
  ev_authority : ∀ a, provider_authority st = Some a → provider_authority st' = Some a;
}.

#[export] Instance evolves_preorder : PreOrder evolves.
Proof.
  split.
  - intros st. split; auto. lia.
  - intros st1 st2 st3 [] []. split; try congruence; auto; try lia.
    intros id Hid Hnone. apply ev_absent1; [lia|auto].
Qed.

Lemma evolves_poison d st : evolves st (poison d st).
Proof. unfold poison. destruct (poisoned st) eqn:?; [done|]. split; cbn; auto; lia. Qed.
Lemma evolves_lock st : evolves st (lock_state st).
Proof. unfold lock_state. destruct (mutex_poisoned st); [apply evolves_poison|done]. Qed.
Lemma evolves_admission st base s a parts st' r :
  checked_admission st base s a parts = (st', r) → evolves st st'.
Proof.
  intros Hadm. pose proof (admission_accounts ALL st base s a parts base) as (Hacc & Hm & Ha & Hp).
  unfold checked_admission in Hadm. rewrite Hadm in *. cbn in *.
  injection Hacc as ? ? ? Hres ? ?. split; auto; try congruence; lia.
Qed.
Lemma evolves_bind a st : evolves st (bind_provider_authority a st).1.
Proof. unfold bind_provider_authority. repeat case_match; cbn; [done..|]. split; cbn; auto; [lia|congruence]. Qed.
Lemma evolves_in_use c st st' : evolves st st' → evolves st (set_in_use c st').
Proof. intros []. by split. Qed.
Lemma evolves_retained c st st' : evolves st st' → evolves st (set_retained c st').
Proof. intros []. by split. Qed.
Lemma evolves_scopes c st st' : evolves st st' → evolves st (set_scopes c st').
Proof. intros []. by split. Qed.
Lemma evolves_delete i st st' :
  evolves st st' → evolves st (set_reservations (delete i (reservations st')) st').
Proof. intros []. split; cbn; auto. intros. by rewrite lookup_delete_None; auto. Qed.
Lemma evolves_replace i r st st' :
  is_Some (reservations st' !! i) → evolves st st' →
  evolves st (set_reservations (<[i := r]> (reservations st')) st').
Proof.
  intros Hi []. split; cbn; auto. intros id Hid Hnone. specialize (ev_absent0 id Hid Hnone).
  rewrite lookup_insert_ne; [done|]. intros ->. rewrite ev_absent0 in Hi. by destruct Hi.
Qed.
Lemma evolves_insert st r next : evolves st (insert_reservation st r next).1.
Proof.
  unfold insert_reservation, allocate_reservation_id.
  destruct (checked_add _ _ _) as [n|] eqn:Hn; cbn; [z_norm; subst n|split; cbn; auto; lia].
  destruct (reservations st !! next_reservation_id st) eqn:Hres; cbn; split; cbn; auto; try lia.
  all: intros id Hid Hnone; rewrite lookup_insert_ne by lia; done.
Qed.
#[export] Hint Resolve evolves_poison evolves_in_use evolves_retained evolves_scopes evolves_delete
  evolves_replace evolves_insert : provider.
#[export] Hint Extern 0 (evolves _ _) => reflexivity : provider.

Ltac evolves_cases :=
  repeat match goal with
  | H : checked_admission _ _ _ _ _ = _ |- _ => apply evolves_admission in H
  | H : exact_reservation _ _ _ _ _ = true |- _ => apply exact_reservation_true in H
  | |- context [match ?x with _ => _ end] => destruct x eqn:?; cbn [fst snd negb] in *
  end; eauto 7 with provider.

Lemma provider_step_evolves st st' : provider_step st st' → evolves st st'.
Proof.
  destruct 1; (etrans; [apply evolves_lock|]).
  - unfold create_scope. generalize (lock_state st). clear st. intros st.
    destruct (check_poisoned st); [|done].
    pose proof (evolves_bind a st) as Hb.
    destruct (bind_provider_authority a st) as [st1 [|]]; cbn in Hb; [|done].
    etrans; [exact Hb|]. evolves_cases.
  - unfold create_scope_and_acquire. generalize (lock_state st). clear st. intros st.
    evolves_cases. etrans; [done|]. etrans; [|apply evolves_insert]. by apply evolves_scopes.
  - unfold release_scope. generalize (lock_state st). clear st. intros st. evolves_cases.
  - unfold acquire. generalize (lock_state st). clear st. intros st.
    evolves_cases. etrans; [done|]. apply evolves_insert.
  - unfold transition. generalize (lock_state st). clear st. intros st.
    destruct (exact_reservation st i s cl c) eqn:Hex; cbn [negb].
    2:{ evolves_cases. }
    apply exact_reservation_true in Hex.
    assert (Hadm : ∀ st1 wo ch c1, checked_admission st wo s cl' [ch] = (st1, Ok c1) →
      evolves st (set_in_use c1
        (set_reservations (<[i:=mkReservation s cl' c']> (reservations st1)) st1))).
    { intros st1 wo ch c1 Ha. pose proof (checked_admission_accounts _ _ _ _ _ _ _ Ha) as Hacc.
      assert (reservations st1 = reservations st) as Hres by (unfold accounts in Hacc; congruence).
      apply evolves_in_use, evolves_replace; [rewrite Hres, Hex; eauto|by eapply evolves_admission]. }
    repeat match goal with
    | |- context [match ?x with _ => _ end] => destruct x eqn:?; cbn [fst snd] in *
    end; eauto 2 using evolves_admission with provider.
  - unfold release. generalize (lock_state st). clear st. intros st. evolves_cases.
  - unfold retain_after_cleanup. generalize (lock_state st). clear st. intros st. evolves_cases.
  - done.
Qed.

Lemma provider_steps_evolve st st' : rtc provider_step st st' → evolves st st'.
Proof. induction 1; [done|]. etrans; [by apply provider_step_evolves|done]. Qed.

(** ** Properties *)

(** C3: conservation.  In every state reachable from a fresh provider by any
    sequence of trait calls, with any arguments, what is in use equals, in each of the
    eleven dimensions, the retained claims plus the live reservations plus one
    bookkeeping unit per reservation and scope, and never exceeds the grant. *)
Theorem provider_accounting_exact g st :
  claim_wf g → rtc provider_step (provider_new g) st → mutex_poisoned st = false →
  ∀ d, amount (in_use st) d = charged st d ∧ amount (in_use st) d ≤ amount g d.
Proof.
  intros Hg Hsteps Hm d.
  pose proof (provider_steps_inv _ _ Hsteps (provider_new_inv g Hg)) as Hinv.
  pose proof (ev_grant _ _ (provider_steps_evolve _ _ Hsteps)) as Hgr. cbn in Hgr.
  split; [by apply (inv_conserved _ Hinv)|]. rewrite <- Hgr. apply (inv_within_grant _ Hinv).
Qed.

(** a refused operation is a no-op on the accounts.  Whatever method is
    called and whatever the typed refusal, the grant, in-use, retained claims,
    reservations, scopes and the identity counter are those of before. *)
Theorem provider_refusal_is_noop st a i s p op_ cl c cl' c' :
  quiet st (create_scope st a s op_) ∧
  quiet st (create_scope_and_acquire st a s p cl c) ∧
  quiet st (acquire st a s cl c) ∧
  quiet st (transition st a i s cl c cl' c') ∧
  quiet st (retain_after_cleanup st a i s cl c).
Proof.
  split_and!; auto using create_scope_quiet, create_scope_and_acquire_quiet, acquire_quiet,
    transition_quiet, retain_quiet.
Qed.

(** admission is work-conserving.  For a live, unpoisoned provider called
    with its bound authority on a known scope, [acquire] succeeds exactly when
    claim plus bookkeeping fits under the grant in every dimension. *)
Theorem acquire_succeeds_iff_fits st a s cl c :
  provider_inv st → poisoned st = None → mutex_poisoned st = false →
  provider_authority st = Some a → s ∈ scopes st → claim_wf c →
  next_reservation_id st < u64_max →
  is_ok (acquire st a s cl c).2 = true ↔
  ∀ d, amount (in_use st) d + amount c d + amount bookkeeping_claim d ≤ amount (grant st) d.
Proof.
  intros Hinv Hp Hm Ha Hs Hc Hid.
  unfold acquire, lock_state, check_poisoned, require_provider_authority.
  rewrite Hm, Hp, Ha, Z.eqb_refl, decide_False by tauto.
  pose proof (amount_bounds (grant st)) as Hgb.
  destruct (reservation_charge c) as [ch|e] eqn:Hch; cbn; cycle 1.
  { split; [done|]. intros Hfit. exfalso. destruct (claim_add_total c bookkeeping_claim) as [ch Hch'].
    - intros d. specialize (Hfit d). pose proof (amount_bounds (in_use st) d (inv_in_use_wf _ Hinv)).
      pose proof (Hgb d (inv_grant_wf _ Hinv)). lia.
    - unfold reservation_charge in Hch. by rewrite Hch' in Hch. }
  apply reservation_charge_Ok in Hch as [Hchwf Hch]; [|done].
  destruct (checked_admission _ _ _ _ _) as [st2 r] eqn:Hadm.
  pose proof Hadm as (_ & _ & _ & Hr)%checked_admission_spec; try apply Hinv.
  2:{ intros d. rewrite parts_total_one. by apply amount_bounds. }
  destruct r as [next|e]; cbn.
  - destruct Hr as (-> & Hwf & Hn). rewrite insert_reservation_Ok by eauto using provider_inv_weaken.
    cbn. split; [|done]. intros _ d. destruct (Hn d) as [Hd Hle].
    rewrite parts_total_one, Hch in Hd. lia.
  - split; [done|]. intros Hfit. exfalso.
    destruct (checked_admission_fits st (in_use st) s cl [ch]) as [c' Hc']; try apply Hinv.
    + intros d. rewrite parts_total_one. by apply amount_bounds.
    + intros d. rewrite parts_total_one, Hch. specialize (Hfit d). lia.
    + congruence.
Qed.

(** acquiring and then releasing the returned reservation gives back the
    exact accounts; only the identity counter has moved. *)
Theorem acquire_release_roundtrip st a s cl c st' id :
  provider_inv st → mutex_poisoned st = false → claim_wf c →
  acquire st a s cl c = (st', Ok id) →
  release st' a id s cl c = set_next_reservation_id (next_reservation_id st') st.
Proof.
  intros Hinv Hm Hc.
  unfold acquire, lock_state. rewrite Hm.
  destruct (check_poisoned st) eqn:Hp; [|done].
  destruct (require_provider_authority st a) eqn:Hauth; [|done].
  case_decide as Hs; [done|].
  destruct (reservation_charge c) as [ch|] eqn:Hch; [|done].
  destruct (checked_admission _ _ _ _ _) as [st2 [next|]] eqn:Hadm; [|done].
  apply checked_admission_spec in Hadm as (_ & _ & _ & -> & Hwf & Hn); try apply Hinv.
  2:{ intros d. rewrite parts_total_one. eapply amount_bounds, reservation_charge_Ok; eauto. }
  unfold insert_reservation, allocate_reservation_id.
  destruct (checked_add _ _ _) as [n|] eqn:Hadd; [|done]. cbn.
  destruct (reservations st !! next_reservation_id st) eqn:Hres; [done|]. intros [= <- <-].
  unfold release, lock_state; cbn. rewrite Hm.
  unfold require_provider_authority in *; cbn. rewrite Hauth, decide_False by tauto.
  unfold exact_reservation; cbn. rewrite lookup_insert_eq, bool_decide_eq_true_2 by done. cbn.
  rewrite Hch. pose proof Hch as [Hchwf _]%reservation_charge_Ok; [|done].
  assert (claim_checked_sub next ch = Ok (in_use st)) as ->.
  { destruct (claim_sub_total next ch) as [c' Hc'].
    - intros d. destruct (Hn d) as [-> _]. rewrite parts_total_one.
      pose proof (amount_bounds _ d (inv_in_use_wf _ Hinv)). lia.
    - rewrite Hc'. apply claim_sub_Ok in Hc' as [? Hd]; [|done..]. f_equal.
      apply claim_ext; [done|apply Hinv|]. intros d. rewrite Hd.
      destruct (Hn d) as [-> _]. rewrite parts_total_one. lia. }
  destruct st; cbn in *. unfold set_in_use, set_reservations, set_next_reservation_id; cbn.
  by rewrite delete_insert_id.
Qed.

(** reservation identities are never reused.  Once an identity below the
    counter is dead, no later operation of any caller brings it back, so a
    stale holder can never name another owner's reservation. *)
Theorem reservation_identity_never_reused st st' id :
  rtc provider_step st st' → id < next_reservation_id st →
  reservations st !! id = None → reservations st' !! id = None.
Proof. intros Hst'. apply (ev_absent _ _ (provider_steps_evolve _ _ Hst')). Qed.

(** a poisoned provider fails closed, forever.  After an invariant failure
    or a panic under the lock, every later attempt to create a scope, acquire or
    replace a claim is refused. *)
Theorem poisoned_provider_fails_closed st st' a s p q i cl c cl' c' :
  is_Some (poisoned st) ∨ mutex_poisoned st = true → rtc provider_step st st' →
  is_ok (create_scope st' a s q).2 = false ∧
  is_ok (create_scope_and_acquire st' a s p cl c).2 = false ∧
  is_ok (acquire st' a s cl c).2 = false ∧
  is_ok (transition st' a i s cl c cl' c').2 = false.
Proof.
  intros Hp Hsteps. pose proof (provider_steps_evolve _ _ Hsteps) as Hev.
  assert (∃ d, check_poisoned (lock_state st') = Err (ProviderInvariant d)) as [d Hd].
  { assert (is_Some (poisoned (lock_state st'))) as [d Hd].
    { destruct Hp as [Hp|Hm].
      - apply (ev_poisoned _ _ (evolves_lock st')), (ev_poisoned _ _ Hev), Hp.
      - apply (ev_mutex _ _ Hev) in Hm. unfold lock_state, poison. rewrite Hm.
        destruct (poisoned st') eqn:?; cbn; eauto. }
    exists d. unfold check_poisoned. by rewrite Hd. }
  unfold create_scope, create_scope_and_acquire, acquire, transition. by rewrite Hd.
Qed.

(** only the authority bound at the first scope can move an account.  Any
    call presented with another authority leaves every account unchanged. *)
Theorem foreign_authority_is_inert st a b s p q i cl c cl' c' :
  provider_authority st = Some a → a ≠ b →
  accounts (create_scope st b s q).1 = accounts st ∧
  accounts (create_scope_and_acquire st b s p cl c).1 = accounts st ∧
  accounts (release_scope st b s) = accounts st ∧
  accounts (acquire st b s cl c).1 = accounts st ∧
  accounts (transition st b i s cl c cl' c').1 = accounts st ∧
  accounts (release st b i s cl c) = accounts st ∧
  accounts (retain_after_cleanup st b i s cl c).1 = accounts st.
Proof.
  intros Ha Hab.
  assert (Hl : provider_authority (lock_state st) = Some a)
    by (by apply (ev_authority _ _ (evolves_lock st))).
  rewrite <- !(accounts_lock st).
  unfold create_scope, create_scope_and_acquire, release_scope, acquire, transition, release,
    retain_after_cleanup, bind_provider_authority, require_provider_authority.
  rewrite Hl, (proj2 (Z.eqb_neq a b) Hab).
  split_and!; destruct (check_poisoned (lock_state st)); done.
Qed.

(** ** Witnesses: a provider of a thousand units, one scope, one reservation *)

Definition demo_grant : ResourceClaim := mkClaim (replicate 11 1000).
Definition demo_scoped : State := (create_scope (provider_new demo_grant) 7 1 None).1.
Definition demo_claim : ResourceClaim := single QueuedBytes 10.
Definition demo_acquired : State := (acquire demo_scoped 7 1 AdmittedWork demo_claim).1.
Definition demo_released : State := release demo_acquired 7 1 1 AdmittedWork demo_claim.

Lemma demo_claim_wf : claim_wf demo_claim.
Proof. apply single_wf; vm_compute; intuition congruence. Qed.

Lemma demo_grant_wf : claim_wf demo_grant.
Proof. split; [done|]. repeat constructor; vm_compute; intuition congruence. Qed.

Lemma demo_scoped_reach : rtc provider_step (provider_new demo_grant) demo_scoped.
Proof. eapply rtc_l; [apply step_create_scope|]. apply rtc_refl. Qed.

Lemma demo_acquired_reach : rtc provider_step demo_scoped demo_acquired.
Proof. eapply rtc_l; [apply step_acquire, demo_claim_wf|]. apply rtc_refl. Qed.

Lemma demo_scoped_inv : provider_inv demo_scoped.
Proof. exact (provider_steps_inv _ _ demo_scoped_reach (provider_new_inv _ demo_grant_wf)). Qed.

Lemma provider_accounting_exact_witness :
  amount (in_use demo_acquired) QueuedBytes = 10 ∧
  amount (in_use demo_acquired) QueuedBytes = charged demo_acquired QueuedBytes ∧
  amount (in_use demo_acquired) QueuedBytes ≤ amount demo_grant QueuedBytes.
Proof.
  split; [vm_compute; reflexivity|].
  apply (provider_accounting_exact demo_grant demo_acquired).
  - exact demo_grant_wf.
  - etrans; [exact demo_scoped_reach | exact demo_acquired_reach].
  - vm_compute; reflexivity.
Defined.

Lemma acquire_succeeds_iff_fits_witness :
  is_ok (acquire demo_scoped 7 1 AdmittedWork demo_claim).2 = true ↔
  ∀ d, amount (in_use demo_scoped) d + amount demo_claim d + amount bookkeeping_claim d
       ≤ amount (grant demo_scoped) d.
Proof.
  apply (acquire_succeeds_iff_fits demo_scoped 7 1 AdmittedWork demo_claim);
    [exact demo_scoped_inv | vm_compute; reflexivity.. | | exact demo_claim_wf
    | vm_compute; reflexivity].
  apply (bool_decide_unpack (1 ∈ scopes demo_scoped)). vm_compute; exact I.
Defined.

Lemma acquire_release_roundtrip_witness :
  demo_released = set_next_reservation_id 2 demo_scoped.
Proof.
  apply (acquire_release_roundtrip demo_scoped 7 1 AdmittedWork demo_claim demo_acquired 1);
    [exact demo_scoped_inv | vm_compute; reflexivity | exact demo_claim_wf
    | vm_compute; reflexivity].
Defined.

Lemma reservation_identity_never_reused_witness :
  reservations (acquire demo_released 7 1 AdmittedWork demo_claim).1 !! 1 = None.
Proof.
  apply (reservation_identity_never_reused demo_released _ 1); [|vm_compute; reflexivity..].
  eapply rtc_l; [apply step_acquire, demo_claim_wf|apply rtc_refl].
Defined.

Lemma poisoned_provider_fails_closed_witness :
  let st := release_scope demo_acquired 7 1 in
  poisoned st = Some OpaqueDependencyResidual ∧ is_ok (acquire st 7 1 AdmittedWork demo_claim).2 = false.
Proof.
  split; [vm_compute; reflexivity|].
  apply (poisoned_provider_fails_closed (release_scope demo_acquired 7 1) (release_scope demo_acquired 7 1)
           7 1 1 None 1 AdmittedWork demo_claim AdmittedWork demo_claim); [|apply rtc_refl].
  left. vm_compute. eexists; reflexivity.
Defined.

Lemma foreign_authority_is_inert_witness :
  accounts (release demo_acquired 8 1 1 AdmittedWork demo_claim) = accounts demo_acquired.
Proof.
  apply (foreign_authority_is_inert demo_acquired 7 8 1 1 None 1 AdmittedWork demo_claim
           AdmittedWork demo_claim); vm_compute; [reflexivity|discriminate].
Defined.
