(* ===== verification/Departure.v ===== *)
(** * Departure and recovery of a session

    Models crates/myownmesh-core/src/runtime/peer_session/departure.rs and recovery.rs:
    the one pending observation of a local departure, the terminal mark of a remote one,
    and the recovery demand that may outlive its session.  The observation a waiter
    shares with the session and the demand its handles share are cells of a store; the
    leases that fund them are tokens of a ledger.  A call takes effect at its
    compare-exchange, so calls are steps and any interleaving of them is a run. *)

From S2P Require Import Prelude Claims Provider.
From stdpp Require Import relations.
Local Open Scope nat_scope.

Inductive Outcome : Type := PENDING | OBSERVED | CANCELLED.
Inductive DemandStatus : Type := ARMED | TERMINAL | SATISFIED | DEMAND_CANCELLED.
Inductive RecoveryAttempt : Type := Accepted | AttemptRefused.
Inductive RecoveryDemandSettlement : Type := PreTerminal | Unsatisfied | Satisfied | NoDemand.
Inductive DepartureWaitOutcome : Type := WaitObserved | WaitCancelled.

#[export] Instance outcome_eq_dec : EqDecision Outcome.
Proof. solve_decision. Defined.
#[export] Instance demand_status_eq_dec : EqDecision DemandStatus.
Proof. solve_decision. Defined.

(** [observation] names the cell shared with the waiter, [pending_lease] the token held. *)
Record PendingDeparture : Type := mkPending { correlation : string; carrier : nat; observation : nat; pending_lease : nat }.

(** [RecoveryDemandInner]. *)
Record Demand : Type := mkDemand { demand_status : DemandStatus; demand_lease : option nat }.

(** [DepartureState], with its [RecoveryDemandState] as [demand] and [terminal]. *)
Record DepartureState : Type := mkSession {
  pending : option PendingDeparture;
  remote_terminal : bool;
  demand : option nat;
  terminal : bool;
}.

(** The session (gone once its record is dropped), the shared cells and the leases held. *)
Record Shared : Type := mkShared {
  session : option DepartureState;
  cells : list Outcome;
  demands : list Demand;
  held : gset nat;
  next_lease : nat;
}.

Inductive DepartureError : Type :=
| SessionTerminal | AlreadyPending | LeaseUnavailable (u : ResourceUnavailable) | ClaimArithmetic (e : ResourceClaimArithmeticError).

Definition departure_new : DepartureState := mkSession None false None false.
Definition fresh : Shared := mkShared (Some departure_new) [] [] ∅ 0.

Definition with_session (s : DepartureState) (w : Shared) : Shared := mkShared (Some s) (cells w) (demands w) (held w) (next_lease w).
Definition with_cells (c : list Outcome) (w : Shared) : Shared := mkShared (session w) c (demands w) (held w) (next_lease w).
Definition with_demands (d : list Demand) (w : Shared) : Shared := mkShared (session w) (cells w) d (held w) (next_lease w).
Definition release_lease (l : nat) (w : Shared) : Shared := mkShared (session w) (cells w) (demands w) (held w ∖ {[l]}) (next_lease w).
Definition reserve_lease (w : Shared) : Shared := mkShared (session w) (cells w) (demands w) ({[next_lease w]} ∪ held w) (S (next_lease w)).

Definition with_pending (p : option PendingDeparture) (s : DepartureState) : DepartureState := mkSession p (remote_terminal s) (demand s) (terminal s).

(** ** Departure *)
Section departure.
(** [size_of::<PendingDeparture>()] and [size_of::<RecoveryDemandInner>()]. *)
Context (departure_size demand_size : Z).

Definition departure_claim (corr : string) : result ResourceClaimArithmeticError ResourceClaim :=
  bytes ← ok_or (Overflow AccountedMemoryBytes) (checked_add u64_max departure_size (Z.of_nat (String.length corr)));
  try_from_entries [(AccountedMemoryBytes, bytes); (OpaqueDependencyResidual, 1%Z)].

Definition demand_claim : result ResourceClaimArithmeticError ResourceClaim :=
  try_from_entries [(AccountedMemoryBytes, demand_size); (OpaqueDependencyResidual, 1%Z)].

(** [reserve_retained] on a claim: [refusal] is what the session's provider answers. *)
Definition reserve_session_lease (claim : result ResourceClaimArithmeticError ResourceClaim) (refusal : option ResourceUnavailable) :
    op Shared DepartureError nat := λ w,
  match claim with
  | Err e => (w, Err (ClaimArithmetic e))
  | Ok _ => match refusal with Some u => (w, Err (LeaseUnavailable u)) | None => (reserve_lease w, Ok (next_lease w)) end
  end.

(** The answer names the cell of the waiter. *)
Definition begin_local (corr : string) (via : nat) (refusal : option ResourceUnavailable) (s : DepartureState) :
    op Shared DepartureError nat := λ w,
  if remote_terminal s then (w, Err SessionTerminal)
  else match pending s with
  | Some _ => (w, Err AlreadyPending)
  | None =>
      match reserve_session_lease (departure_claim corr) refusal w with
      | (w, Err e) => (w, Err e)
      | (w, Ok lease) =>
          let cell := length (cells w) in
          (with_session (with_pending (Some (mkPending corr via cell lease)) s) (with_cells (cells w ++ [PENDING]) w), Ok cell)
      end
  end.

(** The compare-exchange of a pending cell. *)
Definition exchange (cell : nat) (new : Outcome) (w : Shared) : option Shared :=
  if decide (cells w !! cell = Some PENDING) then Some (with_cells (<[cell := new]> (cells w)) w) else None.

(** The common shape of the three calls that end the pending observation: it is taken,
    put back if it is not the one meant or its cell is settled, and dropped with its
    lease otherwise. *)
Definition settle_pending (meant : PendingDeparture → bool) (new : Outcome) (s : DepartureState) (w : Shared) : Shared * bool :=
  match pending s with
  | None => (w, false)
  | Some p =>
      if negb (meant p) then (w, false)
      else match exchange (observation p) new w with
      | None => (w, false)
      | Some w => (release_lease (pending_lease p) (with_session (with_pending None s) w), true)
      end
  end.

Definition observe_local (corr : string) (s : DepartureState) (w : Shared) : Shared * bool :=
  settle_pending (λ p, String.eqb (correlation p) corr) OBSERVED s w.
Definition cancel_for_carrier (via : nat) (s : DepartureState) (w : Shared) : Shared * bool :=
  settle_pending (λ p, carrier p =? via) CANCELLED s w.
Definition cancel_for_shutdown (s : DepartureState) (w : Shared) : Shared * bool :=
  settle_pending (λ _, true) CANCELLED s w.

(** What a waiter reads: nothing while its cell is pending and the session is live. *)
Definition wait (outcome : Outcome) (live : bool) : option DepartureWaitOutcome :=
  match outcome with
  | OBSERVED => Some WaitObserved
  | CANCELLED => Some WaitCancelled
  | PENDING => if live then None else Some WaitCancelled
  end.

(** ** Recovery *)
Definition handle_mark_terminal (h : nat) (w : Shared) : Shared :=
  match demands w !! h with
  | Some d => match demand_status d with ARMED => with_demands (<[h := mkDemand TERMINAL (demand_lease d)]> (demands w)) w | _ => w end
  | None => w
  end.

(** The lease leaves the demand at the end of the call that ends it. *)
Definition end_demand (h : nat) (final : DemandStatus) (d : Demand) (w : Shared) : Shared :=
  let w := with_demands (<[h := mkDemand final None]> (demands w)) w in
  match demand_lease d with Some l => release_lease l w | None => w end.

Definition settle_post_terminal (h : nat) (attempt : RecoveryAttempt) (w : Shared) : Shared * RecoveryDemandSettlement :=
  match demands w !! h with
  | None => (w, NoDemand)
  | Some d =>
      match demand_status d, attempt with
      | ARMED, _ => (w, PreTerminal)
      | TERMINAL, AttemptRefused => (w, Unsatisfied)
      | TERMINAL, Accepted => (end_demand h SATISFIED d w, Satisfied)
      | SATISFIED, _ | DEMAND_CANCELLED, _ => (w, NoDemand)
      end
  end.

Definition cancel_demand (h : nat) (w : Shared) : Shared * bool :=
  match demands w !! h with
  | None => (w, false)
  | Some d =>
      match demand_status d with
      | ARMED | TERMINAL => (end_demand h DEMAND_CANCELLED d w, true)
      | SATISFIED | DEMAND_CANCELLED => (w, false)
      end
  end.

(** [true] for a demand that was created, [false] for one that was already there. *)
Definition arm (refusal : option ResourceUnavailable) (s : DepartureState) : op Shared DepartureError (bool * nat) := λ w,
  if terminal s then (w, Err SessionTerminal)
  else match demand s with
  | Some h => (w, Ok (false, h))
  | None =>
      match reserve_session_lease demand_claim refusal w with
      | (w, Err e) => (w, Err e)
      | (w, Ok lease) =>
          let h := length (demands w) in
          (with_session (mkSession (pending s) (remote_terminal s) (Some h) (terminal s)) (with_demands (demands w ++ [mkDemand ARMED (Some lease)]) w), Ok (true, h))
      end
  end.

(** [RecoveryDemandState::mark_terminal], [cancel_for_shutdown] and
    [cancel_for_usable_successor]. *)
Definition mark_terminal (s : DepartureState) (w : Shared) : Shared :=
  let w := with_session (mkSession (pending s) (remote_terminal s) (demand s) true) w in
  match demand s with Some h => handle_mark_terminal h w | None => w end.

Definition cancel_recovery (s : DepartureState) (w : Shared) : Shared * bool :=
  let w := with_session (mkSession (pending s) (remote_terminal s) None (terminal s)) w in
  match demand s with Some h => cancel_demand h w | None => (w, false) end.

Definition accept_remote (s : DepartureState) (w : Shared) : Shared * bool :=
  if remote_terminal s then (w, false)
  else (mark_terminal (mkSession (pending s) true (demand s) (terminal s)) w, true).

(** Dropping the session's record drops the pending observation with its lease; the
    handles keep the demand. *)
Definition drop_session (s : DepartureState) (w : Shared) : Shared :=
  let w := mkShared None (cells w) (demands w) (held w) (next_lease w) in
  match pending s with Some p => release_lease (pending_lease p) w | None => w end.

(** ** Runs *)
Inductive shared_step : Shared → Shared → Prop :=
| step_begin s corr via refusal w : session w = Some s → shared_step w (begin_local corr via refusal s w).1
| step_observe s corr w : session w = Some s → shared_step w (observe_local corr s w).1
| step_carrier s via w : session w = Some s → shared_step w (cancel_for_carrier via s w).1
| step_shutdown s w : session w = Some s → shared_step w (cancel_for_shutdown s w).1
| step_remote s w : session w = Some s → shared_step w (accept_remote s w).1
| step_arm s refusal w : session w = Some s → shared_step w (arm refusal s w).1
| step_cancel_recovery s w : session w = Some s → shared_step w (cancel_recovery s w).1
| step_drop s w : session w = Some s → shared_step w (drop_session s w)
| step_mark h w : shared_step w (handle_mark_terminal h w)
| step_settle h attempt w : shared_step w (settle_post_terminal h attempt w).1
| step_cancel h w : shared_step w (cancel_demand h w).1.

(** ** What a reachable state looks like *)
Definition ended (st : DemandStatus) : bool := match st with SATISFIED | DEMAND_CANCELLED => true | _ => false end.

Definition pending_leases (s : option DepartureState) : list nat :=
  match s with Some s => match pending s with Some p => [pending_lease p] | None => [] end | None => [] end.

Definition leases_of (s : option DepartureState) (ds : list Demand) : list nat := pending_leases s ++ omap demand_lease ds.

(** Every lease held is held by exactly one of the pending observation and the demands. *)
Record ledger (w : Shared) : Prop := {
  ledger_held : held w = list_to_set (leases_of (session w) (demands w));
  ledger_once : NoDup (leases_of (session w) (demands w));
  ledger_fresh : ∀ l, l ∈ leases_of (session w) (demands w) → l < next_lease w;
}.

Record sound (w : Shared) : Prop := {
  sound_ledger : ledger w;
  sound_demands : ∀ h d, demands w !! h = Some d → (demand_lease d = None ↔ ended (demand_status d) = true);
  sound_cells : ∀ s, session w = Some s → ∀ c, cells w !! c = Some PENDING ↔ ∃ p, pending s = Some p ∧ observation p = c;
  sound_handle : ∀ s h, session w = Some s → demand s = Some h →
    ∃ d, demands w !! h = Some d ∧ (terminal s = true → demand_status d ≠ ARMED);
  sound_terminal : ∀ s, session w = Some s → remote_terminal s = terminal s;
}.

Lemma ledger_add w s' cs ds' :
  ledger w → leases_of s' ds' ≡ₚ next_lease w :: leases_of (session w) (demands w) →
  ledger (mkShared s' cs ds' ({[next_lease w]} ∪ held w) (S (next_lease w))).
Proof.
  intros [Hh Ho Hf] Hp. split; cbn.
  - rewrite Hp, Hh. done.
  - rewrite Hp. constructor; [|done]. intros Hin. apply Hf in Hin. lia.
  - intros l. rewrite Hp. intros [->|Hl]%elem_of_cons; [lia|]. apply Hf in Hl. lia.
Qed.

Lemma ledger_remove w s' cs ds' l :
  ledger w → leases_of (session w) (demands w) ≡ₚ l :: leases_of s' ds' →
  ledger (mkShared s' cs ds' (held w ∖ {[l]}) (next_lease w)).
Proof.
  intros [Hh Ho Hf] Hp. rewrite Hp in Ho. apply NoDup_cons in Ho as [Hn Ho]. split; cbn.
  - rewrite Hh, Hp. cbn. set_solver.
  - done.
  - intros k Hk. apply Hf. rewrite Hp. by right.
Qed.

Lemma ledger_same w w' :
  ledger w → leases_of (session w') (demands w') ≡ₚ leases_of (session w) (demands w) → held w' = held w → next_lease w' = next_lease w → ledger w'.
Proof.
  intros [Hh Ho Hf] Hp Hh' Hn. split; rewrite ?Hh', ?Hn; [by rewrite Hp|by rewrite Hp|]. intros l. rewrite Hp. apply Hf.
Qed.

Lemma leases_insert ds h d d' :
  ds !! h = Some d →
  option_list (demand_lease d') ++ omap demand_lease ds ≡ₚ option_list (demand_lease d) ++ omap demand_lease (<[h := d']> ds).
Proof.
  intros Hh. pose proof (lookup_lt_Some _ _ _ Hh) as Hlt. rewrite <- (take_drop_middle ds h d Hh) at 1. rewrite insert_take_drop by done.
  assert (∀ x l, omap demand_lease (x :: l) = option_list (demand_lease x) ++ omap demand_lease l) as Hc.
  { intros x l. cbn. by destruct (demand_lease x). }
  rewrite !omap_app, !Hc. solve_Permutation.
Qed.

Lemma sound_fresh : sound fresh.
Proof.
  split; cbn; try done.
  - split; cbn; [done|constructor|by intros ? ?%not_elem_of_nil].
  - intros s [= <-] c. cbn. split; [done|]. by intros (p & Hp & _).
  - by intros s h [= <-].
  - by intros s [= <-].
Qed.

(** Changing one demand: what the other fields need. *)
Lemma sound_demand_change w w' h d d' :
  sound w → demands w !! h = Some d → ledger w' → session w' = session w → cells w' = cells w → demands w' = <[h := d']> (demands w) →
  (demand_lease d' = None ↔ ended (demand_status d') = true) → demand_status d' ≠ ARMED → sound w'.
Proof.
  intros [Hl Hd Hc Hh Ht] Hdh Hl' Hs' Hc' Hds Hend Hna. split; [done| | | |]; rewrite ?Hs', ?Hc', ?Hds; try done.
  - intros k e [(-> & <- & _)|[_ He]]%list_lookup_insert_Some; [done|by eapply Hd].
  - intros s k Hs Hk. destruct (Hh s k Hs Hk) as (e & He & Hte). destruct (decide (h = k)) as [->|Hne].
    + exists d'. rewrite list_lookup_insert_eq by (by eapply lookup_lt_Some). done.
    + exists e. by rewrite list_lookup_insert_ne.
Qed.

Lemma sound_mark h w : sound w → sound (handle_mark_terminal h w).
Proof.
  intros Hs. unfold handle_mark_terminal. destruct (demands w !! h) as [d|] eqn:Hdh; [|done]. destruct (demand_status d) eqn:Hst; try done.
  pose proof (sound_demands _ Hs _ _ Hdh) as Hend. rewrite Hst in Hend.
  eapply (sound_demand_change w _ h d); [done|done| |done|done|done|done|done].
  eapply ledger_same; [apply Hs| |done|done]. cbn. unfold leases_of. apply Permutation_app_head.
  pose proof (leases_insert _ _ _ (mkDemand TERMINAL (demand_lease d)) Hdh) as Hp. by apply Permutation_app_inv_l in Hp.
Qed.

Lemma sound_end h d final w :
  sound w → demands w !! h = Some d → ended (demand_status d) = false → ended final = true → sound (end_demand h final d w).
Proof.
  intros Hs Hdh Hst Hf. destruct (demand_lease d) as [l|] eqn:Hlease; [|by apply (sound_demands _ Hs _ _ Hdh) in Hlease; congruence].
  unfold end_demand. rewrite Hlease. eapply (sound_demand_change w _ h d (mkDemand final None)); [done|done| |done|done|done| |by destruct final].
  - apply (ledger_remove w (session w) (cells w) (<[h := mkDemand final None]> (demands w)) l); [apply Hs|]. unfold leases_of.
    pose proof (leases_insert _ _ _ (mkDemand final None) Hdh) as Hp. rewrite Hlease in Hp. cbn [option_list demand_lease app] in Hp. rewrite Hp. solve_Permutation.
  - done.
Qed.

Lemma sound_cancel h w : sound w → sound (cancel_demand h w).1.
Proof.
  intros Hs. unfold cancel_demand. destruct (demands w !! h) as [d|] eqn:Hdh; [|done].
  destruct (demand_status d) eqn:Hst; try done; cbn; apply sound_end; try done; by rewrite Hst.
Qed.

Lemma sound_settle h attempt w : sound w → sound (settle_post_terminal h attempt w).1.
Proof.
  intros Hs. unfold settle_post_terminal. destruct (demands w !! h) as [d|] eqn:Hdh; [|done].
  destruct (demand_status d) eqn:Hst, attempt; try done; cbn; apply sound_end; try done; by rewrite Hst.
Qed.

(** The session alone changes, and not its pending observation. *)
Lemma sound_session w s s' :
  sound w → session w = Some s → pending s' = pending s → remote_terminal s' = terminal s' →
  (∀ h, demand s' = Some h → ∃ d, demands w !! h = Some d ∧ (terminal s' = true → demand_status d ≠ ARMED)) →
  sound (with_session s' w).
Proof.
  intros [Hl Hd Hc Hh Ht] Hs Hp Hterm Hdem. split; cbn; try done.
  - eapply ledger_same; [done| |done|done]. cbn. unfold leases_of. rewrite Hs. cbn. by rewrite Hp.
  - intros s0 [= <-] c. rewrite Hp. by apply Hc.
  - intros s0 h [= <-]. apply Hdem.
  - by intros s0 [= <-].
Qed.

Lemma sound_settle_pending meant new s w : new ≠ PENDING → sound w → session w = Some s → sound (settle_pending meant new s w).1.
Proof.
  intros Hnew Hsd Hs. pose proof Hsd as [Hl Hd Hc Hh Ht]. unfold settle_pending. destruct (pending s) as [p|] eqn:Hp; [|done].
  destruct (negb (meant p)); [done|]. unfold exchange. destruct (decide _) as [Hcell|]; [|done]. cbn. split; cbn.
  - apply (ledger_remove w (Some (with_pending None s)) _ (demands w) (pending_lease p)); [done|]. unfold leases_of. rewrite Hs. cbn. by rewrite Hp.
  - done.
  - intros s0 [= <-] c. cbn. split; [|by intros (q & ? & _)]. intros [(_ & Hx & _)|[Hne Hcc]]%list_lookup_insert_Some; [done|].
    apply (Hc s Hs) in Hcc as (q & Hq & <-). congruence.
  - intros s0 h [= <-]. cbn. by apply Hh.
  - intros s0 [= <-]. cbn. by apply Ht.
Qed.

Lemma sound_begin corr via refusal s w : sound w → session w = Some s → sound (begin_local corr via refusal s w).1.
Proof.
  intros Hsd Hs. pose proof Hsd as [Hl Hd Hc Hh Ht]. unfold begin_local. destruct (remote_terminal s); [done|]. destruct (pending s) as [p|] eqn:Hp; [done|].
  unfold reserve_session_lease. destruct (departure_claim corr), refusal; try done. cbn. split; cbn; try done.
  - apply (ledger_add w); [done|]. unfold leases_of. rewrite Hs. cbn. by rewrite Hp.
  - intros s0 [= <-] c. cbn. rewrite lookup_app. split.
    + destruct (cells w !! c) eqn:Hcc; [intros [= ->]; apply (Hc s Hs) in Hcc as (q & ? & _); congruence|].
      intros Hx. exists (mkPending corr via (length (cells w)) (next_lease w)). split; [done|]. cbn. apply lookup_ge_None in Hcc.
      apply lookup_lt_Some in Hx. cbn in Hx. lia.
    + intros (q & [= <-] & <-). cbn. rewrite lookup_ge_None_2 by lia. by rewrite Nat.sub_diag.
  - intros s0 h [= <-]. cbn. by apply Hh.
  - intros s0 [= <-]. cbn. by apply Ht.
Qed.

Lemma sound_arm refusal s w : sound w → session w = Some s → sound (arm refusal s w).1.
Proof.
  intros Hsd Hs. pose proof Hsd as [Hl Hd Hc Hh Ht]. unfold arm. destruct (terminal s) eqn:Hterm; [done|]. destruct (demand s) eqn:Hdem; [done|].
  unfold reserve_session_lease. destruct demand_claim, refusal; try done. cbn. split; cbn; try done.
  - apply (ledger_add w); [done|]. unfold leases_of. rewrite Hs. cbn. rewrite omap_app. cbn. solve_Permutation.
  - intros h d [Hx|[_ Hx]]%lookup_app_Some; [by apply (Hd h)|]. destruct (h - length (demands w)); [|done]. by injection Hx as <-.
  - intros s0 [= <-] c. cbn. by apply Hc.
  - intros s0 h [= <-] [= <-]. exists (mkDemand ARMED (Some (next_lease w))). split; [|cbn; congruence]. rewrite lookup_app_r, Nat.sub_diag by lia. done.
  - intros s0 [= <-]. cbn. rewrite <- Hterm. by apply Ht.
Qed.

Lemma sound_cancel_recovery s w : sound w → session w = Some s → sound (cancel_recovery s w).1.
Proof.
  intros Hsd Hs. unfold cancel_recovery. assert (sound (with_session (mkSession (pending s) (remote_terminal s) None (terminal s)) w)) as H.
  { eapply sound_session; [done|done|done|cbn; by apply (sound_terminal _ Hsd)|done]. }
  destruct (demand s); [by apply sound_cancel|done].
Qed.

Lemma sound_accept_remote s w : sound w → session w = Some s → sound (accept_remote s w).1.
Proof.
  intros Hsd Hs. pose proof Hsd as [Hl Hd Hc Hh Ht]. unfold accept_remote. destruct (remote_terminal s); [done|]. cbn. unfold mark_terminal. cbn.
  destruct (demand s) as [h|] eqn:Hdem; [|by eapply sound_session].
  destruct (Hh s h Hs Hdem) as (d & Hdh & _). unfold handle_mark_terminal. cbn. rewrite Hdh.
  assert (∀ s', with_session s' (with_demands (<[h := mkDemand TERMINAL (demand_lease d)]> (demands w)) w) =
    with_demands (<[h := mkDemand TERMINAL (demand_lease d)]> (demands w)) (with_session s' w)) as Hcomm by done.
  destruct (demand_status d) eqn:Hst; [rewrite <- Hcomm| | |]; (eapply sound_session; [|exact Hs|done|done|]; [|intros ? [= <-]; cbn]); try done.
  - pose proof (sound_mark h w Hsd) as Hm. unfold handle_mark_terminal in Hm. by rewrite Hdh, Hst in Hm.
  - eexists. split; [by rewrite list_lookup_insert_eq by (by eapply lookup_lt_Some)|done].
  - exists d. by rewrite Hst.
  - exists d. by rewrite Hst.
  - exists d. by rewrite Hst.
Qed.

Lemma sound_drop s w : sound w → session w = Some s → sound (drop_session s w).
Proof.
  intros [Hl Hd Hc Hh Ht] Hs. unfold drop_session. destruct (pending s) as [p|] eqn:Hp; (split; cbn; [|done..]).
  - apply (ledger_remove w None _ (demands w) (pending_lease p)); [done|]. unfold leases_of. rewrite Hs. cbn. by rewrite Hp.
  - eapply ledger_same; [done| |done|done]. unfold leases_of. cbn. rewrite Hs. cbn. by rewrite Hp.
Qed.

Lemma sound_step w w' : shared_step w w' → sound w → sound w'.
Proof.
  intros [] Hsd; [by apply sound_begin|by apply sound_settle_pending|by apply sound_settle_pending|by apply sound_settle_pending|by apply sound_accept_remote|
    by apply sound_arm|by apply sound_cancel_recovery|by apply sound_drop|by apply sound_mark|by apply sound_settle|by apply sound_cancel].
Qed.

Lemma sound_reachable w : rtc shared_step fresh w → sound w.
Proof. pose proof sound_fresh as H. intros Hr. induction Hr; eauto using sound_step. Qed.

(** ** Settled cells and ended demands never change *)
Lemma handle_mark_final h w k d :
  demands w !! k = Some d → ended (demand_status d) = true → demands (handle_mark_terminal h w) !! k = Some d ∧ cells (handle_mark_terminal h w) = cells w.
Proof.
  intros Hk He. unfold handle_mark_terminal. destruct (demands w !! h) as [e|] eqn:Heh; [|done]. destruct (demand_status e) eqn:Hst; try done.
  cbn. split; [|done]. rewrite list_lookup_insert_ne; [done|]. intros ->. simplify_eq. by rewrite Hst in He.
Qed.

Lemma end_demand_final h f e w k d :
  demands w !! h = Some e → ended (demand_status e) = false → demands w !! k = Some d → ended (demand_status d) = true →
  demands (end_demand h f e w) !! k = Some d.
Proof.
  intros Hh He Hk Hd. unfold end_demand. assert (demands (with_demands (<[h := mkDemand f None]> (demands w)) w) !! k = Some d) as Hx.
  { cbn. rewrite list_lookup_insert_ne; [done|]. intros ->. congruence. }
  by destruct (demand_lease e).
Qed.

(** What a call may do to the store: settled cells and ended demands stay. *)
Definition keeps (w w' : Shared) : Prop :=
  (∀ c o, cells w !! c = Some o → o ≠ PENDING → cells w' !! c = Some o) ∧
  (∀ k d, demands w !! k = Some d → ended (demand_status d) = true → demands w' !! k = Some d).

Lemma settle_pending_keeps meant new s w : keeps w (settle_pending meant new s w).1.
Proof.
  unfold settle_pending. destruct (pending s) as [p|]; [|done]. destruct (negb (meant p)); [done|].
  unfold exchange. destruct (decide _) as [Hp|]; [|done]. cbn. split; [|done]. intros c o Hc Ho. cbn. rewrite list_lookup_insert_ne; [done|]. intros ?. congruence.
Qed.

Lemma end_demand_keeps h f e w : demands w !! h = Some e → ended (demand_status e) = false → keeps w (end_demand h f e w).
Proof.
  intros Hh He. split; [intros; unfold end_demand; by destruct (demand_lease e)|]. intros. by eapply end_demand_final.
Qed.

Lemma cancel_demand_keeps h w : keeps w (cancel_demand h w).1.
Proof.
  unfold cancel_demand. destruct (demands w !! h) as [e|] eqn:He; [|done]. destruct (demand_status e) eqn:Hst; try done; apply end_demand_keeps; by rewrite ?Hst.
Qed.

Lemma handle_mark_keeps h w : keeps w (handle_mark_terminal h w).
Proof. split; [|intros; by apply handle_mark_final]. unfold handle_mark_terminal. repeat case_match; done. Qed.

Lemma step_keeps w w' : shared_step w w' → keeps w w'.
Proof.
  destruct 1 as [s corr via refusal w Hs|s corr w Hs|s via w Hs|s w Hs|s w Hs|s refusal w Hs|s w Hs|s w Hs|h w|h attempt w|h w].
  - unfold begin_local, reserve_session_lease. repeat case_match; simplify_eq; try done. cbn. split; [|done]. intros c o Hc _. by apply lookup_app_l_Some.
  - apply settle_pending_keeps.
  - apply settle_pending_keeps.
  - apply settle_pending_keeps.
  - unfold accept_remote, mark_terminal. destruct (remote_terminal s); [done|]. cbn. destruct (demand s) as [h|]; [|done]. exact (handle_mark_keeps h (with_session _ w)).
  - unfold arm, reserve_session_lease. repeat case_match; simplify_eq; try done. cbn. split; [done|]. intros k d Hk _. by apply lookup_app_l_Some.
  - unfold cancel_recovery. destruct (demand s) as [h|]; [|done]. exact (cancel_demand_keeps h (with_session _ w)).
  - unfold drop_session. by destruct (pending s).
  - apply handle_mark_keeps.
  - unfold settle_post_terminal. destruct (demands w !! h) as [e|] eqn:He; [|done]. destruct (demand_status e) eqn:Hst, attempt; try done.
    apply end_demand_keeps; by rewrite ?Hst.
  - apply cancel_demand_keeps.
Qed.

Lemma run_keeps w w' : rtc shared_step w w' → keeps w w'.
Proof.
  induction 1 as [|w1 w2 w3 Hs _ [IH1 IH2]]; [done|]. destruct (step_keeps _ _ Hs) as [H1 H2]. split; eauto.
Qed.

(** ** The properties *)

(** Whatever calls are made in whatever order, on the session, on a handle that outlived
    it or at a terminal boundary: the leases held are exactly those of the pending
    observation and of the demands that have not ended, none is held twice, and no cell
    but that of the pending observation is pending. *)
Theorem session_leases_are_exact w :
  rtc shared_step fresh w →
  held w = list_to_set (leases_of (session w) (demands w)) ∧ NoDup (leases_of (session w) (demands w)) ∧
  (∀ h d, demands w !! h = Some d → (is_Some (demand_lease d) ↔ ended (demand_status d) = false)) ∧
  (∀ s, session w = Some s → ∀ c, cells w !! c = Some PENDING ↔ ∃ p, pending s = Some p ∧ observation p = c).
Proof.
  intros Hr. destruct (sound_reachable w Hr) as [[Hh Ho _] Hd Hc _ _]. split; [done|]. split; [done|]. split; [|done].
  intros h d Hdh. rewrite <- not_eq_None_Some, (Hd h d Hdh). by destruct (ended (demand_status d)).
Qed.

(** C32: A departure is observed exactly when a receipt with its correlation comes while it
    is pending: the waiter is then told so, the lease is given back, and that answer is
    never changed by what happens later, nor is a cancellation. *)
Theorem departure_is_answered_once w s corr :
  rtc shared_step fresh w → session w = Some s →
  ((observe_local corr s w).2 = true ↔ ∃ p, pending s = Some p ∧ correlation p = corr) ∧
  (∀ p w' live, pending s = Some p → correlation p = corr → rtc shared_step (observe_local corr s w).1 w' →
    (pending_lease p ∉ held (observe_local corr s w).1) ∧
    ∃ o, cells w' !! observation p = Some o ∧ wait o live = Some WaitObserved) ∧
  (∀ c o w', cells w !! c = Some o → o ≠ PENDING → rtc shared_step w w' → cells w' !! c = Some o).
Proof.
  intros Hr Hs. pose proof (sound_reachable w Hr) as Hsd. pose proof (sound_cells _ Hsd s Hs) as Hc.
  split; [|split; [|intros c o w' Hco Ho Hw; by apply (run_keeps _ _ Hw)]].
  - unfold observe_local, settle_pending. destruct (pending s) as [p|] eqn:Hp; [|split; [done|by intros (? & ? & _)]].
    destruct (String.eqb_spec (correlation p) corr) as [He|He]; cbn; [|split; [done|by intros (? & [= <-] & ?)]].
    unfold exchange. rewrite decide_True by (apply Hc; eauto). split; eauto.
  - intros p w' live Hp He Hw. assert (cells (observe_local corr s w).1 !! observation p = Some OBSERVED ∧ pending_lease p ∉ held (observe_local corr s w).1) as [Ho Hl].
    { unfold observe_local, settle_pending. rewrite Hp, He, String.eqb_refl. cbn. assert (cells w !! observation p = Some PENDING) as Hpend by (apply Hc; eauto).
      unfold exchange. rewrite decide_True by done. cbn. split; [|set_solver]. rewrite list_lookup_insert_eq; [done|]. by eapply lookup_lt_Some. }
    split; [done|]. exists OBSERVED. split; [|done]. by apply (run_keeps _ _ Hw).
Qed.

(** A recovery demand is satisfied only by an accepted attempt after the terminal
    boundary; that gives its lease back, and from then on every attempt is told there is
    no demand and nothing is left to cancel.  A refused attempt leaves it as it is. *)
Theorem demand_is_satisfied_once w h attempt :
  rtc shared_step fresh w →
  ((settle_post_terminal h attempt w).2 = Satisfied ↔ attempt = Accepted ∧ ∃ l, demands w !! h = Some (mkDemand TERMINAL (Some l))) ∧
  (attempt = AttemptRefused → (settle_post_terminal h attempt w).1 = w) ∧
  (∀ w' again, (settle_post_terminal h attempt w).2 = Satisfied → rtc shared_step (settle_post_terminal h attempt w).1 w' →
    settle_post_terminal h again w' = (w', NoDemand) ∧ cancel_demand h w' = (w', false)).
Proof.
  intros Hr. pose proof (sound_reachable w Hr) as Hsd. unfold settle_post_terminal at 1 2 3 4.
  destruct (demands w !! h) as [d|] eqn:Hd; [|by split; [split; [|intros (_ & ? & ?)]|]].
  pose proof (sound_demands _ Hsd _ _ Hd) as Hend. destruct d as [st l]. cbn in *.
  destruct st, attempt; cbn; try (split; [split; [done|by intros (_ & ? & ?)]|done]); [|split; [split; [done|by intros (? & _)]|done]].
  destruct l as [l|]; [|by apply proj1 in Hend; specialize (Hend eq_refl)]. split; [split; [eauto|done]|]. split; [done|].
  intros w' again _ Hw. assert (demands (end_demand h SATISFIED (mkDemand TERMINAL (Some l)) w) !! h = Some (mkDemand SATISFIED None)) as He.
  { cbn. rewrite list_lookup_insert_eq; [done|]. by eapply lookup_lt_Some. }
  apply (run_keeps _ _ Hw) in He; [|done]. unfold settle_post_terminal, cancel_demand. rewrite He. by destruct again.
Qed.
End departure.

(** ** Instances *)
(** A departure over carrier 7 with a recovery demand, then the peer's own departure. *)
Definition departing : Shared := (begin_local 96 "receipt" 7 None departure_new fresh).1.
Definition departing_session : DepartureState := mkSession (Some (mkPending "receipt" 7 0 0)) false None false.
Definition recovering : Shared := (arm 64 None departing_session departing).1.
Definition recovering_session : DepartureState := mkSession (Some (mkPending "receipt" 7 0 0)) false (Some 0) false.
Definition peer_left : Shared := (accept_remote recovering_session recovering).1.

Lemma departing_reachable : rtc (shared_step 96 64) fresh departing.
Proof. apply rtc_once. by apply step_begin. Qed.

Lemma peer_left_reachable : rtc (shared_step 96 64) fresh peer_left.
Proof.
  etrans; [apply departing_reachable|]. apply (rtc_l _ _ recovering); [by apply step_arm|]. apply rtc_once. by apply step_remote.
Qed.

Lemma session_leases_are_exact_witness : held peer_left = list_to_set [0; 1] ∧ ended (demand_status (mkDemand TERMINAL (Some 1))) = false.
Proof. split; [exact (proj1 (session_leases_are_exact 96 64 peer_left peer_left_reachable))|reflexivity]. Defined.

Lemma departure_is_answered_once_witness : (observe_local "receipt" departing_session departing).2 = true.
Proof.
  refine (proj2 (proj1 (departure_is_answered_once 96 64 departing departing_session "receipt" departing_reachable _)) _); [reflexivity|].
  by eexists.
Defined.

Lemma demand_is_satisfied_once_witness : (settle_post_terminal 0 Accepted peer_left).2 = Satisfied.
Proof.
  refine (proj2 (proj1 (demand_is_satisfied_once 96 64 peer_left 0 Accepted peer_left_reachable)) _). split; [reflexivity|]. exists 1. reflexivity.
Defined.
