(* ===== verification/Port.v ===== *)
(** * The provider port, scopes and leases

    Models [ResourceProviderPort], [ResourceScope] and [ResourceLease] of
    crates/myownmesh-core/src/resource/provider.rs, against the
    [ResourceProvider] trait as an interface: the port's theorems use only the
    laws of [ResourceProviderLaws], which PortFinite.v discharges for the
    finite provider.

    A [ResourceScope] is an [Arc] on a [ResourceScopeInner]; a lease, a child
    scope, the port and every token of the application hold one strong
    reference.  [Process] keeps the live allocations by address, so the
    reference count of a scope is the number of live holders, and its [Drop]
    runs at some point after the last holder is gone. *)

From S2P Require Import Prelude Claims Provider.
From stdpp Require Import relations.
Local Open Scope Z_scope.

(** ** The [ResourceProvider] trait *)

Class ResourceProvider (S : Type) := {
  rp_create_scope : S → Z → Z → option Z → S * result failure ();
  rp_create_scope_and_acquire :
    S → Z → Z → Z → ResourceAuthorityClass → ResourceClaim → S * result failure Z;
  rp_release_scope : S → Z → Z → S;
  rp_acquire : S → Z → Z → ResourceAuthorityClass → ResourceClaim → S * result failure Z;
  rp_transition : S → Z → Z → Z → ResourceAuthorityClass → ResourceClaim →
    ResourceAuthorityClass → ResourceClaim → S * result failure ();
  rp_release : S → Z → Z → Z → ResourceAuthorityClass → ResourceClaim → S;
  rp_retain : S → Z → Z → Z → ResourceAuthorityClass → ResourceClaim →
    S * result failure ResourceClaim;
}.

(** What a caller can rely on of a provider's contents. *)
Record View : Type := mkView {
  v_bound : option Z;
  v_scopes : gset Z;
  v_reservations : gmap Z Reservation;
}.

Definition view_scope (s : Z) (v : View) : View :=
  mkView (v_bound v) ({[s]} ∪ v_scopes v) (v_reservations v).
Definition view_unscope (s : Z) (v : View) : View :=
  mkView (v_bound v) (v_scopes v ∖ {[s]}) (v_reservations v).
Definition view_set (id : Z) (r : Reservation) (v : View) : View :=
  mkView (v_bound v) (v_scopes v) (<[id := r]> (v_reservations v)).
Definition view_unset (id : Z) (v : View) : View :=
  mkView (v_bound v) (v_scopes v) (delete id (v_reservations v)).

(** The trait's contract for a healthy provider called with the authority it is
    bound to.  A refusal changes nothing; a panic happens only when the provider
    can mint no further reservation identity. *)
Class ResourceProviderLaws (S : Type) `{ResourceProvider S} := {
  rp_view : S → View;
  rp_healthy : S → Prop;
  rp_exhausted : S → Prop;
  rp_law_create_scope st a s p :
    rp_healthy st → v_bound (rp_view st) = Some a → p ∈ v_scopes (rp_view st) →
    s ∉ v_scopes (rp_view st) →
    match rp_create_scope st a s (Some p) with
    | (st', Ok _) => rp_healthy st' ∧ rp_view st' = view_scope s (rp_view st)
    | (st', Err _) => rp_healthy st' ∧ rp_view st' = rp_view st
    end;
  rp_law_create_scope_and_acquire st a s p cl c :
    rp_healthy st → v_bound (rp_view st) = Some a → p ∈ v_scopes (rp_view st) →
    s ∉ v_scopes (rp_view st) → claim_wf c →
    match rp_create_scope_and_acquire st a s p cl c with
    | (st', Ok id) => rp_healthy st' ∧ v_reservations (rp_view st) !! id = None ∧
        rp_view st' = view_set id (mkReservation s cl c) (view_scope s (rp_view st))
    | (st', Err (Refused _)) => rp_healthy st' ∧ rp_view st' = rp_view st
    | (st', Err Panicked) => rp_exhausted st'
    end;
  rp_law_release_scope st a s :
    rp_healthy st → v_bound (rp_view st) = Some a → s ∈ v_scopes (rp_view st) →
    map_Forall (λ _ r, rv_scope_id r ≠ s) (v_reservations (rp_view st)) →
    let st' := rp_release_scope st a s in
    rp_healthy st' ∧ rp_view st' = view_unscope s (rp_view st);
  rp_law_acquire st a s cl c :
    rp_healthy st → v_bound (rp_view st) = Some a → s ∈ v_scopes (rp_view st) → claim_wf c →
    match rp_acquire st a s cl c with
    | (st', Ok id) => rp_healthy st' ∧ v_reservations (rp_view st) !! id = None ∧
        rp_view st' = view_set id (mkReservation s cl c) (rp_view st)
    | (st', Err (Refused _)) => rp_healthy st' ∧ rp_view st' = rp_view st
    | (st', Err Panicked) => rp_exhausted st'
    end;
  rp_law_transition st a id s cl c cl' c' :
    rp_healthy st → v_bound (rp_view st) = Some a →
    v_reservations (rp_view st) !! id = Some (mkReservation s cl c) → claim_wf c' →
    match rp_transition st a id s cl c cl' c' with
    | (st', Ok _) => rp_healthy st' ∧
        rp_view st' = view_set id (mkReservation s cl' c') (rp_view st)
    | (st', Err _) => rp_healthy st' ∧ rp_view st' = rp_view st
    end;
  rp_law_release st a id s cl c :
    rp_healthy st → v_bound (rp_view st) = Some a →
    v_reservations (rp_view st) !! id = Some (mkReservation s cl c) →
    let st' := rp_release st a id s cl c in
    rp_healthy st' ∧ rp_view st' = view_unset id (rp_view st);
  rp_law_retain st a id s cl c :
    rp_healthy st → v_bound (rp_view st) = Some a →
    v_reservations (rp_view st) !! id = Some (mkReservation s cl c) →
    let '(st', r) := rp_retain st a id s cl c in
    r = Ok c ∧ rp_healthy st' ∧ rp_view st' = view_unset id (rp_view st);
  rp_exhausted_forever st :
    rp_exhausted st →
    (∀ a s p, rp_exhausted (rp_create_scope st a s p).1) ∧
    (∀ a s p cl c, claim_wf c → rp_exhausted (rp_create_scope_and_acquire st a s p cl c).1) ∧
    (∀ a s, rp_exhausted (rp_release_scope st a s)) ∧
    (∀ a s cl c, claim_wf c → rp_exhausted (rp_acquire st a s cl c).1) ∧
    (∀ a i s cl c cl' c', claim_wf c → claim_wf c' →
       rp_exhausted (rp_transition st a i s cl c cl' c').1) ∧
    (∀ a i s cl c, claim_wf c → rp_exhausted (rp_release st a i s cl c)) ∧
    (∀ a i s cl c, claim_wf c → rp_exhausted (rp_retain st a i s cl c).1);
}.

(** ** Live allocations of the process *)

(** [ResourceScopeInner], keyed by its identity address. *)
Record ScopeInner : Type := mkScopeInner {
  si_parent : option Z;
  si_registered : bool;
}.

Record ResourceLease : Type := mkLease {
  ls_reservation_id : option Z;
  ls_scope : Z;
  ls_authority : ResourceAuthorityClass;
  ls_claim : ResourceClaim;
}.

Section port.
Context {S : Type} `{!ResourceProvider S}.

(** The provider, its port, and what the application holds: scope tokens and
    leases, each under the name of the variable that owns it. *)
Record Process : Type := mkProcess {
  pc_provider : S;
  pc_authority : Z;
  pc_port_live : bool;
  pc_known_scopes : gset Z;
  pc_scopes : gmap Z ScopeInner;
  pc_tokens : gmap Z Z;
  pc_leases : gmap Z ResourceLease;
}.

Definition set_provider (p : S) (w : Process) : Process :=
  mkProcess p (pc_authority w) (pc_port_live w) (pc_known_scopes w) (pc_scopes w) (pc_tokens w)
    (pc_leases w).
Definition set_tokens (t : gmap Z Z) (w : Process) : Process :=
  mkProcess (pc_provider w) (pc_authority w) (pc_port_live w) (pc_known_scopes w) (pc_scopes w) t
    (pc_leases w).
Definition set_leases (l : gmap Z ResourceLease) (w : Process) : Process :=
  mkProcess (pc_provider w) (pc_authority w) (pc_port_live w) (pc_known_scopes w) (pc_scopes w)
    (pc_tokens w) l.
Definition set_registry (known : gset Z) (scopes : gmap Z ScopeInner) (w : Process) : Process :=
  mkProcess (pc_provider w) (pc_authority w) (pc_port_live w) known scopes (pc_tokens w)
    (pc_leases w).

(** ** [ResourceProviderPort] *)

Definition port_new (p : S) (address : Z) : S * result failure Process :=
  match rp_create_scope p address address None with
  | (p, Err e) => (p, Err e)
  | (p, Ok _) =>
      (p, Ok (mkProcess p address true {[address]} {[address := mkScopeInner None true]} ∅ ∅))
  end.

Definition process_scope (w : Process) (token : Z) : Process :=
  set_tokens (<[token := pc_authority w]> (pc_tokens w)) w.

Definition validate_scope (w : Process) (s : Z) : result failure () :=
  if pc_port_live w && bool_decide (s ∈ pc_known_scopes w) then Ok ()
  else Err (Refused (UnknownScope s)).

(** A refused scope drops its unregistered [ResourceScopeInner], whose [Drop]
    removes the identity from the registry and tells the provider nothing. *)
Definition drop_unregistered (w : Process) (p : S) (address : Z) : Process :=
  set_registry (pc_known_scopes w ∖ {[address]}) (pc_scopes w) (set_provider p w).

Definition register_scope (w : Process) (p : S) (parent address token : Z) : Process :=
  set_tokens (<[token := address]> (pc_tokens w))
    (set_registry ({[address]} ∪ pc_known_scopes w)
       (<[address := mkScopeInner (Some parent) true]> (pc_scopes w)) (set_provider p w)).

Definition port_create_scope (w : Process) (parent address token : Z) : Process * result failure () :=
  match validate_scope w parent with
  | Err e => (w, Err e)
  | Ok _ =>
      match rp_create_scope (pc_provider w) (pc_authority w) address (Some parent) with
      | (p, Err e) => (drop_unregistered w p address, Err e)
      | (p, Ok _) => (register_scope w p parent address token, Ok ())
      end
  end.

Definition port_create_scope_with_lease (w : Process) (parent address token lease : Z)
    (class : ResourceAuthorityClass) (claim : ResourceClaim) : Process * result failure () :=
  match validate_scope w parent with
  | Err e => (w, Err e)
  | Ok _ =>
      match rp_create_scope_and_acquire (pc_provider w) (pc_authority w) address parent class claim with
      | (p, Err e) => (drop_unregistered w p address, Err e)
      | (p, Ok id) =>
          let w := register_scope w p parent address token in
          (set_leases (<[lease := mkLease (Some id) address class claim]> (pc_leases w)) w, Ok ())
      end
  end.

Definition port_acquire (w : Process) (s lease : Z) (class : ResourceAuthorityClass)
    (claim : ResourceClaim) : Process * result failure () :=
  match validate_scope w s with
  | Err e => (w, Err e)
  | Ok _ =>
      match rp_acquire (pc_provider w) (pc_authority w) s class claim with
      | (p, Err e) => (set_provider p w, Err e)
      | (p, Ok id) =>
          (set_leases (<[lease := mkLease (Some id) s class claim]> (pc_leases w)) (set_provider p w),
           Ok ())
      end
  end.

(** ** [ResourceLease]: the [&mut self] and consuming methods, and [Drop] *)

Definition lease_transition_to (p : S) (authority : Z) (l : ResourceLease)
    (class : ResourceAuthorityClass) (claim : ResourceClaim) : S * ResourceLease * result failure () :=
  match ls_reservation_id l with
  | None => (p, l, Err Panicked)
  | Some id =>
      match rp_transition p authority id (ls_scope l) (ls_authority l) (ls_claim l) class claim with
      | (p, Err e) => (p, l, Err e)
      | (p, Ok _) => (p, mkLease (Some id) (ls_scope l) class claim, Ok ())
      end
  end.

Definition lease_transition (p : S) (authority : Z) (l : ResourceLease) (claim : ResourceClaim) :
    S * ResourceLease * result failure () :=
  lease_transition_to p authority l (ls_authority l) claim.

Definition lease_retain (p : S) (authority : Z) (l : ResourceLease) : S * result failure ResourceClaim :=
  match ls_reservation_id l with
  | None => (p, Err (Refused (ProviderInvariant OpaqueDependencyResidual)))
  | Some id => rp_retain p authority id (ls_scope l) (ls_authority l) (ls_claim l)
  end.

Definition lease_drop (p : S) (authority : Z) (l : ResourceLease) : S :=
  match ls_reservation_id l with
  | None => p
  | Some id => rp_release p authority id (ls_scope l) (ls_authority l) (ls_claim l)
  end.

(** ** [Drop] of the last token of a scope *)

Definition scope_drop (w : Process) (s : Z) : Process :=
  let known := if pc_port_live w then pc_known_scopes w ∖ {[s]} else pc_known_scopes w in
  let registered := match pc_scopes w !! s with Some si => si_registered si | None => false end in
  set_registry known (delete s (pc_scopes w))
    (set_provider (if registered then rp_release_scope (pc_provider w) (pc_authority w) s
                   else pc_provider w) w).

Definition drop_port (w : Process) : Process :=
  mkProcess (pc_provider w) (pc_authority w) false (pc_known_scopes w) (pc_scopes w) (pc_tokens w)
    (pc_leases w).

(** The strong references to a scope. *)
Definition referenced (w : Process) (s : Z) : Prop :=
  (pc_port_live w = true ∧ s = pc_authority w) ∨
  map_Exists (λ _ s', s' = s) (pc_tokens w) ∨
  map_Exists (λ _ l, ls_scope l = s) (pc_leases w) ∨
  map_Exists (λ _ si, si_parent si = Some s) (pc_scopes w).

(** ** What safe code can do

    Any interleaving of the public methods and of drops.  The allocator hands
    out an address that no live allocation has; the process identity stays
    allocated because the provider keeps it. *)
Definition fresh_address (w : Process) (address : Z) : Prop :=
  pc_scopes w !! address = None ∧ address ≠ pc_authority w.

Inductive app_step : Process → Process → Prop :=
| app_process_scope w t :
    pc_port_live w = true → pc_tokens w !! t = None → app_step w (process_scope w t)
| app_clone_token w t s t' :
    pc_tokens w !! t = Some s → pc_tokens w !! t' = None →
    app_step w (set_tokens (<[t' := s]> (pc_tokens w)) w)
| app_lease_scope w l ls t' :
    pc_leases w !! l = Some ls → pc_tokens w !! t' = None →
    app_step w (set_tokens (<[t' := ls_scope ls]> (pc_tokens w)) w)
| app_drop_token w t : app_step w (set_tokens (delete t (pc_tokens w)) w)
| app_create_scope w t s address t' :
    pc_port_live w = true → pc_tokens w !! t = Some s → fresh_address w address →
    pc_tokens w !! t' = None → app_step w (port_create_scope w s address t').1
| app_create_scope_with_lease w t s address t' l cl c :
    pc_port_live w = true → pc_tokens w !! t = Some s → fresh_address w address →
    pc_tokens w !! t' = None → pc_leases w !! l = None → claim_wf c →
    app_step w (port_create_scope_with_lease w s address t' l cl c).1
| app_acquire w t s l cl c :
    pc_port_live w = true → pc_tokens w !! t = Some s → pc_leases w !! l = None → claim_wf c →
    app_step w (port_acquire w s l cl c).1
| app_transition w l ls cl c p ls' r :
    pc_leases w !! l = Some ls → claim_wf c →
    lease_transition_to (pc_provider w) (pc_authority w) ls cl c = (p, ls', r) →
    app_step w (set_leases (<[l := ls']> (pc_leases w)) (set_provider p w))
| app_retain w l ls p r :
    pc_leases w !! l = Some ls → lease_retain (pc_provider w) (pc_authority w) ls = (p, r) →
    app_step w (set_leases (delete l (pc_leases w)) (set_provider p w))
| app_drop_lease w l ls :
    pc_leases w !! l = Some ls →
    app_step w (set_leases (delete l (pc_leases w))
      (set_provider (lease_drop (pc_provider w) (pc_authority w) ls) w))
| app_drop_scope w s si :
    pc_scopes w !! s = Some si → ¬ referenced w s → app_step w (scope_drop w s)
| app_drop_port w : pc_port_live w = true → app_step w (drop_port w).

(** ** The ownership invariant *)

Record owns (v : View) (w : Process) : Prop := {
  ow_bound : v_bound v = Some (pc_authority w);
  ow_scopes : v_scopes v = dom (pc_scopes w);
  ow_registered : map_Forall (λ _ si, si_registered si = true) (pc_scopes w);
  ow_known : pc_port_live w = true → pc_known_scopes w = dom (pc_scopes w);
  ow_root : pc_port_live w = true → pc_authority w ∈ dom (pc_scopes w);
  ow_tokens : map_Forall (λ _ s, s ∈ dom (pc_scopes w)) (pc_tokens w);
  ow_parents : map_Forall (λ _ si, ∀ s, si_parent si = Some s → s ∈ dom (pc_scopes w)) (pc_scopes w);
  ow_lease_scopes : map_Forall (λ _ l, ls_scope l ∈ dom (pc_scopes w)) (pc_leases w);
  ow_leases : map_Forall (λ _ l, ∃ id, ls_reservation_id l = Some id ∧
    v_reservations v !! id
      = Some (mkReservation (ls_scope l) (ls_authority l) (ls_claim l))) (pc_leases w);
  ow_unique : ∀ l1 l2 a b, pc_leases w !! l1 = Some a → pc_leases w !! l2 = Some b →
    ls_reservation_id a = ls_reservation_id b → l1 = l2;
  ow_reservations : map_Forall (λ id _, ∃ l a, pc_leases w !! l = Some a ∧ ls_reservation_id a = Some id)
    (v_reservations v);
}.

Lemma owns_tokens v w t s :
  owns v w → s ∈ dom (pc_scopes w) → owns v (set_tokens (<[t := s]> (pc_tokens w)) w).
Proof. intros [] Hs. split; cbn; auto. by apply map_Forall_insert_2. Qed.

Lemma owns_drop_unregistered v w p address :
  owns v w → pc_scopes w !! address = None → owns v (drop_unregistered w p address).
Proof.
  intros [] Hf. split; cbn in *; auto. intros Hl. rewrite ow_known0 by done.
  apply not_elem_of_dom in Hf. set_solver.
Qed.

Lemma owns_register v w p parent address token :
  owns v w → parent ∈ dom (pc_scopes w) → fresh_address w address →
  owns (view_scope address v) (register_scope w p parent address token).
Proof.
  intros [] Hp [Hf Hne]. split; cbn; auto.
  - rewrite ow_scopes0, dom_insert_L. done.
  - by apply map_Forall_insert_2.
  - intros Hl. rewrite ow_known0, dom_insert_L; done.
  - intros Hl. rewrite dom_insert_L. specialize (ow_root0 Hl). set_solver.
  - apply map_Forall_insert_2; [set_solver|]. eapply map_Forall_impl; [exact ow_tokens0|]. set_solver.
  - apply map_Forall_insert_2; [cbn; set_solver|].
    eapply map_Forall_impl; [exact ow_parents0|]. set_solver.
  - eapply map_Forall_impl; [exact ow_lease_scopes0|]. set_solver.
Qed.

(** A fresh reservation gets its owning lease. *)
Lemma owns_new_lease v w l id s cl c :
  owns v w → pc_leases w !! l = None → s ∈ dom (pc_scopes w) → v_reservations v !! id = None →
  owns (view_set id (mkReservation s cl c) v)
    (set_leases (<[l := mkLease (Some id) s cl c]> (pc_leases w)) w).
Proof.
  intros [] Hl Hs Hid.
  assert (Hno : ∀ l' a, pc_leases w !! l' = Some a → ls_reservation_id a ≠ Some id).
  { intros l' a Ha Heq. destruct (ow_leases0 _ _ Ha) as (id' & ? & ?). congruence. }
  split; cbn; auto.
  - by apply map_Forall_insert_2.
  - apply map_Forall_insert_2; [eexists; split; [done|apply lookup_insert_eq]|].
    intros l' a Ha. destruct (ow_leases0 _ _ Ha) as (id' & Hid' & Hr). exists id'. split; [done|].
    rewrite lookup_insert_ne; [done|]. intros ->. by eapply Hno.
  - intros l1 l2 a b. rewrite !lookup_insert_Some. naive_solver.
  - apply map_Forall_insert_2.
    + exists l. eexists. rewrite lookup_insert_eq. done.
    + intros id' r Hr. destruct (ow_reservations0 _ _ Hr) as (l' & a & Ha & Hid').
      exists l', a. rewrite lookup_insert_ne; [done|]. congruence.
Qed.

(** A replaced reservation keeps its owner. *)
Lemma owns_replace v w l ls id cl c :
  owns v w → pc_leases w !! l = Some ls → ls_reservation_id ls = Some id →
  owns (view_set id (mkReservation (ls_scope ls) cl c) v)
    (set_leases (<[l := mkLease (Some id) (ls_scope ls) cl c]> (pc_leases w)) w).
Proof.
  intros [] Hl Hid. pose proof (ow_lease_scopes0 _ _ Hl) as Hs. split; cbn; auto.
  - by apply map_Forall_insert_2.
  - intros l' a. rewrite lookup_insert_Some. intros [[<- <-]|[Hne Ha]]; cbn.
    { eexists. split; [done|]. apply lookup_insert_eq. }
    destruct (ow_leases0 _ _ Ha) as (id' & Hid' & Hr). exists id'. split; [done|].
    rewrite lookup_insert_ne; [done|]. intros ->. apply Hne. eapply ow_unique0; eauto; congruence.
  - intros l1 l2 a b. rewrite !lookup_insert_Some.
    intros [[<- <-]|[? Ha]] [[<- <-]|[? Hb]]; cbn; try done; intros Heq;
      eapply ow_unique0; eauto; congruence.
  - apply map_Forall_insert_2.
    + exists l. eexists. rewrite lookup_insert_eq. done.
    + intros id' r Hr. destruct (ow_reservations0 _ _ Hr) as (l' & a & Ha & Hid').
      destruct (decide (l' = l)) as [->|].
      * exists l. eexists. rewrite lookup_insert_eq. split; [done|]. cbn. congruence.
      * exists l', a. by rewrite lookup_insert_ne.
Qed.

(** A consumed lease takes its reservation with it. *)
Lemma owns_consume v w l ls id :
  owns v w → pc_leases w !! l = Some ls → ls_reservation_id ls = Some id →
  owns (view_unset id v) (set_leases (delete l (pc_leases w)) w).
Proof.
  intros [] Hl Hid. split; cbn; auto.
  - by apply map_Forall_delete.
  - intros l' a. rewrite lookup_delete_Some. intros [Hne Ha].
    destruct (ow_leases0 _ _ Ha) as (id' & Hid' & Hr). exists id'. split; [done|].
    rewrite lookup_delete_ne; [done|]. intros ->. apply Hne. eapply ow_unique0; eauto; congruence.
  - intros l1 l2 a b. rewrite !lookup_delete_Some. intros [_ ?] [_ ?]. by eapply ow_unique0.
  - intros id' r. rewrite lookup_delete_Some. intros [Hne Hr].
    destruct (ow_reservations0 _ _ Hr) as (l' & a & Ha & Hid').
    exists l', a. rewrite lookup_delete_ne; [done|]. congruence.
Qed.

(** No reservation of a scope without holders is left. *)
Lemma owns_unreferenced v w s :
  owns v w → ¬ referenced w s → map_Forall (λ _ r, rv_scope_id r ≠ s) (v_reservations v).
Proof.
  intros Ho Hnr id r Hr Heq. destruct (ow_reservations _ _ Ho _ _ Hr) as (l & a & Ha & Hid).
  destruct (ow_leases _ _ Ho _ _ Ha) as (id' & Hid' & Hr').
  apply Hnr. right; right; left. exists l, a. split; [done|].
  assert (id' = id) as -> by congruence. rewrite Hr in Hr'. injection Hr' as ->. done.
Qed.

Lemma owns_scope_drop v w p s :
  owns v w → ¬ referenced w s →
  owns (view_unscope s v)
    (set_registry (if pc_port_live w then pc_known_scopes w ∖ {[s]} else pc_known_scopes w)
       (delete s (pc_scopes w)) (set_provider p w)).
Proof.
  intros [] Hnr. split; cbn; auto; rewrite ?dom_delete_L.
  - by rewrite ow_scopes0.
  - by apply map_Forall_delete.
  - intros Hl. by rewrite Hl, ow_known0.
  - intros Hl. specialize (ow_root0 Hl). apply elem_of_difference. split; [done|].
    intros Heq%elem_of_singleton. apply Hnr. by left.
  - intros t s' Ht. apply elem_of_difference. split; [by eapply ow_tokens0|].
    intros Heq%elem_of_singleton. apply Hnr. right; left. by exists t, s'.
  - intros s' si' Hs' q Hp. apply lookup_delete_Some in Hs' as [_ Hs'].
    apply elem_of_difference. split; [by eapply ow_parents0|].
    intros Heq%elem_of_singleton. apply Hnr. right; right; right. exists s', si'. by subst.
  - intros l a Ha. apply elem_of_difference. split; [by eapply ow_lease_scopes0|].
    intros Heq%elem_of_singleton. apply Hnr. right; right; left. by exists l, a.
Qed.

Lemma validate_scope_ok v w s :
  owns v w → pc_port_live w = true → s ∈ dom (pc_scopes w) → validate_scope w s = Ok ().
Proof.
  intros Ho Hl Hs. unfold validate_scope. rewrite Hl, (ow_known _ _ Ho Hl).
  by rewrite bool_decide_eq_true_2.
Qed.

(** ** Every step preserves ownership *)

Context `{!ResourceProviderLaws S}.

Definition owned (w : Process) : Prop :=
  rp_healthy (pc_provider w) ∧ owns (rp_view (pc_provider w)) w.

(** Either the provider ran out of reservation identities, or ownership is
    exact. *)
Definition exact (w : Process) : Prop := rp_exhausted (pc_provider w) ∨ owned w.

Definition leases_wf (w : Process) : Prop := map_Forall (λ _ l, claim_wf (ls_claim l)) (pc_leases w).

(** Ownership sees the provider only through its view. *)
Lemma owned_provider w p v :
  owns v w → rp_healthy p → rp_view p = v → owned (set_provider p w).
Proof. intros [] Hh Hv. split; [done|]. cbn. rewrite Hv. by split. Qed.

Lemma create_scope_owned w s address t :
  pc_port_live w = true → s ∈ dom (pc_scopes w) → fresh_address w address →
  owned w → owned (port_create_scope w s address t).1.
Proof.
  intros Hl Hs Hf [Hh Ho]. unfold port_create_scope. erewrite validate_scope_ok by done.
  pose proof (rp_law_create_scope (pc_provider w) (pc_authority w) address s Hh (ow_bound _ _ Ho)) as Hlaw.
  rewrite (ow_scopes _ _ Ho), not_elem_of_dom in Hlaw. specialize (Hlaw Hs (proj1 Hf)).
  destruct (rp_create_scope _ _ _ _) as [p [[]|e]]; cbn; destruct Hlaw as [Hh' Hv]; split; try done;
    cbn; rewrite Hv.
  - by apply owns_register.
  - apply owns_drop_unregistered; [done|apply Hf].
Qed.

Lemma create_scope_with_lease_exact w s address t l cl c :
  pc_port_live w = true → s ∈ dom (pc_scopes w) → fresh_address w address →
  pc_leases w !! l = None → claim_wf c → owned w →
  exact (port_create_scope_with_lease w s address t l cl c).1.
Proof.
  intros Hl Hs Hf Hle Hc [Hh Ho]. unfold port_create_scope_with_lease.
  erewrite validate_scope_ok by done.
  pose proof (rp_law_create_scope_and_acquire (pc_provider w) (pc_authority w) address s cl c Hh
    (ow_bound _ _ Ho)) as Hlaw.
  rewrite (ow_scopes _ _ Ho), not_elem_of_dom in Hlaw. specialize (Hlaw Hs (proj1 Hf) Hc).
  destruct (rp_create_scope_and_acquire _ _ _ _ _ _) as [p [id|[e|]]]; cbn; [right|right|by left].
  - destruct Hlaw as (Hh' & Hid & Hv). split; [done|]. cbn. rewrite Hv.
    apply (owns_new_lease _ (register_scope w p s address t)); cbn; [by apply owns_register|done|set_solver|done].
  - destruct Hlaw as [Hh' Hv]. split; [done|]. cbn. rewrite Hv.
    apply owns_drop_unregistered; [done|apply Hf].
Qed.

Lemma acquire_exact w s l cl c :
  pc_port_live w = true → s ∈ dom (pc_scopes w) → pc_leases w !! l = None → claim_wf c →
  owned w → exact (port_acquire w s l cl c).1.
Proof.
  intros Hl Hs Hle Hc [Hh Ho]. unfold port_acquire. erewrite validate_scope_ok by done.
  pose proof (rp_law_acquire (pc_provider w) (pc_authority w) s cl c Hh (ow_bound _ _ Ho)) as Hlaw.
  rewrite (ow_scopes _ _ Ho) in Hlaw. specialize (Hlaw Hs Hc).
  destruct (rp_acquire _ _ _ _ _) as [p [id|[e|]]]; cbn; [right|right|by left].
  - destruct Hlaw as (Hh' & Hid & Hv). split; [done|]. cbn. rewrite Hv.
    apply (owns_new_lease _ (set_provider p w)); cbn; [by destruct Ho|done..].
  - destruct Hlaw as [Hh' Hv]. by eapply owned_provider.
Qed.

Lemma transition_owned w l ls cl c p ls' r :
  owned w → pc_leases w !! l = Some ls → claim_wf c →
  lease_transition_to (pc_provider w) (pc_authority w) ls cl c = (p, ls', r) →
  owned (set_leases (<[l := ls']> (pc_leases w)) (set_provider p w)).
Proof.
  intros [Hh Ho] Hl Hc. unfold lease_transition_to.
  destruct (ow_leases _ _ Ho _ _ Hl) as (id & Hid & Hr). rewrite Hid.
  pose proof (rp_law_transition _ _ _ _ _ _ cl c Hh (ow_bound _ _ Ho) Hr Hc) as Hlaw.
  destruct (rp_transition _ _ _ _ _ _ _ _) as [p' [[]|e]]; destruct Hlaw as [Hh' Hv]; intros [= <- <- <-].
  - split; [done|]. cbn. rewrite Hv. apply (owns_replace _ (set_provider p' w)); cbn; [by destruct Ho|done..].
  - rewrite insert_id by done. by eapply (owned_provider w p').
Qed.

Lemma retain_owned w l ls p r :
  owned w → pc_leases w !! l = Some ls →
  lease_retain (pc_provider w) (pc_authority w) ls = (p, r) →
  r = Ok (ls_claim ls) ∧ owned (set_leases (delete l (pc_leases w)) (set_provider p w)).
Proof.
  intros [Hh Ho] Hl. unfold lease_retain.
  destruct (ow_leases _ _ Ho _ _ Hl) as (id & Hid & Hr). rewrite Hid.
  pose proof (rp_law_retain _ _ _ _ _ _ Hh (ow_bound _ _ Ho) Hr) as Hlaw.
  destruct (rp_retain _ _ _ _ _ _) as [p' r']. destruct Hlaw as (-> & Hh' & Hv). intros [= <- <-].
  split; [done|]. split; [done|]. cbn. rewrite Hv.
  apply (owns_consume _ (set_provider p' w) l ls); cbn; [by destruct Ho|done..].
Qed.

Lemma drop_lease_owned w l ls :
  owned w → pc_leases w !! l = Some ls →
  owned (set_leases (delete l (pc_leases w))
    (set_provider (lease_drop (pc_provider w) (pc_authority w) ls) w)).
Proof.
  intros [Hh Ho] Hl. unfold lease_drop.
  destruct (ow_leases _ _ Ho _ _ Hl) as (id & Hid & Hr). rewrite Hid.
  destruct (rp_law_release _ _ _ _ _ _ Hh (ow_bound _ _ Ho) Hr) as [Hh' Hv].
  split; [done|]. cbn. rewrite Hv.
  apply (owns_consume _ (set_provider _ w) l ls); cbn; [by destruct Ho|done..].
Qed.

Lemma scope_drop_owned w s si :
  owned w → pc_scopes w !! s = Some si → ¬ referenced w s → owned (scope_drop w s).
Proof.
  intros [Hh Ho] Hs Hnr. unfold scope_drop. rewrite Hs.
  rewrite (ow_registered _ _ Ho _ _ Hs : si_registered si = true).
  destruct (rp_law_release_scope (pc_provider w) (pc_authority w) s Hh (ow_bound _ _ Ho)) as [Hh' Hv].
  - rewrite (ow_scopes _ _ Ho). by eapply elem_of_dom_2.
  - by eapply owns_unreferenced.
  - split; [done|]. cbn. rewrite Hv. by apply owns_scope_drop.
Qed.

Lemma app_step_leases_wf w w' : app_step w w' → leases_wf w → leases_wf w'.
Proof.
  unfold leases_wf. destruct 1; cbn; try done.
  - unfold port_create_scope. by repeat case_match.
  - intros Hw. unfold port_create_scope_with_lease. repeat case_match; try done.
    by apply map_Forall_insert_2.
  - intros Hw. unfold port_acquire. repeat case_match; try done. by apply map_Forall_insert_2.
  - intros Hw. unfold lease_transition_to in *. apply map_Forall_insert_2; [|done].
    repeat case_match; simplify_eq/=; by eauto.
  - apply map_Forall_delete.
  - apply map_Forall_delete.
Qed.

Lemma app_step_exhausted w w' :
  app_step w w' → leases_wf w → rp_exhausted (pc_provider w) → rp_exhausted (pc_provider w').
Proof.
  intros Hstep Hwf He.
  destruct (rp_exhausted_forever _ He) as (H1 & H2 & H3 & H4 & H5 & H6 & H7).
  destruct Hstep; cbn; try done.
  - unfold port_create_scope. case_match; [|done].
    specialize (H1 (pc_authority w) address (Some s)). by destruct (rp_create_scope _ _ _ _) as [? []].
  - unfold port_create_scope_with_lease. case_match; [|done].
    specialize (H2 (pc_authority w) address s cl c).
    destruct (rp_create_scope_and_acquire _ _ _ _ _ _) as [? []]; auto.
  - unfold port_acquire. case_match; [|done].
    specialize (H4 (pc_authority w) s cl c). destruct (rp_acquire _ _ _ _ _) as [? []]; auto.
  - specialize (Hwf _ _ H); cbn in Hwf. unfold lease_transition_to in *.
    destruct (ls_reservation_id ls) as [id|]; [|by simplify_eq].
    specialize (H5 (pc_authority w) id (ls_scope ls) (ls_authority ls) (ls_claim ls) cl c Hwf).
    destruct (rp_transition _ _ _ _ _ _ _ _) as [? []]; simplify_eq; auto.
  - specialize (Hwf _ _ H); cbn in Hwf. unfold lease_retain in *.
    destruct (ls_reservation_id ls) as [id|]; [|by simplify_eq].
    specialize (H7 (pc_authority w) id (ls_scope ls) (ls_authority ls) (ls_claim ls) Hwf).
    destruct (rp_retain _ _ _ _ _ _); by simplify_eq.
  - specialize (Hwf _ _ H); cbn in Hwf. unfold lease_drop. case_match; auto.
  - unfold scope_drop; cbn. case_match; [|done]. case_match; auto.
Qed.

Lemma app_step_owned w w' : app_step w w' → owned w → exact w'.
Proof.
  intros Hstep Ho. pose proof (ow_tokens _ _ (proj2 Ho)) as Htok.
  destruct Hstep.
  - right. destruct Ho as [Hh Ho]. split; [done|]. by apply owns_tokens, (ow_root _ _ Ho).
  - right. destruct Ho. split; [done|]. apply owns_tokens; [done|]. by eapply Htok.
  - right. destruct Ho as [Hh Ho]. split; [done|]. apply owns_tokens; [done|].
    by eapply (ow_lease_scopes _ _ Ho).
  - right. destruct Ho as [Hh []]. split; [done|]. split; cbn; try done. by apply map_Forall_delete.
  - right. apply create_scope_owned; auto. by eapply Htok.
  - apply create_scope_with_lease_exact; auto. by eapply Htok.
  - apply acquire_exact; auto. by eapply Htok.
  - right. by eapply transition_owned.
  - right. by eapply retain_owned.
  - right. by apply drop_lease_owned.
  - right. by eapply scope_drop_owned.
  - right. destruct Ho as [Hh []]. split; [done|]. by split.
Qed.

Lemma app_steps_exact w w' :
  rtc app_step w w' → leases_wf w → exact w → leases_wf w' ∧ exact w'.
Proof.
  induction 1 as [|w1 w2 w3 Hstep _ IH]; [done|]. intros Hwf [He|Ho]; apply IH;
    eauto using app_step_leases_wf, app_step_owned.
  left. by eapply app_step_exhausted.
Qed.

End port.

Arguments Process : clear implicits.
