(* ===== verification/PortFinite.v ===== *)
(** * The finite provider under its port

    Discharges the [ResourceProvider] contract of Port.v for the finite
    provider of Provider.v, and draws the conclusions for a process that uses
    the two together: ownership is exact, nothing safe code does poisons the
    provider, and a process that drops everything gives everything back. *)

From S2P Require Import Prelude Claims Provider Port.
From stdpp Require Import relations.
Local Open Scope Z_scope.

#[export] Instance finite_provider : ResourceProvider State := {
  rp_create_scope := create_scope;
  rp_create_scope_and_acquire := create_scope_and_acquire;
  rp_release_scope := release_scope;
  rp_acquire := acquire;
  rp_transition := transition;
  rp_release := release;
  rp_retain := retain_after_cleanup;
}.

Definition finite_view (st : State) : View :=
  mkView (provider_authority st) (scopes st) (reservations st).

Record finite_healthy (st : State) : Prop := {
  fh_inv : provider_inv st;
  fh_poisoned : poisoned st = None;
  fh_mutex : mutex_poisoned st = false;
}.

Definition finite_exhausted (st : State) : Prop := u64_max ≤ next_reservation_id st.

(** ** A healthy provider passes its own guards *)

Lemma healthy_lock st : finite_healthy st → lock_state st = st.
Proof. intros [_ _ Hm]. unfold lock_state. by rewrite Hm. Qed.

Lemma healthy_check st : finite_healthy st → check_poisoned st = Ok ().
Proof. intros [_ Hp _]. unfold check_poisoned. by rewrite Hp. Qed.

Lemma bound_require st a : provider_authority st = Some a → require_provider_authority st a = Ok ().
Proof. intros H. unfold require_provider_authority. by rewrite H, Z.eqb_refl. Qed.

Lemma bound_bind st a : provider_authority st = Some a → bind_provider_authority a st = (st, Ok ()).
Proof. intros H. unfold bind_provider_authority. by rewrite H, Z.eqb_refl. Qed.

(** Admission on a base within the grant never poisons. *)
Lemma healthy_admission st base s a c st' r :
  provider_inv st → claim_wf base → (∀ d, amount base d ≤ amount (grant st) d) → claim_wf c →
  checked_admission st base s a [c] = (st', r) → st' = st.
Proof.
  intros Hinv Hb Hle Hc Hadm. apply checked_admission_spec in Hadm as (_ & _ & _ & Hr); try apply Hinv.
  - destruct r as [?|?]; [by destruct Hr as [-> _]|]. destruct Hr as [->|(d & -> & Hd)]; [done|].
    specialize (Hle d). lia.
  - done.
  - intros d. rewrite parts_total_one. by apply amount_bounds.
Qed.

Lemma charge_wf c ch : claim_wf c → reservation_charge c = Ok ch → claim_wf ch.
Proof. intros Hc H. by apply reservation_charge_Ok in H as []. Qed.

(** The outcome of the reservation path of [acquire] and
    [create_scope_and_acquire]. *)
Lemma healthy_insert st r next :
  provider_inv (set_mutex_poisoned true st) → poisoned st = None → mutex_poisoned st = false →
  provider_inv (insert_reservation st r next).1 →
  match insert_reservation st r next with
  | (st', Ok id) => finite_healthy st' ∧ reservations st !! id = None ∧
      finite_view st' = view_set id r (finite_view st)
  | (st', Err (Refused _)) => False
  | (st', Err Panicked) => finite_exhausted st'
  end.
Proof.
  intros Hinv Hp Hm. destruct (decide (next_reservation_id st < u64_max)) as [Hlt|Hge].
  - rewrite insert_reservation_Ok by done. intros Hinv'. split_and!; [by split| |done].
    destruct (reservations st !! _) eqn:Hlk; [|done]. apply (inv_ids _ Hinv) in Hlk; cbn in Hlk. lia.
  - intros _. unfold insert_reservation, allocate_reservation_id.
    destruct (checked_add _ _ _) eqn:Hadd; z_norm; [lia|]. unfold finite_exhausted; cbn. lia.
Qed.

(** A live reservation's charge, on top of what is retained, is in use. *)
Lemma live_charge_le st id r d :
  provider_inv st → mutex_poisoned st = false → reservations st !! id = Some r →
  amount (retained_after_failed_cleanup st) d + (amount (rv_claim r) d + amount bookkeeping_claim d)
  ≤ amount (in_use st) d.
Proof.
  intros Hinv Hm Hr. rewrite (inv_conserved _ Hinv Hm). unfold charged.
  pose proof (bookkeeping_bound d).
  assert (amount (rv_claim r) d + amount bookkeeping_claim d
    ≤ msum (λ r, amount (rv_claim r) d + amount bookkeeping_claim d) (reservations st)); [|nia].
  apply (msum_le_lookup (λ r, amount (rv_claim r) d + amount bookkeeping_claim d) _ id r); [|done].
  intros i r' Hr'. pose proof (amount_bounds _ d (inv_claims_wf _ Hinv _ _ Hr' : claim_wf _)). lia.
Qed.

Lemma live_charge st id r :
  provider_inv st → mutex_poisoned st = false → reservations st !! id = Some r →
  ∃ ch, reservation_charge (rv_claim r) = Ok ch.
Proof.
  intros Hinv Hm Hr. unfold reservation_charge.
  destruct (claim_add_total (rv_claim r) bookkeeping_claim) as [ch ->]; [|by eexists].
  intros d. pose proof (live_charge_le _ _ _ d Hinv Hm Hr).
  pose proof (amount_bounds _ d (inv_in_use_wf _ Hinv)).
  pose proof (amount_bounds _ d (inv_retained_wf _ Hinv)). lia.
Qed.

(** Subtracting it never underflows. *)
Lemma live_charge_sub st id r ch :
  provider_inv st → mutex_poisoned st = false → reservations st !! id = Some r →
  reservation_charge (rv_claim r) = Ok ch →
  ∃ c, claim_checked_sub (in_use st) ch = Ok c ∧ claim_wf c ∧
    ∀ d, amount c d = amount (in_use st) d - amount ch d.
Proof.
  intros Hinv Hm Hr Hch. apply reservation_charge_Ok in Hch as [Hwf Hch]; [|by eapply (inv_claims_wf _ Hinv)].
  destruct (claim_sub_total (in_use st) ch) as [c Hc].
  - intros d. rewrite Hch. pose proof (live_charge_le _ _ _ d Hinv Hm Hr).
    pose proof (amount_bounds _ d (inv_retained_wf _ Hinv)). lia.
  - exists c. split; [done|]. apply claim_sub_Ok in Hc; [done|apply Hinv|done].
Qed.

Lemma exact_reservation_live st id s cl c :
  reservations st !! id = Some (mkReservation s cl c) → exact_reservation st id s cl c = true.
Proof. intros Hr. unfold exact_reservation. by rewrite Hr, bool_decide_eq_true_2. Qed.

(** ** The contract *)

Lemma finite_law_create_scope st a s p :
  finite_healthy st → provider_authority st = Some a → p ∈ scopes st → s ∉ scopes st →
  match create_scope st a s (Some p) with
  | (st', Ok _) => finite_healthy st' ∧ finite_view st' = view_scope s (finite_view st)
  | (st', Err _) => finite_healthy st' ∧ finite_view st' = finite_view st
  end.
Proof.
  intros Hh Ha Hp Hs. pose proof (create_scope_inv st a s (Some p) (fh_inv _ Hh)) as Hinv'.
  revert Hinv'. unfold create_scope.
  rewrite healthy_lock, healthy_check, bound_bind, decide_True, decide_False by done.
  destruct (checked_admission _ _ _ _ _) as [st' r] eqn:Hadm.
  apply healthy_admission in Hadm as ->; try apply Hh; [|auto with claims].
  destruct Hh. destruct r; cbn; [|done]. intros Hinv'. split; [by split|done].
Qed.

Lemma provider_inv_add_scope st s :
  provider_inv st → provider_inv (set_mutex_poisoned true (set_scopes ({[s]} ∪ scopes st) st)).
Proof.
  intros []. split; cbn; try done. eapply map_Forall_impl; [exact inv_scoped|]. set_solver.
Qed.

Lemma finite_law_create_scope_and_acquire st a s p cl c :
  finite_healthy st → provider_authority st = Some a → p ∈ scopes st → s ∉ scopes st → claim_wf c →
  match create_scope_and_acquire st a s p cl c with
  | (st', Ok id) => finite_healthy st' ∧ reservations st !! id = None ∧
      finite_view st' = view_set id (mkReservation s cl c) (view_scope s (finite_view st))
  | (st', Err (Refused _)) => finite_healthy st' ∧ finite_view st' = finite_view st
  | (st', Err Panicked) => finite_exhausted st'
  end.
Proof.
  intros Hh Ha Hp Hs Hc.
  pose proof (create_scope_and_acquire_inv st a s p cl c Hc (fh_inv _ Hh)) as Hinv'.
  revert Hinv'. unfold create_scope_and_acquire.
  rewrite healthy_lock, healthy_check, bound_require, decide_False by (done || tauto).
  rewrite decide_False by done.
  destruct (reservation_charge c) as [ch|] eqn:Hch; [|done]. cbn.
  destruct (claim_checked_add ch bookkeeping_claim) as [ch'|] eqn:Hch'; [|done]. cbn.
  apply charge_wf in Hch; [|done].
  apply claim_add_Ok in Hch' as [Hwf' _]; [|auto with claims..].
  destruct (checked_admission _ _ _ _ _) as [st' r] eqn:Hadm.
  apply healthy_admission in Hadm as ->; try apply Hh; [|done].
  destruct Hh as [Hinv Hpo Hm]. destruct r; [|done]. intros Hinv'.
  pose proof (healthy_insert (set_scopes ({[s]} ∪ scopes st) st) (mkReservation s cl c) a0) as Hins.
  specialize (Hins (provider_inv_add_scope _ _ Hinv) Hpo Hm Hinv').
  by destruct (insert_reservation _ _ _) as [st' [id|[e|]]].
Qed.

Lemma finite_law_release_scope st a s :
  finite_healthy st → provider_authority st = Some a → s ∈ scopes st →
  map_Forall (λ _ r, rv_scope_id r ≠ s) (reservations st) →
  let st' := release_scope st a s in
  finite_healthy st' ∧ finite_view st' = view_unscope s (finite_view st).
Proof.
  intros Hh Ha Hs Hno. pose proof (release_scope_inv st a s (fh_inv _ Hh)) as Hinv'.
  revert Hinv'. unfold release_scope. rewrite healthy_lock, bound_require by done.
  rewrite decide_False by (intros [?|(i & r & Hr & He)]; [done|by apply (Hno _ _ Hr)]).
  destruct Hh as [Hinv Hpo Hm].
  destruct (claim_sub_total (in_use st) bookkeeping_claim) as [c ->].
  - intros d. rewrite (inv_conserved _ Hinv Hm). unfold charged.
    pose proof (amount_bounds _ d (inv_retained_wf _ Hinv)). pose proof (bookkeeping_bound d).
    assert (size (scopes st) ≠ 0%nat) by (intros Hz%size_empty_inv; set_solver).
    assert (0 ≤ msum (λ r, amount (rv_claim r) d + amount bookkeeping_claim d) (reservations st)); [|nia].
    apply msum_nonneg. intros i r Hr. pose proof (amount_bounds _ d (inv_claims_wf _ Hinv _ _ Hr : claim_wf _)). lia.
  - intros Hinv'. split; [by split|done].
Qed.

Lemma finite_law_acquire st a s cl c :
  finite_healthy st → provider_authority st = Some a → s ∈ scopes st → claim_wf c →
  match acquire st a s cl c with
  | (st', Ok id) => finite_healthy st' ∧ reservations st !! id = None ∧
      finite_view st' = view_set id (mkReservation s cl c) (finite_view st)
  | (st', Err (Refused _)) => finite_healthy st' ∧ finite_view st' = finite_view st
  | (st', Err Panicked) => finite_exhausted st'
  end.
Proof.
  intros Hh Ha Hs Hc. pose proof (acquire_inv st a s cl c Hc (fh_inv _ Hh)) as Hinv'.
  revert Hinv'. unfold acquire.
  rewrite healthy_lock, healthy_check, bound_require, decide_False by (done || tauto).
  destruct (reservation_charge c) as [ch|] eqn:Hch; [|done]. apply charge_wf in Hch; [|done].
  destruct (checked_admission _ _ _ _ _) as [st' r] eqn:Hadm.
  apply healthy_admission in Hadm as ->; try apply Hh; [|done].
  destruct Hh as [Hinv Hpo Hm]. destruct r as [next|]; [|done]. intros Hinv'.
  pose proof (healthy_insert st (mkReservation s cl c) next (provider_inv_weaken _ Hinv) Hpo Hm Hinv').
  by destruct (insert_reservation _ _ _) as [st' [id|[e|]]].
Qed.

Lemma finite_law_transition st a id s cl c cl' c' :
  finite_healthy st → provider_authority st = Some a →
  reservations st !! id = Some (mkReservation s cl c) → claim_wf c' →
  match transition st a id s cl c cl' c' with
  | (st', Ok _) => finite_healthy st' ∧
      finite_view st' = view_set id (mkReservation s cl' c') (finite_view st)
  | (st', Err _) => finite_healthy st' ∧ finite_view st' = finite_view st
  end.
Proof.
  intros Hh Ha Hr Hc'.
  assert (Hc : claim_wf c) by exact (inv_claims_wf _ (fh_inv _ Hh) _ _ Hr).
  assert (Hs : s ∈ scopes st) by exact (inv_scoped _ (fh_inv _ Hh) _ _ Hr).
  pose proof (transition_inv st a id s cl c cl' c' Hc' (fh_inv _ Hh)) as Hinv'.
  revert Hinv'. unfold transition.
  rewrite healthy_lock, healthy_check, bound_require, decide_False by (done || tauto).
  rewrite exact_reservation_live by done. cbn [negb].
  destruct (live_charge st id _ (fh_inv _ Hh) (fh_mutex _ Hh) Hr) as [ch Hch]. cbn in Hch.
  destruct (live_charge_sub st id _ ch (fh_inv _ Hh) (fh_mutex _ Hh) Hr Hch) as (wo & Hwo & Hwf & Hamt).
  rewrite Hch, Hwo. cbn.
  destruct (reservation_charge c') as [ch'|] eqn:Hch'; [|done]. apply charge_wf in Hch', Hch; [|done..].
  destruct (checked_admission _ _ _ _ _) as [st' r] eqn:Hadm.
  apply healthy_admission in Hadm as ->; try done; try apply Hh.
  - destruct Hh. destruct r; [|done]. intros Hinv'. split; [by split|done].
  - intros d. rewrite Hamt. pose proof (inv_within_grant _ (fh_inv _ Hh) d).
    pose proof (amount_bounds _ d Hch). lia.
Qed.

Lemma finite_law_release st a id s cl c :
  finite_healthy st → provider_authority st = Some a →
  reservations st !! id = Some (mkReservation s cl c) →
  let st' := release st a id s cl c in
  finite_healthy st' ∧ finite_view st' = view_unset id (finite_view st).
Proof.
  intros Hh Ha Hr. pose proof (release_inv st a id s cl c (fh_inv _ Hh)) as Hinv'.
  assert (Hs : s ∈ scopes st) by exact (inv_scoped _ (fh_inv _ Hh) _ _ Hr).
  revert Hinv'. unfold release.
  rewrite healthy_lock, bound_require, decide_False by (done || tauto).
  rewrite exact_reservation_live by done. cbn [negb].
  destruct (live_charge st id _ (fh_inv _ Hh) (fh_mutex _ Hh) Hr) as [ch Hch]. cbn in Hch.
  destruct (live_charge_sub st id _ ch (fh_inv _ Hh) (fh_mutex _ Hh) Hr Hch) as (wo & Hwo & _).
  rewrite Hch, Hwo. destruct Hh. intros Hinv'. split; [by split|done].
Qed.

Lemma finite_law_retain st a id s cl c :
  finite_healthy st → provider_authority st = Some a →
  reservations st !! id = Some (mkReservation s cl c) →
  let '(st', r) := retain_after_cleanup st a id s cl c in
  r = Ok c ∧ finite_healthy st' ∧ finite_view st' = view_unset id (finite_view st).
Proof.
  intros Hh Ha Hr. pose proof (retain_inv st a id s cl c (fh_inv _ Hh)) as Hinv'.
  assert (Hs : s ∈ scopes st) by exact (inv_scoped _ (fh_inv _ Hh) _ _ Hr).
  assert (Hc : claim_wf c) by exact (inv_claims_wf _ (fh_inv _ Hh) _ _ Hr).
  destruct Hh as [Hinv Hpo Hm].
  assert (Hle : ∀ d, amount (retained_after_failed_cleanup st) d + amount c d ≤ u64_max ∧
    amount bookkeeping_claim d ≤ amount (in_use st) d).
  { intros d. pose proof (live_charge_le _ _ _ d Hinv Hm Hr) as Hl. cbn in Hl.
    pose proof (amount_bounds _ d (inv_in_use_wf _ Hinv)). pose proof (bookkeeping_bound d).
    pose proof (amount_bounds _ d (inv_retained_wf _ Hinv)). pose proof (amount_bounds _ d Hc). lia. }
  revert Hinv'. unfold retain_after_cleanup. rewrite healthy_lock by done.
  rewrite bound_require, decide_False by (done || tauto).
  rewrite exact_reservation_live by done. cbn [negb].
  destruct (claim_add_total (retained_after_failed_cleanup st) c) as [rt ->]; [intros; apply Hle|].
  destruct (claim_sub_total (in_use st) bookkeeping_claim) as [nx ->]; [intros; apply Hle|].
  intros Hinv'. split; [done|]. split; [by split|done].
Qed.

Lemma finite_exhausted_step st st' : provider_step st st' → finite_exhausted st → finite_exhausted st'.
Proof. unfold finite_exhausted. intros H%provider_step_evolves. pose proof (ev_next _ _ H). lia. Qed.

#[export] Program Instance finite_laws : ResourceProviderLaws State := {
  rp_view := finite_view;
  rp_healthy := finite_healthy;
  rp_exhausted := finite_exhausted;
  rp_law_create_scope := finite_law_create_scope;
  rp_law_create_scope_and_acquire := finite_law_create_scope_and_acquire;
  rp_law_release_scope := finite_law_release_scope;
  rp_law_acquire := finite_law_acquire;
  rp_law_transition := finite_law_transition;
  rp_law_release := finite_law_release;
  rp_law_retain := finite_law_retain;
}.
Next Obligation.
  intros st He. split_and!; intros; eapply finite_exhausted_step; eauto; by constructor.
Qed.

(** ** A process on a finite provider *)

Lemma port_new_owned g address p w :
  claim_wf g → port_new (provider_new g) address = (p, Ok w) → leases_wf w ∧ owned w.
Proof.
  intros Hg. pose proof (create_scope_inv _ address address None (provider_new_inv g Hg)) as Hinv.
  revert Hinv. unfold port_new. cbn [rp_create_scope finite_provider]. unfold create_scope. cbn.
  rewrite decide_False by set_solver.
  destruct (checked_admission _ _ _ _ _) as [st' r] eqn:Hadm.
  apply healthy_admission in Hadm as ->; cbn; auto with claims.
  - destruct r as [next|]; [|done]. cbn. intros Hinv [= <- <-].
    split; [apply map_Forall_empty|].
    split; [by split|]. split; cbn; auto; rewrite ?union_empty_r_L, ?dom_singleton_L; auto;
      try apply map_Forall_empty; try (by apply map_Forall_singleton); set_solver.
  - apply provider_inv_authority, provider_new_inv, Hg.
  - intros d. rewrite amount_ZERO. by apply amount_bounds.
Qed.

(** Every reachable process that has not used up the identities owns exactly. *)
Lemma reachable_owned g address p w w' :
  claim_wf g → port_new (provider_new g) address = (p, Ok w) → rtc app_step w w' →
  next_reservation_id (pc_provider w') < u64_max → leases_wf w' ∧ owned w'.
Proof.
  intros Hg Hnew Hsteps Hid. destruct (port_new_owned _ _ _ _ Hg Hnew) as [Hwf Ho].
  destruct (app_steps_exact _ _ Hsteps Hwf (or_intror Ho)) as [Hwf' [He|Ho']]; [|done].
  unfold rp_exhausted in He; cbn in He. unfold finite_exhausted in He. lia.
Qed.

(** C4: safe code cannot poison the provider.  Whatever a process does with
    scopes, tokens and leases, in any order and however drops are interleaved,
    the provider never meets an unknown scope, an inexact reservation or a scope
    released while in use, as long as reservation identities remain. *)
Theorem lease_discipline_never_poisons g address p w w' :
  claim_wf g → port_new (provider_new g) address = (p, Ok w) → rtc app_step w w' →
  next_reservation_id (pc_provider w') < u64_max →
  poisoned (pc_provider w') = None ∧ mutex_poisoned (pc_provider w') = false ∧
  scopes (pc_provider w') = dom (pc_scopes w').
Proof.
  intros Hg Hnew Hsteps Hid. destruct (reachable_owned _ _ _ _ _ Hg Hnew Hsteps Hid) as [_ [[] Ho]].
  split_and!; [done..|]. apply (ow_scopes _ _ Ho).
Qed.

(** a live reservation of the provider is the property of exactly one live
    lease, which records its scope, class and claim; no lease is without its
    reservation. *)
Theorem leases_own_reservations_exactly g address p w w' :
  claim_wf g → port_new (provider_new g) address = (p, Ok w) → rtc app_step w w' →
  next_reservation_id (pc_provider w') < u64_max →
  (∀ id r, reservations (pc_provider w') !! id = Some r →
     exists! l, ∃ ls, pc_leases w' !! l = Some ls ∧ ls_reservation_id ls = Some id ∧
       r = mkReservation (ls_scope ls) (ls_authority ls) (ls_claim ls)) ∧
  (∀ l ls, pc_leases w' !! l = Some ls →
     ∃ id, ls_reservation_id ls = Some id ∧ is_Some (reservations (pc_provider w') !! id)).
Proof.
  intros Hg Hnew Hsteps Hid. destruct (reachable_owned _ _ _ _ _ Hg Hnew Hsteps Hid) as [_ [_ Ho]].
  split.
  - intros id r Hr. destruct (ow_reservations _ _ Ho _ _ Hr) as (l & ls & Hl & Hls).
    exists l. split.
    + exists ls. destruct (ow_leases _ _ Ho _ _ Hl) as (id' & Hid' & Hr').
      assert (id' = id) as -> by congruence. cbn in Hr'. split_and!; congruence.
    + intros l' (ls' & Hl' & Hls' & _). eapply (ow_unique _ _ Ho); eauto. congruence.
  - intros l ls Hl. destruct (ow_leases _ _ Ho _ _ Hl) as (id & Hls & Hr). eauto.
Qed.

(** no leak.  Once every lease and scope of the process has been dropped,
    what remains in use is exactly what failed cleanups retained. *)
Theorem drained_process_returns_everything g address p w w' :
  claim_wf g → port_new (provider_new g) address = (p, Ok w) → rtc app_step w w' →
  next_reservation_id (pc_provider w') < u64_max → pc_leases w' = ∅ → pc_scopes w' = ∅ →
  in_use (pc_provider w') = retained_after_failed_cleanup (pc_provider w').
Proof.
  intros Hg Hnew Hsteps Hid Hl Hs.
  destruct (reachable_owned _ _ _ _ _ Hg Hnew Hsteps Hid) as [_ [[Hinv _ Hm] Ho]].
  apply claim_ext; [apply Hinv..|]. intros d. rewrite (inv_conserved _ Hinv Hm). unfold charged.
  assert (Hr : reservations (pc_provider w') = ∅).
  { apply map_empty. intros id. destruct (reservations (pc_provider w') !! id) eqn:Hr; [|done].
    destruct (ow_reservations _ _ Ho _ _ Hr) as (l & ls & Hls & _).
    by rewrite Hl, lookup_empty in Hls. }
  pose proof (ow_scopes _ _ Ho) as Hsc. cbn in Hsc. rewrite Hr, Hsc, Hs, msum_empty, dom_empty_L, size_empty.
  lia.
Qed.

(** cleanup failure is always representable.  Retaining any live lease of a
    reachable process succeeds with exactly the lease's claim, and charges it to
    the retained account while the reservation's bookkeeping unit is returned. *)
Theorem retaining_a_live_lease_succeeds g address p w w' l ls :
  claim_wf g → port_new (provider_new g) address = (p, Ok w) → rtc app_step w w' →
  next_reservation_id (pc_provider w') < u64_max → pc_leases w' !! l = Some ls →
  ∃ st, lease_retain (pc_provider w') (pc_authority w') ls = (st, Ok (ls_claim ls)) ∧
    poisoned st = None ∧
    (∀ d, amount (retained_after_failed_cleanup st) d
          = amount (retained_after_failed_cleanup (pc_provider w')) d + amount (ls_claim ls) d) ∧
    (∀ d, amount (in_use st) d = amount (in_use (pc_provider w')) d - amount bookkeeping_claim d).
Proof.
  intros Hg Hnew Hsteps Hid Hl.
  destruct (reachable_owned _ _ _ _ _ Hg Hnew Hsteps Hid) as [Hwf [Hh Ho]].
  specialize (Hwf _ _ Hl). cbn in Hwf.
  destruct (ow_leases _ _ Ho _ _ Hl) as (id & Hls & Hr). cbn in Hr.
  pose proof (finite_law_retain _ _ _ _ _ _ Hh (ow_bound _ _ Ho) Hr) as Hlaw.
  unfold lease_retain. rewrite Hls. cbn [rp_retain finite_provider].
  destruct (retain_after_cleanup _ _ _ _ _ _) as [st r] eqn:Hret. destruct Hlaw as (-> & Hst & _).
  exists st. split; [done|]. split; [apply Hst|]. destruct Hh as [Hinv Hpo Hm].
  revert Hret. unfold retain_after_cleanup. rewrite healthy_lock by done.
  repeat case_match; intros [= <-]; cbn;
    (match goal with H : claim_checked_add _ _ = Ok _ |- _ =>
       apply claim_add_Ok in H as [_ Ha]; [|apply Hinv|done] end);
    (match goal with H : claim_checked_sub _ _ = Ok _ |- _ =>
       apply claim_sub_Ok in H as [_ Hb]; [|apply Hinv|auto with claims] end).
  split; [apply Ha|apply Hb].
Qed.

(** ** Witnesses: one lease acquired on the process scope, then everything dropped *)

Definition demo_w0 : Process State :=
  mkProcess (create_scope (provider_new demo_grant) 7 7 None).1 7 true {[7]}
    {[7 := mkScopeInner None true]} ∅ ∅.
Definition demo_w1 : Process State := process_scope demo_w0 0.
Definition demo_w2 : Process State := (port_acquire demo_w1 7 5 AdmittedWork demo_claim).1.
Definition demo_lease : ResourceLease := mkLease (Some 1) 7 AdmittedWork demo_claim.
Definition demo_w3 : Process State :=
  set_leases (delete 5 (pc_leases demo_w2))
    (set_provider (lease_drop (pc_provider demo_w2) (pc_authority demo_w2) demo_lease) demo_w2).
Definition demo_w4 : Process State := drop_port (set_tokens (delete 0 (pc_tokens demo_w3)) demo_w3).
Definition demo_w5 : Process State := scope_drop demo_w4 7.

Lemma demo_new : port_new (provider_new demo_grant) 7 = (pc_provider demo_w0, Ok demo_w0).
Proof. vm_compute. reflexivity. Qed.

Lemma demo_held : rtc app_step demo_w0 demo_w2.
Proof.
  eapply rtc_l; [apply (app_process_scope demo_w0 0); reflexivity|].
  eapply rtc_l; [apply (app_acquire demo_w1 0 7 5); try reflexivity; exact demo_claim_wf|].
  apply rtc_refl.
Qed.

Lemma demo_drained : rtc app_step demo_w2 demo_w5.
Proof.
  eapply rtc_l; [apply (app_drop_lease demo_w2 5 demo_lease); vm_compute; reflexivity|].
  eapply rtc_l; [apply (app_drop_token demo_w3 0)|].
  eapply rtc_l; [apply app_drop_port; vm_compute; reflexivity|].
  eapply rtc_l; [|apply rtc_refl].
  apply (app_drop_scope demo_w4 7 (mkScopeInner None true)); [vm_compute; reflexivity|].
  intros [[H _]|[(t & s & H & _)|[(l & a & H & _)|(s & si & H & Hp)]]].
  - by vm_compute in H.
  - by destruct t.
  - by destruct l.
  - change (pc_scopes demo_w4) with ({[7 := mkScopeInner None true]} : gmap Z ScopeInner) in H.
    apply lookup_singleton_Some in H as [<- <-]. done.
Qed.

Lemma lease_discipline_never_poisons_witness :
  poisoned (pc_provider demo_w5) = None ∧ mutex_poisoned (pc_provider demo_w5) = false ∧
  scopes (pc_provider demo_w5) = dom (pc_scopes demo_w5).
Proof.
  apply (lease_discipline_never_poisons demo_grant 7 (pc_provider demo_w0) demo_w0 demo_w5);
    [exact demo_grant_wf | exact demo_new | | vm_compute; reflexivity].
  etrans; [exact demo_held | exact demo_drained].
Defined.

Lemma leases_own_reservations_exactly_witness :
  ∃ id, ls_reservation_id demo_lease = Some id ∧ is_Some (reservations (pc_provider demo_w2) !! id).
Proof.
  apply (proj2 (leases_own_reservations_exactly demo_grant 7 (pc_provider demo_w0) demo_w0 demo_w2
    demo_grant_wf demo_new demo_held ltac:(vm_compute; reflexivity)) 5).
  vm_compute; reflexivity.
Defined.

Lemma drained_process_returns_everything_witness :
  in_use (pc_provider demo_w5) = retained_after_failed_cleanup (pc_provider demo_w5).
Proof.
  apply (drained_process_returns_everything demo_grant 7 (pc_provider demo_w0) demo_w0 demo_w5);
    [exact demo_grant_wf | exact demo_new | | vm_compute; reflexivity..].
  etrans; [exact demo_held | exact demo_drained].
Defined.

Lemma retaining_a_live_lease_succeeds_witness :
  ∃ st, lease_retain (pc_provider demo_w2) 7 demo_lease = (st, Ok demo_claim) ∧ poisoned st = None.
Proof.
  destruct (retaining_a_live_lease_succeeds demo_grant 7 (pc_provider demo_w0) demo_w0 demo_w2 5 demo_lease
    demo_grant_wf demo_new demo_held ltac:(vm_compute; reflexivity) ltac:(vm_compute; reflexivity))
    as (st & Hst & Hp & _).
  exists st. split; [exact Hst | exact Hp].
Defined.
