(* ===== verification/Accountant.v ===== *)
(** * The observation accountant

    Models the [ResourceAccountant] of crates/myownmesh-core/src/resource/mod.rs:
    per-family measurements kept in constant space at every scope of a
    hierarchy, updated when an observation lease begins, is re-measured or is
    dropped.  Quantities are [u64] with saturation, every inexact step sets a
    sticky flag; instants and durations are nanoseconds. *)

From S2P Require Import Prelude.
From stdpp Require Import relations.
Local Open Scope Z_scope.

(** ** [ResourceUse] *)

Record ResourceUse : Type := mkUse {
  items : Z;
  logical_bytes : Z;
  retained_bytes : Z;
  tasks : Z;
}.

#[export] Instance ResourceUse_eq_dec : EqDecision ResourceUse.
Proof. solve_decision. Defined.

Definition use_ZERO : ResourceUse := mkUse 0 0 0 0.

Definition use_checked_add (a b : ResourceUse) : option ResourceUse :=
  i ← checked_add u64_max (items a) (items b);
  l ← checked_add u64_max (logical_bytes a) (logical_bytes b);
  r ← checked_add u64_max (retained_bytes a) (retained_bytes b);
  t ← checked_add u64_max (tasks a) (tasks b);
  Some (mkUse i l r t).

Definition use_saturating_add (a b : ResourceUse) : ResourceUse :=
  mkUse (saturating_add u64_max (items a) (items b))
        (saturating_add u64_max (logical_bytes a) (logical_bytes b))
        (saturating_add u64_max (retained_bytes a) (retained_bytes b))
        (saturating_add u64_max (tasks a) (tasks b)).

Definition use_checked_sub (a b : ResourceUse) : option ResourceUse :=
  i ← checked_sub (items a) (items b);
  l ← checked_sub (logical_bytes a) (logical_bytes b);
  r ← checked_sub (retained_bytes a) (retained_bytes b);
  t ← checked_sub (tasks a) (tasks b);
  Some (mkUse i l r t).

Definition use_saturating_sub (a b : ResourceUse) : ResourceUse :=
  mkUse (saturating_sub (items a) (items b))
        (saturating_sub (logical_bytes a) (logical_bytes b))
        (saturating_sub (retained_bytes a) (retained_bytes b))
        (saturating_sub (tasks a) (tasks b)).

Definition componentwise_max (a b : ResourceUse) : ResourceUse :=
  mkUse (Z.max (items a) (items b)) (Z.max (logical_bytes a) (logical_bytes b))
        (Z.max (retained_bytes a) (retained_bytes b)) (Z.max (tasks a) (tasks b)).

Record ResourceMeasurement : Type := mkMeasurement { observed : ResourceUse; inexact : bool }.

(** ** One family at one scope *)

Record FamilyState : Type := mkFamily {
  active : ResourceUse;
  peak_active : ResourceUse;
  active_lease_count : Z;
  peak_active_lease_count : Z;
  oldest_active_started_at : option Z;
  oldest_active_start_count : Z;
  oldest_active_lifetime_inexact : bool;
  completed_lease_count : Z;
  completed_total_use : ResourceUse;
  completed_total_lifetime : Z;
  measurement_inexact : bool;
}.

Definition family_default : FamilyState :=
  mkFamily use_ZERO use_ZERO 0 0 None 0 false 0 use_ZERO 0 false.

(** [Duration::MAX] in nanoseconds. *)
Definition duration_max : Z := (u64_max + 1) * 10 ^ 9 - 1.

(** A checked step with its saturated fallback: the value, and whether it is
    inexact. *)
Definition or_saturate {A} (o : option A) (fallback : A) : A * bool :=
  match o with Some x => (x, false) | None => (fallback, true) end.

Definition begin_ (f : FamilyState) (obs : ResourceUse) (started_at : Z) : FamilyState :=
  let was_empty := active_lease_count f =? 0 in
  let '(act, e1) := or_saturate (use_checked_add (active f) obs) (use_saturating_add (active f) obs) in
  let '(count, e2) := or_saturate (checked_add u64_max (active_lease_count f) 1) u64_max in
  let '(oldest, start_count, life, e3) :=
    if was_empty then (Some started_at, 1, false, false)
    else
      match oldest_active_started_at f with
      | Some oldest =>
          match started_at ?= oldest with
          | Lt => (Some started_at, 1, oldest_active_lifetime_inexact f, false)
          | Eq =>
              let '(n, e) := or_saturate (checked_add u64_max (oldest_active_start_count f) 1) u64_max in
              (Some oldest, n, oldest_active_lifetime_inexact f, e)
          | Gt => (Some oldest, oldest_active_start_count f, oldest_active_lifetime_inexact f, false)
          end
      | None => (None, oldest_active_start_count f, oldest_active_lifetime_inexact f, false)
      end in
  mkFamily act (componentwise_max (peak_active f) act) count
    (Z.max (peak_active_lease_count f) count) oldest start_count life
    (completed_lease_count f) (completed_total_use f) (completed_total_lifetime f)
    (measurement_inexact f || e1 || e2 || e3).

Definition replace_ (f : FamilyState) (previous obs : ResourceUse) : FamilyState :=
  let '(act, e1) := or_saturate (use_checked_sub (active f) previous)
                      (use_saturating_sub (active f) previous) in
  let '(act, e2) := or_saturate (use_checked_add act obs) (use_saturating_add act obs) in
  mkFamily act (componentwise_max (peak_active f) act) (active_lease_count f)
    (peak_active_lease_count f) (oldest_active_started_at f) (oldest_active_start_count f)
    (oldest_active_lifetime_inexact f) (completed_lease_count f) (completed_total_use f)
    (completed_total_lifetime f) (measurement_inexact f || e1 || e2).

Definition finish_ (f : FamilyState) (obs : ResourceUse) (started_at lifetime : Z) : FamilyState :=
  let '(act, e1) := or_saturate (use_checked_sub (active f) obs) (use_saturating_sub (active f) obs) in
  let '(count, e2) := or_saturate (checked_sub (active_lease_count f) 1) 0 in
  let '(oldest, start_count, life, e3) :=
    if decide (oldest_active_started_at f = Some started_at) then
      let '(n, e) := or_saturate (checked_sub (oldest_active_start_count f) 1) 0 in
      if n =? 0 then
        (None, n, if negb (count =? 0) then true else oldest_active_lifetime_inexact f, e)
      else (oldest_active_started_at f, n, oldest_active_lifetime_inexact f, e)
    else if bool_decide (oldest_active_started_at f = None) && (count =? 0) then
      (None, 0, false, false)
    else
      (oldest_active_started_at f, oldest_active_start_count f, oldest_active_lifetime_inexact f, false) in
  let '(completed, e4) := or_saturate (checked_add u64_max (completed_lease_count f) 1) u64_max in
  let '(total, e5) := or_saturate (use_checked_add (completed_total_use f) obs)
                        (use_saturating_add (completed_total_use f) obs) in
  let '(life_total, e6) := or_saturate (checked_add duration_max (completed_total_lifetime f) lifetime)
                             duration_max in
  mkFamily act (peak_active f) count (peak_active_lease_count f) oldest start_count life
    completed total life_total (measurement_inexact f || e1 || e2 || e3 || e4 || e5 || e6).

(** ** Families and scopes *)

Inductive PreAuthResourceFamily : Type :=
| AcceptedConnection | HalfOpenHandshake | FrameBytes | ParserBytes | DurableFactHashWork
| DurableFactSignatureWork | EphemeralSignalingParseWork | CandidateObject | Socket
| TransportObject | DnsWork | StunWork | IceWork | RelayWork | ConnectorSpecificWork
| MediaQuarantine | PacketQuarantine | Timer | Task | Callback | DiagnosticQueue | Cleanup.

Definition pre_index (f : PreAuthResourceFamily) : nat :=
  match f with
  | AcceptedConnection => 0 | HalfOpenHandshake => 1 | FrameBytes => 2 | ParserBytes => 3
  | DurableFactHashWork => 4 | DurableFactSignatureWork => 5 | EphemeralSignalingParseWork => 6
  | CandidateObject => 7 | Socket => 8 | TransportObject => 9 | DnsWork => 10 | StunWork => 11
  | IceWork => 12 | RelayWork => 13 | ConnectorSpecificWork => 14 | MediaQuarantine => 15
  | PacketQuarantine => 16 | Timer => 17 | Task => 18 | Callback => 19 | DiagnosticQueue => 20
  | Cleanup => 21
  end%nat.

Inductive PostAuthResourceFamily : Type :=
| AuthenticatedSession | ApplicationQueue | MediaDecode | MediaEncode | RelayBandwidth
| RelayBuffer | SessionRecovery | ApplicationCallback | LocalHandle | SubscriptionState.

Definition post_index (f : PostAuthResourceFamily) : nat :=
  match f with
  | AuthenticatedSession => 0 | ApplicationQueue => 1 | MediaDecode => 2 | MediaEncode => 3
  | RelayBandwidth => 4 | RelayBuffer => 5 | SessionRecovery => 6 | ApplicationCallback => 7
  | LocalHandle => 8 | SubscriptionState => 9
  end%nat.

Inductive FamilyKey : Type :=
| PreAuth (f : PreAuthResourceFamily)
| PostAuth (f : PostAuthResourceFamily).

#[export] Instance PreAuth_eq_dec : EqDecision PreAuthResourceFamily.
Proof. solve_decision. Defined.
#[export] Instance PostAuth_eq_dec : EqDecision PostAuthResourceFamily.
Proof. solve_decision. Defined.
#[export] Instance FamilyKey_eq_dec : EqDecision FamilyKey.
Proof. solve_decision. Defined.

Definition PRE_AUTH_RESOURCE_FAMILY_COUNT : nat := 22.
Definition POST_AUTH_RESOURCE_FAMILY_COUNT : nat := 10.

(** The measurements of one scope (the [State] behind [Inner]'s mutex; nothing
    panics while it is held). *)
Record ScopeState : Type := mkScopeState {
  pre_authentication : list FamilyState;
  post_authentication : list FamilyState;
  state_inexact : bool;
}.

Definition scope_default : ScopeState :=
  mkScopeState (replicate PRE_AUTH_RESOURCE_FAMILY_COUNT family_default)
    (replicate POST_AUTH_RESOURCE_FAMILY_COUNT family_default) false.

Definition family (st : ScopeState) (k : FamilyKey) : FamilyState :=
  match k with
  | PreAuth f => nth (pre_index f) (pre_authentication st) family_default
  | PostAuth f => nth (post_index f) (post_authentication st) family_default
  end.

Definition family_mut (k : FamilyKey) (g : FamilyState → FamilyState) (st : ScopeState) : ScopeState :=
  match k with
  | PreAuth f =>
      mkScopeState (alter g (pre_index f) (pre_authentication st)) (post_authentication st)
        (state_inexact st)
  | PostAuth f =>
      mkScopeState (pre_authentication st) (alter g (post_index f) (post_authentication st))
        (state_inexact st)
  end.

Definition mark_inexact (b : bool) (st : ScopeState) : ScopeState :=
  mkScopeState (pre_authentication st) (post_authentication st) (b || state_inexact st).

Record ResourceFamilyReport : Type := mkReport {
  rep_active : ResourceUse;
  rep_peak_active : ResourceUse;
  rep_active_lease_count : Z;
  rep_peak_active_lease_count : Z;
  rep_oldest_active_lifetime : option Z;
  rep_oldest_active_lifetime_inexact : bool;
  rep_completed_lease_count : Z;
  rep_completed_total_use : ResourceUse;
  rep_completed_total_lifetime : Z;
  rep_measurement_inexact : bool;
}.

Definition snapshot (st : ScopeState) (k : FamilyKey) (now : Z) : ResourceFamilyReport :=
  let f := family st k in
  mkReport (active f) (peak_active f) (active_lease_count f) (peak_active_lease_count f)
    (started ← oldest_active_started_at f; Some (saturating_sub now started))
    (oldest_active_lifetime_inexact f) (completed_lease_count f) (completed_total_use f)
    (completed_total_lifetime f) (state_inexact st || measurement_inexact f).

(** ** The hierarchy and its live observation leases *)

Record ResourceAccountant : Type := mkAccountant { ancestors : list Z; leaf : Z }.

#[export] Instance ResourceAccountant_eq_dec : EqDecision ResourceAccountant.
Proof. solve_decision. Defined.

Record Observation : Type := mkObservation {
  ob_accountant : ResourceAccountant;
  ob_family : FamilyKey;
  ob_observed : ResourceUse;
  ob_started_at : Z;
}.

(** Every [Inner] by address, every accountant handed out, and the live leases. *)
Record World : Type := mkWorld {
  w_scopes : gmap Z ScopeState;
  w_accountants : list ResourceAccountant;
  w_leases : gmap Z Observation;
}.

Definition scope_path (a : ResourceAccountant) : list Z := ancestors a ++ [leaf a].

Definition for_each_scope (a : ResourceAccountant) (update : ScopeState → ScopeState)
    (scopes : gmap Z ScopeState) : gmap Z ScopeState :=
  foldl (λ m s, alter update s m) scopes (scope_path a).

Definition observation_only (w : World) (address : Z) : World :=
  mkWorld (<[address := scope_default]> (w_scopes w)) (mkAccountant [] address :: w_accountants w)
    (w_leases w).

Definition child_scope (w : World) (a : ResourceAccountant) (address : Z) : World :=
  mkWorld (<[address := scope_default]> (w_scopes w))
    (mkAccountant (scope_path a) address :: w_accountants w) (w_leases w).

Definition observe_measurement_at (w : World) (a : ResourceAccountant) (k : FamilyKey)
    (m : ResourceMeasurement) (started_at lease : Z) : World :=
  mkWorld
    (for_each_scope a
       (λ st, family_mut k (λ f, begin_ f (observed m) started_at) (mark_inexact (inexact m) st))
       (w_scopes w))
    (w_accountants w) (<[lease := mkObservation a k (observed m) started_at]> (w_leases w)).

Definition replace_measurement (w : World) (lease : Z) (m : ResourceMeasurement) : World :=
  match w_leases w !! lease with
  | None => w
  | Some o =>
      mkWorld
        (for_each_scope (ob_accountant o)
           (λ st, family_mut (ob_family o) (λ f, replace_ f (ob_observed o) (observed m))
                    (mark_inexact (inexact m) st))
           (w_scopes w))
        (w_accountants w)
        (<[lease := mkObservation (ob_accountant o) (ob_family o) (observed m) (ob_started_at o)]>
           (w_leases w))
  end.

Definition complete (w : World) (lease finished_at : Z) : World :=
  match w_leases w !! lease with
  | None => w
  | Some o =>
      let lifetime := saturating_sub finished_at (ob_started_at o) in
      mkWorld
        (for_each_scope (ob_accountant o)
           (family_mut (ob_family o)
              (λ f, finish_ f (ob_observed o) (ob_started_at o) lifetime))
           (w_scopes w))
        (w_accountants w) (delete lease (w_leases w))
  end.

(** ** Exactness of one family *)

Lemma or_saturate_exact {A} (o : option A) fallback x :
  or_saturate o fallback = (x, false) → o = Some x.
Proof. destruct o; cbn; congruence. Qed.

Inductive UseField : Type := FItems | FLogical | FRetained | FTasks.

Definition use_get (g : UseField) (u : ResourceUse) : Z :=
  match g with
  | FItems => items u | FLogical => logical_bytes u
  | FRetained => retained_bytes u | FTasks => tasks u
  end.

Definition use_wf (u : ResourceUse) : Prop := ∀ g, 0 ≤ use_get g u ≤ u64_max.

Lemma use_add_Some a b c :
  use_checked_add a b = Some c → ∀ g, use_get g c = use_get g a + use_get g b.
Proof.
  unfold use_checked_add, checked_add. intros H g.
  repeat case_match; simplify_eq/=; by destruct g.
Qed.

Lemma use_sub_Some a b c :
  use_checked_sub a b = Some c → ∀ g, use_get g c = use_get g a - use_get g b.
Proof.
  unfold use_checked_sub, checked_sub. intros H g.
  repeat case_match; simplify_eq/=; by destruct g.
Qed.

(** The checked step with its saturated fallback, per field. *)
Lemma use_add_step a b c e :
  or_saturate (use_checked_add a b) (use_saturating_add a b) = (c, e) →
  (e = false → ∀ g, use_get g c = use_get g a + use_get g b) ∧
  (use_wf a → use_wf b → use_wf c ∧ ∀ g, use_get g a ≤ use_get g c).
Proof.
  unfold or_saturate. destruct (use_checked_add a b) as [c'|] eqn:Hc; intros [= <- <-].
  - pose proof (use_add_Some _ _ _ Hc) as Hg. split; [done|]. intros Ha Hb. split.
    + intros g. rewrite Hg. specialize (Ha g). specialize (Hb g).
      unfold use_checked_add, checked_add in Hc. repeat case_match; simplify_eq/=; z_norm.
      destruct g; cbn in *; lia.
    + intros g. rewrite Hg. specialize (Hb g). lia.
  - split; [done|]. intros Ha Hb.
    assert (∀ g, use_get g (use_saturating_add a b) = Z.min u64_max (use_get g a + use_get g b)) as Hs
      by (by intros []).
    split; intros g; rewrite ?Hs; specialize (Ha g); specialize (Hb g); lia.
Qed.

Lemma use_sub_step a b c e :
  or_saturate (use_checked_sub a b) (use_saturating_sub a b) = (c, e) →
  (e = false → ∀ g, use_get g c = use_get g a - use_get g b) ∧
  (use_wf a → use_wf b → use_wf c ∧ ∀ g, use_get g c ≤ use_get g a).
Proof.
  unfold or_saturate. destruct (use_checked_sub a b) as [c'|] eqn:Hc; intros [= <- <-].
  - pose proof (use_sub_Some _ _ _ Hc) as Hg. split; [done|]. intros Ha Hb. split.
    + intros g. rewrite Hg. specialize (Ha g). specialize (Hb g).
      unfold use_checked_sub, checked_sub in Hc. repeat case_match; simplify_eq/=; z_norm.
      destruct g; cbn in *; lia.
    + intros g. rewrite Hg. specialize (Hb g). lia.
  - split; [done|]. intros Ha Hb.
    assert (∀ g, use_get g (use_saturating_sub a b) = Z.max 0 (use_get g a - use_get g b)) as Hs
      by (by intros []).
    split; intros g; rewrite ?Hs; specialize (Ha g); specialize (Hb g); lia.
Qed.

Lemma use_get_max g a b : use_get g (componentwise_max a b) = Z.max (use_get g a) (use_get g b).
Proof. by destruct g. Qed.

(** The bounds every family keeps, exact or not: counters are in range and
    the peaks dominate what is active. *)
Record family_bounds (f : FamilyState) : Prop := {
  fb_active : use_wf (active f);
  fb_completed : use_wf (completed_total_use f);
  fb_count : 0 ≤ active_lease_count f ≤ u64_max;
  fb_start_count : 0 ≤ oldest_active_start_count f ≤ u64_max;
  fb_peak : ∀ g, use_get g (active f) ≤ use_get g (peak_active f) ≤ u64_max;
  fb_peak_count : active_lease_count f ≤ peak_active_lease_count f ≤ u64_max;
}.

Lemma begin_bounds f obs t : use_wf obs → family_bounds f → family_bounds (begin_ f obs t).
Proof.
  intros Ho []. unfold begin_.
  destruct (or_saturate (use_checked_add _ _) _) as [act e1] eqn:He1.
  apply use_add_step in He1 as [_ He1]. destruct (He1 fb_active0 Ho) as [Hact Hle].
  destruct (or_saturate (checked_add _ (active_lease_count f) _) _) as [count e2] eqn:He2.
  assert (0 ≤ count ≤ u64_max ∧ active_lease_count f ≤ count).
  { unfold or_saturate in He2. case_match; simplify_eq; z_norm; lia. }
  assert (Hsc : ∀ n e, or_saturate (checked_add u64_max (oldest_active_start_count f) 1) u64_max = (n, e)
    → 0 ≤ n ≤ u64_max).
  { unfold or_saturate. intros n e. case_match; intros; simplify_eq; z_norm; lia. }
  split; repeat case_match; simplify_eq/=; try done; try lia; try (intros g; rewrite use_get_max;
    specialize (Hact g); specialize (fb_peak0 g); lia); try (unfold u64_max; lia); by eapply Hsc.
Qed.

Lemma replace_bounds f prev obs :
  use_wf prev → use_wf obs → family_bounds f → family_bounds (replace_ f prev obs).
Proof.
  intros Hp Ho []. unfold replace_.
  destruct (or_saturate (use_checked_sub _ _) _) as [act e1] eqn:He1.
  apply use_sub_step in He1 as [_ He1]. destruct (He1 fb_active0 Hp) as [Hact _].
  destruct (or_saturate (use_checked_add _ _) _) as [act2 e2] eqn:He2.
  apply use_add_step in He2 as [_ He2]. destruct (He2 Hact Ho) as [Hact2 _].
  split; cbn; try done. intros g. rewrite use_get_max. specialize (Hact2 g). specialize (fb_peak0 g). lia.
Qed.

Lemma finish_bounds f obs t life : use_wf obs → family_bounds f → family_bounds (finish_ f obs t life).
Proof.
  intros Ho []. unfold finish_.
  destruct (or_saturate (use_checked_sub _ _) _) as [act e1] eqn:He1.
  apply use_sub_step in He1 as [_ He1]. destruct (He1 fb_active0 Ho) as [Hact Hle].
  destruct (or_saturate (checked_sub (active_lease_count f) _) _) as [count e2] eqn:He2.
  assert (0 ≤ count ≤ active_lease_count f).
  { unfold or_saturate in He2. case_match; simplify_eq; z_norm; lia. }
  destruct (or_saturate (use_checked_add _ _) _) as [total e5] eqn:He5.
  apply use_add_step in He5 as [_ He5]. destruct (He5 fb_completed0 Ho) as [Htotal _].
  assert (Hsc : ∀ n e, or_saturate (checked_sub (oldest_active_start_count f) 1) 0 = (n, e)
    → 0 ≤ n ≤ u64_max).
  { unfold or_saturate. intros n e. case_match; intros; simplify_eq; z_norm; lia. }
  split; repeat case_match; simplify_eq/=; try done; try lia;
    try (intros g; specialize (Hle g); specialize (fb_peak0 g); lia); by eapply Hsc.
Qed.

Section exactness.
Context (W : Observation → bool).

Definition total (g : UseField) (m : gmap Z Observation) : Z :=
  msum (λ o, if W o then use_get g (ob_observed o) else 0) m.
Definition lease_count (m : gmap Z Observation) : Z := msum (λ o, if W o then 1 else 0) m.
Definition started_count (t : Z) (m : gmap Z Observation) : Z :=
  msum (λ o, if W o && (ob_started_at o =? t) then 1 else 0) m.

(** What an exact family says about the leases [m] selected by [W]. *)
Record family_exact (m : gmap Z Observation) (f : FamilyState) : Prop := {
  fe_active : ∀ g, use_get g (active f) = total g m;
  fe_count : active_lease_count f = lease_count m;
  fe_oldest :
    match oldest_active_started_at f with
    | Some t =>
        oldest_active_start_count f = started_count t m ∧ 1 ≤ oldest_active_start_count f ∧
        oldest_active_lifetime_inexact f = false ∧
        ∀ l o, m !! l = Some o → W o = true → t ≤ ob_started_at o
    | None =>
        oldest_active_start_count f = 0 ∧
        oldest_active_lifetime_inexact f = negb (active_lease_count f =? 0)
    end;
}.

Definition family_ok (m : gmap Z Observation) (f : FamilyState) : Prop :=
  measurement_inexact f = false → family_exact m f.

Lemma lease_count_pos m l o : m !! l = Some o → W o = true → 1 ≤ lease_count m.
Proof.
  intros Hl Hw. unfold lease_count. rewrite (msum_delete _ _ _ _ Hl), Hw.
  assert (0 ≤ msum (λ o, if W o then 1 else 0) (delete l m)); [|lia].
  apply msum_nonneg. intros. by destruct (W v).
Qed.

Lemma started_count_le t m : started_count t m ≤ lease_count m.
Proof.
  unfold started_count, lease_count. induction m as [|l o m Hl IH] using map_ind; [done|].
  rewrite !msum_insert by done. destruct (W o), (ob_started_at o =? t); cbn; lia.
Qed.

Lemma started_count_zero t m :
  (∀ l o, m !! l = Some o → W o = true → ob_started_at o ≠ t) → started_count t m = 0.
Proof.
  intros Hne. unfold started_count. rewrite (msum_ext _ (λ _, 0)); [rewrite msum_const; lia|].
  intros l o Hl. specialize (Hne _ _ Hl). destruct (W o); [|done]. cbn.
  by rewrite (proj2 (Z.eqb_neq _ _) (Hne eq_refl)).
Qed.

Lemma family_ok_default : family_ok ∅ family_default.
Proof. intros _. split; [by intros []|done|done]. Qed.

Lemma begin_ok m l o f :
  family_ok m f → m !! l = None → W o = true →
  family_ok (<[l := o]> m) (begin_ f (ob_observed o) (ob_started_at o)).
Proof.
  intros Hok Hl Hw. unfold begin_.
  destruct (or_saturate (use_checked_add _ _) _) as [act e1] eqn:He1.
  apply use_add_step in He1 as [He1 _].
  destruct (or_saturate (checked_add _ (active_lease_count f) _) _) as [count e2] eqn:He2.
  destruct (if active_lease_count f =? 0 then _ else _) as [[[oldest n] life] e3] eqn:He3.
  intros Hflag; cbn in Hflag. z_norm. subst.
  destruct (Hok ltac:(done)) as [Ha Hc Hold].
  assert (Hn0 : 0 ≤ lease_count m) by (apply msum_nonneg; intros; by destruct (W v)).
  assert (count = active_lease_count f + 1) as ->.
  { apply or_saturate_exact in He2. z_norm. lia. }
  split; cbn.
  - intros g. rewrite He1 by done. unfold total. rewrite msum_insert, Hw, Ha by done.
    unfold total. lia.
  - unfold lease_count. rewrite msum_insert, Hw, Hc by done. unfold lease_count. lia.
  - destruct (Z.eqb_spec (active_lease_count f) 0) as [Hz|Hnz]; simplify_eq.
    + rewrite Hz in Hc. unfold started_count. rewrite msum_insert, Hw, Z.eqb_refl by done. cbn.
      pose proof (started_count_le (ob_started_at o) m) as Hle.
      assert (0 ≤ started_count (ob_started_at o) m).
      { apply msum_nonneg. intros k v _. by destruct (W v && _). }
      fold (started_count (ob_started_at o) m). split_and!; try lia; try done.
      intros l' o'. rewrite lookup_insert_Some. intros [[<- <-]|[_ Hl']] Hw'; [done|].
      pose proof (lease_count_pos _ _ _ Hl' Hw'). lia.
    + destruct (oldest_active_started_at f) as [t|]; cycle 1.
      { simplify_eq. destruct Hold as [-> ->]. split; [done|].
        rewrite !(proj2 (Z.eqb_neq _ _)) by lia. done. }
      destruct Hold as (Hs & Hs1 & Hli & Hmin).
      assert (Hmin' : ∀ t', t' ≤ t → t' ≤ ob_started_at o →
        ∀ l' o', <[l:=o]> m !! l' = Some o' → W o' = true → t' ≤ ob_started_at o').
      { intros t' Ht1 Ht2 l' o'. rewrite lookup_insert_Some. intros [[<- <-]|[_ Hl']] Hw'; [done|].
        specialize (Hmin _ _ Hl' Hw'). lia. }
      unfold started_count. rewrite Hli in He3.
      destruct (Z.compare_spec (ob_started_at o) t) as [Heq|Hlt|Hgt].
      * destruct (or_saturate (checked_add _ (oldest_active_start_count f) _) _) as [n' e'] eqn:Hn'. simplify_eq. rewrite msum_insert, Hw, Z.eqb_refl by done.
        apply or_saturate_exact in Hn'. z_norm.
        fold (started_count (ob_started_at o) m). cbn. split_and!; try lia; try done. apply Hmin'; lia.
      * simplify_eq. rewrite msum_insert, Hw, Z.eqb_refl by done. fold (started_count (ob_started_at o) m).
        rewrite started_count_zero by (intros ? ? Hl' Hw'; specialize (Hmin _ _ Hl' Hw'); lia).
        cbn. split_and!; try lia; try done. apply Hmin'; lia.
      * simplify_eq. rewrite msum_insert, Hw by done. rewrite (proj2 (Z.eqb_neq _ _)) by lia.
        cbn. split_and!; try lia; try done. apply Hmin'; lia.
Qed.

Lemma family_ok_ext m m' f :
  (∀ g, total g m' = total g m) → lease_count m' = lease_count m →
  (∀ t, started_count t m' = started_count t m) →
  (∀ l o, m' !! l = Some o → W o = true →
     ∃ l' o', m !! l' = Some o' ∧ W o' = true ∧ ob_started_at o' = ob_started_at o) →
  family_ok m f → family_ok m' f.
Proof.
  intros Ht Hc Hs Hin Hok Hflag. destruct (Hok Hflag) as [Ha Hn Hold]. split.
  - intros g. by rewrite Ha, Ht.
  - by rewrite Hn, Hc.
  - destruct (oldest_active_started_at f) as [t|]; [|done].
    destruct Hold as (Hsc & ? & ? & Hmin). rewrite Hs. split_and!; try done.
    intros l o Hl Hw. destruct (Hin _ _ Hl Hw) as (l' & o' & Hl' & Hw' & <-). by eapply Hmin.
Qed.

(** A lease outside the selection changes nothing, whether it begins, is
    re-measured or ends. *)
Lemma family_ok_insert_other m l o f :
  m !! l = None → W o = false → family_ok m f → family_ok (<[l := o]> m) f.
Proof.
  intros Hl Hw. apply family_ok_ext.
  - intros g. unfold total. by rewrite msum_insert, Hw.
  - unfold lease_count. by rewrite msum_insert, Hw.
  - intros t. unfold started_count. by rewrite msum_insert, Hw.
  - intros l' o'. rewrite lookup_insert_Some. intros [[<- <-]|[_ ?]] Hw'; [congruence|eauto].
Qed.

Lemma family_ok_replace_other m l o o' f :
  m !! l = Some o → W o = false → W o' = false → family_ok m f → family_ok (<[l := o']> m) f.
Proof.
  intros Hl Hw Hw'. apply family_ok_ext.
  - intros g. unfold total. erewrite msum_replace by done. rewrite Hw, Hw'. lia.
  - unfold lease_count. erewrite msum_replace by done. rewrite Hw, Hw'. lia.
  - intros t. unfold started_count. erewrite msum_replace by done. rewrite Hw, Hw'. cbn. lia.
  - intros l' o1. rewrite lookup_insert_Some. intros [[<- <-]|[_ ?]] ?; [congruence|eauto].
Qed.

Lemma family_ok_delete_other m l o f :
  m !! l = Some o → W o = false → family_ok m f → family_ok (delete l m) f.
Proof.
  intros Hl Hw. apply family_ok_ext.
  - intros g. unfold total. by rewrite (msum_delete _ m _ _ Hl), Hw.
  - unfold lease_count. by rewrite (msum_delete _ m _ _ Hl), Hw.
  - intros t. unfold started_count. by rewrite (msum_delete _ m _ _ Hl), Hw.
  - intros l' o'. rewrite lookup_delete_Some. intros [_ ?] ?. eauto.
Qed.

Lemma replace_ok m l o o' f :
  m !! l = Some o → W o = true → W o' = true → ob_started_at o' = ob_started_at o →
  family_ok m f → family_ok (<[l := o']> m) (replace_ f (ob_observed o) (ob_observed o')).
Proof.
  intros Hl Hw Hw' Hst Hok. unfold replace_.
  destruct (or_saturate (use_checked_sub _ _) _) as [act e1] eqn:He1.
  apply use_sub_step in He1 as [He1 _].
  destruct (or_saturate (use_checked_add _ _) _) as [act2 e2] eqn:He2.
  apply use_add_step in He2 as [He2 _].
  intros Hflag; cbn in Hflag. z_norm. subst. destruct (Hok ltac:(done)) as [Ha Hc Hold].
  split; cbn.
  - intros g. rewrite He2, He1, Ha by done. unfold total. erewrite msum_replace by done.
    rewrite Hw, Hw'. lia.
  - rewrite Hc. unfold lease_count. erewrite msum_replace by done. rewrite Hw, Hw'. lia.
  - destruct (oldest_active_started_at f) as [t|]; [|done]. destruct Hold as (Hs & ? & ? & Hmin).
    split_and!; try done.
    + rewrite Hs. unfold started_count. erewrite msum_replace by done. rewrite Hw, Hw', Hst. cbn. lia.
    + intros l' o1. rewrite lookup_insert_Some. intros [[<- <-]|[_ ?]] ?; [rewrite Hst|]; by eapply Hmin.
Qed.

Lemma finish_ok m l o f life :
  m !! l = Some o → W o = true → family_ok m f →
  family_ok (delete l m) (finish_ f (ob_observed o) (ob_started_at o) life).
Proof.
  intros Hl Hw Hok. unfold finish_.
  destruct (or_saturate (use_checked_sub _ _) _) as [act e1] eqn:He1.
  apply use_sub_step in He1 as [He1 _].
  destruct (or_saturate (checked_sub (active_lease_count f) _) _) as [count e2] eqn:He2.
  destruct (if decide _ then _ else _) as [[[oldest n] li] e3] eqn:He3.
  destruct (or_saturate (checked_add u64_max (completed_lease_count f) 1) _) as [completed e4].
  destruct (or_saturate (use_checked_add _ _) _) as [tot e5].
  destruct (or_saturate (checked_add duration_max _ _) _) as [lt e6].
  intros Hflag; cbn in Hflag. z_norm. subst. destruct (Hok ltac:(done)) as [Ha Hc Hold].
  apply or_saturate_exact in He2. z_norm. subst count.
  assert (Hcount : lease_count (delete l m) = active_lease_count f - 1).
  { rewrite Hc. unfold lease_count. rewrite (msum_delete _ m _ _ Hl), Hw. lia. }
  assert (Hmin' : ∀ t, (∀ l o, m !! l = Some o → W o = true → t ≤ ob_started_at o) →
    ∀ l' o', delete l m !! l' = Some o' → W o' = true → t ≤ ob_started_at o').
  { intros t Hmin l' o'. rewrite lookup_delete_Some. intros [_ ?]. by eapply Hmin. }
  split; cbn; [|done|].
  - intros g. rewrite He1, Ha by done. unfold total. rewrite (msum_delete _ m _ _ Hl), Hw. lia.
  - case_decide as Ho.
    + rewrite Ho in Hold. destruct Hold as (Hs & Hs1 & Hli & Hmin).
      assert (Hdel : started_count (ob_started_at o) (delete l m) = started_count (ob_started_at o) m - 1).
      { unfold started_count. rewrite (msum_delete _ m _ _ Hl), Hw, Z.eqb_refl. cbn. lia. }
      destruct (or_saturate (checked_sub (oldest_active_start_count f) 1) 0) as [n' e'] eqn:Hn'.
      rewrite Hli, Ho in He3. destruct (Z.eqb_spec n' 0); simplify_eq.
      * split; [done|]. by destruct (_ =? 0).
      * apply or_saturate_exact in Hn'. z_norm. split_and!; try lia; try done. by apply Hmin'.
    + destruct (oldest_active_started_at f) as [t|] eqn:Hot.
      * rewrite bool_decide_eq_false_2 in He3 by done. simplify_eq/=.
        destruct Hold as (Hs & Hs1 & Hli & Hmin). split_and!; try done; [|by apply Hmin'].
        rewrite Hs. unfold started_count. rewrite (msum_delete _ m _ _ Hl), Hw.
        rewrite (proj2 (Z.eqb_neq _ _)) by congruence. done.
      * rewrite bool_decide_eq_true_2 in He3 by done. cbn in He3. destruct Hold as [Hs Hli].
        destruct (Z.eqb_spec (active_lease_count f - 1) 0) as [Hz|Hz]; simplify_eq.
        { done. }
        split; [done|]. rewrite Hli, (proj2 (Z.eqb_neq _ _)) by lia. done.
Qed.

End exactness.

(** ** The hierarchy *)

Definition scope_shape (st : ScopeState) : Prop :=
  length (pre_authentication st) = PRE_AUTH_RESOURCE_FAMILY_COUNT ∧
  length (post_authentication st) = POST_AUTH_RESOURCE_FAMILY_COUNT.

Lemma pre_index_lt f : (pre_index f < PRE_AUTH_RESOURCE_FAMILY_COUNT)%nat.
Proof. destruct f; cbn; unfold PRE_AUTH_RESOURCE_FAMILY_COUNT; lia. Qed.
Lemma post_index_lt f : (post_index f < POST_AUTH_RESOURCE_FAMILY_COUNT)%nat.
Proof. destruct f; cbn; unfold POST_AUTH_RESOURCE_FAMILY_COUNT; lia. Qed.
Lemma pre_index_inj f g : pre_index f = pre_index g → f = g.
Proof. destruct f, g; cbn; congruence. Qed.
Lemma post_index_inj f g : post_index f = post_index g → f = g.
Proof. destruct f, g; cbn; congruence. Qed.

Lemma nth_alter {A} (g : A → A) (l : list A) i j d :
  (i < length l)%nat → nth j (alter g i l) d = if decide (i = j) then g (nth j l d) else nth j l d.
Proof.
  intros Hi. rewrite !nth_lookup. case_decide as Hij.
  - subst j. rewrite list_lookup_alter_eq. destruct (lookup_lt_is_Some_2 l i Hi) as [x ->]. done.
  - by rewrite list_lookup_alter_ne.
Qed.

Lemma family_mut_shape k g st : scope_shape st → scope_shape (family_mut k g st).
Proof. intros []. destruct k; split; cbn; by rewrite ?length_alter. Qed.

Lemma family_family_mut k g st k' :
  scope_shape st →
  family (family_mut k g st) k' = if decide (k = k') then g (family st k') else family st k'.
Proof.
  intros [H1 H2]. pose proof pre_index_inj. pose proof post_index_inj.
  destruct k as [f|f], k' as [f'|f']; cbn; try (by rewrite decide_False).
  - rewrite nth_alter by (rewrite H1; apply pre_index_lt).
    destruct (decide (pre_index f = pre_index f')) as [E|E]; [|rewrite decide_False by congruence; done].
    apply pre_index_inj in E as ->. by rewrite decide_True.
  - rewrite nth_alter by (rewrite H2; apply post_index_lt).
    destruct (decide (post_index f = post_index f')) as [E|E]; [|rewrite decide_False by congruence; done].
    apply post_index_inj in E as ->. by rewrite decide_True.
Qed.

Lemma foldl_alter_lookup u (path : list Z) (scopes : gmap Z ScopeState) s :
  NoDup path →
  foldl (λ m s, alter u s m) scopes path !! s
  = if decide (s ∈ path) then u <$> scopes !! s else scopes !! s.
Proof.
  revert scopes. induction path as [|p path IH]; intros scopes Hnd; cbn.
  { rewrite decide_False; [done|]. by apply not_elem_of_nil. }
  apply NoDup_cons in Hnd as [Hp Hnd]. rewrite IH by done.
  destruct (decide (s = p)) as [->|Hne].
  - rewrite decide_False, decide_True by (done || by left). by rewrite lookup_alter_eq.
  - rewrite lookup_alter_ne by done. by apply decide_ext; rewrite elem_of_cons; naive_solver.
Qed.

(** The observations a scope accounts for in a family. *)
Definition counts (s : Z) (k : FamilyKey) (o : Observation) : bool :=
  bool_decide (s ∈ scope_path (ob_accountant o)) && bool_decide (ob_family o = k).

(** An update of one family along a path, seen from any scope and family. *)
Lemma for_each_family a k g u scopes s st' :
  NoDup (scope_path a) →
  (∀ st, scope_shape st → scope_shape (u st) ∧
     ∀ k', family (u st) k' = if decide (k = k') then g (family st k') else family st k') →
  for_each_scope a u scopes !! s = Some st' →
  ∃ st, scopes !! s = Some st ∧
    (scope_shape st → scope_shape st' ∧
     ∀ k', family st' k'
       = if decide (s ∈ scope_path a ∧ k = k') then g (family st k') else family st k').
Proof.
  intros Hnd Hu. unfold for_each_scope. rewrite foldl_alter_lookup by done.
  case_decide as Hs; [|intros ?; exists st'; split; [done|]; intros; split; [done|]; intros k';
    by rewrite decide_False by tauto].
  destruct (scopes !! s) as [st|]; [|done]. intros [= <-]. exists st. split; [done|]. intros Hsh.
  destruct (Hu st Hsh) as [Hsh' Hf]. split; [done|]. intros k'. rewrite Hf.
  repeat case_decide; naive_solver.
Qed.

Lemma mut_spec k g b st :
  scope_shape st → scope_shape (family_mut k g (mark_inexact b st)) ∧
  ∀ k', family (family_mut k g (mark_inexact b st)) k'
    = if decide (k = k') then g (family st k') else family st k'.
Proof.
  intros Hsh. assert (Hm : scope_shape (mark_inexact b st)) by exact Hsh.
  split; [by apply family_mut_shape|]. intros k'. rewrite family_family_mut by done. by destruct k'.
Qed.

Record world_inv (w : World) : Prop := {
  wi_path : ∀ a, a ∈ w_accountants w →
    NoDup (scope_path a) ∧ ∀ s, s ∈ scope_path a → is_Some (w_scopes w !! s);
  wi_tree : ∀ a b, a ∈ w_accountants w → b ∈ w_accountants w → leaf a ∈ scope_path b →
    scope_path a ⊆ scope_path b;
  wi_leases : ∀ l o, w_leases w !! l = Some o →
    ob_accountant o ∈ w_accountants w ∧ use_wf (ob_observed o);
  wi_shape : ∀ s st, w_scopes w !! s = Some st → scope_shape st;
  wi_bounds : ∀ s st k, w_scopes w !! s = Some st → family_bounds (family st k);
  wi_exact : ∀ s st k, w_scopes w !! s = Some st → family_ok (counts s k) (w_leases w) (family st k);
}.

(** Every history of the public operations. *)
Inductive world_step : World → World → Prop :=
| ws_root w s : w_scopes w !! s = None → world_step w (observation_only w s)
| ws_child w a s : a ∈ w_accountants w → w_scopes w !! s = None → world_step w (child_scope w a s)
| ws_observe w a k m t l :
    a ∈ w_accountants w → w_leases w !! l = None → use_wf (observed m) →
    world_step w (observe_measurement_at w a k m t l)
| ws_replace w l m : use_wf (observed m) → world_step w (replace_measurement w l m)
| ws_drop w l t : world_step w (complete w l t).

Definition world_empty : World := mkWorld ∅ [] ∅.

(** A scope no live lease passes through starts exact. *)
Lemma fresh_scope_ok w s k :
  world_inv w → w_scopes w !! s = None → family_ok (counts s k) (w_leases w) family_default.
Proof.
  intros Hw Hs. apply (family_ok_ext _ ∅); [| | | |apply family_ok_default].
  all: assert (Hno : ∀ l o, w_leases w !! l = Some o → counts s k o = false)
    by (intros l o Hl; unfold counts; rewrite bool_decide_eq_false_2; [done|];
        intros Hin; destruct (wi_leases _ Hw _ _ Hl) as [Ha _];
        destruct (proj2 (wi_path _ Hw _ Ha) _ Hin); congruence).
  - intros g. unfold total. rewrite (msum_ext _ (λ _, 0)), msum_const, msum_empty; [lia|].
    intros l o Hl. by rewrite (Hno _ _ Hl).
  - unfold lease_count. rewrite (msum_ext _ (λ _, 0)), msum_const, msum_empty; [lia|].
    intros l o Hl. by rewrite (Hno _ _ Hl).
  - intros t. unfold started_count. rewrite (msum_ext _ (λ _, 0)), msum_const, msum_empty; [lia|].
    intros l o Hl. by rewrite (Hno _ _ Hl).
  - intros l o Hl. rewrite (Hno _ _ Hl). done.
Qed.

Lemma scope_default_family k : family scope_default k = family_default.
Proof. by destruct k as [[]|[]]. Qed.

Lemma family_default_bounds : family_bounds family_default.
Proof. split; cbn; try (intros []; cbn); unfold u64_max; lia. Qed.

(** Adding a leaf below a (possibly empty) path. *)
Lemma add_scope_inv w path s :
  world_inv w → w_scopes w !! s = None →
  (path = [] ∨ ∃ a, a ∈ w_accountants w ∧ path = scope_path a) →
  world_inv (mkWorld (<[s := scope_default]> (w_scopes w)) (mkAccountant path s :: w_accountants w)
    (w_leases w)).
Proof.
  intros Hw Hs Hpath. destruct Hw as [Hp Ht Hl Hsh Hb Hex] eqn:Hw'. clear Hw'.
  assert (Hfresh : ∀ a, a ∈ w_accountants w → s ∉ scope_path a).
  { intros a Ha Hin. destruct (proj2 (Hp a Ha) _ Hin). congruence. }
  assert (Hdom : ∀ x, x ∈ path → is_Some (w_scopes w !! x)).
  { destruct Hpath as [->|(a & Ha & ->)]; [intros x Hx; by apply not_elem_of_nil in Hx|].
    apply (Hp a Ha). }
  assert (Hsp : s ∉ path) by (intros [? ?]%Hdom; congruence).
  split; cbn.
  - intros a [->|Ha]%elem_of_cons.
    + split; unfold scope_path; cbn.
      * apply NoDup_app. split_and!; [| |apply NoDup_singleton]; cycle 1.
        { intros x Hx ->%list_elem_of_singleton. done. }
        destruct Hpath as [->|(a & Ha & ->)]; [constructor|]. apply (Hp a Ha).
      * intros x [Hx| ->%list_elem_of_singleton]%elem_of_app.
        -- destruct (decide (x = s)) as [->|]; [by rewrite lookup_insert_eq|].
           rewrite lookup_insert_ne by done. by apply Hdom.
        -- by rewrite lookup_insert_eq.
    + split; [apply (Hp a Ha)|]. intros x Hx. rewrite lookup_insert_ne by (intros ->; by apply (Hfresh a)).
      by apply (Hp a Ha).
  - intros a b [->|Ha]%elem_of_cons [->|Hb']%elem_of_cons; cbn; [done| | |by apply Ht].
    + intros Hin. by apply (Hfresh b) in Hin.
    + unfold scope_path at 1; cbn. intros [Hin|Heq%list_elem_of_singleton]%elem_of_app; cycle 1.
      { destruct (Hfresh a Ha). rewrite <- Heq. apply elem_of_app. right. by apply list_elem_of_singleton. }
      destruct Hpath as [->|(c & Hc & ->)]; [by apply not_elem_of_nil in Hin|].
      intros x Hx. apply elem_of_app. left. by apply (Ht a c Ha Hc Hin).
  - intros l o Ho. destruct (Hl l o Ho). split; [by right|done].
  - intros x st. rewrite lookup_insert_Some. intros [[<- <-]|[_ ?]]; [done|by eapply Hsh].
  - intros x st k. rewrite lookup_insert_Some. intros [[<- <-]|[_ ?]]; [|by eapply Hb].
    rewrite scope_default_family. apply family_default_bounds.
  - intros x st k. rewrite lookup_insert_Some. intros [[<- <-]|[_ ?]]; [|by eapply Hex].
    rewrite scope_default_family. by apply fresh_scope_ok.
Qed.

(** An update along the path of one observation, and the leases after it. *)
Lemma update_inv w a k g u leases' :
  world_inv w → a ∈ w_accountants w →
  (∀ st, scope_shape st → scope_shape (u st) ∧
     ∀ k', family (u st) k' = if decide (k = k') then g (family st k') else family st k') →
  (∀ l o, leases' !! l = Some o → ob_accountant o ∈ w_accountants w ∧ use_wf (ob_observed o)) →
  (∀ f, family_bounds f → family_bounds (g f)) →
  (∀ s f, s ∈ scope_path a → family_ok (counts s k) (w_leases w) f → family_ok (counts s k) leases' (g f)) →
  (∀ s k' f, ¬ (s ∈ scope_path a ∧ k = k') →
     family_ok (counts s k') (w_leases w) f → family_ok (counts s k') leases' f) →
  world_inv (mkWorld (for_each_scope a u (w_scopes w)) (w_accountants w) leases').
Proof.
  intros [Hp Ht Hl Hsh Hb Hex] Ha Hu Hl' Hgb Hin Hout.
  pose proof (for_each_family a k g u (w_scopes w)) as Hfe.
  split; cbn; try done.
  - intros b Hbm. split; [apply (Hp b Hbm)|]. intros s Hs. destruct (proj2 (Hp b Hbm) s Hs) as [st Hst].
    unfold for_each_scope. rewrite foldl_alter_lookup by apply (Hp a Ha). case_decide; rewrite Hst; cbn; eauto.
  - intros s st' Hst'. destruct (Hfe s st' (proj1 (Hp a Ha)) Hu Hst') as (st & Hst & H). by apply H, (Hsh s).
  - intros s st' k' Hst'. destruct (Hfe s st' (proj1 (Hp a Ha)) Hu Hst') as (st & Hst & H).
    rewrite (proj2 (H (Hsh s st Hst))). specialize (Hb s st k' Hst).
    destruct (decide (s ∈ scope_path a ∧ k = k')); auto.
  - intros s st' k' Hst'. destruct (Hfe s st' (proj1 (Hp a Ha)) Hu Hst') as (st & Hst & H).
    rewrite (proj2 (H (Hsh s st Hst))). specialize (Hex s st k' Hst).
    destruct (decide (s ∈ scope_path a ∧ k = k')) as [[? <-]|]; auto.
Qed.

Lemma counts_in a k s u t : s ∈ scope_path a → counts s k (mkObservation a k u t) = true.
Proof. intros H. unfold counts; cbn. by rewrite !bool_decide_eq_true_2. Qed.

Lemma counts_out a k s k' u t : ¬ (s ∈ scope_path a ∧ k = k') → counts s k' (mkObservation a k u t) = false.
Proof. intros H. unfold counts; cbn. repeat case_bool_decide; naive_solver. Qed.

Lemma world_step_inv w w' : world_step w w' → world_inv w → world_inv w'.
Proof.
  intros Hstep Hw. destruct Hstep as [w s Hs|w a s Ha Hs|w a k m t l Ha Hl Hm|w l m Hm|w l t].
  - apply add_scope_inv; auto.
  - apply add_scope_inv; eauto.
  - eapply (update_inv w a k); try done; try apply mut_spec.
    + intros l' o. rewrite lookup_insert_Some. intros [[<- <-]|[_ ?]]; [done|by eapply wi_leases].
    + intros f. by apply begin_bounds.
    + intros s f Hs Hok. apply (begin_ok (counts s k) _ l (mkObservation a k (observed m) t)); auto.
      by apply counts_in.
    + intros s k' f Hs. apply family_ok_insert_other; [done|]. by apply counts_out.
  - unfold replace_measurement. destruct (w_leases w !! l) as [[a k u t]|] eqn:Hl; [|done].
    destruct (wi_leases _ Hw _ _ Hl) as [Ha Hu]; cbn in Ha, Hu.
    eapply (update_inv w a k); try done; try apply mut_spec; cbn.
    + intros l' o. rewrite lookup_insert_Some. intros [[<- <-]|[_ ?]]; [done|by eapply wi_leases].
    + intros f. by apply replace_bounds.
    + intros s f Hs. apply (replace_ok (counts s k) _ l (mkObservation a k u t)
        (mkObservation a k (observed m) t)); auto using counts_in.
    + intros s k' f Hs. eapply family_ok_replace_other; eauto using counts_out.
  - unfold complete. destruct (w_leases w !! l) as [[a k u t0]|] eqn:Hl; [|done].
    destruct (wi_leases _ Hw _ _ Hl) as [Ha Hu]; cbn in Ha, Hu.
    eapply (update_inv w a k); try done; cbn.
    + intros st Hsh. split; [by apply family_mut_shape|]. intros k'. by apply family_family_mut.
    + intros l' o. rewrite lookup_delete_Some. intros [_ ?]. by eapply wi_leases.
    + intros f. by apply finish_bounds.
    + intros s f Hs. apply (finish_ok (counts s k) _ l (mkObservation a k u t0)); auto using counts_in.
    + intros s k' f Hs. eapply family_ok_delete_other; eauto using counts_out.
Qed.

Lemma world_empty_inv : world_inv world_empty.
Proof. split; cbn; set_solver. Qed.

Lemma world_steps_inv w : rtc world_step world_empty w → world_inv w.
Proof.
  intros Hsteps. assert (∀ w0, rtc world_step w0 w → world_inv w0 → world_inv w) as H.
  { induction 1; eauto using world_step_inv. }
  by apply (H world_empty), world_empty_inv.
Qed.

Lemma started_count_exists W t m :
  1 ≤ started_count W t m → ∃ l o, m !! l = Some o ∧ W o = true ∧ ob_started_at o = t.
Proof.
  intros H. destruct (decide (map_Exists (λ _ o, W o = true ∧ ob_started_at o = t) m)) as [(l & o & ?)|Hn].
  - naive_solver.
  - rewrite started_count_zero in H; [lia|]. intros l o Hl Hw Ht. apply Hn. by exists l, o.
Qed.

(** ** Properties *)

(** an exact report is the truth about the live leases.  When the report of
    a family at a scope is not marked inexact, its active quantity and lease
    count are the sums over exactly the live observations made at that scope or
    below it in that family; the oldest lifetime, when given, is the longest
    lifetime of a live lease, and it is withheld only when no lease is live or
    when the report says so. *)
Theorem exact_report_is_sum_of_live_leases w s st k now :
  rtc world_step world_empty w → w_scopes w !! s = Some st →
  let rep := snapshot st k now in
  rep_measurement_inexact rep = false →
  (∀ g, use_get g (rep_active rep) = total (counts s k) g (w_leases w)) ∧
  rep_active_lease_count rep = lease_count (counts s k) (w_leases w) ∧
  match rep_oldest_active_lifetime rep with
  | Some life =>
      (∃ l o, w_leases w !! l = Some o ∧ counts s k o = true ∧
              life = saturating_sub now (ob_started_at o)) ∧
      (∀ l o, w_leases w !! l = Some o → counts s k o = true →
              saturating_sub now (ob_started_at o) ≤ life)
  | None => rep_oldest_active_lifetime_inexact rep = negb (rep_active_lease_count rep =? 0)
  end.
Proof.
  intros Hsteps Hs rep Hflag. pose proof (world_steps_inv _ Hsteps) as Hw.
  cbn in Hflag. z_norm.
  destruct (wi_exact _ Hw _ _ k Hs ltac:(done)) as [Ha Hc Hold]. cbn. split_and!; try done.
  destruct (oldest_active_started_at (family st k)) as [t|]; cbn; [|apply Hold].
  destruct Hold as (Hs1 & Hs2 & _ & Hmin). split.
  - destruct (started_count_exists (counts s k) t (w_leases w)) as (l & o & ? & ? & <-); [lia|]. eauto.
  - intros l o Hl Hcount. specialize (Hmin _ _ Hl Hcount). unfold saturating_sub. lia.
Qed.

(** peaks dominate, always.  Even after overflow or inconsistent
    measurements, no report shows an active quantity or lease count above its
    peak, and no counter leaves the [u64] range. *)
Theorem report_peaks_dominate w s st k now :
  rtc world_step world_empty w → w_scopes w !! s = Some st →
  let rep := snapshot st k now in
  (∀ g, 0 ≤ use_get g (rep_active rep) ≤ use_get g (rep_peak_active rep) ∧
        use_get g (rep_peak_active rep) ≤ u64_max) ∧
  0 ≤ rep_active_lease_count rep ≤ rep_peak_active_lease_count rep ∧
  rep_peak_active_lease_count rep ≤ u64_max.
Proof.
  intros Hsteps Hs rep. destruct (wi_bounds _ (world_steps_inv _ Hsteps) _ _ k Hs). cbn.
  split; [|lia]. intros g. specialize (fb_active0 g). specialize (fb_peak0 g). lia.
Qed.

(** observations aggregate upwards.  An ancestor scope's exact active
    quantity is at least that of each of its descendants. *)
Theorem ancestor_report_dominates w a b sa sb k now :
  rtc world_step world_empty w → a ∈ w_accountants w → b ∈ w_accountants w →
  leaf a ∈ scope_path b → w_scopes w !! leaf a = Some sa → w_scopes w !! leaf b = Some sb →
  rep_measurement_inexact (snapshot sa k now) = false →
  rep_measurement_inexact (snapshot sb k now) = false →
  ∀ g, use_get g (rep_active (snapshot sb k now)) ≤ use_get g (rep_active (snapshot sa k now)).
Proof.
  intros Hsteps Ha Hb Hab Hsa Hsb Hfa Hfb g. pose proof (world_steps_inv _ Hsteps) as Hw.
  cbn in *. z_norm.
  rewrite (fe_active _ _ _ (wi_exact _ Hw _ _ k Hsa ltac:(done))).
  rewrite (fe_active _ _ _ (wi_exact _ Hw _ _ k Hsb ltac:(done))).
  apply msum_le. intros l o Hl. destruct (wi_leases _ Hw _ _ Hl) as [Hoa Hwf]. specialize (Hwf g).
  destruct (counts (leaf b) k o) eqn:Hcb; [|destruct (counts (leaf a) k o); lia].
  unfold counts in *. z_norm. assert (leaf a ∈ scope_path (ob_accountant o)) as Hin.
  { apply (wi_tree _ Hw b (ob_accountant o)); done. }
  rewrite !bool_decide_eq_true_2 by done. cbn. lia.
Qed.

(** ** Witnesses: a root, a child and one lease of ten bytes at the child *)

Definition acc_root : ResourceAccountant := mkAccountant [] 1.
Definition acc_child : ResourceAccountant := mkAccountant [1] 2.
Definition acc_w1 : World := observation_only world_empty 1.
Definition acc_w2 : World := child_scope acc_w1 acc_root 2.
Definition acc_m : ResourceMeasurement := mkMeasurement (mkUse 1 10 16 0) false.
Definition acc_w3 : World := observe_measurement_at acc_w2 acc_child (PreAuth FrameBytes) acc_m 100 7.

Lemma acc_m_wf : use_wf (observed acc_m).
Proof. intros []; cbn; unfold u64_max; lia. Qed.

Lemma acc_reach : rtc world_step world_empty acc_w3.
Proof.
  eapply rtc_l; [apply (ws_root world_empty 1); reflexivity|].
  eapply rtc_l; [apply (ws_child acc_w1 acc_root 2); [by left|reflexivity]|].
  eapply rtc_l; [|apply rtc_refl].
  apply (ws_observe acc_w2 acc_child); [by left|reflexivity|exact acc_m_wf].
Qed.

Definition acc_scope (s : Z) : ScopeState := default scope_default (w_scopes acc_w3 !! s).

Lemma exact_report_is_sum_of_live_leases_witness :
  use_get FLogical (rep_active (snapshot (acc_scope 1) (PreAuth FrameBytes) 150)) = 10 ∧
  total (counts 1 (PreAuth FrameBytes)) FLogical (w_leases acc_w3) = 10.
Proof.
  split; [vm_compute; reflexivity|].
  rewrite <- (proj1 (exact_report_is_sum_of_live_leases acc_w3 1 (acc_scope 1) (PreAuth FrameBytes) 150
    acc_reach ltac:(vm_compute; reflexivity) ltac:(vm_compute; reflexivity))).
  vm_compute; reflexivity.
Defined.

Lemma report_peaks_dominate_witness :
  0 ≤ rep_active_lease_count (snapshot (acc_scope 2) (PreAuth FrameBytes) 150)
    ≤ rep_peak_active_lease_count (snapshot (acc_scope 2) (PreAuth FrameBytes) 150).
Proof.
  apply (report_peaks_dominate acc_w3 2 (acc_scope 2) (PreAuth FrameBytes) 150 acc_reach).
  vm_compute; reflexivity.
Defined.

Lemma ancestor_report_dominates_witness :
  use_get FLogical (rep_active (snapshot (acc_scope 2) (PreAuth FrameBytes) 150))
  ≤ use_get FLogical (rep_active (snapshot (acc_scope 1) (PreAuth FrameBytes) 150)).
Proof.
  apply (ancestor_report_dominates acc_w3 acc_root acc_child (acc_scope 1) (acc_scope 2)
    (PreAuth FrameBytes) 150 acc_reach); [right; by left | by left | by left | vm_compute; reflexivity..].
Defined.
