(* ===== verification/Ranking.v ===== *)
(** * Identifiers, comparators and bounded rankings

    What the topology selectors share: the byte order of strings,
    [signing::pubkey_part], comparators as [std::cmp::Ordering], the standard
    library's ordered set, binary search and [Iterator::min], and the bounded
    insertion [retain_ranked] by which a selector keeps only its best
    candidates.  The lemmas show that the bounded scan computes the prefix of
    the full ranking. *)

From S2P Require Import Prelude.
Local Open Scope nat_scope.

(** ** Comparators *)

(** A total order given by its three-way comparison. *)
Class CmpSpec {A} (cmp : A → A → comparison) : Prop := {
  cmpspec_eq x y : cmp x y = Eq ↔ x = y;
  cmpspec_antisym x y : cmp y x = CompOpp (cmp x y);
  cmpspec_trans x y z : cmp x y = Lt → cmp y z = Lt → cmp x z = Lt;
}.

(** [Ordering::then_with]. *)
Definition then_with (c d : comparison) : comparison := match c with Eq => d | _ => c end.
Definition is_less (c : comparison) : bool := match c with Lt => true | _ => false end.

#[export] Instance string_cmp : CmpSpec String.compare.
Proof.
  assert (Hrefl : ∀ x, String.compare x x = Eq).
  { intros x. pose proof (String.compare_antisym x x) as H. by destruct (x ?= x)%string. }
  assert (Hasc : ∀ a b c, Ascii.compare a b = Lt → Ascii.compare b c = Lt → Ascii.compare a c = Lt).
  { unfold Ascii.compare. intros a b c. rewrite !N.compare_lt_iff. lia. }
  assert (Haref : ∀ a, Ascii.compare a a = Eq) by (intros; apply N.compare_refl).
  split.
  - intros x y. split; [apply String.compare_eq_iff|]. intros ->. apply Hrefl.
  - intros x y. apply String.compare_antisym.
  - intros x. induction x as [|a x IH]; intros [|b y] [|c z]; cbn; try done.
    destruct (Ascii.compare a b) eqn:Hab; try done; destruct (Ascii.compare b c) eqn:Hbc; try done;
      try apply Ascii.compare_eq_iff in Hab as ->; try apply Ascii.compare_eq_iff in Hbc as ->;
      rewrite ?Haref, ?Hbc, ?Hab; try done; [apply IH|]. by erewrite Hasc by done.
Qed.

#[export] Instance Z_cmp_spec : CmpSpec Z.compare.
Proof.
  split.
  - apply Z.compare_eq_iff.
  - intros x y. apply Z.compare_antisym.
  - intros x y z. rewrite !Z.compare_lt_iff. apply Z.lt_trans.
Qed.

Section cmp.
Context {A : Type} (cmp : A → A → comparison) `{!CmpSpec cmp}.

Lemma cmp_eq x y : cmp x y = Eq ↔ x = y.
Proof. apply cmpspec_eq. Qed.

Lemma cmp_trans x y z : cmp x y = Lt → cmp y z = Lt → cmp x z = Lt.
Proof. apply cmpspec_trans. Qed.

Lemma cmp_refl x : cmp x x = Eq.
Proof. by apply cmp_eq. Qed.

Lemma cmp_gt x y : cmp x y = Gt ↔ cmp y x = Lt.
Proof. rewrite (cmpspec_antisym (cmp := cmp) x y). by destruct (cmp x y). Qed.

Lemma cmp_lt_irrefl x : cmp x x ≠ Lt.
Proof. by rewrite cmp_refl. Qed.

#[local] Instance cmp_dec : EqDecision A.
Proof.
  intros x y. destruct (cmp x y) eqn:H; [left; by apply cmp_eq in H|right|right];
    intros ->; rewrite cmp_refl in H; done.
Qed.

(** Strictly increasing lists. *)
Definition increasing (l : list A) : Prop := StronglySorted (λ x y, cmp x y = Lt) l.

Lemma increasing_app l1 l2 :
  increasing (l1 ++ l2) ↔
  increasing l1 ∧ increasing l2 ∧ ∀ x y, x ∈ l1 → y ∈ l2 → cmp x y = Lt.
Proof.
  unfold increasing. induction l1 as [|a l1 IH]; cbn.
  { split; [|tauto]. intros H. split_and!; [constructor|done|]. by intros x y ?%not_elem_of_nil. }
  split.
  - intros [H Ha]%StronglySorted_inv. apply IH in H as (H1 & H2 & H3).
    rewrite Forall_app, !Forall_forall in Ha. split_and!; [|done|].
    + constructor; [done|]. apply Forall_forall. apply Ha.
    + intros x y [->|Hx]%elem_of_cons Hy; [by apply Ha|by apply H3].
  - intros ([H1 Ha]%StronglySorted_inv & H2 & H3). constructor.
    + apply IH. split_and!; [done..|]. intros. apply H3; [by right|done].
    + apply Forall_app. split; [done|]. apply Forall_forall. intros y Hy. apply H3; [by left|done].
Qed.

Lemma increasing_filter (P : A → Prop) `{!∀ x, Decision (P x)} l : increasing l → increasing (filter P l).
Proof.
  induction 1 as [|x l Hl IH Hx]; [constructor|]. rewrite filter_cons. destruct (decide (P x)); [|done].
  constructor; [done|]. rewrite Forall_forall in *. intros y [_ Hy]%list_elem_of_filter. by apply Hx.
Qed.

(** [BTreeSet::insert]: the ordered set as an increasing list. *)
Fixpoint set_insert (x : A) (l : list A) : list A :=
  match l with
  | [] => [x]
  | y :: l' =>
      match cmp x y with
      | Lt => x :: l
      | Eq => l
      | Gt => y :: set_insert x l'
      end
  end.

(** Collecting an iterator into a [BTreeSet]. *)
Definition btree_set (l : list A) : list A := foldl (λ s x, set_insert x s) [] l.

Lemma elem_of_set_insert x l y : y ∈ set_insert x l ↔ y = x ∨ y ∈ l.
Proof.
  induction l as [|z l IH]; cbn; [set_solver|].
  destruct (cmp x z) eqn:H; [apply cmp_eq in H as ->| |]; set_solver.
Qed.

Lemma set_insert_increasing x l : increasing l → increasing (set_insert x l).
Proof.
  induction l as [|y l IH]; cbn; intros Hl; [repeat constructor|].
  apply StronglySorted_inv in Hl as [Hl Hy]. destruct (cmp x y) eqn:Hxy.
  - by constructor.
  - constructor; [by constructor|]. constructor; [done|].
    eapply Forall_impl; [exact Hy|]. cbn. intros z. by apply cmp_trans.
  - constructor; [by apply IH|]. apply Forall_forall. intros z [->|Hz]%elem_of_set_insert.
    + by apply cmp_gt.
    + rewrite Forall_forall in Hy. by apply Hy.
Qed.

Lemma head_set_insert x l :
  head (set_insert x l) =
    match head l with Some y => if is_less (cmp x y) then Some x else Some y | None => Some x end.
Proof. destruct l as [|y l]; cbn; [done|]. by destruct (cmp x y). Qed.

Lemma btree_set_snoc l x : btree_set (l ++ [x]) = set_insert x (btree_set l).
Proof. unfold btree_set. by rewrite foldl_app. Qed.

Lemma btree_set_increasing l : increasing (btree_set l).
Proof.
  induction l as [|x l IH] using rev_ind; [constructor|]. rewrite btree_set_snoc.
  by apply set_insert_increasing.
Qed.

Lemma elem_of_btree_set l x : x ∈ btree_set l ↔ x ∈ l.
Proof.
  induction l as [|y l IH] using rev_ind; [done|].
  rewrite btree_set_snoc, elem_of_set_insert, elem_of_app, list_elem_of_singleton. naive_solver.
Qed.

Lemma increasing_NoDup l : increasing l → NoDup l.
Proof.
  induction 1 as [|x l Hl IH Hx]; constructor; [|done]. intros Hin.
  rewrite Forall_forall in Hx. by apply (cmp_lt_irrefl x), Hx.
Qed.

(** An increasing list is determined by its members. *)
Lemma increasing_unique l1 l2 :
  increasing l1 → increasing l2 → (∀ x, x ∈ l1 ↔ x ∈ l2) → l1 = l2.
Proof.
  intros H1. revert l2. induction H1 as [|x l1 H1 IH Hx]; intros l2 H2 Hin.
  { destruct l2 as [|y l2]; [done|]. exfalso. apply (not_elem_of_nil y), Hin. by left. }
  destruct H2 as [|y l2 H2 Hy]; [exfalso; apply (not_elem_of_nil x), Hin; by left|].
  rewrite Forall_forall in Hx, Hy.
  assert (x = y) as ->.
  { assert (x ∈ y :: l2) as [->|Hxy]%elem_of_cons by (apply Hin; by left); [done|].
    assert (y ∈ x :: l1) as [->|Hyx]%elem_of_cons by (apply Hin; by left); [done|].
    apply Hx in Hyx. apply Hy in Hxy. apply cmp_gt in Hxy. congruence. }
  f_equal. apply IH; [done|]. intros z. specialize (Hin z). rewrite !elem_of_cons in Hin.
  split; intros Hz.
  - destruct (proj1 Hin) as [->|]; [by right| |done]. apply Hx in Hz. by apply cmp_lt_irrefl in Hz.
  - destruct (proj2 Hin) as [->|]; [by right| |done]. apply Hy in Hz. by apply cmp_lt_irrefl in Hz.
Qed.

Lemma btree_set_ext l1 l2 : (∀ x, x ∈ l1 ↔ x ∈ l2) → btree_set l1 = btree_set l2.
Proof.
  intros H. apply increasing_unique; auto using btree_set_increasing.
  intros x. by rewrite !elem_of_btree_set.
Qed.

(** Inserting [x] splits an increasing list below and above it. *)
Lemma set_insert_split x l :
  increasing l →
  ∃ lo hi, set_insert x l = lo ++ x :: hi ∧ (l = lo ++ hi ∨ l = lo ++ x :: hi) ∧
    Forall (λ y, cmp y x = Lt) lo ∧ Forall (λ y, cmp x y = Lt) hi.
Proof.
  induction l as [|y l IH]; cbn; intros Hl; [by exists [], []; auto|].
  apply StronglySorted_inv in Hl as [Hl Hy]. destruct (cmp x y) eqn:Hxy.
  - apply cmp_eq in Hxy as ->. exists [], l. split_and!; auto.
  - exists [], (y :: l). split_and!; auto. constructor; [done|].
    eapply Forall_impl; [exact Hy|]. cbn. intros z. by apply cmp_trans.
  - destruct (IH Hl) as (lo & hi & -> & Heq & Hlo & Hhi). exists (y :: lo), hi.
    split_and!; cbn; auto.
    + destruct Heq as [->| ->]; auto.
    + constructor; [by apply cmp_gt|done].
Qed.
End cmp.

(** Pairs in lexicographic order. *)
Definition pair_cmp {A B} (ca : A → A → comparison) (cb : B → B → comparison) (p q : A * B) : comparison :=
  match ca p.1 q.1 with Eq => cb p.2 q.2 | c => c end.

#[export] Instance pair_cmp_spec {A B} (ca : A → A → comparison) (cb : B → B → comparison) :
  CmpSpec ca → CmpSpec cb → CmpSpec (pair_cmp ca cb).
Proof.
  intros Ha Hb. unfold pair_cmp. split.
  - intros [a x] [b y]. cbn. destruct (ca a b) eqn:H.
    + apply (cmp_eq ca) in H as ->. rewrite (cmp_eq cb). split; congruence.
    + split; [done|]. intros [= -> _]. by rewrite (cmp_refl ca) in H.
    + split; [done|]. intros [= -> _]. by rewrite (cmp_refl ca) in H.
  - intros [a x] [b y]. cbn. rewrite (cmpspec_antisym (cmp := ca) a b), (cmpspec_antisym (cmp := cb) x y).
    by destruct (ca a b).
  - intros [a x] [b y] [c z]. cbn. destruct (ca a b) eqn:Hab; [apply (cmp_eq ca) in Hab as ->|intros _|done].
    + destruct (ca b c); [apply (cmp_trans cb)|done|done].
    + destruct (ca b c) eqn:Hbc; [apply (cmp_eq ca) in Hbc as <-; by rewrite Hab| |done].
      by rewrite (cmp_trans ca a b c).
Qed.

(** ** [slice::binary_search_by]

    The standard library's branch-free search; [Ok] is a match, [Err] the
    insertion point. *)
Fixpoint bsearch {A} (fuel : nat) (f : A → comparison) (l : list A) (base size : nat) : nat :=
  match fuel with
  | 0 => base
  | S fuel =>
      if size <=? 1 then base
      else
        let half := size / 2 in
        let mid := base + half in
        let base := match f <$> l !! mid with Some Gt => base | _ => mid end in
        bsearch fuel f l base (size - half)
  end.

Definition binary_search_by {A} (f : A → comparison) (l : list A) : result nat nat :=
  match l with
  | [] => Err 0
  | _ =>
      let base := bsearch (length l) f l 0 (length l) in
      match f <$> l !! base with
      | Some Eq => Ok base
      | Some Lt => Err (base + 1)
      | _ => Err base
      end
  end.

Lemma bsearch_spec {A} (f : A → comparison) lo hi fuel base size :
  let l := lo ++ hi in
  Forall (λ y, f y ≠ Gt) lo → Forall (λ y, f y = Gt) hi →
  size ≤ fuel → 1 ≤ size → base + size ≤ length l →
  (base = 0 ∨ base < length lo) → length lo ≤ base + size →
  let b := bsearch fuel f l base size in
  (b = 0 ∨ b < length lo) ∧ length lo ≤ b + 1 ∧ b < length l.
Proof.
  intros l Hlo Hhi. revert base size. induction fuel as [|fuel IH]; intros base size Hf H1 Hb Hbase Hle; [lia|].
  cbn [bsearch]. destruct (Nat.leb_spec size 1); [lia|].
  assert (Hh : 1 ≤ size / 2 ∧ size / 2 + size / 2 ≤ size).
  { pose proof (Nat.div_mod_eq size 2). pose proof (Nat.mod_upper_bound size 2). lia. }
  set (half := size / 2) in *.
  destruct (lookup_lt_is_Some_2 l (base + half)) as [y Hy]; [lia|]. rewrite Hy. cbn [fmap option_fmap option_map].
  destruct (decide (base + half < length lo)) as [Hlt|Hge].
  - assert (f y ≠ Gt) as Hne.
    { rewrite Forall_lookup in Hlo. apply (Hlo (base + half)). unfold l in Hy.
      by rewrite lookup_app_l in Hy. }
    destruct (f y); [apply IH; lia..|done].
  - assert (f y = Gt) as ->.
    { rewrite Forall_lookup in Hhi. apply (Hhi (base + half - length lo)). unfold l in Hy.
      rewrite lookup_app_r in Hy by lia. done. }
    apply IH; lia.
Qed.

Lemma binary_search_split {A} (f : A → comparison) lo hi :
  Forall (λ y, f y = Lt) lo → Forall (λ y, f y = Gt) hi →
  binary_search_by f (lo ++ hi) = Err (length lo).
Proof.
  intros Hlo Hhi. unfold binary_search_by.
  destruct (lo ++ hi) as [|z l] eqn:Hl; [by apply app_nil in Hl as [-> _]|]. rewrite <- Hl.
  assert (1 ≤ length (lo ++ hi)) by (rewrite Hl; cbn; lia).
  destruct (bsearch_spec f lo hi (length (lo ++ hi)) 0 (length (lo ++ hi))) as (H1 & H2 & H3); try done; try lia.
  { eapply Forall_impl; [exact Hlo|]. cbn. congruence. }
  { rewrite length_app. lia. }
  set (b := bsearch _ _ _ _ _) in *. clearbody b.
  destruct (lookup_lt_is_Some_2 (lo ++ hi) b) as [y Hy]; [lia|]. rewrite Hy. cbn.
  destruct (decide (b < length lo)) as [Hlt|Hge].
  - rewrite lookup_app_l in Hy by done. rewrite Forall_lookup in Hlo. rewrite (Hlo _ _ Hy). f_equal. lia.
  - rewrite lookup_app_r in Hy by lia. rewrite Forall_lookup in Hhi. rewrite (Hhi _ _ Hy). f_equal. lia.
Qed.

Lemma binary_search_found {A} (f : A → comparison) lo x hi :
  Forall (λ y, f y = Lt) lo → f x = Eq → Forall (λ y, f y = Gt) hi →
  binary_search_by f (lo ++ x :: hi) = Ok (length lo).
Proof.
  intros Hlo Hx Hhi. unfold binary_search_by.
  destruct (lo ++ x :: hi) as [|z l] eqn:Hl; [by apply app_nil in Hl as [_ ?]|]. rewrite <- Hl.
  assert (Heq : lo ++ x :: hi = (lo ++ [x]) ++ hi) by by rewrite <- app_assoc.
  assert (Hlen : length (lo ++ x :: hi) = length lo + S (length hi)) by by rewrite length_app.
  destruct (bsearch_spec f (lo ++ [x]) hi (length (lo ++ x :: hi)) 0 (length (lo ++ x :: hi))) as (H1 & H2 & H3);
    try done; try lia.
  { apply Forall_app. split; [eapply Forall_impl; [exact Hlo|cbn; congruence]|]. repeat constructor. congruence. }
  { rewrite <- Heq. lia. }
  { rewrite length_app. cbn. lia. }
  rewrite <- Heq in H1, H2, H3. set (b := bsearch _ _ _ _ _) in *. clearbody b.
  rewrite length_app in H1, H2. cbn in H1, H2. assert (b = length lo) as -> by lia.
  rewrite list_lookup_middle by done. cbn. by rewrite Hx.
Qed.

(** ** The bounded ranking

    [retain_ranked_hub] and [retain_ranked]: keep the [limit] best candidates in
    order.  [Vec::insert] and [Vec::pop] as list operations. *)
Definition vec_insert {A} (pos : nat) (x : A) (l : list A) : list A := take pos l ++ x :: drop pos l.
Definition vec_pop {A} (l : list A) : list A := take (length l - 1) l.

Lemma vec_insert_perm {A} pos (x : A) l : vec_insert pos x l ≡ₚ x :: l.
Proof. unfold vec_insert. by rewrite <- Permutation_middle, take_drop. Qed.

Definition retain_ranked {A} (cmp : A → A → comparison) (limit : nat) (candidate : A) (ranked : list A) :
    list A :=
  if (limit =? 0) ||
     ((length ranked =? limit) &&
      negb (match last ranked with Some worst => is_less (cmp candidate worst) | None => false end))
  then ranked
  else
    let position :=
      match binary_search_by (λ current, cmp current candidate) ranked with Ok p | Err p => p end in
    let ranked := if length ranked =? limit then vec_pop ranked else ranked in
    vec_insert position candidate ranked.

(** The bounded scan computes the prefix of the full ranking. *)
Lemma retain_ranked_take {A} (cmp : A → A → comparison) `{!CmpSpec cmp} limit x l :
  increasing cmp l → x ∉ take limit l →
  retain_ranked cmp limit x (take limit l) = take limit (set_insert cmp x l).
Proof.
  intros Hl Hx. destruct (set_insert_split cmp x l Hl) as (lo & hi & Hins & Hcase & Hlo & Hhi).
  rewrite Hins. unfold retain_ranked. destruct (Nat.eqb_spec limit 0) as [->|Hlim]; [done|]. cbn [orb].
  destruct (decide (limit ≤ length lo)) as [Hle|Hgt].
  - assert (take limit l = take limit lo) as ->.
    { destruct Hcase as [-> | ->]; by rewrite take_app_le. }
    rewrite take_app_le by done. rewrite length_take_le, Nat.eqb_refl by done.
    destruct (last (take limit lo)) as [worst|] eqn:Hlast; [|done].
    apply last_Some_elem_of, elem_of_take_in in Hlast.
    rewrite Forall_forall in Hlo. specialize (Hlo _ Hlast). cbn in Hlo. apply (cmp_gt cmp) in Hlo.
    by rewrite Hlo.
  - assert (l = lo ++ hi) as ->.
    { destruct Hcase as [->| ->]; [done|]. exfalso. apply Hx.
      rewrite take_app_ge by lia. apply elem_of_app. right.
      replace (limit - length lo) with (S (limit - length lo - 1)) by lia. by left. }
    rewrite !take_app_ge by lia. set (m := limit - length lo).
    assert (Hgt' : Forall (λ y, cmp y x = Gt) (take m hi)).
    { apply Forall_take. eapply Forall_impl; [exact Hhi|]. cbn. intros y. by apply (cmp_gt cmp). }
    rewrite (binary_search_split _ lo (take m hi) Hlo Hgt').
    rewrite length_app, length_take. replace (take m (x :: hi)) with (x :: take (m - 1) hi)
      by (destruct m eqn:?; [lia|]; cbn; by rewrite Nat.sub_0_r).
    destruct (Nat.eqb_spec (length lo + m `min` length hi) limit) as [Hfull|Hroom]; cbn [andb].
    + assert (Hm : m ≤ length hi ∧ 1 ≤ m) by lia.
      assert (Hlast : ∃ worst, last (lo ++ take m hi) = Some worst ∧ cmp x worst = Lt).
      { rewrite last_app. destruct (last (take m hi)) as [worst|] eqn:Hw.
        - exists worst. split; [done|]. apply last_Some_elem_of, elem_of_take_in in Hw.
          rewrite Forall_forall in Hhi. by apply Hhi.
        - apply last_None in Hw. apply (f_equal length) in Hw. rewrite length_take in Hw. cbn in Hw. lia. }
      destruct Hlast as (worst & -> & ->). cbn [is_less negb].
      unfold vec_insert. replace (vec_pop (lo ++ take m hi)) with (lo ++ take (m - 1) hi).
      * by rewrite take_app_length, drop_app_length.
      * unfold vec_pop. rewrite length_app, length_take, take_app_ge by lia. f_equal.
        rewrite take_take. f_equal. lia.
    + unfold vec_insert. rewrite take_app_length, drop_app_length. f_equal. f_equal.
      rewrite !take_ge by lia. done.
Qed.

Lemma set_insert_elem {A} (cmp : A → A → comparison) `{!CmpSpec cmp} x l :
  increasing cmp l → x ∈ l → set_insert cmp x l = l.
Proof.
  intros Hl Hx. apply (increasing_unique cmp); auto using set_insert_increasing.
  intros y. rewrite elem_of_set_insert by done. naive_solver.
Qed.

(** Scanning with duplicates skipped: [candidate] loops of the selectors. *)
Definition retain_unique {A} `{EqDecision A} (cmp : A → A → comparison) (limit : nat) (x : A)
    (ranked : list A) : list A :=
  if bool_decide (x ∈ ranked) then ranked else retain_ranked cmp limit x ranked.

Lemma retain_unique_take {A} `{EqDecision A} (cmp : A → A → comparison) `{!CmpSpec cmp} limit x l :
  increasing cmp l → retain_unique cmp limit x (take limit l) = take limit (set_insert cmp x l).
Proof.
  intros Hl. unfold retain_unique. case_bool_decide as Hx; [|by apply retain_ranked_take].
  rewrite set_insert_elem; [done..|]. by eapply elem_of_take_in.
Qed.

(** Insertion only looks at the keys. *)
Lemma bsearch_map {A B} (h : A → B) f g l fuel base size :
  (∀ a, a ∈ l → f a = g (h a)) → bsearch fuel f l base size = bsearch fuel g (h <$> l) base size.
Proof.
  intros Hfg. revert base size. induction fuel as [|fuel IH]; intros base size; cbn [bsearch]; [done|].
  destruct (size <=? 1); [done|]. rewrite list_lookup_fmap. set (mid := base + size / 2).
  destruct (l !! mid) as [a|] eqn:Ha; cbn; [|apply IH].
  rewrite (Hfg a) by (by eapply list_elem_of_lookup_2). apply IH.
Qed.

Lemma binary_search_map {A B} (h : A → B) f g l :
  (∀ a, a ∈ l → f a = g (h a)) → binary_search_by f l = binary_search_by g (h <$> l).
Proof.
  intros Hfg. unfold binary_search_by. destruct l as [|x l]; [done|].
  change (h <$> x :: l) with (h x :: (h <$> l)) at 1. cbn match.
  rewrite (bsearch_map h f g) by done. rewrite length_fmap. set (b := bsearch _ _ _ _ _). clearbody b.
  rewrite list_lookup_fmap. destruct ((x :: l) !! b) as [a|] eqn:Ha; cbn; [|done].
  by rewrite (Hfg a) by (by eapply list_elem_of_lookup_2).
Qed.

Lemma retain_ranked_map {A B} (h : A → B) icmp cmp limit c l :
  (∀ a b, a ∈ c :: l → b ∈ c :: l → icmp a b = cmp (h a) (h b)) →
  h <$> retain_ranked icmp limit c l = retain_ranked cmp limit (h c) (h <$> l).
Proof.
  intros Hcmp. unfold retain_ranked. rewrite length_fmap, fmap_last.
  assert (Hlast : match last l with Some worst => is_less (icmp c worst) | None => false end
    = match h <$> last l with Some worst => is_less (cmp (h c) worst) | None => false end).
  { destruct (last l) as [w|] eqn:Hw; cbn; [|done]. apply last_Some_elem_of in Hw.
    rewrite Hcmp; [done|by left|by right]. }
  rewrite Hlast. destruct (_ || _); [done|].
  rewrite (binary_search_map h (λ cur, icmp cur c) (λ cur, cmp cur (h c)) l)
    by (intros a Ha; apply Hcmp; [by right|by left]).
  unfold vec_insert, vec_pop. rewrite fmap_app, fmap_cons, fmap_take, fmap_drop.
  destruct (length l =? limit); by rewrite ?fmap_take, ?length_fmap.
Qed.

Lemma elem_of_retain_ranked {A} cmp limit (c x : A) l : x ∈ retain_ranked cmp limit c l → x = c ∨ x ∈ l.
Proof.
  unfold retain_ranked. destruct (_ || _); [auto|]. unfold vec_insert, vec_pop.
  rewrite elem_of_app, elem_of_cons. set (p := match binary_search_by _ _ with Ok p | Err p => p end).
  clearbody p. intros [Hx|[->|Hx]]; [|by left|]; right.
  - apply elem_of_take_in in Hx. destruct (length l =? limit); [by apply elem_of_take_in in Hx|done].
  - apply elem_of_drop_in in Hx. destruct (length l =? limit); [by apply elem_of_take_in in Hx|done].
Qed.

(** ** [signing::pubkey_part] *)

(** [str::rsplit_once]: split at the last occurrence. *)
Fixpoint rsplit_once (c : Ascii.ascii) (s : string) : option (string * string) :=
  match s with
  | EmptyString => None
  | String a s' =>
      match rsplit_once c s' with
      | Some (body, suffix) => Some (String a body, suffix)
      | None => if Ascii.eqb a c then Some (EmptyString, s') else None
      end
  end.

Definition is_ascii_alphanumeric (a : Ascii.ascii) : bool :=
  let n := Ascii.nat_of_ascii a in
  ((48 <=? n) && (n <=? 57)) || ((65 <=? n) && (n <=? 90)) || ((97 <=? n) && (n <=? 122)).

Fixpoint all_alphanumeric (s : string) : bool :=
  match s with
  | EmptyString => true
  | String a s => is_ascii_alphanumeric a && all_alphanumeric s
  end.

Definition dash : Ascii.ascii := Ascii.ascii_of_nat 45.

Definition pubkey_part (device_id : string) : string :=
  match rsplit_once dash device_id with
  | Some (body, suffix) =>
      if (String.length suffix =? 5) && all_alphanumeric suffix then body else device_id
  | None => device_id
  end.

(** A canonical identifier is its own key: base32 has no dash.  A device
    identifier is [proper] when its key part is canonical. *)
Fixpoint no_dash (s : string) : bool :=
  match s with
  | EmptyString => true
  | String a s => negb (Ascii.eqb a dash) && no_dash s
  end.

Definition proper (id : string) : Prop := no_dash (pubkey_part id) = true.

Lemma rsplit_no_dash s : no_dash s = true → rsplit_once dash s = None.
Proof.
  induction s as [|a s IH]; cbn [no_dash rsplit_once]; [done|]. intros H. z_norm.
  rewrite IH by done. by destruct (Ascii.eqb a dash).
Qed.

Lemma pubkey_part_canonical s : no_dash s = true → pubkey_part s = s.
Proof. intros H. unfold pubkey_part. by rewrite rsplit_no_dash. Qed.

Lemma proper_key id : proper id → pubkey_part (pubkey_part id) = pubkey_part id.
Proof. apply pubkey_part_canonical. Qed.

Lemma canonical_proper id : no_dash id = true → proper id.
Proof. intros H. unfold proper. by rewrite pubkey_part_canonical. Qed.

Lemma alphanumeric_no_dash s : all_alphanumeric s = true → no_dash s = true.
Proof.
  induction s as [|a s IH]; cbn [no_dash all_alphanumeric]; [done|]. intros H. z_norm.
  rewrite IH by done. rewrite andb_true_r. destruct (Ascii.eqb_spec a dash) as [->|]; [|done].
  by vm_compute in H.
Qed.

Lemma rsplit_app body suffix :
  no_dash suffix = true → rsplit_once dash (body ++ String dash suffix)%string = Some (body, suffix).
Proof.
  intros Hs. induction body as [|a body IH].
  - change (rsplit_once dash (String dash suffix) = Some (EmptyString, suffix)).
    cbn [rsplit_once]. rewrite rsplit_no_dash by done. by rewrite Ascii.eqb_refl.
  - change (rsplit_once dash (String a (body ++ String dash suffix)) = Some (String a body, suffix)).
    cbn [rsplit_once]. by rewrite IH.
Qed.

Lemma pubkey_part_display key suffix :
  String.length suffix = 5 → all_alphanumeric suffix = true →
  pubkey_part (key ++ String dash suffix)%string = key.
Proof.
  intros Hlen Hal. unfold pubkey_part. rewrite rsplit_app by by apply alphanumeric_no_dash.
  by rewrite Hlen, Hal.
Qed.

(** ** The spelling of a key among connected peers

    A peer may be presented in display form; the selectors keep the least
    spelling ([Iterator::min] on [&str]). *)
Definition string_lt (x y : string) : bool := is_less (String.compare x y).

Definition min_str (l : list string) : option string :=
  foldl (λ acc x, match acc with
                  | None => Some x
                  | Some y => Some (if string_lt x y then x else y)
                  end) None l.

Definition connected_spelling (key : string) (connected : list string) : option string :=
  min_str (filter (λ p, pubkey_part p = key) connected).

Lemma connected_spelling_snoc key l p :
  connected_spelling key (l ++ [p])
  = if decide (pubkey_part p = key)
    then Some (match connected_spelling key l with
               | None => p
               | Some q => if string_lt p q then p else q
               end)
    else connected_spelling key l.
Proof.
  unfold connected_spelling. rewrite filter_app, filter_cons, filter_nil.
  case_decide; [|by rewrite app_nil_r]. unfold min_str. rewrite foldl_app. cbn. by destruct (foldl _ _ _).
Qed.

Lemma connected_spelling_Some key l q :
  connected_spelling key l = Some q → q ∈ l ∧ pubkey_part q = key.
Proof.
  revert q. induction l as [|p l IH] using rev_ind; intros q; [done|]. rewrite connected_spelling_snoc.
  case_decide as Hp; [|intros []%IH; set_solver].
  intros [= <-]. destruct (connected_spelling key l) as [q|]; [|set_solver].
  destruct (IH _ eq_refl). destruct (string_lt p q); set_solver.
Qed.

Lemma connected_spelling_None key l :
  connected_spelling key l = None ↔ ∀ p, p ∈ l → pubkey_part p ≠ key.
Proof.
  induction l as [|p l IH] using rev_ind; [set_solver|]. rewrite connected_spelling_snoc.
  case_decide as Hp; [set_solver|]. rewrite IH. set_solver.
Qed.

Lemma connected_spelling_is_Some key l :
  is_Some (connected_spelling key l) ↔ ∃ p, p ∈ l ∧ pubkey_part p = key.
Proof.
  split.
  - intros [q Hq]. exists q. by apply connected_spelling_Some.
  - intros (p & Hp & Hk). destruct (connected_spelling key l) eqn:H; [done|].
    rewrite connected_spelling_None in H. by destruct (H p Hp).
Qed.

(** The chosen spelling is a least one, whatever the order of observation. *)
Lemma connected_spelling_least key l q p :
  connected_spelling key l = Some q → p ∈ l → pubkey_part p = key → string_lt p q = false.
Proof.
  revert q. induction l as [|p' l IH] using rev_ind; intros q; [done|]. rewrite connected_spelling_snoc.
  rewrite elem_of_app, list_elem_of_singleton. unfold string_lt in *.
  case_decide as Hp'; [|naive_solver]. intros [= <-] [Hin| ->] Hk.
  - destruct (connected_spelling key l) as [q|] eqn:Hq.
    + specialize (IH q eq_refl Hin Hk). destruct (p' ?= q)%string eqn:Hlt; cbn; try done.
      destruct (p ?= p')%string eqn:Hpp; [done| |done].
      by rewrite (cmp_trans String.compare p p' q Hpp Hlt) in IH.
    + rewrite connected_spelling_None in Hq. by destruct (Hq p Hin).
  - destruct (connected_spelling key l) as [q|]; [|by rewrite (cmp_refl String.compare)].
    destruct (p' ?= q)%string eqn:Hlt; cbn; rewrite ?Hlt; try done. by rewrite (cmp_refl String.compare).
Qed.

Definition spellings (keys connected : list string) : list string :=
  omap (λ k, connected_spelling k connected) keys.

(** Scans that keep a candidate per key and its least spelling so far. *)
Section spelled.
Context {I : Type} (ikey ipeer : I → string) (set_peer : string → I → I).

(** [iter_mut().find(key)], then keep the smaller spelling. *)
Fixpoint update_existing (c : I) (l : list I) : option (list I) :=
  match l with
  | [] => None
  | a :: l =>
      if decide (ikey a = ikey c)
      then Some ((if string_lt (ipeer c) (ipeer a) then set_peer (ipeer c) a else a) :: l)
      else l' ← update_existing c l; Some (a :: l')
  end.

Definition spelled (connected : list string) (l : list I) : Prop :=
  Forall (λ a, connected_spelling (ikey a) connected = Some (ipeer a)) l.

Lemma update_existing_None c l : update_existing c l = None ↔ ikey c ∉ ikey <$> l.
Proof.
  induction l as [|a l IH]; cbn; [set_solver|]. rewrite not_elem_of_cons.
  case_decide as Ha; [naive_solver|]. destruct (update_existing c l) eqn:H; naive_solver.
Qed.

Lemma spelled_other connected l p :
  pubkey_part p ∉ ikey <$> l → spelled connected l → spelled (connected ++ [p]) l.
Proof.
  intros Hp Hl. apply Forall_forall. intros a Ha. unfold spelled in Hl. rewrite Forall_forall in Hl.
  rewrite connected_spelling_snoc. rewrite decide_False; [by apply Hl|].
  intros Heq. apply Hp. rewrite Heq. by apply list_elem_of_fmap_2.
Qed.

Context (Hkey : ∀ p a, ikey (set_peer p a) = ikey a) (Hpeer : ∀ p a, ipeer (set_peer p a) = p).

Lemma update_existing_keys c l l' : update_existing c l = Some l' → ikey <$> l' = ikey <$> l.
Proof.
  revert l'. induction l as [|a l IH]; cbn; [done|]. intros l'. case_decide as Ha.
  - intros [= <-]. cbn. f_equal. destruct (string_lt _ _); [apply Hkey|done].
  - destruct (update_existing c l) as [l1|]; [|done]. cbn. intros [= <-]. cbn. f_equal. by apply IH.
Qed.

Lemma update_existing_Forall (P : I → Prop) c l l' :
  (∀ p a, P a → P (set_peer p a)) → Forall P l → update_existing c l = Some l' → Forall P l'.
Proof.
  intros HP. revert l'. induction l as [|a l IH]; cbn; [done|]. intros l' [Ha Hl]%Forall_cons.
  case_decide as Hk.
  - intros [= <-]. constructor; [|done]. destruct (string_lt _ _); auto.
  - destruct (update_existing c l) as [l1|]; [|done]. cbn. intros [= <-]. constructor; auto.
Qed.

Lemma update_existing_spelled connected c l l' :
  NoDup (ikey <$> l) → pubkey_part (ipeer c) = ikey c → spelled connected l →
  update_existing c l = Some l' → spelled (connected ++ [ipeer c]) l'.
Proof.
  revert l'. induction l as [|a l IH]; cbn; [done|]. intros l' [Hnin Hnd]%NoDup_cons Hc Hl.
  apply Forall_cons in Hl as [Ha Hl]. case_decide as Hk.
  - intros [= <-]. constructor.
    + rewrite connected_spelling_snoc.
      replace (ikey (if string_lt (ipeer c) (ipeer a) then _ else _)) with (ikey a)
        by (destruct (string_lt _ _); by rewrite ?Hkey).
      rewrite decide_True by congruence. rewrite Ha. destruct (string_lt _ _); by rewrite ?Hpeer.
    + apply spelled_other; [|done]. by rewrite Hc, <- Hk.
  - destruct (update_existing c l) as [l1|] eqn:Hu; [|done]. cbn. intros [= <-]. constructor.
    + rewrite connected_spelling_snoc, decide_False by congruence. done.
    + by apply IH.
Qed.

Lemma spelled_peers connected l :
  spelled connected l → ipeer <$> l = spellings (ikey <$> l) connected.
Proof. induction 1 as [|a l Ha Hl IH]; [done|]. cbn. rewrite Ha. by f_equal. Qed.
End spelled.

Lemma string_lt_total x y : string_lt x y = false → string_lt y x = false → x = y.
Proof.
  unfold string_lt. rewrite (cmpspec_antisym (cmp := String.compare) x y).
  destruct (x ?= y)%string eqn:H; cbn; try done. intros _ _. by apply (cmp_eq String.compare).
Qed.

Lemma connected_spelling_ext key l l' :
  (∀ p, p ∈ l ↔ p ∈ l') → connected_spelling key l = connected_spelling key l'.
Proof.
  intros Hl. destruct (connected_spelling key l) as [q|] eqn:Hq.
  - destruct (connected_spelling_Some _ _ _ Hq) as [Hin Hk].
    destruct (proj2 (connected_spelling_is_Some key l')) as [q' Hq'].
    { exists q. split; [by apply Hl|done]. }
    rewrite Hq'. f_equal. destruct (connected_spelling_Some _ _ _ Hq') as [Hin' Hk'].
    apply string_lt_total.
    + eapply connected_spelling_least; [exact Hq'|by apply Hl|done].
    + eapply connected_spelling_least; [exact Hq|by apply Hl|done].
  - symmetry. apply connected_spelling_None. intros p Hp.
    rewrite connected_spelling_None in Hq. by apply Hq, Hl.
Qed.

(** ** Membership tests and prefixes *)

Lemma existsb_elem {A} (key : A → string) l k :
  existsb (λ a, bool_decide (key a = k)) l = bool_decide (k ∈ key <$> l).
Proof.
  induction l as [|a l IH]; cbn; [by rewrite bool_decide_eq_false_2 by apply not_elem_of_nil|].
  rewrite IH. symmetry. rewrite <- bool_decide_or. apply bool_decide_ext. rewrite elem_of_cons.
  naive_solver.
Qed.

Lemma btree_set_filter {A} (cmp : A → A → comparison) `{!CmpSpec cmp} (P : A → Prop) `{!∀ x, Decision (P x)} l :
  btree_set cmp (filter P l) = filter P (btree_set cmp l).
Proof.
  apply (increasing_unique cmp); [apply btree_set_increasing, _| |].
  - pose proof (btree_set_increasing cmp l) as Hi. induction Hi as [|x r Hr IH Hx]; [constructor|].
    rewrite filter_cons. case_decide; [|done]. constructor; [done|].
    apply Forall_forall. intros y [_ Hy]%list_elem_of_filter. rewrite Forall_forall in Hx. by apply Hx.
  - intros x. rewrite (elem_of_btree_set cmp), !list_elem_of_filter, (elem_of_btree_set cmp). done.
Qed.

Lemma list_filter_all {A} (P : A → Prop) `{!∀ x, Decision (P x)} (l : list A) : (∀ x, x ∈ l → P x) → filter P l = l.
Proof.
  induction l as [|x l IH]; intros Hl; [done|]. rewrite filter_cons, decide_True by (apply Hl; by left).
  f_equal. apply IH. intros. apply Hl. by right.
Qed.

Lemma list_filter_none {A} (P : A → Prop) `{!∀ x, Decision (P x)} (l : list A) : (∀ x, ¬ P x) → filter P l = [].
Proof. intros Hn. apply elem_of_nil_inv. intros x [? _]%list_elem_of_filter. by apply (Hn x). Qed.

Lemma head_lookup {A} (l : list A) : head l = l !! 0.
Proof. by destruct l. Qed.

(** A loop that [continue]s on some elements is the loop over the others. *)
Lemma foldl_skip {A B C} (P : B → Prop) `{!∀ x, Decision (P x)} (h : A → B) (f : C → A → C) (g : C → B → C) l acc :
  (∀ acc x, f acc x = if decide (P (h x)) then g acc (h x) else acc) →
  foldl f acc l = foldl g acc (filter P (h <$> l)).
Proof.
  intros Hf. revert acc. induction l as [|x l IH]; intros acc; [done|].
  rewrite fmap_cons, filter_cons. cbn [foldl]. rewrite Hf, IH. by case_decide.
Qed.

(** In an increasing list, an element is within the first [n] exactly when fewer
    than [n] elements precede it in the order. *)
Lemma elem_of_take_rank {A} (cmp : A → A → comparison) `{!CmpSpec cmp} l n x :
  increasing cmp l → x ∈ l → x ∈ take n l ↔ length (filter (λ y, cmp y x = Lt) l) < n.
Proof.
  intros Hl. revert n. induction Hl as [|y l Hl IH Hy]; intros n Hx; [by apply not_elem_of_nil in Hx|].
  rewrite Forall_forall in Hy. rewrite filter_cons. apply elem_of_cons in Hx as [->|Hx].
  - rewrite decide_False by apply (cmp_lt_irrefl cmp).
    replace (filter _ l) with (@nil A); [destruct n; cbn; [split; [by intros ?%not_elem_of_nil|lia]|split; [lia|by left]]|].
    symmetry. apply elem_of_nil_inv. intros z [Hlt Hz]%list_elem_of_filter.
    apply (cmp_lt_irrefl cmp y). eapply (cmp_trans cmp); [by apply Hy|done].
  - rewrite decide_True by auto. destruct n as [|n]; cbn; [split; [by intros ?%not_elem_of_nil|lia]|].
    rewrite elem_of_cons, IH by done. split; [|intros; right; lia].
    intros [->|]; [|lia]. exfalso. by apply (cmp_lt_irrefl cmp y), Hy.
Qed.

(** The elements after [l !! i] in the order are those after it in the list. *)
Lemma filter_greater {A} (cmp : A → A → comparison) `{!CmpSpec cmp} l i x :
  increasing cmp l → l !! i = Some x → filter (λ y, cmp y x = Gt) l = drop (S i) l.
Proof.
  intros Hl. revert i. induction Hl as [|y l Hl IH Hy]; intros i Hi; [done|].
  rewrite Forall_forall in Hy. rewrite filter_cons. destruct i as [|i]; cbn in Hi |- *.
  - injection Hi as ->. rewrite decide_False by (rewrite (cmp_gt cmp); apply (cmp_lt_irrefl cmp)).
    rewrite drop_0. apply list_filter_all. intros z Hz. apply (cmp_gt cmp). by apply Hy.
  - rewrite decide_False.
    + rewrite (IH _ Hi). done.
    + intros Hgt%(cmp_gt cmp). apply (cmp_lt_irrefl cmp y). eapply (cmp_trans cmp); [|exact Hgt].
      apply Hy. by eapply list_elem_of_lookup_2.
Qed.

(** Removing an element beyond the prefix does not change the prefix, and
    removing one inside it keeps the others. *)
Lemma take_filter_out {A} `{EqDecision A} (l : list A) n h :
  h ∉ take n l → take n (filter (λ x, x ≠ h) l) = take n l.
Proof.
  revert n. induction l as [|x l IH]; intros n Hn; [done|]. destruct n as [|n]; [done|].
  cbn in Hn. apply not_elem_of_cons in Hn as [Hx Hn]. rewrite filter_cons, decide_True by done.
  cbn. f_equal. by apply IH.
Qed.

Lemma take_filter_keep {A} `{EqDecision A} (l : list A) n h x :
  x ∈ take n l → x ≠ h → x ∈ take n (filter (λ x, x ≠ h) l).
Proof.
  revert n. induction l as [|y l IH]; intros n Hx Hne; [done|]. destruct n as [|n]; [done|].
  cbn in Hx. rewrite filter_cons. apply elem_of_cons in Hx. case_decide as Hy.
  - cbn. apply elem_of_cons. destruct Hx as [->|Hx]; [by left|right; by apply IH].
  - destruct Hx as [->|Hx]; [by destruct Hy|]. specialize (IH n Hx Hne).
    rewrite <- (take_drop n (take (S n) _)), take_take, Nat.min_l by lia. apply elem_of_app. by left.
Qed.

(** ** Sorting *)

(** [sort_by]: stable, so the first of equals stays first. *)
Fixpoint insert_by {A} (cmp : A → A → comparison) (x : A) (l : list A) : list A :=
  match l with
  | [] => [x]
  | y :: l' => match cmp x y with Gt => y :: insert_by cmp x l' | _ => x :: l end
  end.

Definition sort_by {A} (cmp : A → A → comparison) (l : list A) : list A := foldr (insert_by cmp) [] l.

Lemma insert_by_perm {A} (cmp : A → A → comparison) x l : insert_by cmp x l ≡ₚ x :: l.
Proof.
  induction l as [|y l IH]; cbn; [done|]. destruct (cmp x y); [done|done|]. rewrite IH. apply Permutation_swap.
Qed.

Lemma sort_by_perm {A} (cmp : A → A → comparison) l : sort_by cmp l ≡ₚ l.
Proof. induction l as [|x l IH]; cbn; [done|]. by rewrite insert_by_perm, IH. Qed.

Lemma sort_by_map {A B} (h : A → B) icmp cmp l :
  (∀ a b, icmp a b = cmp (h a) (h b)) → h <$> sort_by icmp l = sort_by cmp (h <$> l).
Proof.
  intros Hc. assert (Hi : ∀ x l, h <$> insert_by icmp x l = insert_by cmp (h x) (h <$> l)).
  { intros x l'. induction l' as [|y l' IH]; cbn; [done|]. rewrite Hc. destruct (cmp (h x) (h y)); cbn; [done|done|].
    by rewrite IH. }
  unfold sort_by. induction l as [|x l IH]; cbn; [done|]. by rewrite Hi, IH.
Qed.

Lemma sort_by_sorted {A} (cmp : A → A → comparison) `{!CmpSpec cmp} l :
  Sorted (λ x y, cmp x y ≠ Gt) (sort_by cmp l).
Proof.
  induction l as [|x l IH]; cbn; [constructor|]. fold (sort_by cmp l).
  induction IH as [|y s Hs IHs Hhd]; cbn; [repeat constructor|].
  destruct (cmp x y) eqn:Hxy; [constructor; [by constructor|constructor; congruence]..|].
  constructor; [done|]. apply (cmp_gt cmp) in Hxy.
  destruct s as [|z s]; cbn; [constructor; congruence|]. inversion Hhd; subst.
  destruct (cmp x z); constructor; congruence.
Qed.

(** Sorting by a total order forgets the order of the input. *)
Lemma sort_by_unique {A} (cmp : A → A → comparison) `{!CmpSpec cmp} l l' : l ≡ₚ l' → sort_by cmp l = sort_by cmp l'.
Proof.
  intros Hp. assert (Transitive (λ x y, cmp x y ≠ Gt)).
  { intros x y z Hxy Hyz. destruct (cmp x y) eqn:Exy; [apply (cmp_eq cmp) in Exy as ->; done| |done].
    destruct (cmp y z) eqn:Eyz; [apply (cmp_eq cmp) in Eyz as <-; congruence| |done]. by rewrite (cmp_trans cmp x y z). }
  assert (AntiSymm (=) (λ x y, cmp x y ≠ Gt)).
  { intros x y Hxy Hyx. rewrite (cmpspec_antisym (cmp := cmp) x y) in Hyx. apply (cmp_eq cmp). by destruct (cmp x y). }
  apply (Sorted_unique (λ x y, cmp x y ≠ Gt)); [by apply sort_by_sorted..|by rewrite !sort_by_perm].
Qed.

(** [windows(2).any(|pair| pair[0] == pair[1])]. *)
Fixpoint any_adjacent {A} (eqb : A → A → bool) (l : list A) : bool :=
  match l with
  | a :: (b :: _) as l' => eqb a b || any_adjacent eqb l'
  | _ => false
  end.

(** Sorting and comparing neighbours finds every duplicate. *)
Lemma sorted_adjacent_NoDup {A} (cmp : A → A → comparison) `{!CmpSpec cmp} (eqb : A → A → bool) l :
  (∀ x y, eqb x y = false → x ≠ y) → any_adjacent eqb (sort_by cmp l) = false → NoDup l.
Proof.
  intros Heq Hadj. rewrite <- (sort_by_perm cmp l). pose proof (sort_by_sorted cmp l) as Hs.
  apply (increasing_NoDup cmp), Sorted_StronglySorted.
  { intros x y z. apply (cmp_trans cmp). }
  induction Hs as [|x s Hs IH Hhd]; [constructor|].
  destruct s as [|y s]; [repeat constructor|]. cbn in Hadj. apply orb_false_iff in Hadj as [Hxy Hadj].
  constructor; [by apply IH|]. constructor. inversion Hhd; subst.
  destruct (cmp x y) eqn:Hc; [|done|done]. apply (cmp_eq cmp) in Hc. by apply Heq in Hxy.
Qed.

Lemma NoDup_adjacent {A} (eqb : A → A → bool) l :
  (∀ x y, eqb x y = true → x = y) → NoDup l → any_adjacent eqb l = false.
Proof.
  intros Heq. induction 1 as [|x l Hx Hnd IH]; [done|]. destruct l as [|y l]; [done|].
  cbn [any_adjacent]. apply orb_false_iff. split; [|done].
  destruct (eqb x y) eqn:Hxy; [|done]. apply Heq in Hxy as ->. destruct Hx. by left.
Qed.

Lemma any_adjacent_map {A B} (f : A → B) eqa eqb l :
  (∀ x y, x ∈ l → y ∈ l → eqa x y = eqb (f x) (f y)) → any_adjacent eqa l = any_adjacent eqb (f <$> l).
Proof.
  induction l as [|x l IH]; intros H; [done|]. destruct l as [|y l]; [done|].
  change (f <$> x :: y :: l) with (f x :: f y :: (f <$> l)). cbn [any_adjacent].
  rewrite H by (set_unfold; auto). f_equal. apply IH. intros ????. apply H; by right.
Qed.
