(* ===== verification/UpdatePolicy.v ===== *)
(** * The updater's version policy

    Models crates/myownmesh-updater/src/policy.rs: how versions are read and compared
    and which updates are applied without asking.  The comparison is shown to be a
    total preorder that agrees with the numbers of a released version, so that a chain
    of automatic updates only moves forward and stays within its policy. *)

From S2P Require Import Prelude Ranking.
From stdpp Require Import relations.
Local Open Scope Z_scope.

Inductive ApplyPolicy : Type := Patch | Minor | All | NoUpdate.

#[export] Instance apply_policy_eq_dec : EqDecision ApplyPolicy.
Proof. solve_decision. Defined.

Definition parse_policy (s : string) : option ApplyPolicy :=
  if String.eqb s "patch" then Some Patch
  else if String.eqb s "minor" then Some Minor
  else if String.eqb s "all" then Some All
  else if String.eqb s "none" then Some NoUpdate
  else None.

(** ** Reading a version *)
(** [str::split_once]: at the first occurrence. *)
Fixpoint split_once (c : Ascii.ascii) (s : string) : option (string * string) :=
  match s with
  | EmptyString => None
  | String a r =>
      if Ascii.eqb a c then Some (EmptyString, r)
      else match split_once c r with Some (x, y) => Some (String a x, y) | None => None end
  end.

(** [str::split]: the pieces between the occurrences, at least one. *)
Fixpoint split (c : Ascii.ascii) (s : string) : list string :=
  match s with
  | EmptyString => [EmptyString]
  | String a r =>
      if Ascii.eqb a c then EmptyString :: split c r
      else match split c r with p :: ps => String a p :: ps | [] => [String a EmptyString] end
  end.

Definition digit (a : Ascii.ascii) : option Z :=
  let n := Z.of_N (Ascii.N_of_ascii a) in if (48 <=? n) && (n <=? 57) then Some (n - 48) else None.

Fixpoint parse_digits (s : string) (acc : Z) : option Z :=
  match s with
  | EmptyString => Some acc
  | String a r =>
      d ← digit a;
      next ← checked_mul u32_max acc 10;
      next ← checked_add u32_max next d;
      parse_digits r next
  end.

Definition plus_sign : Ascii.ascii := Ascii.ascii_of_nat 43.

(** [str::parse] at [u32]: digits, after an optional plus sign. *)
Definition parse_u32 (s : string) : option Z :=
  match s with
  | EmptyString => None
  | String a r =>
      if Ascii.eqb a plus_sign then match r with EmptyString => None | _ => parse_digits r 0 end
      else parse_digits s 0
  end.

Definition split_prerelease (v : string) : string * string :=
  match split_once dash v with Some (core, pre) => (core, pre) | None => (v, EmptyString) end.

Definition dot : Ascii.ascii := Ascii.ascii_of_nat 46.

(** A piece that is missing or does not parse counts as zero. *)
Definition parse_core (core : string) : Z * (Z * Z) :=
  let parts := take 3 (split dot core) in
  let part i := default 0 (p ← parts !! i; parse_u32 p) in
  (part 0%nat, (part 1%nat, part 2%nat)).

(** ** Comparing versions *)
Definition parts_cmp : Z * (Z * Z) → Z * (Z * Z) → comparison := pair_cmp Z.compare (pair_cmp Z.compare Z.compare).

Definition is_empty (s : string) : bool := match s with EmptyString => true | _ => false end.

Definition compare_semver (a b : string) : comparison :=
  let '(a_core, a_pre) := split_prerelease a in
  let '(b_core, b_pre) := split_prerelease b in
  match parts_cmp (parse_core a_core) (parse_core b_core) with
  | Eq =>
      match is_empty a_pre, is_empty b_pre with
      | true, false => Gt
      | false, true => Lt
      | _, _ => String.compare a_pre b_pre
      end
  | other => other
  end.

Definition policy_allows (policy : ApplyPolicy) (current candidate : string) : bool :=
  match compare_semver candidate current with
  | Gt =>
      let '(cur_maj, (cur_min, _)) := parse_core (split_prerelease current).1 in
      let '(cand_maj, (cand_min, _)) := parse_core (split_prerelease candidate).1 in
      match policy with
      | NoUpdate => false
      | Patch => (cur_maj =? cand_maj) && (cur_min =? cand_min)
      | Minor => cur_maj =? cand_maj
      | All => true
      end
  | _ => false
  end.

(** ** The comparison is that of a key *)
Definition pre_cmp (a b : string) : comparison :=
  match is_empty a, is_empty b with true, false => Gt | false, true => Lt | _, _ => String.compare a b end.

#[export] Instance pre_cmp_spec : CmpSpec pre_cmp.
Proof.
  unfold pre_cmp. split.
  - intros [|a x] [|b y]; cbn [is_empty]; try done; apply (cmp_eq String.compare).
  - intros [|a x] [|b y]; cbn [is_empty]; try done. apply cmpspec_antisym.
  - intros [|a x] [|b y] [|c z]; cbn [is_empty]; try done. apply (cmp_trans String.compare).
Qed.

Definition version_key (v : string) : (Z * (Z * Z)) * string :=
  (parse_core (split_prerelease v).1, (split_prerelease v).2).

Definition version_key_cmp : (Z * (Z * Z)) * string → (Z * (Z * Z)) * string → comparison := pair_cmp parts_cmp pre_cmp.

#[export] Instance version_key_cmp_spec : CmpSpec version_key_cmp.
Proof. unfold version_key_cmp, parts_cmp. apply _. Qed.

Lemma compare_semver_key a b : compare_semver a b = version_key_cmp (version_key a) (version_key b).
Proof. unfold compare_semver, version_key_cmp, version_key, pair_cmp at 1, pre_cmp. by destruct (split_prerelease a), (split_prerelease b). Qed.

(** ** Automatic updates move forward *)
Lemma policy_allows_iff policy current candidate :
  policy_allows policy current candidate = true ↔
  compare_semver candidate current = Gt ∧ policy ≠ NoUpdate ∧
  let core v := parse_core (split_prerelease v).1 in
  (policy = Patch ∨ policy = Minor → (core candidate).1 = (core current).1) ∧
  (policy = Patch → (core candidate).2.1 = (core current).2.1).
Proof.
  unfold policy_allows. destruct (compare_semver candidate current); [split; [done|by intros []]..|].
  destruct (parse_core (split_prerelease current).1) as (M & m & p), (parse_core (split_prerelease candidate).1) as (M' & m' & p'). cbn.
  destruct policy; z_norm; intuition (try done; try congruence; try lia).
Qed.

Definition updates (policy : ApplyPolicy) (current candidate : string) : Prop := policy_allows policy current candidate = true.

(** C33: However many updates are applied one after the other without asking, the version at
    the end is newer than the one at the start, so no chain comes back; under [Patch] the
    first two numbers never move and under [Minor] the first does not; with updates
    disabled there is no chain. *)
Theorem automatic_updates_move_forward policy v w :
  tc (updates policy) v w →
  compare_semver w v = Gt ∧ v ≠ w ∧ policy ≠ NoUpdate ∧
  let core v := parse_core (split_prerelease v).1 in
  (policy = Patch ∨ policy = Minor → (core w).1 = (core v).1) ∧
  (policy = Patch → (core w).2.1 = (core v).2.1).
Proof.
  intros H. enough (compare_semver w v = Gt ∧ policy ≠ NoUpdate ∧
    let core v := parse_core (split_prerelease v).1 in
    (policy = Patch ∨ policy = Minor → (core w).1 = (core v).1) ∧ (policy = Patch → (core w).2.1 = (core v).2.1)) as (Hgt & Hrest).
  { split; [done|]. split; [|done]. intros ->. by rewrite compare_semver_key, (cmp_refl version_key_cmp) in Hgt. }
  induction H as [v w H|v u w H _ (IH1 & IH2 & IH3 & IH4)]; [by apply policy_allows_iff|].
  apply policy_allows_iff in H as (H1 & H2 & H3 & H4). cbn in *. split.
  - rewrite compare_semver_key, (cmp_gt version_key_cmp) in *. by eapply (cmp_trans version_key_cmp).
  - split; [done|]. split; intros Hp; [rewrite IH3, H3 by done|rewrite IH4, H4 by done]; done.
Qed.

(** ** Released versions compare by their numbers *)
Fixpoint decimal (s : string) (acc : Z) : option Z :=
  match s with
  | EmptyString => Some acc
  | String a r => d ← digit a; decimal r (acc * 10 + d)
  end.

(** A number as a release spells it: digits, at least one, of a value that fits. *)
Definition spells (s : string) (n : Z) : Prop := s ≠ EmptyString ∧ decimal s 0 = Some n ∧ n ≤ u32_max.

Lemma digit_bounds a d : digit a = Some d → 0 ≤ d ≤ 9.
Proof. unfold digit. intros H. case_match; simplify_eq. lia. Qed.

Lemma decimal_grows s acc n : 0 ≤ acc → decimal s acc = Some n → acc ≤ n.
Proof.
  revert acc. induction s as [|a r IH]; cbn; intros acc Ha H; [by simplify_eq|]. destruct (digit a) as [d|] eqn:Hd; [|done].
  apply digit_bounds in Hd. apply IH in H; cbn in *; lia.
Qed.

Lemma parse_digits_decimal s acc n : 0 ≤ acc → decimal s acc = Some n → n ≤ u32_max → parse_digits s acc = Some n.
Proof.
  revert acc. induction s as [|a r IH]; cbn; intros acc Ha H Hn; [done|]. destruct (digit a) as [d|] eqn:Hd; [|done]. cbn in *.
  pose proof (digit_bounds _ _ Hd). assert (acc * 10 + d ≤ n) by (apply (decimal_grows r); [lia|done]).
  rewrite (proj2 (checked_mul_Some u32_max acc 10 (acc * 10))) by lia. cbn.
  rewrite (proj2 (checked_add_Some u32_max (acc * 10) d (acc * 10 + d))) by lia. cbn. apply IH; [lia|done|done].
Qed.

(** A digit is neither of the separators nor a sign. *)
Lemma digit_plain a : is_Some (digit a) → Ascii.eqb a plus_sign = false ∧ Ascii.eqb a dash = false ∧ Ascii.eqb a dot = false.
Proof.
  intros [d Hd]. assert (∀ c, digit c = None → Ascii.eqb a c = false) as H.
  { intros c Hc. destruct (Ascii.eqb_spec a c); [congruence|done]. }
  split; [|split]; by apply H.
Qed.

Lemma decimal_cons a r acc n : decimal (String a r) acc = Some n → is_Some (digit a) ∧ ∃ acc', decimal r acc' = Some n.
Proof. cbn. destruct (digit a) eqn:Hd; [|done]. cbn. intros H. split; eauto. Qed.

Lemma parse_spelled s n : spells s n → parse_u32 s = Some n.
Proof.
  intros (Hne & Hs & Hn). destruct s as [|a r]; [done|]. destruct (digit_plain a) as (Hp & _); [by eapply decimal_cons|].
  unfold parse_u32. rewrite Hp. by apply parse_digits_decimal.
Qed.

Lemma split_spelled s acc n rest : decimal s acc = Some n → split dot (s ++ String dot rest)%string = s :: split dot rest.
Proof.
  revert acc. induction s as [|a r IH]; intros acc H; [done|]. apply decimal_cons in H as [(_ & _ & Ha)%digit_plain [acc' H]].
  change (String a r +:+ ?t) with (String a (r +:+ t)). cbn [split]. rewrite Ha. by rewrite (IH _ H).
Qed.

Lemma split_last s acc n : decimal s acc = Some n → split dot s = [s].
Proof.
  revert acc. induction s as [|a r IH]; intros acc H; [done|]. apply decimal_cons in H as [(_ & _ & Ha)%digit_plain [acc' H]].
  cbn [split]. rewrite Ha. by rewrite (IH _ H).
Qed.

Lemma no_dash_spelled s acc n rest : decimal s acc = Some n → split_once dash (s ++ rest)%string =
  match split_once dash rest with Some (x, y) => Some ((s ++ x)%string, y) | None => None end.
Proof.
  revert acc. induction s as [|a r IH]; intros acc H; [change (EmptyString +:+ ?t) with t; by destruct (split_once dash rest) as [[]|]|].
  apply decimal_cons in H as [(_ & Ha & _)%digit_plain [acc' H]]. change (String a r +:+ ?t) with (String a (r +:+ t)). cbn [split_once]. rewrite Ha, (IH _ H).
  by destruct (split_once dash rest) as [[]|].
Qed.

Lemma append_empty (s : string) : (s ++ EmptyString)%string = s.
Proof. induction s as [|a s IH]; [done|]. change (String a s +:+ ?t) with (String a (s +:+ t)). by rewrite IH. Qed.

(** [a.b.c], and [a.b.c-pre] for a pre-release. *)
Definition version_text (a b c pre : string) : string :=
  (a ++ String dot (b ++ String dot (c ++ match pre with EmptyString => EmptyString | _ => String dash pre end)))%string.

Lemma version_key_text a b c pre M m p :
  spells a M → spells b m → spells c p → version_key (version_text a b c pre) = ((M, (m, p)), pre).
Proof.
  intros Ha Hb Hc. pose proof Ha as (_ & Ha' & _). pose proof Hb as (_ & Hb' & _). pose proof Hc as (_ & Hc' & _).
  assert (parse_core (a ++ String dot (b ++ String dot c))%string = (M, (m, p))) as Hcore.
  { unfold parse_core. rewrite (split_spelled _ _ _ _ Ha'), (split_spelled _ _ _ _ Hb'), (split_last _ _ _ Hc'). cbn [take lookup list_lookup mbind option_bind default from_option].
    by rewrite (parse_spelled _ _ Ha), (parse_spelled _ _ Hb), (parse_spelled _ _ Hc). }
  assert (∀ rest, split_once dash (String dot rest) = match split_once dash rest with Some (x, y) => Some (String dot x, y) | None => None end) as Hdot by done.
  assert (split_prerelease (version_text a b c pre) = ((a ++ String dot (b ++ String dot c))%string, pre)) as Hsplit.
  { unfold split_prerelease, version_text. rewrite (no_dash_spelled _ _ _ _ Ha'), Hdot, (no_dash_spelled _ _ _ _ Hb'), Hdot, (no_dash_spelled _ _ _ _ Hc').
    destruct pre as [|x pre]; cbn [split_once].
    - by rewrite append_empty.
    - rewrite Ascii.eqb_refl. by rewrite append_empty. }
  unfold version_key. by rewrite Hsplit, <- Hcore.
Qed.

(** Versions as releases spell them compare by their three numbers, whatever their
    number of digits, then a release after its pre-releases, then the pre-releases as
    text. *)
Theorem versions_compare_numerically a b c pre a' b' c' pre' M m p M' m' p' :
  spells a M → spells b m → spells c p → spells a' M' → spells b' m' → spells c' p' →
  compare_semver (version_text a b c pre) (version_text a' b' c' pre') =
  then_with (Z.compare M M') (then_with (Z.compare m m') (then_with (Z.compare p p') (pre_cmp pre pre'))).
Proof.
  intros. rewrite compare_semver_key, (version_key_text a b c pre M m p), (version_key_text a' b' c' pre' M' m' p') by done.
  unfold version_key_cmp, parts_cmp, pair_cmp, then_with. cbn [fst snd]. by destruct (Z.compare M M'), (Z.compare m m'), (Z.compare p p').
Qed.

(** ** Instances *)
Lemma automatic_updates_move_forward_witness : compare_semver "1.10.0" "1.9.4" = Gt ∧ updates Minor "1.9.4" "1.9.12".
Proof.
  split; [|reflexivity].
  refine (proj1 (automatic_updates_move_forward Minor "1.9.4" "1.10.0" _)).
  apply (tc_l _ _ "1.9.12"); [reflexivity|by apply tc_once].
Defined.

Lemma versions_compare_numerically_witness : compare_semver "1.10.0" "1.9.4-rc1" = Gt.
Proof.
  refine (versions_compare_numerically "1" "10" "0" "" "1" "9" "4" "rc1" 1 10 0 1 9 4 _ _ _ _ _ _); (split; [done|]; split; [reflexivity|]; vm_compute; done).
Defined.
