(* ===== verification/PathPlanner.v ===== *)
(** * Candidate paths

    Models [WebRtcCandidatePathPlanner] of crates/myownmesh-core/src/transport/webrtc/
    policy.rs with the ranking of candidate paths of transport/ice.rs: which of the
    admitted paths are tried, in which order and how many at once, until one works or
    none is left. *)

From S2P Require Import Prelude Ranking.
From stdpp Require Import relations sorting.
Local Open Scope nat_scope.

Inductive IceCandidateKind : Type := Host | ServerReflexive | PeerReflexive | Relay | Unknown.

Record IceCandidatePath : Type := mkPath { path_id : Z; path_local : IceCandidateKind; path_remote : IceCandidateKind; priority : Z }.

Definition candidate_path_preference (l r : IceCandidateKind) : Z :=
  match l, r with
  | Host, Host => 5
  | Host, ServerReflexive | ServerReflexive, Host | ServerReflexive, ServerReflexive => 4
  | PeerReflexive, Host | Host, PeerReflexive | PeerReflexive, ServerReflexive
  | ServerReflexive, PeerReflexive | PeerReflexive, PeerReflexive => 3
  | Relay, _ | _, Relay => 2
  | _, _ => 1
  end.

Definition path_cmp (l r : IceCandidatePath) : comparison :=
  then_with (Z.compare (priority r) (priority l))
    (then_with (Z.compare (candidate_path_preference (path_local r) (path_remote r)) (candidate_path_preference (path_local l) (path_remote l)))
      (Z.compare (path_id l) (path_id r))).

(** [sort_unstable_by]; paths that compare equal have the same identity. *)
Definition rank_candidate_paths (paths : list IceCandidatePath) : list IceCandidatePath := sort_by path_cmp paths.

Inductive PathPolicyError : Type := EmptyPathSet | AdmissionCapacityExceeded | DuplicatePathId | PathNotInFlight | Terminal.

Inductive PathDecision : Type := Continue | Selected (id : Z) | Exhausted.

Record Planner : Type := mkPlanner {
  paths : list IceCandidatePath;
  next_path : nat;
  active : list Z;
  failed : list Z;
  winner : option Z;
  max_parallel_paths : nat;
}.

Definition ids (l : list IceCandidatePath) : list Z := path_id <$> l.

(** [ids.insert] answers false for an identity seen before. *)
Fixpoint has_duplicate (seen : gset Z) (l : list Z) : bool :=
  match l with
  | [] => false
  | id :: l => if decide (id ∈ seen) then true else has_duplicate ({[id]} ∪ seen) l
  end.

Definition planner_new (ps : list IceCandidatePath) (max_admitted max_parallel : nat) : result PathPolicyError Planner :=
  if bool_decide (ps = []) then Err EmptyPathSet
  else if max_admitted <? length ps then Err AdmissionCapacityExceeded
  else if has_duplicate ∅ (ids ps) then Err DuplicatePathId
  else Ok (mkPlanner (rank_candidate_paths ps) 0 [] [] None max_parallel).

(** The loop starts at most [capacity] paths, one a round. *)
Fixpoint start_loop (capacity : nat) (p : Planner) (started : list Z) : Planner * list Z :=
  match capacity with
  | 0 => (p, started)
  | S capacity =>
      match paths p !! next_path p with
      | None => (p, started)
      | Some path =>
          start_loop capacity (mkPlanner (paths p) (S (next_path p)) (active p ++ [path_id path]) (failed p) (winner p) (max_parallel_paths p))
            (started ++ [path_id path])
      end
  end.

Definition start_parallel_paths (p : Planner) : Planner * list Z :=
  match winner p with
  | Some _ => (p, [])
  | None => start_loop (max_parallel_paths p - length (active p)) p []
  end.

(** [position] and [remove]: the first occurrence goes. *)
Fixpoint remove_first (id : Z) (l : list Z) : option (list Z) :=
  match l with
  | [] => None
  | x :: l => if decide (x = id) then Some l else cons x <$> remove_first id l
  end.

Definition observe (id : Z) (succeeded : bool) : op Planner PathPolicyError PathDecision := λ p,
  match winner p with
  | Some _ => (p, Err Terminal)
  | None =>
      match remove_first id (active p) with
      | None => (p, Err PathNotInFlight)
      | Some rest =>
          if succeeded then (mkPlanner (paths p) (next_path p) [] (failed p) (Some id) (max_parallel_paths p), Ok (Selected id))
          else
            (mkPlanner (paths p) (next_path p) rest (failed p ++ [id]) None (max_parallel_paths p),
             Ok (if bool_decide (rest = []) && (next_path p =? length (paths p)) then Exhausted else Continue))
      end
  end.

(** ** Runs: the planner and every path started so far, in order *)
Inductive run_step : Planner * list Z → Planner * list Z → Prop :=
| run_start p log p' started : start_parallel_paths p = (p', started) → run_step (p, log) (p', log ++ started)
| run_observe p log id b p' r : observe id b p = (p', r) → run_step (p, log) (p', log).

(** ** The ranking does not depend on the order of the candidates *)
Definition path_key (p : IceCandidatePath) : Z * (Z * Z) :=
  ((- priority p)%Z, ((- candidate_path_preference (path_local p) (path_remote p))%Z, path_id p)).

Definition path_key_cmp : Z * (Z * Z) → Z * (Z * Z) → comparison := pair_cmp Z.compare (pair_cmp Z.compare Z.compare).

Lemma path_cmp_key l r : path_cmp l r = path_key_cmp (path_key l) (path_key r).
Proof.
  assert (∀ x y, Z.compare (- x) (- y) = Z.compare y x) as Hopp by (intros x y; apply Z.compare_opp).
  unfold path_cmp, path_key_cmp, pair_cmp, then_with, path_key. cbn [fst snd]. rewrite !Hopp.
  destruct (Z.compare (priority r) (priority l)); [|done..]. by case_match.
Qed.

#[local] Instance path_key_cmp_spec : CmpSpec path_key_cmp.
Proof. unfold path_key_cmp. apply _. Qed.


Lemma ranked_ids l l' : l ≡ₚ l' → ids (rank_candidate_paths l) = ids (rank_candidate_paths l').
Proof.
  intros Hp. assert (∀ l, ids (rank_candidate_paths l) = (λ k, k.2.2) <$> sort_by path_key_cmp (path_key <$> l)) as Hk.
  { intros l0. unfold ids, rank_candidate_paths. rewrite <- (sort_by_map path_key path_cmp path_key_cmp l0 path_cmp_key), <- list_fmap_compose. done. }
  rewrite !Hk. f_equal. apply (sort_by_unique path_key_cmp). by rewrite Hp.
Qed.

Lemma has_duplicate_false seen l : has_duplicate seen l = false ↔ NoDup l ∧ ∀ x, x ∈ l → x ∉ seen.
Proof.
  revert seen. induction l as [|x l IH]; intros seen; cbn; [split; [split; [constructor|set_solver]|done]|].
  destruct (decide (x ∈ seen)); [split; [done|intros [_ H]; exfalso; by apply (H x); [left|]]|]. rewrite IH, NoDup_cons. set_solver.
Qed.

(** ** The invariant of a run *)
Lemma start_loop_spec c p s :
  let xs := take c (drop (next_path p) (ids (paths p))) in
  start_loop c p s = (mkPlanner (paths p) (next_path p + length xs) (active p ++ xs) (failed p) (winner p) (max_parallel_paths p), s ++ xs).
Proof.
  revert p s. induction c as [|c IH]; intros p s; cbn.
  { rewrite !app_nil_r, Nat.add_0_r. by destruct p. }
  destruct (paths p !! next_path p) as [x|] eqn:Hx.
  - rewrite IH. cbn [paths next_path active failed winner max_parallel_paths].
    rewrite (drop_S (ids (paths p)) (path_id x) (next_path p)) by (unfold ids; by rewrite list_lookup_fmap, Hx).
    cbn [take]. rewrite <- !app_assoc, Nat.add_succ_comm. done.
  - rewrite drop_ge by (unfold ids; rewrite length_fmap; by apply lookup_ge_None). cbn. rewrite !app_nil_r, Nat.add_0_r. by destruct p.
Qed.

Lemma remove_first_Some id l rest : remove_first id l = Some rest → l ≡ₚ id :: rest.
Proof.
  revert rest. induction l as [|x l IH]; intros rest; cbn; [done|]. destruct (decide (x = id)) as [->|]; [by intros [= ->]|].
  intros (r & Hr & ->)%fmap_Some. rewrite (IH r Hr). apply Permutation_swap.
Qed.

Record planned (all : list Z) (n : nat) (p : Planner) (log : list Z) : Prop := {
  planned_paths : ids (paths p) = all;
  planned_max : max_parallel_paths p = n;
  planned_log : log = take (next_path p) all;
  planned_next : next_path p ≤ length all;
  planned_active : length (active p) ≤ n;
  planned_split : match winner p with
                  | None => active p ++ failed p ≡ₚ log
                  | Some w => active p = [] ∧ w ∈ log ∧ w ∉ failed p
                  end;
}.

Lemma start_planned all n p log p' started :
  planned all n p log → start_parallel_paths p = (p', started) → planned all n p' (log ++ started).
Proof.
  intros [Hp Hm Hl Hn Ha Hs] H. unfold start_parallel_paths in H. destruct (winner p) as [w|] eqn:Hw.
  { injection H as <- <-. rewrite app_nil_r. split; try done. by rewrite Hw. }
  rewrite start_loop_spec, Hp in H. set (xs := take _ _) in H. injection H as <- <-. cbn [app].
  assert (length xs ≤ length all - next_path p) as Hxs by (unfold xs; rewrite length_take, length_drop; lia).
  assert (log ++ xs = take (next_path p + length xs) all) as Hlog.
  { rewrite Hl, <- (take_take_drop all (next_path p) (length xs)). f_equal. unfold xs. rewrite length_take, Nat.min_comm, <- take_take.
    symmetry. apply take_ge. rewrite length_take. lia. }
  split; cbn; try done; [lia| |].
  - rewrite length_app. unfold xs. rewrite length_take. lia.
  - rewrite Hw. rewrite <- Hs. solve_Permutation.
Qed.

Lemma observe_planned all n p log id b p' r :
  NoDup all → planned all n p log → observe id b p = (p', r) → planned all n p' log ∧
  (r = Ok Exhausted → failed p' ≡ₚ all) ∧
  (∀ w, r = Ok (Selected w) → w = id ∧ b = true ∧ winner p' = Some id ∧ id ∈ active p).
Proof.
  intros Hnd Hpl H. pose proof Hpl as [Hp Hm Hl Hn Ha Hs]. unfold observe in H. destruct (winner p) as [w|] eqn:Hw; [by simplify_eq|].
  destruct (remove_first id (active p)) as [rest|] eqn:Hr; [|by simplify_eq]. apply remove_first_Some in Hr.
  assert (NoDup log) as Hndl by (rewrite Hl; eapply sublist_NoDup; [done|apply sublist_take]).
  assert (id ∈ active p) as Hin by (rewrite Hr; by left).
  destruct b; injection H as <- <-; cbn.
  - split; [|by split; [|intros w [= <-]]]. split; cbn; try done; [lia|]. split; [done|].
    rewrite <- Hs in Hndl. apply NoDup_app in Hndl as (_ & Hdis & _). split; [rewrite <- Hs; apply elem_of_app; by left|by apply Hdis].
  - assert (rest ++ failed p ++ [id] ≡ₚ log) as Hs' by (rewrite <- Hs, Hr; solve_Permutation).
    split; [split; cbn; try done; apply Permutation_length in Hr; cbn in Hr; lia|]. split.
    + intros He. case_bool_decide as Hnil; [|done]. destruct (Nat.eqb_spec (next_path p) (length (paths p))) as [Hlast|]; [|done].
      rewrite Hnil in Hs'. cbn in Hs'. rewrite Hs', Hl, take_ge; [done|]. rewrite <- Hp. unfold ids. rewrite length_fmap. lia.
    + intros w Hw'. by case_match.
Qed.

Lemma run_planned all n s s' : NoDup all → rtc run_step s s' → planned all n s.1 s.2 → planned all n s'.1 s'.2.
Proof.
  intros Hnd Hr. induction Hr as [|s1 s2 s3 Hs _ IH]; [done|]. intros H. apply IH. destruct Hs as [p log p' started Hst|p log id b p' r Ho]; cbn in *.
  - by eapply start_planned.
  - by eapply observe_planned.
Qed.

Lemma new_planned ps k n p :
  planner_new ps k n = Ok p → NoDup (ids (rank_candidate_paths ps)) ∧ length ps ≤ k ∧ ps ≠ [] ∧ planned (ids (rank_candidate_paths ps)) n p [].
Proof.
  unfold planner_new. case_bool_decide; [done|]. destruct (Nat.ltb_spec k (length ps)); [done|].
  destruct (has_duplicate ∅ (ids ps)) eqn:Hd; [done|]. intros [= <-]. apply has_duplicate_false in Hd as [Hnd _].
  split; [unfold ids, rank_candidate_paths in *; by rewrite sort_by_perm|]. split; [done|]. split; [done|]. split; cbn; try done; lia.
Qed.

(** C31: In every run of a planner the paths started are the best ranked ones, in ranked
    order and each once, no more than the caller's bound are in flight, and as long as
    none was selected the ones started are exactly those in flight and those that
    failed; while some admitted path has neither been selected nor failed, one is in
    flight or the next call starts one; [Exhausted] is answered only when all failed. *)
Theorem planner_tries_every_path_once ps k n p0 p log :
  planner_new ps k n = Ok p0 → 0 < n → rtc run_step (p0, []) (p, log) →
  log = take (length log) (ids (rank_candidate_paths ps)) ∧ NoDup log ∧ length (active p) ≤ n ∧
  (winner p = None → active p ++ failed p ≡ₚ log) ∧
  (winner p = None → (∀ id, id ∈ ids ps → id ∈ failed p) ∨ active p ≠ [] ∨ (start_parallel_paths p).2 ≠ []) ∧
  (∀ id b, (observe id b p).2 = Ok Exhausted → failed (observe id b p).1 ≡ₚ ids ps).
Proof.
  intros Hnew Hn Hr. destruct (new_planned _ _ _ _ Hnew) as (Hnd & _ & _ & H0).
  pose proof (run_planned _ _ _ _ Hnd Hr H0) as Hpl. cbn in Hpl. pose proof Hpl as [Hp Hm Hl Hnx Ha Hs].
  assert (ids (rank_candidate_paths ps) ≡ₚ ids ps) as Hperm by (unfold ids, rank_candidate_paths; by rewrite sort_by_perm).
  set (all := ids (rank_candidate_paths ps)) in *.
  split; [rewrite Hl at 2; rewrite Hl, length_take, Nat.min_l by lia; done|]. split; [rewrite Hl; eapply sublist_NoDup; [done|apply sublist_take]|].
  split; [done|]. split; [intros Hw; by rewrite Hw in Hs|]. split.
  - intros Hw. rewrite Hw in Hs. destruct (decide (active p = [])) as [Hnil|]; [|auto]. rewrite Hnil in Hs. cbn in Hs.
    destruct (decide (next_path p = length all)) as [Hlast|Hlast].
    + left. intros id Hid. rewrite Hs, Hl, take_ge by lia. by rewrite Hperm.
    + right. right. unfold start_parallel_paths. rewrite Hw, start_loop_spec, Hp, Hm, Hnil. cbn [snd app length]. intros He.
      apply (f_equal length) in He. rewrite length_take, length_drop in He. cbn in He. lia.
  - intros id b He. destruct (observe id b p) as [p' r] eqn:Ho. cbn in *. rewrite <- Hperm. by eapply (observe_planned all n p log id b p' r).
Qed.

(** The order in which the paths are offered to the planner does not matter. *)
Theorem planner_ignores_candidate_order ps ps' k n p p' :
  ps ≡ₚ ps' → planner_new ps k n = Ok p → planner_new ps' k n = Ok p' →
  ids (paths p) = ids (paths p') ∧ (start_parallel_paths p).2 = (start_parallel_paths p').2.
Proof.
  intros Hps H H'. assert (∀ ps p, planner_new ps k n = Ok p → p = mkPlanner (rank_candidate_paths ps) 0 [] [] None n) as Hnew.
  { intros ps0 p1. unfold planner_new. repeat (case_match; try done). by intros [= <-]. }
  rewrite (Hnew _ _ H), (Hnew _ _ H'). cbn [paths]. rewrite (ranked_ids _ _ Hps). split; [done|].
  unfold start_parallel_paths. cbn [winner]. rewrite !start_loop_spec. cbn [snd paths next_path active max_parallel_paths].
  by rewrite (ranked_ids _ _ Hps).
Qed.

(** ** Instances *)
Definition demo_paths : list IceCandidatePath := [mkPath 9 Relay Relay 100; mkPath 2 Host Host 100; mkPath 1 ServerReflexive Host 200].

Definition demo_planner : Planner := mkPlanner (rank_candidate_paths demo_paths) 0 [] [] None 2.

Lemma planner_tries_every_path_once_witness :
  let p := (start_parallel_paths demo_planner).1 in
  length (active p) ≤ 2 ∧ active p = [1%Z; 2%Z].
Proof.
  split; [|reflexivity].
  refine (proj1 (proj2 (proj2 (planner_tries_every_path_once demo_paths 3 2 demo_planner _ [1%Z; 2%Z] _ _ _)))); [reflexivity|lia|].
  apply rtc_once. apply (run_start demo_planner []). reflexivity.
Defined.

Lemma planner_ignores_candidate_order_witness :
  ids (rank_candidate_paths demo_paths) = ids (rank_candidate_paths (reverse demo_paths)).
Proof.
  refine (proj1 (planner_ignores_candidate_order demo_paths (reverse demo_paths) 3 2 demo_planner
    (mkPlanner (rank_candidate_paths (reverse demo_paths)) 0 [] [] None 2) _ _ _)); [by rewrite reverse_Permutation|reflexivity|reflexivity].
Defined.
