(* ===== verification/OrderedMap.v ===== *)
(** * The ordered-map interface

    What the owners of a [LeasedMap] (crates/myownmesh-core/src/resource/map.rs)
    rely on: the operations they call, and their laws over the ordered list of
    entries.  LeasedMap.v discharges it for the treap; clients such as Parenting.v
    are verified against it. *)

From S2P Require Import Prelude Ranking.
Local Open Scope nat_scope.

(** [L] is the lease that funds an entry.  [om_insert] is [None] when the key is
    refused; [om_write] is what the borrow of [get_mut] writes. *)
Class OrderedMap (K V L M : Type) : Type := {
  om_new : M;
  om_get : M → K → option V;
  om_insert : M → K → V → L → option M;
  om_remove : M → K → M * option V;
  om_write : M → K → (V → V) → M;
  om_successor : M → option K → option (K * V);
}.

(** The entries after a cursor. *)
Definition after_key {K V} (cmp : K → K → comparison) (after : option K) (e : K * V) : Prop :=
  match after with Some k => cmp e.1 k = Gt | None => True end.
#[export] Instance after_key_dec {K V} cmp after (e : K * V) : Decision (after_key cmp after e).
Proof. unfold after_key. destruct after; apply _. Defined.

(** [om_room]: one more entry can be counted. *)
Class OrderedMapLaws {K V L M} (cmp : K → K → comparison) `{OrderedMap K V L M} : Type := {
  om_ok : M → Prop;
  om_room : M → Prop;
  om_list : M → list (K * V);
  law_new : om_ok om_new ∧ om_list om_new = [];
  law_room m m' : om_room m → om_ok m' → length (om_list m') ≤ length (om_list m) → om_ok m → om_room m';
  law_sorted m : om_ok m → increasing cmp (fst <$> om_list m);
  law_get m k v : om_ok m → om_get m k = Some v ↔ (k, v) ∈ om_list m;
  law_insert m k v e :
    om_ok m → om_room m → om_get m k = None →
    ∃ m', om_insert m k v e = Some m' ∧ om_ok m' ∧ om_list m' ≡ₚ (k, v) :: om_list m;
  law_insert_present m k v w e : om_ok m → om_get m k = Some w → om_insert m k v e = None;
  law_remove m k v :
    om_ok m → om_get m k = Some v →
    ∃ m', om_remove m k = (m', Some v) ∧ om_ok m' ∧ om_list m ≡ₚ (k, v) :: om_list m';
  law_remove_absent m k : om_ok m → om_get m k = None → om_remove m k = (m, None);
  law_write m k v f :
    om_ok m → om_get m k = Some v →
    ∃ rest, om_ok (om_write m k f) ∧ om_list m ≡ₚ (k, v) :: rest ∧ om_list (om_write m k f) ≡ₚ (k, f v) :: rest;
  law_successor m after : om_ok m → om_successor m after = head (filter (after_key cmp after) (om_list m));
}.
