(* ===== verification/LeasedMap.v ===== *)
(** * The leased ordered map

    Models crates/myownmesh-core/src/resource/map.rs, a treap whose every node
    owns the lease that funds it.  The key's hash is a parameter ([priority]);
    leases are opaque tokens, and an operation that returns or drops a node says
    which.  [None] as the result of an operation stands for a reached [expect];
    the theorems show that none is. *)

From S2P Require Import Prelude Ranking OrderedMap.
Local Open Scope nat_scope.

Section leased_map.
Context {K V L : Type} (cmp : K → K → comparison) `{!CmpSpec cmp}.
Context (priority : K → Z) (len_max : nat).

(** [FundedNode]: the boxed node without its links, and the lease beside it. *)
Record LeasedMapNode : Type := mkNode {
  node_key : K;
  node_value : V;
  node_priority : Z;
  node_entry : L;
}.

Inductive tree : Type :=
| Leaf
| Node (left : tree) (n : LeasedMapNode) (right : tree).

Definition into_entry (n : LeasedMapNode) : K * V := (node_key n, node_value n).

Definition outranks (child : tree) (p : Z) : bool :=
  match child with Leaf => false | Node _ c _ => (p <? node_priority c)%Z end.

Definition rotate_right (t : tree) : option tree :=
  match t with
  | Node (Node pl pivot pr) n r => Some (Node pl pivot (Node pr n r))
  | _ => None
  end.

Definition rotate_left (t : tree) : option tree :=
  match t with
  | Node l n (Node pl pivot pr) => Some (Node (Node l n pl) pivot pr)
  | _ => None
  end.

(** The subtree after the attempt, and the node handed back when its key is
    already present. *)
Fixpoint insert_node (slot : tree) (node : LeasedMapNode) : option (tree * option LeasedMapNode) :=
  match slot with
  | Leaf => Some (Node Leaf node Leaf, None)
  | Node l current r =>
      match cmp (node_key node) (node_key current) with
      | Eq => Some (slot, Some node)
      | Lt =>
          '(l, refused) ← insert_node l node;
          let current_t := Node l current r in
          t ← (match refused with
               | None => if outranks l (node_priority current) then rotate_right current_t else Some current_t
               | Some _ => Some current_t
               end);
          Some (t, refused)
      | Gt =>
          '(r, refused) ← insert_node r node;
          let current_t := Node l current r in
          t ← (match refused with
               | None => if outranks r (node_priority current) then rotate_left current_t else Some current_t
               | Some _ => Some current_t
               end);
          Some (t, refused)
      end
  end.

Fixpoint merge (left : tree) : tree → tree :=
  fix merge_right (right : tree) : tree :=
    match left, right with
    | Leaf, _ => right
    | _, Leaf => left
    | Node ll ln lr, Node rl rn rr =>
        if (node_priority rn <=? node_priority ln)%Z then Node ll ln (merge lr right)
        else Node (merge_right rl) rn rr
    end.

Fixpoint find (cursor : tree) (key : K) : option LeasedMapNode :=
  match cursor with
  | Leaf => None
  | Node l n r =>
      match cmp key (node_key n) with
      | Lt => find l key
      | Gt => find r key
      | Eq => Some n
      end
  end.

Fixpoint remove_node (slot : tree) (key : K) : tree * option LeasedMapNode :=
  match slot with
  | Leaf => (Leaf, None)
  | Node l current r =>
      match cmp key (node_key current) with
      | Eq => (merge l r, Some current)
      | Lt => let '(l, removed) := remove_node l key in (Node l current r, removed)
      | Gt => let '(r, removed) := remove_node r key in (Node l current r, removed)
      end
  end.

(** [None] outside: the [expect] on a present left subtree. *)
Fixpoint remove_first_node (slot : tree) : option (tree * option LeasedMapNode) :=
  match slot with
  | Leaf => Some (Leaf, None)
  | Node Leaf current r => Some (r, Some current)
  | Node l current r =>
      '(l, removed) ← remove_first_node l;
      match removed with Some removed => Some (Node l current r, Some removed) | None => None end
  end.

Fixpoint remove_first_where_node (slot : tree) (predicate : K → V → bool) : tree * option LeasedMapNode :=
  match slot with
  | Leaf => (Leaf, None)
  | Node l current r =>
      match remove_first_where_node l predicate with
      | (l, Some removed) => (Node l current r, Some removed)
      | (l, None) =>
          if predicate (node_key current) (node_value current) then (merge l r, Some current)
          else let '(r, removed) := remove_first_where_node r predicate in (Node l current r, removed)
      end
  end.

(** The mutable borrow of [get_mut], written through by its caller. *)
Fixpoint update_node (cursor : tree) (key : K) (f : V → V) : tree :=
  match cursor with
  | Leaf => Leaf
  | Node l n r =>
      match cmp key (node_key n) with
      | Lt => Node (update_node l key f) n r
      | Gt => Node l n (update_node r key f)
      | Eq => Node l (mkNode (node_key n) (f (node_value n)) (node_priority n) (node_entry n)) r
      end
  end.

(** The mutable borrow of [find_value_mut]: the first match in the order node,
    left, right. *)
Fixpoint find_value_mut (t : tree) (predicate : V → bool) (f : V → V) : option tree :=
  match t with
  | Leaf => None
  | Node l n r =>
      if predicate (node_value n)
      then Some (Node l (mkNode (node_key n) (f (node_value n)) (node_priority n) (node_entry n)) r)
      else
        match find_value_mut l predicate f with
        | Some l => Some (Node l n r)
        | None => r ← find_value_mut r predicate f; Some (Node l n r)
        end
  end.

Fixpoint any_visit (t : tree) (predicate : V → bool) : bool :=
  match t with
  | Leaf => false
  | Node l n r => predicate (node_value n) || any_visit l predicate || any_visit r predicate
  end.

(** [for_each] as the sequence of visits. *)
Fixpoint for_each (t : tree) : list (K * V) :=
  match t with
  | Leaf => []
  | Node l n r => for_each l ++ [(node_key n, node_value n)] ++ for_each r
  end.

Fixpoint last_key_value (t : tree) : option (K * V) :=
  match t with
  | Leaf => None
  | Node _ n Leaf => Some (node_key n, node_value n)
  | Node _ _ r => last_key_value r
  end.

Fixpoint successor_walk (node : tree) (after : option K) (best : option LeasedMapNode) : option LeasedMapNode :=
  match node with
  | Leaf => best
  | Node l current r =>
      if (match after with
          | Some after => match cmp (node_key current) after with Gt => true | _ => false end
          | None => true
          end)
      then successor_walk l after (Some current)
      else successor_walk r after best
  end.

Definition successor_after (t : tree) (after : option K) : option (K * V) :=
  into_entry <$> successor_walk t after None.

(** The iterative teardown: the nodes in the order in which they are dropped. *)
Fixpoint drop_loop (fuel : nat) (root : tree) : option (list LeasedMapNode) :=
  match fuel, root with
  | _, Leaf => Some []
  | O, _ => None
  | S fuel, Node (Node pl pivot pr) n r => drop_loop fuel (Node pl pivot (Node pr n r))
  | S fuel, Node Leaf n r => (n ::.) <$> drop_loop fuel r
  end.

(** ** The map *)

Record LeasedMap : Type := mkMap { map_root : tree; map_len : nat }.

Definition map_new : LeasedMap := mkMap Leaf 0.

Definition map_insert (m : LeasedMap) (key : K) (value : V) (entry : L) :
    option (LeasedMap * result LeasedMapNode ()) :=
  let node := mkNode key value (priority key) entry in
  '(t, refused) ← insert_node (map_root m) node;
  match refused with
  | Some refused => Some (mkMap t (map_len m), Err refused)
  | None => if map_len m <? len_max then Some (mkMap t (map_len m + 1), Ok ()) else None
  end.

Definition map_get (m : LeasedMap) (key : K) : option V := node_value <$> find (map_root m) key.

Definition map_contains_key (m : LeasedMap) (key : K) : bool :=
  match find (map_root m) key with Some _ => true | None => false end.

Definition map_get_mut (m : LeasedMap) (key : K) (f : V → V) : LeasedMap :=
  mkMap (update_node (map_root m) key f) (map_len m).

(** [len.checked_sub(1).expect(..)] after a node came out: the removed entry and
    the lease that is released. *)
Definition map_detached (m : LeasedMap) (t : tree) (removed : option LeasedMapNode) :
    option (LeasedMap * option (K * V * L)) :=
  match removed with
  | None => Some (mkMap t (map_len m), None)
  | Some n =>
      match map_len m with
      | O => None
      | S len => Some (mkMap t len, Some (into_entry n, node_entry n))
      end
  end.

Definition map_remove_entry (m : LeasedMap) (key : K) : option (LeasedMap * option (K * V * L)) :=
  let '(t, removed) := remove_node (map_root m) key in map_detached m t removed.

Definition map_pop_first_entry (m : LeasedMap) : option (LeasedMap * option (K * V * L)) :=
  '(t, removed) ← remove_first_node (map_root m); map_detached m t removed.

Definition map_pop_first_where (m : LeasedMap) (predicate : K → V → bool) :
    option (LeasedMap * option (K * V * L)) :=
  let '(t, removed) := remove_first_where_node (map_root m) predicate in map_detached m t removed.

(** Dropping the map: the nodes in drop order; twice the size is enough fuel. *)
Fixpoint tree_size (t : tree) : nat :=
  match t with Leaf => 0 | Node l _ r => S (tree_size l + tree_size r) end.

Definition map_drop (m : LeasedMap) : option (list LeasedMapNode) :=
  drop_loop (2 * tree_size (map_root m)) (map_root m).

(** ** Reference: the ordered list of nodes *)

Fixpoint nodes (t : tree) : list LeasedMapNode :=
  match t with Leaf => [] | Node l n r => nodes l ++ n :: nodes r end.

Definition ordered (l : list LeasedMapNode) : Prop := increasing cmp (node_key <$> l).

Fixpoint place (x : LeasedMapNode) (l : list LeasedMapNode) : list LeasedMapNode :=
  match l with
  | [] => [x]
  | y :: l' =>
      match cmp (node_key x) (node_key y) with
      | Lt => x :: l
      | Eq => l
      | Gt => y :: place x l'
      end
  end.

(** Heap order. *)
Fixpoint heap (t : tree) : Prop :=
  match t with
  | Leaf => True
  | Node l n r =>
      heap l ∧ heap r ∧ ∀ c, c ∈ nodes l ++ nodes r → (node_priority c ≤ node_priority n)%Z
  end.

Record wf (m : LeasedMap) : Prop := {
  wf_ordered : ordered (nodes (map_root m));
  wf_heap : heap (map_root m);
  wf_len : map_len m = length (nodes (map_root m));
}.

(** ** Ordered lists *)

Lemma increasing_cons a l : increasing cmp (a :: l) ↔ increasing cmp l ∧ ∀ y, y ∈ l → cmp a y = Lt.
Proof.
  change (a :: l) with ([a] ++ l). rewrite increasing_app. split.
  - intros (_ & H & Ha). split; [done|]. intros. apply Ha; [by left|done].
  - intros [H Ha]. split_and!; [repeat constructor|done|]. by intros x y ->%list_elem_of_singleton ?%Ha.
Qed.

(** The order around a node. *)
Lemma ordered_node l n r :
  ordered (l ++ n :: r) ↔
  ordered l ∧ ordered r ∧ (∀ a, a ∈ l → cmp (node_key a) (node_key n) = Lt) ∧
  (∀ b, b ∈ r → cmp (node_key n) (node_key b) = Lt).
Proof.
  unfold ordered. rewrite fmap_app, fmap_cons, increasing_app, increasing_cons.
  setoid_rewrite list_elem_of_fmap. setoid_rewrite elem_of_cons. setoid_rewrite list_elem_of_fmap.
  split.
  - intros (Hl & (Hr & Hn) & Hx). split_and!; try done; [intros a Ha|intros b Hb]; eauto.
  - intros (Hl & Hr & Ha & Hb). split_and!; try done.
    + intros y (b & -> & Hin). auto.
    + intros x y (a & -> & Hin) [->|(b & -> & Hin')]; [auto|]. eapply (cmp_trans cmp); eauto.
Qed.

Lemma place_left x l n r :
  cmp (node_key x) (node_key n) = Lt → place x (l ++ n :: r) = place x l ++ n :: r.
Proof.
  intros Hx. induction l as [|y l IH]; cbn; [by rewrite Hx|].
  destruct (cmp (node_key x) (node_key y)); cbn; by rewrite ?IH.
Qed.

Lemma place_right x l n r :
  ordered (l ++ n :: r) → cmp (node_key x) (node_key n) = Gt →
  place x (l ++ n :: r) = l ++ n :: place x r.
Proof.
  intros (_ & _ & Hl & _)%ordered_node Hx. induction l as [|y l IH]; cbn; [by rewrite Hx|].
  assert (Hy : cmp (node_key x) (node_key y) = Gt).
  { apply (cmp_gt cmp). eapply (cmp_trans cmp); [apply Hl; by left|by apply (cmp_gt cmp)]. }
  rewrite Hy, IH; [done|]. intros. apply Hl. by right.
Qed.

Lemma elem_of_place x l y : y ∈ place x l → y = x ∨ y ∈ l.
Proof.
  induction l as [|z l IH]; cbn; [set_solver|].
  destruct (cmp (node_key x) (node_key z)); [auto|set_solver|].
  intros [->|Hy]%elem_of_cons; [right; by left|]. destruct (IH Hy); [by left|right; by right].
Qed.

(** Placing a new node keeps the order and adds exactly that node. *)
Lemma place_new x l :
  ordered l → (∀ y, y ∈ l → node_key y ≠ node_key x) → ordered (place x l) ∧ place x l ≡ₚ x :: l.
Proof.
  unfold ordered. induction l as [|z l IH]; cbn [place]; intros Ho Hn; [split; [repeat constructor|done]|].
  rewrite fmap_cons, increasing_cons in Ho. destruct Ho as [Ho Hz].
  destruct (cmp (node_key x) (node_key z)) eqn:Hc.
  - apply (cmp_eq cmp) in Hc. destruct (Hn z); [by left|done].
  - split; [|done]. rewrite !fmap_cons, !increasing_cons. split_and!; [done|done|].
    intros y [->|Hy]%elem_of_cons; [done|]. eapply (cmp_trans cmp); [exact Hc|by apply Hz].
  - destruct IH as [IHo IHp]; [done|intros; apply Hn; by right|]. split.
    + rewrite fmap_cons, increasing_cons. split; [done|]. intros y (a & -> & Ha)%list_elem_of_fmap.
      apply elem_of_place in Ha as [->|Ha]; [by apply (cmp_gt cmp)|]. apply Hz. by apply list_elem_of_fmap_2.
    + rewrite IHp. constructor.
Qed.

Lemma place_present x l :
  ordered l → (∃ y, y ∈ l ∧ node_key y = node_key x) → place x l = l.
Proof.
  unfold ordered. induction l as [|z l IH]; intros Ho (y & Hy & Hk); [by apply not_elem_of_nil in Hy|].
  rewrite fmap_cons, increasing_cons in Ho. destruct Ho as [Ho Hz]. cbn [place].
  apply elem_of_cons in Hy as [->|Hy].
  - by rewrite Hk, (cmp_refl cmp).
  - assert (Hgt : cmp (node_key x) (node_key z) = Gt).
    { apply (cmp_gt cmp). rewrite <- Hk. apply Hz. by apply list_elem_of_fmap_2. }
    rewrite Hgt, IH; eauto.
Qed.

(** ** Insertion *)

Lemma key_absent_left x l n r :
  ordered (l ++ n :: r) → cmp (node_key x) (node_key n) = Lt →
  (∀ y, y ∈ l → node_key y ≠ node_key x) → ∀ y, y ∈ l ++ n :: r → node_key y ≠ node_key x.
Proof.
  intros (_ & _ & _ & Hr)%ordered_node Hx Hl y Hy Heq. apply elem_of_app in Hy as [Hy|[->|Hy]%elem_of_cons].
  - by apply (Hl y).
  - rewrite Heq, (cmp_refl cmp) in Hx. done.
  - apply (cmp_lt_irrefl cmp (node_key n)). eapply (cmp_trans cmp); [by apply Hr|]. by rewrite Heq.
Qed.

Lemma key_absent_right x l n r :
  ordered (l ++ n :: r) → cmp (node_key x) (node_key n) = Gt →
  (∀ y, y ∈ r → node_key y ≠ node_key x) → ∀ y, y ∈ l ++ n :: r → node_key y ≠ node_key x.
Proof.
  intros (_ & _ & Hl & _)%ordered_node Hx%(cmp_gt cmp) Hr y Hy Heq.
  apply elem_of_app in Hy as [Hy|[->|Hy]%elem_of_cons].
  - apply (cmp_lt_irrefl cmp (node_key n)). eapply (cmp_trans cmp); [exact Hx|]. rewrite <- Heq. by apply Hl.
  - rewrite Heq, (cmp_refl cmp) in Hx. done.
  - by apply (Hr y).
Qed.

(** After an insertion on the left, at most one rotation restores the heap: only
    the new node can outrank [n]. *)
Lemma balance_right l' n r x old :
  heap l' → heap r → nodes l' ≡ₚ x :: old →
  (∀ c, c ∈ old ++ nodes r → (node_priority c ≤ node_priority n)%Z) →
  ∃ t, (if outranks l' (node_priority n) then rotate_right (Node l' n r) else Some (Node l' n r)) = Some t ∧
    nodes t = nodes l' ++ n :: nodes r ∧ heap t.
Proof.
  intros Hl Hr Hp Hold. destruct l' as [|pl p pr]; cbn.
  { by apply Permutation_nil_cons in Hp. }
  cbn in Hl, Hp. destruct Hl as (Hpl & Hpr & Hpmax).
  assert (Hnodes : ∀ c, c ∈ nodes pl ++ p :: nodes pr ↔ c = x ∨ c ∈ old).
  { intros c. rewrite Hp. apply elem_of_cons. }
  destruct (Z.ltb_spec (node_priority n) (node_priority p)) as [Hout|Hin].
  - exists (Node pl p (Node pr n r)). cbn. rewrite <- app_assoc. split_and!; try done.
    + intros c [Hc|Hc]%elem_of_app; [|apply Hold; set_solver].
      assert (p = x) as ->.
      { destruct (proj1 (Hnodes p)) as [|Ho]; [set_solver|done|].
        assert (node_priority p ≤ node_priority n)%Z by (apply Hold; set_solver). lia. }
      apply Hold, elem_of_app. left. rewrite <- Permutation_middle in Hp. apply Permutation_cons_inv in Hp.
      rewrite <- Hp. set_solver.
    + intros c Hc. rewrite !elem_of_app, elem_of_cons in Hc. destruct Hc as [Hc|[Hc|[->|Hc]]].
      * apply Hpmax. set_solver.
      * apply Hpmax. set_solver.
      * lia.
      * assert (node_priority c ≤ node_priority n)%Z by (apply Hold; set_solver). lia.
  - exists (Node (Node pl p pr) n r). cbn. split_and!; try done.
    intros c [Hc|Hc]%elem_of_app; [|apply Hold; set_solver].
    destruct (proj1 (Hnodes c) Hc) as [->|Ho]; [|apply Hold; set_solver].
    apply elem_of_app in Hc as [Hc|[->|Hc]%elem_of_cons]; [|done|];
      assert (node_priority x ≤ node_priority p)%Z by (apply Hpmax; set_solver); lia.
Qed.

Lemma balance_left l n r' x old :
  heap l → heap r' → nodes r' ≡ₚ x :: old →
  (∀ c, c ∈ nodes l ++ old → (node_priority c ≤ node_priority n)%Z) →
  ∃ t, (if outranks r' (node_priority n) then rotate_left (Node l n r') else Some (Node l n r')) = Some t ∧
    nodes t = nodes l ++ n :: nodes r' ∧ heap t.
Proof.
  intros Hl Hr Hp Hold. destruct r' as [|pl p pr]; cbn.
  { by apply Permutation_nil_cons in Hp. }
  cbn in Hr, Hp. destruct Hr as (Hpl & Hpr & Hpmax).
  assert (Hnodes : ∀ c, c ∈ nodes pl ++ p :: nodes pr ↔ c = x ∨ c ∈ old).
  { intros c. rewrite Hp. apply elem_of_cons. }
  destruct (Z.ltb_spec (node_priority n) (node_priority p)) as [Hout|Hin].
  - exists (Node (Node l n pl) p pr). cbn. rewrite <- app_assoc. split_and!; try done.
    + intros c [Hc|Hc]%elem_of_app; [apply Hold; set_solver|].
      assert (p = x) as ->.
      { destruct (proj1 (Hnodes p)) as [|Ho]; [set_solver|done|].
        assert (node_priority p ≤ node_priority n)%Z by (apply Hold; set_solver). lia. }
      apply Hold, elem_of_app. right. rewrite <- Permutation_middle in Hp. apply Permutation_cons_inv in Hp.
      rewrite <- Hp. set_solver.
    + intros c Hc. rewrite !elem_of_app, elem_of_cons in Hc. destruct Hc as [[Hc|[->|Hc]]|Hc].
      * assert (node_priority c ≤ node_priority n)%Z by (apply Hold; set_solver). lia.
      * lia.
      * apply Hpmax. set_solver.
      * apply Hpmax. set_solver.
  - exists (Node l n (Node pl p pr)). cbn. split_and!; try done.
    intros c [Hc|Hc]%elem_of_app; [apply Hold; set_solver|].
    destruct (proj1 (Hnodes c) Hc) as [->|Ho]; [|apply Hold; set_solver].
    apply elem_of_app in Hc as [Hc|[->|Hc]%elem_of_cons]; [|done|];
      assert (node_priority x ≤ node_priority p)%Z by (apply Hpmax; set_solver); lia.
Qed.

Lemma insert_node_spec t x :
  ordered (nodes t) → heap t →
  ∃ t' refused, insert_node t x = Some (t', refused) ∧ nodes t' = place x (nodes t) ∧ heap t' ∧
    ((refused = None ∧ ∀ y, y ∈ nodes t → node_key y ≠ node_key x) ∨
     (refused = Some x ∧ ∃ y, y ∈ nodes t ∧ node_key y = node_key x)).
Proof.
  induction t as [|l IHl n r IHr]; intros Ho Hh.
  { exists (Node Leaf x Leaf), None. split_and!; try done; [cbn; set_solver|].
    left. split; [done|]. by intros y ?%not_elem_of_nil. }
  cbn [nodes heap] in Ho, Hh |- *. destruct Hh as (Hhl & Hhr & Hmax).
  pose proof (proj1 (ordered_node _ _ _) Ho) as (Hol & Hor & _ & _). cbn [insert_node].
  destruct (cmp (node_key x) (node_key n)) eqn:Hc.
  - apply (cmp_eq cmp) in Hc. assert (Hin : ∃ y, y ∈ nodes l ++ n :: nodes r ∧ node_key y = node_key x)
      by (exists n; set_solver).
    exists (Node l n r), (Some x). rewrite place_present by done. split_and!; try done. by right.
  - destruct (IHl Hol Hhl) as (l' & refused & Hi & Hn & Hh' & Hcase). rewrite Hi. cbn [mbind option_bind].
    rewrite place_left, <- Hn by done. destruct Hcase as [[-> Hnew]|[-> (y & Hy & Hk)]].
    + destruct (balance_right l' n r x (nodes l)) as (t & Ht & Hnt & Hht); try done.
      { rewrite Hn. by apply place_new. }
      rewrite Ht. cbn [mbind option_bind]. exists t, None. split_and!; try done. left. split; [done|]. by apply key_absent_left.
    + rewrite place_present in Hn by eauto. exists (Node l' n r), (Some x). cbn. split_and!; try done.
      * intros c Hc'. apply Hmax. by rewrite <- Hn.
      * right. split; [done|]. exists y. set_solver.
  - destruct (IHr Hor Hhr) as (r' & refused & Hi & Hn & Hh' & Hcase). rewrite Hi. cbn [mbind option_bind].
    rewrite place_right, <- Hn by done. destruct Hcase as [[-> Hnew]|[-> (y & Hy & Hk)]].
    + destruct (balance_left l n r' x (nodes r)) as (t & Ht & Hnt & Hht); try done.
      { rewrite Hn. by apply place_new. }
      rewrite Ht. cbn [mbind option_bind]. exists t, None. split_and!; try done. left. split; [done|]. by eapply key_absent_right.
    + rewrite place_present in Hn by eauto. exists (Node l n r'), (Some x). cbn. split_and!; try done.
      * intros c Hc'. apply Hmax. by rewrite <- Hn.
      * right. split; [done|]. exists y. set_solver.
Qed.

(** ** Lookup, removal and traversal *)

Lemma merge_Leaf_r t : merge t Leaf = t.
Proof. by destruct t. Qed.

Lemma merge_spec l r :
  heap l → heap r → nodes (merge l r) = nodes l ++ nodes r ∧ heap (merge l r).
Proof.
  revert r. induction l as [|ll IHll ln lr IHlr]; intros r Hl Hr; [by destruct r|].
  induction r as [|rl IHrl rn rr IHrr]; [rewrite merge_Leaf_r; by rewrite app_nil_r|].
  cbn [merge]. pose proof Hl as (Hhll & Hhlr & Hlmax). pose proof Hr as (Hhrl & Hhrr & Hrmax).
  destruct (Z.leb_spec (node_priority rn) (node_priority ln)) as [Hp|Hp].
  - destruct (IHlr (Node rl rn rr) Hhlr Hr) as [Hn Hh]. cbn [nodes heap]. rewrite Hn, <- app_assoc.
    split_and!; try done. intros c. cbn [nodes]. rewrite !elem_of_app, elem_of_cons. intros [Hc|[Hc|[Hc|[->|Hc]]]].
    + apply Hlmax. set_solver.
    + apply Hlmax. set_solver.
    + etrans; [apply Hrmax; set_solver|done].
    + done.
    + etrans; [apply Hrmax; set_solver|done].
  - destruct (IHrl Hhrl) as [Hn Hh]. cbn [merge] in Hn, Hh. cbn [nodes heap]. rewrite Hn.
    cbn [nodes]. split_and!; try done; [by rewrite <- !app_assoc|].
    intros c. rewrite !elem_of_app, elem_of_cons. intros [[[Hc|[->|Hc]]|Hc]|Hc].
    + etrans; [apply Hlmax; set_solver|lia].
    + lia.
    + etrans; [apply Hlmax; set_solver|lia].
    + apply Hrmax. set_solver.
    + apply Hrmax. set_solver.
Qed.

Lemma find_spec t k n :
  ordered (nodes t) → find t k = Some n ↔ n ∈ nodes t ∧ node_key n = k.
Proof.
  induction t as [|l IHl c r IHr]; cbn [nodes find]; intros Ho.
  { split; [done|]. by intros [?%not_elem_of_nil _]. }
  apply ordered_node in Ho as (Hol & Hor & Hl & Hr). rewrite elem_of_app, elem_of_cons.
  destruct (cmp k (node_key c)) eqn:Hc.
  - apply (cmp_eq cmp) in Hc as ->. split; [intros [= ->]; auto|]. intros [[Hn|[->|Hn]] Hk]; [|done|].
    + apply Hl in Hn. rewrite Hk, (cmp_refl cmp) in Hn. done.
    + apply Hr in Hn. rewrite Hk, (cmp_refl cmp) in Hn. done.
  - rewrite IHl by done. split; [tauto|]. intros [[Hn|[->|Hn]] Hk]; [done| |]; exfalso.
    + rewrite Hk, (cmp_refl cmp) in Hc. done.
    + apply Hr in Hn. rewrite Hk in Hn. apply (cmp_lt_irrefl cmp k). by eapply (cmp_trans cmp).
  - rewrite IHr by done. apply (cmp_gt cmp) in Hc. split; [tauto|]. intros [[Hn|[->|Hn]] Hk]; [| |done]; exfalso.
    + apply Hl in Hn. rewrite Hk in Hn. apply (cmp_lt_irrefl cmp k). by eapply (cmp_trans cmp).
    + rewrite Hk, (cmp_refl cmp) in Hc. done.
Qed.

(** One node leaves, the others keep their places. *)
Definition detaches (t t' : tree) (before : list LeasedMapNode) (n : LeasedMapNode) : Prop :=
  ∃ after, nodes t = before ++ n :: after ∧ nodes t' = before ++ after ∧ heap t'.

Lemma heap_sub l n r l' r' :
  heap (Node l n r) → heap l' → heap r' → (∀ c, c ∈ nodes l' ++ nodes r' → c ∈ nodes l ++ nodes r) →
  heap (Node l' n r').
Proof. intros (_ & _ & Hmax) Hl Hr Hsub. cbn. split_and!; auto. Qed.

Lemma detaches_left l n r l' before x :
  heap (Node l n r) → detaches l l' before x → detaches (Node l n r) (Node l' n r) before x.
Proof.
  intros Hh (after & Hl & Hl' & Hhl). exists (after ++ n :: nodes r). cbn [nodes].
  rewrite Hl, Hl', <- !app_assoc. split_and!; try done.
  eapply heap_sub; [done|done|apply Hh|]. rewrite Hl, Hl'. set_solver.
Qed.

Lemma detaches_right l n r r' before x :
  heap (Node l n r) → detaches r r' before x → detaches (Node l n r) (Node l n r') (nodes l ++ n :: before) x.
Proof.
  intros Hh (after & Hr & Hr' & Hhr). exists after. cbn [nodes].
  rewrite Hr, Hr', <- !app_assoc. split_and!; try done.
  eapply heap_sub; [done|apply Hh|done|]. rewrite Hr, Hr'. set_solver.
Qed.

Lemma detaches_root l n r :
  heap (Node l n r) → detaches (Node l n r) (merge l r) (nodes l) n.
Proof.
  intros (Hl & Hr & _). destruct (merge_spec l r Hl Hr) as [Hn Hh]. exists (nodes r). done.
Qed.

Lemma remove_node_spec t k :
  heap t →
  let '(t', removed) := remove_node t k in
  removed = find t k ∧
  match removed with Some n => ∃ before, detaches t t' before n | None => t' = t end.
Proof.
  induction t as [|l IHl n r IHr]; intros Hh; [done|]. pose proof Hh as (Hl & Hr & _).
  cbn [remove_node find]. destruct (cmp k (node_key n)).
  - split; [done|]. eexists. by apply detaches_root.
  - specialize (IHl Hl). destruct (remove_node l k) as [l' removed]. destruct IHl as [-> IH]. split; [done|].
    destruct (find l k); [|by subst]. destruct IH as [before IH]. eexists. by apply detaches_left.
  - specialize (IHr Hr). destruct (remove_node r k) as [r' removed]. destruct IHr as [-> IH]. split; [done|].
    destruct (find r k); [|by subst]. destruct IH as [before IH]. eexists. by apply detaches_right.
Qed.

Lemma remove_first_spec t :
  heap t →
  ∃ t' removed, remove_first_node t = Some (t', removed) ∧
    match removed with Some n => detaches t t' [] n | None => t = Leaf ∧ t' = Leaf end.
Proof.
  induction t as [|l IHl n r IHr]; intros Hh; [by exists Leaf, None|].
  pose proof Hh as (Hl & Hr & _). destruct l as [|ll ln lr].
  - exists r, (Some n). split; [done|]. exists (nodes r). done.
  - destruct (IHl Hl) as (l' & removed & Hrem & Hcase). cbn [remove_first_node].
    cbn [remove_first_node] in Hrem. rewrite Hrem. cbn [mbind option_bind].
    destruct removed as [m|]; [|by destruct Hcase]. eexists _, _. split; [done|]. by apply detaches_left.
Qed.

Lemma remove_first_where_spec t predicate :
  heap t →
  let '(t', removed) := remove_first_where_node t predicate in
  match removed with
  | Some n => predicate (node_key n) (node_value n) = true ∧
      ∃ before, detaches t t' before n ∧
        ∀ c, c ∈ before → predicate (node_key c) (node_value c) = false
  | None => t' = t ∧ ∀ c, c ∈ nodes t → predicate (node_key c) (node_value c) = false
  end.
Proof.
  induction t as [|l IHl n r IHr]; intros Hh; [split; [done|]; by intros c ?%not_elem_of_nil|].
  pose proof Hh as (Hl & Hr & _). cbn [remove_first_where_node].
  specialize (IHl Hl). destruct (remove_first_where_node l predicate) as [l' [x|]].
  - destruct IHl as (Hx & before & Hd & Hb). split; [done|]. exists before. split; [by apply detaches_left|done].
  - destruct IHl as [-> Hfl]. destruct (predicate (node_key n) (node_value n)) eqn:Hn.
    + split; [done|]. exists (nodes l). split; [by apply detaches_root|done].
    + specialize (IHr Hr). destruct (remove_first_where_node r predicate) as [r' [x|]].
      * destruct IHr as (Hx & before & Hd & Hb). split; [done|]. eexists. split; [by apply detaches_right|].
        intros c [Hc|[->|Hc]%elem_of_cons]%elem_of_app; auto.
      * destruct IHr as [-> Hfr]. split; [done|]. cbn [nodes].
        intros c [Hc|[->|Hc]%elem_of_cons]%elem_of_app; auto.
Qed.

Lemma for_each_spec t : for_each t = into_entry <$> nodes t.
Proof. induction t as [|l IHl n r IHr]; cbn; [done|]. by rewrite fmap_app, fmap_cons, IHl, IHr. Qed.

Lemma any_visit_spec t predicate :
  any_visit t predicate = true ↔ ∃ n, n ∈ nodes t ∧ predicate (node_value n) = true.
Proof.
  induction t as [|l IHl n r IHr]; cbn [any_visit nodes].
  - split; [done|]. by intros (n & ?%not_elem_of_nil & _).
  - rewrite !orb_true_iff, IHl, IHr. setoid_rewrite elem_of_app. setoid_rewrite elem_of_cons. naive_solver.
Qed.

Lemma last_key_value_spec t : last_key_value t = into_entry <$> last (nodes t).
Proof.
  induction t as [|l IHl n r IHr]; [done|]. cbn [nodes]. destruct r as [|rl rn rr]; cbn [last_key_value].
  - cbn [nodes]. by rewrite last_snoc.
  - cbn [last_key_value] in IHr. rewrite IHr, last_app_cons. cbn [nodes].
    by destruct (nodes rl).
Qed.

(** The candidates after a cursor, in order. *)
Definition ahead (after : option K) (n : LeasedMapNode) : Prop :=
  match after with Some k => cmp (node_key n) k = Gt | None => True end.
#[local] Instance ahead_dec after n : Decision (ahead after n).
Proof. unfold ahead. destruct after; apply _. Defined.

Lemma ahead_mono after a b :
  cmp (node_key a) (node_key b) = Lt → ahead after a → ahead after b.
Proof.
  destruct after as [k|]; cbn; [|done]. rewrite !(cmp_gt cmp). intros ??. by eapply (cmp_trans cmp).
Qed.

Lemma successor_walk_spec t after best :
  ordered (nodes t) →
  successor_walk t after best =
    match head (filter (ahead after) (nodes t)) with Some n => Some n | None => best end.
Proof.
  revert best. induction t as [|l IHl n r IHr]; intros best Ho; [done|].
  cbn [nodes] in *. apply ordered_node in Ho as (Hol & Hor & Hl & Hr). cbn [successor_walk].
  rewrite filter_app, filter_cons. destruct (decide (ahead after n)) as [Ha|Ha].
  - assert ((match after with Some k => match cmp (node_key n) k with Gt => true | _ => false end | None => true end)
      = true) as -> by (destruct after; cbn in Ha; [by rewrite Ha|done]).
    rewrite IHl by done. by destruct (filter _ (nodes l)).
  - assert ((match after with Some k => match cmp (node_key n) k with Gt => true | _ => false end | None => true end)
      = false) as -> by (destruct after as [k|]; cbn in Ha; [by destruct (cmp (node_key n) k)|done]).
    rewrite IHr by done. assert (filter (ahead after) (nodes l) = []) as ->; [|done].
    apply elem_of_nil_inv. intros c [Hc Hin]%list_elem_of_filter. apply Ha.
    eapply ahead_mono; [by apply Hl|done].
Qed.

(** Writing through [get_mut] touches the value of that key alone. *)
Definition write_value (k : K) (f : V → V) (n : LeasedMapNode) : LeasedMapNode :=
  match cmp k (node_key n) with
  | Eq => mkNode (node_key n) (f (node_value n)) (node_priority n) (node_entry n)
  | _ => n
  end.

Lemma write_value_other k f (l : list LeasedMapNode) :
  (∀ n, n ∈ l → cmp k (node_key n) ≠ Eq) → write_value k f <$> l = l.
Proof.
  intros H. rewrite <- (list_fmap_id l) at 2. apply list_fmap_ext. intros i n Hn%list_elem_of_lookup_2.
  specialize (H n Hn). unfold write_value. by destruct (cmp k (node_key n)).
Qed.

Lemma update_node_spec t k f :
  ordered (nodes t) → nodes (update_node t k f) = write_value k f <$> nodes t.
Proof.
  induction t as [|l IHl n r IHr]; [done|]. cbn [nodes update_node].
  intros (Hol & Hor & Hl & Hr)%ordered_node. rewrite fmap_app, fmap_cons.
  assert (Hkl : cmp k (node_key n) ≠ Lt → ∀ a, a ∈ nodes l → cmp k (node_key a) ≠ Eq).
  { intros Hk a Ha ->%(cmp_eq cmp). by apply Hk, Hl. }
  assert (Hkr : cmp k (node_key n) ≠ Gt → ∀ b, b ∈ nodes r → cmp k (node_key b) ≠ Eq).
  { intros Hk b Hb ->%(cmp_eq cmp). by apply Hk, (cmp_gt cmp), Hr. }
  unfold write_value at 2. destruct (cmp k (node_key n)) eqn:Hc; cbn [nodes].
  - by rewrite !write_value_other by (apply Hkl || apply Hkr; done).
  - by rewrite IHl, (write_value_other k f (nodes r)) by (done || by apply Hkr).
  - by rewrite IHr, (write_value_other k f (nodes l)) by (done || by apply Hkl).
Qed.

Lemma update_node_heap t k f : ordered (nodes t) → heap t → heap (update_node t k f).
Proof.
  induction t as [|l IHl n r IHr]; [done|]. cbn [nodes].
  intros (Hol & Hor & _)%ordered_node (Hl & Hr & Hmax). cbn [update_node].
  assert (Hp : ∀ t c, ordered (nodes t) → c ∈ nodes (update_node t k f) →
    ∃ c', c' ∈ nodes t ∧ node_priority c = node_priority c').
  { intros t c Ho. rewrite update_node_spec by done. intros (c' & -> & Hc)%list_elem_of_fmap. exists c'.
    split; [done|]. unfold write_value. by destruct (cmp k (node_key c')). }
  destruct (cmp k (node_key n)); cbn [heap node_priority]; split_and!; auto; intros c [Hc|Hc]%elem_of_app.
  - destruct (Hp _ _ Hol Hc) as (c' & Hc' & ->). apply Hmax. set_solver.
  - apply Hmax. set_solver.
  - apply Hmax. set_solver.
  - destruct (Hp _ _ Hor Hc) as (c' & Hc' & ->). apply Hmax. set_solver.
Qed.

(** [find_value_mut] writes one matching value and finds one when there is one. *)
Lemma find_value_mut_spec t predicate f :
  match find_value_mut t predicate f with
  | Some t' => ∃ before n after, nodes t = before ++ n :: after ∧ predicate (node_value n) = true ∧
      nodes t' = before ++ mkNode (node_key n) (f (node_value n)) (node_priority n) (node_entry n) :: after
  | None => any_visit t predicate = false
  end.
Proof.
  induction t as [|l IHl n r IHr]; cbn [find_value_mut any_visit nodes]; [done|].
  destruct (predicate (node_value n)) eqn:Hn; [by exists (nodes l), n, (nodes r)|].
  destruct (find_value_mut l predicate f) as [l'|]; cbn [orb].
  - destruct IHl as (b & x & a & Hl & Hx & Hl'). exists b, x, (a ++ n :: nodes r). cbn [nodes].
    rewrite Hl, Hl', <- !app_assoc. done.
  - rewrite IHl. cbn [orb]. destruct (find_value_mut r predicate f) as [r'|]; cbn [mbind option_bind]; [|done].
    destruct IHr as (b & x & a & Hr & Hx & Hr'). exists (nodes l ++ n :: b), x, a. cbn [nodes].
    rewrite Hr, Hr', <- !app_assoc. done.
Qed.

(** ** Teardown *)

Fixpoint off_spine (t : tree) : nat :=
  match t with Leaf => 0 | Node l _ r => tree_size l + off_spine r end.

Lemma off_spine_le t : off_spine t ≤ tree_size t.
Proof. induction t; cbn; lia. Qed.

Lemma drop_loop_spec fuel t : tree_size t + off_spine t ≤ fuel → drop_loop fuel t = Some (nodes t).
Proof.
  revert t. induction fuel as [|fuel IH]; intros t Hf; destruct t as [|l n r]; cbn in Hf; try done; [lia|].
  destruct l as [|pl p pr]; cbn [drop_loop].
  - cbn in Hf. rewrite IH by lia. done.
  - rewrite IH by (cbn in *; lia). cbn. by rewrite <- app_assoc.
Qed.

(** ** The contract: an ordered list of rows *)

(** A row is what a caller supplied: key, value and funding lease. *)
Definition row : Type := (K * V * L)%type.
Definition row_of (n : LeasedMapNode) : row := (into_entry n, node_entry n).
Definition rows (m : LeasedMap) : list row := row_of <$> nodes (map_root m).

Definition is_key (k : K) (r : row) : bool := match cmp k r.1.1 with Eq => true | _ => false end.
Definition row_ahead (after : option K) (r : row) : bool :=
  match after with Some k => match cmp r.1.1 k with Gt => true | _ => false end | None => true end.

Fixpoint place_row (x : row) (l : list row) : list row :=
  match l with
  | [] => [x]
  | y :: l' => match cmp x.1.1 y.1.1 with Lt => x :: l | Eq => l | Gt => y :: place_row x l' end
  end.

Inductive map_op : Type :=
| OpInsert (k : K) (v : V) (e : L)
| OpRemove (k : K)
| OpPopFirst
| OpPopWhere (predicate : K → V → bool)
| OpGetMut (k : K) (f : V → V)
| OpGet (k : K)
| OpContains (k : K)
| OpSuccessor (after : option K)
| OpLast
| OpForEach
| OpAny (predicate : V → bool)
| OpLen.

Inductive map_out : Type :=
| OutDone
| OutRefused (r : row)
| OutEntry (r : option row)
| OutValue (v : option V)
| OutPair (kv : option (K * V))
| OutVisits (l : list (K * V))
| OutBool (b : bool)
| OutLen (n : nat).

(** The contract of each operation on the ordered rows. *)
Definition spec_exec (op : map_op) (l : list row) : list row * map_out :=
  match op with
  | OpInsert k v e =>
      if existsb (is_key k) l then (l, OutRefused (k, v, e)) else (place_row (k, v, e) l, OutDone)
  | OpRemove k => (filter (λ r : row, is_key k r = false) l, OutEntry (head (filter (λ r : row, is_key k r = true) l)))
  | OpPopFirst => (tail l, OutEntry (head l))
  | OpPopWhere p =>
      match @list_find row (λ r : row, p r.1.1 r.1.2 = true) _ l with
      | Some (i, r) => (delete i l, OutEntry (Some r))
      | None => (l, OutEntry None)
      end
  | OpGetMut k f => ((λ r : row, if is_key k r then (r.1.1, f r.1.2, r.2) else r) <$> l, OutDone)
  | OpGet k => (l, OutValue ((λ r : row, r.1.2) <$> head (filter (λ r : row, is_key k r = true) l)))
  | OpContains k => (l, OutBool (existsb (is_key k) l))
  | OpSuccessor after => (l, OutPair (fst <$> head (filter (λ r : row, row_ahead after r = true) l)))
  | OpLast => (l, OutPair (fst <$> last l))
  | OpForEach => (l, OutVisits (fst <$> l))
  | OpAny p => (l, OutBool (existsb (λ r : row, p r.1.2) l))
  | OpLen => (l, OutLen (length l))
  end.

(** The operation of the code; [None] is a reached [expect]. *)
Definition map_exec (op : map_op) (m : LeasedMap) : option (LeasedMap * map_out) :=
  match op with
  | OpInsert k v e =>
      '(m', r) ← map_insert m k v e;
      Some (m', match r with Ok _ => OutDone | Err n => OutRefused (row_of n) end)
  | OpRemove k => '(m', r) ← map_remove_entry m k; Some (m', OutEntry r)
  | OpPopFirst => '(m', r) ← map_pop_first_entry m; Some (m', OutEntry r)
  | OpPopWhere p => '(m', r) ← map_pop_first_where m p; Some (m', OutEntry r)
  | OpGetMut k f => Some (map_get_mut m k f, OutDone)
  | OpGet k => Some (m, OutValue (map_get m k))
  | OpContains k => Some (m, OutBool (map_contains_key m k))
  | OpSuccessor after => Some (m, OutPair (successor_after (map_root m) after))
  | OpLast => Some (m, OutPair (last_key_value (map_root m)))
  | OpForEach => Some (m, OutVisits (for_each (map_root m)))
  | OpAny p => Some (m, OutBool (any_visit (map_root m) p))
  | OpLen => Some (m, OutLen (map_len m))
  end.

Lemma rows_place x l : row_of <$> place x l = place_row (row_of x) (row_of <$> l).
Proof.
  induction l as [|y l IH]; [done|]. cbn [place]. rewrite fmap_cons. cbn [place_row].
  change (row_of x).1.1 with (node_key x). change (row_of y).1.1 with (node_key y).
  destruct (cmp (node_key x) (node_key y)); rewrite ?fmap_cons; by rewrite ?IH.
Qed.

Lemma existsb_key k (l : list LeasedMapNode) :
  existsb (is_key k) (row_of <$> l) = true ↔ ∃ n, n ∈ l ∧ node_key n = k.
Proof.
  rewrite existsb_exists. setoid_rewrite <- list_elem_of_In. setoid_rewrite list_elem_of_fmap. split.
  - intros (r & (n & -> & Hn) & Hk). exists n. split; [done|]. unfold is_key in Hk. cbn in Hk.
    destruct (cmp k (node_key n)) eqn:Hc; try done. by apply (cmp_eq cmp) in Hc.
  - intros (n & Hn & <-). exists (row_of n). split; [eauto|]. unfold is_key. cbn. by rewrite (cmp_refl cmp).
Qed.

(** The rows around a key. *)
Lemma rows_split before n after :
  ordered (before ++ n :: after) →
  let l := row_of <$> before ++ n :: after in
  filter (λ r, is_key (node_key n) r = false) l = row_of <$> before ++ after ∧
  filter (λ r, is_key (node_key n) r = true) l = [row_of n].
Proof.
  intros (_ & _ & Hb & Ha)%ordered_node. cbv zeta. rewrite !fmap_app, fmap_cons, !filter_app, !filter_cons.
  assert (Hno : ∀ l, (∀ c, c ∈ l → cmp (node_key n) (node_key c) ≠ Eq) →
    filter (λ r, is_key (node_key n) r = false) (row_of <$> l) = row_of <$> l ∧
    filter (λ r, is_key (node_key n) r = true) (row_of <$> l) = []).
  { intros l Hl. assert (Hf : ∀ r, r ∈ row_of <$> l → is_key (node_key n) r = false).
    { intros r (c & -> & Hc)%list_elem_of_fmap. specialize (Hl c Hc). unfold is_key. cbn.
      by destruct (cmp (node_key n) (node_key c)). }
    split; [by apply list_filter_all|]. apply elem_of_nil_inv. intros r [Hr Hin]%list_elem_of_filter.
    rewrite Hf in Hr by done. done. }
  destruct (Hno before) as [-> ->]; [intros c Hc Heq%(cmp_eq cmp); apply Hb in Hc; rewrite <- Heq, (cmp_refl cmp) in Hc; done|].
  destruct (Hno after) as [-> ->]; [intros c Hc Heq%(cmp_eq cmp); apply Ha in Hc; rewrite <- Heq, (cmp_refl cmp) in Hc; done|].
  assert (Hn : is_key (node_key n) (row_of n) = true) by (unfold is_key; cbn; by rewrite (cmp_refl cmp)).
  rewrite decide_False, decide_True by congruence. done.
Qed.

Lemma ordered_app_skip before n after : ordered (before ++ n :: after) → ordered (before ++ after).
Proof.
  unfold ordered. rewrite !fmap_app, fmap_cons, !increasing_app, increasing_cons.
  intros (Hb & [Ha _] & H). split_and!; try done. intros. apply H; [done|by right].
Qed.

Lemma detached_wf m t' before n :
  wf m → detaches (map_root m) t' before n →
  ∃ m' after, map_detached m t' (Some n) = Some (m', Some (row_of n)) ∧ wf m' ∧
    nodes (map_root m) = before ++ n :: after ∧ rows m' = row_of <$> before ++ after.
Proof.
  intros [Ho Hh Hlen] (after & Hn & Hn' & Hh'). unfold map_detached.
  rewrite Hn, length_app in Hlen. cbn in Hlen. rewrite Hlen, Nat.add_succ_r.
  eexists (mkMap t' _), after. split_and!; try done.
  - split; cbn; [|done|by rewrite Hn', length_app]. rewrite Hn'. rewrite Hn in Ho. by eapply ordered_app_skip.
  - unfold rows. cbn. by rewrite Hn'.
Qed.

Lemma insert_refines m k v e :
  wf m → map_len m < len_max →
  ∃ m' out, map_exec (OpInsert k v e) m = Some (m', out) ∧ wf m' ∧
    spec_exec (OpInsert k v e) (rows m) = (rows m', out).
Proof.
  intros [Ho Hh Hlen] Hmax. cbn [map_exec spec_exec]. unfold map_insert. cbv zeta.
  set (x := mkNode k v (priority k) e).
  destruct (insert_node_spec (map_root m) x Ho Hh) as (t' & refused & Hi & Hn & Hh' & Hcase).
  rewrite Hi. cbn [mbind option_bind]. unfold rows at 1 2. destruct Hcase as [[-> Hnew]|[-> Hold]].
  - destruct (place_new x (nodes (map_root m))) as [Hpo Hpp]; [done..|].
    rewrite (proj2 (Nat.ltb_lt _ _)) by done. eexists _, _. split; [done|]. split.
    + split; cbn; rewrite ?Hn; try done. rewrite Hpp. cbn. lia.
    + destruct (existsb _ _) eqn:Hex.
      * apply existsb_key in Hex as (n & Hin & Hk). by destruct (Hnew n Hin).
      * unfold rows. cbn [map_root]. by rewrite Hn, rows_place.
  - assert (Hsame : place x (nodes (map_root m)) = nodes (map_root m)) by (by apply place_present).
    eexists _, _. split; [done|]. split; [split; cbn; rewrite ?Hn, ?Hsame; done|].
    rewrite (proj2 (existsb_key _ _)) by done. unfold rows. cbn [map_root]. by rewrite Hn, Hsame.
Qed.

Lemma remove_refines m k :
  wf m →
  ∃ m' out, map_exec (OpRemove k) m = Some (m', out) ∧ wf m' ∧
    spec_exec (OpRemove k) (rows m) = (rows m', out).
Proof.
  intros Hwf. pose proof Hwf as [Ho Hh Hlen]. cbn [map_exec spec_exec]. unfold map_remove_entry.
  pose proof (remove_node_spec (map_root m) k Hh) as Hr.
  destruct (remove_node (map_root m) k) as [t' removed]. destruct Hr as [Hf Hr].
  destruct removed as [n|].
  - destruct Hr as [before Hd]. symmetry in Hf. apply find_spec in Hf as [_ Hk]; [|done].
    destruct (detached_wf _ _ _ _ Hwf Hd) as (m' & after & Hm & Hwf' & Hn & Hrows).
    rewrite Hm. cbn [mbind option_bind]. eexists _, _. split_and!; [done..|].
    unfold rows at 1 2. rewrite Hn in Ho |- *. destruct (rows_split before n after Ho) as [H1 H2].
    rewrite <- Hk, H1, H2, Hrows. done.
  - subst t'. cbn. eexists _, _. split_and!; [done|by destruct m|].
    unfold rows. cbn [map_root].
    assert (Hno : ∀ r, r ∈ row_of <$> nodes (map_root m) → is_key k r = false).
    { intros r (n & -> & Hn)%list_elem_of_fmap. unfold is_key. cbn. destruct (cmp k (node_key n)) eqn:Hc; try done.
      apply (cmp_eq cmp) in Hc. assert (find (map_root m) k = Some n) by (by apply find_spec). congruence. }
    rewrite list_filter_all by done. do 2 f_equal.
    replace (filter (λ r, is_key k r = true) (row_of <$> nodes (map_root m))) with (@nil row); [done|].
    symmetry. apply elem_of_nil_inv. intros r [Hr Hin]%list_elem_of_filter. rewrite Hno in Hr by done. done.
Qed.

Lemma pop_first_refines m :
  wf m →
  ∃ m' out, map_exec OpPopFirst m = Some (m', out) ∧ wf m' ∧ spec_exec OpPopFirst (rows m) = (rows m', out).
Proof.
  intros Hwf. pose proof Hwf as [Ho Hh Hlen]. cbn [map_exec spec_exec]. unfold map_pop_first_entry.
  destruct (remove_first_spec (map_root m) Hh) as (t' & removed & -> & Hr). cbn [mbind option_bind].
  destruct removed as [n|].
  - destruct (detached_wf _ _ _ _ Hwf Hr) as (m' & after & Hm & Hwf' & Hn & Hrows). rewrite Hm. cbn [mbind option_bind].
    eexists _, _. split_and!; [done..|]. rewrite Hrows. unfold rows. by rewrite Hn.
  - destruct Hr as [Hl ->]. cbn. eexists _, _. split_and!; [done| |unfold rows; by rewrite Hl].
    rewrite <- Hl. by destruct m.
Qed.

Lemma pop_where_refines m p :
  wf m →
  ∃ m' out, map_exec (OpPopWhere p) m = Some (m', out) ∧ wf m' ∧
    spec_exec (OpPopWhere p) (rows m) = (rows m', out).
Proof.
  intros Hwf. pose proof Hwf as [Ho Hh Hlen]. cbn [map_exec spec_exec]. unfold map_pop_first_where.
  pose proof (remove_first_where_spec (map_root m) p Hh) as Hr.
  destruct (remove_first_where_node (map_root m) p) as [t' [n|]].
  - destruct Hr as (Hp & before & Hd & Hb).
    destruct (detached_wf _ _ _ _ Hwf Hd) as (m' & after & Hm & Hwf' & Hn & Hrows). rewrite Hm. cbn [mbind option_bind].
    eexists _, _. split_and!; [done..|].
    assert (rows m = (row_of <$> before) ++ row_of n :: (row_of <$> after)) as ->
      by (unfold rows; by rewrite Hn, fmap_app, fmap_cons).
    assert (@list_find row (λ r : row, p r.1.1 r.1.2 = true) _ ((row_of <$> before) ++ row_of n :: (row_of <$> after))
      = Some (length (row_of <$> before), row_of n)) as ->.
    { apply list_find_Some. split_and!; [by rewrite list_lookup_middle|done|].
      intros j y Hy Hj. apply lookup_lt_Some in Hy as Hlt. rewrite lookup_app_l in Hy by done.
      apply list_elem_of_lookup_2, list_elem_of_fmap in Hy as (c & -> & Hc). cbn. by rewrite Hb. }
    by rewrite delete_middle, Hrows, fmap_app.
  - destruct Hr as [-> Hno]. cbn. eexists _, _. split_and!; [done|by destruct m|].
    assert (@list_find row (λ r : row, p r.1.1 r.1.2 = true) _ (rows m) = None) as ->; [|done].
    apply list_find_None, Forall_forall. intros r (c & -> & Hc)%list_elem_of_fmap. cbn. by rewrite Hno.
Qed.

Lemma head_ahead after (l : list LeasedMapNode) :
  head (filter (λ r : row, row_ahead after r = true) (row_of <$> l)) = row_of <$> head (filter (ahead after) l).
Proof.
  induction l as [|n l IH]; [done|]. rewrite fmap_cons, !filter_cons.
  assert (row_ahead after (row_of n) = true ↔ ahead after n) as Hah.
  { destruct after as [k|]; cbn; [|done]. by destruct (cmp (node_key n) k). }
  destruct (decide (ahead after n)); [rewrite decide_True by tauto|rewrite decide_False by tauto]; done.
Qed.

Lemma observe_refines m op :
  wf m →
  match op with OpInsert _ _ _ | OpRemove _ | OpPopFirst | OpPopWhere _ => False | _ => True end →
  ∃ m' out, map_exec op m = Some (m', out) ∧ wf m' ∧ spec_exec op (rows m) = (rows m', out).
Proof.
  intros Hwf. pose proof Hwf as [Ho Hh Hlen].
  assert (Hkey : ∀ k, head (filter (λ r, is_key k r = true) (rows m)) = row_of <$> find (map_root m) k).
  { intros k. destruct (find (map_root m) k) as [n|] eqn:Hf.
    - pose proof Hf as [Hin Hk]%find_spec; [|done]. apply list_elem_of_split in Hin as (before & after & Hn).
      unfold rows. rewrite Hn in Ho |- *. destruct (rows_split before n after Ho) as [_ H2]. by rewrite <- Hk, H2.
    - replace (filter _ _) with (@nil row); [done|]. symmetry. apply elem_of_nil_inv.
      intros r [Hr (n & -> & Hn)%list_elem_of_fmap]%list_elem_of_filter. unfold is_key in Hr. cbn in Hr.
      destruct (cmp k (node_key n)) eqn:Hc; try done. apply (cmp_eq cmp) in Hc.
      assert (find (map_root m) k = Some n) by (by apply find_spec). congruence. }
  destruct op; try done; intros _; cbn [map_exec spec_exec]; eexists _, _; (split; [done|]); (split; [try done|]).
  - split; cbn; [|by apply update_node_heap|by rewrite update_node_spec, length_fmap].
    unfold ordered. rewrite update_node_spec, <- list_fmap_compose by done.
    erewrite list_fmap_ext; [exact Ho|]. intros i n _. cbn. unfold write_value. by destruct (cmp k (node_key n)).
  - f_equal. unfold rows. cbn [map_root map_get_mut]. rewrite update_node_spec, <- !list_fmap_compose by done.
    apply list_fmap_ext. intros i n _. cbn. unfold write_value, is_key. cbn. by destruct (cmp k (node_key n)).
  - do 2 f_equal. rewrite Hkey. unfold map_get. by destruct (find (map_root m) k).
  - do 2 f_equal. unfold map_contains_key. destruct (find (map_root m) k) as [n|] eqn:Hf.
    + apply find_spec in Hf; [|done]. apply existsb_key. eauto.
    + destruct (existsb _ _) eqn:Hex; [|done]. apply existsb_key in Hex as (n & Hn). apply find_spec in Hn; [|done]. congruence.
  - do 2 f_equal. unfold successor_after, rows. rewrite successor_walk_spec by done.
    rewrite head_ahead. by destruct (head _).
  - do 2 f_equal. rewrite last_key_value_spec. unfold rows. rewrite fmap_last. by destruct (last _).
  - do 2 f_equal. rewrite for_each_spec. unfold rows. by rewrite <- list_fmap_compose.
  - do 2 f_equal. apply eq_true_iff_eq. rewrite any_visit_spec, existsb_exists.
    setoid_rewrite <- list_elem_of_In. unfold rows. setoid_rewrite list_elem_of_fmap. naive_solver.
  - do 2 f_equal. unfold rows. by rewrite length_fmap.
Qed.

(** C7: the treap is an ordered list of funded rows.  From a well-formed map
    every operation succeeds without reaching an [expect], keeps the search order,
    the heap order and the count, and does to the ordered rows exactly what the
    contract says: a refused insert hands back the candidate with its lease, a
    removal hands back one row with its lease and leaves the others. *)
Theorem leased_map_refines_ordered_rows m op :
  wf m → map_len m < len_max →
  ∃ m' out, map_exec op m = Some (m', out) ∧ wf m' ∧ spec_exec op (rows m) = (rows m', out).
Proof.
  intros Hwf Hmax. destruct op; try (by apply observe_refines).
  - by apply insert_refines.
  - by apply remove_refines.
  - by apply pop_first_refines.
  - by apply pop_where_refines.
Qed.

(** An ordered pass: [successor_after(None)], then after each key returned. *)
Fixpoint ordered_pass (t : tree) (fuel : nat) (cursor : option K) : list (K * V) :=
  match fuel, successor_after t cursor with
  | S fuel, Some (k, v) => (k, v) :: ordered_pass t fuel (Some k)
  | _, _ => []
  end.

Lemma ordered_pass_from t fuel before after cursor :
  ordered (nodes t) → nodes t = before ++ after → length after ≤ fuel →
  filter (ahead cursor) (nodes t) = after →
  ordered_pass t fuel cursor = into_entry <$> after.
Proof.
  intros Ho. revert before after cursor. induction fuel as [|fuel IH]; intros before after cursor Hn Hf Hc.
  { destruct after; [done|cbn in Hf; lia]. }
  cbn [ordered_pass]. unfold successor_after. rewrite successor_walk_spec, Hc by done.
  destruct after as [|n after]; [done|]. cbn [head fmap option_fmap option_map list_fmap into_entry]. f_equal.
  apply (IH (before ++ [n])); [by rewrite <- app_assoc|cbn in Hf; lia|].
  rewrite Hn in Ho |- *. apply ordered_node in Ho as (_ & _ & Hb & Ha).
  rewrite filter_app, filter_cons, decide_False by (cbn; by rewrite (cmp_refl cmp)).
  replace (filter _ before) with (@nil LeasedMapNode).
  - apply list_filter_all. intros b Hin. cbn. by apply (cmp_gt cmp), Ha.
  - symmetry. apply elem_of_nil_inv. intros a [Hgt Hin]%list_elem_of_filter. cbn in Hgt.
    apply Hb in Hin. apply (cmp_gt cmp) in Hgt. apply (cmp_lt_irrefl cmp (node_key n)). by eapply (cmp_trans cmp).
Qed.

(** a pass by successor cursors visits every entry exactly once, in key
    order: it is the full walk, cut off after [fuel] steps only. *)
Theorem successor_pass_is_full_walk m :
  wf m → ordered_pass (map_root m) (map_len m) None = for_each (map_root m).
Proof.
  intros [Ho _ Hlen]. rewrite for_each_spec. apply (ordered_pass_from _ _ []); [done|done|lia|].
  by apply list_filter_all.
Qed.

(** teardown terminates and drops every node exactly once, in the order of
    the rows, so every lease is released; rotations never leave a node behind. *)
Theorem teardown_releases_every_lease m : ∃ ns, map_drop m = Some ns ∧ row_of <$> ns = rows m.
Proof.
  exists (nodes (map_root m)). split; [|done].
  apply drop_loop_spec. pose proof (off_spine_le (map_root m)). lia.
Qed.
(** ** The interface *)

#[export] Instance leased_ordered_map : OrderedMap K V L LeasedMap := {|
  om_new := map_new;
  om_get := map_get;
  om_insert m k v e := match map_insert m k v e with Some (m', Ok _) => Some m' | _ => None end;
  om_remove m k :=
    match map_remove_entry m k with Some (m', Some (_, v, _)) => (m', Some v) | _ => (m, None) end;
  om_write := map_get_mut;
  om_successor m := successor_after (map_root m);
|}.

Lemma get_spec m k v :
  wf m → map_get m k = Some v ↔ (k, v) ∈ into_entry <$> nodes (map_root m).
Proof.
  intros [Ho _ _]. unfold map_get. rewrite list_elem_of_fmap. split.
  - destruct (find (map_root m) k) as [n|] eqn:Hf; [|done]. cbn. intros [= <-]. apply find_spec in Hf as [Hn <-]; [|done].
    by exists n.
  - intros (n & [= -> ->] & Hn). by rewrite (proj2 (find_spec _ _ n Ho)).
Qed.

Lemma get_None m k : wf m → map_get m k = None → ∀ n, n ∈ nodes (map_root m) → node_key n ≠ k.
Proof.
  intros Hwf Hg n Hn <-. assert (map_get m (node_key n) = Some (node_value n)); [|congruence].
  apply get_spec; [done|]. apply list_elem_of_fmap. by exists n.
Qed.

#[export] Program Instance leased_ordered_map_laws : OrderedMapLaws cmp := {|
  om_ok := wf;
  om_room m := map_len m < len_max;
  om_list m := into_entry <$> nodes (map_root m);
|}.
Next Obligation. split; [|done]. split; cbn; [constructor|done|done]. Qed.
Next Obligation.
  intros m m' Hroom [_ _ Hlen'] Hle [_ _ Hlen]. cbn in Hroom, Hle |- *. rewrite !length_fmap in Hle. lia.
Qed.
Next Obligation. intros m [Ho _ _]. by rewrite <- list_fmap_compose. Qed.
Next Obligation. intros m k v Hwf. by apply get_spec. Qed.
Next Obligation.
  intros m k v e Hwf Hroom Hg. pose proof Hwf as [Ho Hh Hlen]. cbn [om_insert leased_ordered_map].
  unfold map_insert. cbv zeta. set (x := mkNode k v (priority k) e).
  destruct (insert_node_spec (map_root m) x Ho Hh) as (t' & refused & Hi & Hn & Hh' & Hcase).
  pose proof (get_None m k Hwf Hg) as Habs. rewrite Hi. cbn [mbind option_bind].
  destruct Hcase as [[-> _]|[_ (y & Hy & Hk)]]; [|by destruct (Habs y Hy)].
  destruct (place_new x (nodes (map_root m))) as [Hpo Hpp]; [done..|].
  rewrite (proj2 (Nat.ltb_lt _ _)) by done. eexists. split; [done|]. split.
  - split; cbn; rewrite ?Hn; try done. rewrite Hpp. cbn. lia.
  - cbn [map_root]. by rewrite Hn, Hpp.
Qed.
Next Obligation.
  intros m k v w e Hwf Hg. pose proof Hwf as [Ho Hh Hlen]. cbn [om_insert leased_ordered_map].
  unfold map_insert. cbv zeta. set (x := mkNode k v (priority k) e).
  destruct (insert_node_spec (map_root m) x Ho Hh) as (t' & refused & Hi & Hn & Hh' & Hcase).
  rewrite Hi. cbn [mbind option_bind]. destruct Hcase as [[-> Hnew]|[-> _]]; [|done].
  apply get_spec in Hg; [|done]. apply list_elem_of_fmap in Hg as (n & [= -> ->] & Hin). by destruct (Hnew n Hin).
Qed.
Next Obligation.
  intros m k v Hwf Hg. pose proof Hwf as [Ho Hh Hlen]. cbn [om_remove leased_ordered_map].
  unfold map_remove_entry. pose proof (remove_node_spec (map_root m) k Hh) as Hr.
  destruct (remove_node (map_root m) k) as [t' removed]. destruct Hr as [Hf Hr].
  cbn [om_get leased_ordered_map] in Hg. unfold map_get in Hg. rewrite <- Hf in Hg.
  destruct removed as [n|]; [|done]. injection Hg as <-. destruct Hr as [before Hd].
  symmetry in Hf. apply find_spec in Hf as [_ <-]; [|done].
  destruct (detached_wf _ _ _ _ Hwf Hd) as (m' & after & Hm & Hwf' & Hn & Hrows). rewrite Hm. cbn.
  exists m'. split_and!; [done..|]. rewrite Hn, fmap_app, fmap_cons.
  assert (into_entry <$> nodes (map_root m') = (into_entry <$> before) ++ (into_entry <$> after)) as ->.
  { rewrite <- fmap_app. apply (f_equal (fmap fst)) in Hrows. unfold rows in Hrows.
    rewrite <- !list_fmap_compose in Hrows. done. }
  by rewrite <- Permutation_middle.
Qed.
Next Obligation.
  intros m k Hwf Hg. pose proof Hwf as [Ho Hh Hlen]. cbn [om_remove leased_ordered_map].
  unfold map_remove_entry. pose proof (remove_node_spec (map_root m) k Hh) as Hr.
  destruct (remove_node (map_root m) k) as [t' removed]. destruct Hr as [Hf _].
  cbn [om_get leased_ordered_map] in Hg. unfold map_get in Hg. rewrite <- Hf in Hg. by destruct removed.
Qed.
Next Obligation.
  intros m k v f Hwf Hg. cbn [om_write leased_ordered_map].
  destruct (observe_refines m (OpGetMut k f) Hwf I) as (m' & out & [= <- <-] & Hwf' & _).
  apply get_spec in Hg; [|done]. apply list_elem_of_fmap in Hg as (n & [= -> ->] & Hin).
  apply list_elem_of_split in Hin as (before & after & Hn). destruct Hwf as [Ho _ _].
  exists (into_entry <$> before ++ after). split; [done|]. cbn [map_get_mut map_root].
  rewrite update_node_spec by done. rewrite Hn in Ho |- *. apply ordered_node in Ho as (_ & _ & Hb & Ha).
  assert (Hb' : write_value (node_key n) f <$> before = before).
  { apply write_value_other. intros c Hc Heq%(cmp_eq cmp). apply Hb in Hc. rewrite <- Heq, (cmp_refl cmp) in Hc. done. }
  assert (Ha' : write_value (node_key n) f <$> after = after).
  { apply write_value_other. intros c Hc Heq%(cmp_eq cmp). apply Ha in Hc. rewrite <- Heq, (cmp_refl cmp) in Hc. done. }
  rewrite !fmap_app, !fmap_cons, Hb', Ha'. unfold write_value at 1. rewrite (cmp_refl cmp).
  split; by rewrite <- Permutation_middle.
Qed.
Next Obligation.
  intros m after Hwf. cbn [om_successor leased_ordered_map]. unfold successor_after.
  rewrite successor_walk_spec by apply Hwf. induction (nodes (map_root m)) as [|n l IH]; [done|]. cbn [fmap list_fmap].
  rewrite !filter_cons. destruct (decide (ahead after n)) as [Ha|Ha].
  - rewrite decide_True by (by destruct after). done.
  - rewrite decide_False by (by destruct after). done.
Qed.
End leased_map.

(** ** Witnesses: two entries *)

Definition demo_map : @LeasedMap string nat nat :=
  mkMap (Node Leaf (mkNode "a" 1 5%Z 10) (Node Leaf (mkNode "c" 3 2%Z 11) Leaf))%string 2.

Lemma demo_map_wf : wf String.compare demo_map.
Proof.
  split; [|cbn|done].
  - unfold ordered, increasing. cbn. repeat constructor.
  - split_and!; try done; [by intros c ?%not_elem_of_nil|]. by intros c ->%list_elem_of_singleton.
Qed.

Lemma leased_map_refines_ordered_rows_witness :
  ∃ m' out, map_exec String.compare (λ _, 7%Z) 10 (OpInsert "b"%string 2 12) demo_map = Some (m', out) ∧
    rows m' = [("a", 1, 10); ("b", 2, 12); ("c", 3, 11)]%string ∧ out = OutDone.
Proof.
  destruct (leased_map_refines_ordered_rows String.compare (λ _, 7%Z) 10 demo_map (OpInsert "b"%string 2 12))
    as (m' & out & He & _ & Hs); [exact demo_map_wf | cbn; lia |].
  exists m', out. split; [exact He|].
  change (spec_exec _ _ _) with ([("a", 1, 10); ("b", 2, 12); ("c", 3, 11)]%string, @OutDone string nat nat) in Hs.
  injection Hs as Hrows Hout. split; congruence.
Defined.

Lemma successor_pass_is_full_walk_witness :
  ordered_pass String.compare (map_root demo_map) 2 None = [("a", 1); ("c", 3)]%string.
Proof. apply (successor_pass_is_full_walk String.compare demo_map). exact demo_map_wf. Defined.
