(* ===== verification/Topology.v ===== *)
(** * The topology interface, full mesh and star

    Models the [Topology] trait of crates/myownmesh-core/src/topology/mod.rs as a
    record of operations with its contract ([lawful]), and its two simplest
    implementations, topology/fullmesh.rs and topology/star.rs.  [usize] bounds
    are [nat]; a [HashSet] result is a [gset]. *)

From S2P Require Import Prelude Ranking.
Local Open Scope nat_scope.

Record Topology : Type := mkTopology {
  select_preferred : string → list string → gset string;
  edge : string → string → list string → bool;
  prunes : bool;
  forwards : string → list string → bool;
  next_hops : string → string → list string → nat → list string;
  preferred_next_hop : string → string → list string → string → bool;
  flood_ttl : nat;
}.

(** What the engine relies on, for every selector: edges are symmetric, the
    frame-carrying subset is drawn from the peers, and a route plan lists at most
    [limit] distinct connected members, never the node itself, whatever the
    order in which the connections were observed.  Identifiers are proper: a
    dash-free key, with or without a display suffix. *)
Record lawful (T : Topology) : Prop := {
  law_edge_sym a b all : edge T a b all = edge T b a all;
  law_preferred self peers : select_preferred T self peers ⊆ list_to_set peers;
  law_hops_connected self dest connected limit h :
    h ∈ next_hops T self dest connected limit → h ∈ connected;
  law_hops_bounded self dest connected limit :
    length (next_hops T self dest connected limit) ≤ limit;
  law_hops_not_self self dest connected limit h :
    proper self → h ∈ next_hops T self dest connected limit → pubkey_part h ≠ pubkey_part self;
  law_hops_distinct self dest connected limit :
    NoDup (pubkey_part <$> next_hops T self dest connected limit);
  law_hops_order self dest connected connected' limit :
    (∀ p, p ∈ connected ↔ p ∈ connected') →
    next_hops T self dest connected limit = next_hops T self dest connected' limit;
}.

(** The trait's default methods. *)
Definition default_edge (_a _b : string) (_all : list string) : bool := true.
Definition default_prunes : bool := false.
Definition default_forwards (_self : string) (_all : list string) : bool := false.
Definition default_preferred_next_hop (_self _dest : string) (_connected : list string)
    (_parent : string) : bool := false.
Definition default_flood_ttl : nat := 4.

(** A route plan given as the spellings of a duplicate-free list of keys obeys
    the contract. *)
Lemma spellings_connected keys connected h :
  h ∈ spellings keys connected → h ∈ connected ∧ pubkey_part h ∈ keys.
Proof.
  unfold spellings. rewrite list_elem_of_omap. intros (k & Hk & Hs). apply connected_spelling_Some in Hs as [? <-]. done.
Qed.

Lemma spellings_keys keys connected :
  (∀ k, k ∈ keys → is_Some (connected_spelling k connected)) →
  pubkey_part <$> spellings keys connected = keys.
Proof.
  induction keys as [|k keys IH]; intros H; [done|]. cbn.
  destruct (H k) as [q Hq]; [by left|]. rewrite Hq. cbn.
  apply connected_spelling_Some in Hq as [_ ->]. f_equal. apply IH. intros. apply H. by right.
Qed.

Lemma spellings_distinct keys connected :
  NoDup keys → NoDup (pubkey_part <$> spellings keys connected).
Proof.
  induction 1 as [|k keys Hk Hnd IH]; cbn; [constructor|].
  destruct (connected_spelling k connected) as [q|] eqn:Hq; [|done]. cbn.
  apply connected_spelling_Some in Hq as [_ ->]. constructor; [|done].
  rewrite list_elem_of_fmap. intros (h & -> & Hh). apply Hk. by eapply spellings_connected.
Qed.

Lemma spellings_length keys connected :
  length (spellings keys connected) ≤ length keys.
Proof.
  unfold spellings. induction keys as [|k keys IH]; cbn; [lia|]. destruct (connected_spelling k connected); cbn; lia.
Qed.

Lemma spellings_ext keys c c' : (∀ p, p ∈ c ↔ p ∈ c') → spellings keys c = spellings keys c'.
Proof.
  intros Hc. induction keys as [|k keys IH]; cbn; [done|].
  rewrite (connected_spelling_ext k c c' Hc). unfold spellings in *. by rewrite IH.
Qed.

Lemma plan_lawful (T : Topology) (keys : string → string → list string → nat → list string) :
  (∀ a b all, edge T a b all = edge T b a all) →
  (∀ self peers, select_preferred T self peers ⊆ list_to_set peers) →
  (∀ self dest c limit, next_hops T self dest c limit = spellings (keys self dest c limit) c) →
  (∀ self dest c limit, NoDup (keys self dest c limit)) →
  (∀ self dest c limit, length (keys self dest c limit) ≤ limit) →
  (∀ self dest c limit, proper self → pubkey_part self ∉ keys self dest c limit) →
  (∀ self dest c c' limit, (∀ p, p ∈ c ↔ p ∈ c') → keys self dest c limit = keys self dest c' limit) →
  lawful T.
Proof.
  intros Hedge Hpref Hplan Hnd Hlen Hself Hext. split; try done.
  - intros self dest c limit h. rewrite Hplan. by intros []%spellings_connected.
  - intros self dest c limit. rewrite Hplan. etrans; [apply spellings_length|apply Hlen].
  - intros self dest c limit h Hpr. rewrite Hplan. intros [_ Hk]%spellings_connected Heq.
    apply (Hself self dest c limit Hpr). by rewrite <- Heq.
  - intros self dest c limit. rewrite Hplan. by apply spellings_distinct.
  - intros self dest c c' limit Hc. rewrite !Hplan, (Hext _ _ c c') by done. by apply spellings_ext.
Qed.

(** A plan of at most one key. *)
Definition plan_one (stop : bool) (key : string) : list string := if stop then [] else [key].

(** ** Full mesh *)
Module FullMesh.

Definition fullmesh_select_preferred (_self_id : string) (peer_ids : list string) : gset string :=
  list_to_set peer_ids.

Definition fullmesh_scan (self_key dest_key : string) (connected : list string) : option string :=
  foldl (λ selected peer,
           let key := pubkey_part peer in
           if bool_decide (key = self_key) || bool_decide (key ≠ dest_key) then selected
           else if match selected with None => true | Some current => string_lt peer current end
                then Some peer else selected) None connected.

Definition fullmesh_next_hops (self_id dest : string) (connected : list string) (limit : nat) : list string :=
  if limit =? 0 then []
  else
    let self_key := pubkey_part self_id in
    let dest_key := pubkey_part dest in
    if bool_decide (self_key = dest_key) then []
    else take limit (option_list (fullmesh_scan self_key dest_key connected)).

Definition fullmesh_selector : Topology :=
  mkTopology fullmesh_select_preferred default_edge default_prunes default_forwards fullmesh_next_hops
    default_preferred_next_hop default_flood_ttl.

Lemma fullmesh_scan_spelling self_key dest_key connected :
  self_key ≠ dest_key → fullmesh_scan self_key dest_key connected = connected_spelling dest_key connected.
Proof.
  intros Hne. induction connected as [|p l IH] using rev_ind; [done|].
  rewrite connected_spelling_snoc. unfold fullmesh_scan in *. rewrite foldl_app. cbn. rewrite IH.
  destruct (decide (pubkey_part p = dest_key)) as [->|Hd].
  - rewrite !bool_decide_eq_false_2 by (done || congruence || tauto). cbn.
    destruct (connected_spelling dest_key l) as [q|]; [|done]. by destruct (string_lt p q).
  - rewrite (bool_decide_eq_true_2 (pubkey_part p ≠ dest_key)) by done. by rewrite orb_true_r.
Qed.

Lemma fullmesh_hops self dest connected limit :
  fullmesh_next_hops self dest connected limit
  = spellings (plan_one ((limit =? 0) || bool_decide (pubkey_part self = pubkey_part dest))
                 (pubkey_part dest)) connected.
Proof.
  unfold fullmesh_next_hops. destruct (Nat.eqb_spec limit 0); [done|]. case_bool_decide; [done|].
  rewrite fullmesh_scan_spelling by done. cbn. destruct (connected_spelling _ _); cbn; by rewrite take_ge by (cbn; lia).
Qed.

Lemma fullmesh_lawful : lawful fullmesh_selector.
Proof.
  apply (plan_lawful _ (λ self dest _ limit,
    plan_one ((limit =? 0) || bool_decide (pubkey_part self = pubkey_part dest)) (pubkey_part dest))).
  - done.
  - done.
  - apply fullmesh_hops.
  - intros self dest c limit. unfold plan_one. destruct (_ || _); [constructor|apply NoDup_singleton].
  - intros self dest c limit. destruct (Nat.eqb_spec limit 0); cbn; [lia|]. case_bool_decide; cbn; lia.
  - intros self dest c limit _. unfold plan_one. destruct (_ || _) eqn:E; [apply not_elem_of_nil|].
    z_norm. by intros ?%list_elem_of_singleton.
  - done.
Qed.
End FullMesh.

(** ** Star *)
Module Star.

Record StarSelector : Type := mkStar { hub : string }.

Definition star_select_preferred (s : StarSelector) (self_id : string) (peer_ids : list string) : gset string :=
  let hub_pubkey := pubkey_part (hub s) in
  let self_pubkey := pubkey_part self_id in
  if bool_decide (self_pubkey = hub_pubkey) then list_to_set peer_ids
  else list_to_set (filter (λ p, pubkey_part p = hub_pubkey) peer_ids).

Definition star_edge (s : StarSelector) (a b : string) (_all : list string) : bool :=
  let h := pubkey_part (hub s) in
  bool_decide (pubkey_part a = h) || bool_decide (pubkey_part b = h).

Definition star_forwards (s : StarSelector) (self_id : string) (_all : list string) : bool :=
  bool_decide (pubkey_part self_id = pubkey_part (hub s)).

Definition star_scan (self_key hub_key : string) (connected : list string) : option string :=
  foldl (λ selected peer,
           if bool_decide (pubkey_part peer ≠ hub_key) || bool_decide (pubkey_part peer = self_key)
           then selected
           else if match selected with None => true | Some current => string_lt peer current end
                then Some peer else selected) None connected.

Definition star_next_hops (s : StarSelector) (self_id _dest : string) (connected : list string) (limit : nat) :
    list string :=
  if limit =? 0 then []
  else
    let self_pubkey := pubkey_part self_id in
    let hub_pubkey := pubkey_part (hub s) in
    if bool_decide (self_pubkey = hub_pubkey) then []
    else option_list (star_scan self_pubkey hub_pubkey connected).

Definition star_selector (s : StarSelector) : Topology :=
  mkTopology (star_select_preferred s) (star_edge s) true (star_forwards s) (star_next_hops s)
    default_preferred_next_hop 3.

Lemma star_scan_spelling self_key hub_key connected :
  self_key ≠ hub_key → star_scan self_key hub_key connected = connected_spelling hub_key connected.
Proof.
  intros Hne. induction connected as [|p l IH] using rev_ind; [done|].
  rewrite connected_spelling_snoc. unfold star_scan in *. rewrite foldl_app. cbn. rewrite IH.
  destruct (decide (pubkey_part p = hub_key)) as [->|Hd].
  - rewrite !bool_decide_eq_false_2 by (done || congruence || tauto). cbn.
    destruct (connected_spelling hub_key l) as [q|]; [|done]. by destruct (string_lt p q).
  - by rewrite (bool_decide_eq_true_2 (pubkey_part p ≠ hub_key)) by done.
Qed.

Lemma star_hops s self dest connected limit :
  star_next_hops s self dest connected limit
  = spellings (plan_one ((limit =? 0) || bool_decide (pubkey_part self = pubkey_part (hub s)))
                 (pubkey_part (hub s))) connected.
Proof.
  unfold star_next_hops. destruct (Nat.eqb_spec limit 0); [done|]. case_bool_decide; [done|].
  rewrite star_scan_spelling by done. cbn. by destruct (connected_spelling _ _).
Qed.

Lemma star_lawful s : lawful (star_selector s).
Proof.
  apply (plan_lawful _ (λ self _ _ limit,
    plan_one ((limit =? 0) || bool_decide (pubkey_part self = pubkey_part (hub s))) (pubkey_part (hub s)))).
  - intros a b all. cbn. unfold star_edge. apply orb_comm.
  - intros self peers. cbn. unfold star_select_preferred. case_bool_decide; [done|].
    intros p. rewrite !elem_of_list_to_set, list_elem_of_filter. tauto.
  - apply star_hops.
  - intros self dest c limit. unfold plan_one. destruct (_ || _); [constructor|apply NoDup_singleton].
  - intros self dest c limit. destruct (Nat.eqb_spec limit 0); cbn; [lia|]. case_bool_decide; cbn; lia.
  - intros self dest c limit _. unfold plan_one. destruct (_ || _) eqn:E; [apply not_elem_of_nil|].
    z_norm. by intros ?%list_elem_of_singleton.
  - done.
Qed.
End Star.
