(* ===== verification/DeviceId.v ===== *)
(** * Device identities

    Models [DeviceId] of crates/myownmesh-core/src/semantic/content.rs: the two
    parsers of the canonical lowercase base32 spelling, equality (by key bytes)
    and ordering (by spelling).  The base32 codec and the Ed25519 point check are
    third-party code: they are parameters, with the documented alphabet, length
    and round trip of the codec as hypotheses. *)

From S2P Require Import Prelude Ranking.
Local Open Scope nat_scope.

(** ASCII case mapping. *)
Definition ascii_upper (a : Ascii.ascii) : Ascii.ascii :=
  let n := Ascii.nat_of_ascii a in
  if (97 <=? n) && (n <=? 122) then Ascii.ascii_of_nat (n - 32) else a.
Definition ascii_lower (a : Ascii.ascii) : Ascii.ascii :=
  let n := Ascii.nat_of_ascii a in
  if (65 <=? n) && (n <=? 90) then Ascii.ascii_of_nat (n + 32) else a.

Fixpoint string_map (f : Ascii.ascii → Ascii.ascii) (s : string) : string :=
  match s with EmptyString => EmptyString | String a s => String (f a) (string_map f s) end.
Definition to_ascii_uppercase : string → string := string_map ascii_upper.
Definition to_lowercase : string → string := string_map ascii_lower.

(** [str::to_uppercase].  The two- and three-byte characters whose upper case is ASCII
    (the dotless i, the long s, the sharp s and the Latin ligatures) become it; any
    other character outside ASCII has one in its upper case, is outside the codec's
    alphabet either way, and is left as it is. *)
Definition upper_two (a b : Ascii.ascii) : option string :=
  let pair n m := (Ascii.nat_of_ascii a =? n) && (Ascii.nat_of_ascii b =? m) in
  if pair 195 159 then Some "SS"%string
  else if pair 196 177 then Some "I"%string
  else if pair 197 191 then Some "S"%string
  else None.
Definition upper_three (a b c : Ascii.ascii) : option string :=
  if (Ascii.nat_of_ascii a =? 239) && (Ascii.nat_of_ascii b =? 172) && (128 <=? Ascii.nat_of_ascii c)
  then ["FF"; "FI"; "FL"; "FFI"; "FFL"; "ST"; "ST"]%string !! (Ascii.nat_of_ascii c - 128)
  else None.

Fixpoint to_uppercase (s : string) : string :=
  match s with
  | EmptyString => EmptyString
  | String a s1 =>
      let one := String (ascii_upper a) (to_uppercase s1) in
      match s1 with
      | EmptyString => one
      | String b s2 =>
          match upper_two a b with
          | Some text => (text ++ to_uppercase s2)%string
          | None =>
              match s2 with
              | EmptyString => one
              | String c s3 => match upper_three a b c with Some text => (text ++ to_uppercase s3)%string | None => one end
              end
          end
      end
  end.

Fixpoint string_forall (f : Ascii.ascii → bool) (s : string) : bool :=
  match s with EmptyString => true | String a s => f a && string_forall f s end.

(** [b'a'..=b'z' | b'2'..=b'7']. *)
Definition lower_base32 (a : Ascii.ascii) : bool :=
  let n := Ascii.nat_of_ascii a in ((97 <=? n) && (n <=? 122)) || ((50 <=? n) && (n <=? 55)).

(** The codec's alphabet, [A-Z2-7]. *)
Definition upper_base32 (a : Ascii.ascii) : bool :=
  let n := Ascii.nat_of_ascii a in ((65 <=? n) && (n <=? 90)) || ((50 <=? n) && (n <=? 55)).

Record DeviceId : Type := mkDeviceId { id_bytes : list Ascii.ascii; id_canonical : string }.

Inductive id_error : Type :=
| NotLowercase | NotBase32 | WrongLength | NotAPoint | NotCanonical.

Section device_id.
Context (base32_decode : string → option (list Ascii.ascii)) (base32_encode : list Ascii.ascii → string).
Context (verifying_key : list Ascii.ascii → bool).

Definition from_canonical_str (value : string) : result id_error DeviceId :=
  if bool_decide (value = EmptyString) || bool_decide (value ≠ to_lowercase value) then Err NotLowercase
  else
    match base32_decode (to_uppercase value) with
    | None => Err NotBase32
    | Some bytes =>
        if negb (length bytes =? 32) then Err WrongLength
        else if negb (verifying_key bytes) then Err NotAPoint
        else
          let canonical := to_lowercase (base32_encode bytes) in
          if bool_decide (canonical ≠ value) then Err NotCanonical
          else Ok (mkDeviceId bytes canonical)
    end.

Definition canonical_key_bytes (value : string) : result id_error (list Ascii.ascii) :=
  if negb (String.length value =? 52) then Err WrongLength
  else if negb (string_forall lower_base32 value) then Err NotLowercase
  else
    match base32_decode (to_ascii_uppercase value) with
    | None => Err NotBase32
    | Some bytes =>
        if negb (length bytes =? 32) then Err WrongLength
        else if bool_decide (to_lowercase (base32_encode bytes) ≠ value) then Err NotCanonical
        else if negb (verifying_key bytes) then Err NotAPoint
        else Ok bytes
    end.

Definition from_public_key_bytes (bytes : list Ascii.ascii) : result id_error DeviceId :=
  if negb (verifying_key bytes) then Err NotAPoint
  else Ok (mkDeviceId bytes (to_lowercase (base32_encode bytes))).

Definition device_eq (a b : DeviceId) : bool := bool_decide (id_bytes a = id_bytes b).
Definition device_cmp (a b : DeviceId) : comparison := String.compare (id_canonical a) (id_canonical b).

(** Documented behaviour of the codec on 32-byte keys. *)
Context (Hlen : ∀ bytes, length bytes = 32 → String.length (base32_encode bytes) = 52).
Context (Halphabet : ∀ bytes, string_forall upper_base32 (base32_encode bytes) = true).
Context (Hround : ∀ bytes, base32_decode (base32_encode bytes) = Some bytes).

Lemma string_forall_impl (f g : Ascii.ascii → bool) s :
  (∀ a, f a = true → g a = true) → string_forall f s = true → string_forall g s = true.
Proof. intros H. induction s; cbn; [done|]. intros Hs. z_norm. by rewrite H, IHs. Qed.

Lemma string_forall_map f g s : string_forall f (string_map g s) = string_forall (λ a, f (g a)) s.
Proof. induction s; cbn; [done|]. by rewrite IHs. Qed.

Lemma length_string_map f s : String.length (string_map f s) = String.length s.
Proof. induction s; cbn; [done|]. by rewrite IHs. Qed.

Lemma string_map_id f s : string_forall (λ a, Ascii.eqb (f a) a) s = true → string_map f s = s.
Proof. induction s; cbn; [done|]. intros Hs. z_norm. apply Ascii.eqb_eq in H. by rewrite H, IHs. Qed.

(** A property of characters holds of all of them when it holds of the 256. *)
Lemma ascii_all (f : Ascii.ascii → bool) :
  forallb (λ n, f (Ascii.ascii_of_nat n)) (seq 0 256) = true → ∀ a, f a = true.
Proof.
  intros H a. rewrite forallb_forall in H. rewrite <- (Ascii.ascii_nat_embedding a). apply H.
  apply in_seq. pose proof (Ascii.nat_ascii_bounded a). lia.
Qed.

Lemma upper_lower_ok a : implb (upper_base32 a) (lower_base32 (ascii_lower a)) = true.
Proof. revert a. apply ascii_all. vm_compute. reflexivity. Qed.
Lemma lower_fixed a : implb (lower_base32 a) (Ascii.eqb (ascii_lower a) a) = true.
Proof. revert a. apply ascii_all. vm_compute. reflexivity. Qed.
Lemma upper_of_lower a : implb (upper_base32 a) (Ascii.eqb (ascii_upper (ascii_lower a)) a) = true.
Proof. revert a. apply ascii_all. vm_compute. reflexivity. Qed.
Lemma lower_not_dash a : implb (lower_base32 a) (negb (Ascii.eqb a dash)) = true.
Proof. revert a. apply ascii_all. vm_compute. reflexivity. Qed.

Lemma canonical_alphabet bytes : string_forall lower_base32 (to_lowercase (base32_encode bytes)) = true.
Proof.
  unfold to_lowercase. rewrite string_forall_map. eapply string_forall_impl; [|apply Halphabet].
  intros a Ha. pose proof (upper_lower_ok a) as H. by rewrite Ha in H.
Qed.

Lemma lower_base32_no_dash s : string_forall lower_base32 s = true → no_dash s = true.
Proof.
  induction s as [|a s IH]; cbn [string_forall no_dash]; [done|]. intros H. z_norm.
  pose proof (lower_not_dash a) as Hd. rewrite H in Hd. cbn [implb] in Hd. rewrite Hd, IH; done.
Qed.

Lemma lower_base32_lowercase s : string_forall lower_base32 s = true → to_lowercase s = s.
Proof.
  intros Hs. apply string_map_id. eapply string_forall_impl; [|exact Hs].
  intros a Ha. pose proof (lower_fixed a) as H. by rewrite Ha in H.
Qed.

Lemma ascii_uppercase_canonical bytes : to_ascii_uppercase (to_lowercase (base32_encode bytes)) = base32_encode bytes.
Proof.
  pose proof (Halphabet bytes) as H. induction (base32_encode bytes) as [|a s IH]; [done|].
  cbn in *. z_norm. unfold to_ascii_uppercase, to_lowercase in *. cbn. rewrite IH by done. f_equal.
  pose proof (upper_of_lower a) as Hu. rewrite H in Hu. by apply Ascii.eqb_eq in Hu.
Qed.

Definition is_ascii (a : Ascii.ascii) : bool := Ascii.nat_of_ascii a <? 128.

Lemma upper_two_not_ascii a b : is_ascii a || is_ascii b = true → upper_two a b = None.
Proof.
  unfold is_ascii, upper_two. rewrite orb_true_iff, !Nat.ltb_lt. intros H.
  repeat match goal with |- context [(?n =? ?k) && (?m =? ?l)] => destruct (Nat.eqb_spec n k), (Nat.eqb_spec m l); cbn [andb] end;
    lia || done.
Qed.

Lemma upper_three_not_ascii a b c : is_ascii a || is_ascii b || is_ascii c = true → upper_three a b c = None.
Proof.
  unfold is_ascii, upper_three. rewrite !orb_true_iff, !Nat.ltb_lt. intros H.
  destruct (_ && _) eqn:Hb; [|done]. rewrite !andb_true_iff, !Nat.eqb_eq, Nat.leb_le in Hb. lia.
Qed.

Lemma to_uppercase_ascii s : string_forall is_ascii s = true → to_uppercase s = to_ascii_uppercase s.
Proof.
  unfold to_ascii_uppercase. induction s as [|a s IH]; [done|]. cbn [string_forall]. rewrite andb_true_iff. intros [Ha Hs].
  cbn [to_uppercase string_map]. rewrite IH by done. destruct s as [|b s]; [done|].
  rewrite upper_two_not_ascii by by rewrite Ha. destruct s as [|c s]; [done|]. by rewrite upper_three_not_ascii by by rewrite Ha.
Qed.

Lemma lower_base32_ascii a : implb (lower_base32 a) (is_ascii a) = true.
Proof. revert a. apply ascii_all. vm_compute. reflexivity. Qed.

Lemma uppercase_canonical bytes : to_uppercase (to_lowercase (base32_encode bytes)) = base32_encode bytes.
Proof.
  rewrite to_uppercase_ascii; [apply ascii_uppercase_canonical|]. eapply string_forall_impl; [|apply canonical_alphabet].
  intros a Ha. pose proof (lower_base32_ascii a) as H. by rewrite Ha in H.
Qed.

Lemma from_canonical_str_Ok value d :
  from_canonical_str value = Ok d ↔
  value = id_canonical d ∧ id_canonical d = to_lowercase (base32_encode (id_bytes d)) ∧
  length (id_bytes d) = 32 ∧ verifying_key (id_bytes d) = true.
Proof.
  unfold from_canonical_str. split.
  - destruct (_ || _); [done|]. destruct (base32_decode _) as [bytes|]; [|done].
    destruct (Nat.eqb_spec (length bytes) 32); cbn; [|done].
    destruct (verifying_key bytes) eqn:Hv; cbn; [|done]. case_bool_decide as Hc; [done|].
    intros [= <-]. done.
  - intros (-> & Hc & Hl & Hv). destruct d as [bytes canonical]; cbn in *. subst canonical.
    assert (Hne : to_lowercase (base32_encode bytes) ≠ EmptyString).
    { intros H. apply (f_equal String.length) in H. unfold to_lowercase in H.
      rewrite length_string_map, Hlen in H; done. }
    rewrite (bool_decide_eq_false_2 (_ = EmptyString)) by done.
    rewrite (lower_base32_lowercase (to_lowercase _)) by apply canonical_alphabet.
    rewrite bool_decide_eq_false_2 by tauto. cbn [orb]. rewrite uppercase_canonical, Hround, Hl. cbn.
    rewrite Hv. cbn. by rewrite bool_decide_eq_false_2 by tauto.
Qed.

(** Parsed identities have the same key exactly when they have the same spelling,
    which contains no dash. *)
Lemma parsed_eq v w d e :
  from_canonical_str v = Ok d → from_canonical_str w = Ok e → id_bytes d = id_bytes e ↔ v = w.
Proof.
  intros (-> & Hc & _)%from_canonical_str_Ok (-> & Hc' & _)%from_canonical_str_Ok.
  split; [by rewrite Hc, Hc'; intros ->|]. intros H. rewrite Hc, Hc' in H.
  apply (f_equal to_uppercase) in H. rewrite !uppercase_canonical in H.
  apply (f_equal base32_decode) in H. rewrite !Hround in H. by injection H.
Qed.

Lemma parsed_no_dash v d : from_canonical_str v = Ok d → no_dash v = true.
Proof.
  intros (-> & Hc & _)%from_canonical_str_Ok. apply lower_base32_no_dash. rewrite Hc. apply canonical_alphabet.
Qed.

Lemma parsed_spelling v d : from_canonical_str v = Ok d → id_canonical d = v.
Proof. by intros (-> & _)%from_canonical_str_Ok. Qed.

(** the allocation-free parser accepts exactly what the ordinary one
    accepts, with the same key. *)
Theorem canonical_parsers_agree value bytes :
  canonical_key_bytes value = Ok bytes ↔
  ∃ d, from_canonical_str value = Ok d ∧ id_bytes d = bytes.
Proof.
  split.
  - unfold canonical_key_bytes. destruct (String.length value =? 52); cbn; [|done].
    destruct (string_forall lower_base32 value); cbn; [|done].
    destruct (base32_decode (to_ascii_uppercase value)) as [b|]; [|done].
    destruct (Nat.eqb_spec (length b) 32); cbn; [|done]. case_bool_decide as Hc; [done|].
    destruct (verifying_key b) eqn:Hv; cbn; [|done]. intros [= ->].
    exists (mkDeviceId bytes value). split; [|done]. by apply from_canonical_str_Ok.
  - intros (d & (-> & Hc & Hl & Hv)%from_canonical_str_Ok & <-). unfold canonical_key_bytes. rewrite Hc.
    unfold to_lowercase at 1. rewrite length_string_map, Hlen by done. cbn [Nat.eqb negb].
    rewrite canonical_alphabet, ascii_uppercase_canonical, Hround, Hl. cbn.
    rewrite bool_decide_eq_false_2 by tauto. by rewrite Hv.
Qed.

(** a device has one spelling.  A parsed identity spells itself back, has no
    display suffix to strip, and two parsed identities are equal by key exactly
    when they are equal in the ordering and as strings. *)
Theorem device_identity_is_canonical v w d e :
  from_canonical_str v = Ok d → from_canonical_str w = Ok e →
  id_canonical d = v ∧ pubkey_part v = v ∧
  (device_eq d e = true ↔ device_cmp d e = Eq) ∧ (device_eq d e = true ↔ v = w).
Proof.
  intros Hd He. pose proof (parsed_eq _ _ _ _ Hd He) as Heq.
  unfold device_eq, device_cmp. rewrite (cmp_eq String.compare), bool_decide_eq_true.
  rewrite (parsed_spelling _ _ Hd), (parsed_spelling _ _ He).
  split_and!; try done. by eapply pubkey_part_canonical, parsed_no_dash.
Qed.
End device_id.

(** ** Witnesses: the RFC 4648 codec satisfies the hypotheses *)

Definition bits_of (width n : nat) : list bool :=
  (λ i, Nat.testbit n (width - 1 - i)) <$> seq 0 width.
Definition of_bits (l : list bool) : nat := foldl (λ acc b, 2 * acc + Nat.b2n b) 0 l.

Definition base32_char (bits : list bool) : Ascii.ascii :=
  let n := of_bits bits in Ascii.ascii_of_nat (if n <? 26 then 65 + n else 24 + n).
Definition base32_bits (a : Ascii.ascii) : list bool :=
  let n := Ascii.nat_of_ascii a in bits_of 5 (if 65 <=? n then n - 65 else n - 24).

Fixpoint chunks (count width : nat) (l : list bool) : list (list bool) :=
  match count with
  | 0 => []
  | S count => take width l :: chunks count width (drop width l)
  end.

Definition rfc4648_encode (bytes : list Ascii.ascii) : string :=
  let bits := mjoin ((λ a, bits_of 8 (Ascii.nat_of_ascii a)) <$> bytes) in
  let count := (length bits + 4) / 5 in
  String.string_of_list_ascii (base32_char <$> chunks count 5 (bits ++ replicate 4 false)).

Definition rfc4648_decode (s : string) : option (list Ascii.ascii) :=
  let bits := mjoin (base32_bits <$> String.list_ascii_of_string s) in
  Some ((λ l, Ascii.ascii_of_nat (of_bits l)) <$> chunks (length bits / 8) 8 bits).

Lemma length_chunks count width l : length (chunks count width l) = count.
Proof. revert l. induction count as [|c IH]; intros l; cbn; [done|]. by rewrite IH. Qed.

Lemma chunks_widths count width l :
  count * width ≤ length l → Forall (λ c, length c = width) (chunks count width l).
Proof.
  revert l. induction count as [|c IH]; intros l Hl; cbn; constructor.
  - rewrite length_take. lia.
  - apply IH. rewrite length_drop. lia.
Qed.

Lemma join_chunks count width l : mjoin (chunks count width l) = take (count * width) l.
Proof.
  revert l. induction count as [|c IH]; intros l; cbn; [done|].
  rewrite IH. rewrite <- (take_drop width (take (width + c * width) l)), take_take, skipn_firstn_comm.
  f_equal; f_equal; lia.
Qed.

Lemma chunks_join width (ls : list (list bool)) rest :
  Forall (λ c, length c = width) ls → chunks (length ls) width (mjoin ls ++ rest) = ls.
Proof.
  induction 1 as [|c ls Hc Hls IH]; cbn [chunks length]; [done|]. change (mjoin (c :: ls)) with (c ++ mjoin ls).
  rewrite <- app_assoc, take_app_length', drop_app_length' by done. by rewrite IH.
Qed.

Lemma bits5_roundtrip l : length l = 5 → base32_bits (base32_char l) = l ∧ upper_base32 (base32_char l) = true.
Proof.
  intros Hl. destruct l as [|[] [|[] [|[] [|[] [|[] [|]]]]]]; cbn in Hl; try done; vm_compute; done.
Qed.

Lemma bits8_roundtrip a : Ascii.ascii_of_nat (of_bits (bits_of 8 (Ascii.nat_of_ascii a))) = a.
Proof.
  assert (H : ∀ a, Ascii.eqb (Ascii.ascii_of_nat (of_bits (bits_of 8 (Ascii.nat_of_ascii a)))) a = true).
  { apply ascii_all. vm_compute. reflexivity. }
  by apply Ascii.eqb_eq.
Qed.

Lemma length_join_bits bytes :
  length (mjoin ((λ a, bits_of 8 (Ascii.nat_of_ascii a)) <$> bytes)) = 8 * length bytes.
Proof.
  induction bytes as [|a l IH]; [done|]. rewrite fmap_cons.
  change (mjoin (?x :: ?l)) with (x ++ mjoin l). rewrite length_app, IH.
  unfold bits_of. rewrite length_fmap, length_seq. cbn. lia.
Qed.

Lemma string_forall_list f l : string_forall f (String.string_of_list_ascii l) = forallb f l.
Proof. induction l as [|a l IH]; cbn; [done|]. by rewrite IH. Qed.

Lemma encode_chunks_width bytes :
  let bits := mjoin ((λ a, bits_of 8 (Ascii.nat_of_ascii a)) <$> bytes) in
  Forall (λ c, length c = 5) (chunks ((length bits + 4) / 5) 5 (bits ++ replicate 4 false)).
Proof.
  cbv zeta. apply chunks_widths. rewrite length_app, length_replicate.
  pose proof (Nat.Div0.mul_div_le (length (mjoin ((λ a, bits_of 8 (Ascii.nat_of_ascii a)) <$> bytes)) + 4) 5).
  lia.
Qed.

Lemma rfc4648_length bytes : length bytes = 32 → String.length (rfc4648_encode bytes) = 52.
Proof.
  intros Hl. unfold rfc4648_encode. rewrite length_join_bits, Hl.
  change ((8 * 32 + 4) / 5) with 52.
  assert (H : ∀ l, String.length (String.string_of_list_ascii l) = length l) by (induction l; cbn; congruence).
  by rewrite H, length_fmap, length_chunks.
Qed.

Lemma rfc4648_alphabet bytes : string_forall upper_base32 (rfc4648_encode bytes) = true.
Proof.
  unfold rfc4648_encode. rewrite string_forall_list. apply forallb_forall. intros a Ha.
  apply list_elem_of_In, list_elem_of_fmap in Ha as (c & -> & Hc).
  pose proof (encode_chunks_width bytes) as Hw. cbv zeta in Hw. rewrite Forall_forall in Hw.
  by apply bits5_roundtrip, Hw.
Qed.

Lemma rfc4648_round bytes : rfc4648_decode (rfc4648_encode bytes) = Some bytes.
Proof.
  unfold rfc4648_decode, rfc4648_encode. rewrite String.list_ascii_of_string_of_list_ascii.
  set (bl := (λ a, bits_of 8 (Ascii.nat_of_ascii a)) <$> bytes). set (bits := mjoin bl).
  pose proof (length_join_bits bytes) as Hbits. fold bl bits in Hbits.
  pose proof (encode_chunks_width bytes) as Hw. cbv zeta in Hw. fold bl bits in Hw.
  set (n := (length bits + 4) / 5) in *.
  assert (Hjoin : mjoin (base32_bits <$> (base32_char <$> chunks n 5 (bits ++ replicate 4 false)))
    = take (n * 5) (bits ++ replicate 4 false)).
  { rewrite <- join_chunks. f_equal. rewrite <- list_fmap_compose.
    rewrite <- (list_fmap_id (chunks n 5 _)) at 2. apply Forall_fmap_ext_1.
    eapply Forall_impl; [exact Hw|]. intros c Hc. cbn. by apply bits5_roundtrip. }
  rewrite Hjoin. f_equal.
  assert (Hn : length bits ≤ n * 5 ∧ n * 5 ≤ length bits + 4).
  { unfold n. pose proof (Nat.div_mod_eq (length bits + 4) 5).
    pose proof (Nat.mod_upper_bound (length bits + 4) 5). lia. }
  rewrite length_take, length_app, length_replicate, Nat.min_l by lia.
  assert (n * 5 / 8 = length bytes) as ->.
  { symmetry. apply (Nat.div_unique _ _ _ (n * 5 - length bits)); lia. }
  rewrite take_app_ge by lia. replace (length bytes) with (length bl) by (unfold bl; by rewrite length_fmap).
  rewrite chunks_join.
  - unfold bl. rewrite <- list_fmap_compose. rewrite <- (list_fmap_id bytes) at 2.
    apply list_fmap_ext. intros i a _. cbn -[bits_of]. apply bits8_roundtrip.
  - unfold bl. apply Forall_fmap, Forall_forall. intros a _. done.
Qed.

Definition demo_key : list Ascii.ascii := replicate 32 (Ascii.ascii_of_nat 7).
Definition demo_spelling : string := to_lowercase (rfc4648_encode demo_key).

Lemma canonical_parsers_agree_witness :
  canonical_key_bytes rfc4648_decode rfc4648_encode (λ _, true) demo_spelling = Ok demo_key.
Proof.
  apply (canonical_parsers_agree rfc4648_decode rfc4648_encode (λ _, true)
    rfc4648_length rfc4648_alphabet rfc4648_round demo_spelling demo_key).
  exists (mkDeviceId demo_key demo_spelling). split; vm_compute; reflexivity.
Defined.

Lemma device_identity_is_canonical_witness :
  pubkey_part demo_spelling = demo_spelling.
Proof.
  apply (device_identity_is_canonical rfc4648_decode rfc4648_encode (λ _, true)
    rfc4648_length rfc4648_alphabet rfc4648_round demo_spelling demo_spelling
    (mkDeviceId demo_key demo_spelling) (mkDeviceId demo_key demo_spelling));
    vm_compute; reflexivity.
Defined.
