(* ===== verification/Hubs.v ===== *)
(** * The hub tier

    Models crates/myownmesh-core/src/topology/hubs.rs: rendezvous ranking of
    hubs, the edges and frame paths of the tier, and the bounded route plan.
    SHA-256 is not part of the repository and is a parameter; nothing is assumed
    of it.  The theorems show that the bounded scans compute prefixes of one
    global ranking, hence that every node agrees with every other. *)

From S2P Require Import Prelude Ranking Topology.
From stdpp Require Import relations.
Local Open Scope nat_scope.

(** ** Ranking keys: a descending score, ties by byte order *)

Definition lex_desc {A} (f : A → Z) (cmp : A → A → comparison) (a b : A) : comparison :=
  then_with (Z.compare (f b) (f a)) (cmp a b).

#[export] Instance lex_desc_cmp {A} (f : A → Z) cmp : CmpSpec cmp → CmpSpec (lex_desc f cmp).
Proof.
  intros Hc. unfold lex_desc, then_with. split.
  - intros x y. rewrite <- (cmpspec_eq (cmp := cmp) x y). destruct (Z.compare_spec (f y) (f x)) as [E|E|E].
    + done.
    + split; [done|]. intros ->%(cmpspec_eq (cmp := cmp)). lia.
    + split; [done|]. intros ->%(cmpspec_eq (cmp := cmp)). lia.
  - intros x y. rewrite (Z.compare_antisym (f y) (f x)), (cmpspec_antisym (cmp := cmp) x y).
    by destruct (f y ?= f x)%Z.
  - intros x y z. pose proof (cmpspec_trans (cmp := cmp) x y z).
    destruct (Z.compare_spec (f y) (f x)), (Z.compare_spec (f z) (f y)), (Z.compare_spec (f z) (f x));
      try done; try lia; auto.
Qed.

Section hubs.
Context (sha256 : string → list Z).

(** [u64::from_le_bytes]. *)
Definition from_le_bytes (bytes : list Z) : Z := foldr (λ b acc, (b + 256 * acc)%Z) 0%Z bytes.

(** The first eight bytes of [SHA-256(spoke ‖ ":" ‖ hub)]. *)
Definition rendezvous_score (spoke hub : string) : Z :=
  from_le_bytes (take 8 (sha256 (spoke ++ ":" ++ hub)%string)).

Record HubsSelector : Type := mkHubs { hubs : list string; spoke_redundancy : nat }.

Record RankedHub : Type := mkRankedHub { rh_score : Z; rh_key : string }.

Definition ranked_hub_order (l r : RankedHub) : comparison :=
  then_with (Z.compare (rh_score r) (rh_score l)) (String.compare (rh_key l) (rh_key r)).

Definition redundancy_limit (s : HubsSelector) : nat := spoke_redundancy s.

Definition is_hub (s : HubsSelector) (id : string) : bool :=
  let id := pubkey_part id in
  existsb (λ h, bool_decide (pubkey_part h = id)) (hubs s).

Definition configured_hub_score (s : HubsSelector) (spoke hub : string) : option Z :=
  let hub := pubkey_part hub in
  if existsb (λ c, bool_decide (pubkey_part c = hub)) (hubs s)
  then Some (rendezvous_score spoke hub) else None.

Definition ranked_hubs_prefix (s : HubsSelector) (spoke : string) (limit : nat) : list RankedHub :=
  let spoke := pubkey_part spoke in
  foldl (λ ranked configured,
           let hub := pubkey_part configured in
           if existsb (λ previous, bool_decide (rh_key previous = hub)) ranked then ranked
           else retain_ranked ranked_hub_order limit (mkRankedHub (rendezvous_score spoke hub) hub) ranked)
    [] (hubs s).

Definition hubs_for (s : HubsSelector) (spoke : string) : list string :=
  let limit := Nat.max (spoke_redundancy s) 1 in
  rh_key <$> ranked_hubs_prefix s spoke limit.

Definition spoke_selects_hub (s : HubsSelector) (spoke hub : string) : bool :=
  let limit := Nat.max (spoke_redundancy s) 1 in
  let hub := pubkey_part hub in
  existsb (λ candidate, bool_decide (rh_key candidate = hub)) (ranked_hubs_prefix s spoke limit).

Definition hubs_select_preferred (s : HubsSelector) (self_id : string) (peer_ids : list string) :
    gset string :=
  let self_is_hub := is_hub s self_id in
  let self_key := pubkey_part self_id in
  let selected_hubs := if self_is_hub then None else Some (hubs_for s self_id) in
  list_to_set
    (filter (λ peer,
       (if bool_decide (pubkey_part peer = self_key) then false
        else match self_is_hub, is_hub s peer with
             | true, true => true
             | false, true =>
                 match selected_hubs with
                 | Some hs => existsb (λ hub, bool_decide (hub = pubkey_part peer)) hs
                 | None => false
                 end
             | true, false => spoke_selects_hub s peer self_id
             | false, false => false
             end) = true) peer_ids).

Definition hubs_edge (s : HubsSelector) (a b : string) (_all : list string) : bool :=
  if bool_decide (pubkey_part a = pubkey_part b) then false
  else match is_hub s a, is_hub s b with
       | true, true => true
       | false, true => spoke_selects_hub s a b
       | true, false => spoke_selects_hub s b a
       | false, false => false
       end.

(** ** The route plan *)

Record RankedCandidate : Type := mkCandidate {
  rc_direct : bool;
  rc_score : Z;
  rc_key : string;
  rc_peer : string;
}.

Definition rc_set_peer (p : string) (c : RankedCandidate) : RankedCandidate :=
  mkCandidate (rc_direct c) (rc_score c) (rc_key c) p.

Definition route_candidate_order (l r : RankedCandidate) : comparison :=
  then_with (Bool.compare (rc_direct r) (rc_direct l))
    (then_with (Z.compare (rc_score r) (rc_score l)) (String.compare (rc_key l) (rc_key r))).

(** One iteration over [connected]. *)
Definition hop_step (s : HubsSelector) (source_key dest_key : string) (destination_is_hub : bool)
    (target : nat) (candidates : list RankedCandidate) (peer : string) : list RankedCandidate :=
  let key := pubkey_part peer in
  if bool_decide (key = source_key) then candidates
  else
    match configured_hub_score s dest_key key with
    | None => candidates
    | Some score =>
        let candidate := mkCandidate (destination_is_hub && bool_decide (key = dest_key)) score key peer in
        match update_existing rc_key rc_peer rc_set_peer candidate candidates with
        | Some candidates => candidates
        | None => retain_ranked route_candidate_order target candidate candidates
        end
    end.

Definition next_hops_with_limit (s : HubsSelector) (self_id dest : string) (connected : list string)
    (limit : nat) : list string :=
  let dest_key := pubkey_part dest in
  let source_key := pubkey_part self_id in
  let target := Nat.min limit (redundancy_limit s) in
  if target =? 0 then []
  else
    let destination_is_hub := is_hub s dest_key in
    rc_peer <$> foldl (hop_step s source_key dest_key destination_is_hub target) [] connected.

Definition hubs_selector (s : HubsSelector) : Topology :=
  mkTopology (hubs_select_preferred s) (hubs_edge s) true (λ self_id _, is_hub s self_id)
    (next_hops_with_limit s) default_preferred_next_hop 4.

(** ** The scans compute the global ranking *)

Definition hub_cmp (spoke : string) : string → string → comparison :=
  lex_desc (rendezvous_score spoke) String.compare.

#[local] Instance hub_cmp_spec spoke : CmpSpec (hub_cmp spoke).
Proof. apply _. Qed.

(** Every configured hub key in the order of [spoke]. *)
Definition full_ranking (spoke : string) (s : HubsSelector) : list string :=
  btree_set (hub_cmp (pubkey_part spoke)) (pubkey_part <$> hubs s).

(** A ranking scan that skips the keys already kept yields the best [limit] keys. *)
Definition scan_key (sp : string) (limit : nat) (ranked : list RankedHub) (key : string) : list RankedHub :=
  if existsb (λ previous, bool_decide (rh_key previous = key)) ranked then ranked
  else retain_ranked ranked_hub_order limit (mkRankedHub (rendezvous_score sp key) key) ranked.

Lemma scan_keys_ranking sp limit keys :
  rh_key <$> foldl (scan_key sp limit) [] keys = take limit (btree_set (hub_cmp sp) keys).
Proof.
  assert (H : let r := foldl (scan_key sp limit) [] keys in
    rh_key <$> r = take limit (btree_set (hub_cmp sp) keys) ∧
    Forall (λ a, rh_score a = rendezvous_score sp (rh_key a)) r); [|apply H].
  induction keys as [|k l [IHk IHs]] using rev_ind; [split; [by destruct limit|constructor]|].
  cbv zeta. rewrite foldl_app, btree_set_snoc. cbn [foldl].
  set (r := foldl _ [] l) in *. unfold scan_key. rewrite existsb_elem, IHk.
  rewrite <- retain_unique_take by (apply _ || apply (btree_set_increasing _)).
  unfold retain_unique. destruct (bool_decide (k ∈ take limit _)); [done|].
  assert (Hall : Forall (λ a, rh_score a = rendezvous_score sp (rh_key a))
    (mkRankedHub (rendezvous_score sp k) k :: r)) by (by constructor).
  rewrite Forall_forall in Hall. split.
  - rewrite (retain_ranked_map rh_key _ (hub_cmp sp)); [by rewrite IHk|].
    intros a b Ha Hb. unfold ranked_hub_order, hub_cmp, lex_desc. by rewrite (Hall a Ha), (Hall b Hb).
  - apply Forall_forall. intros a Ha%elem_of_retain_ranked. apply Hall.
    destruct Ha as [->|]; [by left|by right].
Qed.

Lemma ranked_hubs_prefix_spec s spoke limit :
  rh_key <$> ranked_hubs_prefix s spoke limit = take limit (full_ranking spoke s).
Proof.
  unfold ranked_hubs_prefix, full_ranking. rewrite <- scan_keys_ranking. f_equal.
  by rewrite foldl_fmap.
Qed.

Lemma spoke_selects_hub_spec s spoke hub :
  spoke_selects_hub s spoke hub
  = bool_decide (pubkey_part hub ∈ take (Nat.max (spoke_redundancy s) 1) (full_ranking spoke s)).
Proof. unfold spoke_selects_hub. by rewrite existsb_elem, ranked_hubs_prefix_spec. Qed.

Definition route_cmp (dest_key : string) (dih : bool) : string → string → comparison :=
  lex_desc (λ k, Z.b2z (dih && bool_decide (k = dest_key)))
    (lex_desc (λ k, rendezvous_score dest_key (pubkey_part k)) String.compare).

#[local] Instance route_cmp_spec dest_key dih : CmpSpec (route_cmp dest_key dih).
Proof. apply _. Qed.

(** The connected keys a route plan may use. *)
Definition eligible (s : HubsSelector) (source_key k : string) : Prop :=
  k ≠ source_key ∧ is_hub s k = true.

#[local] Instance eligible_dec s source_key k : Decision (eligible s source_key k).
Proof. apply _. Defined.

Definition route_keys (s : HubsSelector) (source_key : string) (connected : list string) : list string :=
  filter (eligible s source_key) (pubkey_part <$> connected).

Lemma route_order_key dest_key dih a b :
  let ok c := rc_direct c = dih && bool_decide (rc_key c = dest_key) ∧
              rc_score c = rendezvous_score dest_key (pubkey_part (rc_key c)) in
  ok a → ok b → route_candidate_order a b = route_cmp dest_key dih (rc_key a) (rc_key b).
Proof.
  cbv zeta. intros [Hd Hs] [Hd' Hs']. unfold route_candidate_order, route_cmp, lex_desc.
  rewrite <- Hd, <- Hd', <- Hs, <- Hs'. f_equal. by destruct (rc_direct a), (rc_direct b).
Qed.

Lemma elem_of_route_keys s source_key l k :
  k ∈ route_keys s source_key l ↔ eligible s source_key k ∧ ∃ p, p ∈ l ∧ pubkey_part p = k.
Proof. unfold route_keys. rewrite list_elem_of_filter, list_elem_of_fmap. naive_solver. Qed.

Lemma configured_score_spec s dest_key k :
  configured_hub_score s dest_key k
  = if is_hub s k then Some (rendezvous_score dest_key (pubkey_part k)) else None.
Proof. done. Qed.

Lemma hop_step_skip s source_key dest_key dih target r p :
  ¬ eligible s source_key (pubkey_part p) → hop_step s source_key dest_key dih target r p = r.
Proof.
  intros Hne. unfold hop_step. rewrite configured_score_spec. case_bool_decide; [done|].
  destruct (is_hub s (pubkey_part p)) eqn:Hh; [|done]. destruct Hne. by split.
Qed.

(** The state of the scan after the peers [l]. *)
Lemma hop_scan s source_key dest_key dih target l :
  let r := foldl (hop_step s source_key dest_key dih target) [] l in
  rc_key <$> r = take target (btree_set (route_cmp dest_key dih) (route_keys s source_key l)) ∧
  spelled rc_key rc_peer l r ∧
  Forall (λ c, rc_direct c = dih && bool_decide (rc_key c = dest_key) ∧
               rc_score c = rendezvous_score dest_key (pubkey_part (rc_key c))) r.
Proof.
  induction l as [|p l (IHk & IHp & IHs)] using rev_ind; cbv zeta.
  { split_and!; [by destruct target|constructor|constructor]. }
  rewrite foldl_app. cbn [foldl]. set (r := foldl _ [] l) in *. set (k := pubkey_part p).
  assert (Hkeys : route_keys s source_key (l ++ [p])
    = route_keys s source_key l ++ (if decide (eligible s source_key k) then [k] else [])).
  { unfold route_keys. rewrite fmap_app, filter_app. cbn [fmap list_fmap].
    by rewrite filter_cons, filter_nil. }
  assert (Hin : ∀ x, x ∈ rc_key <$> r → x ∈ route_keys s source_key l).
  { intros x. rewrite IHk. intros Hx%elem_of_take_in. by apply elem_of_btree_set in Hx; [|apply _]. }
  destruct (decide (eligible s source_key k)) as [[Hns Hhub]|Hne].
  2:{ rewrite hop_step_skip, Hkeys, app_nil_r by done. split_and!; [done| |done].
      apply spelled_other; [|done]. intros [Hx _]%Hin%elem_of_route_keys. by apply Hne. }
  unfold hop_step. fold k. rewrite configured_score_spec.
  rewrite bool_decide_eq_false_2, Hhub, Hkeys, btree_set_snoc by done.
  set (c := mkCandidate _ _ _ _).
  destruct (update_existing rc_key rc_peer rc_set_peer c r) as [r'|] eqn:Hu.
  - assert (Hkin : k ∈ rc_key <$> r).
    { destruct (decide (k ∈ rc_key <$> r)) as [|Hn]; [done|].
      by rewrite (proj2 (update_existing_None _ _ _ c r) Hn) in Hu. }
    split_and!.
    + rewrite (update_existing_keys rc_key rc_peer rc_set_peer (λ _ _, eq_refl) c r r' Hu), IHk, set_insert_elem; [done|apply _| |].
      * apply btree_set_increasing, _.
      * apply elem_of_btree_set; [apply _|]. by apply Hin.
    + change p with (rc_peer c). eapply (update_existing_spelled rc_key rc_peer rc_set_peer (λ _ _, eq_refl) (λ _ _, eq_refl));
        try done. rewrite IHk.
      apply NoDup_take, (increasing_NoDup (route_cmp dest_key dih)), btree_set_increasing, _.
    + eapply update_existing_Forall; [|exact IHs|exact Hu]. done.
  - apply update_existing_None in Hu.
    assert (Hall : Forall (λ c, rc_direct c = dih && bool_decide (rc_key c = dest_key) ∧
      rc_score c = rendezvous_score dest_key (pubkey_part (rc_key c))) (c :: r)) by (by constructor).
    rewrite Forall_forall in Hall.
    assert (Hk' : rc_key <$> retain_ranked route_candidate_order target c r
      = take target (set_insert (route_cmp dest_key dih) k
          (btree_set (route_cmp dest_key dih) (route_keys s source_key l)))).
    { rewrite (retain_ranked_map rc_key _ (route_cmp dest_key dih)).
      - rewrite IHk. apply retain_ranked_take; [apply _|apply btree_set_increasing, _|]. by rewrite <- IHk.
      - intros a b Ha Hb. apply route_order_key; by apply Hall. }
    split_and!; [done| |].
    + apply Forall_forall. intros a Ha. pose proof (list_elem_of_fmap_2 rc_key _ _ Ha) as Hak.
      apply elem_of_retain_ranked in Ha as [->|Ha].
      * rewrite connected_spelling_snoc, decide_True by done.
        replace (connected_spelling (rc_key c) l) with (@None string); [done|]. symmetry.
        apply connected_spelling_None. intros q Hq Hqk. apply Hu. rewrite Hk' in Hak.
        rewrite set_insert_elem, <- IHk in Hak; [done|apply _|apply btree_set_increasing, _|].
        apply elem_of_btree_set; [apply _|]. apply elem_of_route_keys. split; [done|]. by exists q.
      * pose proof (spelled_other rc_key rc_peer l r p Hu IHp) as Hsp.
        unfold spelled in Hsp. rewrite Forall_forall in Hsp. by apply Hsp.
    + apply Forall_forall. intros a Ha%elem_of_retain_ranked. apply Hall.
      destruct Ha as [->|]; [by left|by right].
Qed.

(** The route plan as keys: the best connected hubs in the order of the
    destination. *)
Definition hop_plan (s : HubsSelector) (self dest : string) (connected : list string) (limit : nat) :
    list string :=
  let target := Nat.min limit (redundancy_limit s) in
  take target (btree_set (route_cmp (pubkey_part dest) (is_hub s (pubkey_part dest)))
                 (route_keys s (pubkey_part self) connected)).

Lemma hubs_hops s self dest connected limit :
  next_hops_with_limit s self dest connected limit
  = spellings (hop_plan s self dest connected limit) connected.
Proof.
  unfold next_hops_with_limit, hop_plan. destruct (Nat.eqb_spec (limit `min` redundancy_limit s) 0) as [->|Hne].
  { by rewrite take_0. }
  destruct (hop_scan s (pubkey_part self) (pubkey_part dest) (is_hub s (pubkey_part dest))
    (limit `min` redundancy_limit s) connected) as (Hk & Hp & _).
  by rewrite (spelled_peers rc_key rc_peer connected _ Hp), Hk.
Qed.

Lemma hubs_edge_sym s a b all : hubs_edge s a b all = hubs_edge s b a all.
Proof.
  unfold hubs_edge. rewrite (bool_decide_ext (pubkey_part a = pubkey_part b) (pubkey_part b = pubkey_part a))
    by naive_solver.
  destruct (bool_decide _); [done|]. by destruct (is_hub s a), (is_hub s b).
Qed.

Lemma hubs_preferred_spec s self peers p :
  p ∈ hubs_select_preferred s self peers ↔ p ∈ peers ∧ hubs_edge s self p peers = true.
Proof.
  unfold hubs_select_preferred, hubs_edge. rewrite elem_of_list_to_set, list_elem_of_filter.
  rewrite (bool_decide_ext (pubkey_part p = pubkey_part self) (pubkey_part self = pubkey_part p)) by naive_solver.
  case_bool_decide; [naive_solver|].
  destruct (is_hub s self) eqn:Hs, (is_hub s p) eqn:Hp; try naive_solver.
  unfold hubs_for. rewrite (existsb_elem (λ h, h)), list_fmap_id, ranked_hubs_prefix_spec, spoke_selects_hub_spec.
  tauto.
Qed.

Lemma hubs_lawful s : lawful (hubs_selector s).
Proof.
  apply (plan_lawful _ (hop_plan s)); cbn.
  - apply hubs_edge_sym.
  - intros self peers p [Hp _]%hubs_preferred_spec. by apply elem_of_list_to_set.
  - apply hubs_hops.
  - intros self dest c limit. unfold hop_plan.
    eapply NoDup_take, increasing_NoDup, btree_set_increasing; apply _.
  - intros self dest c limit. unfold hop_plan. rewrite length_take. lia.
  - intros self dest c limit _ Hin%elem_of_take_in.
    apply elem_of_btree_set in Hin; [|apply _]. apply elem_of_route_keys in Hin as [[] _]. done.
  - intros self dest c c' limit Hc. unfold hop_plan. f_equal. apply btree_set_ext; [apply _|].
    intros k. rewrite !elem_of_route_keys. naive_solver.
Qed.

(** ** Properties *)

(** the bounded scan is the global ranking.  The hubs of a spoke, computed
    by bounded insertion with binary search over the configured list, are the
    first [max(spoke_redundancy, 1)] of all hub keys sorted by descending
    rendezvous score, ties by byte order. *)
Theorem hubs_for_is_ranking_prefix s spoke :
  hubs_for s spoke = take (Nat.max (spoke_redundancy s) 1) (full_ranking spoke s).
Proof. unfold hubs_for. apply ranked_hubs_prefix_spec. Qed.

(** the route plan is the best connected hubs of the destination, in the
    destination's order, each named by its least connected spelling; the bounded
    one-pass scan never misses a better hub nor depends on observation order. *)
Theorem hub_route_plan_is_best_prefix s self dest connected limit :
  next_hops (hubs_selector s) self dest connected limit
  = spellings
      (take (Nat.min limit (spoke_redundancy s))
         (btree_set (route_cmp (pubkey_part dest) (is_hub s (pubkey_part dest)))
            (route_keys s (pubkey_part self) connected)))
      connected.
Proof. apply hubs_hops. Qed.

(** frames flow exactly where connections exist.  A peer is preferred by a
    node exactly when the tier has an edge between them, and both ends agree. *)
Theorem hub_preference_is_edge s self peers p :
  p ∈ select_preferred (hubs_selector s) self peers ↔
  p ∈ peers ∧ edge (hubs_selector s) self p peers = true ∧ edge (hubs_selector s) p self peers = true.
Proof. cbn. rewrite hubs_preferred_spec, (hubs_edge_sym s p self). tauto. Qed.

Definition without_hub (h : string) (s : HubsSelector) : HubsSelector :=
  mkHubs (filter (λ c, pubkey_part c ≠ h) (hubs s)) (spoke_redundancy s).

Lemma full_ranking_without spoke s h :
  full_ranking spoke (without_hub h s) = filter (λ k, k ≠ h) (full_ranking spoke s).
Proof.
  unfold full_ranking. cbn. rewrite <- (btree_set_filter _). f_equal.
  induction (hubs s) as [|c l IH]; [done|]. rewrite fmap_cons, !filter_cons.
  destruct (decide (pubkey_part c ≠ h)); cbn; by rewrite <- IH.
Qed.

(** rendezvous stability.  When a hub leaves the configuration, a spoke
    that had not ranked it keeps exactly its hubs, and a spoke that had ranked
    it keeps all the others. *)
Theorem leaving_hub_moves_only_its_spokes s spoke h :
  (h ∉ hubs_for s spoke → hubs_for (without_hub h s) spoke = hubs_for s spoke) ∧
  (∀ k, k ∈ hubs_for s spoke → k ≠ h → k ∈ hubs_for (without_hub h s) spoke).
Proof.
  unfold hubs_for. rewrite !ranked_hubs_prefix_spec, full_ranking_without. cbn. split.
  - apply take_filter_out.
  - intros k. apply take_filter_keep.
Qed.

Lemma is_hub_key s a b : pubkey_part a = pubkey_part b → is_hub s a = is_hub s b.
Proof. intros H. unfold is_hub. by rewrite H. Qed.

Lemma configured_is_hub s h : h ∈ hubs s → is_hub s h = true.
Proof.
  intros Hh. unfold is_hub. rewrite (existsb_elem pubkey_part). apply bool_decide_eq_true_2.
  by apply list_elem_of_fmap_2.
Qed.

(** Every spoke has an edge to a hub. *)
Lemma spoke_has_hub s a all :
  hubs s ≠ [] → is_hub s a = false → ∃ h, is_hub s h = true ∧ hubs_edge s a h all = true.
Proof.
  intros Hne Ha.
  assert (∃ k, k ∈ take (Nat.max (spoke_redundancy s) 1) (full_ranking a s)) as [k Hk].
  { destruct (full_ranking a s) as [|k l] eqn:Hr.
    - exfalso. destruct (hubs s) as [|c l] eqn:Hh; [done|].
      assert (pubkey_part c ∈ full_ranking a s) as Hin.
      { unfold full_ranking. apply elem_of_btree_set; [apply _|]. rewrite Hh. by left. }
      rewrite Hr in Hin. by apply not_elem_of_nil in Hin.
    - exists k. replace (Nat.max (spoke_redundancy s) 1) with (S (Nat.max (spoke_redundancy s) 1 - 1)) by lia.
      by left. }
  assert (Hkr : k ∈ full_ranking a s) by (by eapply elem_of_take_in).
  apply elem_of_btree_set in Hkr; [|apply _]. apply list_elem_of_fmap in Hkr as (h & -> & Hh).
  exists h. pose proof (configured_is_hub s h Hh) as Hhub. split; [done|]. unfold hubs_edge.
  rewrite bool_decide_eq_false_2 by (intros Heq%(is_hub_key s); congruence).
  rewrite Ha, Hhub, spoke_selects_hub_spec. by apply bool_decide_eq_true_2.
Qed.

(** the tier is connected with diameter three.  With at least one hub
    configured, any two members are joined by at most three edges, within the
    mode's flood TTL of four. *)
Theorem hub_tier_diameter s a b all :
  hubs s ≠ [] → pubkey_part a ≠ pubkey_part b →
  ∃ n, n ≤ 3 ∧ n < flood_ttl (hubs_selector s) ∧
    nsteps (λ x y, edge (hubs_selector s) x y all = true) n a b.
Proof.
  intros Hne Hab. cbn.
  set (R := λ x y, hubs_edge s x y all = true).
  assert (Hhh : ∀ x y, is_hub s x = true → is_hub s y = true → pubkey_part x ≠ pubkey_part y → R x y).
  { intros x y Hx Hy Hxy. unfold R, hubs_edge. by rewrite bool_decide_eq_false_2, Hx, Hy. }
  assert (Hdown : ∀ x y z, pubkey_part x = pubkey_part y → R y z → R x z).
  { intros x y z Hxy. unfold R, hubs_edge. rewrite Hxy, (is_hub_key s x y Hxy), !spoke_selects_hub_spec.
    unfold full_ranking. by rewrite Hxy. }
  assert (Hup : ∀ x, is_hub s x = false → ∃ h, is_hub s h = true ∧ R x h ∧ R h x).
  { intros x Hx. destruct (spoke_has_hub s x all Hne Hx) as (h & Hh & He). exists h.
    split_and!; try done. unfold R. by rewrite hubs_edge_sym. }
  destruct (is_hub s a) eqn:Ha, (is_hub s b) eqn:Hb.
  - exists 1. split_and!; [lia..|]. apply nsteps_once. by apply Hhh.
  - destruct (Hup b Hb) as (h & Hh & _ & Hhb). destruct (decide (pubkey_part a = pubkey_part h)).
    + exists 1. split_and!; [lia..|]. apply nsteps_once. by eapply Hdown.
    + exists 2. split_and!; [lia..|]. eapply nsteps_l; [by apply (Hhh a h)|]. by apply nsteps_once.
  - destruct (Hup a Ha) as (h & Hh & Hah & _). destruct (decide (pubkey_part h = pubkey_part b)) as [Heq|].
    + exists 1. split_and!; [lia..|]. apply nsteps_once. unfold R. rewrite hubs_edge_sym.
      eapply Hdown; [symmetry; exact Heq|]. unfold R. by rewrite hubs_edge_sym.
    + exists 2. split_and!; [lia..|]. eapply nsteps_l; [exact Hah|]. apply nsteps_once. by apply Hhh.
  - destruct (Hup a Ha) as (h & Hh & Hah & _), (Hup b Hb) as (h' & Hh' & _ & Hhb).
    destruct (decide (pubkey_part h = pubkey_part h')) as [Heq|].
    + exists 2. split_and!; [lia..|]. eapply nsteps_l; [exact Hah|]. apply nsteps_once. by eapply Hdown.
    + exists 3. split_and!; [lia..|]. eapply nsteps_l; [exact Hah|].
      eapply nsteps_l; [by apply (Hhh h h')|]. by apply nsteps_once.
Qed.

End hubs.

(** ** Witness: two hubs and two spokes *)

Definition demo_hubs : HubsSelector := mkHubs ["hub1"; "hub2"]%string 1.

Lemma hub_tier_diameter_witness :
  ∃ n, n ≤ 3 ∧ n < 4 ∧
    nsteps (λ x y, hubs_edge (λ _, []) demo_hubs x y [] = true) n "spoke1"%string "spoke2"%string.
Proof.
  apply (hub_tier_diameter (λ _, []) demo_hubs "spoke1"%string "spoke2"%string []);
    [discriminate | vm_compute; discriminate].
Defined.
