(* ===== verification/Ring.v ===== *)
(** * The ring

    Models crates/myownmesh-core/src/topology/ring.rs: the neighbours of a node
    on the sorted ring of identifiers, the edges they induce, and the bounded
    greedy route plan.  The outward walk is a fuelled loop; [ring_len] steps are
    enough because the distance grows by one in each and stops at [ring_len]. *)

From S2P Require Import Prelude Ranking Topology Hubs.
From stdpp Require Import relations.
Local Open Scope nat_scope.

(** ** [select_ring_neighbors] *)

(** [ring[i % ring_len]]. *)
Definition ring_at (ring : list string) (i : nat) : string := nth (i mod length ring) ring EmptyString.

(** [if x != self && !preferred.contains(x) { preferred.insert(x) }], and
    whether it inserted. *)
Definition ring_offer (self x : string) (preferred : gset string) : gset string * bool :=
  if bool_decide (x ≠ self) && bool_decide (x ∉ preferred) then ({[x]} ∪ preferred, true)
  else (preferred, false).

(** The two immediate neighbours. *)
Definition ring_initial (ring : list string) (my_idx : nat) : gset string :=
  if 1 <? length ring
  then {[ring_at ring (my_idx + 1); ring_at ring (my_idx + length ring - 1)]} else ∅.

(** The [while] loop that walks outward from the node. *)
Fixpoint ring_fill (fuel : nat) (ring : list string) (self : string) (my_idx n dist : nat)
    (preferred : gset string) : gset string :=
  match fuel with
  | 0 => preferred
  | S fuel =>
      if (size preferred <? n) && (dist <? length ring) then
        let '(preferred, inserted) := ring_offer self (ring_at ring (my_idx + dist)) preferred in
        if inserted && (n <=? size preferred) then preferred
        else
          let '(preferred, _) :=
            ring_offer self (ring_at ring (my_idx + length ring - dist)) preferred in
          ring_fill fuel ring self my_idx n (dist + 1) preferred
      else preferred
  end.

(** [None] is the [expect] on the node's own position, which cannot fail. *)
Definition select_ring_neighbors (self : string) (peers : list string) (n : nat) :
    option (gset string) :=
  match peers with
  | [] => Some ∅
  | _ =>
      if length peers <=? n then Some (list_to_set peers)
      else
        let ring := set_insert String.compare self (btree_set String.compare peers) in
        '(my_idx, _) ← list_find (λ s, s = self) ring;
        Some (ring_fill (length ring) ring self my_idx n 2 (ring_initial ring my_idx))
  end.

Record RingSelector : Type := mkRing { n_preferred : nat }.

Definition ring_preferred (s : RingSelector) (self : string) (peers : list string) : gset string :=
  default ∅ (select_ring_neighbors self peers (n_preferred s)).

(** The [others] closure of [edge]. *)
Definition others (a b : string) (all : list string) (me : string) : list string :=
  foldl (λ v extra, if bool_decide (extra ≠ me) && negb (existsb (λ x, bool_decide (x = extra)) v)
                    then v ++ [extra] else v)
    (filter (λ x, x ≠ me) all) [a; b].

Definition ring_edge (s : RingSelector) (a b : string) (all : list string) : bool :=
  bool_decide (b ∈ ring_preferred s a (others a b all a)) ||
  bool_decide (a ∈ ring_preferred s b (others a b all b)).

(** ** [next_hops] *)

Fixpoint common_prefix (a b : string) : nat :=
  match a, b with
  | String x a, String y b => if Ascii.eqb x y then S (common_prefix a b) else 0
  | _, _ => 0
  end.

Definition ring_distance (a b : string) : nat :=
  let common := common_prefix a b in
  let max_len := Nat.max (Nat.max (String.length a) (String.length b)) 1 in
  max_len - Nat.min common max_len.

Record RankedHop : Type := mkHop { hop_distance : nat; hop_key : string; hop_peer : string }.

Definition hop_set_peer (p : string) (h : RankedHop) : RankedHop :=
  mkHop (hop_distance h) (hop_key h) p.

Definition compare_ranked_hops (l r : RankedHop) : comparison :=
  then_with (Nat.compare (hop_distance l) (hop_distance r))
    (then_with (String.compare (hop_key l) (hop_key r)) (String.compare (hop_peer l) (hop_peer r))).

(** The index of the worst candidate: [for index in 1..len]. *)
Definition worst_index (candidates : list RankedHop) : nat :=
  foldl (λ worst index,
           match candidates !! worst, candidates !! index with
           | Some w, Some c => if is_less (compare_ranked_hops w c) then index else worst
           | _, _ => worst
           end) 0 (seq 1 (length candidates - 1)).

Definition ring_hop_step (self_key dest_key : string) (wanted : nat) (candidates : list RankedHop)
    (peer : string) : list RankedHop :=
  let key := pubkey_part peer in
  if bool_decide (key = self_key) then candidates
  else
    let candidate := mkHop (ring_distance key dest_key) key peer in
    match update_existing hop_key hop_peer hop_set_peer candidate candidates with
    | Some candidates => candidates
    | None =>
        if length candidates <? wanted then candidates ++ [candidate]
        else
          let worst := worst_index candidates in
          if match candidates !! worst with
             | Some w => is_less (compare_ranked_hops candidate w)
             | None => false
             end
          then <[worst := candidate]> candidates else candidates
    end.

Definition ring_next_hops (s : RingSelector) (self_id dest : string) (connected : list string)
    (limit : nat) : list string :=
  let wanted := Nat.min limit (n_preferred s) in
  if wanted =? 0 then []
  else
    let self_key := pubkey_part self_id in
    let dest_key := pubkey_part dest in
    hop_peer <$> sort_by compare_ranked_hops (foldl (ring_hop_step self_key dest_key wanted) [] connected).

Definition ring_selector (s : RingSelector) : Topology :=
  mkTopology (ring_preferred s) (ring_edge s) true (λ _ _, true) (ring_next_hops s)
    default_preferred_next_hop 32.

(** ** The outward walk *)

Section walk.
Context (ring : list string) (self : string) (i : nat).
Context (Hnd : NoDup ring) (Hi : ring !! i = Some self).

Let len := length ring.

Lemma ring_self_lt : i < len.
Proof. by apply lookup_lt_Some in Hi. Qed.

Lemma ring_at_lookup j : ring !! (j mod len) = Some (ring_at ring j).
Proof.
  unfold ring_at. pose proof ring_self_lt. fold len. rewrite nth_lookup.
  destruct (lookup_lt_is_Some_2 ring (j mod len)) as [x ->]; [|done].
  apply Nat.mod_upper_bound. lia.
Qed.

Lemma ring_at_elem j : ring_at ring j ∈ ring.
Proof. eapply list_elem_of_lookup_2, ring_at_lookup. Qed.

(** A whole number of turns away is another node unless it is no turn at all. *)
Lemma ring_at_other d : 0 < d < len → ring_at ring (i + d) ≠ self.
Proof.
  intros Hd Heq. pose proof ring_self_lt. pose proof (ring_at_lookup (i + d)) as Hl. rewrite Heq in Hl.
  pose proof (NoDup_lookup _ _ _ _ Hnd Hl Hi) as Hmod.
  destruct (decide (i + d < len)).
  - rewrite Nat.mod_small in Hmod by lia. lia.
  - replace (i + d) with (i + d - len + 1 * len) in Hmod by lia. rewrite Nat.Div0.mod_add in Hmod.
    rewrite Nat.mod_small in Hmod by lia. lia.
Qed.

(** Every other member of the ring is some distance away. *)
Lemma ring_member_distance y : y ∈ ring → y ≠ self → ∃ d, 0 < d < len ∧ ring_at ring (i + d) = y.
Proof.
  intros [j Hj]%list_elem_of_lookup Hy. pose proof ring_self_lt. pose proof (lookup_lt_Some _ _ _ Hj).
  assert (j ≠ i) by congruence. fold len in H0.
  assert (∃ d, 0 < d < len ∧ (i + d) mod len = j) as (d & Hd & Hm).
  { destruct (decide (i < j)).
    - exists (j - i). split; [lia|]. rewrite Nat.mod_small; lia.
    - exists (j + len - i). split; [lia|]. replace (i + (j + len - i)) with (j + 1 * len) by lia.
      rewrite Nat.Div0.mod_add, Nat.mod_small; lia. }
  exists d. split; [done|]. pose proof (ring_at_lookup (i + d)) as Hl. rewrite Hm, Hj in Hl. congruence.
Qed.

Lemma ring_offer_spec x p :
  let '(p', inserted) := ring_offer self x p in
  p ⊆ p' ∧ p' ⊆ {[x]} ∪ p ∧ (x ≠ self → x ∈ p') ∧ (p' ≠ p → x ≠ self) ∧
  size p' = size p + (if inserted then 1 else 0) ∧ (inserted = false → p' = p).
Proof.
  unfold ring_offer. case_bool_decide as Hx; cbn; [|split_and!; try done; try set_solver; lia].
  case_bool_decide as Hp; cbn; [|split_and!; try done; try set_solver; lia].
  split_and!; try done; try set_solver. rewrite size_union, size_singleton by set_solver. lia.
Qed.

Lemma ring_fill_spec n fuel dist p :
  let p' := ring_fill fuel ring self i n dist p in
  p ⊆ p' ∧ (∀ y, y ∈ p' → y ∈ p ∨ (y ∈ ring ∧ y ≠ self)) ∧ size p' ≤ Nat.max n (size p) ∧
  (len ≤ dist + fuel → n ≤ size p' ∨
     ∀ d, dist ≤ d < len → ring_at ring (i + d) ≠ self → ring_at ring (i + d) ∈ p').
Proof.
  revert dist p. induction fuel as [|fuel IH]; intros dist p; cbn [ring_fill].
  { split_and!; try done; [auto|lia|]. intros Hlen. right. intros; lia. }
  fold len. destruct (Nat.ltb_spec (size p) n) as [Hn|Hn]; cbn [andb].
  2:{ split_and!; try done; [auto|lia|]. auto. }
  destruct (Nat.ltb_spec dist len) as [Hd|Hd].
  2:{ split_and!; try done; [auto|lia|]. intros _. right. intros; lia. }
  pose proof (ring_offer_spec (ring_at ring (i + dist)) p) as H1.
  destruct (ring_offer self (ring_at ring (i + dist)) p) as [p1 ins1].
  destruct H1 as (Hs1 & Hi1 & Hx1 & Hne1 & Hz1 & Hid1).
  assert (Hin1 : ∀ y, y ∈ p1 → y ∈ p ∨ (y ∈ ring ∧ y ≠ self)).
  { intros y Hy. destruct (decide (p1 = p)) as [->|Hne]; [auto|].
    apply Hi1, elem_of_union in Hy as [->%elem_of_singleton|]; [|auto].
    right. split; [apply ring_at_elem|by apply Hne1]. }
  destruct (ins1 && (n <=? size p1)) eqn:Hbrk.
  { apply andb_true_iff in Hbrk as [-> Hfull%Nat.leb_le]. split_and!; try done; [lia|by left]. }
  pose proof (ring_offer_spec (ring_at ring (i + len - dist)) p1) as H2.
  destruct (ring_offer self (ring_at ring (i + len - dist)) p1) as [p2 ins2].
  destruct H2 as (Hs2 & Hi2 & Hx2 & Hne2 & Hz2 & Hid2).
  assert (Hin2 : ∀ y, y ∈ p2 → y ∈ p1 ∨ (y ∈ ring ∧ y ≠ self)).
  { intros y Hy. destruct (decide (p2 = p1)) as [->|Hne]; [auto|].
    apply Hi2, elem_of_union in Hy as [->%elem_of_singleton|]; [|auto].
    right. split; [apply ring_at_elem|by apply Hne2]. }
  assert (Hsz1 : size p1 < n).
  { destruct ins1; cbn in Hbrk; [apply Nat.leb_gt in Hbrk; lia|lia]. }
  destruct (IH (dist + 1) p2) as (Hs3 & Hin3 & Hz3 & Hex3).
  split_and!.
  - by etrans; [exact Hs1|]; etrans.
  - intros y [[?|?]%Hin2|?]%Hin3; auto.
  - destruct ins2; lia.
  - intros Hlen. destruct (Hex3 ltac:(lia)) as [|Hall]; [by left|right]. intros d Hdd Hself.
    destruct (decide (d = dist)) as [->|]; [by apply Hs3, Hs2, Hx1|]. apply Hall; [lia|done].
Qed.
End walk.

(** ** The neighbours *)

Definition ring_of (self : string) (peers : list string) : list string :=
  set_insert String.compare self (btree_set String.compare peers).

Lemma ring_of_increasing self peers : increasing String.compare (ring_of self peers).
Proof. apply set_insert_increasing, btree_set_increasing; apply _. Qed.

Lemma elem_of_ring_of self peers y : y ∈ ring_of self peers ↔ y = self ∨ y ∈ peers.
Proof. unfold ring_of. rewrite elem_of_set_insert, elem_of_btree_set by apply _. done. Qed.

Lemma ring_of_NoDup self peers : NoDup (ring_of self peers).
Proof. apply (increasing_NoDup String.compare), ring_of_increasing. Qed.

(** Above capacity the answer is a walk on the ring. *)
Lemma select_over_capacity self peers n :
  n < length peers →
  ∃ i, ring_of self peers !! i = Some self ∧
    select_ring_neighbors self peers n
    = Some (ring_fill (length (ring_of self peers)) (ring_of self peers) self i n 2
        (ring_initial (ring_of self peers) i)).
Proof.
  intros Hn. unfold select_ring_neighbors. fold (ring_of self peers).
  destruct (list_find_elem_of (λ s, s = self) (ring_of self peers) self) as [[i x] Hf];
    [by apply elem_of_ring_of; left|done|].
  pose proof Hf as (Hi & -> & _)%list_find_Some. exists i. split; [done|].
  destruct peers as [|q peers]; [cbn in Hn; lia|]. rewrite (proj2 (Nat.leb_gt _ _)) by done.
  by rewrite Hf.
Qed.

Lemma ring_initial_spec ring self i y :
  NoDup ring → ring !! i = Some self →
  y ∈ ring_initial ring i → y ∈ ring ∧ y ≠ self.
Proof.
  intros Hnd Hi. unfold ring_initial. destruct (Nat.ltb_spec 1 (length ring)); [|set_solver].
  rewrite elem_of_union, !elem_of_singleton. intros [->| ->].
  - split; [by eapply ring_at_elem|]. eapply ring_at_other; eauto; lia.
  - split; [by eapply ring_at_elem|]. rewrite <- Nat.add_sub_assoc by lia.
    eapply ring_at_other; eauto; lia.
Qed.

Lemma ring_initial_size ring i : size (ring_initial ring i) ≤ 2.
Proof.
  unfold ring_initial. destruct (1 <? _); [|rewrite size_empty; lia].
  rewrite size_union_alt, size_singleton.
  pose proof (subseteq_size ({[ring_at ring (i + length ring - 1)]} ∖ {[ring_at ring (i + 1)]})
    ({[ring_at ring (i + length ring - 1)]} : gset string) ltac:(set_solver)) as H.
  rewrite size_singleton in H. lia.
Qed.

Lemma ring_preferred_subset s self peers y : y ∈ ring_preferred s self peers → y ∈ peers.
Proof.
  unfold ring_preferred. destruct (decide (n_preferred s < length peers)) as [Hn|Hn].
  - destruct (select_over_capacity self peers (n_preferred s) Hn) as (i & Hi & ->). cbn.
    pose proof (ring_of_NoDup self peers) as Hnd.
    intros Hy. apply (ring_fill_spec _ _ _ Hnd Hi) in Hy.
    assert (y ∈ ring_of self peers ∧ y ≠ self) as [[->|?]%elem_of_ring_of ?]; [|done|done].
    destruct Hy as [Hy|]; [|done]. by apply (ring_initial_spec _ self i).
  - unfold select_ring_neighbors. destruct peers as [|q peers]; [set_solver|].
    rewrite (proj2 (Nat.leb_le _ _)) by lia. cbn -[list_to_set]. by rewrite elem_of_list_to_set.
Qed.

(** the ring keeps exactly [n_preferred] links.  With distinct peers beyond
    capacity and at least the two ring neighbours asked for, the walk ends with
    exactly [n_preferred] preferred peers; up to capacity every peer is
    preferred. *)
Theorem ring_keeps_exactly_n s self peers :
  NoDup peers → self ∉ peers → 2 ≤ n_preferred s →
  size (select_preferred (ring_selector s) self peers) = Nat.min (n_preferred s) (length peers) ∧
  select_preferred (ring_selector s) self peers ⊆ list_to_set peers.
Proof.
  intros Hndp Hself Hn2. cbn. split; cycle 1.
  { intros y Hy. apply elem_of_list_to_set. by eapply ring_preferred_subset. }
  unfold ring_preferred. set (n := n_preferred s) in *.
  destruct (decide (n < length peers)) as [Hn|Hn]; cycle 1.
  { unfold select_ring_neighbors. destruct peers as [|q peers]; [cbn -[size]; rewrite size_empty; lia|].
    rewrite (proj2 (Nat.leb_le _ _)) by lia. cbn -[list_to_set length]. rewrite size_list_to_set by done. lia. }
  destruct (select_over_capacity self peers n Hn) as (i & Hi & ->). cbn -[Nat.min].
  pose proof (ring_of_NoDup self peers) as Hnd. set (ring := ring_of self peers) in *.
  set (p0 := ring_initial ring i).
  destruct (ring_fill_spec ring self i Hnd Hi n (length ring) 2 p0) as (Hsub & _ & Hmax & Hall).
  assert (size p0 ≤ 2) by apply ring_initial_size.
  destruct (Hall ltac:(lia)) as [|Hex]; [lia|]. exfalso.
  assert (list_to_set peers ⊆ ring_fill (length ring) ring self i n 2 p0) as Hsup.
  { intros y Hy%elem_of_list_to_set.
    destruct (ring_member_distance ring self i Hi y) as (d & Hd & <-).
    - apply elem_of_ring_of. by right.
    - by intros ->.
    - destruct (decide (d = 1)) as [->|].
      + apply Hsub. unfold p0, ring_initial. rewrite (proj2 (Nat.ltb_lt _ _)) by lia. set_solver.
      + apply Hex; [lia|]. eapply ring_at_other; eauto. }
  apply subseteq_size in Hsup. rewrite size_list_to_set in Hsup by done. lia.
Qed.

(** ** Edges *)

Lemma others_step (v : list string) (extra me y : string) :
  y ∈ (if bool_decide (extra ≠ me) && negb (existsb (λ x, bool_decide (x = extra)) v)
       then v ++ [extra] else v)
  ↔ y ∈ v ∨ (y = extra ∧ extra ≠ me).
Proof.
  rewrite (existsb_elem (λ x, x)), list_fmap_id. case_bool_decide as Hm; cbn; [|naive_solver].
  case_bool_decide as Hv; cbn; [naive_solver|]. rewrite elem_of_app, list_elem_of_singleton. naive_solver.
Qed.

Lemma elem_of_others a b all me y :
  y ∈ others a b all me ↔ y ≠ me ∧ (y ∈ all ∨ y = a ∨ y = b).
Proof.
  unfold others. cbn [foldl]. rewrite !others_step, list_elem_of_filter. naive_solver.
Qed.

Lemma others_swap a b all me : me = a ∨ me = b → others a b all me = others b a all me.
Proof.
  intros Hme. unfold others. cbn [foldl].
  destruct Hme as [->| ->]; rewrite ?(bool_decide_eq_false_2 (a ≠ a)), ?(bool_decide_eq_false_2 (b ≠ b)) by tauto;
    done.
Qed.

Lemma ring_edge_sym s a b all : ring_edge s a b all = ring_edge s b a all.
Proof.
  unfold ring_edge. rewrite (others_swap a b all a), (others_swap a b all b) by auto. apply orb_comm.
Qed.

(** Consecutive members of the sorted membership are joined. *)
Lemma ring_successor_edge s all j a b :
  btree_set String.compare all !! j = Some a → btree_set String.compare all !! (j + 1) = Some b →
  ring_edge s a b all = true.
Proof.
  intros Ha Hb. set (M := btree_set String.compare all) in *.
  assert (HM : increasing String.compare M) by (apply btree_set_increasing, _).
  pose proof (increasing_NoDup _ _ HM) as Hnd.
  assert (Hab : b ≠ a). { intros ->. pose proof (NoDup_lookup _ _ _ _ Hnd Ha Hb). lia. }
  assert (Hin : ∀ x, x ∈ M ↔ x ∈ all) by (intros; apply elem_of_btree_set, _).
  assert (Hring : ring_of a (others a b all a) = M).
  { apply (increasing_unique String.compare); [apply ring_of_increasing|done|].
    intros x. rewrite elem_of_ring_of, elem_of_others, Hin.
    pose proof (proj1 (Hin a) (list_elem_of_lookup_2 _ _ _ Ha)).
    pose proof (proj1 (Hin b) (list_elem_of_lookup_2 _ _ _ Hb)).
    destruct (decide (x = a)); naive_solver. }
  unfold ring_edge. apply orb_true_iff. left. apply bool_decide_eq_true_2. unfold ring_preferred.
  destruct (decide (n_preferred s < length (others a b all a))) as [Hn|Hn].
  - destruct (select_over_capacity a _ _ Hn) as (i & Hi & Hsel).
    rewrite Hring in Hi, Hsel. rewrite Hsel. assert (i = j) as -> by (by eapply NoDup_lookup).
    apply (proj1 (ring_fill_spec M a j Hnd Hi (n_preferred s) (length M) 2 (ring_initial M j))).
    unfold ring_initial.
    pose proof (lookup_lt_Some _ _ _ Hb) as Hlt. rewrite (proj2 (Nat.ltb_lt _ _)) by lia.
    pose proof (ring_at_lookup M a j Hi (j + 1)) as Hat. rewrite Nat.mod_small in Hat by lia.
    assert (ring_at M (j + 1) = b) as -> by congruence. set_solver.
  - assert (Hbo : b ∈ others a b all a) by (apply elem_of_others; auto).
    unfold select_ring_neighbors. destruct (others a b all a) as [|q l] eqn:Ho; [set_solver|].
    rewrite <- Ho in *. rewrite (proj2 (Nat.leb_le _ _)) by lia. cbn. by apply elem_of_list_to_set.
Qed.

(** the ring is closed.  Whatever [n_preferred], any two known members are
    joined by a path of edges, so flooding reaches the whole membership. *)
Theorem ring_is_connected s all a b :
  a ∈ all → b ∈ all → rtc (λ x y, edge (ring_selector s) x y all = true) a b.
Proof.
  cbn. set (M := btree_set String.compare all). set (R := λ x y, ring_edge s x y all = true).
  assert (Hsym : ∀ x y, rtc R x y → rtc R y x).
  { intros x y H. induction H as [|x y z Hxy _ IH]; [done|]. etrans; [exact IH|].
    apply rtc_once. unfold R. by rewrite ring_edge_sym. }
  assert (Hup : ∀ d j x y, M !! j = Some x → M !! (j + d) = Some y → rtc R x y).
  { induction d as [|d IH]; intros j x y Hx Hy.
    - rewrite Nat.add_0_r in Hy. assert (x = y) as -> by congruence. done.
    - destruct (lookup_lt_is_Some_2 M (j + d)) as [z Hz].
      { apply lookup_lt_Some in Hy. lia. }
      etrans; [by eapply IH|]. apply rtc_once. eapply ring_successor_edge; [exact Hz|].
      by replace (j + d + 1) with (j + S d) by lia. }
  intros Ha Hb. rewrite <- (elem_of_btree_set String.compare) in Ha, Hb. fold M in Ha, Hb.
  apply list_elem_of_lookup in Ha as [i Hi]. apply list_elem_of_lookup in Hb as [j Hj].
  destruct (decide (i ≤ j)).
  - apply (Hup (j - i) i); [done|]. by replace (i + (j - i)) with j by lia.
  - apply Hsym, (Hup (i - j) j); [done|]. by replace (j + (i - j)) with i by lia.
Qed.

(** ** The route plan *)

Definition hop_cmp (dest_key : string) : string → string → comparison :=
  lex_desc (λ k, (- Z.of_nat (ring_distance k dest_key))%Z) String.compare.

#[export] Instance hop_cmp_spec dest_key : CmpSpec (hop_cmp dest_key).
Proof. apply _. Qed.

Definition hop_ok (dest_key : string) (h : RankedHop) : Prop :=
  hop_distance h = ring_distance (hop_key h) dest_key.

(** Candidates with different keys compare by key. *)
Lemma compare_hops_key dest_key a b :
  hop_ok dest_key a → hop_ok dest_key b → hop_key a ≠ hop_key b →
  compare_ranked_hops a b = hop_cmp dest_key (hop_key a) (hop_key b).
Proof.
  unfold hop_ok. intros Ha Hb Hne. unfold compare_ranked_hops, hop_cmp, lex_desc.
  rewrite Ha, Hb, <- Z.compare_opp, !Z.opp_involutive, Nat2Z.inj_compare.
  destruct (ring_distance (hop_key a) dest_key ?= ring_distance (hop_key b) dest_key); cbn; [|done|done].
  destruct (String.compare (hop_key a) (hop_key b)) eqn:H; try done.
  by apply (cmp_eq String.compare) in H.
Qed.

(** The scan finds the worst candidate. *)
Lemma worst_index_spec dest_key l :
  l ≠ [] → NoDup (hop_key <$> l) → Forall (hop_ok dest_key) l →
  ∃ w, l !! worst_index l = Some w ∧
    ∀ y, y ∈ l → hop_key y ≠ hop_key w → hop_cmp dest_key (hop_key y) (hop_key w) = Lt.
Proof.
  intros Hne Hnd Hok. unfold worst_index. set (f := λ worst index, _).
  assert (Hlen : 1 ≤ length l) by (destruct l; cbn; [done|lia]).
  assert (H : ∀ m, m < length l → ∃ w, l !! foldl f 0 (seq 1 m) = Some w ∧
    ∀ j y, j ≤ m → l !! j = Some y → hop_key y ≠ hop_key w →
      hop_cmp dest_key (hop_key y) (hop_key w) = Lt).
  { rewrite Forall_lookup in Hok. induction m as [|m IH]; intros Hm.
    - destruct (lookup_lt_is_Some_2 l 0) as [w Hw]; [lia|]. exists w. split; [done|].
      intros j y Hj Hy. replace j with 0 in Hy by lia. congruence.
    - destruct IH as (w & Hw & Hmax); [lia|]. rewrite seq_S, foldl_app. cbn [foldl].
      change (1 + m) with (S m). destruct (lookup_lt_is_Some_2 l (S m)) as [c Hc]; [lia|].
      unfold f at 1. rewrite Hw, Hc.
      destruct (decide (hop_key w = hop_key c)) as [Heq|Hwc].
      { assert (foldl f 0 (seq 1 m) = S m) as Hsame.
        { eapply (NoDup_lookup (hop_key <$> l)); [done|rewrite list_lookup_fmap, Hw; done|].
          rewrite list_lookup_fmap, Hc. by rewrite Heq. }
        assert (w = c) as -> by congruence. exists c. destruct (is_less _); (split; [congruence|]);
          intros j y Hj Hy Hk; (destruct (decide (j = S m)) as [->|]; [congruence|by apply (Hmax j y); [lia|..]]). }
      rewrite (compare_hops_key dest_key) by eauto.
      destruct (hop_cmp dest_key (hop_key w) (hop_key c)) eqn:Hcmp; cbn [is_less].
      + by apply (cmp_eq (hop_cmp dest_key)) in Hcmp.
      + exists c. split; [done|]. intros j y Hj Hy Hk.
        destruct (decide (j = S m)) as [->|]; [congruence|].
        destruct (decide (hop_key y = hop_key w)) as [->|]; [done|].
        eapply (cmp_trans (hop_cmp dest_key)); [|exact Hcmp]. by apply (Hmax j y); [lia|..].
      + exists w. split; [done|]. intros j y Hj Hy Hk. destruct (decide (j = S m)) as [->|].
        * assert (y = c) as -> by congruence. by apply (cmp_gt (hop_cmp dest_key)).
        * by apply (Hmax j y); [lia|..]. }
  destruct (H (length l - 1)) as (w & Hw & Hmax); [lia|]. exists w. split; [done|].
  intros y [j Hj]%list_elem_of_lookup Hk. apply (Hmax j y); [|done..].
  apply lookup_lt_Some in Hj. lia.
Qed.

(** Replacing the worst and the sorted bounded insertion keep the same keys. *)
Lemma replace_worst_perm dest_key wanted c r T :
  hop_key <$> r ≡ₚ T → increasing (hop_cmp dest_key) T → hop_key c ∉ T →
  Forall (hop_ok dest_key) (c :: r) → wanted ≠ 0 → length T ≤ wanted →
  let r' := if length r <? wanted then r ++ [c]
            else if match r !! worst_index r with
                    | Some w => is_less (compare_ranked_hops c w)
                    | None => false
                    end
                 then <[worst_index r := c]> r else r in
  hop_key <$> r' ≡ₚ retain_ranked (hop_cmp dest_key) wanted (hop_key c) T ∧
  (∀ x, x ∈ r' → x = c ∨ x ∈ r).
Proof.
  intros Hperm HT Hc [Hokc Hokr]%Forall_cons Hw Hlen.
  assert (Hl : length r = length T) by (rewrite <- (length_fmap hop_key r); by apply Permutation_length).
  unfold retain_ranked. rewrite (proj2 (Nat.eqb_neq wanted 0)) by done. cbn [orb]. cbv zeta.
  destruct (Nat.ltb_spec (length r) wanted) as [Hroom|Hfull].
  { rewrite (proj2 (Nat.eqb_neq (length T) wanted)) by lia. cbn [andb]. split.
    - rewrite fmap_app. rewrite vec_insert_perm. change (hop_key <$> [c]) with [hop_key c].
      rewrite <- Permutation_cons_append. by rewrite Hperm.
    - set_solver. }
  rewrite (proj2 (Nat.eqb_eq (length T) wanted)) by lia. cbn [andb].
  assert (Hnd : NoDup (hop_key <$> r)) by (rewrite Hperm; by apply (increasing_NoDup (hop_cmp dest_key))).
  destruct (worst_index_spec dest_key r) as (w & Hwi & Hmax); [by intros ->; cbn in *; lia|done|done|].
  rewrite Hwi. assert (Hwin : hop_key w ∈ T).
  { rewrite <- Hperm. by eapply list_elem_of_fmap_2, list_elem_of_lookup_2. }
  destruct T as [|m T' _] using rev_ind; [cbn in *; lia|]. rewrite last_snoc.
  assert (Hm : hop_key w = m).
  { destruct (decide (hop_key w = m)) as [|Hne]; [done|]. exfalso.
    assert (Hmr : m ∈ hop_key <$> r) by (rewrite Hperm; set_solver).
    apply list_elem_of_fmap in Hmr as (y & -> & Hy). specialize (Hmax y Hy ltac:(congruence)).
    apply elem_of_app in Hwin as [Hwin|Hwin%list_elem_of_singleton]; [|congruence].
    pose proof (StronglySorted_app_1_elem_of _ _ _ _ _ HT Hwin ltac:(by left)) as Hlt. cbn in Hlt.
    apply (cmp_gt (hop_cmp dest_key)) in Hlt. congruence. }
  rewrite (compare_hops_key dest_key) by (eauto; try congruence; by eapply Forall_lookup_1).
  rewrite Hm. destruct (is_less (hop_cmp dest_key (hop_key c) m)); cbn [negb]; [|split; [done|auto]].
  split.
  - rewrite list_fmap_insert, vec_insert_perm.
    unfold vec_pop. rewrite length_app. cbn [length]. rewrite Nat.add_sub, take_app_length.
    assert (Hwk : (hop_key <$> r) !! worst_index r = Some m) by (rewrite list_lookup_fmap, Hwi; cbn; congruence).
    rewrite insert_take_drop by (rewrite length_fmap; by eapply lookup_lt_Some).
    rewrite <- Permutation_middle. f_equiv. apply (Permutation_cons_inv (a := m)).
    rewrite Permutation_middle, take_drop_middle by done. rewrite Hperm. symmetry. apply Permutation_cons_append.
  - intros x Hx. apply list_elem_of_lookup in Hx as [j Hj]. apply list_lookup_insert_Some in Hj.
    destruct Hj as [(_ & <- & _)|[_ Hj]]; [by left|right]. by eapply list_elem_of_lookup_2.
Qed.

Definition ring_route_keys (self_key : string) (connected : list string) : list string :=
  filter (λ k, k ≠ self_key) (pubkey_part <$> connected).

Lemma elem_of_ring_route_keys self_key l k :
  k ∈ ring_route_keys self_key l ↔ k ≠ self_key ∧ ∃ p, p ∈ l ∧ pubkey_part p = k.
Proof. unfold ring_route_keys. rewrite list_elem_of_filter, list_elem_of_fmap. naive_solver. Qed.

(** The state of the scan after the peers [l]. *)
Lemma ring_hop_scan self_key dest_key wanted l :
  wanted ≠ 0 →
  let r := foldl (ring_hop_step self_key dest_key wanted) [] l in
  hop_key <$> r ≡ₚ take wanted (btree_set (hop_cmp dest_key) (ring_route_keys self_key l)) ∧
  spelled hop_key hop_peer l r ∧ Forall (hop_ok dest_key) r.
Proof.
  intros Hw. induction l as [|p l (IHk & IHp & IHs)] using rev_ind; cbv zeta.
  { split_and!; [by destruct wanted|constructor|constructor]. }
  rewrite foldl_app. cbn [foldl]. set (r := foldl _ [] l) in *. set (k := pubkey_part p).
  set (L := btree_set (hop_cmp dest_key) (ring_route_keys self_key l)) in *.
  assert (HL : increasing (hop_cmp dest_key) L) by (apply btree_set_increasing, _).
  assert (Hkeys : ring_route_keys self_key (l ++ [p])
    = ring_route_keys self_key l ++ (if decide (k ≠ self_key) then [k] else [])).
  { unfold ring_route_keys. rewrite fmap_app, filter_app. change (pubkey_part <$> [p]) with [k].
    by rewrite filter_cons, filter_nil. }
  assert (Hin : ∀ x, x ∈ hop_key <$> r → x ∈ ring_route_keys self_key l).
  { intros x. rewrite IHk. intros Hx%elem_of_take_in. by apply elem_of_btree_set in Hx; [|apply _]. }
  unfold ring_hop_step. fold k. destruct (decide (k = self_key)) as [Hks|Hks].
  { rewrite bool_decide_eq_true_2, Hkeys, decide_False, app_nil_r by (done || tauto).
    split_and!; [done| |done]. apply spelled_other; [|done].
    by intros [Hx _]%Hin%elem_of_ring_route_keys. }
  rewrite bool_decide_eq_false_2, Hkeys, decide_True, btree_set_snoc by done. fold L.
  set (c := mkHop _ _ _). destruct (update_existing hop_key hop_peer hop_set_peer c r) as [r'|] eqn:Hu.
  - assert (Hkin : k ∈ hop_key <$> r).
    { destruct (decide (k ∈ hop_key <$> r)) as [|Hn]; [done|].
      by rewrite (proj2 (update_existing_None _ _ _ c r) Hn) in Hu. }
    split_and!.
    + rewrite (update_existing_keys hop_key hop_peer hop_set_peer (λ _ _, eq_refl) c r r' Hu), IHk.
      rewrite set_insert_elem; [done|apply _|done|]. apply elem_of_btree_set; [apply _|]. by apply Hin.
    + change p with (hop_peer c).
      eapply (update_existing_spelled hop_key hop_peer hop_set_peer (λ _ _, eq_refl) (λ _ _, eq_refl));
        try done. rewrite IHk. by apply NoDup_take, (increasing_NoDup (hop_cmp dest_key)).
    + eapply update_existing_Forall; [|exact IHs|exact Hu]. done.
  - apply update_existing_None in Hu. change (hop_key c) with k in Hu.
    assert (HkT : k ∉ take wanted L) by (by rewrite <- IHk).
    assert (Hall : Forall (hop_ok dest_key) (c :: r)) by (by constructor).
    assert (HT : increasing (hop_cmp dest_key) (take wanted L)).
    { apply (StronglySorted_app_1_l _ _ (drop wanted L)). by rewrite take_drop. }
    destruct (replace_worst_perm dest_key wanted c r _ IHk HT HkT Hall Hw) as [Hp' Hel];
      [rewrite length_take; lia|].
    set (r' := if length r <? wanted then _ else _) in *. change (hop_key c) with k in Hp'.
    rewrite retain_ranked_take in Hp' by (done || apply _). split_and!; [done| |].
    + apply Forall_forall. intros a Ha. pose proof (list_elem_of_fmap_2 hop_key _ _ Ha) as Hak.
      destruct (Hel a Ha) as [->|Har].
      * rewrite connected_spelling_snoc, decide_True by done.
        replace (connected_spelling (hop_key c) l) with (@None string); [done|]. symmetry.
        apply connected_spelling_None. intros q Hq Hqk. apply HkT. rewrite Hp' in Hak.
        rewrite set_insert_elem in Hak; [done|apply _|done|].
        apply elem_of_btree_set; [apply _|]. apply elem_of_ring_route_keys. split; [done|]. by exists q.
      * pose proof (spelled_other hop_key hop_peer l r p Hu IHp) as Hsp.
        unfold spelled in Hsp. rewrite Forall_forall in Hsp. by apply Hsp.
    + rewrite Forall_forall in Hall. apply Forall_forall. intros a [->|Ha]%Hel; apply Hall; [by left|by right].
Qed.

(** Sorting candidates with distinct keys sorts their keys. *)
Lemma sort_by_keys dest_key l :
  NoDup (hop_key <$> l) → Forall (hop_ok dest_key) l →
  increasing (hop_cmp dest_key) (hop_key <$> sort_by compare_ranked_hops l).
Proof.
  induction l as [|x l IH]; cbn; [constructor|]. intros [Hx Hnd]%NoDup_cons [Hokx Hok]%Forall_cons.
  specialize (IH Hnd Hok). fold (sort_by compare_ranked_hops l).
  assert (Hk : hop_key <$> insert_by compare_ranked_hops x (sort_by compare_ranked_hops l)
    = set_insert (hop_cmp dest_key) (hop_key x) (hop_key <$> sort_by compare_ranked_hops l)).
  { assert (Hs : ∀ y, y ∈ sort_by compare_ranked_hops l → hop_ok dest_key y ∧ hop_key y ≠ hop_key x).
    { intros y Hy. rewrite sort_by_perm in Hy. rewrite Forall_forall in Hok. split; [by apply Hok|].
      intros Heq. apply Hx. rewrite <- Heq. by apply list_elem_of_fmap_2. }
    induction (sort_by compare_ranked_hops l) as [|y s IHs]; cbn; [done|].
    destruct (Hs y) as [Hoky Hney]; [by left|]. rewrite (compare_hops_key dest_key) by done.
    destruct (hop_cmp dest_key (hop_key x) (hop_key y)) eqn:Hc; [|done|].
    - apply (cmp_eq (hop_cmp dest_key)) in Hc. congruence.
    - cbn. f_equal. apply IHs; [|by intros; apply Hs; right].
      apply (StronglySorted_inv IH). }
  rewrite Hk. apply set_insert_increasing; [apply _|done].
Qed.

Definition ring_hop_plan (s : RingSelector) (self dest : string) (connected : list string) (limit : nat) :
    list string :=
  take (Nat.min limit (n_preferred s))
    (btree_set (hop_cmp (pubkey_part dest)) (ring_route_keys (pubkey_part self) connected)).

Lemma ring_hops s self dest connected limit :
  ring_next_hops s self dest connected limit
  = spellings (ring_hop_plan s self dest connected limit) connected.
Proof.
  unfold ring_next_hops, ring_hop_plan. set (wanted := Nat.min limit (n_preferred s)).
  destruct (Nat.eqb_spec wanted 0) as [->|Hw]; [by rewrite take_0|].
  destruct (ring_hop_scan (pubkey_part self) (pubkey_part dest) wanted connected Hw) as (Hk & Hp & Hok).
  set (r := foldl _ [] connected) in *. set (L := btree_set _ _) in *.
  assert (HL : increasing (hop_cmp (pubkey_part dest)) (take wanted L)).
  { apply (StronglySorted_app_1_l _ _ (drop wanted L)). rewrite take_drop. apply btree_set_increasing, _. }
  assert (hop_key <$> sort_by compare_ranked_hops r = take wanted L) as Hks.
  { apply (increasing_unique (hop_cmp (pubkey_part dest))); [|done|].
    - apply sort_by_keys; [|done]. rewrite Hk. by apply (increasing_NoDup (hop_cmp (pubkey_part dest))).
    - intros x. by rewrite sort_by_perm, Hk. }
  rewrite <- Hks. apply spelled_peers. unfold spelled. by rewrite sort_by_perm.
Qed.

Lemma ring_lawful s : lawful (ring_selector s).
Proof.
  apply (plan_lawful _ (ring_hop_plan s)); cbn.
  - apply ring_edge_sym.
  - intros self peers p Hp. apply elem_of_list_to_set. by eapply ring_preferred_subset.
  - apply ring_hops.
  - intros self dest c limit. eapply NoDup_take, increasing_NoDup, btree_set_increasing; apply _.
  - intros self dest c limit. unfold ring_hop_plan. rewrite length_take. lia.
  - intros self dest c limit _ Hin%elem_of_take_in.
    apply elem_of_btree_set in Hin; [|apply _]. by apply elem_of_ring_route_keys in Hin as [? _].
  - intros self dest c c' limit Hc. unfold ring_hop_plan. f_equal. apply btree_set_ext; [apply _|].
    intros k. rewrite !elem_of_ring_route_keys. naive_solver.
Qed.

(** the greedy plan is the nearest connected members.  One pass keeping
    [min(limit, n_preferred)] candidates, replacing the worst, yields the members
    nearest the destination in ring order, sorted, each by its least spelling. *)
Theorem ring_route_plan_is_nearest_prefix s self dest connected limit :
  next_hops (ring_selector s) self dest connected limit
  = spellings (take (Nat.min limit (n_preferred s))
      (btree_set (hop_cmp (pubkey_part dest)) (ring_route_keys (pubkey_part self) connected))) connected.
Proof. apply ring_hops. Qed.

(** ** Witnesses: five members on a ring of three links *)

Definition demo_ring : RingSelector := mkRing 3.
Definition demo_members : list string := ["a"; "b"; "c"; "d"; "e"]%string.

Lemma ring_keeps_exactly_n_witness :
  size (ring_preferred demo_ring "m"%string demo_members) = 3 ∧
  ring_preferred demo_ring "m"%string demo_members ⊆ list_to_set demo_members.
Proof.
  apply (ring_keeps_exactly_n demo_ring "m"%string demo_members).
  - apply (bool_decide_unpack (NoDup demo_members)). vm_compute. exact I.
  - apply (bool_decide_unpack ("m"%string ∉ demo_members)). vm_compute. exact I.
  - cbn. lia.
Defined.

Lemma ring_is_connected_witness :
  rtc (λ x y, ring_edge demo_ring x y demo_members = true) "a"%string "d"%string.
Proof.
  apply (ring_is_connected demo_ring demo_members "a"%string "d"%string).
  - apply (bool_decide_unpack ("a"%string ∈ demo_members)). vm_compute. exact I.
  - apply (bool_decide_unpack ("d"%string ∈ demo_members)). vm_compute. exact I.
Defined.
