(* ===== verification/HubTree.v ===== *)
(** * The shallow hub tree

    Models crates/myownmesh-core/src/topology/tree.rs: a root, its hubs and their
    leaves, with routes of at most four hops.  As in Hubs.v, SHA-256 is a
    parameter and nothing is assumed of it. *)

From S2P Require Import Prelude Ranking Topology Hubs.
From stdpp Require Import relations.
Local Open Scope nat_scope.

Record HubTreeSelector : Type := mkHubTree {
  root : string;
  tree_hubs : list string;
  backup_candidates : nat;
}.

Section hub_tree.
Context (sha256 : string → list Z).

Definition is_root (s : HubTreeSelector) (id : string) : bool :=
  bool_decide (pubkey_part id = pubkey_part (root s)).

Definition tree_is_hub (s : HubTreeSelector) (id : string) : bool :=
  let key := pubkey_part id in
  negb (is_root s key) && existsb (λ hub, bool_decide (pubkey_part hub = key)) (tree_hubs s).

Definition candidate_limit (s : HubTreeSelector) : nat :=
  Nat.min (backup_candidates s + 1) (length (tree_hubs s)).

Definition retain_candidate (candidate : RankedHub) (limit : nat) (ranked : list RankedHub) :
    list RankedHub :=
  if existsb (λ entry, bool_decide (rh_key entry = rh_key candidate)) ranked then ranked
  else retain_ranked ranked_hub_order limit candidate ranked.

Definition ranked_candidates (s : HubTreeSelector) (leaf : string) (limit : nat) : list RankedHub :=
  let leaf := pubkey_part leaf in
  foldl (λ ranked configured,
           let key := pubkey_part configured in
           if is_root s key then ranked
           else retain_candidate (mkRankedHub (rendezvous_score sha256 leaf key) key) limit ranked)
    [] (tree_hubs s).

Definition ranked_connected_candidates (s : HubTreeSelector) (leaf : string) (connected : list string)
    (limit : nat) : list RankedHub :=
  let leaf := pubkey_part leaf in
  foldl (λ ranked configured,
           let key := pubkey_part configured in
           if is_root s key || bool_decide (connected_spelling key connected = None) then ranked
           else retain_candidate (mkRankedHub (rendezvous_score sha256 leaf key) key) limit ranked)
    [] (tree_hubs s).

(** [append_connected]: the loop with its two skips and its bound. *)
Definition append_connected (keys connected : list string) (limit : nat) : list string :=
  foldl (λ result key,
           if length result =? limit then result
           else
             let key := pubkey_part key in
             if existsb (λ peer, bool_decide (pubkey_part peer = key)) result then result
             else match connected_spelling key connected with
                  | Some peer => result ++ [peer]
                  | None => result
                  end) [] keys.

Definition append_ranked_connected (candidates : list RankedHub) (connected : list string) (limit : nat) :
    list string :=
  foldl (λ result candidate,
           match connected_spelling (rh_key candidate) connected with
           | Some peer => result ++ [peer]
           | None => result
           end) [] (take limit candidates).

(** The loop of [root_or_connected_hubs]; [break] on a full result. *)
Fixpoint connected_hubs (self_key : string) (connected : list string) (limit : nat)
    (candidates : list RankedHub) (result : list string) : list string :=
  match candidates with
  | [] => result
  | candidate :: candidates =>
      if bool_decide (rh_key candidate = pubkey_part self_key)
      then connected_hubs self_key connected limit candidates result
      else
        match connected_spelling (rh_key candidate) connected with
        | Some peer =>
            let result := result ++ [peer] in
            if length result =? limit then result
            else connected_hubs self_key connected limit candidates result
        | None => connected_hubs self_key connected limit candidates result
        end
  end.

Definition root_or_connected_hubs (s : HubTreeSelector) (self_key : string) (connected : list string)
    (limit : nat) : list string :=
  match connected_spelling (pubkey_part (root s)) connected with
  | Some rt => [rt]
  | None =>
      let candidate_limit := Nat.min (candidate_limit s) (limit + 1) in
      connected_hubs self_key connected limit
        (ranked_connected_candidates s self_key connected candidate_limit) []
  end.

(** The scan of [candidate_contains], with its early [return false]. *)
Fixpoint contains_scan (s : HubTreeSelector) (leaf_key hub : string) (limit : nat)
    (hubs : list string) (rank : nat) (found : bool) : bool :=
  match hubs with
  | [] => found
  | configured :: hubs =>
      let candidate := pubkey_part configured in
      if is_root s candidate then contains_scan s leaf_key hub limit hubs rank found
      else if bool_decide (candidate = hub) then contains_scan s leaf_key hub limit hubs rank true
      else
        let score := rendezvous_score sha256 leaf_key candidate in
        let target_score := rendezvous_score sha256 leaf_key hub in
        if (target_score <? score)%Z || ((score =? target_score)%Z && string_lt candidate hub) then
          if limit <=? rank + 1 then false
          else contains_scan s leaf_key hub limit hubs (rank + 1) found
        else contains_scan s leaf_key hub limit hubs rank found
  end.

Definition candidate_contains (s : HubTreeSelector) (leaf hub : string) : bool :=
  let hub := pubkey_part hub in
  let limit := candidate_limit s in
  if limit =? 0 then false
  else contains_scan s (pubkey_part leaf) hub limit (tree_hubs s) 0 false.

Definition tree_select_preferred (s : HubTreeSelector) (self_id : string) (peer_ids : list string) :
    gset string :=
  let self_key := pubkey_part self_id in
  if is_root s self_key then
    list_to_set (filter (λ peer, bool_decide (pubkey_part peer ≠ self_key) && tree_is_hub s peer = true) peer_ids)
  else if tree_is_hub s self_key then
    list_to_set
      (filter (λ peer,
         let key := pubkey_part peer in
         bool_decide (key ≠ self_key) &&
         (is_root s key || (negb (tree_is_hub s key) && candidate_contains s key self_key)) = true) peer_ids)
  else
    let candidates := ranked_candidates s self_key (candidate_limit s) in
    list_to_set
      (filter (λ peer,
         let key := pubkey_part peer in
         bool_decide (key ≠ self_key) &&
         existsb (λ candidate, bool_decide (rh_key candidate = key)) candidates = true) peer_ids).

Definition tree_edge (s : HubTreeSelector) (a b : string) (_all : list string) : bool :=
  let a_key := pubkey_part a in
  let b_key := pubkey_part b in
  if bool_decide (a_key = b_key) then false
  else
    match is_root s a_key, is_root s b_key, tree_is_hub s a_key, tree_is_hub s b_key with
    | true, false, false, true | false, true, true, false => true
    | false, false, true, false => candidate_contains s b_key a_key
    | false, false, false, true => candidate_contains s a_key b_key
    | _, _, _, _ => false
    end.

Definition tree_forwards (s : HubTreeSelector) (self_id : string) (_all : list string) : bool :=
  is_root s self_id || tree_is_hub s self_id.

Definition tree_next_hops (s : HubTreeSelector) (self_id dest : string) (connected : list string)
    (limit : nat) : list string :=
  if limit =? 0 then []
  else
    let self_key := pubkey_part self_id in
    let dest_key := pubkey_part dest in
    if bool_decide (self_key = dest_key) then []
    else
      let dest_hub := tree_is_hub s dest_key in
      if is_root s self_key then
        if is_root s dest_key then []
        else if dest_hub then append_connected [dest_key] connected limit
        else
          append_ranked_connected
            (ranked_connected_candidates s dest_key connected (Nat.min (candidate_limit s) limit))
            connected limit
      else if tree_is_hub s self_key then
        if is_root s dest_key then root_or_connected_hubs s self_key connected limit
        else
          match (if negb dest_hub && candidate_contains s dest_key self_key
                 then connected_spelling dest_key connected else None) with
          | Some peer => [peer]
          | None => root_or_connected_hubs s self_key connected limit
          end
      else
        match (if dest_hub && candidate_contains s self_key dest_key
               then connected_spelling dest_key connected else None) with
        | Some peer => [peer]
        | None =>
            append_ranked_connected
              (ranked_connected_candidates s self_key connected (Nat.min (candidate_limit s) limit))
              connected limit
        end.

Definition tree_preferred_next_hop (s : HubTreeSelector) (self_id _dest : string)
    (_connected : list string) (preferred_parent : string) : bool :=
  let self_key := pubkey_part self_id in
  let parent_key := pubkey_part preferred_parent in
  if bool_decide (self_key = parent_key) || is_root s self_key then false
  else if tree_is_hub s self_key then is_root s parent_key
  else tree_is_hub s parent_key.

Definition tree_selector (s : HubTreeSelector) : Topology :=
  mkTopology (tree_select_preferred s) (tree_edge s) true (tree_forwards s) (tree_next_hops s)
    (tree_preferred_next_hop s) 4.

(** ** [next_parent_candidate] *)

Definition rank_tuple_cmp (left_score : Z) (left_key : string) (right_score : Z) (right_key : string) :
    comparison :=
  then_with (Z.compare right_score left_score) (String.compare left_key right_key).

(** A candidate: the configured spelling, its key and its score. *)
Definition better (candidate : string * string * Z) (best : option (string * string * Z)) : bool :=
  match best with
  | None => true
  | Some (_, key, score) => is_less (rank_tuple_cmp candidate.2 candidate.1.2 score key)
  end.

(** One iteration of the scan: [root] and [leaf] are keys, [cursor] the cursor's
    key and score, and the state is [(best, best_after)]. *)
Definition parent_step (root leaf : string) (cursor : option (string * Z))
    (state : option (string * string * Z) * option (string * string * Z)) (configured : string) :
    option (string * string * Z) * option (string * string * Z) :=
  let '(best, best_after) := state in
  let key := pubkey_part configured in
  if bool_decide (key = root) || bool_decide (key = leaf) then (best, best_after)
  else
    let score := rendezvous_score sha256 leaf key in
    let candidate := (configured, key, score) in
    (if better candidate best then Some candidate else best,
     match cursor with
     | Some (cursor_key, cursor_score) =>
         match rank_tuple_cmp score key cursor_score cursor_key with
         | Gt => if better candidate best_after then Some candidate else best_after
         | _ => best_after
         end
     | None => best_after
     end).

Definition next_parent_candidate (root : string) (hubs : list string) (leaf : string)
    (after : option string) : option string :=
  let root := pubkey_part root in
  let leaf := pubkey_part leaf in
  let cursor := (λ a, (pubkey_part a, rendezvous_score sha256 leaf (pubkey_part a))) <$> after in
  let '(best, best_after) := foldl (parent_step root leaf cursor) (None, None) hubs in
  (λ c : string * string * Z, c.1.1) <$> (match best_after with Some c => Some c | None => best end).

(** ** The scans compute one ranking *)

#[local] Existing Instance hub_cmp_spec.

(** The configured hub keys, the root's excluded, and their order for a leaf. *)
Definition hub_keys (s : HubTreeSelector) : list string :=
  filter (λ k, is_root s k = false) (pubkey_part <$> tree_hubs s).

Definition tree_ranking (s : HubTreeSelector) (leaf : string) : list string :=
  btree_set (hub_cmp sha256 (pubkey_part leaf)) (hub_keys s).

Lemma elem_of_tree_ranking s leaf k : k ∈ tree_ranking s leaf ↔ k ∈ hub_keys s.
Proof. unfold tree_ranking. by rewrite elem_of_btree_set by apply _. Qed.

Lemma elem_of_hub_keys s k : k ∈ hub_keys s ↔ is_root s k = false ∧ ∃ h, h ∈ tree_hubs s ∧ k = pubkey_part h.
Proof. unfold hub_keys. rewrite list_elem_of_filter, list_elem_of_fmap. naive_solver. Qed.

Lemma ranked_candidates_spec s leaf limit :
  rh_key <$> ranked_candidates s leaf limit = take limit (tree_ranking s leaf).
Proof.
  unfold ranked_candidates, tree_ranking, hub_keys. rewrite <- scan_keys_ranking. f_equal.
  apply (foldl_skip (λ k, is_root s k = false) pubkey_part). intros acc x. cbv zeta.
  by destruct (is_root s (pubkey_part x)).
Qed.

Definition connected_ranking (s : HubTreeSelector) (leaf : string) (connected : list string) : list string :=
  filter (λ k, is_Some (connected_spelling k connected)) (tree_ranking s leaf).

Lemma ranked_connected_spec s leaf connected limit :
  rh_key <$> ranked_connected_candidates s leaf connected limit
  = take limit (connected_ranking s leaf connected).
Proof.
  unfold ranked_connected_candidates, connected_ranking, tree_ranking, hub_keys.
  rewrite <- btree_set_filter, list_filter_filter, <- scan_keys_ranking by apply _. f_equal.
  apply (foldl_skip (λ k, is_Some (connected_spelling k connected) ∧ is_root s k = false) pubkey_part).
  intros acc x. cbv zeta.
  destruct (is_root s (pubkey_part x)); [rewrite decide_False by naive_solver; done|].
  destruct (connected_spelling (pubkey_part x) connected).
  - rewrite decide_True by eauto. by rewrite bool_decide_eq_false_2.
  - rewrite decide_False by (intros [[? [=]] _]). by rewrite bool_decide_eq_true_2.
Qed.

(** The rank counted by [candidate_contains]: how many configured keys precede
    [hub] for [leaf_key]. *)
Definition precedes (leaf_key hub k : string) : Prop := hub_cmp sha256 leaf_key k hub = Lt.
#[local] Instance precedes_dec leaf_key hub k : Decision (precedes leaf_key hub k).
Proof. unfold precedes. apply _. Defined.

Lemma precedes_test leaf_key hub k :
  (rendezvous_score sha256 leaf_key hub <? rendezvous_score sha256 leaf_key k)%Z ||
  ((rendezvous_score sha256 leaf_key k =? rendezvous_score sha256 leaf_key hub)%Z && string_lt k hub)
  = bool_decide (precedes leaf_key hub k).
Proof.
  apply eq_true_iff_eq. rewrite bool_decide_eq_true, orb_true_iff, andb_true_iff, Z.ltb_lt, Z.eqb_eq.
  unfold precedes, hub_cmp, lex_desc, string_lt, is_less.
  destruct (Z.compare_spec (rendezvous_score sha256 leaf_key hub) (rendezvous_score sha256 leaf_key k));
    cbn [then_with].
  - destruct (String.compare k hub); split; naive_solver lia.
  - split; [done|]. by left.
  - split; [lia|done].
Qed.

Lemma contains_scan_spec s leaf_key hub limit l rank found :
  rank < limit →
  let keys := filter (λ k, is_root s k = false) (pubkey_part <$> l) in
  contains_scan s leaf_key hub limit l rank found
  = (found || bool_decide (hub ∈ keys)) && (rank + length (filter (precedes leaf_key hub) keys) <? limit).
Proof.
  cbv zeta. revert rank found. induction l as [|c l IH]; intros rank found Hr.
  { rewrite fmap_nil, !filter_nil. cbn [length contains_scan].
    rewrite bool_decide_eq_false_2 by apply not_elem_of_nil.
    rewrite orb_false_r, (proj2 (Nat.ltb_lt _ _)) by lia. by rewrite andb_true_r. }
  rewrite fmap_cons, filter_cons. cbn [contains_scan]. cbv zeta.
  set (k := pubkey_part c). destruct (is_root s k) eqn:Hroot; [rewrite decide_False by done; by apply IH|].
  rewrite decide_True, filter_cons by done.
  destruct (decide (k = hub)) as [Hkh|Hne].
  - rewrite bool_decide_eq_true_2, IH by done. rewrite decide_False by (rewrite Hkh; apply (cmp_lt_irrefl _)).
    rewrite Hkh, (bool_decide_eq_true_2 (hub ∈ hub :: _)) by (by left). by rewrite orb_true_r.
  - rewrite (bool_decide_eq_false_2 (k = hub)) by done. rewrite precedes_test.
    rewrite (bool_decide_ext (hub ∈ k :: _) (hub ∈ filter (λ k, is_root s k = false) (pubkey_part <$> l)))
      by (rewrite elem_of_cons; naive_solver).
    destruct (decide (precedes leaf_key hub k)) as [Hp|Hp];
      [rewrite (bool_decide_eq_true_2 (precedes _ _ _)) by done
      |rewrite (bool_decide_eq_false_2 (precedes _ _ _)) by done; by apply IH].
    cbn [length]. destruct (Nat.leb_spec limit (rank + 1)).
    + rewrite (proj2 (Nat.ltb_ge _ _)) by lia. by rewrite andb_false_r.
    + rewrite IH by lia. do 2 f_equal. lia.
Qed.

Lemma candidate_contains_spec s leaf hub :
  NoDup (hub_keys s) →
  candidate_contains s leaf hub = bool_decide (pubkey_part hub ∈ take (candidate_limit s) (tree_ranking s leaf)).
Proof.
  intros Hnd. unfold candidate_contains. destruct (Nat.eqb_spec (candidate_limit s) 0) as [->|Hl].
  { by rewrite take_0, bool_decide_eq_false_2 by apply not_elem_of_nil. }
  rewrite contains_scan_spec by lia. fold (hub_keys s). cbn [orb Nat.add].
  set (h := pubkey_part hub). set (lk := pubkey_part leaf).
  assert (Hperm : tree_ranking s leaf ≡ₚ hub_keys s).
  { apply NoDup_Permutation; [|done|apply elem_of_tree_ranking].
    apply (increasing_NoDup (hub_cmp sha256 lk)), btree_set_increasing, _. }
  assert (length (filter (precedes lk h) (hub_keys s)) = length (filter (precedes lk h) (tree_ranking s leaf)))
    as -> by (by rewrite Hperm).
  rewrite (bool_decide_ext (h ∈ hub_keys s) (h ∈ tree_ranking s leaf))
    by (symmetry; apply elem_of_tree_ranking).
  case_bool_decide as Hin; cbn [andb].
  - apply eq_true_iff_eq. rewrite bool_decide_eq_true, Nat.ltb_lt.
    rewrite (elem_of_take_rank (hub_cmp sha256 lk)); [done|apply btree_set_increasing, _|done].
  - rewrite bool_decide_eq_false_2; [done|]. by intros ?%elem_of_take_in.
Qed.

(** ** Route plans as key lists *)

Lemma append_ranked_spec candidates connected limit :
  append_ranked_connected candidates connected limit
  = spellings (take limit (rh_key <$> candidates)) connected.
Proof.
  unfold append_ranked_connected, spellings. rewrite <- fmap_take.
  induction (take limit candidates) as [|c l IH] using rev_ind; [done|].
  rewrite foldl_app, fmap_app, omap_app, IH. cbn.
  destruct (connected_spelling (rh_key c) connected); [done|by rewrite app_nil_r].
Qed.

Lemma append_connected_one key connected limit :
  0 < limit → append_connected [key] connected limit = spellings [pubkey_part key] connected.
Proof.
  intros Hl. unfold append_connected, spellings. cbn.
  destruct limit; [lia|]. cbn. by destruct (connected_spelling (pubkey_part key) connected).
Qed.

Lemma connected_hubs_spec self_key connected limit candidates result :
  length result < limit →
  (∀ c, c ∈ candidates → is_Some (connected_spelling (rh_key c) connected)) →
  connected_hubs self_key connected limit candidates result
  = result ++ spellings (take (limit - length result)
      (filter (λ k, k ≠ pubkey_part self_key) (rh_key <$> candidates))) connected.
Proof.
  revert result. induction candidates as [|c l IH]; intros result Hl Hc.
  { cbn. by rewrite take_nil, app_nil_r. }
  assert (Hl' : ∀ c, c ∈ l → is_Some (connected_spelling (rh_key c) connected)) by (intros; apply Hc; by right).
  rewrite fmap_cons, filter_cons. cbn [connected_hubs]. case_bool_decide as Hk.
  { rewrite decide_False by tauto. by apply IH. }
  rewrite decide_True by done. destruct (Hc c) as [p Hp]; [by left|]. rewrite Hp.
  replace (limit - length result) with (S (limit - length (result ++ [p]))) by (rewrite length_app; cbn; lia).
  unfold spellings in *. cbn [take omap list_omap]. rewrite Hp.
  destruct (Nat.eqb_spec (length (result ++ [p])) limit) as [Heq|Hne].
  - by rewrite Heq, Nat.sub_diag, take_0.
  - rewrite IH; [by rewrite <- app_assoc|rewrite length_app in *; cbn in *; lia|done].
Qed.

Definition up_keys (s : HubTreeSelector) (self_key : string) (connected : list string) (limit : nat) :
    list string :=
  if decide (is_Some (connected_spelling (pubkey_part (root s)) connected)) then [pubkey_part (root s)]
  else take limit (filter (λ k, k ≠ pubkey_part self_key)
         (take (Nat.min (candidate_limit s) (limit + 1)) (connected_ranking s self_key connected))).

Lemma root_or_connected_spec s self_key connected limit :
  0 < limit →
  root_or_connected_hubs s self_key connected limit = spellings (up_keys s self_key connected limit) connected.
Proof.
  intros Hl. unfold root_or_connected_hubs, up_keys, spellings.
  destruct (connected_spelling (pubkey_part (root s)) connected) as [r|] eqn:Hr.
  - rewrite decide_True by eauto. cbn. by rewrite Hr.
  - rewrite decide_False by (intros [? [=]]). rewrite connected_hubs_spec; [|cbn; lia|].
    + cbn [app length]. by rewrite Nat.sub_0_r, ranked_connected_spec.
    + intros c Hc%(list_elem_of_fmap_2 rh_key). rewrite ranked_connected_spec in Hc.
      by apply elem_of_take_in, list_elem_of_filter in Hc as [? _].
Qed.

Definition direct_key (ok : bool) (dest_key : string) (connected : list string) (other : list string) :
    list string :=
  if decide (ok = true ∧ is_Some (connected_spelling dest_key connected)) then [dest_key] else other.

Definition tree_plan (s : HubTreeSelector) (self dest : string) (connected : list string) (limit : nat) :
    list string :=
  let self_key := pubkey_part self in
  let dest_key := pubkey_part dest in
  let down leaf := take (Nat.min (candidate_limit s) limit) (connected_ranking s leaf connected) in
  if (limit =? 0) || bool_decide (self_key = dest_key) then []
  else if is_root s self_key then
    if is_root s dest_key then []
    else if tree_is_hub s dest_key then [pubkey_part dest_key]
    else down dest_key
  else if tree_is_hub s self_key then
    direct_key (negb (is_root s dest_key) && negb (tree_is_hub s dest_key) && candidate_contains s dest_key self_key)
      dest_key connected (up_keys s self_key connected limit)
  else
    direct_key (tree_is_hub s dest_key && candidate_contains s self_key dest_key) dest_key connected
      (down self_key).

Lemma direct_key_spec (ok : bool) dest_key connected other hops :
  hops = spellings other connected →
  match (if ok then connected_spelling dest_key connected else None) with Some p => [p] | None => hops end
  = spellings (direct_key ok dest_key connected other) connected.
Proof.
  intros ->. unfold direct_key. case_decide as H.
  - destruct H as [-> [p Hp]]. unfold spellings. cbn. by rewrite Hp.
  - destruct ok; [|done]. destruct (connected_spelling dest_key connected) eqn:He; [|done].
    destruct H. split; eauto.
Qed.

Lemma tree_hops s self dest connected limit :
  tree_next_hops s self dest connected limit = spellings (tree_plan s self dest connected limit) connected.
Proof.
  unfold tree_next_hops, tree_plan. destruct (Nat.eqb_spec limit 0) as [->|Hl]; [done|]. cbn [orb]. cbv zeta.
  case_bool_decide as Hsd; [done|].
  assert (Hdown : ∀ leaf, append_ranked_connected
      (ranked_connected_candidates s leaf connected (Nat.min (candidate_limit s) limit)) connected limit
    = spellings (take (Nat.min (candidate_limit s) limit) (connected_ranking s leaf connected)) connected).
  { intros leaf. rewrite append_ranked_spec, ranked_connected_spec, take_take. f_equal. f_equal. lia. }
  destruct (is_root s (pubkey_part self)).
  { destruct (is_root s (pubkey_part dest)); [done|].
    destruct (tree_is_hub s (pubkey_part dest)); [apply append_connected_one; lia|apply Hdown]. }
  destruct (tree_is_hub s (pubkey_part self)).
  - destruct (is_root s (pubkey_part dest)); cbn [negb andb].
    + unfold direct_key. rewrite decide_False by naive_solver. apply root_or_connected_spec. lia.
    + apply direct_key_spec, root_or_connected_spec. lia.
  - apply direct_key_spec, Hdown.
Qed.

(** ** The contract *)

Lemma hub_is_not_root s k : tree_is_hub s k = true → is_root s (pubkey_part k) = false.
Proof. unfold tree_is_hub. cbv zeta. intros [H%negb_true_iff _]%andb_true_iff. done. Qed.

Lemma connected_ranking_keys s leaf c k :
  k ∈ connected_ranking s leaf c → k ∈ hub_keys s ∧ is_Some (connected_spelling k c).
Proof. unfold connected_ranking. intros [Hc Hk]%list_elem_of_filter. by apply elem_of_tree_ranking in Hk. Qed.

Lemma connected_ranking_NoDup s leaf c : NoDup (connected_ranking s leaf c).
Proof.
  apply NoDup_filter, (increasing_NoDup (hub_cmp sha256 (pubkey_part leaf))), btree_set_increasing, _.
Qed.

Lemma connected_ranking_ext s leaf c c' :
  (∀ p, p ∈ c ↔ p ∈ c') → connected_ranking s leaf c = connected_ranking s leaf c'.
Proof.
  intros Hc. unfold connected_ranking. apply list_filter_iff. intros k.
  by rewrite (connected_spelling_ext k c c' Hc).
Qed.

Lemma up_keys_ext s k c c' limit : (∀ p, p ∈ c ↔ p ∈ c') → up_keys s k c limit = up_keys s k c' limit.
Proof.
  intros Hc. unfold up_keys.
  by rewrite (connected_ranking_ext s k c c' Hc), (connected_spelling_ext _ c c' Hc).
Qed.

Lemma up_keys_not_self s self c limit :
  proper self → is_root s (pubkey_part self) = false → pubkey_part self ∉ up_keys s (pubkey_part self) c limit.
Proof.
  intros Hpr Hr. unfold up_keys. case_decide.
  - intros Heq%list_elem_of_singleton. unfold is_root in Hr. rewrite proper_key in Hr by done.
    by apply bool_decide_eq_false in Hr.
  - intros [Hne _]%elem_of_take_in%list_elem_of_filter. by rewrite proper_key in Hne.
Qed.

Lemma up_keys_NoDup s k c limit : NoDup (up_keys s k c limit).
Proof.
  unfold up_keys. case_decide; [apply NoDup_singleton|].
  apply NoDup_take, NoDup_filter, NoDup_take, connected_ranking_NoDup.
Qed.

Lemma up_keys_length s k c limit : 0 < limit → length (up_keys s k c limit) ≤ limit.
Proof. intros. unfold up_keys. case_decide; [cbn; lia|]. rewrite length_take. lia. Qed.

(** A property of every branch of a plan. *)
Lemma tree_plan_ind s self dest c limit (P : list string → Prop) :
  P [] →
  (0 < limit → is_root s (pubkey_part self) = true → tree_is_hub s (pubkey_part dest) = true →
    P [pubkey_part (pubkey_part dest)]) →
  (0 < limit → pubkey_part self ≠ pubkey_part dest → P [pubkey_part dest]) →
  (∀ leaf n, n ≤ limit → is_root s (pubkey_part self) = true ∨ tree_is_hub s (pubkey_part self) = false →
    P (take n (connected_ranking s leaf c))) →
  (0 < limit → is_root s (pubkey_part self) = false → P (up_keys s (pubkey_part self) c limit)) →
  P (tree_plan s self dest c limit).
Proof.
  intros H0 H1 H2 H3 H4. unfold tree_plan, direct_key. cbv zeta.
  destruct (Nat.eqb_spec limit 0); [done|]. cbn [orb]. case_bool_decide; [done|].
  destruct (is_root s (pubkey_part self)) eqn:Hr.
  { destruct (is_root s (pubkey_part dest)); [done|].
    destruct (tree_is_hub s (pubkey_part dest)) eqn:Hd; [apply H1; auto; lia|apply H3; auto; lia]. }
  destruct (tree_is_hub s (pubkey_part self)) eqn:Hh; case_decide;
    try (apply H2; [lia|done]); [apply H4; auto; lia|apply H3; auto; lia].
Qed.

Lemma hub_key_not_self s self k :
  k ∈ hub_keys s → proper self →
  is_root s (pubkey_part self) = true ∨ tree_is_hub s (pubkey_part self) = false → k ≠ pubkey_part self.
Proof.
  intros [Hr (h & Hh & ->)]%elem_of_hub_keys Hpr Hs Heq. rewrite Heq in Hr. destruct Hs as [Hs|Hs]; [congruence|].
  unfold tree_is_hub in Hs. cbv zeta in Hs. rewrite (proper_key self Hpr), Hr in Hs. cbn in Hs.
  rewrite existsb_elem in Hs. apply bool_decide_eq_false in Hs. apply Hs. rewrite <- Heq. by apply list_elem_of_fmap_2.
Qed.

Lemma tree_edge_sym s a b all : tree_edge s a b all = tree_edge s b a all.
Proof.
  unfold tree_edge. cbv zeta. rewrite (bool_decide_ext (pubkey_part a = pubkey_part b) (pubkey_part b = pubkey_part a))
    by naive_solver.
  case_bool_decide; [done|].
  by destruct (is_root s (pubkey_part a)), (is_root s (pubkey_part b)), (tree_is_hub s (pubkey_part a)),
    (tree_is_hub s (pubkey_part b)).
Qed.

Lemma tree_lawful s : lawful (tree_selector s).
Proof.
  apply (plan_lawful _ (tree_plan s)); cbn.
  - apply tree_edge_sym.
  - intros self peers p. unfold tree_select_preferred. cbv zeta.
    repeat case_match; rewrite !elem_of_list_to_set; by intros [_ ?]%list_elem_of_filter.
  - apply tree_hops.
  - intros self dest c limit. apply tree_plan_ind; try by intros; apply NoDup_singleton.
    + constructor.
    + intros. apply NoDup_take, connected_ranking_NoDup.
    + intros. apply up_keys_NoDup.
  - intros self dest c limit. apply tree_plan_ind; cbn; try lia.
    + intros. rewrite length_take. lia.
    + intros. by apply up_keys_length.
  - intros self dest c limit Hpr. apply tree_plan_ind.
    + apply not_elem_of_nil.
    + intros _ Hr Hd%hub_is_not_root Hin%list_elem_of_singleton. rewrite Hin in Hr. congruence.
    + by intros _ Hne ?%list_elem_of_singleton.
    + intros leaf n _ Hs [Hk _]%elem_of_take_in%connected_ranking_keys.
      by apply (hub_key_not_self _ _ _ Hk Hpr Hs).
    + intros. by apply up_keys_not_self.
  - intros self dest c c' limit Hc. unfold tree_plan, direct_key. cbv zeta.
    rewrite (up_keys_ext _ _ c c' _ Hc), !(connected_ranking_ext _ _ c c' Hc).
    by rewrite !(connected_spelling_ext _ c c' Hc).
Qed.

(** ** Parent candidates in order *)

Definition scored (leaf : string) (hubs : list string) (c : string * string * Z) : Prop :=
  c.1.1 ∈ hubs ∧ c.1.2 = pubkey_part c.1.1 ∧ c.2 = rendezvous_score sha256 leaf c.1.2.

Definition keeps_best (leaf : string) (hubs keys : list string) (best : option (string * string * Z)) : Prop :=
  (λ c : string * string * Z, c.1.2) <$> best = head (btree_set (hub_cmp sha256 leaf) keys) ∧
  ∀ c, best = Some c → scored leaf hubs c.

Lemma keeps_best_mono leaf hubs hubs' keys best :
  hubs ⊆ hubs' → keeps_best leaf hubs keys best → keeps_best leaf hubs' keys best.
Proof. intros Hs [Hk Hc]. split; [done|]. intros c [H ?]%Hc. split; [by apply Hs|done]. Qed.

(** One step of the scan keeps the least candidate. *)
Lemma better_step leaf hubs keys best h :
  keeps_best leaf hubs keys best →
  let c := (h, pubkey_part h, rendezvous_score sha256 leaf (pubkey_part h)) in
  keeps_best leaf (hubs ++ [h]) (keys ++ [pubkey_part h]) (if better c best then Some c else best).
Proof.
  intros Hb. cbv zeta. set (c := (h, _, _)).
  assert (Hc : scored leaf (hubs ++ [h]) c) by (split; [apply elem_of_app; right; by left|done]).
  destruct (keeps_best_mono leaf hubs (hubs ++ [h]) keys best) as [Hk Hs]; [set_solver|done|].
  unfold keeps_best. rewrite btree_set_snoc, head_set_insert, <- Hk.
  destruct best as [[[h' k'] z']|]; cbn; [|split; [done|by intros ? [= <-]]].
  destruct (Hs _ eq_refl) as (_ & _ & Hz). cbn in Hz. subst z'.
  change (rank_tuple_cmp _ _ _ _) with (hub_cmp sha256 leaf (pubkey_part h) k').
  destruct (hub_cmp sha256 leaf (pubkey_part h) k'); cbn; (split; [done|]); intros ? [= <-]; auto.
Qed.

(** The candidates after the cursor. *)
Definition after_cursor (leaf : string) (after : option string) (k : string) : Prop :=
  match after with
  | Some a => hub_cmp sha256 leaf k (pubkey_part a) = Gt
  | None => False
  end.
#[local] Instance after_cursor_dec leaf after k : Decision (after_cursor leaf after k).
Proof. unfold after_cursor. destruct after; apply _. Defined.

Definition is_candidate (root leaf k : string) : Prop := k ≠ pubkey_part root ∧ k ≠ pubkey_part leaf.
#[local] Instance is_candidate_dec root leaf k : Decision (is_candidate root leaf k).
Proof. unfold is_candidate. apply _. Defined.

(** The candidates [leaf] may attach to, in its order. *)
Definition parent_ranking (root : string) (hubs : list string) (leaf : string) : list string :=
  btree_set (hub_cmp sha256 (pubkey_part leaf)) (filter (is_candidate root leaf) (pubkey_part <$> hubs)).

Lemma parent_scan root leaf after hubs :
  let lk := pubkey_part leaf in
  let cursor := (λ a, (pubkey_part a, rendezvous_score sha256 lk (pubkey_part a))) <$> after in
  let state := foldl (parent_step (pubkey_part root) lk cursor) (None, None) hubs in
  let keys := filter (is_candidate root leaf) (pubkey_part <$> hubs) in
  keeps_best lk hubs keys state.1 ∧ keeps_best lk hubs (filter (after_cursor lk after) keys) state.2.
Proof.
  cbv zeta. set (lk := pubkey_part leaf). set (cursor := _ <$> after).
  induction hubs as [|h l [IH1 IH2]] using rev_ind; [by repeat split|].
  rewrite foldl_app, fmap_app, !filter_app. cbn [foldl].
  destruct (foldl _ (None, None) l) as [best best_after]. cbn [fst snd] in *.
  change (pubkey_part <$> [h]) with [pubkey_part h].
  assert (Hmono : ∀ keys b, keeps_best lk l keys b → keeps_best lk (l ++ [h]) (keys ++ []) b).
  { intros ??. rewrite app_nil_r. apply keeps_best_mono. set_solver. }
  unfold parent_step. cbv zeta. rewrite filter_cons, filter_nil.
  destruct (decide (is_candidate root leaf (pubkey_part h))) as [[Hr Hl]|HP].
  - rewrite !bool_decide_eq_false_2 by done. cbn [orb fst snd]. rewrite filter_cons, filter_nil.
    split; [by apply better_step|]. destruct after as [a|]; cbn [fmap option_fmap option_map cursor].
    + change (rank_tuple_cmp _ _ _ _) with (hub_cmp sha256 lk (pubkey_part h) (pubkey_part a)).
      destruct (decide (after_cursor lk (Some a) (pubkey_part h))) as [Ha|Ha]; cbn in Ha.
      * rewrite Ha. by apply better_step.
      * destruct (hub_cmp sha256 lk (pubkey_part h) (pubkey_part a)); [by apply Hmono..|done].
    + rewrite decide_False by tauto. by apply Hmono.
  - rewrite !filter_nil. destruct (decide (pubkey_part h = pubkey_part root)).
    + rewrite bool_decide_eq_true_2 by done. cbn. auto.
    + rewrite (bool_decide_eq_true_2 (pubkey_part h = lk)).
      * rewrite orb_true_r. cbn. auto.
      * destruct (decide (pubkey_part h = lk)); [done|]. by destruct HP.
Qed.

Lemma next_parent_spec root hubs leaf after :
  let r := parent_ranking root hubs leaf in
  pubkey_part <$> next_parent_candidate root hubs leaf after
    = head (filter (after_cursor (pubkey_part leaf) after) r ++ r) ∧
  ∀ h, next_parent_candidate root hubs leaf after = Some h → h ∈ hubs.
Proof.
  cbv zeta. unfold next_parent_candidate, parent_ranking. cbv zeta.
  pose proof (parent_scan root leaf after hubs) as H. cbv zeta in H.
  destruct (foldl _ _ hubs) as [best best_after]. destruct H as [[Hb Hbs] [Ha Has]]. cbn [fst snd] in *.
  rewrite btree_set_filter in Ha by apply _. set (r := btree_set _ _) in *.
  destruct best_after as [[[h k] z]|]; cbn [fmap option_fmap option_map fst snd] in *.
  - destruct (Has _ eq_refl) as (Hh & Hk & _). cbn in Hh, Hk. split; [|by intros ? [= <-]].
    destruct (filter _ r); [done|]. cbn in *. congruence.
  - destruct (filter _ r); [|done]. cbn [app]. rewrite <- Hb.
    destruct best as [[[h k] z]|]; cbn; [|done]. destruct (Hbs _ eq_refl) as (Hh & Hk & _).
    cbn in Hh, Hk. split; [congruence|by intros ? [= <-]].
Qed.

(** The candidates a leaf tries, each call taking the previous answer as cursor. *)
Fixpoint nth_try (root : string) (hubs : list string) (leaf : string) (n : nat) (after : option string) :
    option string :=
  match n, next_parent_candidate root hubs leaf after with
  | O, next => next
  | S n, Some h => nth_try root hubs leaf n (Some h)
  | S _, None => None
  end.

Lemma next_parent_cycle root hubs leaf i h :
  let r := parent_ranking root hubs leaf in
  r !! i = Some (pubkey_part h) →
  pubkey_part <$> next_parent_candidate root hubs leaf (Some h) = r !! (S i mod length r).
Proof.
  cbv zeta. set (r := parent_ranking root hubs leaf). intros Hi.
  rewrite (proj1 (next_parent_spec root hubs leaf (Some h))). fold r.
  assert (filter (after_cursor (pubkey_part leaf) (Some h)) r = drop (S i) r) as ->.
  { rewrite <- (filter_greater _ r i (pubkey_part h) (btree_set_increasing _ _) Hi). by apply list_filter_iff. }
  pose proof (lookup_lt_Some _ _ _ Hi) as Hlt. destruct (decide (S i = length r)) as [He|Hne].
  - rewrite drop_ge by lia. rewrite He, Nat.Div0.mod_same by lia. cbn [app]. apply head_lookup.
  - rewrite Nat.mod_small by lia. rewrite head_lookup, lookup_app_l by (rewrite length_drop; lia).
    rewrite lookup_drop. f_equal. lia.
Qed.

Lemma nth_try_cycle root hubs leaf n i h :
  let r := parent_ranking root hubs leaf in
  r !! i = Some (pubkey_part h) →
  pubkey_part <$> nth_try root hubs leaf n (Some h) = r !! ((S i + n) mod length r).
Proof.
  cbv zeta. revert i h. induction n as [|n IH]; intros i h Hi; pose proof Hi as Hnext;
    apply next_parent_cycle in Hnext.
  { cbn [nth_try]. by rewrite Hnext, Nat.add_0_r. }
  set (r := parent_ranking root hubs leaf) in *. cbn [nth_try].
  assert (Hpos : length r ≠ 0) by (apply lookup_lt_Some in Hi; lia).
  destruct (lookup_lt_is_Some_2 r (S i mod length r)) as [k Hk]; [by apply Nat.mod_upper_bound|].
  rewrite Hk in Hnext. destruct (next_parent_candidate root hubs leaf (Some h)) as [h'|]; [|done].
  injection Hnext as <-. rewrite (IH _ h' Hk). f_equal.
  replace (S (S i mod length r) + n) with (S i mod length r + S n) by lia. apply Nat.Div0.add_mod_idemp_l.
Qed.

(** parent candidates are tried in rendezvous order and cyclically: the
    [n]-th attempt of a leaf that starts without a cursor is number [n] modulo
    their count in its ranking, so within one round every hub that is neither the
    root nor the leaf itself is tried exactly once; with no such hub there is
    never a candidate. *)
Theorem parent_tries_follow_ranking root hubs leaf n :
  let r := parent_ranking root hubs leaf in
  pubkey_part <$> nth_try root hubs leaf n None = r !! (n mod length r) ∧ NoDup r.
Proof.
  cbv zeta. split.
  2: { apply (increasing_NoDup (hub_cmp sha256 (pubkey_part leaf))), btree_set_increasing, _. }
  pose proof (next_parent_spec root hubs leaf None) as [Hfirst _]. cbv zeta in Hfirst.
  rewrite list_filter_none, app_nil_l, head_lookup in Hfirst by (intros; cbn; tauto).
  destruct n as [|n]; [by rewrite Nat.Div0.mod_0_l|]. cbn [nth_try].
  destruct (next_parent_candidate root hubs leaf None) as [h|] eqn:He; [by rewrite nth_try_cycle with (i := 0)|].
  by destruct (parent_ranking root hubs leaf).
Qed.

(** ** Well-formed configurations *)

(** What [validate_topology] establishes (Modes.v). *)
Record well_configured (s : HubTreeSelector) : Prop := {
  wc_root : no_dash (root s) = true;
  wc_hubs h : h ∈ tree_hubs s → no_dash h = true;
  wc_unique : NoDup (tree_hubs s);
  wc_distinct : root s ∉ tree_hubs s;
  wc_some : tree_hubs s ≠ [];
  wc_backups : backup_candidates s < length (tree_hubs s);
}.

Section configured.
Context (s : HubTreeSelector) (Hwc : well_configured s).

Lemma is_root_canonical k : no_dash k = true → is_root s k = bool_decide (k = root s).
Proof.
  intros Hk. unfold is_root. rewrite (pubkey_part_canonical k Hk).
  by rewrite (pubkey_part_canonical (root s)) by apply Hwc.
Qed.

Lemma hub_keys_canonical : hub_keys s = tree_hubs s.
Proof.
  unfold hub_keys.
  assert (pubkey_part <$> tree_hubs s = tree_hubs s) as ->.
  { etrans; [apply (list_fmap_ext _ id)|apply list_fmap_id].
    intros i h Hh%list_elem_of_lookup_2. by apply pubkey_part_canonical, Hwc. }
  apply list_filter_all. intros h Hh. rewrite is_root_canonical by (by apply Hwc).
  apply bool_decide_eq_false_2. intros ->. by apply (wc_distinct s Hwc).
Qed.

Lemma is_hub_canonical k : no_dash k = true → tree_is_hub s k = bool_decide (k ∈ tree_hubs s).
Proof.
  intros Hk. unfold tree_is_hub. cbv zeta. rewrite (pubkey_part_canonical k Hk), existsb_elem, is_root_canonical by done.
  rewrite <- bool_decide_not, <- bool_decide_and. apply bool_decide_ext. rewrite <- hub_keys_canonical at 2.
  rewrite elem_of_hub_keys, list_elem_of_fmap, is_root_canonical by done. rewrite bool_decide_eq_false.
  naive_solver.
Qed.

Definition serves (hub leaf : string) : Prop := hub ∈ take (candidate_limit s) (tree_ranking s leaf).

Lemma contains_serves leaf hub :
  no_dash hub = true → candidate_contains s leaf hub = true ↔ serves hub leaf.
Proof.
  intros Hh. rewrite candidate_contains_spec, bool_decide_eq_true, (pubkey_part_canonical hub Hh); [done|].
  rewrite hub_keys_canonical. apply Hwc.
Qed.

Lemma serves_hub hub leaf : serves hub leaf → hub ∈ tree_hubs s.
Proof. intros H%elem_of_take_in%elem_of_tree_ranking. by rewrite hub_keys_canonical in H. Qed.

Lemma candidate_limit_pos : 0 < candidate_limit s.
Proof. unfold candidate_limit. pose proof (wc_backups s Hwc). lia. Qed.

(** The first hub of a leaf's order serves it. *)
Lemma best_hub leaf : ∃ h l, tree_ranking s leaf = h :: l ∧ serves h leaf.
Proof.
  destruct (tree_ranking s leaf) as [|h l] eqn:Hr.
  - exfalso. destruct (tree_hubs s) as [|h l] eqn:Hh; [by apply (wc_some s Hwc)|].
    assert (h ∈ tree_ranking s leaf) as Hin by (rewrite elem_of_tree_ranking, hub_keys_canonical, Hh; by left).
    rewrite Hr in Hin. by apply not_elem_of_nil in Hin.
  - exists h, l. split; [done|]. unfold serves. rewrite Hr. pose proof candidate_limit_pos.
    destruct (candidate_limit s); [lia|]. by left.
Qed.

(** The edges, spelled out: the root with each hub, and each leaf with the hubs
    that serve it. *)
Lemma edge_canonical a b all :
  no_dash a = true → no_dash b = true →
  tree_edge s a b all = true ↔
    (a = root s ∧ b ∈ tree_hubs s) ∨ (b = root s ∧ a ∈ tree_hubs s) ∨
    (a ∈ tree_hubs s ∧ b ≠ root s ∧ b ∉ tree_hubs s ∧ serves a b) ∨
    (b ∈ tree_hubs s ∧ a ≠ root s ∧ a ∉ tree_hubs s ∧ serves b a).
Proof.
  intros Ha Hb. unfold tree_edge. cbv zeta.
  rewrite (pubkey_part_canonical a Ha), (pubkey_part_canonical b Hb).
  rewrite !is_root_canonical, !is_hub_canonical by done.
  pose proof (contains_serves b a Ha) as Hab. pose proof (contains_serves a b Hb) as Hba.
  pose proof (wc_distinct s Hwc). pose proof (serves_hub a b). pose proof (serves_hub b a).
  repeat case_bool_decide; subst; try (rewrite Hab || rewrite Hba); split; intuition congruence.
Qed.
End configured.

(** a node's preferred set is its edges.  Under a validated configuration, a
    node keeps a connection to exactly the members with which [edge] holds, so
    both ends of a pair agree; the leaf side reads its ranked prefix and the hub
    side counts ranks, and the two computations coincide. *)
Theorem tree_preference_is_edge s self peers p :
  well_configured s → proper self → proper p →
  p ∈ tree_select_preferred s self peers ↔ p ∈ peers ∧ tree_edge s self p peers = true.
Proof.
  intros Hwc Hself Hp.
  assert (Hk : ∀ id, proper id → no_dash (pubkey_part id) = true) by done.
  assert (Hhub : tree_is_hub s p = tree_is_hub s (pubkey_part p)).
  { unfold tree_is_hub. by rewrite (proper_key p Hp). }
  assert (Hedge : tree_edge s self p peers = tree_edge s (pubkey_part self) (pubkey_part p) peers).
  { unfold tree_edge. by rewrite (proper_key p Hp), (proper_key self Hself). }
  rewrite Hedge, (edge_canonical s Hwc) by auto. unfold tree_select_preferred. cbv zeta.
  pose proof (wc_distinct s Hwc). pose proof (contains_serves s Hwc (pubkey_part p) (pubkey_part self) (Hk _ Hself)).
  pose proof (serves_hub s Hwc (pubkey_part self) (pubkey_part p)).
  pose proof (serves_hub s Hwc (pubkey_part p) (pubkey_part self)).
  assert (Hpre : ∀ k, k ∈ rh_key <$> ranked_candidates s (pubkey_part self) (candidate_limit s)
    ↔ serves s k (pubkey_part self)) by (intros; by rewrite ranked_candidates_spec).
  rewrite !(is_root_canonical s Hwc), !(is_hub_canonical s Hwc) by auto.
  repeat case_bool_decide; rewrite elem_of_list_to_set, list_elem_of_filter;
    rewrite ?Hhub, ?existsb_elem, ?(is_root_canonical s Hwc), ?(is_hub_canonical s Hwc) by auto;
    rewrite ?andb_true_iff, ?orb_true_iff, ?andb_true_iff, ?negb_true_iff, ?bool_decide_eq_true, ?bool_decide_eq_false, ?Hpre;
    destruct (decide (pubkey_part p = root s)), (decide (pubkey_part p = pubkey_part self));
    intuition congruence.
Qed.

(** ** Delivery *)

#[local] Instance serves_dec s hub leaf : Decision (serves s hub leaf).
Proof. unfold serves. apply _. Defined.

Section delivery.
Context (s : HubTreeSelector) (Hwc : well_configured s).
Context (members : list string).
Context (Hcanonical : ∀ m, m ∈ members → no_dash m = true).
Context (Hroot : root s ∈ members) (Hhubs : ∀ h, h ∈ tree_hubs s → h ∈ members).
Context (limit : nat) (Hlimit : 0 < limit).

(** With every configured edge up, a member is connected to its neighbours. *)
Definition links (x : string) : list string := filter (λ y, tree_edge s x y members = true) members.

(** The first hop of the plan. *)
Definition first_hop (dest x : string) : option string := head (tree_next_hops s x dest (links x) limit).

Lemma link_spelling x y :
  no_dash y = true → connected_spelling y (links x) = if decide (y ∈ links x) then Some y else None.
Proof.
  intros Hy. case_decide as Hin.
  - destruct (proj2 (connected_spelling_is_Some y (links x))) as [q Hq].
    { exists y. split; [done|]. by apply pubkey_part_canonical. }
    rewrite Hq. apply connected_spelling_Some in Hq as [Hq Hk]. f_equal.
    apply list_elem_of_filter in Hq as [_ Hq%Hcanonical]. by rewrite pubkey_part_canonical in Hk.
  - apply connected_spelling_None. intros q Hq Hk. apply Hin. rewrite <- Hk.
    rewrite pubkey_part_canonical; [done|]. apply list_elem_of_filter in Hq as [_ Hq]. by apply Hcanonical.
Qed.

Lemma elem_of_links x y : y ∈ links x ↔ tree_edge s x y members = true ∧ y ∈ members.
Proof. unfold links. by rewrite list_elem_of_filter. Qed.

Definition hop (dest x y : string) : Prop := first_hop dest x = Some y.

Lemma first_hop_plan x dest k l :
  tree_plan s x dest (links x) limit = k :: l → k ∈ links x → hop dest x k.
Proof.
  intros Hplan Hk. unfold hop, first_hop. rewrite tree_hops, Hplan. unfold spellings. cbn [omap list_omap].
  assert (no_dash k = true) by (apply elem_of_links in Hk as [_ Hk]; by apply Hcanonical).
  by rewrite link_spelling, decide_True.
Qed.

(** The plan over canonical members. *)
Lemma plan_canonical x dest :
  no_dash x = true → no_dash dest = true → x ≠ dest →
  tree_plan s x dest (links x) limit =
    (let down leaf := take (Nat.min (candidate_limit s) limit) (connected_ranking s leaf (links x)) in
     if decide (x = root s) then if decide (dest ∈ tree_hubs s) then [dest] else down dest
     else if decide (x ∈ tree_hubs s) then
       if decide (dest ≠ root s ∧ dest ∉ tree_hubs s ∧ serves s x dest ∧ dest ∈ links x) then [dest]
       else up_keys s x (links x) limit
     else if decide (serves s dest x ∧ dest ∈ links x) then [dest] else down x).
Proof.
  intros Hx Hd Hne. unfold tree_plan, direct_key. cbv zeta.
  rewrite (pubkey_part_canonical x Hx), (pubkey_part_canonical dest Hd), (pubkey_part_canonical dest Hd).
  rewrite bool_decide_eq_false_2 by done. destruct (Nat.eqb_spec limit 0); [lia|]. cbn [orb].
  rewrite !(is_root_canonical s Hwc), !(is_hub_canonical s Hwc), link_spelling by done.
  pose proof (contains_serves s Hwc dest x Hx). pose proof (contains_serves s Hwc x dest Hd).
  pose proof (serves_hub s Hwc dest x).
  assert (Hl : is_Some (if decide (dest ∈ links x) then Some dest else None) ↔ dest ∈ links x).
  { case_decide; split; try done; by intros [? [=]]. }
  destruct (decide (x = root s)); [rewrite bool_decide_eq_true_2 by done|rewrite (bool_decide_eq_false_2 (x = root s)) by done].
  { rewrite bool_decide_eq_false_2 by congruence. by repeat case_decide. }
  destruct (decide (x ∈ tree_hubs s)); [rewrite (bool_decide_eq_true_2 (x ∈ _)) by done|rewrite (bool_decide_eq_false_2 (x ∈ _)) by done].
  - apply decide_ext. rewrite Hl, !andb_true_iff, !negb_true_iff, !bool_decide_eq_false. tauto.
  - apply decide_ext. rewrite Hl, andb_true_iff, bool_decide_eq_true. tauto.
Qed.

Lemma hub_canonical h : h ∈ tree_hubs s → no_dash h = true ∧ h ≠ root s.
Proof. intros Hh. split; [by apply Hwc|]. intros ->. by apply (wc_distinct s Hwc). Qed.

Lemma linked x y :
  no_dash x = true → y ∈ members →
  (x = root s ∧ y ∈ tree_hubs s) ∨ (y = root s ∧ x ∈ tree_hubs s) ∨
  (x ∈ tree_hubs s ∧ y ≠ root s ∧ y ∉ tree_hubs s ∧ serves s x y) ∨
  (y ∈ tree_hubs s ∧ x ≠ root s ∧ x ∉ tree_hubs s ∧ serves s y x) → y ∈ links x.
Proof. intros Hx Hy H. apply elem_of_links. split; [|done]. apply edge_canonical; auto. Qed.

(** Down from [x]: the best hub of [leaf], when [x] is linked to it. *)
Lemma down_best x leaf h l :
  tree_ranking s leaf = h :: l → h ∈ links x →
  ∃ l', take (Nat.min (candidate_limit s) limit) (connected_ranking s leaf (links x)) = h :: l'.
Proof.
  intros Hr Hh. unfold connected_ranking. rewrite Hr, filter_cons, decide_True.
  - pose proof (candidate_limit_pos s Hwc). destruct (Nat.min (candidate_limit s) limit) eqn:?; [lia|]. by eexists.
  - apply connected_spelling_is_Some. exists h. split; [done|].
    apply elem_of_links in Hh as [_ Hh%Hcanonical]. by apply pubkey_part_canonical.
Qed.

Lemma hop_up x dest :
  x ∈ tree_hubs s → x ≠ dest → dest ∈ members →
  dest = root s ∨ dest ∈ tree_hubs s ∨ ¬ serves s x dest → hop dest x (root s).
Proof.
  intros Hx Hne Hd Hcase. destruct (hub_canonical x Hx) as [Hxc Hxr].
  assert (Hr : root s ∈ links x) by (apply linked; auto).
  apply first_hop_plan with (l := []); [|done]. rewrite plan_canonical by auto. cbv zeta.
  rewrite decide_False, decide_True, decide_False by (done || tauto). unfold up_keys.
  rewrite (pubkey_part_canonical (root s)) by apply Hwc. rewrite decide_True; [done|].
  rewrite link_spelling by apply Hwc. rewrite decide_True; eauto.
Qed.

Lemma hop_serve x dest :
  serves s x dest → dest ∈ members → dest ≠ root s → dest ∉ tree_hubs s → hop dest x dest.
Proof.
  intros Hs Hd Hdr Hdh. pose proof (serves_hub s Hwc _ _ Hs) as Hx. destruct (hub_canonical x Hx) as [Hxc Hxr].
  assert (Hl : dest ∈ links x) by (apply linked; auto 8).
  apply first_hop_plan with (l := []); [|done]. rewrite plan_canonical by (auto || by intros ->). cbv zeta.
  by rewrite decide_False, decide_True, decide_True by (done || tauto).
Qed.

Lemma hop_root_hub h : h ∈ tree_hubs s → hop h (root s) h.
Proof.
  intros Hh. destruct (hub_canonical h Hh) as [Hhc Hhr].
  apply first_hop_plan with (l := []); [|apply linked; auto; by apply Hwc].
  rewrite plan_canonical; [|by apply Hwc|done..]. cbv zeta. by rewrite decide_True, decide_True.
Qed.

Lemma hop_root_leaf b :
  b ∈ members → b ≠ root s → b ∉ tree_hubs s → ∃ h, hop b (root s) h ∧ serves s h b.
Proof.
  intros Hb Hbr Hbh. destruct (best_hub s Hwc b) as (h & l & Hr & Hs). exists h. split; [|done].
  pose proof (serves_hub s Hwc _ _ Hs) as Hh.
  assert (Hl : h ∈ links (root s)) by (apply linked; auto; by apply Hwc).
  destruct (down_best (root s) b h l Hr Hl) as [l' Hdown].
  apply first_hop_plan with (l := l'); [|done]. rewrite plan_canonical by (auto || by apply Hwc). cbv zeta.
  by rewrite decide_True, decide_False.
Qed.

Lemma hop_leaf a b :
  a ∈ members → a ≠ root s → a ∉ tree_hubs s → b ∈ members → a ≠ b →
  hop b a b ∨ ∃ h, hop b a h ∧ serves s h a ∧ h ≠ b.
Proof.
  intros Ha Har Hah Hb Hne. destruct (best_hub s Hwc a) as (h & l & Hr & Hs).
  pose proof (serves_hub s Hwc _ _ Hs) as Hh. pose proof (Hcanonical a Ha) as Hac. pose proof (Hcanonical b Hb) as Hbc.
  assert (Hl : h ∈ links a) by (apply linked; auto 8). destruct (down_best a a h l Hr Hl) as [l' Hdown].
  pose proof (plan_canonical a b Hac Hbc Hne) as Hplan. cbv zeta in Hplan.
  rewrite decide_False, decide_False, Hdown in Hplan by done. case_decide as Hd.
  - left. apply (first_hop_plan _ _ _ _ Hplan). tauto.
  - right. exists h. split_and!; [by apply (first_hop_plan _ _ _ _ Hplan)|done|]. intros ->. tauto.
Qed.

Lemma root_reaches b : b ∈ members → b ≠ root s → ∃ n, n ≤ 2 ∧ nsteps (hop b) n (root s) b.
Proof.
  intros Hb Hbr. destruct (decide (b ∈ tree_hubs s)) as [Hbh|Hbh].
  - exists 1. split; [lia|]. by apply nsteps_once, hop_root_hub.
  - destruct (hop_root_leaf b) as (h & Hh & Hs); [done..|].
    exists 2. split; [lia|]. eapply nsteps_l; [done|]. by apply nsteps_once, hop_serve.
Qed.

Lemma hub_reaches x b :
  x ∈ tree_hubs s → b ∈ members → x ≠ b → ∃ n, n ≤ 3 ∧ nsteps (hop b) n x b.
Proof.
  intros Hx Hb Hne. destruct (decide (b = root s)) as [->|Hbr].
  { exists 1. split; [lia|]. apply nsteps_once, hop_up; auto. }
  destruct (decide (b ∉ tree_hubs s ∧ serves s x b)) as [[Hbh Hs]|Hup].
  { exists 1. split; [lia|]. by apply nsteps_once, hop_serve. }
  destruct (root_reaches b Hb Hbr) as (n & Hn & Hsteps). exists (S n). split; [lia|].
  eapply nsteps_l; [|done]. apply hop_up; try done. destruct (decide (b ∈ tree_hubs s)); tauto.
Qed.
End delivery.

(** Routes are complete within four hops: following the first hop of each node's
    plan leads from any member to any other. *)
Lemma tree_delivery s members limit a b :
  well_configured s → (∀ m, m ∈ members → no_dash m = true) →
  root s ∈ members → (∀ h, h ∈ tree_hubs s → h ∈ members) → 0 < limit →
  a ∈ members → b ∈ members → a ≠ b →
  ∃ n, n ≤ flood_ttl (tree_selector s) ∧
    nsteps (λ x y, head (next_hops (tree_selector s) x b (links s members x) limit) = Some y) n a b.
Proof.
  intros Hwc Hcan Hroot Hhubs Hlimit Ha Hb Hne. cbn.
  change (λ x y, _) with (hop s members limit b).
  destruct (decide (a = root s)) as [->|Har].
  { destruct (root_reaches s Hwc members Hcan Hroot Hhubs limit Hlimit b) as (n & Hn & Hs); [done..|]. exists n. split; [lia|done]. }
  destruct (decide (a ∈ tree_hubs s)) as [Hah|Hah].
  { destruct (hub_reaches s Hwc members Hcan Hroot Hhubs limit Hlimit a b) as (n & Hn & Hs); [done..|]. exists n. split; [lia|done]. }
  destruct (hop_leaf s Hwc members Hcan Hhubs limit Hlimit a b) as [Hd|(h & Hh & Hs & Hhb)]; [done..| |].
  { exists 1. split; [lia|]. by apply nsteps_once. }
  destruct (hub_reaches s Hwc members Hcan Hroot Hhubs limit Hlimit h b) as (n & Hn & Hsteps);
    [by eapply serves_hub|done..|].
  exists (S n). split; [lia|]. by eapply nsteps_l.
Qed.
End hub_tree.

(** ** Witnesses *)

Definition demo_tree : HubTreeSelector := mkHubTree "root" ["hub1"; "hub2"; "hub3"]%string 1.

Lemma demo_tree_well_configured : well_configured demo_tree.
Proof.
  split.
  - reflexivity.
  - apply Forall_forall. repeat constructor.
  - by apply (bool_decide_unpack (NoDup (tree_hubs demo_tree))).
  - by apply (bool_decide_unpack (root demo_tree ∉ tree_hubs demo_tree)).
  - discriminate.
  - cbn. lia.
Qed.

Lemma tree_preference_is_edge_witness :
  "hub1"%string ∈ tree_select_preferred (λ _, []) demo_tree "leaf" ["hub1"]%string ↔
  "hub1"%string ∈ ["hub1"]%string ∧ tree_edge (λ _, []) demo_tree "leaf" "hub1" ["hub1"]%string = true.
Proof.
  apply (tree_preference_is_edge (λ _, []) demo_tree "leaf" ["hub1"]%string "hub1"%string);
    [exact demo_tree_well_configured | reflexivity | reflexivity].
Defined.
