(* ===== verification/Modes.v ===== *)
(** * Topology modes

    Models [TopologyMode] and [validate_topology] of crates/myownmesh-core/src/config.rs
    and [from_mode] of topology/mod.rs: the configuration of a network's topology,
    its validation and the selector it constructs. *)

From S2P Require Import Prelude Ranking Topology DeviceId Hubs Ring HubTree.
From stdpp Require Import relations.
Local Open Scope nat_scope.

Inductive TopologyMode : Type :=
| ModeRing (n_preferred : option nat)
| ModeStar (hub : string)
| ModeHubs (hubs : list string) (spoke_redundancy : option nat)
| ModeHubTree (root : string) (hubs : list string) (backup_candidates : nat)
| ModeFullMesh.

Definition default_mode : TopologyMode := ModeFullMesh.
Definition DEFAULT_RING_N_PREFERRED : nat := 3.
Definition DEFAULT_SPOKE_REDUNDANCY : nat := 2.

Definition from_mode (sha256 : string → list Z) (mode : TopologyMode) : Topology :=
  match mode with
  | ModeRing n => ring_selector (mkRing (default DEFAULT_RING_N_PREFERRED n))
  | ModeStar hub => Star.star_selector (Star.mkStar hub)
  | ModeHubs hubs redundancy =>
      hubs_selector sha256 (mkHubs hubs (Nat.max (default DEFAULT_SPOKE_REDUNDANCY redundancy) 1))
  | ModeHubTree root hubs backup_candidates =>
      tree_selector sha256 (mkHubTree root hubs backup_candidates)
  | ModeFullMesh => FullMesh.fullmesh_selector
  end.

(** ** Configuration validation *)

Inductive config_error : Type :=
| RootNotCanonical | NoHubs | HubNotCanonical | RootIsHub | HubsNotUnique | TooManyBackups.

Section validation.
Context (base32_decode : string → option (list Ascii.ascii)) (base32_encode : list Ascii.ascii → string).
Context (verifying_key : list Ascii.ascii → bool).

(** The loop that parses each hub and pushes it on [normalized]. *)
Fixpoint normalize_hubs (root : DeviceId) (hubs : list string) : result config_error (list DeviceId) :=
  match hubs with
  | [] => Ok []
  | hub :: hubs =>
      match from_canonical_str base32_decode base32_encode verifying_key hub with
      | Err _ => Err HubNotCanonical
      | Ok hub =>
          if device_eq hub root then Err RootIsHub
          else
            match normalize_hubs root hubs with
            | Ok normalized => Ok (hub :: normalized)
            | Err e => Err e
            end
      end
  end.

Definition validate_topology (mode : TopologyMode) : result config_error () :=
  match mode with
  | ModeHubTree root hubs backup_candidates =>
      match from_canonical_str base32_decode base32_encode verifying_key root with
      | Err _ => Err RootNotCanonical
      | Ok root =>
          if bool_decide (hubs = []) then Err NoHubs
          else
            match normalize_hubs root hubs with
            | Err e => Err e
            | Ok normalized =>
                if any_adjacent device_eq (sort_by device_cmp normalized) then Err HubsNotUnique
                else if length normalized <=? backup_candidates then Err TooManyBackups
                else Ok ()
            end
      end
  | _ => Ok ()
  end.

(** Documented behaviour of the codec, as in DeviceId.v. *)
Context (Hlen : ∀ bytes, length bytes = 32 → String.length (base32_encode bytes) = 52).
Context (Halphabet : ∀ bytes, string_forall upper_base32 (base32_encode bytes) = true).
Context (Hround : ∀ bytes, base32_decode (base32_encode bytes) = Some bytes).

Definition canonical (v : string) : Prop :=
  ∃ d, from_canonical_str base32_decode base32_encode verifying_key v = Ok d.

Lemma normalize_hubs_Ok rt root hubs :
  from_canonical_str base32_decode base32_encode verifying_key root = Ok rt →
  (∀ ds, normalize_hubs rt hubs = Ok ds →
    Forall2 (λ v d, from_canonical_str base32_decode base32_encode verifying_key v = Ok d) hubs ds ∧ root ∉ hubs) ∧
  (Forall canonical hubs → root ∉ hubs → ∃ ds, normalize_hubs rt hubs = Ok ds).
Proof.
  intros Hrt. induction hubs as [|h hubs [IH1 IH2]]; cbn [normalize_hubs].
  { split; [intros ds [= <-]; split; [constructor|apply not_elem_of_nil]|eauto]. }
  destruct (from_canonical_str _ _ _ h) as [d|e] eqn:Hd; cycle 1.
  { split; [done|]. intros [[d ?] _]%Forall_cons. congruence. }
  assert (Heq : device_eq d rt = true ↔ h = root).
  { unfold device_eq. rewrite bool_decide_eq_true. by eapply parsed_eq. }
  split.
  - destruct (device_eq d rt); [done|]. destruct (normalize_hubs rt hubs) as [ds'|] eqn:Hn; [|done].
    intros ds [= <-]. destruct (IH1 ds' eq_refl). split; [by constructor|].
    apply not_elem_of_cons. split; [|done]. intros ->. destruct Heq as [_ Heq]. by discriminate Heq.
  - intros [_ Hc]%Forall_cons [Hne Hni]%not_elem_of_cons. destruct (device_eq d rt); [by destruct Hne; symmetry; apply Heq|].
    destruct (IH2 Hc Hni) as [ds ->]. eauto.
Qed.

(** The duplicate test decides uniqueness. *)
Lemma duplicate_test hubs ds :
  Forall2 (λ v d, from_canonical_str base32_decode base32_encode verifying_key v = Ok d) hubs ds →
  any_adjacent device_eq (sort_by device_cmp ds) = false ↔ NoDup hubs.
Proof.
  intros Hds.
  assert (Hcan : id_canonical <$> ds = hubs).
  { induction Hds as [|v d hubs ds Hd Hds IH]; [done|]. rewrite fmap_cons, IH. f_equal. by eapply parsed_spelling. }
  assert (Hin : ∀ d, d ∈ ds → from_canonical_str base32_decode base32_encode verifying_key (id_canonical d) = Ok d).
  { clear Hcan. induction Hds as [|v d hubs ds Hd Hds IH]; intros e; [by intros ?%not_elem_of_nil|].
    intros [->|He]%elem_of_cons; [|by apply IH]. by rewrite (parsed_spelling _ _ _ Hlen Halphabet Hround _ _ Hd). }
  rewrite (any_adjacent_map id_canonical device_eq (λ x y, bool_decide (x = y))).
  2: { intros x y Hx Hy. rewrite (sort_by_perm device_cmp ds) in Hx, Hy. unfold device_eq. apply bool_decide_ext.
       eapply parsed_eq; eauto. }
  rewrite (sort_by_map id_canonical device_cmp String.compare) by done. rewrite Hcan. split.
  - apply (sorted_adjacent_NoDup String.compare). intros x y. by rewrite bool_decide_eq_false.
  - intros Hnd. apply NoDup_adjacent; [intros x y; by rewrite bool_decide_eq_true|]. by rewrite sort_by_perm.
Qed.

Lemma validate_tree_spec root hubs backups :
  validate_topology (ModeHubTree root hubs backups) = Ok () ↔
  canonical root ∧ Forall canonical hubs ∧ hubs ≠ [] ∧ NoDup hubs ∧ root ∉ hubs ∧ backups < length hubs.
Proof.
  cbn [validate_topology].
  destruct (from_canonical_str _ _ _ root) as [rt|] eqn:Hrt.
  2: { split; [done|]. intros [[? Hc] _]. congruence. }
  destruct (normalize_hubs_Ok rt root hubs Hrt) as [Hn1 Hn2].
  destruct (decide (hubs = [])) as [He|He]; [rewrite bool_decide_eq_true_2 by done; split; [done|tauto]|].
  rewrite bool_decide_eq_false_2 by done.
  destruct (normalize_hubs rt hubs) as [ds|] eqn:Hn.
  2: { split; [done|]. intros (_ & Hc & _ & _ & Hni & _). by destruct (Hn2 Hc Hni). }
  destruct (Hn1 ds eq_refl) as [Hds Hni]. pose proof (Forall2_length _ _ _ Hds) as Hlength.
  pose proof (duplicate_test hubs ds Hds) as Hdup.
  assert (Forall canonical hubs) by (clear -Hds; induction Hds; constructor; [by eexists|done]).
  assert (canonical root) by (by eexists).
  destruct (any_adjacent _ _); [split; [done|]; intros (_ & _ & _ & Hnd & _); by apply Hdup in Hnd|].
  rewrite <- Hlength. destruct (Nat.leb_spec (length hubs) backups); split; try done; [intros; lia|].
  intros _. split_and!; try done. by apply Hdup.
Qed.

Lemma validated_well_configured root hubs backups :
  validate_topology (ModeHubTree root hubs backups) = Ok () → well_configured (mkHubTree root hubs backups).
Proof.
  intros ([d Hd] & Hc & Hne & Hnd & Hni & Hb)%validate_tree_spec. split; cbn; try done.
  - by eapply parsed_no_dash.
  - intros h Hh. rewrite Forall_forall in Hc. destruct (Hc h Hh). by eapply parsed_no_dash.
Qed.

(** C12: a validated tree delivers within its TTL.  When [validate_topology]
    admits a hub tree, its root and hubs are members and its edges are up,
    following the first hop of each node's plan leads from any member to any
    other in at most four hops, the mode's flood TTL. *)
Theorem validated_tree_delivers_within_ttl sha256 root hubs backups members limit a b :
  let mode := ModeHubTree root hubs backups in
  let T := from_mode sha256 mode in
  validate_topology mode = Ok () → (∀ m, m ∈ members → canonical m) →
  root ∈ members → (∀ h, h ∈ hubs → h ∈ members) → 0 < limit →
  a ∈ members → b ∈ members → a ≠ b →
  ∃ n, n ≤ flood_ttl T ∧
    nsteps (λ x y, head (next_hops T x b (filter (λ p, edge T x p members = true) members) limit) = Some y) n a b.
Proof.
  cbv zeta. intros Hv%validated_well_configured Hm Hr Hh Hl Ha Hb Hne.
  apply (tree_delivery sha256 (mkHubTree root hubs backups)); try done.
  intros m [d Hd]%Hm. by eapply parsed_no_dash.
Qed.

(** validation is exact.  A hub tree is admitted exactly when its root and
    hubs are canonical identities, there is a hub, no hub is repeated or is the
    root, and there are fewer backups than hubs; every other mode is admitted. *)
Theorem validate_topology_exact mode :
  validate_topology mode = Ok () ↔
  match mode with
  | ModeHubTree root hubs backups =>
      canonical root ∧ Forall canonical hubs ∧ hubs ≠ [] ∧ NoDup hubs ∧ root ∉ hubs ∧ backups < length hubs
  | _ => True
  end.
Proof. destruct mode; try done. apply validate_tree_spec. Qed.
End validation.

(** C34: every mode constructs a selector that keeps the contract of the trait. *)
Theorem every_mode_is_lawful sha256 mode : lawful (from_mode sha256 mode).
Proof.
  destruct mode; cbn [from_mode];
    [apply ring_lawful|apply Star.star_lawful|apply hubs_lawful|apply tree_lawful|apply FullMesh.fullmesh_lawful].
Qed.

(** ** Witnesses: five devices under the RFC 4648 codec *)

Definition demo_device (n : nat) : string := to_lowercase (rfc4648_encode (replicate 32 (Ascii.ascii_of_nat n))).
Definition demo_mode : TopologyMode := ModeHubTree (demo_device 0) [demo_device 1; demo_device 2] 1.
Definition demo_devices : list string := demo_device <$> [0; 1; 2; 3; 4].

Lemma demo_device_canonical n : canonical rfc4648_decode rfc4648_encode (λ _, true) (demo_device n).
Proof.
  eexists (mkDeviceId (replicate 32 (Ascii.ascii_of_nat n)) (demo_device n)).
  apply (from_canonical_str_Ok _ _ _ rfc4648_length rfc4648_alphabet rfc4648_round). done.
Qed.

Lemma validated_tree_delivers_within_ttl_witness :
  ∃ n, n ≤ 4 ∧
    nsteps (λ x y, head (next_hops (from_mode (λ _, []) demo_mode) x (demo_device 4)
      (filter (λ p, edge (from_mode (λ _, []) demo_mode) x p demo_devices = true) demo_devices) 3) = Some y)
      n (demo_device 3) (demo_device 4).
Proof.
  apply (validated_tree_delivers_within_ttl rfc4648_decode rfc4648_encode (λ _, true)
    rfc4648_length rfc4648_alphabet rfc4648_round (λ _, []) (demo_device 0) [demo_device 1; demo_device 2] 1
    demo_devices 3 (demo_device 3) (demo_device 4)).
  - vm_compute. reflexivity.
  - intros m (n & -> & _)%list_elem_of_fmap. apply demo_device_canonical.
  - by left.
  - apply Forall_forall. repeat constructor; unfold demo_devices; apply list_elem_of_fmap_2; set_solver.
  - lia.
  - unfold demo_devices. apply list_elem_of_fmap_2. set_solver.
  - unfold demo_devices. apply list_elem_of_fmap_2. set_solver.
  - vm_compute. discriminate.
Defined.

Lemma validate_topology_exact_witness :
  validate_topology rfc4648_decode rfc4648_encode (λ _, true) demo_mode = Ok ().
Proof.
  apply (validate_topology_exact rfc4648_decode rfc4648_encode (λ _, true)
    rfc4648_length rfc4648_alphabet rfc4648_round demo_mode).
  split_and!.
  - apply demo_device_canonical.
  - repeat constructor; apply demo_device_canonical.
  - discriminate.
  - by apply (bool_decide_unpack (NoDup [demo_device 1; demo_device 2])).
  - by apply (bool_decide_unpack (demo_device 0 ∉ [demo_device 1; demo_device 2])).
  - cbn. lia.
Defined.
