(* ===== verification/Parenting.v ===== *)
(** * Hub-tree parenting

    Models [ParentingState] of crates/myownmesh-core/src/engine/parenting.rs: the
    bounded table of parent and child relations of one node.  The table is any
    lawful ordered map (OrderedMap.v).  An operation that reads the clock takes the
    reading as argument, and one that funds an entry takes the provider's answer;
    a state change made before an early [Err] persists. *)

From S2P Require Import Prelude Ranking OrderedMap.

(** 32-byte keys and identifiers are byte strings; their derived order is the
    lexicographic one. *)
Definition ParentDeviceKey : Type := string.

Inductive ParentingRole : Type := RoleRoot | RoleHub (tier : nat) | RoleLeaf.
#[export] Instance role_eq_dec : EqDecision ParentingRole.
Proof. solve_decision. Defined.

Definition MAX_HUB_TIER : nat := 1.

Record ParentOwnerCoordinate : Type := mkOwner {
  owner_peer : ParentDeviceKey;
  binding_namespace : string;
  binding_epoch : Z;
}.
#[export] Instance owner_eq_dec : EqDecision ParentOwnerCoordinate.
Proof. solve_decision. Defined.

Inductive ParentingRelationKind : Type := KindPrimary | KindBackup.
#[export] Instance kind_eq_dec : EqDecision ParentingRelationKind.
Proof. solve_decision. Defined.

Record ParentAttachRequest : Type := mkRequest {
  rq_context_id : string;
  rq_configuration_digest : string;
  rq_request_sequence : Z;
  rq_child : ParentDeviceKey;
  rq_parent : ParentDeviceKey;
  rq_child_role : ParentingRole;
  rq_parent_role : ParentingRole;
  rq_kind : ParentingRelationKind;
}.

Inductive ParentAttachRejection : Type :=
| RejUnsupportedRole | RejNotCurrentOwner | RejCapacity | RejStaleRequest
| RejContextMismatch | RejConfigurationMismatch.

Inductive ParentAttachResponse : Type :=
| Accepted (request : ParentAttachRequest) (relation_generation : Z)
| Rejected (request : ParentAttachRequest) (reason : ParentAttachRejection).

Inductive ParentAdoption : Type := AdoptAccepted | AdoptRejected (reason : ParentAttachRejection).

Inductive ParentingRefusal : Type :=
| InvalidPolicy | InvalidRequest | InvalidOwner | ContextMismatch | ConfigurationMismatch
| UnsupportedRole | Capacity | OwnerMismatch | StaleRequest | PendingMismatch
| GenerationOverflow | TimeOverflow | Arithmetic | Invariant | ProviderRefused | ClockRegression.

Definition request_new (context_id configuration_digest : string) (request_sequence : Z)
    (child parent : ParentDeviceKey) (child_role parent_role : ParentingRole)
    (kind : ParentingRelationKind) : result ParentingRefusal ParentAttachRequest :=
  if (request_sequence =? 0) || bool_decide (child = parent) then Err InvalidRequest
  else Ok (mkRequest context_id configuration_digest request_sequence child parent child_role parent_role kind).

Record ParentingPolicy : Type := mkPolicy {
  local_key : ParentDeviceKey;
  root_key : ParentDeviceKey;
  role : ParentingRole;
  max_hub_tier : nat;
  max_children : nat;
  max_backups : nat;
  max_pending : nat;
  max_age_ticks : Z;
  context_id : string;
  configuration_digest : string;
}.

Definition relation_bound (p : ParentingPolicy) : result ParentingRefusal Z :=
  per_child ← ok_or Arithmetic (checked_add usize_max (Z.of_nat (max_backups p)) 1);
  ok_or Arithmetic
    (children ← checked_mul usize_max (Z.of_nat (max_children p)) per_child;
     records ← checked_add usize_max children (Z.of_nat (max_pending p));
     checked_add usize_max records 1).

Definition policy_checked (p : ParentingPolicy) : result ParentingRefusal ParentingPolicy :=
  if bool_decide (max_hub_tier p ≠ MAX_HUB_TIER) || bool_decide (max_pending p ≠ 1%nat)
     || (max_age_ticks p =? 0) || (u16_max - 1 <? Z.of_nat (max_backups p))
     || (match role p with RoleHub tier => bool_decide (tier ≠ 1%nat) | _ => false end)
     || (bool_decide (role p ≠ RoleRoot) && bool_decide (local_key p = root_key p))
     || (bool_decide (role p = RoleRoot) && bool_decide (local_key p ≠ root_key p))
  then Err InvalidPolicy
  else _ ← relation_bound p; Ok p.

Definition slot_backup (p : ParentingPolicy) (index : nat) : result ParentingRefusal nat :=
  if (max_backups p <=? index)%nat then Err Capacity
  else
    slot ← ok_or Arithmetic (checked_add usize_max (Z.of_nat index) 1);
    if slot <=? u16_max then Ok (Z.to_nat slot) else Err InvalidPolicy.

Definition accepts_child (p : ParentingPolicy) (child_role : ParentingRole) : bool :=
  match role p with
  | RoleRoot => bool_decide (child_role = RoleHub 1)
  | RoleHub 1 => bool_decide (child_role = RoleLeaf)
  | RoleHub _ | RoleLeaf => false
  end.

Definition accepts_parent (p : ParentingPolicy) (parent : ParentDeviceKey) (parent_role : ParentingRole) : bool :=
  match role p with
  | RoleRoot => false
  | RoleHub 1 => bool_decide (parent = root_key p) && bool_decide (parent_role = RoleRoot)
  | RoleHub _ => false
  | RoleLeaf => bool_decide (parent ≠ root_key p) && bool_decide (parent_role = RoleHub 1)
  end.

Inductive RelationState : Type := Pending | Primary | Backup.
#[export] Instance relation_state_eq_dec : EqDecision RelationState.
Proof. solve_decision. Defined.

Record ParentingKey : Type := mkKey { key_child : ParentDeviceKey; key_slot : nat }.
#[export] Instance key_eq_dec : EqDecision ParentingKey.
Proof. solve_decision. Defined.

(** The derived order: child first, then slot. *)
Definition key_cmp (a b : ParentingKey) : comparison :=
  then_with (String.compare (key_child a) (key_child b)) (Nat.compare (key_slot a) (key_slot b)).

Record ParentingRelation : Type := mkRelation {
  rl_owner : ParentOwnerCoordinate;
  rl_parent : ParentDeviceKey;
  rl_child_role : ParentingRole;
  rl_parent_role : ParentingRole;
  rl_kind : ParentingRelationKind;
  rl_request_sequence : Z;
  rl_relation_generation : Z;
  rl_expires_at : Z;
  rl_state : RelationState;
}.

Record ParentingRelationSnapshot : Type := mkSnapshot {
  sn_child : ParentDeviceKey;
  sn_parent : ParentDeviceKey;
  sn_owner : string;
  sn_owner_epoch : Z;
  sn_kind : ParentingRelationKind;
  sn_relation_generation : Z;
}.

Record ParentAttachTicket : Type := mkTicket {
  tk_key : ParentingKey;
  tk_request_sequence : Z;
  tk_relation_generation : Z;
  tk_owner : ParentOwnerCoordinate;
}.

Section parenting.
Context {L M : Type} `{!OrderedMap ParentingKey ParentingRelation L M}.

Record ParentingState : Type := mkState {
  records : M;
  policy : ParentingPolicy;
  next_generation : Z;
  primary_children : Z;
  backup_children : Z;
  pending_count : Z;
  record_count : Z;
  last_now : option Z;
  maintenance_cursor : option ParentingKey;
}.

Definition set_records (m : M) (s : ParentingState) : ParentingState :=
  mkState m (policy s) (next_generation s) (primary_children s) (backup_children s) (pending_count s)
    (record_count s) (last_now s) (maintenance_cursor s).
Definition set_generation (g : Z) (s : ParentingState) : ParentingState :=
  mkState (records s) (policy s) g (primary_children s) (backup_children s) (pending_count s)
    (record_count s) (last_now s) (maintenance_cursor s).
Definition set_primary (n : Z) (s : ParentingState) : ParentingState :=
  mkState (records s) (policy s) (next_generation s) n (backup_children s) (pending_count s)
    (record_count s) (last_now s) (maintenance_cursor s).
Definition set_backup (n : Z) (s : ParentingState) : ParentingState :=
  mkState (records s) (policy s) (next_generation s) (primary_children s) n (pending_count s)
    (record_count s) (last_now s) (maintenance_cursor s).
Definition set_pending (n : Z) (s : ParentingState) : ParentingState :=
  mkState (records s) (policy s) (next_generation s) (primary_children s) (backup_children s) n
    (record_count s) (last_now s) (maintenance_cursor s).
Definition set_count (n : Z) (s : ParentingState) : ParentingState :=
  mkState (records s) (policy s) (next_generation s) (primary_children s) (backup_children s) (pending_count s)
    n (last_now s) (maintenance_cursor s).
Definition set_now (t : option Z) (s : ParentingState) : ParentingState :=
  mkState (records s) (policy s) (next_generation s) (primary_children s) (backup_children s) (pending_count s)
    (record_count s) t (maintenance_cursor s).
Definition set_cursor (c : option ParentingKey) (s : ParentingState) : ParentingState :=
  mkState (records s) (policy s) (next_generation s) (primary_children s) (backup_children s) (pending_count s)
    (record_count s) (last_now s) c.

Definition act (A : Type) : Type := op ParentingState ParentingRefusal A.

Definition modify (f : ParentingState → ParentingState) : act () := λ s, (f s, Ok ()).

(** [x.checked_*(..).ok_or(e)?] assigned to a field. *)
Definition assign (e : ParentingRefusal) (v : option Z) (set : Z → ParentingState → ParentingState) : act () :=
  x ← op_lift (ok_or e v); modify (set x).

Definition state_new (p : ParentingPolicy) : result ParentingRefusal ParentingState :=
  p ← policy_checked p; Ok (mkState om_new p 1 0 0 0 0 None None).

Definition now_ (clock : Z) : act Z :=
  s ← op_get;
  if (match last_now s with Some last => clock <? last | None => false end) then op_fail ClockRegression
  else modify (set_now (Some clock));; mret clock.

Definition expiry (s : ParentingState) (now : Z) : result ParentingRefusal Z :=
  ok_or TimeOverflow (checked_add u64_max now (max_age_ticks (policy s))).

Definition next_relation_generation : act Z :=
  s ← op_get;
  assign GenerationOverflow (checked_add u64_max (next_generation s) 1) set_generation;;
  mret (next_generation s).

Definition next_key_after (m : M) (cursor : option ParentingKey) : option ParentingKey :=
  match fst <$> om_successor m cursor with
  | Some k => Some k
  | None => match cursor with Some _ => fst <$> om_successor m None | None => None end
  end.

Definition other_child (s : ParentingState) (key : ParentingKey) : Z :=
  if bool_decide (key_child key ≠ local_key (policy s)) then 1 else 0.

Definition remove_key (key : ParentingKey) : act ParentingRelation :=
  s ← op_get;
  match om_remove (records s) key with
  | (_, None) => op_fail Invariant
  | (m, Some relation) =>
      modify (set_records m);;
      assign Invariant (checked_sub (record_count s) 1) set_count;;
      match rl_state relation with
      | Pending => assign Invariant (checked_sub (pending_count s) 1) set_pending
      | Primary => assign Invariant (checked_sub (primary_children s) (other_child s key)) set_primary
      | Backup => assign Invariant (checked_sub (backup_children s) (other_child s key)) set_backup
      end;;
      mret relation
  end.

Definition is_expired (m : M) (key : ParentingKey) (now : Z) : bool :=
  match om_get m key with Some relation => rl_expires_at relation <=? now | None => false end.

(** The loop of [maintain_at]; returns the cursor and the number removed. *)
Fixpoint maintain_loop (now : Z) (start : option ParentingKey) (steps : list nat)
    (cursor : option ParentingKey) (removed : Z) : act (option ParentingKey * Z) :=
  match steps with
  | [] => mret (cursor, removed)
  | step :: steps =>
      s ← op_get;
      match next_key_after (records s) cursor with
      | None => mret (None, removed)
      | Some key =>
          if (0 <? step)%nat && bool_decide (Some key = start) then mret (cursor, removed)
          else if is_expired (records s) key now then
            remove_key key;;
            removed ← op_lift (ok_or Invariant (checked_add usize_max removed 1));
            maintain_loop now start steps (Some key) removed
          else maintain_loop now start steps (Some key) removed
      end
  end.

Definition maintain_at (now : Z) : act Z :=
  s ← op_get;
  let start := next_key_after (records s) (maintenance_cursor s) in
  '(cursor, removed) ← maintain_loop now start (seq 0 (max_pending (policy s))) (maintenance_cursor s) 0;
  modify (set_cursor cursor);;
  mret removed.

Definition maintain_now (clock : Z) : act Z := now ← now_ clock; maintain_at now.

Definition check_request (s : ParentingState) (request : ParentAttachRequest) : result ParentingRefusal () :=
  if (rq_request_sequence request =? 0) || bool_decide (rq_child request = rq_parent request)
  then Err InvalidRequest
  else if bool_decide (rq_context_id request ≠ context_id (policy s)) then Err ContextMismatch
  else if bool_decide (rq_configuration_digest request ≠ configuration_digest (policy s))
  then Err ConfigurationMismatch
  else Ok ().

Definition primary_key (child : ParentDeviceKey) : ParentingKey := mkKey child 0.

Definition relation_snapshot (key : ParentingKey) (r : ParentingRelation) : ParentingRelationSnapshot :=
  mkSnapshot (key_child key) (rl_parent r) (binding_namespace (rl_owner r)) (binding_epoch (rl_owner r))
    (rl_kind r) (rl_relation_generation r).

Definition expire_key_if_needed (key : ParentingKey) (now : Z) : act bool :=
  s ← op_get;
  if is_expired (records s) key now then remove_key key;; mret true else mret false.

(** The five comparisons of an existing relation with a request. *)
Definition same_link (owner : ParentOwnerCoordinate) (request : ParentAttachRequest) (r : ParentingRelation) : bool :=
  bool_decide (rl_owner r = owner) && bool_decide (rl_parent r = rq_parent request)
  && bool_decide (rl_child_role r = rq_child_role request)
  && bool_decide (rl_parent_role r = rq_parent_role request) && bool_decide (rl_kind r = rq_kind request).

Definition accept_match (owner : ParentOwnerCoordinate) (request : ParentAttachRequest) (r : ParentingRelation) : bool :=
  same_link owner request r && bool_decide (rl_state r ≠ Pending).

Definition renew (sequence expires : Z) (r : ParentingRelation) : ParentingRelation :=
  mkRelation (rl_owner r) (rl_parent r) (rl_child_role r) (rl_parent_role r) (rl_kind r) sequence
    (rl_relation_generation r) expires (rl_state r).

(** A repeated request: stale, or renewed under its generation. *)
Definition reaccept (request : ParentAttachRequest) (expires : Z) (key : ParentingKey)
    (existing : ParentingRelation) : act ParentAttachResponse :=
  if rq_request_sequence request <? rl_request_sequence existing then op_fail StaleRequest
  else
    modify (λ s, set_records (om_write (records s) key (renew (rq_request_sequence request) expires)) s);;
    mret (Accepted request (rl_relation_generation existing)).

(** The scan over the backup slots; [inl] is the early [return]. *)
Fixpoint accept_scan (owner : ParentOwnerCoordinate) (request : ParentAttachRequest) (now expires : Z)
    (indices : list nat) (free : option ParentingKey) : act (ParentAttachResponse + option ParentingKey) :=
  match indices with
  | [] => mret (inr free)
  | index :: indices =>
      s ← op_get;
      slot ← op_lift (slot_backup (policy s) index);
      let candidate := mkKey (rq_child request) slot in
      let free' := match free with Some k => Some k | None => Some candidate end in
      expired ← expire_key_if_needed candidate now;
      if expired : bool then accept_scan owner request now expires indices free'
      else
        s ← op_get;
        match om_get (records s) candidate with
        | Some existing =>
            if accept_match owner request existing then
              response ← reaccept request expires candidate existing; mret (inl response)
            else accept_scan owner request now expires indices free
        | None => accept_scan owner request now expires indices free'
        end
  end.

(** [records.insert(..)] followed by the record count. *)
Definition insert_relation (key : ParentingKey) (relation : ParentingRelation) (lease : L) : act () :=
  s ← op_get;
  match om_insert (records s) key relation lease with
  | None => op_fail Invariant
  | Some m => modify (set_records m);; assign Invariant (checked_add usize_max (record_count s) 1) set_count
  end.

Definition kind_state (kind : ParentingRelationKind) : RelationState :=
  match kind with KindPrimary => Primary | KindBackup => Backup end.

(** The rest of [accept_request] once the slot is chosen. *)
Definition accept_at (acquired : option L) (owner : ParentOwnerCoordinate) (request : ParentAttachRequest)
    (now expires : Z) (key : ParentingKey) : act ParentAttachResponse :=
  expire_key_if_needed key now;;
  s ← op_get;
  match om_get (records s) key with
  | Some existing =>
      if accept_match owner request existing then reaccept request expires key existing
      else op_fail StaleRequest
  | None =>
      if bool_decide (rq_kind request = KindPrimary) && (Z.of_nat (max_children (policy s)) <=? primary_children s)
      then op_fail Capacity
      else
        full ← (match rq_kind request with
                | KindPrimary => mret false
                | KindBackup =>
                    bound ← op_lift (ok_or Arithmetic
                      (checked_mul usize_max (Z.of_nat (max_children (policy s))) (Z.of_nat (max_backups (policy s)))));
                    mret (bound <=? backup_children s)
                end);
        if full : bool then op_fail Capacity
        else
          lease ← op_lift (ok_or ProviderRefused acquired);
          generation ← next_relation_generation;
          let relation := mkRelation owner (rq_parent request) (rq_child_role request)
            (rq_parent_role request) (rq_kind request) (rq_request_sequence request) generation expires
            (kind_state (rq_kind request)) in
          insert_relation key relation lease;;
          match rl_state relation with
          | Primary => assign Invariant (checked_add usize_max (primary_children s) 1) set_primary
          | Backup => assign Invariant (checked_add usize_max (backup_children s) (other_child s key)) set_backup
          | Pending => op_fail Invariant
          end;;
          mret (Accepted request generation)
  end.

Definition accept_request (clock : Z) (acquired : option L) (owner : ParentOwnerCoordinate)
    (request : ParentAttachRequest) : act ParentAttachResponse :=
  s ← op_get;
  op_lift (check_request s request);;
  if bool_decide (rq_parent request ≠ local_key (policy s)) || bool_decide (owner_peer owner ≠ rq_child request)
  then op_fail OwnerMismatch
  else if bool_decide (rq_parent_role request ≠ role (policy s))
          || negb (accepts_child (policy s) (rq_child_role request))
  then op_fail UnsupportedRole
  else
    now ← now_ clock;
    maintain_at now;;
    expires ← op_lift (expiry s now);
    scanned ← match rq_kind request with
              | KindPrimary => mret (inr (Some (primary_key (rq_child request))))
              | KindBackup => accept_scan owner request now expires (seq 0 (max_backups (policy s))) None
              end;
    match scanned with
    | inl response => mret response
    | inr free =>
        key ← op_lift (ok_or Capacity free);
        accept_at acquired owner request now expires key
    end.

Definition begin_match (owner : ParentOwnerCoordinate) (request : ParentAttachRequest) (r : ParentingRelation) : bool :=
  bool_decide (rl_state r = Pending) && same_link owner request r
  && (rl_request_sequence r =? rq_request_sequence request).

Definition ticket_of (key : ParentingKey) (r : ParentingRelation) : ParentAttachTicket :=
  mkTicket key (rl_request_sequence r) (rl_relation_generation r) (rl_owner r).

Fixpoint begin_scan (owner : ParentOwnerCoordinate) (request : ParentAttachRequest) (now : Z)
    (indices : list nat) (free : option ParentingKey) : act (ParentAttachTicket + option ParentingKey) :=
  match indices with
  | [] => mret (inr free)
  | index :: indices =>
      s ← op_get;
      slot ← op_lift (slot_backup (policy s) index);
      let candidate := mkKey (rq_child request) slot in
      let free' := match free with Some k => Some k | None => Some candidate end in
      expired ← expire_key_if_needed candidate now;
      if expired : bool then begin_scan owner request now indices free'
      else
        s ← op_get;
        match om_get (records s) candidate with
        | Some existing =>
            if begin_match owner request existing then mret (inl (ticket_of candidate existing))
            else begin_scan owner request now indices free
        | None => begin_scan owner request now indices free'
        end
  end.

(** The rest of [begin_child_attach] once the slot is chosen. *)
Definition begin_at (acquired : option L) (owner : ParentOwnerCoordinate) (request : ParentAttachRequest)
    (now : Z) (key : ParentingKey) : act ParentAttachTicket :=
  expire_key_if_needed key now;;
  s ← op_get;
  match om_get (records s) key with
  | Some existing =>
      if begin_match owner request existing then mret (ticket_of key existing) else op_fail StaleRequest
  | None =>
      if Z.of_nat (max_pending (policy s)) <=? pending_count s then op_fail Capacity
      else
        lease ← op_lift (ok_or ProviderRefused acquired);
        generation ← next_relation_generation;
        expires ← op_lift (expiry s now);
        let relation := mkRelation owner (rq_parent request) (rq_child_role request)
          (rq_parent_role request) (rq_kind request) (rq_request_sequence request) generation expires Pending in
        insert_relation key relation lease;;
        assign Invariant (checked_add usize_max (pending_count s) 1) set_pending;;
        mret (mkTicket key (rq_request_sequence request) generation owner)
  end.

Definition begin_child_attach (clock : Z) (acquired : option L) (owner : ParentOwnerCoordinate)
    (request : ParentAttachRequest) : act ParentAttachTicket :=
  s ← op_get;
  op_lift (check_request s request);;
  if bool_decide (rq_child request ≠ local_key (policy s)) || bool_decide (owner_peer owner ≠ rq_parent request)
     || bool_decide (rq_child_role request ≠ role (policy s)) || bool_decide (rq_parent_role request = role (policy s))
     || negb (accepts_parent (policy s) (rq_parent request) (rq_parent_role request))
  then op_fail UnsupportedRole
  else
    now ← now_ clock;
    maintain_at now;;
    scanned ← match rq_kind request with
              | KindPrimary => mret (inr (Some (primary_key (rq_child request))))
              | KindBackup => begin_scan owner request now (seq 0 (max_backups (policy s))) None
              end;
    match scanned with
    | inl ticket => mret ticket
    | inr free =>
        key ← op_lift (ok_or Capacity free);
        begin_at acquired owner request now key
    end.

Definition ticket_slot_ok (s : ParentingState) (kind : ParentingRelationKind) (key : ParentingKey) : bool :=
  bool_decide (key_child key = local_key (policy s))
  && match kind with
     | KindPrimary => (key_slot key =? 0)%nat
     | KindBackup => negb (key_slot key =? 0)%nat && (key_slot key - 1 <? max_backups (policy s))%nat
     end.

Definition pending_match (owner : ParentOwnerCoordinate) (ticket : ParentAttachTicket)
    (request : ParentAttachRequest) (r : ParentingRelation) : bool :=
  bool_decide (rl_state r = Pending) && same_link owner request r
  && (rl_request_sequence r =? rq_request_sequence request)
  && (rl_relation_generation r =? tk_relation_generation ticket).

Definition bind_relation (generation expires : Z) (state : RelationState) (r : ParentingRelation) :
    ParentingRelation :=
  mkRelation (rl_owner r) (rl_parent r) (rl_child_role r) (rl_parent_role r) (rl_kind r)
    (rl_request_sequence r) generation expires state.

Definition adopt_response (clock : Z) (owner : ParentOwnerCoordinate) (ticket : ParentAttachTicket)
    (response : ParentAttachResponse) : act ParentAdoption :=
  let '(request, accepted_generation, rejection) :=
    match response with
    | Accepted request generation => (request, Some generation, None)
    | Rejected request reason => (request, None, Some reason)
    end in
  s ← op_get;
  op_lift (check_request s request);;
  if bool_decide (rq_child request ≠ local_key (policy s)) || bool_decide (owner_peer owner ≠ rq_parent request)
  then op_fail OwnerMismatch
  else
    let key := tk_key ticket in
    if negb (ticket_slot_ok s (rq_kind request) key) then op_fail PendingMismatch
    else if bool_decide (tk_owner ticket ≠ owner) || negb (tk_request_sequence ticket =? rq_request_sequence request)
    then op_fail PendingMismatch
    else
      match om_get (records s) key with
      | None => op_fail PendingMismatch
      | Some existing =>
          if negb (pending_match owner ticket request existing) then op_fail PendingMismatch
          else
            now ← now_ clock;
            if rl_expires_at existing <=? now then remove_key key;; op_fail StaleRequest
            else
              match rejection with
              | Some reason => remove_key key;; mret (AdoptRejected reason)
              | None =>
                  generation ← op_lift (ok_or PendingMismatch accepted_generation);
                  if generation =? 0 then op_fail PendingMismatch
                  else
                    next ← op_lift (ok_or GenerationOverflow (checked_add u64_max generation 1));
                    modify (λ s, if next_generation s <? next then set_generation next s else s);;
                    expires ← op_lift (expiry s now);
                    modify (λ s, set_records (om_write (records s) key
                      (bind_relation generation expires (kind_state (rq_kind request)))) s);;
                    assign Invariant (checked_sub (pending_count s) 1) set_pending;;
                    match kind_state (rq_kind request) with
                    | Primary => mret ()
                    | Backup => assign Invariant (checked_add usize_max (backup_children s) (other_child s key)) set_backup
                    | Pending => op_fail Invariant
                    end;;
                    mret AdoptAccepted
              end
      end.

Definition cancel_child_attach (owner : ParentOwnerCoordinate) (ticket : ParentAttachTicket) : act () :=
  s ← op_get;
  match om_get (records s) (tk_key ticket) with
  | None => op_fail StaleRequest
  | Some existing =>
      if bool_decide (rl_state existing ≠ Pending) || bool_decide (rl_owner existing ≠ tk_owner ticket)
         || bool_decide (rl_owner existing ≠ owner)
         || negb (rl_request_sequence existing =? tk_request_sequence ticket)
         || negb (rl_relation_generation existing =? tk_relation_generation ticket)
      then op_fail StaleRequest
      else remove_key (tk_key ticket);; mret ()
  end.

Fixpoint live_owner_loop (m : M) (owner : ParentOwnerCoordinate) (now : Z) (steps : nat)
    (cursor : option ParentingKey) : bool :=
  match steps, om_successor m cursor with
  | S steps, Some (key, relation) =>
      if bool_decide (rl_owner relation = owner) && (now <? rl_expires_at relation) then true
      else live_owner_loop m owner now steps (Some key)
  | _, _ => false
  end.

Definition has_live_owner (clock : Z) (owner : ParentOwnerCoordinate) : act bool :=
  now ← now_ clock;
  s ← op_get;
  mret (live_owner_loop (records s) owner now (Z.to_nat (record_count s)) None).

Definition primary_parent_at_now (clock : Z) : act (option ParentingRelationSnapshot) :=
  now ← now_ clock;
  s ← op_get;
  let key := primary_key (local_key (policy s)) in
  expired ← expire_key_if_needed key now;
  if expired : bool then mret None
  else
    s ← op_get;
    mret (match om_get (records s) key with
          | Some relation =>
              if bool_decide (rl_state relation = Primary) && (now <? rl_expires_at relation)
              then Some (relation_snapshot key relation) else None
          | None => None
          end).

Fixpoint remove_matching_loop (matches : ParentingKey → ParentingRelation → bool) (start : option ParentingKey)
    (steps : list nat) (cursor : option ParentingKey) (removed : Z) : act Z :=
  match steps with
  | [] => mret removed
  | step :: steps =>
      s ← op_get;
      match next_key_after (records s) cursor with
      | None => mret removed
      | Some key =>
          if (0 <? step)%nat && bool_decide (Some key = start) then mret removed
          else if (match om_get (records s) key with Some relation => matches key relation | None => false end)
          then
            remove_key key;;
            removed ← op_lift (ok_or Invariant (checked_add usize_max removed 1));
            remove_matching_loop matches start steps (Some key) removed
          else remove_matching_loop matches start steps (Some key) removed
      end
  end.

Definition remove_matching (matches : ParentingKey → ParentingRelation → bool) : act Z :=
  s ← op_get;
  remove_matching_loop matches (fst <$> om_successor (records s) None)
    (seq 0 (Z.to_nat (record_count s))) None 0.

Definition retire_owner (owner : ParentOwnerCoordinate) : act Z :=
  remove_matching (λ _ relation, bool_decide (rl_owner relation = owner)).

(** ** The invariant *)

Context {laws : OrderedMapLaws (M := M) key_cmp}.

Definition relations (s : ParentingState) : list (ParentingKey * ParentingRelation) := om_list (records s).

Definition is_pending (e : ParentingKey * ParentingRelation) : bool := bool_decide (rl_state e.2 = Pending).
Definition is_child (p : ParentingPolicy) (st : RelationState) (e : ParentingKey * ParentingRelation) : bool :=
  bool_decide (rl_state e.2 = st) && bool_decide (key_child e.1 ≠ local_key p).

Lemma is_pending_state k r : is_pending (k, r) = match rl_state r with Pending => true | _ => false end.
Proof. unfold is_pending. cbn. by destruct (rl_state r). Qed.

Lemma is_child_state p st k r :
  is_child p st (k, r) =
    match rl_state r, st with
    | Pending, Pending | Primary, Primary | Backup, Backup => bool_decide (key_child k ≠ local_key p)
    | _, _ => false
    end.
Proof. unfold is_child. cbn [fst snd]. by destruct (rl_state r), st. Qed.

(** Shape of one relation: slot 0 is the primary, the slots 1 to [max_backups] the
    backups; a relation of another child hangs below this node, one of this node
    above it, with the roles the policy accepts. *)
Record relation_ok (p : ParentingPolicy) (next : Z) (k : ParentingKey) (r : ParentingRelation) : Prop := {
  ro_generation : 0 < rl_relation_generation r < next;
  ro_slot : match rl_kind r with
            | KindPrimary => key_slot k = 0%nat
            | KindBackup => (0 < key_slot k ≤ max_backups p)%nat
            end;
  ro_state : rl_state r = Pending ∨ rl_state r = kind_state (rl_kind r);
  ro_child : key_child k ≠ local_key p →
    rl_state r ≠ Pending ∧ rl_parent r = local_key p ∧ owner_peer (rl_owner r) = key_child k ∧
    rl_parent_role r = role p ∧ accepts_child p (rl_child_role r) = true;
  ro_parent : key_child k = local_key p →
    rl_parent r ≠ local_key p ∧ owner_peer (rl_owner r) = rl_parent r ∧ rl_child_role r = role p ∧
    accepts_parent p (rl_parent r) (rl_parent_role r) = true;
}.

Record inv (s : ParentingState) : Prop := {
  inv_policy : policy_checked (policy s) = Ok (policy s);
  inv_ok : om_ok (records s);
  inv_next : 1 ≤ next_generation s;
  inv_relations k r : (k, r) ∈ relations s → relation_ok (policy s) (next_generation s) k r;
  inv_count : record_count s = Z.of_nat (length (relations s));
  inv_pending : pending_count s = count is_pending (relations s);
  inv_primary : primary_children s = count (is_child (policy s) Primary) (relations s);
  inv_backup : backup_children s = count (is_child (policy s) Backup) (relations s);
  inv_pending_bound : pending_count s ≤ Z.of_nat (max_pending (policy s));
  inv_primary_bound : primary_children s ≤ Z.of_nat (max_children (policy s));
  inv_backup_bound : backup_children s ≤ Z.of_nat (max_children (policy s) * max_backups (policy s));
  inv_count_bound : record_count s ≤ usize_max;
}.

(** What no operation undoes: the policy stays, generations only grow, and a
    pending relation is either an old one or carries a new generation. *)
Record advances (s s' : ParentingState) : Prop := {
  adv_policy : policy s' = policy s;
  adv_next : next_generation s ≤ next_generation s';
  adv_pending k r : (k, r) ∈ relations s' → rl_state r = Pending →
    (k, r) ∈ relations s ∨ next_generation s ≤ rl_relation_generation r;
}.

#[local] Instance advances_preorder : PreOrder advances.
Proof.
  split.
  - intros s. split; [done|lia|auto].
  - intros s1 s2 s3 [Hp Hn Hr] [Hp' Hn' Hr']. split; [congruence|lia|].
    intros k r Hin Hst. destruct (Hr' k r Hin Hst) as [Hin'|]; [by apply Hr|right; lia].
Qed.

(** An operation that only removes relations. *)
Record shrinks (s s' : ParentingState) : Prop := {
  shr_inv : inv s';
  shr_advances : advances s s';
  shr_sub e : e ∈ relations s' → e ∈ relations s;
  shr_length : (length (relations s') ≤ length (relations s))%nat;
  shr_next : next_generation s' = next_generation s;
}.

Lemma shrinks_refl s : inv s → shrinks s s.
Proof. intros H. by split. Qed.

Lemma shrinks_trans s1 s2 s3 : shrinks s1 s2 → shrinks s2 s3 → shrinks s1 s3.
Proof. intros [_ ? ? ? ?] [? ? ? ? ?]. split; [done|by etrans|auto|lia|congruence]. Qed.

Ltac op_run := unfold mbind, op_bind, op_get, op_put, op_lift, op_fail, mret, op_ret, modify, assign in *; cbn [fst snd].

Lemma checked_sub_ok e x y : y ≤ x → ok_or (E := ParentingRefusal) e (checked_sub x y) = Ok (x - y).
Proof. intros H. by rewrite (proj2 (checked_sub_Some x y (x - y))). Qed.

Lemma checked_add_ok e m x y : x + y ≤ m → ok_or (E := ParentingRefusal) e (checked_add m x y) = Ok (x + y).
Proof. intros H. by rewrite (proj2 (checked_add_Some m x y (x + y))). Qed.

Lemma inv_remove s s' key r :
  inv s → om_ok (records s') → relations s ≡ₚ (key, r) :: relations s' →
  policy s' = policy s → next_generation s' = next_generation s →
  record_count s' = record_count s - 1 →
  pending_count s' = pending_count s - Z.b2z (is_pending (key, r)) →
  primary_children s' = primary_children s - Z.b2z (is_child (policy s) Primary (key, r)) →
  backup_children s' = backup_children s - Z.b2z (is_child (policy s) Backup (key, r)) → shrinks s s'.
Proof.
  intros [Hpol Hok Hnext Hrel Hc Hpe Hpr Hba Hpb Hprb Hbb Hcb] Hok' Hperm Hp Hn Hc' Hpe' Hpr' Hba'.
  assert (Hsub : ∀ e, e ∈ relations s' → e ∈ relations s) by (intros e He; rewrite Hperm; by right).
  assert (Hlen : length (relations s) = S (length (relations s'))) by (by rewrite Hperm).
  rewrite Hperm, count_cons in Hpe, Hpr, Hba.
  split; [split; rewrite ?Hp, ?Hn; try done; try lia; auto| |done|lia|done].
  - destruct (is_pending (key, r)); cbn in *; lia.
  - destruct (is_child (policy s) Primary (key, r)); cbn in *; lia.
  - destruct (is_child (policy s) Backup (key, r)); cbn in *; lia.
  - split; [done|lia|]. auto.
Qed.

Lemma remove_key_spec s key r :
  inv s → om_get (records s) key = Some r →
  ∃ s', remove_key key s = (s', Ok r) ∧ shrinks s s' ∧ relations s ≡ₚ (key, r) :: relations s' ∧
    maintenance_cursor s' = maintenance_cursor s ∧ last_now s' = last_now s.
Proof.
  intros Hinv Hg. pose proof Hinv as [Hpol Hok Hnext Hrel Hc Hpe Hpr Hba Hpb Hprb Hbb Hcb].
  destruct (law_remove (records s) key r Hok Hg) as (m & Hrem & Hok' & Hperm).
  fold (relations s) in Hperm.
  assert (Hlen : length (relations s) = S (length (om_list m))) by (by rewrite Hperm).
  pose proof (count_nonneg is_pending (om_list m)). pose proof (count_nonneg (is_child (policy s) Primary) (om_list m)).
  pose proof (count_nonneg (is_child (policy s) Backup) (om_list m)).
  rewrite Hperm, count_cons in Hpe, Hpr, Hba.
  assert (Hoc : other_child s key = Z.b2z (bool_decide (key_child key ≠ local_key (policy s)))).
  { unfold other_child. by case_bool_decide. }
  unfold remove_key. op_run. rewrite Hrem. rewrite checked_sub_ok by lia.
  pose proof (is_pending_state key r) as Hip.
  pose proof (is_child_state (policy s) Primary key r) as Hic. pose proof (is_child_state (policy s) Backup key r) as Hib.
  destruct (rl_state r) eqn:Hst; cbn in Hic, Hib; rewrite Hip, Hic, Hib in *; rewrite checked_sub_ok by (cbn in *; lia);
    (eexists; split; [done|]; split; [|split; [done|done]]);
    (eapply inv_remove; [exact Hinv|exact Hok'|exact Hperm|done|done|done|..]);
    rewrite ?Hip, ?Hic, ?Hib, ?Hoc; cbn; lia.
Qed.

(** Fields outside the table. *)
Lemma shrinks_frame s s' :
  inv s → records s' = records s → policy s' = policy s → next_generation s' = next_generation s →
  record_count s' = record_count s → pending_count s' = pending_count s →
  primary_children s' = primary_children s → backup_children s' = backup_children s → shrinks s s'.
Proof.
  intros [] Hr Hp Hn Hc Hpe Hpr Hba.
  assert (Hrel : relations s' = relations s) by (unfold relations; by rewrite Hr).
  split; [split; rewrite ?Hrel, ?Hr, ?Hp, ?Hn, ?Hc, ?Hpe, ?Hpr, ?Hba; done| |by rewrite Hrel|by rewrite Hrel|done].
  split; [done|lia|]. rewrite Hrel. auto.
Qed.

Lemma now_spec clock s :
  inv s →
  now_ clock s = (s, Err ClockRegression) ∨
  now_ clock s = (set_now (Some clock) s, Ok clock) ∧ shrinks s (set_now (Some clock) s).
Proof.
  intros Hinv. unfold now_. op_run. destruct (match last_now s with Some last => _ | None => _ end); [by left|].
  right. split; [done|]. by apply shrinks_frame.
Qed.

Lemma get_relation s k r : inv s → om_get (records s) k = Some r ↔ (k, r) ∈ relations s.
Proof. intros Hinv. apply law_get, Hinv. Qed.

Lemma get_unique s k r r' : inv s → (k, r) ∈ relations s → (k, r') ∈ relations s → r = r'.
Proof. intros Hinv H1%(get_relation _ _ _ Hinv) H2%(get_relation _ _ _ Hinv). congruence. Qed.

#[local] Instance key_cmp_spec : CmpSpec key_cmp.
Proof.
  unfold key_cmp, then_with. split.
  - intros [a i] [b j]. cbn. destruct (String.compare a b) eqn:Hc.
    + apply (cmp_eq String.compare) in Hc as ->. rewrite Nat.compare_eq_iff. naive_solver.
    + split; [done|]. intros [= -> ->]. rewrite (cmp_refl String.compare) in Hc. done.
    + split; [done|]. intros [= -> ->]. rewrite (cmp_refl String.compare) in Hc. done.
  - intros [a i] [b j]. cbn. rewrite (cmpspec_antisym (cmp := String.compare) a b), (Nat.compare_antisym i j).
    by destruct (String.compare a b).
  - intros [a i] [b j] [c l]. cbn. destruct (String.compare a b) eqn:Hab, (String.compare b c) eqn:Hbc; try done;
      try apply (cmp_eq String.compare) in Hab as ->; try apply (cmp_eq String.compare) in Hbc as ->;
      rewrite ?(cmp_refl String.compare), ?Hab, ?Hbc; try done.
    + rewrite !Nat.compare_lt_iff. lia.
    + by rewrite (cmp_trans String.compare a b c).
Qed.

Lemma relations_NoDup s : inv s → NoDup (fst <$> relations s).
Proof. intros Hinv. apply (increasing_NoDup key_cmp), law_sorted, Hinv. Qed.

(** A removed key is gone. *)
Lemma removed_absent s s' key r :
  inv s → inv s' → relations s ≡ₚ (key, r) :: relations s' → om_get (records s') key = None.
Proof.
  intros Hinv Hinv' Hp. destruct (om_get (records s') key) as [r'|] eqn:Hg; [|done].
  apply (get_relation _ _ _ Hinv') in Hg. pose proof (relations_NoDup s Hinv) as Hnd.
  rewrite Hp, fmap_cons, NoDup_cons in Hnd. destruct Hnd as [Hni _]. destruct Hni.
  apply list_elem_of_fmap. by exists (key, r').
Qed.

Lemma expire_spec key now s :
  inv s →
  ∃ s' b, expire_key_if_needed key now s = (s', Ok b) ∧ shrinks s s' ∧
    (b = true → om_get (records s') key = None) ∧
    (b = false → s' = s ∧ ∀ r, om_get (records s) key = Some r → now < rl_expires_at r).
Proof.
  intros Hinv. unfold expire_key_if_needed, is_expired. op_run.
  destruct (om_get (records s) key) as [r|] eqn:Hg.
  - destruct (Z.leb_spec (rl_expires_at r) now) as [He|He].
    + destruct (remove_key_spec s key r Hinv Hg) as (s' & Hr & Hs & Hp & _). rewrite Hr.
      exists s', true. split_and!; try done. intros _. eapply removed_absent; [exact Hinv|apply Hs|exact Hp].
    + exists s, false. split; [done|]. split; [by apply shrinks_refl|]. split; [done|].
      intros _. split; [done|]. by intros r' [= <-].
  - exists s, false. split; [done|]. split; [by apply shrinks_refl|]. done.
Qed.

Lemma next_key_present s cursor key :
  inv s → next_key_after (records s) cursor = Some key → ∃ r, om_get (records s) key = Some r.
Proof.
  intros Hinv. unfold next_key_after. rewrite !law_successor by apply Hinv.
  assert (Hhead : ∀ P `{!∀ e, Decision (P e)} e, head (filter P (relations s)) = Some e →
    ∃ r, om_get (records s) e.1 = Some r).
  { intros P HP [k r] He. exists r. apply get_relation; [done|].
    assert (Hin : (k, r) ∈ filter P (relations s)) by (destruct (filter P (relations s)); [done|]; injection He as ->; by left).
    by apply list_elem_of_filter in Hin as [_ ?]. }
  fold (relations s).
  destruct (head (filter (after_key key_cmp cursor) (relations s))) as [e|] eqn:He; cbn.
  - intros [= <-]. by eapply Hhead.
  - destruct cursor as [c|]; [|done].
    destruct (head (filter (after_key key_cmp None) (relations s))) as [e|] eqn:He'; [|done].
    cbn. intros [= <-]. by eapply Hhead.
Qed.

Lemma maintain_loop_spec now start steps cursor removed s :
  inv s → removed + Z.of_nat (length steps) ≤ usize_max →
  ∃ s' cursor' removed', maintain_loop now start steps cursor removed s = (s', Ok (cursor', removed')) ∧
    shrinks s s'.
Proof.
  revert cursor removed s. induction steps as [|step steps IH]; intros cursor removed s Hinv Hb; cbn [maintain_loop]; op_run.
  { eexists s, _, _. split; [done|]. by apply shrinks_refl. }
  destruct (next_key_after (records s) cursor) as [key|] eqn:Hk.
  2: { eexists s, _, _. split; [done|]. by apply shrinks_refl. }
  destruct (_ && _); [eexists s, _, _; split; [done|]; by apply shrinks_refl|].
  unfold is_expired. destruct (next_key_present s cursor key Hinv Hk) as [r Hg]. rewrite Hg. cbn [length] in Hb.
  destruct (rl_expires_at r <=? now).
  - destruct (remove_key_spec s key r Hinv Hg) as (s1 & Hr & Hs & _). rewrite Hr, checked_add_ok by lia.
    destruct (IH (Some key) (removed + 1) s1) as (s' & c & n & He & Hs'); [apply Hs|lia|].
    exists s', c, n. split; [exact He|by eapply shrinks_trans].
  - apply IH; [done|lia].
Qed.

Lemma policy_pending s : inv s → max_pending (policy s) = 1%nat.
Proof.
  intros [Hp _ _ _ _ _ _ _ _ _ _ _]. unfold policy_checked in Hp.
  destruct (bool_decide (max_pending (policy s) ≠ 1%nat)) eqn:Hb; [by rewrite orb_true_r in Hp|].
  apply bool_decide_eq_false in Hb. by apply dec_stable.
Qed.

Lemma maintain_spec now s :
  inv s → ∃ s' n, maintain_at now s = (s', Ok n) ∧ shrinks s s'.
Proof.
  intros Hinv. unfold maintain_at. op_run.
  destruct (maintain_loop_spec now (next_key_after (records s) (maintenance_cursor s))
    (seq 0 (max_pending (policy s))) (maintenance_cursor s) 0 s) as (s1 & c & n & He & Hs); [done|..].
  { rewrite length_seq, (policy_pending s Hinv). unfold usize_max, u64_max. lia. }
  rewrite He. eexists _, n. split; [done|]. eapply shrinks_trans; [exact Hs|]. apply shrinks_frame; [apply Hs|done..].
Qed.

(** ** Changes that add or rewrite a relation *)

Lemma relation_ok_mono p n n' k r : n ≤ n' → relation_ok p n k r → relation_ok p n' k r.
Proof. intros Hn []. split; try done. lia. Qed.

(** One relation is replaced: the old one, if any, leaves and [r] enters. *)
Lemma inv_replace s s' k old r rest :
  inv s → om_ok (records s') →
  relations s ≡ₚ match old with Some o => (k, o) :: rest | None => rest end → relations s' ≡ₚ (k, r) :: rest →
  policy s' = policy s → next_generation s ≤ next_generation s' →
  relation_ok (policy s) (next_generation s') k r →
  (rl_state r = Pending → next_generation s ≤ rl_relation_generation r) →
  (let n P := match old with Some o => Z.b2z (P (k, o)) | None => 0 end in
   record_count s' = record_count s + 1 - n (λ _, true) ∧
   pending_count s' = pending_count s + Z.b2z (is_pending (k, r)) - n is_pending ∧
   primary_children s' = primary_children s + Z.b2z (is_child (policy s) Primary (k, r)) - n (is_child (policy s) Primary) ∧
   backup_children s' = backup_children s + Z.b2z (is_child (policy s) Backup (k, r)) - n (is_child (policy s) Backup)) →
  record_count s' ≤ usize_max →
  pending_count s' ≤ Z.of_nat (max_pending (policy s)) →
  primary_children s' ≤ Z.of_nat (max_children (policy s)) →
  backup_children s' ≤ Z.of_nat (max_children (policy s) * max_backups (policy s)) →
  inv s' ∧ advances s s'.
Proof.
  intros [Hpol Hok Hnext Hrel Hc Hpe Hpr Hba Hpb Hprb Hbb Hcb] Hok' Hp Hp' Hpol' Hn Hro Hpend
    (Ec & Ep & Epr & Eba) Bc Bp Bpr Bba.
  assert (Hrest : ∀ e, e ∈ rest → e ∈ relations s) by (intros e He; rewrite Hp; destruct old; [by right|done]).
  assert (Hcount : ∀ P, count P (relations s) = match old with Some o => Z.b2z (P (k, o)) | None => 0 end + count P rest).
  { intros P. rewrite Hp. destruct old; rewrite ?count_cons; lia. }
  assert (Hlen : Z.of_nat (length (relations s)) = match old with Some _ => 1 | None => 0 end + Z.of_nat (length rest)).
  { rewrite Hp. destruct old; cbn; lia. }
  split; [split|]; rewrite ?Hpol'; try done; try lia.
  - intros k' r' Hin. rewrite Hp' in Hin. apply elem_of_cons in Hin as [[= -> ->]|Hin]; [done|].
    eapply relation_ok_mono; [exact Hn|]. auto.
  - rewrite Hp'. cbn [length]. destruct old; cbn in *; lia.
  - rewrite Hp', count_cons. rewrite Hcount in Hpe. lia.
  - rewrite Hp', count_cons. rewrite Hcount in Hpr. lia.
  - rewrite Hp', count_cons. rewrite Hcount in Hba. lia.
  - split; [done|done|]. intros k' r' Hin Hst. rewrite Hp' in Hin.
    apply elem_of_cons in Hin as [[= -> ->]|Hin]; [right; auto|left; auto].
Qed.

Definition sound {A} (s : ParentingState) (p : ParentingState * result ParentingRefusal A) : Prop :=
  inv p.1 ∧ advances s p.1 ∧ p.2 ≠ Err Invariant.

Lemma sound_from {A} s s1 (p : ParentingState * result ParentingRefusal A) : advances s s1 → sound s1 p → sound s p.
Proof. intros H (Hi & Ha & He). split_and!; [done|by etrans|done]. Qed.

Lemma sound_err {A} s e : inv s → e ≠ Invariant → sound (A := A) s (s, Err e).
Proof. intros. split_and!; [done|reflexivity|cbn; congruence]. Qed.

Lemma sound_ok {A} s (a : A) : inv s → sound s (s, Ok a).
Proof. intros. split_and!; [done|reflexivity|done]. Qed.

Lemma accept_match_state owner request r : accept_match owner request r = true → rl_state r ≠ Pending.
Proof. unfold accept_match. intros [_ H]%andb_true_iff. by apply bool_decide_eq_true in H. Qed.

Lemma reaccept_sound request expires key owner r s :
  inv s → om_get (records s) key = Some r → accept_match owner request r = true →
  sound s (reaccept request expires key r s).
Proof.
  intros Hinv Hg Hm. unfold reaccept. op_run. destruct (_ <? _); [by apply sound_err|].
  pose proof Hinv as [Hpol Hok Hnext Hrel Hc Hpe Hpr Hba Hpb Hprb Hbb Hcb].
  destruct (law_write (records s) key r (renew (rq_request_sequence request) expires) Hok Hg) as (rest & Hok' & H1 & H2).
  assert (Hro : relation_ok (policy s) (next_generation s) key r) by (by apply Hrel, get_relation).
  apply accept_match_state in Hm.
  destruct (inv_replace s (set_records (om_write (records s) key (renew (rq_request_sequence request) expires)) s)
    key (Some r) (renew (rq_request_sequence request) expires r) rest) as [Hi Ha]; try done.
  - by destruct Hro.
  - cbv zeta. rewrite !is_pending_state, !is_child_state.
    cbn [renew rl_state record_count pending_count primary_children backup_children set_records].
    split_and!; try lia. cbn. lia.
Qed.

Lemma insert_relation_spec key r lease s :
  inv s → om_room (records s) → record_count s < usize_max → om_get (records s) key = None →
  ∃ m, insert_relation key r lease s = (set_count (record_count s + 1) (set_records m s), Ok ()) ∧
    om_ok m ∧ om_list m ≡ₚ (key, r) :: relations s.
Proof.
  intros Hinv Hroom Hc Hg. unfold insert_relation. op_run.
  destruct (law_insert (records s) key r lease (inv_ok s Hinv) Hroom Hg) as (m & -> & Hok & Hp).
  exists m. rewrite checked_add_ok by lia. done.
Qed.

Lemma slot_backup_spec p index :
  (index < max_backups p)%nat → policy_checked p = Ok p → slot_backup p index = Ok (S index).
Proof.
  intros Hi Hp. unfold slot_backup. rewrite (proj2 (Nat.leb_gt _ _)) by done.
  assert (Hb : Z.of_nat (max_backups p) ≤ u16_max - 1).
  { unfold policy_checked in Hp. destruct (Z.ltb_spec (u16_max - 1) (Z.of_nat (max_backups p))); [|done].
    by rewrite !orb_true_r in Hp. }
  assert (u16_max < usize_max) by reflexivity.
  rewrite checked_add_ok by lia. cbn [mbind result_bind]. rewrite (proj2 (Z.leb_le _ _)) by lia.
  f_equal. lia.
Qed.

(** ** The scans over backup slots *)

Definition backup_slot (p : ParentingPolicy) (child : ParentDeviceKey) (k : ParentingKey) : Prop :=
  key_child k = child ∧ (0 < key_slot k ≤ max_backups p)%nat.

Lemma accept_scan_spec owner request now expires indices free s :
  inv s → (∀ i, i ∈ indices → (i < max_backups (policy s))%nat) →
  (∀ k, free = Some k → backup_slot (policy s) (rq_child request) k) →
  let '(s', r) := accept_scan owner request now expires indices free s in
  match r with
  | Ok (inr free') => shrinks s s' ∧ ∀ k, free' = Some k → backup_slot (policy s) (rq_child request) k
  | _ => inv s' ∧ advances s s' ∧ r ≠ Err Invariant
  end.
Proof.
  revert free s. induction indices as [|i indices IH]; intros free s Hinv Hi Hfree; cbn [accept_scan]; op_run.
  { split; [by apply shrinks_refl|done]. }
  assert (Hlt : (i < max_backups (policy s))%nat) by (apply Hi; by left).
  rewrite (slot_backup_spec (policy s) i Hlt (inv_policy s Hinv)).
  set (candidate := mkKey (rq_child request) (S i)).
  assert (Hcand : backup_slot (policy s) (rq_child request) candidate) by (split; [done|cbn; lia]).
  assert (Hfree' : ∀ k, match free with Some k => Some k | None => Some candidate end = Some k →
    backup_slot (policy s) (rq_child request) k) by (destruct free; intros k [= <-]; auto).
  destruct (expire_spec candidate now s Hinv) as (s1 & b & He & Hs & _). rewrite He.
  pose proof (shr_inv _ _ Hs) as Hinv1. pose proof (adv_policy _ _ (shr_advances _ _ Hs)) as Hpol.
  assert (Hrest : ∀ free1, (∀ k, free1 = Some k → backup_slot (policy s) (rq_child request) k) →
    let '(s', r) := accept_scan owner request now expires indices free1 s1 in
    match r with
    | Ok (inr free') => shrinks s s' ∧ ∀ k, free' = Some k → backup_slot (policy s) (rq_child request) k
    | _ => inv s' ∧ advances s s' ∧ r ≠ Err Invariant
    end).
  { intros free1 Hf1. specialize (IH free1 s1 Hinv1). rewrite Hpol in IH.
    specialize (IH ltac:(intros; apply Hi; by right) Hf1).
    destruct (accept_scan owner request now expires indices free1 s1) as [s' [[resp|f]|e]].
    - destruct IH as (? & ? & ?). split_and!; try done. etrans; [apply Hs|done].
    - destruct IH as [IH ?]. split; [by eapply shrinks_trans|done].
    - destruct IH as (? & ? & ?). split_and!; try done. etrans; [apply Hs|done]. }
  destruct b; [by apply Hrest|].
  destruct (om_get (records s1) candidate) as [existing|] eqn:Hg; [|by apply Hrest].
  destruct (accept_match owner request existing) eqn:Hm; [|by apply Hrest].
  pose proof (reaccept_sound request expires candidate owner existing s1 Hinv1 Hg Hm) as (Ha & Hb & Hc).
  destruct (reaccept request expires candidate existing s1) as [s' [resp|e]]; cbn in *;
    (split_and!; [done|etrans; [apply Hs|done]|congruence]).
Qed.

Lemma begin_scan_spec owner request now indices free s :
  inv s → (∀ i, i ∈ indices → (i < max_backups (policy s))%nat) →
  (∀ k, free = Some k → backup_slot (policy s) (rq_child request) k) →
  ∃ s' r, begin_scan owner request now indices free s = (s', Ok r) ∧ shrinks s s' ∧
    match r with
    | inr free' => ∀ k, free' = Some k → backup_slot (policy s) (rq_child request) k
    | inl ticket => ∃ r, om_get (records s') (tk_key ticket) = Some r ∧ begin_match owner request r = true ∧
        ticket = ticket_of (tk_key ticket) r
    end.
Proof.
  revert free s. induction indices as [|i indices IH]; intros free s Hinv Hi Hfree; cbn [begin_scan]; op_run.
  { eexists s, _. split; [done|]. split; [by apply shrinks_refl|done]. }
  assert (Hlt : (i < max_backups (policy s))%nat) by (apply Hi; by left).
  rewrite (slot_backup_spec (policy s) i Hlt (inv_policy s Hinv)).
  set (candidate := mkKey (rq_child request) (S i)).
  assert (Hcand : backup_slot (policy s) (rq_child request) candidate) by (split; [done|cbn; lia]).
  assert (Hfree' : ∀ k, match free with Some k => Some k | None => Some candidate end = Some k →
    backup_slot (policy s) (rq_child request) k) by (destruct free; intros k [= <-]; auto).
  destruct (expire_spec candidate now s Hinv) as (s1 & b & He & Hs & _). rewrite He.
  pose proof (shr_inv _ _ Hs) as Hinv1. pose proof (adv_policy _ _ (shr_advances _ _ Hs)) as Hpol.
  assert (Hrest : ∀ free1, (∀ k, free1 = Some k → backup_slot (policy s) (rq_child request) k) →
    ∃ s' r, begin_scan owner request now indices free1 s1 = (s', Ok r) ∧ shrinks s s' ∧
    match r with
    | inr free' => ∀ k, free' = Some k → backup_slot (policy s) (rq_child request) k
    | inl ticket => ∃ r, om_get (records s') (tk_key ticket) = Some r ∧ begin_match owner request r = true ∧
        ticket = ticket_of (tk_key ticket) r
    end).
  { intros free1 Hf1. destruct (IH free1 s1 Hinv1) as (s' & r & Hb & Hs' & Hr); rewrite ?Hpol; try done.
    { intros. apply Hi. by right. }
    exists s', r. split; [done|]. split; [by eapply shrinks_trans|]. by rewrite Hpol in Hr. }
  destruct b; [by apply Hrest|].
  destruct (om_get (records s1) candidate) as [existing|] eqn:Hg; [|by apply Hrest].
  destruct (begin_match owner request existing) eqn:Hm; [|by apply Hrest].
  eexists s1, _. split; [done|]. split; [done|]. by exists existing.
Qed.

(** ** Every operation is sound *)

Definition room (s : ParentingState) : Prop := om_room (records s) ∧ record_count s < usize_max.

Lemma shrinks_room s s' : inv s → shrinks s s' → room s → room s'.
Proof.
  intros Hinv Hs [Hr Hc]. split.
  - eapply law_room; [exact Hr|apply Hs|apply Hs|apply Hinv].
  - pose proof (inv_count s Hinv). pose proof (inv_count s' (shr_inv _ _ Hs)). pose proof (shr_length _ _ Hs). lia.
Qed.

Lemma next_generation_spec s :
  next_relation_generation s = (s, Err GenerationOverflow) ∨
  next_relation_generation s = (set_generation (next_generation s + 1) s, Ok (next_generation s)).
Proof.
  unfold next_relation_generation. op_run.
  destruct (checked_add u64_max (next_generation s) 1) as [g|] eqn:Hg; [|by left].
  apply checked_add_Some in Hg as [-> _]. by right.
Qed.

Lemma inv_set_generation s g : inv s → next_generation s ≤ g → inv (set_generation g s) ∧ advances s (set_generation g s).
Proof.
  intros [] Hg. split; [split; cbn; try done; [lia|]|split; cbn; [done|done|auto]].
  intros k r Hin. eapply relation_ok_mono; [exact Hg|auto].
Qed.

(** A new relation enters under a fresh generation. *)
Lemma install_sound s s' key owner request expires state m :
  inv s → om_get (records s) key = None →
  let r := mkRelation owner (rq_parent request) (rq_child_role request) (rq_parent_role request) (rq_kind request)
    (rq_request_sequence request) (next_generation s) expires state in
  om_ok m → om_list m ≡ₚ (key, r) :: relations s → records s' = m →
  policy s' = policy s → next_generation s' = next_generation s + 1 →
  relation_ok (policy s) (next_generation s + 1) key r →
  record_count s' = record_count s + 1 → record_count s < usize_max →
  pending_count s' = pending_count s + Z.b2z (is_pending (key, r)) →
  primary_children s' = primary_children s + Z.b2z (is_child (policy s) Primary (key, r)) →
  backup_children s' = backup_children s + Z.b2z (is_child (policy s) Backup (key, r)) →
  pending_count s' ≤ Z.of_nat (max_pending (policy s)) →
  primary_children s' ≤ Z.of_nat (max_children (policy s)) →
  backup_children s' ≤ Z.of_nat (max_children (policy s) * max_backups (policy s)) →
  inv s' ∧ advances s s'.
Proof.
  intros Hinv Hg r Hok Hp Hm Hpol Hn Hro Hc Hlt Hpe Hpr Hba Bp Bpr Bba.
  apply (inv_replace s s' key None r (relations s)); unfold relations in *; rewrite ?Hm; try done; try lia.
  by rewrite Hn.
Qed.

Lemma check_request_ok s request :
  check_request s request = Ok () → rq_child request ≠ rq_parent request.
Proof. unfold check_request. intros H Heq. rewrite (bool_decide_eq_true_2 _ Heq), orb_true_r in H. done. Qed.

Lemma check_request_err s request e : check_request s request = Err e → e ≠ Invariant.
Proof. unfold check_request. intros H ->. by repeat case_match. Qed.

Lemma rq_kind_cases request : rq_kind request = KindPrimary ∨ rq_kind request = KindBackup.
Proof. destruct (rq_kind request); auto. Qed.

(** The slot a request may take. *)
Definition slot_for (p : ParentingPolicy) (request : ParentAttachRequest) (key : ParentingKey) : Prop :=
  match rq_kind request with
  | KindPrimary => key = primary_key (rq_child request)
  | KindBackup => backup_slot p (rq_child request) key
  end.

Lemma slot_for_child p request key : slot_for p request key → key_child key = rq_child request.
Proof. unfold slot_for. destruct (rq_kind request); [by intros ->|by intros [? _]]. Qed.

(** A relation built from a checked request has the right shape. *)
Lemma accepted_relation_ok p request key owner g expires :
  slot_for p request key → rq_child request ≠ rq_parent request → rq_parent request = local_key p →
  owner_peer owner = rq_child request → rq_parent_role request = role p →
  accepts_child p (rq_child_role request) = true → 1 ≤ g →
  relation_ok p (g + 1) key
    (mkRelation owner (rq_parent request) (rq_child_role request) (rq_parent_role request) (rq_kind request)
       (rq_request_sequence request) g expires (kind_state (rq_kind request))).
Proof.
  intros Hslot Hne Hpar Hown Hrole Hacc Hg. pose proof (slot_for_child _ _ _ Hslot) as Hkey.
  split; cbn; [lia| |by right| |].
  - unfold slot_for in Hslot. destruct (rq_kind request); [by rewrite Hslot|apply Hslot].
  - intros _. split_and!; try done; [|congruence]. by destruct (rq_kind request).
  - intros Hk. congruence.
Qed.

Lemma accept_at_sound acquired owner request now expires key s :
  inv s → room s → slot_for (policy s) request key → rq_child request ≠ rq_parent request →
  rq_parent request = local_key (policy s) → owner_peer owner = rq_child request →
  rq_parent_role request = role (policy s) → accepts_child (policy s) (rq_child_role request) = true →
  sound s (accept_at acquired owner request now expires key s).
Proof.
  intros Hinv0 Hroom0 Hslot Hne Hpar Hown Hrole Hacc. unfold accept_at. op_run.
  destruct (expire_spec key now s Hinv0) as (s1 & b & -> & Hs & _).
  pose proof (shr_inv _ _ Hs) as Hinv. pose proof (shrinks_room _ _ Hinv0 Hs Hroom0) as [Hroom Hlt].
  rewrite <- (adv_policy _ _ (shr_advances _ _ Hs)) in Hslot, Hpar, Hrole, Hacc.
  eapply sound_from; [apply Hs|]. clear Hs Hinv0 Hroom0 s b.
  destruct (om_get (records s1) key) as [existing|] eqn:Hg.
  { destruct (accept_match owner request existing) eqn:Hm; [by eapply reaccept_sound|by apply sound_err]. }
  destruct (bool_decide (rq_kind request = KindPrimary) && _) eqn:Hfull; [by apply sound_err|].
  assert (Hcap : match rq_kind request with
    | KindPrimary => primary_children s1 < Z.of_nat (max_children (policy s1))
    | KindBackup => True end).
  { destruct (rq_kind request); [|done]. rewrite bool_decide_eq_true_2 in Hfull by done. cbn in Hfull. z_norm. done. }
  pose proof (accepted_relation_ok (policy s1) request key owner (next_generation s1) expires Hslot Hne Hpar Hown
    Hrole Hacc (inv_next s1 Hinv)) as Hro.
  assert (Hchild : bool_decide (key_child key ≠ local_key (policy s1)) = true).
  { apply bool_decide_eq_true. rewrite (slot_for_child _ _ _ Hslot). congruence. }
  assert (Hoc : other_child s1 key = 1) by (unfold other_child; by rewrite Hchild).
  pose proof (inv_primary s1 Hinv). pose proof (inv_backup s1 Hinv). pose proof (inv_count s1 Hinv).
  pose proof (inv_primary_bound s1 Hinv). pose proof (inv_backup_bound s1 Hinv). pose proof (inv_pending_bound s1 Hinv).
  pose proof (count_le_length (is_child (policy s1) Primary) (relations s1)).
  pose proof (count_le_length (is_child (policy s1) Backup) (relations s1)).
  set (g := next_generation s1) in *.
  destruct (inv_set_generation s1 (g + 1) Hinv ltac:(lia)) as [Hinv2 _].
  set (rel := mkRelation _ _ _ _ _ _ _ _ _) in Hro.
  assert (Htail : ∀ lease, ∃ m, insert_relation key rel lease (set_generation (g + 1) s1)
      = (set_count (record_count s1 + 1) (set_records m (set_generation (g + 1) s1)), Ok ()) ∧
      om_ok m ∧ om_list m ≡ₚ (key, rel) :: relations s1) by (intros; exact (insert_relation_spec key rel lease _ Hinv2 Hroom Hlt Hg)).
  pose proof (is_pending_state key rel) as Hip. pose proof (is_child_state (policy s1) Primary key rel) as Hic.
  pose proof (is_child_state (policy s1) Backup key rel) as Hib. cbn [rl_state rel] in Hip, Hic, Hib. rewrite Hchild in Hic, Hib.
  destruct (rq_kind_cases request) as [Hkind|Hkind]; rewrite Hkind; rewrite Hkind in Hip, Hic, Hib, Hcap;
    cbn [kind_state] in Hip, Hic, Hib.
  - destruct acquired as [lease|]; [|by apply sound_err]. cbn [ok_or].
    destruct (next_generation_spec s1) as [->| ->]; [by apply sound_err|]. rewrite <- Hkind at 1 2. fold g. fold rel.
    destruct (Htail lease) as (m & -> & Hok & Hperm). cbn [rl_state rel kind_state].
    rewrite checked_add_ok by lia.
    destruct (install_sound s1 (set_primary (primary_children s1 + 1)
      (set_count (record_count s1 + 1) (set_records m (set_generation (g + 1) s1)))) key owner request expires
      (kind_state (rq_kind request)) m) as [Hi Ha]; fold g; fold rel; rewrite ?Hip, ?Hic, ?Hib; cbn -[Z.add Z.sub]; try done; try lia.
  - destruct (checked_mul _ _ _) as [bound|] eqn:Hmul; [|by apply sound_err]. cbn [ok_or].
    apply checked_mul_Some in Hmul as [-> _]. destruct (Z.leb_spec (Z.of_nat (max_children (policy s1)) *
      Z.of_nat (max_backups (policy s1))) (backup_children s1)) as [|Hroomy]; [by apply sound_err|].
    rewrite <- Nat2Z.inj_mul in Hroomy.
    destruct acquired as [lease|]; [|by apply sound_err]. cbn [ok_or].
    destruct (next_generation_spec s1) as [->| ->]; [by apply sound_err|]. rewrite <- Hkind at 1 2. fold g. fold rel.
    destruct (Htail lease) as (m & -> & Hok & Hperm). cbn [rl_state rel kind_state].
    rewrite Hoc, checked_add_ok by lia.
    destruct (install_sound s1 (set_backup (backup_children s1 + 1)
      (set_count (record_count s1 + 1) (set_records m (set_generation (g + 1) s1)))) key owner request expires
      (kind_state (rq_kind request)) m) as [Hi Ha]; fold g; fold rel; rewrite ?Hip, ?Hic, ?Hib;
      cbn -[Z.add Z.sub Z.of_nat]; try done; try lia.
Qed.

Lemma accept_request_sound clock acquired owner request s :
  inv s → room s → sound s (accept_request clock acquired owner request s).
Proof.
  intros Hinv Hroom. unfold accept_request. op_run.
  destruct (check_request s request) as [[]|e] eqn:Hcheck; [|apply sound_err; [done|by eapply check_request_err]].
  apply check_request_ok in Hcheck.
  destruct (_ || _) eqn:Hown; [by apply sound_err|]. apply orb_false_iff in Hown as [Hpar Hpeer].
  apply bool_decide_eq_false, dec_stable in Hpar, Hpeer.
  destruct (bool_decide (rq_parent_role request ≠ role (policy s)) || _) eqn:Hrole; [by apply sound_err|].
  apply orb_false_iff in Hrole as [Hprole Hcrole]. apply bool_decide_eq_false, dec_stable in Hprole.
  apply negb_false_iff in Hcrole.
  destruct (now_spec clock s Hinv) as [->|[-> Hs1]]; [by apply sound_err|].
  set (s1 := set_now (Some clock) s) in *.
  destruct (maintain_spec clock s1 (shr_inv _ _ Hs1)) as (s2 & n & -> & Hs2).
  pose proof (shrinks_trans _ _ _ Hs1 Hs2) as Hs. clear Hs1 Hs2.
  pose proof (shr_inv _ _ Hs) as Hinv2. pose proof (adv_policy _ _ (shr_advances _ _ Hs)) as Hpol.
  destruct (expiry s clock) as [expires|e] eqn:Hexp.
  2: { eapply sound_from; [apply Hs|]. apply sound_err; [done|]. unfold expiry in Hexp.
       destruct (checked_add _ _ _); cbn in Hexp; congruence. }
  eapply sound_from; [apply Hs|].
  assert (Hat : ∀ s3 key, shrinks s2 s3 → slot_for (policy s2) request key →
    sound s2 (accept_at acquired owner request clock expires key s3)).
  { intros s3 key Hs3 Hslot. pose proof (shrinks_trans _ _ _ Hs Hs3) as Hs'.
    pose proof (adv_policy _ _ (shr_advances _ _ Hs3)) as Hpol3.
    eapply sound_from; [apply Hs3|]. apply accept_at_sound; rewrite ?Hpol3, ?Hpol in *; try done.
    - apply Hs3.
    - exact (shrinks_room _ _ Hinv Hs' Hroom). }
  destruct (rq_kind_cases request) as [Hkind|Hkind]; rewrite Hkind.
  - cbn [ok_or]. apply Hat; [by apply shrinks_refl|]. unfold slot_for. by rewrite Hkind.
  - pose proof (accept_scan_spec owner request clock expires (seq 0 (max_backups (policy s))) None s2 Hinv2) as Hscan.
    rewrite Hpol in Hscan. specialize (Hscan ltac:(intros i Hi%elem_of_seq; lia) ltac:(done)).
    destruct (accept_scan _ _ _ _ _ _ _) as [s3 [[resp|free]|e]].
    + destruct Hscan as (? & ? & ?). split_and!; done.
    + destruct Hscan as [Hs3 Hfree]. destruct free as [key|]; cbn [ok_or].
      * apply Hat; [done|]. unfold slot_for. rewrite Hkind, Hpol. auto.
      * eapply sound_from; [apply Hs3|]. apply sound_err; [apply Hs3|done].
    + destruct Hscan as (? & ? & ?). split_and!; try done. cbn. congruence.
Qed.

Lemma pending_relation_ok p request key owner g expires :
  slot_for p request key → rq_child request ≠ rq_parent request → rq_child request = local_key p →
  owner_peer owner = rq_parent request → rq_child_role request = role p →
  accepts_parent p (rq_parent request) (rq_parent_role request) = true → 1 ≤ g →
  relation_ok p (g + 1) key
    (mkRelation owner (rq_parent request) (rq_child_role request) (rq_parent_role request) (rq_kind request)
       (rq_request_sequence request) g expires Pending).
Proof.
  intros Hslot Hne Hchild Hown Hrole Hacc Hg. pose proof (slot_for_child _ _ _ Hslot) as Hkey.
  split; cbn; [lia| |by left| |].
  - unfold slot_for in Hslot. destruct (rq_kind request); [by rewrite Hslot|apply Hslot].
  - intros Hk. congruence.
  - intros _. split_and!; try done. congruence.
Qed.

Lemma expiry_err s now e : expiry s now = Err e → e ≠ Invariant.
Proof. unfold expiry. destruct (checked_add _ _ _); cbn; congruence. Qed.

Lemma begin_at_sound acquired owner request now key s :
  inv s → room s → slot_for (policy s) request key → rq_child request ≠ rq_parent request →
  rq_child request = local_key (policy s) → owner_peer owner = rq_parent request →
  rq_child_role request = role (policy s) →
  accepts_parent (policy s) (rq_parent request) (rq_parent_role request) = true →
  sound s (begin_at acquired owner request now key s).
Proof.
  intros Hinv0 Hroom0 Hslot Hne Hchild Hown Hrole Hacc. unfold begin_at. op_run.
  destruct (expire_spec key now s Hinv0) as (s1 & b & -> & Hs & _).
  pose proof (shr_inv _ _ Hs) as Hinv. pose proof (shrinks_room _ _ Hinv0 Hs Hroom0) as [Hroom Hlt].
  rewrite <- (adv_policy _ _ (shr_advances _ _ Hs)) in Hslot, Hchild, Hrole, Hacc.
  eapply sound_from; [apply Hs|]. clear Hs Hinv0 Hroom0 s b.
  destruct (om_get (records s1) key) as [existing|] eqn:Hg.
  { destruct (begin_match owner request existing) eqn:Hm; [by apply sound_ok|by apply sound_err]. }
  destruct (Z.leb_spec (Z.of_nat (max_pending (policy s1))) (pending_count s1)) as [|Hfree]; [by apply sound_err|].
  destruct acquired as [lease|]; [|by apply sound_err]. cbn [ok_or].
  destruct (next_generation_spec s1) as [->| ->]; [by apply sound_err|].
  set (g := next_generation s1) in *.
  destruct (inv_set_generation s1 (g + 1) Hinv ltac:(lia)) as [Hinv2 Hadv2].
  destruct (expiry s1 now) as [expires|e] eqn:Hexp.
  2: { split_and!; [done|done|]. apply expiry_err in Hexp. cbn. congruence. }
  set (rel := mkRelation _ _ _ _ _ _ _ _ _).
  destruct (insert_relation_spec key rel lease _ Hinv2 Hroom Hlt Hg) as (m & -> & Hok & Hperm).
  pose proof (inv_primary_bound s1 Hinv). pose proof (inv_backup_bound s1 Hinv).
  pose proof (inv_pending s1 Hinv). pose proof (inv_count s1 Hinv). pose proof (count_le_length is_pending (relations s1)).
  pose proof (is_pending_state key rel) as Hip. pose proof (is_child_state (policy s1) Primary key rel) as Hic.
  pose proof (is_child_state (policy s1) Backup key rel) as Hib. cbn [rl_state rel] in Hip, Hic, Hib.
  rewrite checked_add_ok by lia.
  destruct (install_sound s1 (set_pending (pending_count s1 + 1)
    (set_count (record_count s1 + 1) (set_records m (set_generation (g + 1) s1)))) key owner request expires
    Pending m) as [Hi Ha]; fold g; fold rel; rewrite ?Hip, ?Hic, ?Hib; cbn -[Z.add Z.sub Z.of_nat]; try done; try lia.
  apply pending_relation_ok; try done. apply Hinv.
Qed.

Lemma begin_child_attach_sound clock acquired owner request s :
  inv s → room s → sound s (begin_child_attach clock acquired owner request s).
Proof.
  intros Hinv Hroom. unfold begin_child_attach. op_run.
  destruct (check_request s request) as [[]|e] eqn:Hcheck; [|apply sound_err; [done|by eapply check_request_err]].
  apply check_request_ok in Hcheck.
  destruct (_ || _) eqn:Hguard; [by apply sound_err|].
  apply orb_false_iff in Hguard as [Hguard Hacc]. apply orb_false_iff in Hguard as [Hguard _].
  apply orb_false_iff in Hguard as [Hguard Hrole]. apply orb_false_iff in Hguard as [Hchild Hown].
  apply bool_decide_eq_false, dec_stable in Hchild, Hown, Hrole. apply negb_false_iff in Hacc.
  destruct (now_spec clock s Hinv) as [->|[-> Hs1]]; [by apply sound_err|].
  set (s1 := set_now (Some clock) s) in *.
  destruct (maintain_spec clock s1 (shr_inv _ _ Hs1)) as (s2 & n & -> & Hs2).
  pose proof (shrinks_trans _ _ _ Hs1 Hs2) as Hs. clear Hs1 Hs2.
  pose proof (shr_inv _ _ Hs) as Hinv2. pose proof (adv_policy _ _ (shr_advances _ _ Hs)) as Hpol.
  eapply sound_from; [apply Hs|].
  assert (Hat : ∀ s3 key, shrinks s2 s3 → slot_for (policy s2) request key →
    sound s2 (begin_at acquired owner request clock key s3)).
  { intros s3 key Hs3 Hslot. pose proof (shrinks_trans _ _ _ Hs Hs3) as Hs'.
    pose proof (adv_policy _ _ (shr_advances _ _ Hs3)) as Hpol3.
    eapply sound_from; [apply Hs3|]. apply begin_at_sound; rewrite ?Hpol3, ?Hpol in *; try done.
    - apply Hs3.
    - exact (shrinks_room _ _ Hinv Hs' Hroom). }
  destruct (rq_kind_cases request) as [Hkind|Hkind]; rewrite Hkind.
  - cbn [ok_or]. apply Hat; [by apply shrinks_refl|]. unfold slot_for. by rewrite Hkind.
  - destruct (begin_scan_spec owner request clock (seq 0 (max_backups (policy s))) None s2 Hinv2)
      as (s3 & r & -> & Hs3 & Hr); [rewrite Hpol; intros i Hi%elem_of_seq; lia|done|].
    destruct r as [ticket|free].
    + eapply sound_from; [apply Hs3|]. apply sound_ok, Hs3.
    + destruct free as [key|]; cbn [ok_or].
      * apply Hat; [done|]. unfold slot_for. rewrite Hkind. auto.
      * eapply sound_from; [apply Hs3|]. apply sound_err; [apply Hs3|done].
Qed.

Lemma cancel_sound owner ticket s : inv s → sound s (cancel_child_attach owner ticket s).
Proof.
  intros Hinv. unfold cancel_child_attach. op_run.
  destruct (om_get (records s) (tk_key ticket)) as [r|] eqn:Hg; [|by apply sound_err].
  destruct (_ || _); [by apply sound_err|].
  destruct (remove_key_spec s _ r Hinv Hg) as (s' & -> & Hs & _).
  eapply sound_from; [apply Hs|]. apply sound_ok, Hs.
Qed.

(** A response carries a [u64] generation. *)
Definition response_wf (response : ParentAttachResponse) : Prop :=
  match response with Accepted _ g => 0 ≤ g | Rejected _ _ => True end.

Lemma pending_match_spec owner ticket request r :
  pending_match owner ticket request r = true →
  rl_state r = Pending ∧ rl_kind r = rq_kind request ∧ rl_relation_generation r = tk_relation_generation ticket.
Proof.
  unfold pending_match, same_link. rewrite !andb_true_iff, !bool_decide_eq_true, !Z.eqb_eq. tauto.
Qed.

Lemma bind_sound s s2 key r generation expires request owner ticket :
  inv s → om_get (records s) key = Some r → pending_match owner ticket request r = true →
  0 < generation → s2 = (if next_generation s <? generation + 1 then set_generation (generation + 1) s else s) →
  let s3 := set_records (om_write (records s2) key (bind_relation generation expires (kind_state (rq_kind request)))) s2 in
  key_child key = local_key (policy s) →
  inv (set_pending (pending_count s - 1) s3) ∧ advances s (set_pending (pending_count s - 1) s3).
Proof.
  intros Hinv Hg (Hst & Hkind & _)%pending_match_spec Hpos Hs2. cbv zeta. intros Hlocal.
  assert (Hfields : records s2 = records s ∧ policy s2 = policy s ∧ record_count s2 = record_count s ∧
    pending_count s2 = pending_count s ∧ primary_children s2 = primary_children s ∧
    backup_children s2 = backup_children s ∧ next_generation s ≤ next_generation s2 ∧ generation < next_generation s2).
  { rewrite Hs2. destruct (Z.ltb_spec (next_generation s) (generation + 1)); cbn; split_and!; try done; lia. }
  destruct Hfields as (Hr & Hp & Hc & Hpe & Hpr & Hba & Hn & Hgen). clear Hs2.
  set (f := bind_relation generation expires (kind_state (rq_kind request))).
  destruct (law_write (records s) key r f (inv_ok s Hinv) Hg) as (rest & Hok & H1 & H2).
  pose proof (inv_pending_bound s Hinv). pose proof (inv_primary_bound s Hinv). pose proof (inv_backup_bound s Hinv).
  pose proof (inv_count_bound s Hinv).
  assert (Hro : relation_ok (policy s) (next_generation s) key r) by (by apply Hinv, get_relation).
  assert (Hip : is_pending (key, r) = true) by (rewrite is_pending_state, Hst; done).
  assert (Hnp : is_pending (key, f r) = false).
  { rewrite is_pending_state. cbn. by destruct (rq_kind request). }
  assert (Hnc : ∀ st r', is_child (policy s) st (key, r') = false).
  { intros st r'. unfold is_child. cbn. rewrite (bool_decide_eq_false_2 (key_child key ≠ _)) by tauto. apply andb_false_r. }
  apply (inv_replace s _ key (Some r) (f r) rest); unfold relations; cbn [records set_pending set_records]; rewrite ?Hr; try done.
  - destruct Hro as [Hg0 Hslot _ Hchild Hparent]. split; cbn; [lia|done|right; by rewrite Hkind|by intros []|done].
  - cbn. intros Hbad. by destruct (rq_kind request).
  - cbv zeta. rewrite Hip, Hnp, !Hnc. cbn -[Z.add Z.sub]. split_and!; lia.
  - cbn. lia.
  - cbn. lia.
  - cbn. lia.
  - cbn. lia.
Qed.

Lemma adopt_response_sound clock owner ticket response s :
  inv s → response_wf response → sound s (adopt_response clock owner ticket response s).
Proof.
  intros Hinv Hwf. unfold adopt_response.
  assert (∃ request accepted rejection,
    match response with Accepted r g => (r, Some g, None) | Rejected r e => (r, None, Some e) end
      = (request, accepted, rejection) ∧ (∀ g, accepted = Some g → 0 ≤ g)) as (request & accepted & rejection & -> & Hacc).
  { destruct response as [r g|r e]; cbn in Hwf; eexists _, _, _; (split; [done|]); by intros g' [= <-]. }
  op_run. destruct (check_request s request) as [[]|e] eqn:Hcheck; [|apply sound_err; [done|by eapply check_request_err]].
  destruct (_ || _); [by apply sound_err|].
  destruct (ticket_slot_ok s (rq_kind request) (tk_key ticket)) eqn:Hslot; cbn [negb]; [|by apply sound_err].
  destruct (_ || _); [by apply sound_err|].
  destruct (om_get (records s) (tk_key ticket)) as [r|] eqn:Hg; [|by apply sound_err].
  destruct (pending_match owner ticket request r) eqn:Hm; cbn [negb]; [|by apply sound_err].
  destruct (now_spec clock s Hinv) as [->|[-> Hs1]]; [by apply sound_err|].
  pose proof (shr_inv _ _ Hs1) as Hinv1.
  assert (Hrem : ∃ s', remove_key (tk_key ticket) (set_now (Some clock) s) = (s', Ok r) ∧ shrinks s s').
  { destruct (remove_key_spec _ (tk_key ticket) r Hinv1 Hg) as (s' & ? & Hs' & _). exists s'.
    split; [done|by eapply shrinks_trans]. }
  destruct Hrem as (s' & Hrem & Hs').
  destruct (rl_expires_at r <=? clock).
  { rewrite Hrem. eapply sound_from; [apply Hs'|]. apply sound_err; [apply Hs'|done]. }
  destruct rejection as [reason|].
  { rewrite Hrem. eapply sound_from; [apply Hs'|]. apply sound_ok, Hs'. }
  destruct accepted as [g|]; cbn [ok_or]; [|eapply sound_from; [apply Hs1|]; by apply sound_err].
  destruct (Z.eqb_spec g 0) as [|Hnz]; [eapply sound_from; [apply Hs1|]; by apply sound_err|].
  destruct (checked_add u64_max g 1) as [next|] eqn:Hnext; cbn [ok_or];
    [|eapply sound_from; [apply Hs1|]; by apply sound_err].
  apply checked_add_Some in Hnext as [-> _]. specialize (Hacc g eq_refl).
  eapply sound_from; [apply Hs1|]. set (s1 := set_now (Some clock) s) in *.
  set (s2 := if next_generation s1 <? g + 1 then set_generation (g + 1) s1 else s1).
  assert (Hinv2 : inv s2 ∧ advances s1 s2).
  { unfold s2. destruct (Z.ltb_spec (next_generation s1) (g + 1)); [apply inv_set_generation; [done|lia]|done]. }
  destruct Hinv2 as [Hinv2 Hadv2].
  destruct (expiry s clock) as [expires|e] eqn:Hexp; [|split_and!; try done; apply expiry_err in Hexp; cbn; congruence].
  assert (Hlocal : key_child (tk_key ticket) = local_key (policy s)).
  { unfold ticket_slot_ok in Hslot. apply andb_true_iff in Hslot as [Hl _]. by apply bool_decide_eq_true in Hl. }
  assert (Hpend : 1 ≤ pending_count s).
  { rewrite (inv_pending s Hinv). apply (count_pos is_pending _ (tk_key ticket, r)); [by apply get_relation|].
    rewrite is_pending_state. apply pending_match_spec in Hm as (-> & _). done. }
  destruct (bind_sound s1 s2 (tk_key ticket) r g expires request owner ticket Hinv1 Hg Hm ltac:(lia) eq_refl Hlocal) as [Hi Ha].
  rewrite checked_sub_ok by lia. destruct (rq_kind request); cbn [kind_state] in *; [by split_and!|].
  assert (Hoc : other_child s (tk_key ticket) = 0).
  { unfold other_child. by rewrite bool_decide_eq_false_2 by tauto. }
  pose proof (inv_backup s Hinv). pose proof (inv_count s Hinv). pose proof (inv_count_bound s Hinv).
  pose proof (count_le_length (is_child (policy s) Backup) (relations s)).
  rewrite Hoc, checked_add_ok by lia.
  eapply sound_from; [exact Ha|].
  set (s4 := set_pending _ _) in Hi |- *.
  change (sound s4 (set_backup (backup_children s + 0) s4, Ok AdoptAccepted)).
  assert (Hframe : shrinks s4 (set_backup (backup_children s + 0) s4)).
  { apply shrinks_frame; try done. cbn. rewrite Z.add_0_r. unfold s2. by destruct (_ <? _). }
  eapply sound_from; [apply Hframe|]. apply sound_ok, Hframe.
Qed.

Lemma remove_matching_sound matches start steps cursor removed s :
  inv s → removed + Z.of_nat (length steps) ≤ usize_max →
  ∃ s' n, remove_matching_loop matches start steps cursor removed s = (s', Ok n) ∧ shrinks s s'.
Proof.
  revert cursor removed s. induction steps as [|step steps IH]; intros cursor removed s Hinv Hb;
    cbn [remove_matching_loop]; op_run.
  { eexists s, _. split; [done|]. by apply shrinks_refl. }
  destruct (next_key_after (records s) cursor) as [key|] eqn:Hk.
  2: { eexists s, _. split; [done|]. by apply shrinks_refl. }
  destruct (_ && _); [eexists s, _; split; [done|]; by apply shrinks_refl|].
  destruct (next_key_present s cursor key Hinv Hk) as [r Hg]. rewrite Hg. cbn [length] in Hb.
  destruct (matches key r).
  - destruct (remove_key_spec s key r Hinv Hg) as (s1 & Hr & Hs & _). rewrite Hr, checked_add_ok by lia.
    destruct (IH (Some key) (removed + 1) s1) as (s' & n & He & Hs'); [apply Hs|lia|].
    exists s', n. split; [exact He|by eapply shrinks_trans].
  - apply IH; [done|lia].
Qed.

(** ** Reachable states *)

Inductive call : Type :=
| CAccept (clock : Z) (acquired : option L) (owner : ParentOwnerCoordinate) (request : ParentAttachRequest)
| CBegin (clock : Z) (acquired : option L) (owner : ParentOwnerCoordinate) (request : ParentAttachRequest)
| CAdopt (clock : Z) (owner : ParentOwnerCoordinate) (ticket : ParentAttachTicket) (response : ParentAttachResponse)
| CCancel (owner : ParentOwnerCoordinate) (ticket : ParentAttachTicket)
| CRetire (owner : ParentOwnerCoordinate)
| CMaintain (clock : Z)
| CPrimaryParent (clock : Z)
| CLiveOwner (clock : Z) (owner : ParentOwnerCoordinate).

Definition run (c : call) : act () :=
  match c with
  | CAccept clock acquired owner request => accept_request clock acquired owner request;; mret ()
  | CBegin clock acquired owner request => begin_child_attach clock acquired owner request;; mret ()
  | CAdopt clock owner ticket response => adopt_response clock owner ticket response;; mret ()
  | CCancel owner ticket => cancel_child_attach owner ticket
  | CRetire owner => retire_owner owner;; mret ()
  | CMaintain clock => maintain_now clock;; mret ()
  | CPrimaryParent clock => primary_parent_at_now clock;; mret ()
  | CLiveOwner clock owner => has_live_owner clock owner;; mret ()
  end.

(** Requests that may add an entry find room for one; a response is well typed. *)
Definition admissible (c : call) (s : ParentingState) : Prop :=
  match c with
  | CAccept _ _ _ _ | CBegin _ _ _ _ => room s
  | CAdopt _ _ _ response => response_wf response
  | _ => True
  end.

Inductive steps : ParentingState → ParentingState → Prop :=
| steps_refl s : steps s s
| steps_call s c s' : admissible c s → steps (run c s).1 s' → steps s s'.

Fixpoint run_all (calls : list call) (s : ParentingState) : ParentingState :=
  match calls with [] => s | c :: calls => run_all calls (run c s).1 end.

Fixpoint admissible_all (calls : list call) (s : ParentingState) : Prop :=
  match calls with [] => True | c :: calls => admissible c s ∧ admissible_all calls (run c s).1 end.

Lemma run_all_steps calls s : admissible_all calls s → steps s (run_all calls s).
Proof.
  revert s. induction calls as [|c calls IH]; intros s; [constructor|]. intros [Hc Hcs].
  econstructor; [exact Hc|]. by apply IH.
Qed.

Lemma steps_trans s1 s2 s3 : steps s1 s2 → steps s2 s3 → steps s1 s3.
Proof. induction 1 as [|s c s' Hc Hs IH]; [done|]. intros H3. econstructor; [exact Hc|]. by apply IH. Qed.

Lemma sound_discard {A} s (m : act A) : sound s (m s) → sound s ((m;; mret ()) s).
Proof.
  intros (Hi & Ha & He). op_run. destruct (m s) as [s' [a|e]]; cbn in *; split_and!; try done. cbn. congruence.
Qed.

Lemma retire_owner_shrinks owner s : inv s → ∃ s' n, retire_owner owner s = (s', Ok n) ∧ shrinks s s'.
Proof.
  intros Hinv. unfold retire_owner, remove_matching. op_run. apply remove_matching_sound; [done|].
  rewrite length_seq. pose proof (inv_count s Hinv). pose proof (inv_count_bound s Hinv). lia.
Qed.

Lemma run_sound c s : inv s → admissible c s → sound s (run c s).
Proof.
  intros Hinv Hadm. destruct c as [clock acq owner req|clock acq owner req|clock owner tk resp|owner tk|owner|clock|clock|clock owner];
    cbn [run admissible] in *; try apply sound_discard.
  - by apply accept_request_sound.
  - by apply begin_child_attach_sound.
  - by apply adopt_response_sound.
  - by apply cancel_sound.
  - destruct (retire_owner_shrinks owner s Hinv) as (s' & n & -> & Hs).
    eapply sound_from; [apply Hs|]. apply sound_ok, Hs.
  - unfold maintain_now. op_run. destruct (now_spec clock s Hinv) as [->|[-> Hs]]; [by apply sound_err|].
    destruct (maintain_spec clock _ (shr_inv _ _ Hs)) as (s' & n & -> & Hs').
    eapply sound_from; [apply Hs|]. eapply sound_from; [apply Hs'|]. apply sound_ok, Hs'.
  - unfold primary_parent_at_now. op_run. destruct (now_spec clock s Hinv) as [->|[-> Hs]]; [by apply sound_err|].
    set (s1 := set_now (Some clock) s) in *.
    destruct (expire_spec (primary_key (local_key (policy s1))) clock s1 (shr_inv _ _ Hs)) as (s' & b & -> & Hs' & _).
    eapply sound_from; [apply Hs|]. eapply sound_from; [apply Hs'|]. destruct b; apply sound_ok, Hs'.
  - unfold has_live_owner. op_run. destruct (now_spec clock s Hinv) as [->|[-> Hs]]; [by apply sound_err|].
    eapply sound_from; [apply Hs|]. apply sound_ok, Hs.
Qed.

Lemma steps_inv s s' : steps s s' → inv s → inv s' ∧ advances s s'.
Proof.
  induction 1 as [|s c s' Hadm Hsteps IH]; intros Hinv; [by split|].
  destruct (run_sound c s Hinv Hadm) as (Hi & Ha & _). destruct (IH Hi). split; [done|by etrans].
Qed.

Lemma new_inv p s : state_new p = Ok s → inv s ∧ policy s = p ∧ relations s = [].
Proof.
  unfold state_new. destruct (policy_checked p) as [p'|] eqn:Hp; [|done]. cbn. intros [= <-].
  assert (p' = p) as ->.
  { unfold policy_checked in Hp. destruct (_ || _); [done|]. destruct (relation_bound p); [|done]. by injection Hp. }
  destruct law_new as [Hok Hl]. split; [|split; [done|exact Hl]].
  assert (Hrel : relations (mkState om_new p 1 0 0 0 0 None None) = []) by exact Hl.
  split; rewrite ?Hrel; cbn; try done; try lia. by intros k r ?%not_elem_of_nil.
Qed.

(** C11: the parenting table is exact.  In every state an accepted policy can
    reach, the counters equal the numbers of records, pending attaches, primary
    and backup children, they respect the policy's bounds, each relation has the
    slot, kind, roles and owner its side demands, and no call ever reports a
    broken map invariant. *)
Theorem parenting_table_is_exact p s0 s :
  state_new p = Ok s0 → steps s0 s →
  inv s ∧ policy s = p ∧ ∀ c, admissible c s → (run c s).2 ≠ Err Invariant.
Proof.
  intros (Hinv & Hp & _)%new_inv Hsteps. destruct (steps_inv s0 s Hsteps Hinv) as [Hinv' Hadv].
  split_and!; [done|by rewrite (adv_policy _ _ Hadv)|]. intros c Hadm. by apply run_sound.
Qed.

(** A ticket is live while its own pending relation is in the table. *)
Definition live_ticket (s : ParentingState) (t : ParentAttachTicket) : Prop :=
  ∃ r, om_get (records s) (tk_key t) = Some r ∧ rl_state r = Pending ∧
    rl_relation_generation r = tk_relation_generation t.

Lemma dead_ticket_persists s s' t :
  inv s → inv s' → advances s s' → tk_relation_generation t < next_generation s → ¬ live_ticket s t →
  ¬ live_ticket s' t.
Proof.
  intros Hinv Hinv' [_ _ Hpend] Hg Hdead (r & Hr & Hst & Hgen).
  apply (get_relation _ _ _ Hinv') in Hr. destruct (Hpend _ _ Hr Hst) as [Hold|Hnew]; [|lia].
  apply Hdead. exists r. split; [by apply get_relation|done].
Qed.

Lemma adopt_needs_live clock owner t response s :
  inv s → is_ok (adopt_response clock owner t response s).2 = true → live_ticket s t.
Proof.
  intros Hinv. unfold adopt_response.
  destruct (match response with Accepted r g => _ | Rejected r e => _ end) as [[request accepted] rejection]. op_run.
  destruct (check_request s request); [|done]. destruct (_ || _); [done|]. destruct (negb _); [done|].
  destruct (_ || _); [done|]. destruct (om_get (records s) (tk_key t)) as [r|] eqn:Hg; [|done].
  destruct (pending_match owner t request r) eqn:Hm; [|done]. intros _.
  apply pending_match_spec in Hm as (? & _ & ?). by exists r.
Qed.

Lemma cancel_needs_live owner t s : is_ok (cancel_child_attach owner t s).2 = true → live_ticket s t.
Proof.
  unfold cancel_child_attach. op_run. destruct (om_get (records s) (tk_key t)) as [r|] eqn:Hg; [|done].
  destruct (bool_decide (rl_state r ≠ Pending)) eqn:Hst; [done|].
  destruct (Z.eqb_spec (rl_relation_generation r) (tk_relation_generation t)); [|by rewrite orb_true_r].
  intros _. apply bool_decide_eq_false, dec_stable in Hst. by exists r.
Qed.

(** an old ticket cannot bind a successor.  Once the pending relation of a
    ticket is gone, whatever calls follow, adopting or cancelling with that ticket
    fails. *)
Theorem dead_ticket_never_binds p s0 s t s' :
  state_new p = Ok s0 → steps s0 s →
  tk_relation_generation t < next_generation s → ¬ live_ticket s t → steps s s' →
  (∀ clock owner response, is_ok (adopt_response clock owner t response s').2 = false) ∧
  (∀ owner, is_ok (cancel_child_attach owner t s').2 = false).
Proof.
  intros (Hinv0 & _ & _)%new_inv Hs0 Hg Hdead Hsteps. destruct (steps_inv _ _ Hs0 Hinv0) as [Hinv _].
  destruct (steps_inv _ _ Hsteps Hinv) as [Hinv' Hadv].
  pose proof (dead_ticket_persists s s' t Hinv Hinv' Hadv Hg Hdead) as Hdead'. split; intros.
  - destruct (is_ok _) eqn:Hok; [|done]. by apply adopt_needs_live in Hok.
  - destruct (is_ok _) eqn:Hok; [|done]. by apply cancel_needs_live in Hok.
Qed.

(** ** Retirement is complete *)

Lemma head_filter_least (P : ParentingKey * ParentingRelation → Prop) `{!∀ e, Decision (P e)} l e :
  increasing key_cmp (fst <$> l) → e ∈ l → P e →
  (∀ e', e' ∈ l → P e' → e' = e ∨ key_cmp e.1 e'.1 = Lt) → head (filter P l) = Some e.
Proof.
  induction l as [|x l IH]; intros Hi He HP Hleast; [by apply not_elem_of_nil in He|].
  rewrite fmap_cons in Hi. apply StronglySorted_inv in Hi as [Hi Hx]. rewrite Forall_forall in Hx.
  rewrite filter_cons. apply elem_of_cons in He as [->|He]; [by rewrite decide_True|].
  destruct (decide (P x)) as [Hpx|Hpx].
  - destruct (Hleast x ltac:(by left) Hpx) as [->|Hlt]; [done|]. exfalso.
    apply (cmp_lt_irrefl key_cmp e.1). eapply (cmp_trans key_cmp); [exact Hlt|]. apply Hx. by apply list_elem_of_fmap_2.
  - apply IH; try done. intros. apply Hleast; [by right|done].
Qed.

Lemma sorted_parts (pre post : list (ParentingKey * ParentingRelation)) e :
  increasing key_cmp (fst <$> pre ++ e :: post) →
  (∀ a, a ∈ pre → key_cmp a.1 e.1 = Lt) ∧ (∀ b, b ∈ post → key_cmp e.1 b.1 = Lt) ∧
  increasing key_cmp (fst <$> (pre ++ [e]) ++ post).
Proof.
  intros Hi. split_and!; [| |by rewrite <- app_assoc].
  - induction pre as [|x pre IH]; intros a Ha; [by apply not_elem_of_nil in Ha|]. cbn in Hi.
    apply StronglySorted_inv in Hi as [Hi Hx]. rewrite Forall_forall in Hx.
    apply elem_of_cons in Ha as [->|Ha]; [|by apply IH]. apply Hx. rewrite fmap_app, fmap_cons. set_solver.
  - induction pre as [|x pre IH]; cbn in Hi; apply StronglySorted_inv in Hi as [Hi Hx]; [|by apply IH].
    rewrite Forall_forall in Hx. intros b Hb. apply Hx. by apply list_elem_of_fmap_2.
Qed.

Lemma remove_matching_complete matches start pre post s removed :
  increasing key_cmp (fst <$> pre ++ post) → start = fst <$> head (pre ++ post) → inv s →
  (∀ e, e ∈ relations s ↔ (e ∈ pre ∧ matches e.1 e.2 = false) ∨ e ∈ post) →
  0 ≤ removed → removed + Z.of_nat (length post) ≤ usize_max →
  ∃ s', remove_matching_loop matches start (seq (length pre) (length post)) (fst <$> last pre) removed s
      = (s', Ok (removed + count (λ e, matches e.1 e.2) post)) ∧
    shrinks s s' ∧ ∀ e, e ∈ relations s' ↔ e ∈ pre ++ post ∧ matches e.1 e.2 = false.
Proof.
  revert pre s removed. induction post as [|e post IH]; intros pre s removed Hi Hstart Hinv Hmem Hr0 Hr.
  { exists s. cbn. op_run. rewrite Z.add_0_r. split; [done|]. split; [by apply shrinks_refl|].
    intros e. rewrite Hmem, app_nil_r, elem_of_nil. tauto. }
  destruct (sorted_parts pre post e Hi) as (Hpre & Hpost & Hi').
  assert (Hin : e ∈ relations s) by (apply Hmem; right; by left).
  assert (Hnext : next_key_after (records s) (fst <$> last pre) = Some e.1).
  { unfold next_key_after. rewrite law_successor by apply Hinv. fold (relations s).
    rewrite (head_filter_least (after_key key_cmp (fst <$> last pre)) (relations s) e); [done|apply law_sorted, Hinv|done|..].
    - destruct (last pre) as [a|] eqn:Hl; cbn; [|done]. apply (cmp_gt key_cmp), Hpre. by apply last_Some_elem_of.
    - intros e' He' Ha. apply Hmem in He' as [[He' _]|[->|He']%elem_of_cons]; [|by left|right; by apply Hpost].
      exfalso. destruct (last pre) as [a|] eqn:Hl; cbn in Ha; [|apply last_None in Hl; subst pre; by apply not_elem_of_nil in He'].
      apply last_Some in Hl as [pre' ->]. apply (cmp_gt key_cmp) in Ha.
      rewrite <- app_assoc in Hi. destruct (sorted_parts pre' (e :: post) a Hi) as (Hpre' & _ & _).
      apply elem_of_app in He' as [He'|He'%list_elem_of_singleton]; [|subst a; by apply (cmp_lt_irrefl key_cmp) in Ha].
      apply (cmp_lt_irrefl key_cmp a.1). eapply (cmp_trans key_cmp); [exact Ha|by apply Hpre']. }
  cbn [length seq remove_matching_loop]. op_run. rewrite Hnext.
  assert ((0 <? length pre)%nat && bool_decide (Some e.1 = start) = false) as ->.
  { destruct pre as [|a pre]; [done|]. apply andb_false_iff. right. apply bool_decide_eq_false. rewrite Hstart. cbn.
    intros [= Heq]. specialize (Hpre a ltac:(by left)). rewrite Heq in Hpre. by apply (cmp_lt_irrefl key_cmp) in Hpre. }
  assert (Hg : om_get (records s) e.1 = Some e.2) by (apply get_relation; [done|by destruct e]). rewrite Hg.
  rewrite count_cons. cbn [length] in Hr.
  assert (Hlen : (fst <$> last (pre ++ [e])) = Some e.1) by (by rewrite last_snoc).
  assert (Hstart' : start = fst <$> head ((pre ++ [e]) ++ post)) by (by rewrite <- app_assoc).
  destruct (matches e.1 e.2) eqn:Hm.
  - destruct (remove_key_spec s e.1 e.2 Hinv Hg) as (s1 & Hrem & Hs & Hp & _). rewrite Hrem, checked_add_ok by lia.
    pose proof (shr_inv _ _ Hs) as Hinv1. pose proof (removed_absent s s1 e.1 e.2 Hinv Hinv1 Hp) as Habs.
    destruct (IH (pre ++ [e]) s1 (removed + 1)) as (s' & Hl & Hs' & Hm'); try done; try lia.
    + intros x. rewrite elem_of_app, list_elem_of_singleton. split.
      * intros Hx. pose proof (shr_sub _ _ Hs _ Hx) as Hx'. apply Hmem in Hx' as [[? ?]|[->|?]%elem_of_cons]; auto.
        assert (om_get (records s1) e.1 = Some e.2) by (apply get_relation; [done|by destruct e]). congruence.
      * intros [[[Hx| ->] Hmx]|Hx]; [|congruence|].
        -- assert (x ∈ relations s) as Hx' by (apply Hmem; auto). rewrite Hp in Hx'.
           apply elem_of_cons in Hx' as [->|]; [|done]. cbn in Hmx. congruence.
        -- assert (x ∈ relations s) as Hx' by (apply Hmem; right; by right). rewrite Hp in Hx'.
           apply elem_of_cons in Hx' as [->|]; [|done]. apply Hpost in Hx. by apply (cmp_lt_irrefl key_cmp) in Hx.
    + exists s'. rewrite length_app, Hlen in Hl. cbn [length] in Hl. rewrite Nat.add_1_r in Hl. rewrite Hl.
      split; [by rewrite Z.add_assoc|]. split; [by eapply shrinks_trans|]. by rewrite <- app_assoc in Hm'.
  - destruct (IH (pre ++ [e]) s removed) as (s' & Hl & Hs' & Hm'); try done; try lia.
    + intros x. rewrite Hmem, elem_of_app, list_elem_of_singleton, elem_of_cons. naive_solver.
    + exists s'. rewrite length_app, Hlen in Hl. cbn [length] in Hl. rewrite Nat.add_1_r in Hl. rewrite Hl.
      split; [done|]. split; [done|]. by rewrite <- app_assoc in Hm'.
Qed.

Lemma live_owner_found s owner now n cursor :
  inv s → live_owner_loop (records s) owner now n cursor = true → ∃ e, e ∈ relations s ∧ rl_owner e.2 = owner.
Proof.
  intros Hinv. revert cursor. induction n as [|n IH]; intros cursor; cbn [live_owner_loop]; [done|].
  rewrite law_successor by apply Hinv. fold (relations s).
  destruct (filter _ (relations s)) as [|[k r] l] eqn:Hf; [done|]. cbn [head].
  assert (Hin : (k, r) ∈ relations s).
  { assert (Hin : (k, r) ∈ filter (after_key key_cmp cursor) (relations s)) by (rewrite Hf; by left).
    by apply list_elem_of_filter in Hin as [_ ?]. }
  destruct (bool_decide (rl_owner r = owner)) eqn:Ho; cbn [andb].
  - apply bool_decide_eq_true in Ho. intros _. by exists (k, r).
  - apply IH.
Qed.

(** retiring an owner is complete and precise.  In a reachable state
    [retire_owner] succeeds, no relation of that owner remains, every relation of
    another owner does, and the count it returns is the number removed. *)
Theorem retirement_is_complete p s0 s owner :
  state_new p = Ok s0 → steps s0 s →
  ∃ s', retire_owner owner s = (s', Ok (count (λ e, bool_decide (rl_owner e.2 = owner)) (relations s))) ∧
    (∀ e, e ∈ relations s' ↔ e ∈ relations s ∧ rl_owner e.2 ≠ owner) ∧
    ∀ now, live_owner_loop (records s') owner now (Z.to_nat (record_count s')) None = false.
Proof.
  intros (Hinv0 & _ & _)%new_inv Hsteps. destruct (steps_inv _ _ Hsteps Hinv0) as [Hinv _].
  unfold retire_owner, remove_matching. op_run.
  pose proof (inv_count s Hinv) as Hc. pose proof (inv_count_bound s Hinv).
  destruct (remove_matching_complete (λ _ relation, bool_decide (rl_owner relation = owner))
    (fst <$> om_successor (records s) None) [] (relations s) s 0) as (s' & Hl & Hs & Hm); try done; try lia.
  - apply law_sorted, Hinv.
  - rewrite law_successor by apply Hinv. fold (relations s). f_equal. f_equal. by apply list_filter_all.
  - intros e. rewrite elem_of_nil. tauto.
  - exists s'. rewrite Hc, Nat2Z.id. split; [exact Hl|].
    assert (Hiff : ∀ e, e ∈ relations s' ↔ e ∈ relations s ∧ rl_owner e.2 ≠ owner).
    { intros e. rewrite Hm, bool_decide_eq_false. done. }
    split; [done|]. intros now. destruct (live_owner_loop _ _ _ _ _) eqn:Hlive; [|done].
    apply live_owner_found in Hlive as (e & He & Ho); [|apply Hs]. by apply Hiff in He as [_ ?].
Qed.
End parenting.

(** ** The table over the leased map *)

From S2P Require Import LeasedMap.

Section demo.

(** A leaf with two backups, over a treap that may hold ten entries. *)
#[local] Instance demo_table : OrderedMap ParentingKey ParentingRelation nat LeasedMap :=
  leased_ordered_map key_cmp (λ _, 0) 10.
#[local] Instance demo_laws : OrderedMapLaws key_cmp :=
  @leased_ordered_map_laws _ _ _ key_cmp key_cmp_spec (λ _, 0) 10.

Definition demo_policy : ParentingPolicy :=
  mkPolicy "leaf" "root" RoleLeaf 1 0 2 1 100 "context" "configuration".
Definition demo_owner (peer : string) : ParentOwnerCoordinate := mkOwner peer "namespace" 1.
Definition demo_request (parent : string) (sequence : Z) (kind : ParentingRelationKind) : ParentAttachRequest :=
  mkRequest "context" "configuration" sequence "leaf" parent RoleLeaf (RoleHub 1) kind.
Definition demo_attach (parent : string) (slot : nat) (sequence : Z) (kind : ParentingRelationKind) :
    list (@call nat) :=
  let request := demo_request parent sequence kind in
  [CBegin 1 (Some 0%nat) (demo_owner parent) request;
   CAdopt 1 (demo_owner parent) (mkTicket (mkKey "leaf" slot) sequence sequence (demo_owner parent))
     (Accepted request sequence)].
Definition demo_first : list (@call nat) := demo_attach "hub1" 0 1 KindPrimary.
Definition demo_more : list (@call nat) := demo_attach "hub2" 1 2 KindBackup ++ demo_attach "hub3" 2 3 KindBackup.

Definition demo_start : @ParentingState (@LeasedMap ParentingKey ParentingRelation nat) :=
  mkState map_new demo_policy 1 0 0 0 0 None None.
Definition demo_attached := run_all demo_first demo_start.
Definition demo_full := run_all demo_more demo_attached.

Lemma demo_start_new : state_new demo_policy = Ok demo_start.
Proof. reflexivity. Qed.

Lemma demo_first_steps : steps demo_start demo_attached.
Proof. apply run_all_steps. vm_compute. repeat split; (lia || congruence). Qed.

Lemma demo_more_steps : steps demo_attached demo_full.
Proof. apply run_all_steps. vm_compute. repeat split; (lia || congruence). Qed.

Lemma demo_all_steps : steps demo_start demo_full.
Proof. eapply steps_trans; [apply demo_first_steps|apply demo_more_steps]. Qed.
(** the planned relation bound misses adopted backups.  [relation_bound], from
    which the table's funding is planned, counts one record for the node's own
    parents beside the pending one; a leaf with two backup slots attaches a primary
    and two backups and then holds more records than the bound. *)
Theorem adopted_backups_exceed_relation_bound :
  ∃ p s0 s bound,
    state_new p = Ok s0 ∧ steps s0 s ∧ relation_bound p = Ok bound ∧ bound < record_count s.
Proof.
  exists demo_policy, demo_start, demo_full, 2.
  split; [apply demo_start_new|]. split; [apply demo_all_steps|]. split; vm_compute; reflexivity.
Qed.

Lemma parenting_table_is_exact_witness : record_count demo_full = Z.of_nat (length (relations demo_full)).
Proof.
  destruct (parenting_table_is_exact demo_policy demo_start demo_full) as ([] & _ & _);
    [exact demo_start_new | exact demo_all_steps | assumption].
Defined.

Lemma dead_ticket_never_binds_witness :
  is_ok (cancel_child_attach (demo_owner "hub1")
    (mkTicket (mkKey "leaf" 0) 1 1 (demo_owner "hub1")) demo_full).2 = false.
Proof.
  apply (dead_ticket_never_binds demo_policy demo_start demo_attached
    (mkTicket (mkKey "leaf" 0) 1 1 (demo_owner "hub1")) demo_full).
  - exact demo_start_new.
  - exact demo_first_steps.
  - vm_compute. reflexivity.
  - intros (r & Hr & Hst & _). vm_compute in Hr. injection Hr as <-. discriminate Hst.
  - exact demo_more_steps.
Defined.

Lemma retirement_is_complete_witness :
  ∃ s', retire_owner (demo_owner "hub1") demo_full = (s', Ok 1) ∧
    ∀ e, e ∈ relations s' ↔ e ∈ relations demo_full ∧ rl_owner e.2 ≠ demo_owner "hub1".
Proof.
  destruct (retirement_is_complete demo_policy demo_start demo_full (demo_owner "hub1")) as (s' & Hr & Hm & _);
    [exact demo_start_new | exact demo_all_steps |].
  exists s'. split; [|exact Hm]. rewrite Hr. f_equal.
Defined.
End demo.
