(* ===== verification/Bytes.v ===== *)
(** * Byte strings and canonical encodings

    Byte vectors, the fixed array [[u8; 32]] of digests, identities and keys,
    big-endian integers, and the writer [Encoder] of
    crates/myownmesh-core/src/semantic/content.rs.  An encoding is used under a
    digest or a signature, so what matters of it is that it can be read back
    without ambiguity whatever follows it: [Prefix P enc] says that [enc] is
    such a code on the values that satisfy [P], and the instances below compose
    it field by field. *)

From S2P Require Import Prelude Ranking.
Local Open Scope nat_scope.

Notation bytes := (list Ascii.ascii).

Definition str (s : string) : bytes := String.list_ascii_of_string s.

#[export] Instance str_inj : Inj (=) (=) str.
Proof.
  intros s t H. rewrite <- (String.string_of_list_ascii_of_string s), <- (String.string_of_list_ascii_of_string t).
  unfold str in H. by rewrite H.
Qed.

Definition u8 (n : Z) : Ascii.ascii := Ascii.ascii_of_N (Z.to_N (n mod 256)).

(** [Vec<u8>::cmp] and [<[u8; 32]>::cmp]: the lexicographic order of bytes. *)
Definition bytes_cmp (a b : bytes) : comparison :=
  String.compare (String.string_of_list_ascii a) (String.string_of_list_ascii b).

Lemma cmp_via {A B} (f : A → B) `{!Inj (=) (=) f} (cmp : B → B → comparison) `{!CmpSpec cmp} :
  CmpSpec (λ x y, cmp (f x) (f y)).
Proof.
  split.
  - intros x y. rewrite cmp_eq by done. split; [apply (inj f)|by intros ->].
  - intros x y. apply cmpspec_antisym.
  - intros x y z. by apply cmp_trans.
Qed.

#[export] Instance string_of_list_ascii_inj : Inj (=) (=) String.string_of_list_ascii.
Proof.
  intros a b H.
  rewrite <- (String.list_ascii_of_string_of_list_ascii a), <- (String.list_ascii_of_string_of_list_ascii b).
  by rewrite H.
Qed.

#[export] Instance bytes_cmp_spec : CmpSpec bytes_cmp.
Proof. apply (cmp_via String.string_of_list_ascii String.compare). Qed.

(** ** [[u8; 32]] *)
Record Bytes32 : Type := mkBytes32 { b32 : bytes; b32_len : (length b32 =? 32) = true }.

Lemma length_b32 x : length (b32 x) = 32.
Proof. destruct x as [l H]. by apply Nat.eqb_eq. Qed.

#[export] Instance b32_inj : Inj (=) (=) b32.
Proof. intros [a Ha] [b Hb]. cbn. intros ->. f_equal. apply eq_pi. apply _. Qed.

#[export] Instance bytes32_eq_dec : EqDecision Bytes32.
Proof. intros x y. destruct (decide (b32 x = b32 y)) as [H|H]; [left; by apply (inj b32)|right; by intros ->]. Defined.

(** [<[u8; 32]>::try_from] on a vector. *)
Definition to_bytes32 (l : bytes) : option Bytes32 :=
  match (length l =? 32) as b return (length l =? 32) = b → option Bytes32 with
  | true => λ H, Some (mkBytes32 l H)
  | false => λ _, None
  end eq_refl.

Lemma to_bytes32_b32 x : to_bytes32 (b32 x) = Some x.
Proof.
  unfold to_bytes32. generalize (eq_refl ((length (b32 x) =? 32))).
  generalize ((length (b32 x) =? 32)) at 2 3. intros [|] H.
  - f_equal. by apply (inj b32).
  - by rewrite length_b32 in H.
Qed.

#[export] Instance bytes32_countable : Countable Bytes32.
Proof. refine (inj_countable b32 to_bytes32 to_bytes32_b32). Defined.

Definition b32_cmp (x y : Bytes32) : comparison := bytes_cmp (b32 x) (b32 y).

#[export] Instance b32_cmp_spec : CmpSpec b32_cmp.
Proof. apply (cmp_via b32 bytes_cmp). Qed.

(** ** [u64::to_be_bytes] *)
Fixpoint be_bytes (w : nat) (n : Z) : bytes :=
  match w with
  | O => []
  | S w => be_bytes w (n / 256) ++ [u8 n]
  end.

Lemma length_be_bytes w n : length (be_bytes w n) = w.
Proof. revert n. induction w as [|w IH]; intros n; cbn; [done|]. rewrite length_app, IH. cbn. lia. Qed.

Lemma u8_inj m n : u8 m = u8 n → (m mod 256 = n mod 256)%Z.
Proof.
  unfold u8. intros H. apply (f_equal Ascii.N_of_ascii) in H.
  rewrite !Ascii.N_ascii_embedding in H.
  - pose proof (Z.mod_pos_bound m 256). pose proof (Z.mod_pos_bound n 256). lia.
  - pose proof (Z.mod_pos_bound n 256). lia.
  - pose proof (Z.mod_pos_bound m 256). lia.
Qed.

Lemma be_bytes_inj w m n :
  (0 ≤ m < 256 ^ Z.of_nat w)%Z → (0 ≤ n < 256 ^ Z.of_nat w)%Z → be_bytes w m = be_bytes w n → m = n.
Proof.
  revert m n. induction w as [|w IH]; intros m n Hm Hn H; [cbn in *; lia|].
  cbn in H. apply app_inj_2 in H as [H1 H2]; [|done]. simplify_eq.
  match goal with H : u8 _ = u8 _ |- _ => apply u8_inj in H as H2 end.
  rewrite Nat2Z.inj_succ, Z.pow_succ_r in Hm, Hn by lia.
  apply IH in H1; [|split; [apply Z.div_pos; lia|apply Z.div_lt_upper_bound; lia]..].
  pose proof (Z.div_mod m 256). pose proof (Z.div_mod n 256). lia.
Qed.

(** A length as the [u64] of a prefix: [value.len() as u64]. *)
Definition be64 (n : nat) : bytes := be_bytes 8 (Z.of_nat n).

#[global] Arguments be_bytes : simpl never.

(** The lengths a vector can have: below [2^64]. *)
Definition fits (n : nat) : Prop := (Z.of_nat n ≤ u64_max)%Z.

(** ** Codes that can be read back whatever follows them *)
Class Prefix {A} (P : A → Prop) (enc : A → bytes) : Prop :=
  prefix_code a b r s : P a → P b → enc a ++ r = enc b ++ s → a = b ∧ r = s.
#[export] Hint Mode Prefix ! - ! : typeclass_instances.

Lemma prefix_inj {A} (P : A → Prop) enc `{!Prefix P enc} a b : P a → P b → enc a = enc b → a = b.
Proof. intros Ha Hb H. destruct (prefix_code (enc := enc) a b [] []) as [? _]; [done..| |done]. by rewrite H. Qed.

Lemma prefix_fixed {A} (P : A → Prop) enc n :
  (∀ a, length (enc a) = n) → (∀ a b, P a → P b → enc a = enc b → a = b) → Prefix P enc.
Proof.
  intros Hlen Hinj a b r s Ha Hb H. apply app_inj_1 in H as [H1 H2]; [|by rewrite !Hlen].
  split; [by apply Hinj|done].
Qed.

#[export] Instance prefix_b32 : Prefix (λ _, True) b32.
Proof. apply (prefix_fixed _ _ 32); [apply length_b32|]. intros. by apply (inj b32). Qed.

#[export] Instance prefix_be64 : Prefix fits be64.
Proof.
  apply (prefix_fixed _ _ 8); [intros; apply length_be_bytes|].
  unfold fits, u64_max. intros a b Ha Hb H. apply be_bytes_inj in H; [lia|cbn; lia..].
Qed.

Lemma prefix_pair {A B} (P : A → Prop) (Q : B → Prop) ea eb `{!Prefix P ea, !Prefix Q eb} a a' b b' r s :
  P a → P a' → Q b → Q b' →
  ea a ++ eb b ++ r = ea a' ++ eb b' ++ s → a = a' ∧ b = b' ∧ r = s.
Proof. intros ???? H. apply (prefix_code (enc := ea)) in H as [-> H]; [|done..].
  by apply (prefix_code (enc := eb)) in H as [-> ->]. Qed.

(** [Encoder::bytes] and [Encoder::text]: a length, then the contents. *)
Definition enc_bytes (v : bytes) : bytes := be64 (length v) ++ v.
Definition enc_text (s : string) : bytes := enc_bytes (str s).

#[export] Instance prefix_enc_bytes : Prefix (λ v, fits (length v)) enc_bytes.
Proof.
  intros a b r s Ha Hb H. unfold enc_bytes in H. rewrite <- !app_assoc in H.
  apply (prefix_code (enc := be64)) in H as [Hl H]; [|done..]. by apply app_inj_1 in H.
Qed.

#[export] Instance prefix_enc_text : Prefix (λ s, fits (length (str s))) enc_text.
Proof.
  intros a b r s Ha Hb H. unfold enc_text in H.
  destruct (prefix_enc_bytes _ _ _ _ Ha Hb H) as [Heq ->].
  split; [by apply (inj str)|done].
Qed.

(** A counted sequence: [Encoder::list_ids] and [Encoder::list_authority_uses]. *)
Definition enc_list {A} (enc : A → bytes) (l : list A) : bytes := be64 (length l) ++ concat (enc <$> l).

Lemma prefix_concat {A} (P : A → Prop) enc `{!Prefix P enc} l1 l2 r s :
  Forall P l1 → Forall P l2 → length l1 = length l2 →
  concat (enc <$> l1) ++ r = concat (enc <$> l2) ++ s → l1 = l2 ∧ r = s.
Proof.
  revert l2. induction l1 as [|a l1 IH]; intros [|b l2]; cbn; try done. intros H1 H2 Hl H.
  inversion H1; subst. inversion H2; subst. rewrite <- !app_assoc in H.
  apply (prefix_code (enc := enc)) in H as [-> H]; [|done..]. apply IH in H as [-> ->]; [done..|lia].
Qed.

#[export] Instance prefix_enc_list {A} (P : A → Prop) enc `{!Prefix P enc} :
  Prefix (λ l, fits (length l) ∧ Forall P l) (enc_list enc).
Proof.
  intros a b r s [Ha Pa] [Hb Pb] H. unfold enc_list in H. rewrite <- !app_assoc in H.
  apply (prefix_code (enc := be64)) in H as [Hl H]; [|done..]. by eapply prefix_concat in H.
Qed.

Lemma fits_small n : n < 4096 → fits n.
Proof. unfold fits, u64_max. lia. Qed.

(** ** [sort] followed by [dedup] *)
Fixpoint dedup_by {A} (cmp : A → A → comparison) (l : list A) : list A :=
  match l with
  | x :: ((y :: _) as l') =>
      match cmp x y with Eq => dedup_by cmp l' | _ => x :: dedup_by cmp l' end
  | _ => l
  end.

Definition sort_dedup {A} (cmp : A → A → comparison) (l : list A) : list A := dedup_by cmp (sort_by cmp l).

(** [windows(2).all(|pair| pair[0] < pair[1])]. *)
Fixpoint sorted_unique {A} (cmp : A → A → comparison) (l : list A) : bool :=
  match l with
  | x :: ((y :: _) as l') => is_less (cmp x y) && sorted_unique cmp l'
  | _ => true
  end.

Lemma sorted_unique_increasing {A} (cmp : A → A → comparison) `{!CmpSpec cmp} l :
  sorted_unique cmp l = true ↔ increasing cmp l.
Proof.
  assert (Hhd : ∀ x l, HdRel (λ x y, cmp x y = Lt) x l ↔ match l with [] => True | y :: _ => cmp x y = Lt end).
  { intros x [|y l']; split; [done|constructor|by inversion 1|by constructor]. }
  assert (Htr : Relations_1.Transitive (λ x y, cmp x y = Lt)) by (intros ???; apply (cmp_trans cmp)).
  unfold increasing. induction l as [|x l IH]; [split; [constructor|done]|].
  destruct l as [|y l]; [split; [repeat constructor|done]|].
  change (is_less (cmp x y) && sorted_unique cmp (y :: l) = true ↔
          StronglySorted (λ x y, cmp x y = Lt) (x :: y :: l)).
  rewrite andb_true_iff, IH. unfold is_less. split.
  - intros [Hxy Hs]. apply Sorted_StronglySorted; [done|]. constructor; [by apply StronglySorted_Sorted|].
    apply Hhd. by destruct (cmp x y).
  - intros Hs. apply StronglySorted_inv in Hs as [Hs Hf]. inversion Hf as [|?? Hxy]; subst. by rewrite Hxy.
Qed.

Lemma dedup_by_elem {A} (cmp : A → A → comparison) `{!CmpSpec cmp} l x : x ∈ dedup_by cmp l ↔ x ∈ l.
Proof.
  induction l as [|y l IH]; [done|]. destruct l as [|z l]; [done|].
  cbn [dedup_by]. destruct (cmp y z) eqn:Hyz; [|by rewrite !elem_of_cons, IH, elem_of_cons..].
  apply (cmp_eq cmp) in Hyz as ->. rewrite IH. rewrite !elem_of_cons. tauto.
Qed.

Lemma dedup_by_increasing {A} (cmp : A → A → comparison) `{!CmpSpec cmp} l :
  StronglySorted (λ x y, cmp x y ≠ Gt) l → increasing cmp (dedup_by cmp l).
Proof.
  induction l as [|y l IH]; intros Hs; [constructor|].
  destruct l as [|z l]; [repeat constructor|]. apply StronglySorted_inv in Hs as [Hs Hf].
  cbn [dedup_by]. destruct (cmp y z) eqn:Hyz; [by apply IH| |by inversion Hf].
  constructor; [by apply IH|]. apply Forall_forall. intros w Hw.
  apply (dedup_by_elem cmp (z :: l)) in Hw. apply elem_of_cons in Hw as [->|Hw]; [done|].
  apply StronglySorted_inv in Hs as [_ Hz]. rewrite Forall_forall in Hz. apply Hz in Hw.
  destruct (cmp z w) eqn:Hzw; [|by eapply (cmp_trans cmp)|done]. by apply (cmp_eq cmp) in Hzw as <-.
Qed.

Lemma sort_dedup_increasing {A} (cmp : A → A → comparison) `{!CmpSpec cmp} l : increasing cmp (sort_dedup cmp l).
Proof.
  apply dedup_by_increasing; [done|]. apply Sorted_StronglySorted; [|by apply sort_by_sorted].
  intros x y z Hxy Hyz. destruct (cmp x y) eqn:H1; [|destruct (cmp y z) eqn:H2|done].
  - by apply (cmp_eq cmp) in H1 as ->.
  - apply (cmp_eq cmp) in H2 as <-. congruence.
  - by rewrite (cmp_trans cmp x y z).
  - done.
Qed.

Lemma elem_of_sort_dedup {A} (cmp : A → A → comparison) `{!CmpSpec cmp} l x : x ∈ sort_dedup cmp l ↔ x ∈ l.
Proof. unfold sort_dedup. by rewrite dedup_by_elem, sort_by_perm. Qed.

Lemma sort_dedup_sorted_unique {A} (cmp : A → A → comparison) `{!CmpSpec cmp} l :
  sorted_unique cmp (sort_dedup cmp l) = true.
Proof. apply sorted_unique_increasing; [done|]. by apply sort_dedup_increasing. Qed.

(** On a canonical list, sorting and removing duplicates does nothing. *)
Lemma sort_dedup_id {A} (cmp : A → A → comparison) `{!CmpSpec cmp} l :
  sorted_unique cmp l = true → sort_dedup cmp l = l.
Proof.
  intros H. apply sorted_unique_increasing in H; [|done]. apply (increasing_unique cmp); [by apply sort_dedup_increasing|done|].
  intros x. by rewrite elem_of_sort_dedup.
Qed.
