(* ===== verification/Shaping.v ===== *)
(** * Shaping the connections of a node

    Models crates/myownmesh-core/src/engine/ladder.rs: the pass that shelves and
    unshelves links by the topology's preferred set, and the pass that prunes links the
    shape has no use for and dials the edges it lacks.  A pass works on one snapshot of
    the peer registry; the tasks it spawns to drop and dial links are its output, and
    the bounded fan-out of the dials is a step relation. *)

From S2P Require Import Prelude Ranking Bytes Topology.
From stdpp Require Import relations.
Local Open Scope nat_scope.

Inductive PeerStatus : Type :=
| Sighted | Handshaking | PendingApproval | Active | Shelved | Reconnecting | Offline | StatusError.

#[export] Instance peer_status_eq_dec : EqDecision PeerStatus.
Proof. solve_decision. Defined.

(** What the passes read of a peer: [has_session] is [has_current_worker], [demanded]
    is [demand_link_protects_peer]. *)
Record Peer : Type := mkPeer {
  status : PeerStatus;
  local_shelved : bool;
  remote_shelved : bool;
  has_session : bool;
  demanded : bool;
}.

(** [peers] is the registry in its iteration order; a device occurs once. *)
Record Node : Type := mkNode {
  me : string;
  self_evicted : bool;
  peers : list (string * Peer);
  topology : Topology;
  hub_tree : bool;
  silent : bool;
  sticky : gset string;
  hub_limits : option (nat * nat);
  hub_dial_cursor : nat;
}.

Definition with_peers (n : Node) (ps : list (string * Peer)) : Node :=
  mkNode (me n) (self_evicted n) ps (topology n) (hub_tree n) (silent n) (sticky n) (hub_limits n) (hub_dial_cursor n).
Definition with_cursor (n : Node) (c : nat) : Node :=
  mkNode (me n) (self_evicted n) (peers n) (topology n) (hub_tree n) (silent n) (sticky n) (hub_limits n) c.

(** ** Shelving *)
Definition connected (p : Peer) : bool := bool_decide (status p = Active) || bool_decide (status p = Shelved).

Definition active_peers (n : Node) : list string := (filter (λ kp, connected kp.2 = true) (peers n)).*1.

Definition should_be_shelved (n : Node) (preferred : gset string) (id : string) (p : Peer) : bool :=
  bool_decide (id ∉ preferred) && negb (bool_decide (id ∈ sticky n)) && negb (demanded p).

Definition shelve (p : Peer) (shelved : bool) : Peer :=
  mkPeer
    (if shelved && bool_decide (status p = Active) then Shelved
     else if negb shelved && bool_decide (status p = Shelved) then Active else status p)
    shelved (remote_shelved p) (has_session p) (demanded p).

(** One turn of the loop: the peer after it, and the frame sent to it ([true] to
    shelve). *)
Definition reevaluate_peer (n : Node) (preferred : gset string) (kp : string * Peer) : string * Peer :=
  if connected kp.2 then (kp.1, shelve kp.2 (should_be_shelved n preferred kp.1 kp.2)) else kp.
Definition shelve_frame (n : Node) (preferred : gset string) (kp : string * Peer) : option (string * bool) :=
  let shelved := should_be_shelved n preferred kp.1 kp.2 in
  if connected kp.2 && bool_decide (local_shelved kp.2 ≠ shelved) then Some (kp.1, shelved) else None.

Definition reevaluate_topology (n : Node) : Node * list (string * bool) :=
  if self_evicted n then (n, [])
  else
    let active := active_peers n in
    if bool_decide (active = []) then (n, [])
    else
      let preferred := select_preferred (topology n) (me n) active in
      (with_peers n (reevaluate_peer n preferred <$> peers n), omap (shelve_frame n preferred) (peers n)).

(** ** The plan of the shaping pass *)
Definition known_ids (n : Node) : list string := (peers n).*1 ++ [me n].

Definition wants_prune (n : Node) (id : string) (p : Peer) : bool :=
  has_session p && negb (hub_tree n) && negb (edge (topology n) (me n) id (known_ids n)) &&
  (local_shelved p && remote_shelved p) && bool_decide (status p = Shelved) && negb (bool_decide (id ∈ sticky n)) && negb (demanded p).

Definition wants_dial (n : Node) (id : string) (p : Peer) : bool :=
  negb (has_session p) && (edge (topology n) (me n) id (known_ids n) || bool_decide (id ∈ sticky n)) &&
  (negb (silent n) || bool_decide (id ∈ sticky n)) && is_less (String.compare (me n) id).

(** [sort_unstable] and [dedup]. *)
Definition planned (n : Node) (wants : Node → string → Peer → bool) : list string :=
  sort_dedup String.compare (filter (λ kp, wants n kp.1 kp.2 = true) (peers n)).*1.

(** The rotation of the wanted edges under the owner's limit per pass. *)
Definition rotate_dials (limits : option (nat * nat)) (cursor : nat) (to_dial : list string) : list string * nat :=
  match limits with
  | Some (_, max_per_pass) =>
      match to_dial with
      | [] => (to_dial, cursor)
      | _ =>
          let start := cursor mod length to_dial in
          let rotated := drop start to_dial ++ take start to_dial in
          let advance := Nat.min max_per_pass (length to_dial) in
          (take advance rotated, (start + advance) mod length to_dial)
      end
  | None => (to_dial, cursor)
  end.

(** [shape_connections] up to its first effect: the links to drop and the edges to
    dial. *)
Definition shape_plan (n : Node) : Node * (list string * list string) :=
  if negb (prunes (topology n)) then (n, ([], []))
  else
    let '(to_dial, cursor) := rotate_dials (hub_limits n) (hub_dial_cursor n) (planned n wants_dial) in
    (with_cursor n cursor, (planned n wants_prune, to_dial)).

(** ** Its effects *)
Inductive Effect : Type :=
| DropPeer (id : string)
| NoteSighted (id : string)
| EnsureSession (id : string).

(** What is read again when the turn of a link or of an edge comes: whether a demand
    holds the link by then, whether the node is silent and the device pinned. *)
Record Rechecks : Type := mkRechecks { demanded_now : string → bool; silent_now : string → bool; sticky_now : string → bool }.

Definition prune_link (r : Rechecks) (id : string) : list Effect :=
  if demanded_now r id then [] else [DropPeer id; NoteSighted id].

Definition dial_shape_edge (r : Rechecks) (id : string) : list Effect :=
  if silent_now r id && negb (sticky_now r id) then [] else [EnsureSession id].

(** The whole pass: the links are dropped one after the other, then the dials run,
    whose order is the executor's (see the fan-out below). *)
Definition shape_connections (n : Node) (r : Rechecks) : Node * (list Effect * list Effect) :=
  let '(n, (to_prune, to_dial)) := shape_plan n in (n, (to_prune ≫= prune_link r, to_dial ≫= dial_shape_edge r)).

(** ** The fan-out of the dials *)
Record Dials : Type := mkDials { pending : list string; in_flight : list string; finished : list string }.

(** Without limits every planned dial is started at once. *)
Definition parallel (limits : option (nat * nat)) (to_dial : list string) : nat :=
  match limits with Some (max_parallel, _) => max_parallel | None => length to_dial end.

Definition start_dials (limits : option (nat * nat)) (to_dial : list string) : Dials :=
  mkDials (drop (parallel limits to_dial) to_dial) (take (parallel limits to_dial) to_dial) [].

(** One dial finishes, and the next pending one, if any, starts. *)
Inductive dial_step : Dials → Dials → Prop :=
| dial_finishes id before after done :
    dial_step (mkDials [] (before ++ id :: after) done) (mkDials [] (before ++ after) (done ++ [id]))
| dial_next id next waiting before after done :
    dial_step (mkDials (next :: waiting) (before ++ id :: after) done) (mkDials waiting (before ++ after ++ [next]) (done ++ [id])).

(** ** Shelving follows the shape and settles *)
Lemma connected_shelve p b : connected p = true → connected (shelve p b) = true ∧ status (shelve p b) = (if b then Shelved else Active).
Proof. unfold connected, shelve. cbn. destruct (status p), b; cbn; done. Qed.

Lemma shelve_same p b : local_shelved p = b → status p = (if b then Shelved else Active) → shelve p b = p.
Proof. destruct p as [st l r s d]. unfold shelve. cbn. intros -> ->. by destruct b. Qed.

Lemma reevaluate_connected n preferred kp :
  connected (reevaluate_peer n preferred kp).2 = connected kp.2 ∧ (reevaluate_peer n preferred kp).1 = kp.1.
Proof. unfold reevaluate_peer. destruct (connected kp.2) eqn:Hc; [|done]. split; [by apply connected_shelve|done]. Qed.

Lemma active_reevaluated n preferred :
  active_peers (with_peers n (reevaluate_peer n preferred <$> peers n)) = active_peers n.
Proof.
  unfold active_peers. cbn [peers with_peers]. induction (peers n) as [|kp l IH]; [done|]. rewrite fmap_cons, !filter_cons.
  destruct (reevaluate_connected n preferred kp) as [Hc Hi]. rewrite Hc. destruct (decide _); [|done]. by rewrite !fmap_cons, Hi, IH.
Qed.

(** The peer a turn leaves behind is one it would not touch. *)
Lemma reevaluate_again n preferred kp :
  let n' := with_peers n (reevaluate_peer n preferred <$> peers n) in
  reevaluate_peer n' preferred (reevaluate_peer n preferred kp) = reevaluate_peer n preferred kp ∧
  shelve_frame n' preferred (reevaluate_peer n preferred kp) = None.
Proof.
  intros n'. unfold reevaluate_peer, shelve_frame. destruct (connected kp.2) eqn:Hc; cbn [fst snd]; [|rewrite Hc; done].
  destruct (connected_shelve kp.2 (should_be_shelved n preferred kp.1 kp.2) Hc) as [-> Hs].
  change (should_be_shelved n' preferred kp.1 (shelve kp.2 ?b)) with (should_be_shelved n preferred kp.1 kp.2).
  split; [by rewrite shelve_same|]. rewrite bool_decide_eq_false_2; [done|]. cbn. tauto.
Qed.

Lemma reevaluate_settled n :
  self_evicted n = false → active_peers n ≠ [] →
  let n' := with_peers n (reevaluate_peer n (select_preferred (topology n) (me n) (active_peers n)) <$> peers n) in
  reevaluate_topology n' = (n', []).
Proof.
  intros He Ha n'. assert (active_peers n' = active_peers n) as Ha' by apply active_reevaluated.
  set (preferred := select_preferred (topology n) (me n) (active_peers n)) in *.
  assert (reevaluate_peer n' preferred <$> peers n' = peers n') as Hp.
  { unfold n' at 2 3. cbn [peers with_peers]. rewrite <- list_fmap_compose. apply list_fmap_ext. intros i kp _. apply reevaluate_again. }
  assert (omap (shelve_frame n' preferred) (peers n') = []) as Hf.
  { assert (∀ kp, shelve_frame n' preferred (reevaluate_peer n preferred kp) = None) as Hno by (intros kp; apply reevaluate_again).
    change (peers n') with (reevaluate_peer n preferred <$> peers n). clearbody n'. induction (peers n) as [|kp l IH]; [done|]. cbn. by rewrite Hno. }
  unfold reevaluate_topology. change (self_evicted n') with (self_evicted n). rewrite He, Ha'. rewrite bool_decide_eq_false_2 by done.
  change (topology n') with (topology n). change (me n') with (me n). fold preferred. by rewrite Hp, Hf.
Qed.

(** After a pass every connected peer is shelved exactly when the shape does not prefer
    it and it is neither pinned nor held by a demand; a frame went out exactly where
    that changed; the others are untouched; and a second pass does nothing. *)
Theorem shelving_settles n n' frames :
  self_evicted n = false → reevaluate_topology n = (n', frames) →
  let preferred := select_preferred (topology n) (me n) (active_peers n) in
  (∀ i id p, peers n !! i = Some (id, p) →
    ∃ p', peers n' !! i = Some (id, p') ∧
      if connected p then
        let shelved := should_be_shelved n preferred id p in
        local_shelved p' = shelved ∧ status p' = (if shelved then Shelved else Active) ∧
        (local_shelved p ≠ shelved → (id, shelved) ∈ frames)
      else p' = p) ∧
  (∀ id shelved, (id, shelved) ∈ frames → ∃ p, (id, p) ∈ peers n ∧ connected p = true ∧
    shelved = should_be_shelved n preferred id p ∧ local_shelved p ≠ shelved) ∧
  reevaluate_topology n' = (n', []).
Proof.
  intros He H preferred. unfold reevaluate_topology in H. rewrite He in H. case_bool_decide as Ha.
  { simplify_eq. assert (∀ id p, (id, p) ∈ peers n' → connected p = false) as Hno.
    { intros id p Hin. destruct (connected p) eqn:Hc; [|done]. exfalso. eapply (not_elem_of_nil id). rewrite <- Ha. unfold active_peers.
      apply list_elem_of_fmap. exists (id, p). split; [done|]. apply list_elem_of_filter. by split. }
    split; [|split; [by intros ? ? ?%not_elem_of_nil|unfold reevaluate_topology; rewrite He; by case_bool_decide]].
    intros i id p Hi. exists p. split; [done|]. by rewrite (Hno id p) by (by eapply list_elem_of_lookup_2). }
  simplify_eq. split; [|split].
  - intros i id p Hi. unfold with_peers. cbn. rewrite list_lookup_fmap, Hi. cbn. unfold reevaluate_peer. cbn. destruct (connected p) eqn:Hc; [|by eexists].
    eexists. split; [done|]. split; [done|]. split; [by apply connected_shelve|]. intros Hne. apply list_elem_of_omap. exists (id, p).
    split; [by eapply list_elem_of_lookup_2|]. unfold shelve_frame. cbn. rewrite Hc. by rewrite bool_decide_eq_true_2.
  - intros id b ([id' p] & Hin & Hf)%list_elem_of_omap. unfold shelve_frame in Hf. cbn in Hf. destruct (connected p) eqn:Hc; [|done]. cbn in Hf.
    case_bool_decide; simplify_eq. by exists p.
  - by apply reevaluate_settled.
Qed.

(** ** What a shaping pass plans *)
Lemma elem_of_planned n wants id : id ∈ planned n wants ↔ ∃ p, (id, p) ∈ peers n ∧ wants n id p = true.
Proof.
  unfold planned. rewrite (elem_of_sort_dedup String.compare), list_elem_of_fmap. setoid_rewrite list_elem_of_filter. split.
  - intros ([id' p] & -> & Hw & Hin). eauto.
  - intros (p & Hin & Hw). exists (id, p). auto.
Qed.

Lemma elem_of_rotate limits cursor l id : id ∈ (rotate_dials limits cursor l).1 → id ∈ l.
Proof.
  unfold rotate_dials. destruct limits as [[? k]|]; [|done]. destruct l as [|x l]; [done|]. cbn [fst]. intros H.
  apply subseteq_take, elem_of_app in H as [H|H]; [by apply subseteq_drop in H|by apply subseteq_take in H].
Qed.

(** A pass drops a link only if it is no edge of the shape, both sides have shelved it,
    and no pin, demand or tree keeps it; it dials a device only if it has no session
    with it, the device is an edge or pinned, silence permits, and this side is the one
    to offer. *)
Lemma plan_is_justified n n' to_prune to_dial :
  shape_plan n = (n', (to_prune, to_dial)) →
  (∀ id, id ∈ to_prune → ∃ p, (id, p) ∈ peers n ∧ edge (topology n) (me n) id (known_ids n) = false ∧
    local_shelved p = true ∧ remote_shelved p = true ∧ status p = Shelved ∧ id ∉ sticky n ∧ demanded p = false ∧ hub_tree n = false) ∧
  (∀ id, id ∈ to_dial → ∃ p, (id, p) ∈ peers n ∧ has_session p = false ∧ String.compare (me n) id = Lt ∧
    (edge (topology n) (me n) id (known_ids n) = true ∧ silent n = false ∨ id ∈ sticky n)).
Proof.
  unfold shape_plan. destruct (prunes (topology n)); cbn [negb]; [|intros [= <- <- <-]; split; by intros ? ?%not_elem_of_nil].
  destruct (rotate_dials _ _ _) as [dials cursor] eqn:Hr. intros [= <- <- <-]. split.
  - intros id (p & Hin & Hw)%elem_of_planned. exists p. unfold wants_prune in Hw. z_norm. done.
  - intros id Hid. assert (id ∈ planned n wants_dial) as Hpl by (eapply elem_of_rotate; by rewrite Hr).
    apply elem_of_planned in Hpl as (p & Hin & Hw). exists p. unfold wants_dial in Hw. z_norm. split; [done|]. split; [done|].
    split; [by destruct (String.compare (me n) id)|]. destruct (decide (id ∈ sticky n)); [by right|left].
    repeat match goal with H : _ ∨ _ |- _ => destruct H; z_norm end; done.
Qed.

(** What a pass does is justified when it is planned and again when it is done: it drops
    only what was planned and is not demanded by then, drops nothing without keeping the
    device on the map, and dials only what was planned and silence still permits. *)
Theorem shaping_is_justified n r n' drops dials :
  shape_connections n r = (n', (drops, dials)) →
  (∀ id, DropPeer id ∈ drops → demanded_now r id = false ∧ NoteSighted id ∈ drops ∧
    ∃ p, (id, p) ∈ peers n ∧ edge (topology n) (me n) id (known_ids n) = false ∧
      local_shelved p = true ∧ remote_shelved p = true ∧ status p = Shelved ∧ id ∉ sticky n ∧ demanded p = false ∧ hub_tree n = false) ∧
  (∀ id, EnsureSession id ∈ dials → (silent_now r id = false ∨ sticky_now r id = true) ∧
    ∃ p, (id, p) ∈ peers n ∧ has_session p = false ∧ String.compare (me n) id = Lt ∧
      (edge (topology n) (me n) id (known_ids n) = true ∧ silent n = false ∨ id ∈ sticky n)).
Proof.
  unfold shape_connections. destruct (shape_plan n) as [n1 [to_prune to_dial]] eqn:Hp. intros [= <- <- <-].
  destruct (plan_is_justified _ _ _ _ Hp) as [Hprune Hdial]. split.
  - intros id (id' & He & Hin)%list_elem_of_bind. unfold prune_link in He. destruct (demanded_now r id') eqn:Hd; [set_solver|].
    assert (id' = id) as -> by set_solver. split; [done|]. split; [|by apply Hprune].
    apply list_elem_of_bind. exists id. split; [|done]. unfold prune_link. rewrite Hd. set_solver.
  - intros id (id' & He & Hin)%list_elem_of_bind. unfold dial_shape_edge in He.
    destruct (silent_now r id' && negb (sticky_now r id')) eqn:Hd; [set_solver|]. assert (id' = id) as -> by set_solver.
    split; [|by apply Hdial]. destruct (silent_now r id), (sticky_now r id); auto.
Qed.

(** C29: Let two different nodes use the same lawful topology, one that prunes (not the full
    mesh), with neither of them silent and no hub limits on either; let each list the
    other as a peer without a session, and let each see the edge between them in the
    members it knows.  Then exactly one of them plans to dial the other, so that such
    an edge is neither left out nor offered twice. *)
Theorem one_side_dials a b pa pb :
  lawful (topology a) → topology b = topology a → prunes (topology a) = true → me a ≠ me b →
  (me b, pb) ∈ peers a → has_session pb = false → (me a, pa) ∈ peers b → has_session pa = false →
  silent a = false → silent b = false → hub_limits a = None → hub_limits b = None →
  edge (topology a) (me a) (me b) (known_ids a) = true → edge (topology a) (me a) (me b) (known_ids b) = true →
  let dials n := (shape_plan n).2.2 in
  (me b ∈ dials a ∧ me a ∉ dials b) ∨ (me b ∉ dials a ∧ me a ∈ dials b).
Proof.
  intros Hl Ht Hpr Hne Hb Hsb Ha Hsa Hqa Hqb Hla Hlb Hea Heb dials.
  assert (∀ n, prunes (topology n) = true → hub_limits n = None → dials n = planned n wants_dial) as Hd.
  { intros n Hp Hn. unfold dials, shape_plan. by rewrite Hp, Hn. }
  rewrite (Hd a), (Hd b) by congruence. rewrite !elem_of_planned. unfold wants_dial. rewrite Ht, (law_edge_sym _ Hl (me b)).
  rewrite Hea, Heb, Hqa, Hqb. assert (String.compare (me b) (me a) = CompOpp (String.compare (me a) (me b))) as -> by apply cmpspec_antisym.
  destruct (String.compare (me a) (me b)) eqn:Hc; cbn.
  - by apply (cmp_eq String.compare) in Hc.
  - left. split; [exists pb; by rewrite Hsb|]. intros (p & _ & H). by rewrite !andb_false_r in H.
  - right. split; [|exists pa; by rewrite Hsa]. intros (p & _ & H). by rewrite !andb_false_r in H.
Qed.

(** ** The rotation reaches every wanted edge *)
Lemma rotated_lookup (l : list string) start i :
  start < length l → i < length l → (drop start l ++ take start l) !! i = l !! ((start + i) mod length l).
Proof.
  intros Hs Hi. destruct (Nat.lt_ge_cases (start + i) (length l)) as [H|H].
  - rewrite Nat.mod_small, lookup_app_l, lookup_drop by (rewrite ?length_drop; lia). done.
  - rewrite lookup_app_r, length_drop by (rewrite length_drop; lia).
    replace ((start + i) mod length l) with (start + i - length l).
    + rewrite lookup_take_lt by lia. f_equal. lia.
    + rewrite <- (Nat.mod_small (start + i - length l) (length l)) by lia.
      replace (start + i) with (start + i - length l + 1 * length l) at 2 by lia. by rewrite Nat.Div0.mod_add.
Qed.

(** The edges dialed in [m] passes over the same wanted list. *)
Fixpoint dial_passes (m : nat) (limits : option (nat * nat)) (cursor : nat) (to_dial : list string) : list string :=
  match m with
  | 0 => []
  | S m => let '(dialed, cursor) := rotate_dials limits cursor to_dial in dialed ++ dial_passes m limits cursor to_dial
  end.

Lemma dial_passes_index m p k cursor l i id :
  i < length l → i < m * k → l !! ((cursor + i) mod length l) = Some id → id ∈ dial_passes m (Some (p, k)) cursor l.
Proof.
  revert cursor i. induction m as [|m IH]; intros cursor i Hn Hi Hl; [lia|]. cbn [dial_passes rotate_dials].
  destruct l as [|x l]; [cbn in Hn; lia|]. set (full := x :: l) in *. assert (length full ≠ 0) as Hne by done.
  set (start := cursor mod length full). assert (start < length full) as Hst by (by apply Nat.mod_upper_bound).
  assert (∀ j, (start + j) mod length full = (cursor + j) mod length full) as Hmod by (intros j; unfold start; by rewrite Nat.Div0.add_mod_idemp_l).
  apply elem_of_app. destruct (Nat.lt_ge_cases i (Nat.min k (length full))) as [H|H].
  - left. apply (list_elem_of_lookup_2 _ i). rewrite lookup_take_lt, rotated_lookup, Hmod by lia. done.
  - right. apply (IH _ (i - Nat.min k (length full))); [lia|lia|].
    rewrite Nat.Div0.add_mod_idemp_l. replace (start + Nat.min k (length full) + (i - Nat.min k (length full))) with (start + i) by lia. by rewrite Hmod.
Qed.

(** C30: No wanted edge starves: under a limit of [k] dials per pass, every edge of a wanted
    list of [n] is dialed within [n / k] passes, rounded up, wherever the cursor stands;
    and no pass dials more than [k]. *)
Theorem every_edge_is_dialed m p k cursor l :
  0 < k → length l ≤ m * k →
  (∀ id, id ∈ l → id ∈ dial_passes m (Some (p, k)) cursor l) ∧ length (rotate_dials (Some (p, k)) cursor l).1 ≤ k.
Proof.
  intros Hk Hm. split.
  - intros id [j Hj]%list_elem_of_lookup. pose proof (lookup_lt_Some _ _ _ Hj) as Hlt.
    set (n := length l) in *. set (i := (j + (n - cursor mod n)) mod n). assert (i < n) as Hi by (apply Nat.mod_upper_bound; lia).
    apply (dial_passes_index _ _ _ _ _ i); [done|lia|]. fold n. replace ((cursor + i) mod n) with j; [done|].
    unfold i. rewrite Nat.Div0.add_mod_idemp_r. assert (cursor mod n < n) by (apply Nat.mod_upper_bound; lia).
    rewrite <- (Nat.mod_small j n) at 1 by done. rewrite (Nat.div_mod_eq cursor n) at 1.
    replace (n * (cursor / n) + cursor mod n + (j + (n - cursor mod n))) with (j + (cursor / n + 1) * n) by lia. by rewrite Nat.Div0.mod_add.
  - cbn. destruct l as [|x l]; [cbn; lia|]. cbn [fst]. rewrite length_take. lia.
Qed.

(** ** The fan-out is bounded and finishes every dial *)
Lemma dials_invariant limits l d :
  rtc dial_step (start_dials limits l) d →
  finished d ++ in_flight d ++ pending d ≡ₚ l ∧ length (in_flight d) ≤ parallel limits l ∧
  (in_flight d = [] → parallel limits l = 0 ∨ pending d = []).
Proof.
  intros Hr. remember (start_dials limits l) as d0 eqn:Hd0. revert Hd0.
  refine (rtc_ind_r (λ d, d0 = start_dials limits l → finished d ++ in_flight d ++ pending d ≡ₚ l ∧ length (in_flight d) ≤ parallel limits l ∧
    (in_flight d = [] → parallel limits l = 0 ∨ pending d = [])) d0 _ _ d Hr).
  - intros ->. cbn [finished in_flight pending start_dials app]. rewrite take_drop, length_take. split; [done|]. split; [lia|].
    destruct (parallel limits l), l; cbn; auto; done.
  - intros d1 d2 _ Hs IH H0. destruct (IH H0) as (Hp & Hl & _). clear IH. destruct Hs as [id before after done_|id next waiting before after done_]; cbn in *.
    + split; [rewrite <- Hp; solve_Permutation|]. rewrite !length_app in *. cbn in Hl. split; [lia|auto].
    + split; [rewrite <- Hp; solve_Permutation|]. rewrite !length_app in *. cbn in *. split; [lia|]. intros H. by destruct before, after.
Qed.

(** However the dials of a pass finish, no more than the owner's number of them is in
    flight at any time, none is lost or made twice, and when nothing is left to happen
    every planned edge has been dialed. *)
Theorem dial_fan_out_is_bounded limits l d :
  0 < parallel limits l → rtc dial_step (start_dials limits l) d →
  length (in_flight d) ≤ parallel limits l ∧ finished d ++ in_flight d ++ pending d ≡ₚ l ∧
  ((∀ d', ¬ dial_step d d') → finished d ≡ₚ l).
Proof.
  intros Hpar Hr. destruct (dials_invariant _ _ _ Hr) as (Hp & Hl & Hnil). split; [done|]. split; [done|]. intros Hstuck.
  destruct d as [waiting [|id flying] done_]; cbn in *.
  - destruct (Hnil eq_refl) as [? | ->]; [lia|]. by rewrite app_nil_r in Hp.
  - exfalso. destruct waiting as [|next waiting]; [apply (Hstuck _ (dial_finishes id [] flying done_))|apply (Hstuck _ (dial_next id next waiting [] flying done_))].
Qed.

(** ** Instances *)
(** Every pair is an edge, and no peer is preferred. *)
Definition demo_topology : Topology :=
  mkTopology (λ _ _, ∅) (λ _ _ _, true) true (λ _ _, false) (λ _ _ _ _, []) (λ _ _ _ _, false) 4.

Lemma demo_topology_lawful : lawful demo_topology.
Proof. split; cbn; intros; try done; try set_solver; try lia. constructor. Qed.

Definition node (id : string) (ps : list (string * Peer)) (limits : option (nat * nat)) : Node :=
  mkNode id false ps demo_topology false false {["pinned"]} limits 0.
Definition sighted : Peer := mkPeer Sighted false false false false.
Definition live : Peer := mkPeer Active false false true false.

Lemma one_side_dials_witness :
  ("b" ∈ (shape_plan (node "a" [("b", sighted)] None)).2.2 ∧ "a" ∉ (shape_plan (node "b" [("a", sighted)] None)).2.2) ∨
  ("b" ∉ (shape_plan (node "a" [("b", sighted)] None)).2.2 ∧ "a" ∈ (shape_plan (node "b" [("a", sighted)] None)).2.2).
Proof.
  refine (one_side_dials (node "a" [("b", sighted)] None) (node "b" [("a", sighted)] None) sighted sighted demo_topology_lawful
    eq_refl eq_refl _ _ eq_refl _ eq_refl eq_refl eq_refl eq_refl eq_refl eq_refl eq_refl); [done|by left|by left].
Defined.

Lemma shelving_settles_witness :
  let n := node "a" [("b", live); ("pinned", live); ("c", sighted)] None in
  reevaluate_topology (reevaluate_topology n).1 = ((reevaluate_topology n).1, []) ∧ (reevaluate_topology n).2 = [("b", true)].
Proof.
  split; [|reflexivity]. refine (proj2 (proj2 (shelving_settles (node "a" [("b", live); ("pinned", live); ("c", sighted)] None) _ _ eq_refl _))).
  apply surjective_pairing.
Defined.

Lemma shaping_is_justified_witness :
  let n := node "a" [("b", sighted)] None in
  let r := mkRechecks (λ _, false) (λ _, true) (λ _, true) in
  sticky_now r "b" = true ∧ ∃ p, ("b", p) ∈ peers n ∧ has_session p = false ∧ String.compare "a" "b" = Lt ∧
    (edge (topology n) "a" "b" (known_ids n) = true ∧ false = false ∨ "b" ∈ sticky n).
Proof.
  split; [done|]. refine (proj2 (proj2 (shaping_is_justified (node "a" [("b", sighted)] None) (mkRechecks (λ _, false) (λ _, true) (λ _, true))
    (node "a" [("b", sighted)] None) [] [EnsureSession "b"] eq_refl) "b" _)). by left.
Defined.

Lemma every_edge_is_dialed_witness : "c" ∈ dial_passes 2 (Some (1, 2)) 7 ["a"; "b"; "c"].
Proof. refine (proj1 (every_edge_is_dialed 2 1 2 7 ["a"; "b"; "c"] _ _) "c" _); [lia|cbn; lia|set_solver]. Defined.

Lemma dial_fan_out_is_bounded_witness : length (in_flight (start_dials (Some (1, 2)) ["a"; "b"])) ≤ 1.
Proof. refine (proj1 (dial_fan_out_is_bounded (Some (1, 2)) ["a"; "b"] (start_dials (Some (1, 2)) ["a"; "b"]) _ _)); [cbn; lia|done]. Defined.
