(* ===== verification/UnitAssembly.v ===== *)
(** * Real-time unit assembly

    Models crates/myownmesh-core/src/transport/webrtc/unit_assembly.rs: units are
    reassembled from RTP packets that arrive late, twice, out of order or not at
    all.  Payloads of the current timestamp collect under their unwrapped sequence
    number, and a unit is emitted when the chain from its first packet to its
    marker packet has no hole.  What the bytes mean is the business of a codec, the
    trait [RealtimeUnitFraming]; it is a class here, with laws that the H.264
    framing satisfies.

    The flow an assembler accounts against lives in the transport's registry.  What
    it answers to the four questions a push can ask is an argument of [push], so the
    theorems hold whatever it answers.  Unwrapped positions are integers ([i64] in the
    source): [unwrapped_bounded] bounds them. *)

From S2P Require Import Prelude Ranking Bytes.
Local Open Scope Z_scope.

Inductive TransportError : Type :=
| OutputLengthOverflow | ShortPacket | TruncatedStapALength | StapAUnitExceedsPacket
| NalTypeNotHandled (nalu_type : Z) | ValidatedPayloadChanged | ValidatedLengthChanged
| ByteEnvelopeExceeded
(** An index or slice out of range, which panics in the source. *)
| IndexOutOfRange.

#[export] Instance transport_error_eq_dec : EqDecision TransportError.
Proof. solve_decision. Defined.

(** ** One unit's fragment chain *)
Record UnitFragments : Type := mkFragments { uf_parts : gmap Z bytes; uf_start : Z; uf_end : Z }.

(** [BTreeMap::range(low..=high)] for [low <= high]: the entries in key order. *)
Definition range_of (parts : gmap Z bytes) (low high : Z) : list (Z * bytes) :=
  omap (λ k, pair k <$> parts !! k) (seqZ low (high - low + 1)).

Definition fragments_iter (u : UnitFragments) : list (Z * bytes) := range_of (uf_parts u) (uf_start u) (uf_end u).

Definition between (u : UnitFragments) (from to : Z) : list bytes :=
  let low := Z.max from (uf_start u) in
  let high := Z.min to (uf_end u) in
  if low <=? high then (range_of (uf_parts u) low high).*2 else [].

(** ** The codec's half *)
Class RealtimeUnitFraming : Type := {
  payload_starts_unit : bytes → bool;
  framed_len : UnitFragments → result TransportError Z;
  write_framed : UnitFragments → Z → result TransportError bytes;
  is_entry_point : bytes → bool;
}.

(** Two chains a framing cannot tell apart: it reads a chain through its iterators
    only. *)
Definition same_chain (u v : UnitFragments) : Prop :=
  uf_start u = uf_start v ∧ uf_end u = uf_end v ∧
  ∀ k, uf_start u ≤ k ≤ uf_end u → uf_parts u !! k = uf_parts v !! k.

(** What the assembler relies on: the answers depend on the chain alone, and the
    second phase builds exactly what the first one measured. *)
Class RealtimeUnitFramingLaws `{!RealtimeUnitFraming} : Prop := {
  law_framed_len u v : same_chain u v → framed_len u = framed_len v;
  law_write_framed u v n : same_chain u v → write_framed u n = write_framed v n;
  law_two_phases u n : framed_len u = Ok n → ∃ data, write_framed u n = Ok data ∧ Z.of_nat (length data) = n;
}.

(** ** The assembler *)

(** The fields of [webrtc::rtp::packet::Packet] that are read. *)
Record Packet : Type := mkPacket {
  sequence_number : Z;
  rtp_timestamp : Z;
  marker : bool;
  payload : bytes;
}.

(** The funding of the fragments held: [RealtimeAssemblyReservation]. *)
Record Reservation : Type := mkReservation { retained_bytes : Z; retained_fragments : Z }.

(** What the flow answers during one push: it is open, it begins a unit, it leases
    the fragment, it is open and leases the output. *)
Record FlowAnswers : Type := mkAnswers {
  port_open : bool;
  unit_begun : bool;
  fragment_leased : bool;
  output_leased : bool;
}.

Definition granting : FlowAnswers := mkAnswers true true true true.

Definition begin_unit (f : FlowAnswers) : option Reservation :=
  if unit_begun f then Some (mkReservation 0 0) else None.

Definition retain_ordered_fragment (f : FlowAnswers) (r : Reservation) (size : Z) : option Reservation :=
  fragment_count ← checked_add usize_max (retained_fragments r) 1;
  unit_bytes ← checked_add usize_max (retained_bytes r) size;
  if fragment_leased f then Some (mkReservation unit_bytes fragment_count) else None.

(** [output] is the length of the output reservation that travels with the unit. *)
Record AssembledUnit : Type := mkUnit {
  au_timestamp : Z;
  entry_point : bool;
  data : bytes;
  output : option Z;
}.

Record RealtimeUnitAssembler : Type := mkAssembler {
  timestamp : Z;
  parts : gmap Z bytes;
  marker_seq : option Z;
  prev_end : option Z;
  last_seq : option (Z * Z);
  assembly : option Reservation;
}.

Definition empty_assembler : RealtimeUnitAssembler := mkAssembler 0 ∅ None None None None.

(** The entry with the lowest key: [parts.iter().next()]. *)
Definition lower (x : Z * bytes) (acc : option (Z * bytes)) : option (Z * bytes) :=
  match acc with Some y => if x.1 <? y.1 then Some x else acc | None => Some x end.
Definition first_part (m : gmap Z bytes) : option (Z * bytes) := foldr lower None (map_to_list m).

Definition newer_rtp_ts (a b : Z) : bool := negb (a =? b) && (wrapping_sub 32 a b <? u32_max / 2).

(** The position of a raw sequence number on an unbounded line, and the next anchor. *)
Definition unwrap_seq (last : option (Z * Z)) (raw : Z) : Z * option (Z * Z) :=
  match last with
  | None => (raw, Some (raw, raw))
  | Some (last_raw, last_unwrapped) =>
      let delta := as_signed 16 (wrapping_sub 16 raw last_raw) in
      let unwrapped := last_unwrapped + delta in
      (unwrapped, if 0 <? delta then Some (raw, unwrapped) else last)
  end.

Definition clear_current (a : RealtimeUnitAssembler) : RealtimeUnitAssembler :=
  mkAssembler (timestamp a) ∅ (marker_seq a) (prev_end a) (last_seq a) None.

(** The unit is over, and the next one anchors at [anchor] if there is one. *)
Definition consumed (a : RealtimeUnitAssembler) (anchor : option Z) : RealtimeUnitAssembler :=
  mkAssembler (timestamp a) ∅ None anchor (last_seq a) None.

Section assembler.
Context {framing : RealtimeUnitFraming}.

(** Where the unit being collected starts, if that is known. *)
Definition unit_start (a : RealtimeUnitAssembler) : option Z :=
  match prev_end a with
  | Some prev => Some (prev + 1)
  | None =>
      match first_part (parts a) with
      | None => None
      | Some (lo, first) => if payload_starts_unit first then Some lo else None
      end
  end.

(** The tail of [try_emit], once the chain is known to have no hole. *)
Definition emit_chain (f : FlowAnswers) (start last : Z) : op RealtimeUnitAssembler TransportError (option AssembledUnit) := λ a,
  let chain := mkFragments (parts a) start last in
  match framed_len chain with
  | Err error => (consumed a (Some last), Err error)
  | Ok n =>
      let claim := if n =? 0 then Some None else if output_leased f then Some (Some n) else None in
      match claim with
      | None => (consumed a None, Ok None)
      | Some output =>
          (consumed a (Some last),
           built ← write_framed chain n;
           match built with
           | [] => Ok None
           | _ => Ok (Some (mkUnit (timestamp a) (is_entry_point built) built output))
           end)
      end
  end.

Definition try_emit (f : FlowAnswers) : op RealtimeUnitAssembler TransportError (option AssembledUnit) := λ a,
  match marker_seq a with
  | None => (a, Ok None)
  | Some last =>
      match unit_start a with
      | None => (a, Ok None)
      | Some start =>
          if last <? start then (a, Ok None)
          else if Z.of_nat (length (range_of (parts a) start last)) <? last - start + 1 then (a, Ok None)
          else emit_chain f start last a
      end
  end.

(** The switch to the packet's timestamp; [None] for a late packet. *)
Definition enter_timestamp (uninitialised : bool) (ts : Z) (a : RealtimeUnitAssembler) : option RealtimeUnitAssembler :=
  if ts =? timestamp a then Some a
  else if uninitialised || newer_rtp_ts ts (timestamp a) then
    let anchor := if decide (parts a = ∅) then prev_end a else None in
    Some (mkAssembler ts ∅ None anchor (last_seq a) None)
  else None.

(** The fragment is paid for before it is kept. *)
Definition retain_fragment (f : FlowAnswers) (size : Z) : op RealtimeUnitAssembler TransportError bool := λ a,
  if negb (port_open f) then (clear_current a, Ok false)
  else
    match (match assembly a with Some r => Some r | None => begin_unit f end) with
    | None => (clear_current a, Ok false)
    | Some r =>
        match retain_ordered_fragment f r size with
        | None => (mkAssembler (timestamp a) ∅ (marker_seq a) None (last_seq a) None, Err ByteEnvelopeExceeded)
        | Some r' => (mkAssembler (timestamp a) (parts a) (marker_seq a) (prev_end a) (last_seq a) (Some r'), Ok true)
        end
    end.

Definition note_marker (m : bool) (seq : Z) (a : RealtimeUnitAssembler) : RealtimeUnitAssembler :=
  if m then mkAssembler (timestamp a) (parts a) (Some seq) (prev_end a) (last_seq a) (assembly a) else a.
Definition insert_part (seq : Z) (p : bytes) (a : RealtimeUnitAssembler) : RealtimeUnitAssembler :=
  mkAssembler (timestamp a) (<[seq := p]> (parts a)) (marker_seq a) (prev_end a) (last_seq a) (assembly a).

Definition push (f : FlowAnswers) (pkt : Packet) : op RealtimeUnitAssembler TransportError (option AssembledUnit) := λ a,
  if decide (payload pkt = []) then (a, Ok None)
  else
    let uninitialised := bool_decide (last_seq a = None) in
    let '(seq, last) := unwrap_seq (last_seq a) (sequence_number pkt) in
    let a := mkAssembler (timestamp a) (parts a) (marker_seq a) (prev_end a) last (assembly a) in
    match enter_timestamp uninitialised (rtp_timestamp pkt) a with
    | None => (a, Ok None)
    | Some a =>
        if decide (is_Some (parts a !! seq)) then try_emit f (note_marker (marker pkt) seq a)
        else
          match retain_fragment f (Z.of_nat (length (payload pkt))) a with
          | (a, Err error) => (a, Err error)
          | (a, Ok false) => (a, Ok None)
          | (a, Ok true) => try_emit f (note_marker (marker pkt) seq (insert_part seq (payload pkt) a))
          end
    end.

End assembler.

(** ** Ranges of the fragment map *)
Lemma elem_of_range m low high k p : (k, p) ∈ range_of m low high ↔ low ≤ k ≤ high ∧ m !! k = Some p.
Proof.
  unfold range_of. rewrite list_elem_of_omap. setoid_rewrite elem_of_seqZ. split.
  - intros (j & Hj & (q & ? & ?)%fmap_Some). simplify_eq. split; [lia|done].
  - intros [Hk Hp]. exists k. split; [lia|]. by rewrite Hp.
Qed.

Lemma omap_full {A B} (f : A → option B) l : (length l ≤ length (omap f l))%nat → ∀ x, x ∈ l → is_Some (f x).
Proof.
  assert (∀ l, length (omap f l) ≤ length l)%nat as Hle.
  { clear l. induction l as [|y l IH]; cbn; [lia|]. destruct (f y); cbn; lia. }
  induction l as [|y l IH]; cbn; intros Hl x Hx; [set_solver|].
  destruct (f y) eqn:Hy; cbn in Hl; [|specialize (Hle l); lia].
  apply elem_of_cons in Hx as [->|Hx]; [by eexists|]. apply IH; [lia|done].
Qed.

Lemma range_full m low high :
  low ≤ high → high - low + 1 ≤ Z.of_nat (length (range_of m low high)) → ∀ k, low ≤ k ≤ high → is_Some (m !! k).
Proof.
  intros Hl Hc k Hk. unfold range_of in Hc.
  assert (is_Some (pair k <$> m !! k)) as [? H]; [|destruct (m !! k); [by eexists|done]].
  apply (omap_full (λ k, pair k <$> m !! k) (seqZ low (high - low + 1))); [|rewrite elem_of_seqZ; lia].
  rewrite length_seqZ. lia.
Qed.

Lemma length_omap_total {A B} (f : A → option B) l : (∀ x, x ∈ l → is_Some (f x)) → length (omap f l) = length l.
Proof.
  induction l as [|x l IH]; intros H; cbn; [done|]. destruct (H x) as [y Hy]; [by left|]. rewrite Hy. cbn. f_equal.
  apply IH. intros z Hz. apply H. by right.
Qed.

Lemma range_total m low high :
  low ≤ high → (∀ k, low ≤ k ≤ high → is_Some (m !! k)) → Z.of_nat (length (range_of m low high)) = high - low + 1.
Proof.
  intros Hl Hm. unfold range_of. rewrite length_omap_total, length_seqZ; [lia|].
  intros k Hk%elem_of_seqZ. destruct (Hm k) as [p Hp]; [lia|]. rewrite Hp. by eexists.
Qed.

Lemma range_ext m m' low high : (∀ k, low ≤ k ≤ high → m !! k = m' !! k) → range_of m low high = range_of m' low high.
Proof.
  intros H. unfold range_of.
  assert (∀ k, k ∈ seqZ low (high - low + 1) → m !! k = m' !! k) as H' by (intros k Hk%elem_of_seqZ; apply H; lia).
  clear H. induction (seqZ low (high - low + 1)) as [|k l IH]; [done|]. cbn. rewrite (H' k) by (by left).
  destruct (m' !! k); cbn; [f_equal|]; apply IH; intros j Hj; apply H'; by right.
Qed.

Lemma range_snoc m low high :
  low ≤ high → range_of m low high = range_of m low (high - 1) ++ option_list (pair high <$> m !! high).
Proof.
  intros H. unfold range_of. replace (high - low + 1) with (Z.of_nat (S (Z.to_nat (high - low)))) by lia.
  rewrite seqZ_S, omap_app. f_equal; [f_equal; f_equal; lia|]. replace (low + Z.of_nat (Z.to_nat (high - low))) with high by lia.
  cbn. by destruct (m !! high).
Qed.

Lemma range_empty m low high : high < low → range_of m low high = [].
Proof. intros H. unfold range_of. by rewrite seqZ_nil by lia. Qed.

Lemma same_chain_iter u v : same_chain u v → fragments_iter u = fragments_iter v.
Proof. intros (Hs & He & Hm). unfold fragments_iter. rewrite <- Hs, <- He. by apply range_ext. Qed.

Lemma same_chain_between u v from to : same_chain u v → between u from to = between v from to.
Proof.
  intros (Hs & He & Hm). unfold between. rewrite <- Hs, <- He. case_match; [|done]. f_equal. apply range_ext. intros k Hk. apply Hm. lia.
Qed.

Lemma first_part_Some m lo p : first_part m = Some (lo, p) → m !! lo = Some p ∧ ∀ k, is_Some (m !! k) → lo ≤ k.
Proof.
  unfold first_part. intros H.
  assert (∀ l, match foldr lower None l with
               | Some x => x ∈ l ∧ ∀ y, y ∈ l → x.1 ≤ y.1
               | None => l = [] end) as Hf.
  { induction l as [|x l IH]; cbn; [done|]. destruct (foldr lower None l) as [y|]; cbn.
    - destruct IH as [Hy Hmin]. destruct (Z.ltb_spec x.1 y.1); (split; [by constructor|]).
      + intros z [->|Hz]%elem_of_cons; [lia|]. specialize (Hmin z Hz). lia.
      + intros z [->|Hz]%elem_of_cons; [lia|auto].
    - subst. split; [by left|]. intros z [->|Hz]%elem_of_cons; [lia|set_solver]. }
  specialize (Hf (map_to_list m)). rewrite H in Hf. destruct Hf as [Hin Hmin].
  split; [by apply elem_of_map_to_list|]. intros k [q Hq]. apply elem_of_map_to_list in Hq. exact (Hmin _ Hq).
Qed.

(** ** Sequence numbers and timestamps *)
Lemma as_signed_wrapping x y : - 2 ^ 15 ≤ x - y < 2 ^ 15 → as_signed 16 (wrapping_sub 16 x y) = x - y.
Proof.
  unfold as_signed, wrapping_sub. change (2 ^ (16 - 1)) with 32768. change (2 ^ 16) with 65536. change (2 ^ 15) with 32768. intros H.
  destruct (Z.le_gt_cases 0 (x - y)).
  - rewrite Z.mod_small by lia. destruct (Z.ltb_spec (x - y) 32768); lia.
  - replace ((x - y) mod 65536) with (x - y + 65536) by (rewrite <- (Z.mod_small (x - y + 65536) 65536) by lia;
      rewrite <- (Z_mod_plus_full (x - y) 1 65536); f_equal; lia).
    destruct (Z.ltb_spec (x - y + 65536) 32768); lia.
Qed.

Lemma as_signed_bound x y : - 2 ^ 15 ≤ as_signed 16 (wrapping_sub 16 x y) < 2 ^ 15.
Proof.
  unfold as_signed, wrapping_sub. change (2 ^ (16 - 1)) with 32768. change (2 ^ 16) with 65536. change (2 ^ 15) with 32768.
  pose proof (Z.mod_pos_bound (x - y) 65536). destruct (Z.ltb_spec ((x - y) mod 65536) 32768); lia.
Qed.

Lemma wrapping_sub_mod x y : wrapping_sub 16 (x mod 2 ^ 16) (y mod 2 ^ 16) = wrapping_sub 16 x y.
Proof. unfold wrapping_sub. by rewrite <- Zminus_mod. Qed.

Lemma newer_neq a b : newer_rtp_ts a b = true → a ≠ b.
Proof. unfold newer_rtp_ts. intros [H _]%andb_true_iff. by apply negb_true_iff, Z.eqb_neq in H. Qed.

Lemma newer_asym a b : in_u u32_max a → in_u u32_max b → newer_rtp_ts a b = true → newer_rtp_ts b a = false.
Proof.
  intros Ha Hb H. pose proof (newer_neq _ _ H) as Hn. unfold newer_rtp_ts in *. apply andb_true_iff in H as [_ H]. apply Z.ltb_lt in H.
  apply andb_false_iff. right. apply Z.ltb_ge. unfold wrapping_sub, u32_max, in_u in *.
  change ((2 ^ 32 - 1) / 2) with 2147483647 in *. change (2 ^ 32) with 4294967296 in *.
  destruct (Z.le_gt_cases b a).
  - rewrite Z.mod_small in H by lia. rewrite <- (Z_mod_plus_full (b - a) 1), Z.mod_small by lia. lia.
  - rewrite <- (Z_mod_plus_full (a - b) 1), Z.mod_small in H by lia. rewrite Z.mod_small by lia. lia.
Qed.

(** ** What an emission is *)
Section emission.
Context {framing : RealtimeUnitFraming}.
Implicit Types (a : RealtimeUnitAssembler) (f : FlowAnswers).

(** [try_emit] is about to frame the chain from [start] to [last]. *)
Record complete_chain a (start last : Z) : Prop := {
  chain_marker : marker_seq a = Some last;
  chain_start : unit_start a = Some start;
  chain_order : start ≤ last;
  chain_full : ∀ k, start ≤ k ≤ last → is_Some (parts a !! k);
}.

Lemma try_emit_cases f a :
  (∃ start last, complete_chain a start last ∧ try_emit f a = emit_chain f start last a) ∨
  (¬ (∃ start last, complete_chain a start last) ∧ try_emit f a = (a, Ok None)).
Proof.
  unfold try_emit. destruct (marker_seq a) as [last|] eqn:Hm.
  2: { right. split; [|done]. intros (s & e & [? _ _ _]). congruence. }
  destruct (unit_start a) as [start|] eqn:Hs.
  2: { right. split; [|done]. intros (s & e & [_ ? _ _]). congruence. }
  destruct (Z.ltb_spec last start) as [Hl|Hl].
  { right. split; [|done]. intros (s & e & [? ? ? _]). simplify_eq. lia. }
  destruct (Z.ltb_spec (Z.of_nat (length (range_of (parts a) start last))) (last - start + 1)) as [Hc|Hc].
  - right. split; [|done]. intros (s & e & [? ? ? Hf]). simplify_eq. rewrite range_total in Hc by done. lia.
  - left. exists start, last. split; [|done]. split; [done..|]. by apply range_full.
Qed.

(** The state after an emission, and the unit it gives. *)
Lemma emit_chain_cases f start last a :
  ∃ anchor r, emit_chain f start last a = (consumed a anchor, r) ∧
    (anchor = Some last ∨ anchor = None ∧ output_leased f = false) ∧
    ∀ u, r = Ok (Some u) → anchor = Some last ∧ au_timestamp u = timestamp a ∧ data u ≠ [] ∧
      entry_point u = is_entry_point (data u) ∧
      ∃ n, framed_len (mkFragments (parts a) start last) = Ok n ∧
        write_framed (mkFragments (parts a) start last) n = Ok (data u) ∧
        output u = (if n =? 0 then None else Some n).
Proof.
  unfold emit_chain. destruct (framed_len _) as [n|e]; [|eexists _, _; split; [done|]; split; [by left|done]].
  destruct (Z.eqb_spec n 0) as [->|Hn]; [|destruct (output_leased f)]; (eexists _, _; split; [done|]); (split; [auto|]); [..|done].
  all: intros u Hu; destruct (write_framed _ _) as [[|b l]|] eqn:Hw; cbn in Hu; simplify_eq; cbn.
  all: repeat split; try done; eexists; repeat split; eauto.
  by rewrite (proj2 (Z.eqb_neq _ _)).
Qed.

(** Whatever happens, the state after [try_emit] is the old one or a fresh unit. *)
Lemma try_emit_state f a : (try_emit f a).1 = a ∨ ∃ anchor, (try_emit f a).1 = consumed a anchor.
Proof.
  destruct (try_emit_cases f a) as [(s & e & _ & ->)|[_ ->]]; [right|by left].
  destruct (emit_chain_cases f s e a) as (anchor & r & -> & _). by exists anchor.
Qed.

(** ** Every byte held is a byte reserved *)
Definition funded a : Prop :=
  match assembly a with
  | None => parts a = ∅
  | Some r => retained_bytes r = msum (λ p, Z.of_nat (length p)) (parts a) ∧
              retained_fragments r = Z.of_nat (size (parts a)) ∧ retained_bytes r ≤ usize_max ∧ retained_fragments r ≤ usize_max
  end.

Lemma try_emit_funded f a : funded a → funded (try_emit f a).1.
Proof. intros Ha. by destruct (try_emit_state f a) as [->|[? ->]]. Qed.

Lemma note_marker_funded m seq a : funded a → funded (note_marker m seq a).
Proof. by destruct m. Qed.

Lemma enter_funded b ts a a' : enter_timestamp b ts a = Some a' → funded a → funded a'.
Proof. unfold enter_timestamp. intros H Ha. run_cases; done. Qed.

Lemma retain_funded f p seq a a' :
  retain_fragment f (Z.of_nat (length p)) a = (a', Ok true) → parts a !! seq = None → funded a → funded (insert_part seq p a').
Proof.
  unfold retain_fragment, retain_ordered_fragment. intros H Hk Ha. destruct (port_open f); [|done]. cbn in H.
  destruct (match assembly a with Some r => Some r | None => begin_unit f end) as [r|] eqn:Hr; [|done].
  assert (retained_bytes r = msum (λ p, Z.of_nat (length p)) (parts a) ∧ retained_fragments r = Z.of_nat (size (parts a))) as [Hb Hc].
  { unfold funded, begin_unit in *. destruct (assembly a); [simplify_eq; tauto|]. rewrite Ha, msum_empty, map_size_empty.
    destruct (unit_begun f); by simplify_eq. }
  destruct (checked_add _ _ 1) eqn:?; [|done]. destruct (checked_add _ _ (Z.of_nat _)) eqn:?; [|done]. cbn in H.
  destruct (fragment_leased f); simplify_eq. z_norm. subst. unfold funded. cbn.
  rewrite msum_insert, map_size_insert_None by done. lia.
Qed.

Lemma retain_refused f size a a' r : retain_fragment f size a = (a', r) → r ≠ Ok true → parts a' = ∅ ∧ assembly a' = None.
Proof. unfold retain_fragment. intros H Hr. run_cases; done. Qed.

Lemma push_funded f pkt a : funded a → funded (push f pkt a).1.
Proof.
  intros Ha. unfold push. destruct (decide _) as [|_]; [done|]. destruct (unwrap_seq _ _) as [seq last].
  destruct (enter_timestamp _ _ _) as [a1|] eqn:He; [|done]. apply enter_funded in He; [|done].
  destruct (decide _) as [_|Hk]; [by apply try_emit_funded, note_marker_funded|]. rewrite <- eq_None_not_Some in Hk.
  destruct (retain_fragment f _ a1) as [a2 [[]|e]] eqn:Hr.
  - by eapply try_emit_funded, note_marker_funded, retain_funded.
  - apply retain_refused in Hr as [Hp Hn]; [|done]. unfold funded. cbn. by rewrite Hn.
  - apply retain_refused in Hr as [Hp Hn]; [|done]. unfold funded. cbn. by rewrite Hn.
Qed.

(** The packets of a run, with what the flow answers at each. *)
Fixpoint run_packets (l : list (FlowAnswers * Packet)) a : RealtimeUnitAssembler * list (result TransportError (option AssembledUnit)) :=
  match l with
  | [] => (a, [])
  | (f, pkt) :: l => let '(a, r) := push f pkt a in let '(a, rs) := run_packets l a in (a, r :: rs)
  end.

Lemma run_packets_cons f pkt l a :
  run_packets ((f, pkt) :: l) a = ((run_packets l (push f pkt a).1).1, (push f pkt a).2 :: (run_packets l (push f pkt a).1).2).
Proof. cbn. destruct (push f pkt a) as [a' r]. cbn. by destruct (run_packets l a'). Qed.

Lemma run_packets_invariant (P : RealtimeUnitAssembler → Prop) l a :
  P a → (∀ f pkt a, (f, pkt) ∈ l → P a → P (push f pkt a).1) → P (run_packets l a).1.
Proof.
  revert a. induction l as [|[f pkt] l IH]; intros a Ha Hp; [done|]. rewrite run_packets_cons. cbn.
  apply IH; [apply Hp; [by left|done]|]. intros f' pkt' a' Hin. apply Hp. by right.
Qed.

(** C23: Whatever a peer sends and whatever the flow answers, the fragments held are
    exactly the ones reserved: none is held without a reservation, and the reserved
    bytes and fragments are the held ones. *)
Theorem fragments_held_are_funded l : funded (run_packets l empty_assembler).1.
Proof. apply run_packets_invariant; [done|]. intros. by apply push_funded. Qed.

(** ** Positions stay far from the ends of [i64] *)
Definition positions_below a (b : Z) : Prop :=
  (∀ raw hi, last_seq a = Some (raw, hi) → in_u u16_max raw ∧ 0 ≤ hi ≤ b) ∧
  (∀ k, is_Some (parts a !! k) ∨ marker_seq a = Some k ∨ prev_end a = Some k → - 2 ^ 15 ≤ k ≤ b).

Lemma try_emit_positions f a b : positions_below a b → positions_below (try_emit f a).1 b.
Proof.
  intros [Hl Hp]. destruct (try_emit_cases f a) as [(s & e & [Hm _ _ _] & ->)|[_ ->]]; [|done].
  destruct (emit_chain_cases f s e a) as (anchor & r & -> & Ha & _). split; [done|]. cbn.
  intros k [[? ?]|[?|?]]; [set_solver|done|]. destruct Ha as [->|[-> _]]; simplify_eq. apply Hp. auto.
Qed.

Lemma note_marker_positions m seq a b : - 2 ^ 15 ≤ seq ≤ b → positions_below a b → positions_below (note_marker m seq a) b.
Proof. intros Hs [Hl Hp]. destruct m; [|done]. split; [done|]. cbn. intros k [?|[?|?]]; simplify_eq; [apply Hp; auto|done|apply Hp; auto]. Qed.

Lemma insert_part_positions seq p a b : - 2 ^ 15 ≤ seq ≤ b → positions_below a b → positions_below (insert_part seq p a) b.
Proof.
  intros Hs [Hl Hp]. split; [done|]. cbn. intros k [Hk|Hk]; [|apply Hp; auto].
  destruct (decide (k = seq)) as [->|Hn]; [done|]. rewrite lookup_insert_ne in Hk by done. apply Hp. auto.
Qed.

Lemma enter_positions u ts a a' b : enter_timestamp u ts a = Some a' → positions_below a b → positions_below a' b.
Proof.
  unfold enter_timestamp. intros H [Hl Hp]. run_cases; split; try done; cbn; intros k [[? ?]|[?|?]]; try set_solver; try done; apply Hp; auto.
Qed.

Lemma retain_positions f size a b : positions_below a b → positions_below (retain_fragment f size a).1 b.
Proof.
  unfold retain_fragment. intros [Hl Hp]. run_cases; split; try done; cbn; intros k [[? ?]|[?|?]]; try set_solver; try done; apply Hp; eauto.
Qed.

Lemma unwrap_seq_positions a b raw seq last :
  in_u u16_max raw → u16_max ≤ b → positions_below a b → unwrap_seq (last_seq a) raw = (seq, last) →
  (∀ raw hi, last = Some (raw, hi) → in_u u16_max raw ∧ 0 ≤ hi ≤ b + 2 ^ 15) ∧ - 2 ^ 15 ≤ seq ≤ b + 2 ^ 15.
Proof.
  unfold unwrap_seq, in_u. intros Hr Hb [Hl _] H. destruct (last_seq a) as [[lr lu]|].
  - destruct (Hl lr lu eq_refl) as [Hlr ?]. unfold in_u in Hlr. pose proof (as_signed_bound raw lr). simplify_eq.
    change (2 ^ 15) with 32768 in *. split; [|lia]. intros raw' hi Hh. case_match eqn:Hd; simplify_eq; [|lia]. z_norm. lia.
  - simplify_eq. change (2 ^ 15) with 32768 in *. split; [|lia]. intros raw' hi Hh. simplify_eq. lia.
Qed.

Lemma push_positions f pkt a b :
  in_u u16_max (sequence_number pkt) → u16_max ≤ b → positions_below a b → positions_below (push f pkt a).1 (b + 2 ^ 15).
Proof.
  intros Hr Hb Ha. assert (positions_below a (b + 2 ^ 15)) as Ha'.
  { destruct Ha as [Hl Hp]. split; [intros ? ? [? ?]%Hl; split; [done|lia]|intros k H%Hp; lia]. }
  unfold push. destruct (decide _) as [|_]; [done|]. destruct (unwrap_seq _ _) as [seq last] eqn:Hu.
  destruct (unwrap_seq_positions _ _ _ _ _ Hr Hb Ha Hu) as [Hl Hs].
  assert (positions_below (mkAssembler (timestamp a) (parts a) (marker_seq a) (prev_end a) last (assembly a)) (b + 2 ^ 15)) as H1.
  { split; [done|]. apply Ha'. }
  destruct (enter_timestamp _ _ _) as [a1|] eqn:He; [|done]. apply enter_positions with (b := b + 2 ^ 15) in He; [|done].
  destruct (decide _) as [_|_]; [by apply try_emit_positions, note_marker_positions|].
  pose proof (retain_positions f (Z.of_nat (length (payload pkt))) a1 _ He) as Hr2.
  destruct (retain_fragment f _ a1) as [a2 [[]|e]]; [|done|done].
  by apply try_emit_positions, note_marker_positions, insert_part_positions.
Qed.

(** After [n] packets every position an assembler works with lies between [-2^15]
    and [2^16 + 2^15 n]: the [i64] arithmetic on them cannot overflow before 2^47
    packets. *)
Theorem unwrapped_bounded l :
  Forall (λ x, in_u u16_max (sequence_number x.2)) l →
  positions_below (run_packets l empty_assembler).1 (2 ^ 16 + 2 ^ 15 * Z.of_nat (length l)).
Proof.
  assert (∀ a b, u16_max ≤ b → positions_below a b → Forall (λ x, in_u u16_max (sequence_number x.2)) l →
    positions_below (run_packets l a).1 (b + 2 ^ 15 * Z.of_nat (length l))) as Hrun.
  { induction l as [|[f pkt] l IH]; intros a b Hb Ha Hl; [cbn; by rewrite Z.mul_0_r, Z.add_0_r|]. rewrite run_packets_cons. cbn [fst length].
    apply Forall_cons in Hl as [Hx Hl]. rewrite Nat2Z.inj_succ, Z.mul_succ_r, (Z.add_comm _ (2 ^ 15)), Z.add_assoc.
    apply IH; [lia| |done]. by apply push_positions. }
  intros Hl. apply Hrun; [unfold u16_max; lia| |done]. split; [done|]. cbn. intros k [[? ?]|[?|?]]; [set_solver|done..].
Qed.

End emission.
