(* ===== verification/H264.v ===== *)
(** * H.264 framing

    Models crates/myownmesh-core/src/transport/webrtc/h264.rs: the Annex-B framing
    of a complete chain of RTP payloads.  The length is computed first, the output is
    reserved against it and only then written, so the two passes must agree:
    [annexb_matches_reference] relates both to a definition that just lists the NAL
    units, and the framing satisfies the laws the assembler asks for. *)

From S2P Require Import Prelude Ranking Bytes UnitAssembly.
Local Open Scope Z_scope.

Definition value (b : Ascii.ascii) : Z := Z.of_N (Ascii.N_of_ascii b).
Definition len (p : bytes) : Z := Z.of_nat (length p).

Definition ANNEXB_START_CODE : bytes := [u8 0; u8 0; u8 0; u8 1].

(** [p[i]] and [p[i..j]]. *)
Definition get (p : bytes) (i : Z) : result TransportError Z := ok_or IndexOutOfRange (value <$> p !! Z.to_nat i).
Definition get_range (p : bytes) (i j : Z) : result TransportError bytes :=
  if (i <=? j) && (j <=? len p) then Ok (take (Z.to_nat (j - i)) (drop (Z.to_nat i) p)) else Err IndexOutOfRange.

Definition add_output_len (total size : Z) : result TransportError Z :=
  ok_or OutputLengthOverflow (checked_add usize_max total size).

(** A fold whose steps can fail. *)
Fixpoint try_fold {A S} (step : S → A → result TransportError S) (l : list A) (s : S) : result TransportError S :=
  match l with
  | [] => Ok s
  | x :: l => s ← step s x; try_fold step l s
  end.

(** ** First pass: validation and length *)

(** The aggregation loop; every round moves past at least two bytes. *)
Fixpoint stap_len (fuel : nat) (p : bytes) (offset output_len : Z) : result TransportError Z :=
  match fuel with
  | O => Ok output_len
  | S fuel =>
      if offset <? len p then
        length_end ← ok_or OutputLengthOverflow (checked_add usize_max offset 2);
        if len p <? length_end then Err TruncatedStapALength
        else
          hi ← get p offset;
          lo ← get p (offset + 1);
          let nalu_len := Z.lor (Z.shiftl hi 8) lo in
          nalu_end ← ok_or OutputLengthOverflow (checked_add usize_max length_end nalu_len);
          if len p <? nalu_end then Err StapAUnitExceedsPacket
          else
            output_len ← add_output_len output_len (len ANNEXB_START_CODE);
            output_len ← add_output_len output_len nalu_len;
            stap_len fuel p nalu_end output_len
      else Ok output_len
  end.

Definition len_step (s : Z * option Z) (p : bytes) : result TransportError (Z * option Z) :=
  let '(output_len, fua_content_bytes) := s in
  if len p <=? 2 then Err ShortPacket
  else
    b0 ← get p 0;
    let nalu_type := Z.land b0 31 in
    if (1 <=? nalu_type) && (nalu_type <=? 23) then
      output_len ← add_output_len output_len (len ANNEXB_START_CODE);
      output_len ← add_output_len output_len (len p);
      Ok (output_len, fua_content_bytes)
    else if nalu_type =? 24 then
      output_len ← stap_len (length p) p 1 output_len;
      Ok (output_len, fua_content_bytes)
    else if nalu_type =? 28 then
      accumulated ← ok_or OutputLengthOverflow (checked_add usize_max (default 0 fua_content_bytes) (len p - 2));
      b1 ← get p 1;
      if Z.land b1 64 =? 0 then Ok (output_len, Some accumulated)
      else
        output_len ← add_output_len output_len (len ANNEXB_START_CODE);
        output_len ← add_output_len output_len 1;
        output_len ← add_output_len output_len accumulated;
        Ok (output_len, None)
    else Err (NalTypeNotHandled nalu_type).

Definition annexb_output_len (fragments : UnitFragments) : result TransportError Z :=
  s ← try_fold len_step ((fragments_iter fragments).*2) (0, None);
  Ok (s.1).

(** ** Second pass: the output *)
Fixpoint stap_write (fuel : nat) (p : bytes) (offset : Z) (output : bytes) : result TransportError bytes :=
  match fuel with
  | O => Ok output
  | S fuel =>
      if offset <? len p then
        hi ← get p offset;
        lo ← get p (offset + 1);
        let nalu_len := Z.lor (Z.shiftl hi 8) lo in
        let nalu_end := offset + 2 + nalu_len in
        unit ← get_range p (offset + 2) nalu_end;
        stap_write fuel p nalu_end (output ++ ANNEXB_START_CODE ++ unit)
      else Ok output
  end.

(** The contents of the fragments of a run: what is copied at the end fragment. *)
Definition copy_fragment (output : bytes) (p : bytes) : result TransportError bytes :=
  b0 ← get p 0;
  if Z.land b0 31 =? 28 then
    content ← get_range p 2 (len p);
    Ok (output ++ content)
  else Ok output.

Definition write_step (fragments : UnitFragments) (s : bytes * option Z) (x : Z * bytes) : result TransportError (bytes * option Z) :=
  let '(output, fua_start) := s in
  let '(cursor, p) := x in
  b0 ← get p 0;
  let nalu_type := Z.land b0 31 in
  if (1 <=? nalu_type) && (nalu_type <=? 23) then Ok (output ++ ANNEXB_START_CODE ++ p, fua_start)
  else if nalu_type =? 24 then
    output ← stap_write (length p) p 1 output;
    Ok (output, fua_start)
  else if nalu_type =? 28 then
    let chain_start := default cursor fua_start in
    b1 ← get p 1;
    if Z.land b1 64 =? 0 then Ok (output, Some chain_start)
    else
      let output := output ++ ANNEXB_START_CODE ++ [u8 (Z.lor (Z.land b0 96) (Z.land b1 31))] in
      output ← try_fold copy_fragment (between fragments chain_start cursor) output;
      Ok (output, None)
  else Err ValidatedPayloadChanged.

Definition write_annexb_output (fragments : UnitFragments) (output_len : Z) : result TransportError bytes :=
  s ← try_fold (write_step fragments) (fragments_iter fragments) ([], None);
  if negb (len s.1 =? output_len) then Err ValidatedLengthChanged else Ok (s.1).

(** ** Where a unit can begin, and whether it is an entry point *)
Definition payload_starts_au (p : bytes) : bool :=
  match p with
  | [] => false
  | b0 :: rest =>
      let t := Z.land (value b0) 31 in
      if (1 <=? t) && (t <=? 23) then true
      else if t =? 24 then true
      else if t =? 28 then match rest with b1 :: _ => negb (Z.land (value b1) 128 =? 0) | [] => false end
      else false
  end.

(** The types the iterator yields from here on: [d] is the data from the index [i]. *)
Fixpoint annexb_nal_types (d : bytes) : list Z :=
  match d with
  | b0 :: ((b1 :: ((b2 :: r2) as d2)) as d1) =>
      if (value b0 =? 0) && (value b1 =? 0) then
        if value b2 =? 1 then
          match r2 with
          | t :: r3 => Z.land (value t) 31 :: annexb_nal_types r3
          | [] => []
          end
        else
          match r2 with
          | b3 :: r3 =>
              if (value b2 =? 0) && (value b3 =? 1) then
                match r3 with
                | t :: r4 => Z.land (value t) 31 :: annexb_nal_types r4
                | [] => []
                end
              else annexb_nal_types d1
          | [] => annexb_nal_types d1
          end
      else annexb_nal_types d1
  | _ => []
  end.

Definition au_has_idr (d : bytes) : bool := existsb (λ t, t =? 5) (annexb_nal_types d).

#[export] Instance H264Framing : RealtimeUnitFraming := {|
  payload_starts_unit := payload_starts_au;
  framed_len := annexb_output_len;
  write_framed := write_annexb_output;
  is_entry_point := au_has_idr;
|}.

(** ** Reference: the NAL units of a chain *)
Fixpoint stap_units (fuel : nat) (d : bytes) : option (list bytes) :=
  match fuel, d with
  | _, [] => Some []
  | S fuel, hi :: lo :: r =>
      let n := Z.to_nat (256 * value hi + value lo) in
      if (n <=? length r)%nat then cons (take n r) <$> stap_units fuel (drop n r) else None
  | _, _ => None
  end.

(** The units completed so far and the contents of an open fragmentation run. *)
Definition ref_step (s : list bytes * option bytes) (p : bytes) : option (list bytes * option bytes) :=
  let '(nals, pending) := s in
  match p with
  | b0 :: b1 :: (_ :: _) as content =>
      let t := Z.land (value b0) 31 in
      if (1 <=? t) && (t <=? 23) then Some (nals ++ [p], pending)
      else if t =? 24 then units ← stap_units (length p) (tail p); Some (nals ++ units, pending)
      else if t =? 28 then
        let run := default [] pending ++ drop 2 p in
        if Z.testbit (value b1) 6
        then Some (nals ++ [u8 (Z.lor (Z.land (value b0) 96) (Z.land (value b1) 31)) :: run], None)
        else Some (nals, Some run)
      else None
  | _ => None
  end.

Fixpoint ref_fold (l : list bytes) (s : list bytes * option bytes) : option (list bytes * option bytes) :=
  match l with
  | [] => Some s
  | p :: l => s ← ref_step s p; ref_fold l s
  end.

Definition nal_units (payloads : list bytes) : option (list bytes) := fst <$> ref_fold payloads ([], None).

Definition annexb (nals : list bytes) : bytes := concat (app ANNEXB_START_CODE <$> nals).

#[global] Arguments annexb : simpl never.
#[global] Arguments len : simpl never.

(** *** Bytes *)
Lemma value_range b : 0 ≤ value b < 256.
Proof. unfold value. pose proof (Ascii.N_ascii_bounded b). lia. Qed.

Lemma be16_value hi lo : Z.lor (Z.shiftl (value hi) 8) (value lo) = 256 * value hi + value lo.
Proof.
  pose proof (value_range hi). pose proof (value_range lo).
  rewrite Z.shiftl_mul_pow2 by lia. change (2 ^ 8) with 256.
  enough (Z.land (value hi * 256) (value lo) = 0) by (pose proof (Z.add_lor_land (value hi * 256) (value lo)); lia).
  apply Z.bits_inj'. intros n Hn. rewrite Z.land_spec, Z.bits_0. change 256 with (2 ^ 8).
  destruct (Z.lt_ge_cases n 8).
  - by rewrite Z.mul_pow2_bits_low.
  - rewrite (Z.bits_above_log2 (value lo)), andb_false_r; [done|lia|].
    destruct (decide (value lo = 0)) as [->|]; [cbn; lia|]. apply Z.log2_lt_pow2; [lia|].
    apply Z.lt_le_trans with 256; [lia|]. change 256 with (2 ^ 8). apply Z.pow_le_mono_r; lia.
Qed.

Lemma land_bit6 z : (Z.land z 64 =? 0) = negb (Z.testbit z 6).
Proof.
  change 64 with (2 ^ 6). destruct (Z.testbit z 6) eqn:Hb; cbn.
  - apply Z.eqb_neq. intros H. apply (f_equal (λ x, Z.testbit x 6)) in H. rewrite Z.land_spec, Hb in H. done.
  - apply Z.eqb_eq. apply Z.bits_inj'. intros n Hn. rewrite Z.land_spec, Z.bits_0, Z.pow2_bits_eqb by lia.
    destruct (Z.eqb_spec 6 n) as [<-|]; [by rewrite Hb|apply andb_false_r].
Qed.

Lemma len_app p q : len (p ++ q) = len p + len q.
Proof. unfold len. rewrite length_app. lia. Qed.
Lemma len_nonneg p : 0 ≤ len p.
Proof. unfold len. lia. Qed.
Lemma annexb_app l k : annexb (l ++ k) = annexb l ++ annexb k.
Proof. unfold annexb. by rewrite fmap_app, concat_app. Qed.
Lemma annexb_one x : annexb [x] = ANNEXB_START_CODE ++ x.
Proof. unfold annexb. cbn. by rewrite app_nil_r. Qed.

Lemma get_lookup p i b : p !! Z.to_nat i = Some b → get p i = Ok (value b).
Proof. unfold get. by intros ->. Qed.

Lemma add_output_len_Ok x y n : add_output_len x y = Ok n ↔ n = x + y ∧ x + y ≤ usize_max.
Proof.
  unfold add_output_len. rewrite <- checked_add_Some. destruct (checked_add usize_max x y); cbn; split; congruence.
Qed.

Lemma bind_ret {E A B} (a : A) (f : A → result E B) : Ok a ≫= f = f a.
Proof. done. Qed.

(** Follow a computation that succeeded. *)
Ltac bind_ok :=
  repeat match goal with
  | H : (?m ≫= _) = Ok _ |- _ =>
      let E := fresh "E" in destruct m as [?|?] eqn:E; [rewrite bind_ret in H|discriminate H];
      try (unfold ok_or in E; case_match; simplify_eq)
  end; z_norm; subst.

(** *** The aggregation loops *)
Section stap.
Variable p : bytes.

(** Each pass at the offset where [d] is what remains. *)
Lemma stap_round offset hi lo r :
  0 ≤ offset → drop (Z.to_nat offset) p = hi :: lo :: r →
  get p offset = Ok (value hi) ∧ get p (offset + 1) = Ok (value lo) ∧ len p = offset + 2 + len r ∧
  drop (Z.to_nat (offset + 2)) p = r.
Proof.
  intros Ho Hd. assert (Z.to_nat offset < length p)%nat as Hl.
  { destruct (Nat.lt_ge_cases (Z.to_nat offset) (length p)) as [|H]; [done|]. rewrite drop_ge in Hd; [done|lia]. }
  pose proof (f_equal length Hd) as Hlen. rewrite length_drop in Hlen. cbn in Hlen.
  split; [|split; [|split]].
  - apply get_lookup. rewrite <- (Nat.add_0_r (Z.to_nat offset)), <- lookup_drop, Hd. done.
  - apply get_lookup. rewrite Z2Nat.inj_add by lia. rewrite <- lookup_drop, Hd. done.
  - unfold len. lia.
  - rewrite Z2Nat.inj_add, <- drop_drop, Hd by lia. done.
Qed.

Lemma stap_more offset b r : 0 ≤ offset → drop (Z.to_nat offset) p = b :: r → (offset <? len p) = true.
Proof.
  intros Ho Hd. apply Z.ltb_lt. apply (f_equal length) in Hd. rewrite length_drop in Hd. cbn in Hd. unfold len. lia.
Qed.
Lemma stap_done offset : 0 ≤ offset → drop (Z.to_nat offset) p = [] → (offset <? len p) = false.
Proof.
  intros Ho Hd. apply Z.ltb_ge. apply (f_equal length) in Hd. rewrite length_drop in Hd. cbn in Hd. unfold len. lia.
Qed.

Lemma stap_write_units fuel offset output units :
  0 ≤ offset → (length (drop (Z.to_nat offset) p) ≤ fuel)%nat → stap_units fuel (drop (Z.to_nat offset) p) = Some units →
  stap_write fuel p offset output = Ok (output ++ annexb units).
Proof.
  revert offset output units. induction fuel as [|fuel IH]; intros offset output units Ho Hf Hu; cbn.
  { destruct (drop _ p); [|cbn in Hf; lia]. cbn in Hu. simplify_eq. by rewrite app_nil_r. }
  destruct (drop (Z.to_nat offset) p) as [|hi [|lo r]] eqn:Hd; cbn in Hu; simplify_eq.
  { rewrite stap_done by done. by rewrite app_nil_r. }
  rewrite (stap_more _ _ _ Ho Hd).
  destruct (Nat.leb_spec (Z.to_nat (256 * value hi + value lo)) (length r)) as [Hn|]; [|done].
  apply fmap_Some in Hu as (units' & Hu & ->).
  destruct (stap_round offset hi lo r Ho Hd) as (-> & -> & Hl & Hr). cbn. rewrite be16_value.
  pose proof (value_range hi). pose proof (value_range lo). unfold get_range. rewrite Hl.
  rewrite (proj2 (Z.leb_le _ _)) by lia. rewrite (proj2 (Z.leb_le _ _)) by (unfold len; lia). cbn.
  replace (offset + 2 + (256 * value hi + value lo) - (offset + 2)) with (256 * value hi + value lo) by lia.
  assert (drop (Z.to_nat (offset + 2 + (256 * value hi + value lo))) p = drop (Z.to_nat (256 * value hi + value lo)) r) as Hnext.
  { rewrite Z2Nat.inj_add, <- drop_drop, Hr by lia. done. }
  rewrite (IH _ _ units'); [|lia| |by rewrite Hnext].
  - rewrite Hr. by rewrite <- app_assoc.
  - rewrite Hnext, length_drop. cbn in Hf. lia.
Qed.

Lemma len_unit n r units :
  (Z.to_nat n ≤ length r)%nat → 0 ≤ n → len (annexb (take (Z.to_nat n) r :: units)) = 4 + n + len (annexb units).
Proof.
  intros Hn H0. change (annexb (?x :: units)) with ((ANNEXB_START_CODE ++ x) ++ annexb units). rewrite !len_app.
  unfold len at 2. rewrite length_take. change (len ANNEXB_START_CODE) with 4. lia.
Qed.

Lemma stap_next offset hi lo r :
  0 ≤ offset → drop (Z.to_nat offset) p = hi :: lo :: r →
  drop (Z.to_nat (offset + 2 + (256 * value hi + value lo))) p = drop (Z.to_nat (256 * value hi + value lo)) r.
Proof.
  intros Ho Hd. destruct (stap_round offset hi lo r Ho Hd) as (_ & _ & _ & Hr).
  pose proof (value_range hi). pose proof (value_range lo). rewrite Z2Nat.inj_add, <- drop_drop, Hr by lia. done.
Qed.

(** An accepted aggregate is one the reference reads. *)
Lemma stap_len_Ok fuel offset total n :
  0 ≤ offset → (length (drop (Z.to_nat offset) p) ≤ fuel)%nat → stap_len fuel p offset total = Ok n →
  ∃ units, stap_units fuel (drop (Z.to_nat offset) p) = Some units ∧ n = total + len (annexb units).
Proof.
  revert offset total. induction fuel as [|fuel IH]; intros offset total Ho Hf H.
  { destruct (drop _ p); [|cbn in Hf; lia]. cbn in *. simplify_eq. exists []. split; [done|]. change (len (annexb [])) with 0. lia. }
  cbn [stap_len] in H.
  destruct (drop (Z.to_nat offset) p) as [|hi [|lo r]] eqn:Hd; rewrite ?stap_done in H by done; rewrite ?(stap_more _ _ _ Ho Hd) in H.
  - simplify_eq. exists []. split; [done|]. change (len (annexb [])) with 0. lia.
  - exfalso. bind_ok. apply (f_equal length) in Hd. rewrite length_drop in Hd. cbn in Hd.
    unfold len in *. lia.
  - destruct (stap_round offset hi lo r Ho Hd) as (H0 & H1 & Hl & _). pose proof (stap_next offset hi lo r Ho Hd) as Hnext.
    pose proof (value_range hi). pose proof (value_range lo). bind_ok.
    repeat match goal with E : get p _ = Ok _, G : get p _ = Ok (value _) |- _ => rewrite G in E; injection E as <- end.
    rewrite be16_value in *. set (m := 256 * value hi + value lo) in *.
    repeat match goal with H : add_output_len _ _ = Ok _ |- _ => apply add_output_len_Ok in H as [-> _] end.
    apply IH in H as (units & Hu & ->); [|lia|rewrite Hnext, length_drop; cbn in Hf; lia].
    assert (Z.to_nat m ≤ length r)%nat as Hm by (unfold len in *; lia).
    exists (take (Z.to_nat m) r :: units). rewrite Hnext in Hu. cbn [stap_units]. fold m. rewrite (proj2 (Nat.leb_le _ _)) by done. rewrite Hu.
    split; [done|]. rewrite len_unit by lia. change (len ANNEXB_START_CODE) with 4. lia.
Qed.

(** An aggregate the reference reads is accepted unless the total overflows. *)
Lemma stap_len_fits fuel offset total units :
  0 ≤ offset → (length (drop (Z.to_nat offset) p) ≤ fuel)%nat → stap_units fuel (drop (Z.to_nat offset) p) = Some units →
  len p ≤ usize_max → total + len (annexb units) ≤ usize_max → stap_len fuel p offset total = Ok (total + len (annexb units)).
Proof.
  revert offset total units. induction fuel as [|fuel IH]; intros offset total units Ho Hf Hu Hp Ht.
  { destruct (drop _ p); [|cbn in Hf; lia]. cbn in Hu. simplify_eq. change (len (annexb [])) with 0. cbn. f_equal. lia. }
  cbn [stap_len]. destruct (drop (Z.to_nat offset) p) as [|hi [|lo r]] eqn:Hd; cbn in Hu; simplify_eq.
  { rewrite stap_done by done. change (len (annexb [])) with 0. f_equal. lia. }
  rewrite (stap_more _ _ _ Ho Hd).
  destruct (Nat.leb_spec (Z.to_nat (256 * value hi + value lo)) (length r)) as [Hn|]; [|done].
  apply fmap_Some in Hu as (units' & Hu & ->). rewrite len_unit in Ht by (try done; pose proof (value_range hi); pose proof (value_range lo); lia).
  destruct (stap_round offset hi lo r Ho Hd) as (H0 & H1 & Hl & _). pose proof (stap_next offset hi lo r Ho Hd) as Hnext.
  pose proof (value_range hi). pose proof (value_range lo). pose proof (len_nonneg (annexb units')).
  set (m := 256 * value hi + value lo) in *. assert (m ≤ len r) by (unfold len; lia).
  rewrite (proj2 (checked_add_Some _ offset 2 _)) by (split; [done|lia]). cbn. rewrite (proj2 (Z.ltb_ge _ _)) by lia.
  rewrite H0, H1. cbn. rewrite be16_value. fold m.
  rewrite (proj2 (checked_add_Some _ (offset + 2) m _)) by (split; [done|lia]). cbn. rewrite (proj2 (Z.ltb_ge _ _)) by lia.
  change (len ANNEXB_START_CODE) with 4.
  rewrite (proj2 (add_output_len_Ok total 4 _)) by (split; [done|lia]). cbn.
  rewrite (proj2 (add_output_len_Ok (total + 4) m _)) by (split; [done|lia]). cbn.
  rewrite (IH _ _ units'); [|lia|rewrite Hnext, length_drop; cbn in Hf; lia|by rewrite Hnext|done|lia]. rewrite len_unit by lia. f_equal. lia.
Qed.
End stap.

(** *** Both passes against the reference *)
Definition fragment_of_run (p : bytes) : bool := match p with b0 :: _ => Z.land (value b0) 31 =? 28 | [] => false end.

(** The contents a run of payloads contributes. *)
Definition run_contents (l : list bytes) : bytes := concat (drop 2 <$> filter (λ p, fragment_of_run p = true) l).

#[global] Arguments run_contents : simpl never.

Lemma run_contents_app l k : run_contents (l ++ k) = run_contents l ++ run_contents k.
Proof. unfold run_contents. by rewrite filter_app, fmap_app, concat_app. Qed.

Lemma try_fold_app {A S} (step : S → A → result TransportError S) l k s :
  try_fold step (l ++ k) s = try_fold step l s ≫= try_fold step k.
Proof. revert s. induction l as [|x l IH]; intros s; cbn; [done|]. destruct (step s x); cbn; [apply IH|done]. Qed.

Lemma ref_fold_app l k s : ref_fold (l ++ k) s = ref_fold l s ≫= ref_fold k.
Proof. revert s. induction l as [|x l IH]; intros s; cbn; [done|]. destruct (ref_step s x); cbn; [apply IH|done]. Qed.

Lemma get_range_tail b0 b1 r : get_range (b0 :: b1 :: r) 2 (len (b0 :: b1 :: r)) = Ok r.
Proof.
  unfold get_range. rewrite (proj2 (Z.leb_le 2 _)) by (unfold len; cbn; lia). rewrite Z.leb_refl. cbn. f_equal.
  apply take_ge. unfold len. cbn. lia.
Qed.

Lemma run_contents_fragment p : fragment_of_run p = true → run_contents [p] = drop 2 p.
Proof. intros H. unfold run_contents. rewrite filter_cons, decide_True by done. cbn. by rewrite app_nil_r. Qed.
Lemma run_contents_other p : fragment_of_run p = false → run_contents [p] = [].
Proof. intros H. unfold run_contents. rewrite filter_cons, decide_False by congruence. done. Qed.

Lemma copy_one p output : 2 < len p → copy_fragment output p = Ok (output ++ run_contents [p]).
Proof.
  intros Hp. destruct p as [|b0 [|b1 r]]; [unfold len in Hp; cbn in Hp; lia..|].
  unfold copy_fragment. rewrite (get_lookup _ 0 b0), bind_ret by done.
  destruct (Z.land (value b0) 31 =? 28) eqn:H.
  - by rewrite get_range_tail, bind_ret, run_contents_fragment by done.
  - by rewrite run_contents_other, app_nil_r by done.
Qed.

Lemma copy_run l output :
  Forall (λ p, 2 < len p) l → try_fold copy_fragment l output = Ok (output ++ run_contents l).
Proof.
  intros Hl. revert output. induction Hl as [|p l Hp Hl IH]; intros output; cbn [try_fold]; [by rewrite app_nil_r|].
  rewrite copy_one, bind_ret, IH by done. change (p :: l) with ([p] ++ l). by rewrite run_contents_app, app_assoc.
Qed.

Section passes.
Variables (m : gmap Z bytes) (first last : Z).
Notation chain := (mkFragments m first last).

(** The states of the three passes over the fragments up to [c]. *)
Record in_step (c : Z) (measured : Z * option Z) (written : bytes * option Z) (read : list bytes * option bytes) : Prop := {
  step_output : written.1 = annexb read.1;
  step_length : measured.1 = len written.1;
  step_pending : measured.2 = len <$> read.2;
  step_long : ∀ k p, first ≤ k ≤ c → m !! k = Some p → 2 < len p;
  step_run : match written.2, read.2 with
             | None, None => True
             | Some start, Some run => first ≤ start ≤ c ∧ run = run_contents (range_of m start c).*2
             | _, _ => False
             end;
}.

Lemma in_step_hole c measured written read :
  m !! c = None → in_step (c - 1) measured written read → in_step c measured written read.
Proof.
  intros Hc [H1 H2 H3 H4 H5]. split; [done..| |].
  - intros k p Hk Hp. apply (H4 k p); [|done]. destruct (decide (k = c)) as [->|]; [congruence|lia].
  - destruct written.2, read.2; try done. destruct H5 as [? ->]. split; [lia|]. rewrite (range_snoc m _ c), Hc by lia. cbn. by rewrite app_nil_r.
Qed.

(** The pending contents once the fragment at [c] has joined its run. *)
Lemma in_step_run c b0 b1 r measured written read :
  m !! c = Some (b0 :: b1 :: r) → Z.land (value b0) 31 = 28 → first ≤ c → in_step (c - 1) measured written read →
  let start := default c written.2 in
  first ≤ start ≤ c ∧ default [] read.2 ++ r = run_contents (range_of m start c).*2.
Proof.
  intros Hc H28 Hf [_ _ _ _ H5]. assert (run_contents [b0 :: b1 :: r] = r) as Hone.
  { apply run_contents_fragment. cbn. by apply Z.eqb_eq. }
  destruct written.2 as [start|], read.2 as [run|]; try done; cbn [default]; unfold id.
  - destruct H5 as [? ->]. split; [lia|]. rewrite (range_snoc m _ c), Hc, fmap_app, run_contents_app by lia. cbn. by rewrite Hone.
  - split; [lia|]. rewrite (range_snoc m c c), range_empty, Hc by lia. cbn. by rewrite Hone.
Qed.

Lemma in_step_long c p measured written read :
  m !! c = Some p → 2 < len p → in_step (c - 1) measured written read → ∀ k q, first ≤ k ≤ c → m !! k = Some q → 2 < len q.
Proof. intros Hc Hp Hs k q Hk Hq. destruct (decide (k = c)) as [->|]; [congruence|]. apply (step_long _ _ _ _ Hs k); [lia|done]. Qed.

(** A payload that completes units and belongs to no run. *)
Lemma in_step_other c p n pend out start nals run units :
  m !! c = Some p → 2 < len p → fragment_of_run p = false → in_step (c - 1) (n, pend) (out, start) (nals, run) →
  in_step c (n + len (annexb units), pend) (out ++ annexb units, start) (nals ++ units, run).
Proof.
  intros Hc Hp Hr Hs. pose proof (in_step_long _ _ _ _ _ Hc Hp Hs) as Hlong. destruct Hs as [H1 H2 H3 _ H5]. cbn in *.
  split; cbn; [by rewrite annexb_app, H1|rewrite len_app; lia|done|done|].
  destruct start as [st|], run as [rn|]; try done. destruct H5 as [? ->]. split; [lia|].
  rewrite (range_snoc m st c), Hc, fmap_app, run_contents_app by lia. cbn. by rewrite run_contents_other, app_nil_r.
Qed.

(** A payload that joins a run, and one that ends it. *)
Lemma in_step_open c b0 b1 r n pend out start nals run :
  m !! c = Some (b0 :: b1 :: r) → 2 < len (b0 :: b1 :: r) → Z.land (value b0) 31 = 28 → first ≤ c →
  in_step (c - 1) (n, pend) (out, start) (nals, run) →
  in_step c (n, Some (default 0 pend + len r)) (out, Some (default c start)) (nals, Some (default [] run ++ r)).
Proof.
  intros Hc Hp H28 Hf Hs. pose proof (in_step_long _ _ _ _ _ Hc Hp Hs) as Hlong. pose proof (in_step_run c b0 b1 r _ _ _ Hc H28 Hf Hs) as Hrun.
  destruct Hs as [H1 H2 H3 _ _]. cbn in *. split; cbn; [done|done| |done|done].
  rewrite len_app, H3. f_equal. by destruct run.
Qed.

Lemma in_step_close c b0 b1 r n pend out start nals run h :
  m !! c = Some (b0 :: b1 :: r) → 2 < len (b0 :: b1 :: r) → Z.land (value b0) 31 = 28 → first ≤ c ≤ last →
  in_step (c - 1) (n, pend) (out, start) (nals, run) →
  ∃ out', try_fold copy_fragment (between chain (default c start) c) (out ++ ANNEXB_START_CODE ++ [h]) = Ok out' ∧
    in_step c (n + 4 + 1 + (default 0 pend + len r), None) (out', None) (nals ++ [h :: default [] run ++ r], None).
Proof.
  intros Hc Hp H28 Hf Hs. pose proof (in_step_long _ _ _ _ _ Hc Hp Hs) as Hlong. 
  destruct (in_step_run c b0 b1 r _ _ _ Hc H28 ltac:(lia) Hs) as [Hst Hrun]. cbn in Hst, Hrun. destruct Hs as [H1 H2 H3 _ _]. cbn in *.
  unfold between. cbn. rewrite Z.max_l, Z.min_l, (proj2 (Z.leb_le _ _)) by lia. rewrite copy_run, <- Hrun.
  - eexists. split; [done|]. split; cbn; [| |done|done|done].
    + rewrite annexb_app, annexb_one, H1. by rewrite <- !app_assoc.
    + rewrite !len_app, H2, H3. change (len ANNEXB_START_CODE) with 4. change (len [h]) with 1. destruct run; cbn; unfold id, len; cbn; lia.
  - apply Forall_fmap, Forall_forall. intros [k q] [Hk Hq]%elem_of_range. cbn. apply (Hlong k); [lia|done].
Qed.

(** One fragment the first pass accepts. *)
Lemma in_step_accepted c p measured measured' written read :
  m !! c = Some p → first ≤ c ≤ last → in_step (c - 1) measured written read → len_step measured p = Ok measured' →
  ∃ written' read', write_step chain written (c, p) = Ok written' ∧ ref_step read p = Some read' ∧ in_step c measured' written' read'.
Proof.
  intros Hc Hcl Hs H. destruct measured as [n pend], written as [out start], read as [nals run]. cbn [len_step write_step ref_step] in *.
  destruct (Z.leb_spec (len p) 2) as [|Hlen]; [done|].
  destruct p as [|b0 [|b1 [|b2 r]]]; [unfold len in Hlen; cbn in Hlen; lia..|]. set (p := b0 :: b1 :: b2 :: r) in *.
  rewrite (get_lookup p 0 b0), bind_ret in H by done. rewrite (get_lookup p 0 b0), bind_ret by done.
  rewrite (get_lookup p 1 b1) in H by done. rewrite (get_lookup p 1 b1), bind_ret by done.
  set (t := Z.land (value b0) 31) in *. assert (t ≠ 28 → fragment_of_run p = false) as Hother by (intros; by apply Z.eqb_neq).
  destruct ((1 <=? t) && (t <=? 23)) eqn:Ht; [|destruct (Z.eqb_spec t 24) as [H24|]; [|destruct (Z.eqb_spec t 28) as [H28|]; [|done]]].
  - bind_ok. repeat match goal with H : add_output_len _ _ = Ok _ |- _ => apply add_output_len_Ok in H as [-> _] end. simplify_eq.
    eexists _, _. split; [done|]. split; [done|]. rewrite <- annexb_one.
    replace (n + len ANNEXB_START_CODE + len p) with (n + len (annexb [p])) by (rewrite annexb_one, len_app; lia).
    apply (in_step_other _ p); [done|lia|apply Hother; lia|done].
  - bind_ok. simplify_eq. apply stap_len_Ok in E as (units & Hu & ->); [|lia|rewrite length_drop; cbn; lia]. change (drop (Z.to_nat 1) p) with (tail p) in Hu.
    rewrite (stap_write_units p _ 1 _ units) by (first [lia | rewrite length_drop; lia | exact Hu]). rewrite Hu.
    eexists _, _. split; [done|]. split; [done|]. apply (in_step_other _ p); [done|lia|apply Hother; lia|done].
  - rewrite land_bit6. destruct (checked_add usize_max (default 0 pend) (len p - 2)) as [acc|] eqn:Hacc; [|done]. z_norm. subst.
    cbn [ok_or] in H. rewrite !bind_ret, land_bit6 in H. replace (len p - 2) with (len (b2 :: r)) in * by (unfold len; cbn; lia).
    destruct (Z.testbit (value b1) 6); cbn [negb] in *.
    + destruct (in_step_close c b0 b1 (b2 :: r) n pend out start nals run (u8 (Z.lor (Z.land (value b0) 96) (Z.land (value b1) 31))))
        as (out' & -> & Hs'); [done..|]. bind_ok.
      repeat match goal with H : add_output_len _ _ = Ok _ |- _ => apply add_output_len_Ok in H as [-> _] end. simplify_eq.
      eexists _, _. split; [done|]. split; [done|]. exact Hs'.
    + simplify_eq. eexists _, _. split; [done|]. split; [done|]. apply (in_step_open c b0 b1); [done|done|done|lia|done].
Qed.
End passes.

#[global] Arguments len_step : simpl never.
#[global] Arguments write_step : simpl never.
#[global] Arguments ref_step : simpl never.

Lemma try_fold_one {A S} (step : S → A → result TransportError S) x s : try_fold step [x] s = step s x.
Proof. cbn. by destruct (step s x). Qed.
Lemma ref_fold_one p s : ref_fold [p] s = ref_step s p.
Proof. cbn. by destruct (ref_step s p). Qed.

Section chains.
Implicit Types (u : UnitFragments).
Definition payloads u : list bytes := (fragments_iter u).*2.

(** The three passes over a prefix of the chain. *)
Lemma passes_agree m first last (c : nat) measured :
  first + Z.of_nat c ≤ last + 1 →
  try_fold len_step (range_of m first (first + Z.of_nat c - 1)).*2 (0, None) = Ok measured →
  ∃ written read,
    try_fold (write_step (mkFragments m first last)) (range_of m first (first + Z.of_nat c - 1)) ([], None) = Ok written ∧
    ref_fold (range_of m first (first + Z.of_nat c - 1)).*2 ([], None) = Some read ∧
    in_step m first (first + Z.of_nat c - 1) measured written read.
Proof.
  revert measured. induction c as [|c IH]; intros measured Hc H.
  { rewrite range_empty in * by lia. cbn in *. simplify_eq. exists ([], None), ([], None). split; [done|]. split; [done|]. split; cbn; try done. intros; lia. }
  set (d := first + Z.of_nat (S c) - 1) in *. replace (first + Z.of_nat c - 1) with (d - 1) in IH by lia.
  rewrite (range_snoc m first d), fmap_app, try_fold_app in H by lia.
  destruct (try_fold len_step _ _) as [before|e] eqn:Hb; [rewrite bind_ret in H|done].
  destruct (IH before ltac:(lia) eq_refl) as (written & read & Hw & Hr & Hs).
  rewrite (range_snoc m first d), fmap_app, try_fold_app, ref_fold_app, Hw, Hr, bind_ret by lia. cbn [mbind option_bind].
  destruct (m !! d) as [p|] eqn:Hd; cbn [fmap option_fmap option_map option_list list_fmap] in H |- *.
  - change (option_list (Some (d, p))) with [(d, p)] in *. cbn [fmap list_fmap snd] in *.
    rewrite try_fold_one in H. rewrite try_fold_one, ref_fold_one. apply (in_step_accepted m first last d p before); [done|lia|done|done].
  - cbn in H. simplify_eq. exists written, read. split; [done|]. split; [done|]. by apply in_step_hole.
Qed.

(** An accepted chain: what the second pass writes is the Annex-B form of the NAL
    units of its payloads, and it has the length of the first pass. *)
Lemma annexb_accepted u n :
  annexb_output_len u = Ok n →
  ∃ nals, nal_units (payloads u) = Some nals ∧ write_annexb_output u n = Ok (annexb nals) ∧ len (annexb nals) = n.
Proof.
  destruct u as [m first last]. unfold annexb_output_len, write_annexb_output, nal_units, payloads, fragments_iter. cbn [uf_parts uf_start uf_end].
  intros H. destruct (try_fold len_step _ _) as [measured|] eqn:Hm; [|done]. cbn in H. simplify_eq.
  destruct (Z.le_gt_cases first last) as [Hle|Hgt].
  - pose proof (passes_agree m first last (Z.to_nat (last - first + 1)) measured ltac:(lia)) as Hp.
    replace (first + Z.of_nat (Z.to_nat (last - first + 1)) - 1) with last in Hp by lia.
    destruct (Hp Hm) as (written & read & -> & -> & [H1 H2 _ _ _]). exists read.1. split; [done|]. rewrite bind_ret, <- H2, Z.eqb_refl, <- H1. done.
  - rewrite range_empty in * by lia. cbn in Hm. simplify_eq. exists []. done.
Qed.
End chains.

(** *** What the reference reads is accepted *)
Fixpoint total_len (l : list bytes) : Z := match l with [] => 0 | p :: l => len p + total_len l end.

Lemma stap_units_len fuel d units : stap_units fuel d = Some units → len (annexb units) ≤ 2 * len d.
Proof.
  revert d units. induction fuel as [|fuel IH]; intros d units H;
    (destruct d as [|hi [|lo r]]; cbn in H; simplify_eq; try (change (len (annexb [])) with 0; unfold len; cbn; lia)).
  pose proof (value_range hi). pose proof (value_range lo). case_match eqn:Hn; [|done]. apply Nat.leb_le in Hn.
  apply fmap_Some in H as (units' & Hu & ->). apply IH in Hu. rewrite len_unit by lia. unfold len in *. rewrite length_drop in Hu. cbn [length]. lia.
Qed.

Lemma len_cons b p : len (b :: p) = 1 + len p.
Proof. unfold len. cbn [length]. lia. Qed.

Lemma ref_step_fits nals run p nals' run' :
  ref_step (nals, run) p = Some (nals', run') → len (annexb nals) + len (default [] run) + 5 * len p ≤ usize_max →
  len_step (len (annexb nals), len <$> run) p = Ok (len (annexb nals'), len <$> run') ∧
  len (annexb nals') + len (default [] run') ≤ len (annexb nals) + len (default [] run) + 5 * len p.
Proof.
  intros H Hfit. pose proof (len_nonneg (annexb nals)). pose proof (len_nonneg (default [] run)).
  assert (default 0 (len <$> run) = len (default [] run)) as Hd by (by destruct run).
  destruct p as [|b0 [|b1 [|b2 r]]]; try done. unfold len_step. unfold ref_step in H. set (p := b0 :: b1 :: b2 :: r) in *.
  pose proof (len_nonneg r). assert (len p = 3 + len r) as Hp by (unfold p; rewrite !len_cons; lia).
  rewrite (proj2 (Z.leb_gt _ _)) by lia. rewrite (get_lookup p 0 b0), bind_ret, (get_lookup p 1 b1) by done.
  change (len ANNEXB_START_CODE) with 4.
  destruct (_ && _); [|destruct (_ =? 24); [|destruct (_ =? 28); [|done]]].
  - simplify_eq. rewrite annexb_app, annexb_one, !len_app. change (len ANNEXB_START_CODE) with 4.
    rewrite (proj2 (add_output_len_Ok _ 4 _)) by (split; [done|lia]). rewrite bind_ret.
    rewrite (proj2 (add_output_len_Ok _ (len p) _)) by (split; [done|lia]). rewrite bind_ret. split; [|lia]. do 2 f_equal. lia.
  - destruct (stap_units _ _) as [units|] eqn:Hu; [|done]. cbn in H. simplify_eq.
    pose proof (stap_units_len _ _ _ Hu) as Hl. change (tail p) with (b1 :: b2 :: r) in Hl. rewrite !len_cons in Hl.
    rewrite (stap_len_fits p _ 1 _ units) by (first [lia | rewrite length_drop; lia | exact Hu]). rewrite annexb_app, len_app. split; [done|lia].
  - rewrite Hd, (proj2 (checked_add_Some _ _ _ _)) by (split; [done|lia]). cbn [ok_or]. rewrite !bind_ret, land_bit6.
    destruct (Z.testbit _ _); cbn [negb]; simplify_eq.
    + rewrite (proj2 (add_output_len_Ok _ 4 _)), bind_ret by (split; [done|lia]). rewrite (proj2 (add_output_len_Ok _ 1 _)), bind_ret by (split; [done|lia]).
      rewrite (proj2 (add_output_len_Ok _ (_ + _) _)), bind_ret by (split; [done|lia]).
      rewrite annexb_app, annexb_one, !len_app, len_cons, len_app. change (drop 2 p) with (b2 :: r). rewrite len_cons. change (len ANNEXB_START_CODE) with 4.
      change (len (default [] None)) with 0. split; [|lia]. cbn. do 2 f_equal. lia.
    + cbn [default]. unfold id. change (drop 2 p) with (b2 :: r). rewrite len_app, len_cons. split; [|lia]. cbn. rewrite len_app, len_cons. do 3 f_equal. lia.
Qed.

Lemma ref_fold_fits l nals run s :
  ref_fold l (nals, run) = Some s → len (annexb nals) + len (default [] run) + 5 * total_len l ≤ usize_max →
  try_fold len_step l (len (annexb nals), len <$> run) = Ok (len (annexb s.1), len <$> s.2).
Proof.
  revert nals run. induction l as [|p l IH]; intros nals run H Hfit; cbn in *; [by simplify_eq|].
  assert (0 ≤ total_len l) by (clear; induction l as [|q l IH]; cbn; [lia|]; pose proof (len_nonneg q); lia).
  destruct (ref_step (nals, run) p) as [[nals' run']|] eqn:Hr; [|done]. cbn in H.
  destruct (ref_step_fits _ _ _ _ _ Hr) as [-> Hle]; [lia|]. rewrite bind_ret. apply IH; [done|lia].
Qed.

Lemma write_step_ext u v s x : same_chain u v → write_step u s x = write_step v s x.
Proof.
  intros H. destruct s as [out start], x as [c p]. unfold write_step. destruct (get p 0) as [b0|]; [|done]. rewrite !bind_ret.
  destruct (get p 1) as [b1|]; [|done]. rewrite !bind_ret. by rewrite (same_chain_between u v) by done.
Qed.

#[export] Instance H264FramingLaws : RealtimeUnitFramingLaws.
Proof.
  split; cbn.
  - intros u v H. unfold annexb_output_len. by rewrite (same_chain_iter u v H).
  - intros u v n H. unfold write_annexb_output. rewrite (same_chain_iter u v H). f_equal.
    assert (∀ l s, try_fold (write_step u) l s = try_fold (write_step v) l s) as Hw; [|by rewrite Hw].
    induction l as [|x l IH]; intros s; [done|]. cbn [try_fold]. rewrite (write_step_ext u v) by done.
    destruct (write_step v s x); [apply IH|done].
  - intros u n H. destruct (annexb_accepted u n H) as (nals & _ & Hw & Hl). eauto.
Qed.

(** C24: The two passes against the reference.  An accepted chain is one whose payloads
    the reference reads as NAL units; the second pass then succeeds, without an index
    out of range, and writes their Annex-B form, of exactly the length the first pass
    answered.  Conversely a chain the reference reads is accepted, unless its length
    overflows. *)
Theorem annexb_matches_reference u :
  (∀ n, annexb_output_len u = Ok n →
    ∃ nals, nal_units (payloads u) = Some nals ∧ write_annexb_output u n = Ok (annexb nals) ∧ len (annexb nals) = n) ∧
  (∀ nals, nal_units (payloads u) = Some nals → 5 * total_len (payloads u) ≤ usize_max →
    annexb_output_len u = Ok (len (annexb nals))).
Proof.
  split; [apply annexb_accepted|]. unfold nal_units, annexb_output_len. intros nals (s & Hr & ->)%fmap_Some Hfit.
  pose proof (ref_fold_fits (payloads u) [] None s Hr Hfit) as H. change (len (annexb [])) with 0 in H. cbn [fmap option_fmap option_map] in H.
  fold (payloads u). by rewrite H.
Qed.

(** ** Entry points *)
Definition nal_type (nal : bytes) : Z := match nal with t :: _ => Z.land (value t) 31 | [] => 0 end.

(** The part of a NAL unit after its header that emulation prevention guarantees: no
    two zero bytes before a zero or a one, and no zero at the end. *)
Fixpoint emulation_free (body : bytes) : bool :=
  match body with
  | [] => true
  | b0 :: body' =>
      emulation_free body' &&
      match body' with
      | [] => negb (value b0 =? 0)
      | [b1] => true
      | b1 :: b2 :: _ => negb ((value b0 =? 0) && (value b1 =? 0) && (value b2 <=? 1))
      end
  end.

(** The iterator at three bytes or more. *)
Lemma types_step b0 b1 b2 r :
  annexb_nal_types (b0 :: b1 :: b2 :: r) =
  if (value b0 =? 0) && (value b1 =? 0) && (value b2 =? 1) then
    match r with t :: r => Z.land (value t) 31 :: annexb_nal_types r | [] => [] end
  else match r with
    | b3 :: r' =>
        if (value b0 =? 0) && (value b1 =? 0) && (value b2 =? 0) && (value b3 =? 1) then
          match r' with t :: r' => Z.land (value t) 31 :: annexb_nal_types r' | [] => [] end
        else annexb_nal_types (b1 :: b2 :: r)
    | [] => annexb_nal_types (b1 :: b2 :: r)
    end.
Proof.
  cbn [annexb_nal_types]. destruct ((value b0 =? 0) && (value b1 =? 0)); [|by destruct r]. rewrite !andb_true_l. by destruct (value b2 =? 1).
Qed.

Lemma types_start t r : annexb_nal_types (ANNEXB_START_CODE ++ t :: r) = Z.land (value t) 31 :: annexb_nal_types r.
Proof. done. Qed.

Lemma types_short t r : annexb_nal_types (u8 0 :: u8 0 :: u8 1 :: t :: r) = Z.land (value t) 31 :: annexb_nal_types r.
Proof. done. Qed.

#[global] Arguments annexb_nal_types : simpl never.

(** Whatever precedes a start code, the unit after it is seen. *)
Lemma types_after x t r : Z.land (value t) 31 ∈ annexb_nal_types (x ++ ANNEXB_START_CODE ++ t :: r).
Proof.
  remember (length x) as n eqn:Hn. revert x Hn. induction n as [n IH] using lt_wf_ind. intros x ->.
  assert (∀ y, (length y < length x)%nat → Z.land (value t) 31 ∈ annexb_nal_types (y ++ ANNEXB_START_CODE ++ t :: r)) as Hy.
  { intros y Hl. by apply (IH (length y)). }
  clear IH. destruct x as [|b0 x]; [rewrite app_nil_l, types_start; by left|].
  pose proof (Hy x ltac:(cbn; lia)) as Hstep. change (value (u8 0)) with 0.
  destruct x as [|b1 [|b2 [|b3 x]]]; cbn in Hstep |- *; rewrite types_step.
  - change (value (u8 0)) with 0. by rewrite !andb_false_r.
  - change (value (u8 0)) with 0. by rewrite !andb_false_r.
  - change (value (u8 0)) with 0. rewrite !andb_false_r. destruct (_ && _); [|done]. rewrite types_short. right. by left.
  - destruct (_ && _); [right; apply Hy; cbn; lia|]. destruct (_ && _); [|done].
    destruct x as [|b4 x]; cbn; right; [rewrite types_short; by left|apply Hy; cbn; lia].
Qed.

(** Nothing is seen inside an emulation-free body. *)
Lemma types_body body rest : emulation_free body = true → annexb_nal_types (body ++ annexb rest) = annexb_nal_types (annexb rest).
Proof.
  induction body as [|b0 body IH]; [done|]. cbn [emulation_free]. intros [Hb H]%andb_true_iff. specialize (IH Hb). rewrite <- IH. clear IH.
  assert (∀ nal l, annexb (nal :: l) = u8 0 :: u8 0 :: u8 0 :: u8 1 :: (nal ++ annexb l)) as Hcons by done.
  destruct body as [|b1 [|b2 body]]; cbn [app].
  - apply negb_true_iff in H. destruct rest as [|nal rest]; [done|]. rewrite Hcons, types_step, H. done.
  - cbn in Hb. apply negb_true_iff in Hb. destruct rest as [|nal rest]; [done|]. rewrite Hcons, types_step, Hb, !andb_false_r. done.
  - rewrite types_step. destruct ((value b0 =? 0) && (value b1 =? 0)); [|by destruct (body ++ annexb rest)]. cbn in H. apply negb_true_iff, Z.leb_gt in H.
    rewrite (proj2 (Z.eqb_neq (value b2) 1)), (proj2 (Z.eqb_neq (value b2) 0)) by lia. cbn. by destruct (body ++ annexb rest).
Qed.

Lemma types_annexb nals :
  Forall (λ nal, nal ≠ [] ∧ emulation_free (tail nal) = true) nals → annexb_nal_types (annexb nals) = nal_type <$> nals.
Proof.
  induction 1 as [|nal nals [Hn He] Hl IH]; [done|]. destruct nal as [|t body]; [done|].
  change (annexb ((t :: body) :: nals)) with (ANNEXB_START_CODE ++ t :: (body ++ annexb nals)).
  rewrite types_start, types_body, IH by done. done.
Qed.

(** A unit with an IDR slice (NAL type 5) is always marked as an entry point; and
    when its NAL units are free of start-code emulation, as the standard requires,
    only such a unit is. *)
Theorem entry_points_are_idr_units nals :
  (Exists (λ nal, nal ≠ [] ∧ nal_type nal = 5) nals → au_has_idr (annexb nals) = true) ∧
  (Forall (λ nal, nal ≠ [] ∧ emulation_free (tail nal) = true) nals →
    au_has_idr (annexb nals) = true ↔ Exists (λ nal, nal_type nal = 5) nals).
Proof.
  unfold au_has_idr. split.
  - intros (nal & Hin & Hn & Ht)%Exists_exists. apply list_elem_of_split in Hin as (l1 & l2 & ->). destruct nal as [|t body]; [done|].
    apply existsb_exists. exists (Z.land (value t) 31). split; [|by apply Z.eqb_eq]. apply list_elem_of_In.
    rewrite annexb_app. change (annexb ((t :: body) :: l2)) with (ANNEXB_START_CODE ++ t :: (body ++ annexb l2)). apply types_after.
  - intros H. rewrite types_annexb by done. rewrite existsb_exists, Exists_exists. setoid_rewrite <- list_elem_of_In. setoid_rewrite list_elem_of_fmap.
    setoid_rewrite Z.eqb_eq. naive_solver.
Qed.

(** ** Fragmentation units

    The payloads a sender makes of a NAL unit [h :: concat chunks] by fragmentation
    (FU-A of RFC 6184): the indicator keeps the importance bits of the header, the
    second byte its type and the marks of the first and the last fragment. *)
Definition fu_indicator (h : Ascii.ascii) : Ascii.ascii := u8 (Z.lor (Z.land (value h) 96) 28).
Definition fu_header (first last : bool) (h : Ascii.ascii) : Ascii.ascii :=
  u8 (Z.lor (if first then 128 else 0) (Z.lor (if last then 64 else 0) (Z.land (value h) 31))).

Fixpoint fua_payloads (h : Ascii.ascii) (first : bool) (chunks : list bytes) : list bytes :=
  match chunks with
  | [] => []
  | c :: rest =>
      let last := match rest with [] => true | _ => false end in
      (fu_indicator h :: fu_header first last h :: c) :: fua_payloads h false rest
  end.

Lemma fu_indicator_type h : Z.land (value (fu_indicator h)) 31 = 28.
Proof. by destruct h as [[] [] [] [] [] [] [] []]. Qed.
Lemma fu_header_end first last h : Z.testbit (value (fu_header first last h)) 6 = last.
Proof. by destruct first, last, h as [[] [] [] [] [] [] [] []]. Qed.
Lemma fu_restored first last h :
  value h < 128 → u8 (Z.lor (Z.land (value (fu_indicator h)) 96) (Z.land (value (fu_header first last h)) 31)) = h.
Proof. destruct first, last, h as [[] [] [] [] [] [] [] []]; try reflexivity; intros H; exfalso; vm_compute in H; discriminate. Qed.

Lemma ref_fold_fua h first chunks nals run :
  value h < 128 → chunks ≠ [] → Forall (λ c, c ≠ []) chunks →
  ref_fold (fua_payloads h first chunks) (nals, run) = Some (nals ++ [h :: default [] run ++ concat chunks], None).
Proof.
  intros Hh Hne Hc. revert first run Hne. induction Hc as [|c rest Hc Hrest IH]; intros first run Hne; [done|]. clear Hne.
  cbn [fua_payloads ref_fold]. set (last := match rest with [] => true | _ => false end).
  assert (ref_step (nals, run) (fu_indicator h :: fu_header first last h :: c) =
    if last then Some (nals ++ [h :: default [] run ++ c], None) else Some (nals, Some (default [] run ++ c))) as ->.
  { unfold ref_step. destruct c as [|b c]; [done|]. rewrite fu_indicator_type, fu_header_end, fu_restored by done. done. }
  destruct rest as [|d rest]; cbn [last].
  - cbn. by rewrite app_nil_r.
  - cbn [mbind option_bind]. rewrite IH by done. cbn. by rewrite <- app_assoc.
Qed.

(** Fragmenting a NAL unit and reading the fragments back gives the unit, and the
    first fragment can begin a unit while the others cannot. *)
Theorem fragmented_unit_roundtrip h chunks :
  value h < 128 → chunks ≠ [] → Forall (λ c, c ≠ []) chunks →
  nal_units (fua_payloads h true chunks) = Some [h :: concat chunks] ∧
  (payload_starts_au <$> fua_payloads h true chunks) = true :: replicate (pred (length chunks)) false.
Proof.
  intros Hh Hne Hc. split; [unfold nal_units; by rewrite ref_fold_fua|].
  assert (∀ first last c, payload_starts_au (fu_indicator h :: fu_header first last h :: c) = first) as Hs.
  { intros first last c. by destruct first, last, h as [[] [] [] [] [] [] [] []]. }
  assert (∀ l, payload_starts_au <$> fua_payloads h false l = replicate (length l) false) as Hf.
  { induction l as [|c l IH]; [done|]. cbn [fua_payloads fmap list_fmap length replicate]. rewrite Hs. f_equal. apply IH. }
  destruct chunks as [|c rest]; [done|]. cbn [fua_payloads fmap list_fmap length pred]. rewrite Hs. f_equal. apply Hf.
Qed.
