(* ===== verification/UnitDelivery.v ===== *)
(** * Delivery of real-time units

    The assembler of UnitAssembly against a sender: a stream assigns packets to
    consecutive positions, of which a packet carries the low sixteen bits, and groups
    them into units of one timestamp that end with the marker.  Packets are lost,
    repeated and reordered, within half the sequence space of the newest one seen.
    Every unit emitted is one the sender sent, contiguous and complete to its end;
    while the flow refuses nothing, units come out once and in order; and a unit whose
    packets all arrive is emitted whatever their order. *)

From S2P Require Import Prelude Ranking Bytes UnitAssembly.
Local Open Scope Z_scope.

Definition emitted (r : result TransportError (option AssembledUnit)) : list AssembledUnit :=
  match r with Ok (Some u) => [u] | _ => [] end.

Section sender.
Context {framing : RealtimeUnitFraming} {laws : RealtimeUnitFramingLaws}.
Variable sent : Z → option Packet.
Implicit Types (a : RealtimeUnitAssembler) (f : FlowAnswers) (x y : Packet) (u : AssembledUnit).

(** A stream of units: consecutive positions of one timestamp, the marker on the
    last of them, timestamps advancing by less than half their range overall. *)
Record stream : Prop := {
  stream_sequence k x : sent k = Some x → sequence_number x = k mod 2 ^ 16;
  stream_timestamp k x : sent k = Some x → in_u u32_max (rtp_timestamp x);
  stream_unit j k x y : sent j = Some x → sent k = Some y → rtp_timestamp x = rtp_timestamp y →
    ∀ i, j ≤ i ≤ k → ∃ z, sent i = Some z ∧ rtp_timestamp z = rtp_timestamp x;
  stream_marker k x y : sent k = Some x → marker x = true → sent (k + 1) = Some y → rtp_timestamp y ≠ rtp_timestamp x;
  stream_newer j k x y : sent j = Some x → sent k = Some y → j < k → rtp_timestamp x ≠ rtp_timestamp y →
    newer_rtp_ts (rtp_timestamp y) (rtp_timestamp x) = true;
}.

(** The position is within half the sequence space of the newest one seen. *)
Definition near a (k : Z) : Prop :=
  match last_seq a with
  | None => 0 ≤ k < 2 ^ 16
  | Some (_, newest) => - 2 ^ 15 ≤ k - newest < 2 ^ 15
  end.

(** What an assembler has received, and the units it has emitted; [G] restricts what
    happens at each push. *)
Inductive received (G : FlowAnswers → result TransportError (option AssembledUnit) → Prop) :
  RealtimeUnitAssembler → list AssembledUnit → Prop :=
| received_nothing : received G empty_assembler []
| received_packet f k x a a' r us :
    received G a us → sent k = Some x → near a k → push f x a = (a', r) → G f r → received G a' (us ++ emitted r).

(** The chain the sender sent at these positions. *)
Definition sent_parts (first last : Z) : gmap Z bytes :=
  foldr (λ k m, match sent k with Some x => <[k := payload x]> m | None => m end) ∅ (seqZ first (last - first + 1)).
Definition sent_chain (first last : Z) : UnitFragments := mkFragments (sent_parts first last) first last.

Lemma sent_parts_lookup first last k : first ≤ k ≤ last → sent_parts first last !! k = payload <$> sent k.
Proof.
  intros Hk. unfold sent_parts. assert (k ∈ seqZ first (last - first + 1)) as Hin by (rewrite elem_of_seqZ; lia). clear Hk.
  induction (seqZ first (last - first + 1)) as [|j l IH]; [by apply not_elem_of_nil in Hin|]. cbn.
  destruct (decide (k = j)) as [->|Hn].
  - destruct (sent j) as [x|] eqn:Hx; [by rewrite lookup_insert_eq|]. clear IH Hin.
    induction l as [|i l IH]; [done|]. cbn. destruct (sent i) eqn:Hi; [|done]. rewrite lookup_insert_ne; [done|congruence].
  - apply elem_of_cons in Hin as [|Hin]; [done|]. destruct (sent j); [rewrite lookup_insert_ne by done|]; auto.
Qed.

(** The unit is the stream from [first] to the end of a sender's unit, framed; it is
    the whole unit unless it starts at a payload that the codec takes for a start. *)
Record sent_unit u (first last : Z) : Prop := {
  unit_order : first ≤ last;
  unit_packets : ∀ k, first ≤ k ≤ last → ∃ x, sent k = Some x ∧ rtp_timestamp x = au_timestamp u;
  unit_last : ∀ x, sent (last + 1) = Some x → rtp_timestamp x ≠ au_timestamp u;
  unit_first : (∀ x, sent (first - 1) = Some x → rtp_timestamp x ≠ au_timestamp u) ∨
               (∃ x, sent first = Some x ∧ payload_starts_unit (payload x) = true);
  unit_framed : framed_len (sent_chain first last) = Ok (Z.of_nat (length (data u))) ∧
                write_framed (sent_chain first last) (Z.of_nat (length (data u))) = Ok (data u);
  unit_reserved : output u = Some (Z.of_nat (length (data u)));
}.

(** ** What the assembler holds comes from the stream *)
Record tracked a : Prop := {
  tracked_newest : ∀ raw newest, last_seq a = Some (raw, newest) → raw = newest mod 2 ^ 16;
  tracked_part : ∀ k p, parts a !! k = Some p → ∃ x, sent k = Some x ∧ payload x = p ∧ rtp_timestamp x = timestamp a;
  tracked_marker : ∀ k, marker_seq a = Some k → ∃ x, sent k = Some x ∧ marker x = true ∧ rtp_timestamp x = timestamp a;
  tracked_anchor : ∀ k, prev_end a = Some k → ∃ x, sent k = Some x ∧ marker x = true;
}.

Lemma tracked_empty : tracked empty_assembler.
Proof. by split. Qed.

Lemma tracked_clear a anchor ts : tracked a → (∀ k, anchor = Some k → ∃ x, sent k = Some x ∧ marker x = true) →
  tracked (mkAssembler ts ∅ None anchor (last_seq a) None).
Proof. intros [H1 _ _ _] Ha. by split. Qed.

(** The raw number of a position close to the newest one gives the position back. *)
Lemma unwrap_exact a k x :
  stream → (∀ raw newest, last_seq a = Some (raw, newest) → raw = newest mod 2 ^ 16) → sent k = Some x → near a k →
  ∃ newest, unwrap_seq (last_seq a) (sequence_number x) = (k, Some (newest mod 2 ^ 16, newest)) ∧ k ≤ newest ∧
    (newest = k ∨ ∃ raw, last_seq a = Some (raw, newest)).
Proof.
  intros Hst Hn Hx Hk. rewrite (stream_sequence Hst _ _ Hx). unfold near in Hk. unfold unwrap_seq.
  destruct (last_seq a) as [[raw newest]|].
  - rewrite (Hn _ _ eq_refl), wrapping_sub_mod, as_signed_wrapping by done. replace (newest + (k - newest)) with k by lia.
    destruct (Z.ltb_spec 0 (k - newest)); [exists k|exists newest]; (split; [done|]); (split; [lia|eauto]).
  - exists k. rewrite Z.mod_small by done. split; [done|]. split; [lia|by left].
Qed.

Lemma try_emit_tracked f a : tracked a → tracked (try_emit f a).1.
Proof.
  intros Ha. destruct (try_emit_cases f a) as [(s & e & [Hm _ _ _] & ->)|[_ ->]]; [|done].
  destruct (emit_chain_cases f s e a) as (anchor & r & -> & Hanchor & _). apply tracked_clear; [done|].
  intros k ->. destruct Hanchor as [[= ->]|[? _]]; [|done]. destruct (tracked_marker _ Ha _ Hm) as (x & ? & ? & _). eauto.
Qed.

Lemma try_emit_sent f a u :
  stream → tracked a → (try_emit f a).2 = Ok (Some u) → ∃ first last, sent_unit u first last ∧ complete_chain a first last.
Proof.
  intros Hst Ha Hu. destruct (try_emit_cases f a) as [(s & e & Hc & Heq)|[_ Heq]]; rewrite Heq in Hu; [|done].
  destruct (emit_chain_cases f s e a) as (anchor & r & Heq' & _ & Hr). rewrite Heq' in Hu. cbn in Hu.
  destruct (Hr u Hu) as (_ & Hts & Hne & _ & n & Hlen & Hw & Hout). pose proof Hc as [Hm Hs Ho Hf]. exists s, e. split; [|done].
  assert (∀ k, s ≤ k ≤ e → ∃ x, sent k = Some x ∧ rtp_timestamp x = au_timestamp u) as Hp.
  { intros k Hk. destruct (Hf k Hk) as [p Hpk]. destruct (tracked_part _ Ha _ _ Hpk) as (x & ? & _ & ?). exists x. by rewrite Hts. }
  assert (same_chain (mkFragments (parts a) s e) (sent_chain s e)) as Hsame.
  { split; [done|]. split; [done|]. cbn. intros k Hk. rewrite sent_parts_lookup by done. destruct (Hf k Hk) as [p Hpk].
    destruct (tracked_part _ Ha _ _ Hpk) as (x & -> & <- & _). done. }
  destruct (law_two_phases _ _ Hlen) as (d & Hd & Hdl). assert (d = data u) as -> by congruence. clear Hd.
  rewrite (law_framed_len _ _ Hsame) in Hlen. rewrite (law_write_framed _ _ _ Hsame) in Hw. subst n.
  destruct (tracked_marker _ Ha _ Hm) as (x & Hx & Hmx & Htx).
  split; [done|done| | |done|].
  - intros y Hy. rewrite Hts, <- Htx. by apply (stream_marker Hst e).
  - unfold unit_start in Hs. destruct (prev_end a) as [prev|] eqn:Hprev; simplify_eq.
    + left. replace (prev + 1 - 1) with prev by lia. destruct (tracked_anchor _ Ha _ Hprev) as (z & Hz & Hmz). intros y Hy.
      assert (y = z) as -> by congruence. destruct (Hp (prev + 1)) as (w & Hw1 & <-); [lia|]. intros Heq2. by apply (stream_marker Hst prev z w).
    + right. destruct (first_part (parts a)) as [[lo p]|] eqn:Hfp; [|done]. destruct (payload_starts_unit p) eqn:Hps; [|done]. simplify_eq.
      apply first_part_Some in Hfp as [Hlo _]. destruct (tracked_part _ Ha _ _ Hlo) as (z & ? & <- & _). eauto.
  - rewrite Hout. destruct (data u); [done|]. cbn [length]. by rewrite (proj2 (Z.eqb_neq _ _)) by lia.
Qed.

Lemma enter_tracked b ts a a' : tracked a → enter_timestamp b ts a = Some a' → tracked a' ∧ timestamp a' = ts.
Proof.
  intros Ha H. unfold enter_timestamp in H. destruct (Z.eqb_spec ts (timestamp a)) as [->|]; [by simplify_eq|].
  case_match; simplify_eq. split; [|done]. apply tracked_clear; [done|]. case_match; [apply (tracked_anchor _ Ha)|done].
Qed.

Lemma note_marker_tracked k x a :
  tracked a → sent k = Some x → rtp_timestamp x = timestamp a → tracked (note_marker (marker x) k a).
Proof.
  intros [H1 H2 H3 H4] Hx Ht. destruct (marker x) eqn:Hm; [|done]. split; cbn; try done. intros j [= <-]. eauto.
Qed.

Lemma insert_part_tracked k x a :
  tracked a → sent k = Some x → rtp_timestamp x = timestamp a → tracked (insert_part k (payload x) a).
Proof.
  intros [H1 H2 H3 H4] Hx Ht. split; cbn; try done. intros j p. destruct (decide (j = k)) as [->|Hn].
  - rewrite lookup_insert_eq. intros [= <-]. eauto.
  - rewrite lookup_insert_ne by done. apply H2.
Qed.

Lemma retain_tracked f size a : tracked a → tracked (retain_fragment f size a).1 ∧ timestamp (retain_fragment f size a).1 = timestamp a.
Proof. intros [H1 H2 H3 H4]. unfold retain_fragment. run_cases; (split; [|done]); by split. Qed.

(** The three things a push can do: ignore the packet, refuse it, or collect it and
    try to emit. *)
Inductive pushed f k x newest a : RealtimeUnitAssembler → result TransportError (option AssembledUnit) → Prop :=
| pushed_padding : payload x = [] → pushed f k x newest a a (Ok None)
| pushed_late :
    last_seq a ≠ None → rtp_timestamp x ≠ timestamp a → newer_rtp_ts (rtp_timestamp x) (timestamp a) = false →
    pushed f k x newest a (mkAssembler (timestamp a) (parts a) (marker_seq a) (prev_end a) newest (assembly a)) (Ok None)
| pushed_refused a1 a2 r :
    enter_timestamp (bool_decide (last_seq a = None)) (rtp_timestamp x)
      (mkAssembler (timestamp a) (parts a) (marker_seq a) (prev_end a) newest (assembly a)) = Some a1 →
    retain_fragment f (Z.of_nat (length (payload x))) a1 = (a2, r) → r ≠ Ok true →
    pushed f k x newest a a2 (_ ← r; Ok None)
| pushed_collected a1 a2 a' r :
    enter_timestamp (bool_decide (last_seq a = None)) (rtp_timestamp x)
      (mkAssembler (timestamp a) (parts a) (marker_seq a) (prev_end a) newest (assembly a)) = Some a1 →
    (is_Some (parts a1 !! k) ∧ a2 = a1 ∨
     parts a1 !! k = None ∧ ∃ a3, retain_fragment f (Z.of_nat (length (payload x))) a1 = (a3, Ok true) ∧ a2 = insert_part k (payload x) a3) →
    try_emit f (note_marker (marker x) k a2) = (a', r) →
    pushed f k x newest a a' r.

Lemma push_pushed f k x a a' r newest :
  unwrap_seq (last_seq a) (sequence_number x) = (k, newest) → push f x a = (a', r) → pushed f k x newest a a' r.
Proof.
  intros Hu H. unfold push in H. destruct (decide (payload x = [])) as [He|_]; [simplify_eq; by constructor|].
  rewrite Hu in H. destruct (enter_timestamp _ _ _) as [a1|] eqn:Ha1.
  2: { simplify_eq. unfold enter_timestamp in Ha1. cbn in Ha1. destruct (Z.eqb_spec (rtp_timestamp x) (timestamp a)); [done|].
    destruct (bool_decide _) eqn:Hb; [done|]. apply bool_decide_eq_false in Hb. destruct (newer_rtp_ts _ _) eqn:Hn; [done|]. by constructor. }
  destruct (decide (is_Some (parts a1 !! k))) as [Hs|Hs]; [eapply pushed_collected; eauto|]. apply eq_None_not_Some in Hs.
  destruct (retain_fragment _ _ a1) as [a2 [[]|e]] eqn:Hr; simplify_eq.
  - eapply pushed_collected; eauto 10.
  - by eapply (pushed_refused _ _ _ _ _ _ _ (Ok false)).
  - by eapply (pushed_refused _ _ _ _ _ _ _ (Err e)).
Qed.

(** What was collected comes from the stream as well. *)
Lemma collected_tracked f k x a1 a2 :
  tracked a1 → timestamp a1 = rtp_timestamp x → sent k = Some x →
  (is_Some (parts a1 !! k) ∧ a2 = a1 ∨
   parts a1 !! k = None ∧ ∃ a3, retain_fragment f (Z.of_nat (length (payload x))) a1 = (a3, Ok true) ∧ a2 = insert_part k (payload x) a3) →
  tracked (note_marker (marker x) k a2) ∧ timestamp a2 = rtp_timestamp x.
Proof.
  intros Ha Ht Hx [[_ ->]|(_ & a3 & Hr & ->)]; [split; [by apply note_marker_tracked|done]|].
  destruct (retain_tracked f (Z.of_nat (length (payload x))) a1 Ha) as [H1 H2]. rewrite Hr in H1, H2. cbn in H1, H2.
  split; [|cbn; congruence]. apply note_marker_tracked; [apply insert_part_tracked| |]; cbn; congruence.
Qed.

Lemma push_tracked f k x a a' r :
  stream → tracked a → sent k = Some x → near a k → push f x a = (a', r) →
  tracked a' ∧ ∀ u, r = Ok (Some u) → ∃ first last, sent_unit u first last.
Proof.
  intros Hst Ha Hx Hk H. destruct (unwrap_exact a k x Hst (tracked_newest _ Ha) Hx Hk) as (newest & Hu & _ & _).
  assert (tracked (mkAssembler (timestamp a) (parts a) (marker_seq a) (prev_end a) (Some (newest mod 2 ^ 16, newest)) (assembly a))) as Ha0.
  { destruct Ha as [_ H2 H3 H4]. split; cbn; try done. by intros ? ? [= <- <-]. }
  destruct (push_pushed _ _ _ _ _ _ _ Hu H) as [He|Hi Hn Hl|a1 a2 r He Hr Hnr|a1 a2 a' r He Hc Hem]; [done|done|..];
    destruct (enter_tracked _ _ _ _ Ha0 He) as [Ha1 Ht1].
  - destruct (retain_tracked f (Z.of_nat (length (payload x))) a1 Ha1) as [H1 _]. rewrite Hr in H1. split; [done|]. by destruct r as [[]|].
  - destruct (collected_tracked _ _ _ _ _ Ha1 Ht1 Hx Hc) as [Ha2 _]. pose proof (try_emit_tracked f _ Ha2) as Ha'. rewrite Hem in Ha'.
    split; [done|]. intros u ->. destruct (try_emit_sent f _ u Hst Ha2) as (s & e & Hs & _); [by rewrite Hem|]. eauto.
Qed.

(** C6: Reordering within half the sequence space never forges a unit.  Let a sender's
    stream number its packets modulo 2^16, group consecutive positions into units of
    one timestamp with the marker on the last, and give every later unit a timestamp
    that is newer, in the half-range comparison, than those of all units before it;
    and let every packet that arrives be within 2^15 positions of the newest one seen
    (the first at the position of its number).  Then every unit that is ever emitted,
    whatever was lost, repeated or reordered within that window and whatever the flow
    refused, is the tail of a unit the sender sent, framed without a hole and complete
    to its marker; it is the whole unit unless it begins at a payload the codec takes
    for the start of one.  The output reservation that travels with it has its length.
    A gap of 2^15 positions or more is outside the statement: the sequence numbers no
    longer tell the positions apart. *)
Theorem emitted_units_were_sent G a us u : stream → received G a us → u ∈ us → ∃ first last, sent_unit u first last.
Proof.
  intros Hst Hr Hu. enough (tracked a ∧ ∀ u, u ∈ us → ∃ first last, sent_unit u first last) as [_ H] by auto. clear u Hu.
  induction Hr as [|f k x a a' r us Hr [Ha IH] Hx Hk Hp _]; [split; [apply tracked_empty|]; intros ? []%not_elem_of_nil|].
  destruct (push_tracked _ _ _ _ _ _ Hst Ha Hx Hk Hp) as [Ha' He]. split; [done|]. intros u [Hu|Hu]%elem_of_app; [by apply IH|].
  destruct r as [[v|]|]; cbn in Hu; [|by apply not_elem_of_nil in Hu..]. apply list_elem_of_singleton in Hu as ->. by apply He.
Qed.

(** ** While the flow refuses nothing, units come out once and in order *)
Definition unrefused f (r : result TransportError (option AssembledUnit)) : Prop := f = granting ∧ r ≠ Err ByteEnvelopeExceeded.

(** The unit is over: it is older than the one being collected, or it is that one
    and the anchor stands at its end. *)
Definition behind a u : Prop :=
  ∃ last x, sent last = Some x ∧ marker x = true ∧ rtp_timestamp x = au_timestamp u ∧
    (au_timestamp u = timestamp a ∧ prev_end a = Some last ∨ newer_rtp_ts (timestamp a) (au_timestamp u) = true).

(** The timestamp being collected is one of the stream. *)
Definition current a : Prop := ∃ k x, sent k = Some x ∧ rtp_timestamp x = timestamp a.

Lemma behind_ext a a' u : timestamp a' = timestamp a → prev_end a' = prev_end a → behind a u → behind a' u.
Proof. unfold behind. by intros -> ->. Qed.

Lemma behind_advance a k x u :
  stream → current a → behind a u → sent k = Some x → newer_rtp_ts (rtp_timestamp x) (timestamp a) = true →
  newer_rtp_ts (rtp_timestamp x) (au_timestamp u) = true.
Proof.
  intros Hst (c & z & Hz & Hc) (last & y & Hy & _ & Hyu & Hb) Hx Hn.
  assert (∀ i j v w, sent i = Some v → sent j = Some w → newer_rtp_ts (rtp_timestamp w) (rtp_timestamp v) = true → i < j) as Hlt.
  { intros i j v w Hv Hw Hnew. pose proof (newer_neq _ _ Hnew). destruct (Z.lt_trichotomy i j) as [|[->|Hji]]; [done|congruence|].
    pose proof (stream_newer Hst j i w v Hw Hv Hji ltac:(congruence)) as Hrev.
    rewrite newer_asym in Hrev; [done|by eapply (stream_timestamp Hst)..|done]. }
  rewrite <- Hc in Hn. pose proof (Hlt _ _ _ _ Hz Hx Hn) as Hck. destruct Hb as [[Heq _]|Hold]; [congruence|].
  rewrite <- Hc, <- Hyu in Hold. pose proof (Hlt _ _ _ _ Hy Hz Hold) as Hlc. rewrite <- Hyu.
  apply (stream_newer Hst last k); [done|done|lia|]. intros Heq.
  destruct (stream_unit Hst last k y x Hy Hx Heq c ltac:(lia)) as (w & Hw & Hwy). apply newer_neq in Hold. congruence.
Qed.

Lemma enter_behind b k x a a' us :
  stream → enter_timestamp b (rtp_timestamp x) a = Some a' → sent k = Some x → (b = true → us = []) → (b = false → current a) →
  (∀ u, u ∈ us → behind a u) → ∀ u, u ∈ us → behind a' u.
Proof.
  intros Hst He Hx Hnone Hcur Hus u Hu. unfold enter_timestamp in He.
  destruct (Z.eqb_spec (rtp_timestamp x) (timestamp a)) as [|Hne]; [simplify_eq; auto|].
  destruct b; [rewrite Hnone in Hu by done; by apply not_elem_of_nil in Hu|]. cbn in He. destruct (newer_rtp_ts _ _) eqn:Hn; [|done]. simplify_eq.
  pose proof (behind_advance a k x u Hst (Hcur eq_refl) (Hus u Hu) Hx Hn) as Hnew.
  destruct (Hus u Hu) as (last & y & ? & ? & ? & _). exists last, y. auto.
Qed.

(** A chain is framed only when every earlier unit is older. *)
Lemma chain_behind a first last u :
  stream → tracked a → complete_chain a first last → behind a u → newer_rtp_ts (timestamp a) (au_timestamp u) = true.
Proof.
  intros Hst Ha [_ Hs Ho Hf] (e & x & Hx & Hm & Hxu & [[Ht Hp]|]); [|done]. exfalso. unfold unit_start in Hs. rewrite Hp in Hs. simplify_eq.
  destruct (Hf (e + 1) ltac:(lia)) as [p Hpart]. destruct (tracked_part _ Ha _ _ Hpart) as (y & Hy & _ & Hty).
  apply (stream_marker Hst e x y Hx Hm Hy). congruence.
Qed.

Lemma try_emit_behind f a us :
  stream → tracked a → (∀ u, u ∈ us → behind a u) → f = granting →
  (∀ u, u ∈ us ++ emitted (try_emit f a).2 → behind (try_emit f a).1 u) ∧
  ∀ v, (try_emit f a).2 = Ok (Some v) → ∀ u, u ∈ us → newer_rtp_ts (au_timestamp v) (au_timestamp u) = true.
Proof.
  intros Hst Ha Hus ->. destruct (try_emit_cases granting a) as [(s & e & Hc & ->)|[_ ->]]; [|split; [|done]; cbn; by rewrite app_nil_r].
  destruct (emit_chain_cases granting s e a) as (anchor & r & -> & [->|[_ ?]] & Hr); [|done]. cbn [fst snd]. split.
  - intros u [Hu|Hu]%elem_of_app.
    + pose proof (chain_behind _ _ _ _ Hst Ha Hc (Hus u Hu)). destruct (Hus u Hu) as (l & y & ? & ? & ? & _). exists l, y. auto.
    + destruct r as [[v|]|]; cbn in Hu; [|by apply not_elem_of_nil in Hu..]. apply list_elem_of_singleton in Hu as ->.
      destruct (Hr v eq_refl) as (_ & Ht & _). destruct (tracked_marker _ Ha _ (chain_marker _ _ _ Hc)) as (y & ? & ? & ?).
      exists e, y. split; [done|]. split; [done|]. split; [congruence|]. left. by rewrite Ht.
  - intros v ->. destruct (Hr v eq_refl) as (_ & -> & _). intros u Hu. by eapply chain_behind; [..|apply Hus].
Qed.

Lemma granting_retains size a a' r : retain_fragment granting size a = (a', r) → r = Ok true ∨ r = Err ByteEnvelopeExceeded.
Proof. unfold retain_fragment. cbn. intros H. destruct (assembly a); cbn in H; case_match; simplify_eq; auto. Qed.

Lemma retain_keeps f size a a' : retain_fragment f size a = (a', Ok true) → timestamp a' = timestamp a ∧ prev_end a' = prev_end a.
Proof. unfold retain_fragment. intros H. run_cases; done. Qed.

(** The invariant of an unrefused run. *)
Record ordered a us : Prop := {
  ordered_tracked : tracked a;
  ordered_fresh : last_seq a = None → us = [];
  ordered_current : last_seq a ≠ None → current a;
  ordered_behind : ∀ u, u ∈ us → behind a u;
  ordered_sorted : StronglySorted (λ u v, newer_rtp_ts (au_timestamp v) (au_timestamp u) = true) us;
}.

Lemma sorted_snoc us r :
  StronglySorted (λ u v, newer_rtp_ts (au_timestamp v) (au_timestamp u) = true) us →
  (∀ v, r = Ok (Some v) → ∀ u, u ∈ us → newer_rtp_ts (au_timestamp v) (au_timestamp u) = true) →
  StronglySorted (λ u v, newer_rtp_ts (au_timestamp v) (au_timestamp u) = true) (us ++ emitted r).
Proof.
  intros Hs Hr. destruct r as [[v|]|]; cbn; [|by rewrite app_nil_r..]. induction Hs as [|w us Hs IH Hw]; cbn; [by repeat constructor|].
  constructor; [apply IH; intros z Hz u Hu; apply (Hr z Hz); by right|]. apply Forall_app. split; [done|]. constructor; [|done].
  apply (Hr v eq_refl). by left.
Qed.

Lemma last_seq_retain f size a : last_seq (retain_fragment f size a).1 = last_seq a.
Proof. unfold retain_fragment. run_cases; done. Qed.
Lemma last_seq_try_emit f a : last_seq (try_emit f a).1 = last_seq a ∧ timestamp (try_emit f a).1 = timestamp a.
Proof. by destruct (try_emit_state f a) as [->|[? ->]]. Qed.

Lemma collected_same f k x a1 a2 :
  (is_Some (parts a1 !! k) ∧ a2 = a1 ∨
   parts a1 !! k = None ∧ ∃ a3, retain_fragment f (Z.of_nat (length (payload x))) a1 = (a3, Ok true) ∧ a2 = insert_part k (payload x) a3) →
  timestamp (note_marker (marker x) k a2) = timestamp a1 ∧ prev_end (note_marker (marker x) k a2) = prev_end a1 ∧
  last_seq (note_marker (marker x) k a2) = last_seq a1.
Proof.
  intros [[_ ->]|(_ & a3 & Hr & ->)]; [by destruct (marker x)|]. pose proof (retain_keeps _ _ _ _ Hr) as [? ?].
  pose proof (last_seq_retain f (Z.of_nat (length (payload x))) a1) as Hl. rewrite Hr in Hl. by destruct (marker x).
Qed.

Lemma push_ordered k x a a' r us :
  stream → ordered a us → sent k = Some x → near a k → push granting x a = (a', r) → r ≠ Err ByteEnvelopeExceeded →
  ordered a' (us ++ emitted r).
Proof.
  intros Hst [Ha Hf Hc Hb Hs] Hx Hk H Hne. pose proof (push_tracked _ _ _ _ _ _ Hst Ha Hx Hk H) as [Ha' _].
  destruct (unwrap_exact a k x Hst (tracked_newest _ Ha) Hx Hk) as (newest & Hu & _ & _).
  assert (tracked (mkAssembler (timestamp a) (parts a) (marker_seq a) (prev_end a) (Some (newest mod 2 ^ 16, newest)) (assembly a))) as Ha0.
  { destruct Ha as [_ H2 H3 H4]. split; cbn; try done. by intros ? ? [= <- <-]. }
  destruct (push_pushed _ _ _ _ _ _ _ Hu H) as [He|Hi Hn Hl|a1 a2 r He Hr Hnr|a1 a2 a' r He Hcol Hem].
  - cbn. rewrite app_nil_r. by split.
  - cbn. rewrite app_nil_r. split; cbn; try done. intros _. by apply Hc.
  - exfalso. apply granting_retains in Hr as [-> | ->]; done.
  - destruct (enter_tracked _ _ _ _ Ha0 He) as [Ha1 Ht1]. destruct (collected_tracked _ _ _ _ _ Ha1 Ht1 Hx Hcol) as [Ha2 _].
    destruct (collected_same _ _ _ _ _ Hcol) as (Ht2 & Hp2 & Hl2). destruct (last_seq_try_emit granting (note_marker (marker x) k a2)) as [Hl3 Ht3].
    assert (last_seq a1 ≠ None) as Hl1 by (unfold enter_timestamp in He; run_cases; done).
    assert (∀ u, u ∈ us → behind (note_marker (marker x) k a2) u) as Hb2.
    { intros u Hin. apply (behind_ext a1); [done|done|]. eapply enter_behind; [done|exact He|done|..|exact Hin].
      - intros Hbd%bool_decide_eq_true. by apply Hf.
      - intros Hbd%bool_decide_eq_false. by apply Hc.
      - done. }
    destruct (try_emit_behind granting _ us Hst Ha2 Hb2 eq_refl) as [Hb3 Hnew]. rewrite Hem in Hb3, Hnew, Hl3, Ht3. cbn in Hb3, Hnew, Hl3, Ht3.
    split; [done|congruence| |done|by apply sorted_snoc]. intros _. exists k, x. split; [done|congruence].
Qed.

(** While the flow refuses nothing, each unit emitted is newer than all before it: no
    unit is emitted twice and none out of order. *)
Theorem units_come_in_order a us :
  stream → received unrefused a us →
  StronglySorted (λ u v, newer_rtp_ts (au_timestamp v) (au_timestamp u) = true) us.
Proof.
  intros Hst Hr. apply (ordered_sorted a). induction Hr as [|f k x a a' r us Hr IH Hx Hk Hp [-> Hne]].
  - split; [apply tracked_empty|done|done|by intros ? ?%not_elem_of_nil|constructor].
  - by eapply push_ordered.
Qed.

(** ** A unit whose packets all arrive is emitted, in whatever order they come *)
Section arrival.
Variables (first last t : Z).

Definition in_unit (k : Z) : Prop := first ≤ k ≤ last.

(** The unit: its packets, its size, and what the codec makes of it. *)
Record whole_unit (n : Z) (built : bytes) : Prop := {
  whole_order : first ≤ last;
  whole_span : last - first < 2 ^ 15;
  whole_packets : ∀ k, in_unit k → ∃ x, sent k = Some x ∧ rtp_timestamp x = t ∧ payload x ≠ [] ∧ (marker x = true ↔ k = last);
  whole_bytes : msum (λ p, Z.of_nat (length p)) (sent_parts first last) ≤ usize_max;
  whole_framed : framed_len (sent_chain first last) = Ok n;
  whole_written : write_framed (sent_chain first last) n = Ok built;
  whole_nonempty : built ≠ [];
}.

(** The assembler holds the packets of [held], and the next unit starts after [anchor]. *)
Record holding a (held : gset Z) (anchor : Z) : Prop := {
  holding_unit : ∀ k, k ∈ held → in_unit k;
  holding_parts : ∀ k, parts a !! k = if decide (k ∈ held) then payload <$> sent k else None;
  holding_marker : marker_seq a = if decide (last ∈ held) then Some last else None;
  holding_anchor : prev_end a = Some anchor;
  holding_timestamp : timestamp a = t ∨ held = ∅ ∧ newer_rtp_ts t (timestamp a) = true;
  holding_newest : ∃ newest, last_seq a = Some (newest mod 2 ^ 16, newest) ∧ last - 2 ^ 15 < newest ≤ last;
  holding_funded : funded a;
}.

Lemma msum_subseteq (g : bytes → Z) (m m' : gmap Z bytes) : (∀ p, 0 ≤ g p) → m ⊆ m' → msum g m ≤ msum g m'.
Proof.
  intros Hg. revert m'. induction m as [|k p m Hk IH] using map_ind; intros m' Hm.
  - rewrite msum_empty. apply msum_nonneg. auto.
  - rewrite msum_insert by done. assert (m' !! k = Some p) as Hp by (eapply lookup_weaken; [apply lookup_insert_eq|done]).
    rewrite (msum_delete _ _ _ _ Hp). enough (msum g m ≤ msum g (delete k m')) by lia. apply IH.
    rewrite <- (delete_id m k) by done. apply delete_mono. etrans; [by apply insert_subseteq|done].
Qed.

(** Nothing held overflows the reservation. *)
Lemma holding_fits n built a held anchor k x :
  whole_unit n built → holding a held anchor → in_unit k → sent k = Some x → k ∉ held →
  msum (λ p, Z.of_nat (length p)) (parts a) + Z.of_nat (length (payload x)) ≤ usize_max ∧ Z.of_nat (size (parts a)) + 1 ≤ usize_max.
Proof.
  intros Hw Hh Hk Hx Hn. assert (<[k := payload x]> (parts a) ⊆ sent_parts first last) as Hsub.
  { apply map_subseteq_spec. intros j p Hj. destruct (decide (j = k)) as [->|Hjk].
    - rewrite lookup_insert_eq in Hj. rewrite sent_parts_lookup, Hx by done. done.
    - rewrite lookup_insert_ne, (holding_parts _ _ _ Hh) in Hj by done. destruct (decide (j ∈ held)) as [Hin|]; [|done].
      rewrite sent_parts_lookup by (by apply (holding_unit _ _ _ Hh)). done. }
  assert (parts a !! k = None) as Hnone by (rewrite (holding_parts _ _ _ Hh); by rewrite decide_False).
  assert (msum (λ p, Z.of_nat (length p)) (<[k := payload x]> (parts a)) ≤ usize_max) as Hb.
  { etrans; [apply msum_subseteq; [intros; lia|exact Hsub]|apply (whole_bytes _ _ Hw)]. }
  assert (msum (λ _, 1) (<[k := payload x]> (parts a)) ≤ msum (λ p, Z.of_nat (length p)) (<[k := payload x]> (parts a))) as Hc.
  { apply msum_le. intros j p Hj. pose proof (lookup_weaken _ _ _ _ Hj Hsub) as Hp. assert (in_unit j) as Hin.
    { destruct (decide (j = k)) as [->|]; [done|]. rewrite lookup_insert_ne, (holding_parts _ _ _ Hh) in Hj by done.
      destruct (decide (j ∈ held)); [by apply (holding_unit _ _ _ Hh)|done]. }
    rewrite sent_parts_lookup in Hp by done. destruct (whole_packets _ _ Hw j Hin) as (y & Hy & _ & Hne & _). rewrite Hy in Hp. cbn in Hp. simplify_eq.
    destruct (payload y); [done|cbn; lia]. }
  rewrite !msum_insert in * by done. rewrite msum_const in Hc. lia.
Qed.

Lemma holding_near n built a held anchor k :
  whole_unit n built → holding a held anchor → in_unit k → near a k.
Proof.
  intros Hw Hh Hk. destruct (holding_newest _ _ _ Hh) as (newest & Hl & Hn). unfold near. rewrite Hl. unfold in_unit in Hk.
  pose proof (whole_span _ _ Hw). lia.
Qed.

(** Entering the unit's timestamp keeps what is held. *)
Lemma holding_enter a held anchor newest :
  holding a held anchor → last - 2 ^ 15 < newest ≤ last →
  ∃ a1, enter_timestamp (bool_decide (last_seq a = None)) t
      (mkAssembler (timestamp a) (parts a) (marker_seq a) (prev_end a) (Some (newest mod 2 ^ 16, newest)) (assembly a)) = Some a1 ∧
    holding a1 held anchor ∧ timestamp a1 = t.
Proof.
  intros [H1 H2 H3 H4 H5 H6 H7] Hn. unfold enter_timestamp. cbn. destruct (Z.eqb_spec t (timestamp a)) as [Ht|Ht].
  - eexists. split; [done|]. split; [|done]. split; cbn; eauto.
  - destruct H5 as [|[-> Hnew]]; [done|]. rewrite Hnew, orb_true_r. eexists. split; [done|]. split; [|done].
    assert (parts a = ∅) as -> by (apply map_empty; intros k; by rewrite H2, decide_False by set_solver).
    rewrite decide_True by done. split; cbn; eauto.
Qed.

Lemma granting_keeps a (p : bytes) :
  funded a → msum (λ p, Z.of_nat (length p)) (parts a) + Z.of_nat (length p) ≤ usize_max → Z.of_nat (size (parts a)) + 1 ≤ usize_max →
  ∃ r, retain_fragment granting (Z.of_nat (length p)) a =
    (mkAssembler (timestamp a) (parts a) (marker_seq a) (prev_end a) (last_seq a) (Some r), Ok true).
Proof.
  intros Hf Hb Hc. unfold retain_fragment, funded in *. cbn. unfold retain_ordered_fragment.
  destruct (assembly a) as [r|]; cbn [retained_bytes retained_fragments begin_unit granting unit_begun].
  - destruct Hf as (-> & -> & _). rewrite (proj2 (checked_add_Some _ _ _ _)) by (split; [done|lia]). cbn [mbind option_bind].
    rewrite (proj2 (checked_add_Some _ _ _ _)) by (split; [done|lia]). by eexists.
  - rewrite Hf, msum_empty in Hb. rewrite (proj2 (checked_add_Some _ _ _ _)) by (split; [done|lia]). cbn [mbind option_bind].
    rewrite (proj2 (checked_add_Some _ _ _ _)) by (split; [done|lia]). by eexists.
Qed.

Lemma holding_insert n built a held anchor k x r :
  whole_unit n built → holding a held anchor → timestamp a = t → in_unit k → sent k = Some x →
  funded (insert_part k (payload x) (mkAssembler (timestamp a) (parts a) (marker_seq a) (prev_end a) (last_seq a) (Some r))) →
  holding (note_marker (marker x) k (insert_part k (payload x)
    (mkAssembler (timestamp a) (parts a) (marker_seq a) (prev_end a) (last_seq a) (Some r)))) ({[k]} ∪ held) anchor.
Proof.
  intros Hw [H1 H2 H3 H4 H5 H6 H7] Ht Hk Hx Hf. destruct (whole_packets _ _ Hw k Hk) as (y & Hy & _ & _ & Hm). assert (y = x) as -> by congruence.
  split.
  - set_solver.
  - intros j. replace (parts (note_marker _ _ _)) with (<[k := payload x]> (parts a)) by (by destruct (marker x)).
    destruct (decide (j = k)) as [->|Hn].
    + by rewrite lookup_insert_eq, decide_True, Hx by set_solver.
    + rewrite lookup_insert_ne, H2 by done. destruct (decide (j ∈ held)); [rewrite decide_True by set_solver|rewrite decide_False by set_solver]; done.
  - destruct (marker x); cbn.
    + assert (k = last) as -> by tauto. by rewrite decide_True by set_solver.
    + assert (k ≠ last) by (intros ->; by destruct Hm as [_ Hm]; specialize (Hm eq_refl)). rewrite H3.
      destruct (decide (last ∈ held)); [rewrite decide_True by set_solver|rewrite decide_False by set_solver]; done.
  - by destruct (marker x).
  - left. by destruct (marker x).
  - by destruct (marker x).
  - by destruct (marker x).
Qed.

(** A packet of the unit joins what is held. *)
Lemma holding_collect n built a held anchor k x :
  stream → whole_unit n built → holding a held anchor → in_unit k → sent k = Some x →
  ∃ a', push granting x a = try_emit granting a' ∧ holding a' ({[k]} ∪ held) anchor ∧ timestamp a' = t.
Proof.
  intros Hst Hw Hh Hk Hx. destruct (whole_packets _ _ Hw k Hk) as (y & Hy & Ht & Hne & Hm). assert (y = x) as -> by congruence. clear Hy.
  destruct (holding_newest _ _ _ Hh) as (old & Hold & Hrange).
  destruct (unwrap_exact a k x Hst) as (newest & Hu & Hkn & Hnew); [intros raw nw E; rewrite Hold in E; by simplify_eq|done|by eapply holding_near|].
  assert (last - 2 ^ 15 < newest ≤ last) as Hn'.
  { destruct Hnew as [->|[raw E]]; [|rewrite Hold in E; simplify_eq; lia]. unfold in_unit in Hk. pose proof (whole_span _ _ Hw). lia. }
  destruct (holding_enter a held anchor newest Hh Hn') as (a1 & He & Hh1 & Ht1).
  unfold push. rewrite decide_False by done. rewrite Hu, Ht, He. pose proof Hh1 as [H1 H2 H3 H4 H5 H6 H7].
  destruct (decide (k ∈ held)) as [Hin|Hin].
  - rewrite decide_True by (rewrite H2, decide_True, Hx by done; by eexists). eexists. split; [done|].
    assert (note_marker (marker x) k a1 = a1) as ->.
    { destruct (marker x); [|done]. destruct a1. cbn in *. f_equal. rewrite H3. assert (k = last) as -> by tauto. by rewrite decide_True. }
    split; [|done]. by replace ({[k]} ∪ held) with held by set_solver.
  - assert (parts a1 !! k = None) as Hnone by (by rewrite H2, decide_False). rewrite decide_False by (rewrite Hnone; by intros [? ?]).
    destruct (holding_fits n built a1 held anchor k x Hw Hh1 Hk Hx Hin) as [Hb Hc].
    destruct (granting_keeps a1 (payload x) H7 Hb Hc) as (res & Hr). pose proof (retain_funded _ _ k _ _ Hr Hnone H7) as Hf. rewrite Hr.
    eexists. split; [done|]. split; [by eapply holding_insert|by destruct (marker x)].
Qed.

Lemma holding_chain a held anchor s e : holding a held anchor → complete_chain a s e → s = anchor + 1 ∧ e = last ∧ s ≤ e ∧ ∀ k, s ≤ k ≤ e → k ∈ held.
Proof.
  intros [H1 H2 H3 H4 _ _ _] [Hm Hs Ho Hf]. unfold unit_start in Hs. rewrite H4 in Hs. rewrite H3 in Hm.
  destruct (decide (last ∈ held)); simplify_eq. split; [done|]. split; [done|]. split; [done|]. intros k Hk. destruct (Hf k Hk) as [p Hp].
  rewrite H2 in Hp. by destruct (decide (k ∈ held)).
Qed.

(** With a packet missing, or after the unit was emitted, nothing is emitted. *)
Lemma holding_waits a held anchor :
  holding a held anchor → (anchor = last ∨ anchor = first - 1 ∧ ∃ k, in_unit k ∧ k ∉ held) → try_emit granting a = (a, Ok None).
Proof.
  intros Hh Hw. destruct (try_emit_cases granting a) as [(s & e & Hc & _)|[_ ->]]; [|done]. exfalso.
  destruct (holding_chain _ _ _ _ _ Hh Hc) as (-> & -> & Ho & Hall). destruct Hw as [->|[-> (k & Hk & Hn)]]; [lia|].
  apply Hn, Hall. unfold in_unit in Hk. lia.
Qed.

(** With every packet there, the unit is emitted. *)
Lemma holding_emits n built a held :
  whole_unit n built → holding a held (first - 1) → timestamp a = t → (∀ k, in_unit k → k ∈ held) →
  try_emit granting a = (consumed a (Some last), Ok (Some (mkUnit t (is_entry_point built) built (Some n)))).
Proof.
  intros Hw Hh Ht Hall. pose proof Hh as [_ H2 H3 H4 _ _ _]. pose proof (whole_order _ _ Hw) as Ho. unfold in_unit in Hall.
  assert (complete_chain a first last) as Hc.
  { split; [by rewrite H3, decide_True by (apply Hall; lia)|unfold unit_start; rewrite H4; f_equal; lia|done|].
    intros k Hk. rewrite H2, decide_True by auto. destruct (whole_packets _ _ Hw k Hk) as (x & -> & _). by eexists. }
  destruct (try_emit_cases granting a) as [(s & e & Hc' & ->)|[Hn _]]; [|exfalso; eauto].
  destruct (holding_chain _ _ _ _ _ Hh Hc') as (-> & -> & _). replace (first - 1 + 1) with first by lia.
  assert (same_chain (mkFragments (parts a) first last) (sent_chain first last)) as Hs.
  { split; [done|]. split; [done|]. cbn. intros k Hk. by rewrite H2, decide_True, sent_parts_lookup by auto. }
  unfold emit_chain. rewrite (law_framed_len _ _ Hs), (whole_framed _ _ Hw), (law_write_framed _ _ _ Hs), (whole_written _ _ Hw).
  destruct (law_two_phases _ _ (whole_framed _ _ Hw)) as (d & Hd & Hl). rewrite (whole_written _ _ Hw) in Hd. simplify_eq.
  pose proof (whole_nonempty _ _ Hw). destruct d as [|b d]; [done|]. by rewrite (proj2 (Z.eqb_neq _ _)), Ht by (cbn; lia).
Qed.

Lemma holding_consumed a held anchor : holding a held anchor → timestamp a = t → holding (consumed a (Some last)) ∅ last.
Proof. intros [_ _ _ _ _ H6 _] Ht. split; cbn; [set_solver| | |done|by left|done|done]; intros; by rewrite decide_False by set_solver. Qed.

(** The units emitted when the packets at these positions arrive in turn. *)
Definition deliver (l : list Z) a : list AssembledUnit :=
  concat (emitted <$> (run_packets (omap (λ k, pair granting <$> sent k) l) a).2).

Lemma deliver_cons k x l a : sent k = Some x → deliver (k :: l) a = emitted (push granting x a).2 ++ deliver l (push granting x a).1.
Proof. intros Hx. unfold deliver. cbn [omap list_omap]. rewrite Hx. cbn [fmap option_fmap option_map]. by rewrite run_packets_cons. Qed.

Lemma deliver_spent n built l a held :
  stream → whole_unit n built → holding a held last → Forall in_unit l → deliver l a = [].
Proof.
  intros Hst Hw Hh Hl. revert a held Hh. induction Hl as [|k l Hk Hl IH]; intros a held Hh; [done|].
  destruct (whole_packets _ _ Hw k Hk) as (x & Hx & _). destruct (holding_collect _ _ _ _ _ _ _ Hst Hw Hh Hk Hx) as (a' & Hp & Hh' & _).
  rewrite (deliver_cons _ _ _ _ Hx), Hp, (holding_waits _ _ _ Hh') by auto. cbn. by eapply IH.
Qed.

Lemma deliver_completes n built l a held :
  stream → whole_unit n built → holding a held (first - 1) → Forall in_unit l →
  (∃ k, in_unit k ∧ k ∉ held) → (∀ k, in_unit k → k ∈ held ∨ k ∈ l) →
  deliver l a = [mkUnit t (is_entry_point built) built (Some n)].
Proof.
  intros Hst Hw Hh Hl. revert a held Hh. induction Hl as [|k l Hk Hl IH]; intros a held Hh (j & Hj & Hjn) Hall.
  { exfalso. destruct (Hall j Hj) as [|?%not_elem_of_nil]; done. }
  destruct (whole_packets _ _ Hw k Hk) as (x & Hx & _). destruct (holding_collect _ _ _ _ _ _ _ Hst Hw Hh Hk Hx) as (a' & Hp & Hh' & Ht').
  rewrite (deliver_cons _ _ _ _ Hx), Hp.
  destruct (decide (Forall (λ i, i ∈ {[k]} ∪ held) (seqZ first (last - first + 1)))) as [Hfull|Hhole].
  - assert (∀ i, in_unit i → i ∈ {[k]} ∪ held) as Hfull'.
    { intros i Hi. rewrite Forall_forall in Hfull. apply Hfull, elem_of_seqZ. unfold in_unit in Hi. lia. }
    rewrite (holding_emits _ _ _ _ Hw Hh' Ht' Hfull'). cbn. f_equal. eapply deliver_spent; [done|done|by eapply holding_consumed|done].
  - apply not_Forall_Exists, Exists_exists in Hhole as (i & Hi%elem_of_seqZ & Hin); [|intros ?; apply _].
    assert (in_unit i) as Hiu by (unfold in_unit; lia).
    rewrite (holding_waits _ _ _ Hh') by eauto. cbn. apply (IH _ _ Hh'); [eauto|]. intros m Hm. specialize (Hall m Hm). set_solver.
Qed.

(** When the anchor stands right before a unit and nothing of it is held, the arrival
    of its packets in any order, any of them any number of times, emits the unit,
    exactly once, as the codec frames it. *)
Theorem arrived_unit_is_emitted n built l a :
  stream → whole_unit n built → holding a ∅ (first - 1) → Forall in_unit l → (∀ k, in_unit k → k ∈ l) →
  deliver l a = [mkUnit t (is_entry_point built) built (Some n)].
Proof.
  intros Hst Hw Hh Hl Hall. eapply (deliver_completes _ _ _ _ ∅); eauto.
  exists first. split; [|set_solver]. pose proof (whole_order _ _ Hw). unfold in_unit. lia.
Qed.
End arrival.
End sender.
