(* ===== verification/VideoPath.v ===== *)
(** * From a fragmented NAL unit to the assembled one

    The assembler of UnitAssembly with the framing of H264: a NAL unit that a sender
    fragments over a run of packets comes out as it was, whatever the order in which
    the packets arrive.  The histories at the end show two packets that carry nothing
    new and yet cost a unit: a repetition of one just emitted, and padding. *)

From S2P Require Import Prelude Ranking Bytes UnitAssembly H264 UnitDelivery.
Local Open Scope Z_scope.

(** The payloads of a chain without holes, in order. *)
Lemma range_list (m : gmap Z bytes) low l :
  (∀ i p, l !! i = Some p → m !! (low + Z.of_nat i) = Some p) → (range_of m low (low + Z.of_nat (length l) - 1)).*2 = l.
Proof.
  induction l as [|p l IH] using rev_ind; intros H; [by rewrite range_empty by (cbn; lia)|].
  rewrite range_snoc, fmap_app by (rewrite length_app; cbn; lia). f_equal.
  - replace (low + Z.of_nat (length (l ++ [p])) - 1 - 1) with (low + Z.of_nat (length l) - 1) by (rewrite length_app; cbn; lia).
    apply IH. intros i q Hi. apply H. by apply lookup_app_l_Some.
  - replace (low + Z.of_nat (length (l ++ [p])) - 1) with (low + Z.of_nat (length l)) by (rewrite length_app; cbn; lia).
    rewrite (H (length l) p); [done|]. apply list_lookup_middle. done.
Qed.

Section fragmented.
Variables (sent : Z → option Packet) (first last t : Z) (h : Ascii.ascii) (chunks : list bytes).

(** The unit at these positions is the fragmentation of [h :: concat chunks]. *)
Record fragmented_unit : Prop := {
  fragmented_count : last - first + 1 = Z.of_nat (length chunks);
  fragmented_some : chunks ≠ [];
  fragmented_span : last - first < 2 ^ 15;
  fragmented_chunks : Forall (λ c, c ≠ []) chunks;
  fragmented_header : value h < 128;
  fragmented_packets : ∀ k, first ≤ k ≤ last → ∃ x, sent k = Some x ∧ rtp_timestamp x = t ∧
    fua_payloads h true chunks !! Z.to_nat (k - first) = Some (payload x) ∧ (marker x = true ↔ k = last);
  fragmented_size : 5 * total_len (fua_payloads h true chunks) ≤ usize_max;
}.

Lemma length_fua b l : length (fua_payloads h b l) = length l.
Proof. revert b. induction l as [|c l IH]; intros b; cbn; [done|]. by rewrite IH. Qed.

Lemma fua_nonempty b l p : p ∈ fua_payloads h b l → p ≠ [].
Proof. revert b. induction l as [|c l IH]; intros b; cbn; [by intros ?%not_elem_of_nil|]. intros [->|Hp]%elem_of_cons; [done|by eapply IH]. Qed.

Lemma fragmented_payloads : fragmented_unit → payloads (sent_chain sent first last) = fua_payloads h true chunks.
Proof.
  intros Hf. unfold payloads, fragments_iter. cbn [uf_parts uf_start uf_end sent_chain].
  pose proof (range_list (sent_parts sent first last) first (fua_payloads h true chunks)) as Hr.
  replace (first + Z.of_nat (length (fua_payloads h true chunks)) - 1) with last in Hr by (rewrite length_fua; pose proof (fragmented_count Hf); lia).
  apply Hr. intros i p Hi. pose proof (lookup_lt_Some _ _ _ Hi) as Hl. rewrite length_fua in Hl. pose proof (fragmented_count Hf).
  destruct (fragmented_packets Hf (first + Z.of_nat i)) as (x & Hx & _ & Hp & _); [lia|].
  rewrite sent_parts_lookup, Hx by lia. cbn. replace (Z.to_nat (first + Z.of_nat i - first)) with i in Hp by lia. congruence.
Qed.

Lemma sent_bytes_total l (m : gmap Z bytes) low :
  (∀ k p, m !! k = Some p → low ≤ k ∧ l !! Z.to_nat (k - low) = Some p) → msum (λ p, Z.of_nat (length p)) m ≤ total_len l.
Proof.
  revert m low. induction l as [|q l IH]; intros m low H.
  - assert (m = ∅) as ->; [|by rewrite msum_empty]. apply map_empty. intros k. destruct (m !! k) eqn:Hk; [|done]. by apply H in Hk as [_ ?].
  - cbn. assert (msum (λ p, Z.of_nat (length p)) (delete low m) ≤ total_len l) as Hd.
    { apply (IH _ (low + 1)). intros k p [Hn Hk]%lookup_delete_Some. destruct (H k p Hk) as [Hle Hl]. split; [lia|].
      replace (Z.to_nat (k - low)) with (S (Z.to_nat (k - (low + 1)))) in Hl by lia. done. }
    destruct (m !! low) as [p|] eqn:Hlow.
    + rewrite (msum_delete _ _ _ _ Hlow). destruct (H low p Hlow) as [_ Hl]. rewrite Z.sub_diag in Hl. change (Some q = Some p) in Hl. simplify_eq. unfold len. lia.
    + rewrite delete_id in Hd by done. pose proof (len_nonneg q). lia.
Qed.

Lemma sent_parts_range k p : sent_parts sent first last !! k = Some p → first ≤ k ≤ last.
Proof.
  unfold sent_parts. intros H. enough (k ∈ seqZ first (last - first + 1)) as Hk by (rewrite elem_of_seqZ in Hk; lia).
  induction (seqZ first (last - first + 1)) as [|j l IH]; [done|]. cbn in H. apply elem_of_cons.
  destruct (sent j); [|auto]. apply lookup_insert_Some in H as [[-> _]|[_ ?]]; auto.
Qed.

Lemma fragmented_whole :
  fragmented_unit → whole_unit sent first last t (len (annexb [h :: concat chunks])) (annexb [h :: concat chunks]).
Proof.
  intros Hf. pose proof (fragmented_payloads Hf) as Hp. pose proof (fragmented_count Hf) as Hc.
  assert (nal_units (payloads (sent_chain sent first last)) = Some [h :: concat chunks]) as Hn.
  { rewrite Hp. unfold nal_units. by rewrite ref_fold_fua by apply Hf. }
  assert (annexb_output_len (sent_chain sent first last) = Ok (len (annexb [h :: concat chunks]))) as Hl.
  { destruct (ref_fold (payloads (sent_chain sent first last)) ([], None)) as [s|] eqn:Hs; unfold nal_units in Hn; rewrite Hs in Hn; [|done].
    cbn in Hn. simplify_eq. pose proof (ref_fold_fits _ [] None s Hs) as Hfit. unfold annexb_output_len. fold (payloads (sent_chain sent first last)).
    change (len (annexb [])) with 0 in Hfit. cbn [fmap option_fmap option_map] in Hfit. rewrite Hfit; [rewrite bind_ret; by f_equal; destruct s; cbn in *; subst|].
    rewrite Hp. exact (fragmented_size Hf). }
  destruct (annexb_accepted _ _ Hl) as (nals & Hn' & Hw & _). assert (nals = [h :: concat chunks]) as -> by congruence.
  split; [pose proof (fragmented_some Hf); destruct chunks; [done|cbn in Hc; lia]|apply Hf| |
    |exact Hl|exact Hw|by rewrite annexb_one].
  - intros k Hk. destruct (fragmented_packets Hf k Hk) as (x & Hx & Ht & Hpay & Hm). exists x. split; [done|]. split; [done|]. split; [|done].
    eapply fua_nonempty, list_elem_of_lookup_2. exact Hpay.
  - etrans; [apply (sent_bytes_total (fua_payloads h true chunks) _ first)|].
    + intros k p Hk. pose proof (sent_parts_range _ _ Hk) as Hr. rewrite sent_parts_lookup in Hk by done.
      destruct (fragmented_packets Hf k Hr) as (x & Hx & _ & Hpay & _). rewrite Hx in Hk. cbn in Hk. simplify_eq. split; [lia|done].
    + pose proof (fragmented_size Hf). assert (0 ≤ total_len (fua_payloads h true chunks)); [|lia].
      clear. induction (fua_payloads h true chunks) as [|q l IH]; cbn; [lia|]. pose proof (len_nonneg q). lia.
Qed.

(** C22: End to end, one unit: let the assembler hold nothing and be anchored exactly at
    the position before the unit, the newest position seen being less than 2^15 before
    the unit's last and not beyond it, and let the flow grant every request.  Then the
    packets of a NAL unit fragmented over fewer than 2^15 + 1 packets, arriving in any
    order and any number of times with no other packet between them, give the receiver
    that NAL unit behind a start code, exactly once; it is marked as an entry point if
    it is an IDR slice. *)
Theorem fragmented_unit_is_delivered a l :
  stream sent → fragmented_unit → holding sent first last t a ∅ (first - 1) →
  Forall (in_unit first last) l → (∀ k, in_unit first last k → k ∈ l) →
  ∃ u, deliver sent l a = [u] ∧ au_timestamp u = t ∧ data u = ANNEXB_START_CODE ++ h :: concat chunks ∧
    (Z.land (value h) 31 = 5 → entry_point u = true).
Proof.
  intros Hst Hf Hh Hl Hall. pose proof (fragmented_whole Hf) as Hw. eexists. split; [|split; [|split]].
  - eapply (deliver_completes sent first last t _ _ l a ∅); eauto. exists first. split; [|set_solver]. pose proof (whole_order _ _ _ _ _ _ Hw). unfold in_unit. lia.
  - done.
  - cbn. by rewrite annexb_one.
  - cbn. intros H5. unfold au_has_idr. rewrite annexb_one, types_start. cbn. by rewrite H5.
Qed.
End fragmented.
