(* ===== verification/VideoScenarios.v ===== *)
(** * Streams of video packets

    A small stream that crosses the end of the sequence space and of the timestamp
    range, at which the theorems on unit assembly apply, and two histories in which a
    packet that carries nothing new costs a unit. *)

From S2P Require Import Prelude Ranking Bytes UnitAssembly H264 UnitDelivery VideoPath.
Local Open Scope Z_scope.

(** ** The stream *)
Definition idr_header : Ascii.ascii := u8 101.
Definition idr_chunks : list bytes := [[u8 10; u8 11]; [u8 12]; [u8 13]].
Definition parameter_set : bytes := [u8 103; u8 1; u8 2].

Definition demo_packets : list Packet := Eval vm_compute in
  mkPacket 65535 4294967290 true parameter_set ::
  zip_with (λ i p, mkPacket i 4 (bool_decide (i = 2)) p) [0; 1; 2] (fua_payloads idr_header true idr_chunks).
Definition demo_sent (k : Z) : option Packet := if k <? 65535 then None else demo_packets !! Z.to_nat (k - 65535).

Lemma demo_sent_cases k x :
  demo_sent k = Some x →
  k = 65535 ∧ demo_sent 65535 = Some x ∨ k = 65536 ∧ demo_sent 65536 = Some x ∨ k = 65537 ∧ demo_sent 65537 = Some x ∨
  k = 65538 ∧ demo_sent 65538 = Some x.
Proof.
  intros H. assert (65535 ≤ k < 65539) as Hk.
  { unfold demo_sent in H. destruct (Z.ltb_spec k 65535); [done|]. apply lookup_lt_Some in H. cbn in H. lia. }
  assert (k = 65535 ∨ k = 65536 ∨ k = 65537 ∨ k = 65538) as [->|[->|[->| ->]]] by lia; auto.
Qed.

Ltac demo_cases :=
  repeat match goal with
  | H : demo_sent _ = Some _ |- _ =>
      apply demo_sent_cases in H as [[-> H]|[[-> H]|[[-> H]|[-> H]]]]; vm_compute in H; injection H as <-
  end.

Lemma demo_stream : stream demo_sent.
Proof.
  split.
  - intros k x H. by demo_cases.
  - intros k x H. unfold in_u, u32_max. demo_cases; cbn; lia.
  - intros j k x y Hx Hy Ht i Hi.
    assert (65536 ≤ i ≤ 65538 ∧ rtp_timestamp x = 4 ∨ i = 65535 ∧ rtp_timestamp x = 4294967290) as [[Hr ->]|[-> ->]] by (demo_cases; cbn in *; lia).
    + assert (i = 65536 ∨ i = 65537 ∨ i = 65538) as [->|[->| ->]] by lia; eexists; split; reflexivity.
    + eexists; split; reflexivity.
  - intros k x y Hx Hm Hy. apply demo_sent_cases in Hx as [[-> Hx]|[[-> Hx]|[[-> Hx]|[-> Hx]]]]; vm_compute in Hx, Hy; simplify_eq; done.
  - intros j k x y Hx Hy Hjk Hne. demo_cases; try lia; try reflexivity; by destruct Hne.
Qed.

Definition at_ (k : Z) : Packet := default (mkPacket 0 0 false []) (demo_sent k).
Definition play (l : list Z) : RealtimeUnitAssembler := (run_packets ((λ k, (granting, at_ k)) <$> l) empty_assembler).1.

Lemma play_snoc l k : play (l ++ [k]) = (push granting (at_ k) (play l)).1.
Proof.
  unfold play. rewrite fmap_app. generalize empty_assembler. induction l as [|j l IH]; intros a; cbn [fmap list_fmap app].
  - by rewrite run_packets_cons.
  - rewrite !run_packets_cons. cbn [fst]. apply IH.
Qed.

Lemma play_received l k us r :
  received demo_sent unrefused (play l) us → is_Some (demo_sent k) → near (play l) k →
  (push granting (at_ k) (play l)).2 = r → r ≠ Err ByteEnvelopeExceeded →
  received demo_sent unrefused (play (l ++ [k])) (us ++ emitted r).
Proof.
  intros Hr [x Hx] Hn <- Hg. assert (at_ k = x) as Hat by (unfold at_; by rewrite Hx).
  rewrite play_snoc, Hat in *. eapply received_packet; [done|done|done|apply surjective_pairing|done].
Qed.

(** The first unit, and then the fragments of the second in the order 2, 0, 2, 1. *)
Definition demo_arrivals : list Z := [65538; 65536; 65538; 65537].
Definition demo_units : list AssembledUnit := [
  mkUnit 4294967290 false (ANNEXB_START_CODE ++ parameter_set) (Some 7);
  mkUnit 4 true (ANNEXB_START_CODE ++ idr_header :: concat idr_chunks) (Some 9)].

Lemma demo_received : received demo_sent unrefused (play (65535 :: demo_arrivals)) demo_units.
Proof.
  pose proof (received_nothing demo_sent unrefused) as H0.
  apply (play_received [] 65535 [] (Ok (Some (mkUnit 4294967290 false (ANNEXB_START_CODE ++ parameter_set) (Some 7))))) in H0;
    [|by eexists|by vm_compute|by vm_compute|done].
  apply (play_received _ 65538 _ (Ok None)) in H0; [|by eexists|by vm_compute|by vm_compute|done].
  apply (play_received _ 65536 _ (Ok None)) in H0; [|by eexists|by vm_compute|by vm_compute|done].
  apply (play_received _ 65538 _ (Ok None)) in H0; [|by eexists|by vm_compute|by vm_compute|done].
  apply (play_received _ 65537 _ (Ok (Some (mkUnit 4 true (ANNEXB_START_CODE ++ idr_header :: concat idr_chunks) (Some 9))))) in H0;
    [|by eexists|by vm_compute|by vm_compute|done].
  exact H0.
Qed.

(** ** Instances *)
Lemma emitted_units_were_sent_witness :
  ∃ first last, sent_unit demo_sent (mkUnit 4 true (ANNEXB_START_CODE ++ idr_header :: concat idr_chunks) (Some 9)) first last.
Proof. refine (emitted_units_were_sent demo_sent unrefused _ demo_units _ demo_stream demo_received _). right. left. Defined.

Lemma units_come_in_order_witness :
  StronglySorted (λ u v, newer_rtp_ts (au_timestamp v) (au_timestamp u) = true) demo_units.
Proof. exact (units_come_in_order demo_sent _ demo_units demo_stream demo_received). Defined.

Lemma demo_ready : holding demo_sent 65536 65538 4 (mkAssembler 4294967290 ∅ None (Some 65535) (Some (65535, 65535)) None) ∅ 65535.
Proof.
  split; [set_solver|intros k; by rewrite decide_False by set_solver|by rewrite decide_False by set_solver|done|right; by split| |done].
  exists 65535. split; [done|lia].
Qed.

Lemma demo_fragmented : fragmented_unit demo_sent 65536 65538 4 idr_header idr_chunks.
Proof.
  split; [done|done|done|by repeat constructor|done| |by vm_compute].
  intros k Hk. assert (k = 65536 ∨ k = 65537 ∨ k = 65538) as [->|[->| ->]] by lia;
    (eexists; split; [reflexivity|]; split; [reflexivity|]; split; [reflexivity|]; split; [by intros [=]|by intros [=]]).
Qed.

Lemma demo_arrivals_cover : Forall (in_unit 65536 65538) demo_arrivals ∧ ∀ k, in_unit 65536 65538 k → k ∈ demo_arrivals.
Proof.
  unfold in_unit. split; [unfold demo_arrivals; repeat constructor; lia|]. intros k Hk.
  assert (k = 65536 ∨ k = 65537 ∨ k = 65538) as [->|[->| ->]] by lia; unfold demo_arrivals; set_solver.
Qed.

Lemma arrived_unit_is_emitted_witness :
  deliver demo_sent demo_arrivals (mkAssembler 4294967290 ∅ None (Some 65535) (Some (65535, 65535)) None) =
    [mkUnit 4 (is_entry_point (annexb [idr_header :: concat idr_chunks])) (annexb [idr_header :: concat idr_chunks])
       (Some (len (annexb [idr_header :: concat idr_chunks])))].
Proof.
  exact (arrived_unit_is_emitted demo_sent 65536 65538 4 _ _ demo_arrivals _ demo_stream
    (fragmented_whole _ _ _ _ _ _ demo_fragmented) demo_ready (proj1 demo_arrivals_cover) (proj2 demo_arrivals_cover)).
Defined.

Lemma fragmented_unit_is_delivered_witness :
  ∃ u, deliver demo_sent demo_arrivals (mkAssembler 4294967290 ∅ None (Some 65535) (Some (65535, 65535)) None) = [u] ∧
    au_timestamp u = 4 ∧ data u = ANNEXB_START_CODE ++ idr_header :: concat idr_chunks ∧
    (Z.land (value idr_header) 31 = 5 → entry_point u = true).
Proof.
  exact (fragmented_unit_is_delivered demo_sent 65536 65538 4 idr_header idr_chunks _ demo_arrivals demo_stream
    demo_fragmented demo_ready (proj1 demo_arrivals_cover) (proj2 demo_arrivals_cover)).
Defined.

Lemma unwrapped_bounded_witness :
  positions_below (run_packets ((λ k, (granting, at_ k)) <$> demo_arrivals) empty_assembler).1 (2 ^ 16 + 2 ^ 15 * 4).
Proof.
  refine (unwrapped_bounded ((λ k, (granting, at_ k)) <$> demo_arrivals) _).
  unfold in_u, u16_max. repeat constructor; vm_compute; discriminate.
Defined.

Definition demo_chain : UnitFragments := sent_chain demo_sent 65536 65538.

Lemma annexb_matches_reference_witness :
  ∃ nals, nal_units (payloads demo_chain) = Some nals ∧ write_annexb_output demo_chain 9 = Ok (annexb nals) ∧ len (annexb nals) = 9.
Proof. refine (proj1 (annexb_matches_reference demo_chain) 9 _). vm_compute. reflexivity. Defined.

Lemma entry_points_are_idr_units_witness : au_has_idr (annexb [parameter_set; idr_header :: concat idr_chunks]) = true.
Proof. refine (proj1 (entry_points_are_idr_units [parameter_set; idr_header :: concat idr_chunks]) _). right. left. by vm_compute. Defined.

Lemma fragmented_unit_roundtrip_witness : nal_units (fua_payloads idr_header true idr_chunks) = Some [idr_header :: concat idr_chunks].
Proof. refine (proj1 (fragmented_unit_roundtrip idr_header idr_chunks _ _ _)); [done|done|by repeat constructor]. Defined.

(** ** Packets that carry nothing new *)

(** A unit of one packet, then one of two packets. *)
Definition slice (n : Z) : bytes := [u8 65; u8 n; u8 n].
Definition lone : Packet := mkPacket 10 100 true (slice 1).
Definition head_packet : Packet := mkPacket 11 200 false (slice 2).
Definition tail_packet : Packet := mkPacket 12 200 true (slice 3).
Definition padding : Packet := mkPacket 11 100 false [].
Definition shifted (x : Packet) : Packet := mkPacket (sequence_number x + 1) (rtp_timestamp x) (marker x) (payload x).

(** The bytes of the units emitted when these packets arrive and the flow grants all. *)
Definition units_of (l : list Packet) : list bytes :=
  concat ((fmap data ∘ emitted) <$> (run_packets (pair granting <$> l) empty_assembler).2).

(** A packet that carries nothing new costs a unit.  The second unit survives the
    reordering of its two packets; but if a packet of the first unit is repeated after
    that unit was emitted, the second unit is emitted without its first packet; and if
    a padding packet lies between the units, the second one is never emitted although
    all its packets arrive in order. *)
Theorem idle_packets_cost_a_unit :
  units_of [lone; tail_packet; head_packet] = [annexb [slice 1]; annexb [slice 2; slice 3]] ∧
  units_of [lone; lone; tail_packet; head_packet] = [annexb [slice 1]; annexb [slice 3]] ∧
  units_of [lone; padding; shifted head_packet; shifted tail_packet] = [annexb [slice 1]].
Proof. by vm_compute. Qed.
