(* ===== verification/LeasedQueue.v ===== *)
(** * The leased queue

    Models crates/myownmesh-core/src/resource/queue.rs, a FIFO of separately funded
    nodes held as two chains: [oldest] runs oldest first and is what readers see,
    [newest] runs newest first and is where pushes land.  A link owns a node and
    the lease that pays for it, so a chain is a list of pairs of value and lease.
    An operation that removes or drops nodes returns them with their leases, in
    the order in which they are released; [None] is a reached [expect]. *)

From S2P Require Import Prelude Claims.
Local Open Scope Z_scope.

Section queue.
Context {T L : Type}.

Notation chain := (list (T * L)).

Record LeasedQueue : Type := mkQueue {
  oldest : chain;
  newest : chain;
  queue_len : Z;
}.

Definition queue_new : LeasedQueue := mkQueue [] [] 0.

(** [entry_claim]: one node, of which the parameter is the [size_of]. *)
Definition entry_claim (node_bytes : Z) : result ResourceClaimArithmeticError ResourceClaim :=
  try_from_entries [(AccountedMemoryBytes, node_bytes); (OpaqueDependencyResidual, 1)].

Fixpoint reverse_onto (c acc : chain) : chain :=
  match c with
  | [] => acc
  | node :: next => reverse_onto next (node :: acc)
  end.

Definition expose_front (q : LeasedQueue) : LeasedQueue :=
  match oldest q with
  | [] => mkQueue (reverse_onto (newest q) []) [] (queue_len q)
  | _ => q
  end.

Definition queue_merge (q : LeasedQueue) : LeasedQueue :=
  match newest q with
  | [] => q
  | _ =>
      let reversed_oldest := reverse_onto (oldest q) [] in
      let ordered := reverse_onto (newest q) [] in
      mkQueue (reverse_onto reversed_oldest ordered) [] (queue_len q)
  end.

Definition queue_push (q : LeasedQueue) (value : T) (entry : L) : option LeasedQueue :=
  len ← checked_add usize_max (queue_len q) 1;
  Some (mkQueue (oldest q) ((value, entry) :: newest q) len).

Definition queue_front (q : LeasedQueue) : LeasedQueue * option T :=
  let q := expose_front q in (q, fst <$> head (oldest q)).

(** [pop_front] releases the node's lease and returns the value; the node of
    [pop_front_owned] stays funded by its guard.  Both detach the same node. *)
Definition queue_pop_front (q : LeasedQueue) : option (LeasedQueue * option (T * L)) :=
  let q := expose_front q in
  match oldest q with
  | [] => Some (q, None)
  | node :: next => len ← checked_sub (queue_len q) 1; Some (mkQueue next (newest q) len, Some node)
  end.

(** The walk of [pop_back] to the node without successor. *)
Fixpoint unlink_last (c : chain) : option (chain * (T * L)) :=
  match c with
  | [] => None
  | [node] => Some ([], node)
  | node :: next => '(next, last) ← unlink_last next; Some (node :: next, last)
  end.

Definition queue_pop_back (q : LeasedQueue) : option (LeasedQueue * option (T * L)) :=
  let q := queue_merge q in
  match unlink_last (oldest q) with
  | None => Some (q, None)
  | Some (rest, node) => len ← checked_sub (queue_len q) 1; Some (mkQueue rest (newest q) len, Some node)
  end.

(** The two walks: what [iter] visits, and what a caller leaves in every value through
    [iter_mut]: [write seen v] replaces [v], once the values [seen] were visited. *)
Definition queue_iter (q : LeasedQueue) : LeasedQueue * list T :=
  let q := queue_merge q in (q, (oldest q).*1).

Fixpoint write_each (write : list T → T → T) (seen : list T) (c : chain) : chain :=
  match c with
  | [] => []
  | node :: next => (write seen node.1, node.2) :: write_each write (seen ++ [node.1]) next
  end.

Definition queue_iter_mut (q : LeasedQueue) (write : list T → T → T) : LeasedQueue :=
  let q := queue_merge q in mkQueue (write_each write [] (oldest q)) (newest q) (queue_len q).

(** [iter_mut().find(find)] and a write to what it answers. *)
Definition first_match (find : T → bool) (write : T → T) (seen : list T) (v : T) : T :=
  if existsb find seen then v else if find v then write v else v.

(** The loop of [retain]: the kept nodes newest first, their number, the dropped ones. *)
Fixpoint retain_loop (keep : T → bool) (cursor kept : chain) (len : Z) (dropped : chain) : chain * Z * chain :=
  match cursor with
  | [] => (kept, len, dropped)
  | node :: next =>
      if keep node.1 then retain_loop keep next (node :: kept) (len + 1) dropped
      else retain_loop keep next kept len (dropped ++ [node])
  end.

Definition queue_retain (q : LeasedQueue) (keep : T → bool) : LeasedQueue * chain :=
  let q := queue_merge q in
  let '(kept, len, dropped) := retain_loop keep (oldest q) [] 0 [] in
  (mkQueue (reverse_onto kept []) (newest q) len, dropped).

Definition queue_is_empty (q : LeasedQueue) : bool := queue_len q =? 0.

(** [Drop]: every node, in the order of destruction. *)
Definition queue_drop (q : LeasedQueue) : chain := oldest (queue_merge q).

(** ** The queue as one list *)
Definition queue_rows (q : LeasedQueue) : chain := oldest q ++ reverse (newest q).

Record queue_wf (q : LeasedQueue) : Prop := {
  queue_count : queue_len q = Z.of_nat (length (queue_rows q));
  queue_bound : queue_len q ≤ usize_max;
}.

Inductive queue_op : Type :=
| QPush (value : T) (entry : L)
| QFront
| QPopFront
| QPopBack
| QIter
| QIterMut (write : list T → T → T)
| QRetain (keep : T → bool)
| QLen
| QIsEmpty.

Inductive queue_out : Type :=
| QDone
| QValue (v : option T)
| QNode (node : option (T * L))
| QValues (l : list T)
| QDropped (l : list (T * L))
| QCount (n : Z)
| QBool (b : bool).

(** The contract: a FIFO list of funded values. *)
Definition queue_spec (op : queue_op) (l : chain) : chain * queue_out :=
  match op with
  | QPush v e => (l ++ [(v, e)], QDone)
  | QFront => (l, QValue (fst <$> head l))
  | QPopFront => (tail l, QNode (head l))
  | QPopBack => (take (length l - 1) l, QNode (last l))
  | QIter => (l, QValues l.*1)
  | QIterMut write => (zip (imap (λ i v, write (take i l.*1) v) l.*1) l.*2, QDone)
  | QRetain keep => (filter (λ node, keep node.1 = true) l, QDropped (filter (λ node, keep node.1 = false) l))
  | QLen => (l, QCount (Z.of_nat (length l)))
  | QIsEmpty => (l, QBool (bool_decide (l = [])))
  end.

Definition queue_exec (op : queue_op) (q : LeasedQueue) : option (LeasedQueue * queue_out) :=
  match op with
  | QPush v e => q' ← queue_push q v e; Some (q', QDone)
  | QFront => let '(q', v) := queue_front q in Some (q', QValue v)
  | QPopFront => '(q', node) ← queue_pop_front q; Some (q', QNode node)
  | QPopBack => '(q', node) ← queue_pop_back q; Some (q', QNode node)
  | QIter => let '(q', l) := queue_iter q in Some (q', QValues l)
  | QIterMut write => Some (queue_iter_mut q write, QDone)
  | QRetain keep => let '(q', dropped) := queue_retain q keep in Some (q', QDropped dropped)
  | QLen => Some (q, QCount (queue_len q))
  | QIsEmpty => Some (q, QBool (queue_is_empty q))
  end.

(** ** Refinement *)
Lemma reverse_onto_spec c acc : reverse_onto c acc = reverse c ++ acc.
Proof.
  revert acc. induction c as [|node c IH]; intros acc; [done|]. cbn [reverse_onto]. by rewrite IH, reverse_cons, <- app_assoc.
Qed.

Lemma queue_merge_spec q :
  oldest (queue_merge q) = queue_rows q ∧ newest (queue_merge q) = [] ∧ queue_len (queue_merge q) = queue_len q.
Proof.
  unfold queue_merge, queue_rows. destruct (newest q) as [|node c] eqn:Hn; [by rewrite Hn, reverse_nil, app_nil_r|].
  cbn [oldest newest queue_len]. by rewrite !reverse_onto_spec, !app_nil_r, reverse_involutive.
Qed.

Lemma queue_merge_rows q : queue_rows (queue_merge q) = queue_rows q.
Proof. destruct (queue_merge_spec q) as (Ho & Hn & _). unfold queue_rows at 1. by rewrite Ho, Hn, reverse_nil, app_nil_r. Qed.

Lemma expose_front_spec q :
  queue_rows (expose_front q) = queue_rows q ∧ queue_len (expose_front q) = queue_len q ∧
  head (oldest (expose_front q)) = head (queue_rows q) ∧
  (oldest (expose_front q) = [] → newest (expose_front q) = []).
Proof.
  unfold expose_front, queue_rows. destruct (oldest q) as [|node c] eqn:Ho; cbn [oldest newest queue_len].
  - rewrite reverse_onto_spec, !app_nil_r. cbn. done.
  - by rewrite Ho.
Qed.

Lemma unlink_last_spec c :
  unlink_last c = (λ node, (take (length c - 1) c, node)) <$> last c.
Proof.
  induction c as [|x c IH]; [done|]. destruct c as [|y c]; [done|].
  change (unlink_last (x :: y :: c)) with ('(next, last) ← unlink_last (y :: c); Some (x :: next, last)). rewrite IH.
  rewrite last_cons_cons. destruct (last (y :: c)) as [z|] eqn:Hz; [|by apply last_None in Hz]. cbn. by rewrite Nat.sub_0_r.
Qed.

Lemma length_write_each write seen c : length (write_each write seen c) = length c.
Proof. revert seen. induction c as [|x c IH]; intros seen; [done|]. cbn. by rewrite IH. Qed.

Lemma write_each_from write seen c :
  write_each write seen c = zip (imap (λ i v, write (seen ++ take i c.*1) v) c.*1) c.*2.
Proof.
  revert seen. induction c as [|x c IH]; intros seen; [done|]. cbn. rewrite app_nil_r, IH. do 2 f_equal.
  apply imap_ext. intros i v _. cbn. by rewrite <- app_assoc.
Qed.

(** What a search writes: the first value it finds, in place. *)
Fixpoint write_first (find : T → bool) (write : T → T) (c : chain) : chain :=
  match c with
  | [] => []
  | node :: next => if find node.1 then (write node.1, node.2) :: next else node :: write_first find write next
  end.

Lemma write_each_matched find write seen c : existsb find seen = true → write_each (first_match find write) seen c = c.
Proof.
  revert seen. induction c as [|[v l] c IH]; intros seen Hs; [done|]. cbn. unfold first_match at 1. rewrite Hs. f_equal.
  apply IH. by rewrite existsb_app, Hs.
Qed.

Lemma write_each_first find write seen c :
  existsb find seen = false → write_each (first_match find write) seen c = write_first find write c.
Proof.
  revert seen. induction c as [|[v l] c IH]; intros seen Hs; [done|]. cbn. unfold first_match at 1. rewrite Hs.
  destruct (find v) eqn:Hf; f_equal; [apply write_each_matched|apply IH]; rewrite existsb_app, Hs; cbn; by rewrite Hf.
Qed.

Lemma retain_loop_spec keep c kept n dropped :
  retain_loop keep c kept n dropped =
  (reverse (filter (λ node, keep node.1 = true) c) ++ kept, n + Z.of_nat (length (filter (λ node, keep node.1 = true) c)),
   dropped ++ filter (λ node, keep node.1 = false) c).
Proof.
  revert kept n dropped. induction c as [|x c IH]; intros kept n dropped; cbn [retain_loop].
  { cbn. by rewrite Z.add_0_r, app_nil_r. }
  rewrite !filter_cons. destruct (keep x.1); rewrite IH.
  - rewrite decide_True, decide_False by done. rewrite reverse_cons, <- app_assoc. cbn [length app]. do 2 f_equal. lia.
  - rewrite decide_False, decide_True by done. by rewrite <- app_assoc.
Qed.

Lemma queue_wf_of (q : LeasedQueue) rows :
  queue_rows q = rows → queue_len q = Z.of_nat (length rows) → Z.of_nat (length rows) ≤ usize_max → queue_rows q = rows ∧ queue_wf q.
Proof. intros <- Hl Hb. split; [done|]. split; lia. Qed.

Lemma queue_pop_front_spec q :
  queue_wf q →
  ∃ q', queue_pop_front q = Some (q', head (queue_rows q)) ∧ queue_rows q' = tail (queue_rows q) ∧ queue_wf q'.
Proof.
  intros [Hc Hb]. destruct (expose_front_spec q) as (Hr & Hl & Hh & He). unfold queue_pop_front.
  destruct (oldest (expose_front q)) as [|node next] eqn:Ho.
  - exists (expose_front q). unfold queue_rows in Hr at 1. rewrite Ho, (He eq_refl), reverse_nil in Hr. cbn in Hr.
    rewrite <- Hh, <- Hr. cbn. split; [done|]. apply queue_wf_of; [unfold queue_rows; by rewrite Ho, (He eq_refl)| |cbn; lia].
    by rewrite Hl, Hc, <- Hr.
  - unfold queue_rows in Hr at 1. rewrite Ho in Hr. rewrite <- Hh, <- Hr in *. cbn [head tail app] in *.
    unfold checked_sub. rewrite Hl, Hc. cbn [length]. rewrite (proj2 (Z.leb_le _ _)) by lia. cbn. eexists. split; [done|].
    apply queue_wf_of; [done|cbn; lia|]. cbn [length] in Hc. lia.
Qed.

Lemma queue_pop_back_spec q :
  queue_wf q →
  ∃ q', queue_pop_back q = Some (q', last (queue_rows q)) ∧
    queue_rows q' = take (length (queue_rows q) - 1) (queue_rows q) ∧ queue_wf q'.
Proof.
  intros [Hc Hb]. destruct (queue_merge_spec q) as (Ho & Hn & Hl). unfold queue_pop_back. rewrite Ho, unlink_last_spec.
  destruct (last (queue_rows q)) as [node|] eqn:Hlast; cbn.
  - assert (Hlen : (0 < length (queue_rows q))%nat) by (destruct (queue_rows q); [done|cbn; lia]).
    unfold checked_sub. rewrite Hl, Hc, (proj2 (Z.leb_le _ _)) by lia. cbn. eexists. split; [done|].
    apply queue_wf_of; [unfold queue_rows at 1; cbn [oldest newest]; by rewrite Hn, reverse_nil, app_nil_r| |]; cbn; rewrite ?length_take; lia.
  - apply last_None in Hlast. exists (queue_merge q). split; [done|]. rewrite Hlast. cbn.
    apply queue_wf_of; [by rewrite queue_merge_rows|by rewrite Hl, Hc, Hlast|cbn; lia].
Qed.

Lemma leased_queue_contract q op :
  queue_wf q → (∀ v e, op = QPush v e → queue_len q < usize_max) →
  ∃ q', queue_exec op q = Some (q', (queue_spec op (queue_rows q)).2) ∧
    queue_rows q' = (queue_spec op (queue_rows q)).1 ∧ queue_wf q'.
Proof.
  intros Hwf Hpush. pose proof Hwf as [Hc Hb]. pose proof (queue_merge_spec q) as (Ho & Hn & Hl).
  assert (Hmerged : queue_rows (queue_merge q) = queue_rows q ∧ queue_wf (queue_merge q)).
  { apply queue_wf_of; [apply queue_merge_rows|congruence|lia]. }
  destruct op as [v e| | | | |write|keep| |]; cbn [queue_exec queue_spec fst snd].
  - specialize (Hpush v e eq_refl). unfold queue_push, checked_add. rewrite (proj2 (Z.leb_le _ _)) by lia. cbn. eexists. split; [done|].
    apply queue_wf_of; [unfold queue_rows; cbn [oldest newest]; by rewrite reverse_cons, app_assoc| |]; rewrite ?length_app; cbn; lia.
  - destruct (expose_front_spec q) as (Hr & Hlen & Hh & _). unfold queue_front. rewrite Hh. eexists. split; [done|].
    apply queue_wf_of; [done|congruence|lia].
  - destruct (queue_pop_front_spec q Hwf) as (q' & -> & ? & ?). by exists q'.
  - destruct (queue_pop_back_spec q Hwf) as (q' & -> & ? & ?). by exists q'.
  - unfold queue_iter. rewrite Ho. by exists (queue_merge q).
  - eexists. split; [done|]. unfold queue_iter_mut. rewrite Ho, Hn.
    pose proof (write_each_from write [] (queue_rows q)) as He. cbn [app] in He. rewrite <- He.
    apply queue_wf_of; [unfold queue_rows at 1; cbn [oldest newest]; by rewrite reverse_nil, app_nil_r| |];
      rewrite length_write_each; cbn; lia.
  - unfold queue_retain. rewrite Ho, Hn, retain_loop_spec, !app_nil_r. cbn [app]. eexists. split; [done|].
    pose proof (length_filter (λ node : T * L, keep node.1 = true) (queue_rows q)).
    apply queue_wf_of; [unfold queue_rows at 1; cbn [oldest newest]; by rewrite reverse_onto_spec, reverse_involutive, !app_nil_r|cbn; lia|lia].
  - exists q. by rewrite Hc.
  - exists q. split; [|done]. unfold queue_is_empty. rewrite Hc. do 3 f_equal.
    destruct (queue_rows q); [done|]. by rewrite bool_decide_eq_false_2.
Qed.

(** C8: The two-chain queue is a FIFO.  On a well-formed queue every operation reaches
    no [expect] (a push below the largest count), returns what the contract on the
    single list of funded values says, leaves exactly the rows it says, each with
    its own lease, and keeps the count exact; dropping the queue releases every
    node, oldest first. *)
Theorem leased_queue_refines_fifo q op :
  queue_wf q → (∀ v e, op = QPush v e → queue_len q < usize_max) →
  ∃ q', queue_exec op q = Some (q', (queue_spec op (queue_rows q)).2) ∧
    queue_rows q' = (queue_spec op (queue_rows q)).1 ∧ queue_wf q' ∧ queue_drop q' = queue_rows q'.
Proof.
  intros Hwf Hpush. destruct (leased_queue_contract q op Hwf Hpush) as (q' & ? & ? & ?). exists q'. split_and!; try done.
  apply queue_merge_spec.
Qed.
End queue.
Arguments LeasedQueue : clear implicits.
Arguments queue_op : clear implicits.
Arguments queue_out : clear implicits.

Definition demo_queue : LeasedQueue string nat := mkQueue [("a", 1%nat)] [("c", 3%nat); ("b", 2%nat)] 3.

Lemma leased_queue_refines_fifo_witness :
  queue_wf demo_queue ∧ ∃ q', queue_exec QPopBack demo_queue = Some (q', QNode (Some ("c", 3%nat))) ∧ queue_wf q'.
Proof.
  assert (Hwf : queue_wf demo_queue) by (split; vm_compute; [done|discriminate]).
  split; [exact Hwf|]. destruct (leased_queue_refines_fifo demo_queue QPopBack Hwf) as (q' & H & _ & ? & _); [done|].
  exists q'. split; [exact H|done].
Defined.
