(* ===== verification/Reliable.v ===== *)
(** * Acknowledged delivery of one session

    Models [ReliableState] of crates/myownmesh-core/src/runtime/peer_session/reliable.rs
    on the leased queue: frames retained until the peer acknowledges them, and the
    mark of what was accepted from the peer.  What an operation does to the outside
    is a list of effects: answers to waiting callers and leases given back.  The
    serializer is a parameter; a reservation takes the provider's answer, a sweep
    the set of callers that stopped waiting; [None] is a reached [expect]. *)

From S2P Require Import Prelude Claims Ranking Bytes LeasedQueue.
Local Open Scope Z_scope.

(** [serde_json::to_writer] of a [ChannelSeq] (stream, sequence, channel, payload)
    and the parser of the receiving side. *)
Class ChannelCodec (Payload : Type) : Type := {
  to_json : Z → Z → string → Payload → option bytes;
  from_json : bytes → option (Z * Z * string * Payload);
}.

Class ChannelCodecLaws (Payload : Type) `{!ChannelCodec Payload} : Prop :=
  law_json stream seq channel payload b :
    to_json stream seq channel payload = Some b → from_json b = Some (stream, seq, channel, payload).

Section reliable.
Context {Payload Caller Lease : Type} `{!ChannelCodec Payload} (node_bytes : Z).

(** [BorrowedChannelSeq::encoded_len] and [encode_exact]. *)
Definition encoded_len (stream seq : Z) (channel : string) (payload : Payload) : option Z :=
  b ← to_json stream seq channel payload;
  if Z.of_nat (length b) <=? usize_max then Some (Z.of_nat (length b)) else None.

Definition encode_exact (stream seq : Z) (channel : string) (payload : Payload) (len : Z) : option bytes :=
  b ← to_json stream seq channel payload;
  if Z.of_nat (length b) =? len then Some b else None.

Definition RETAINED_FRAME_SHARED_ALLOCATIONS : Z := 2.
Definition TRANSIENT_FRAME_SHARED_ALLOCATIONS : Z := 2.

Definition retained_frame_claim (encoded : Z) : result ResourceClaimArithmeticError ResourceClaim :=
  try_from_entries [(AccountedMemoryBytes, encoded); (OpaqueDependencyResidual, RETAINED_FRAME_SHARED_ALLOCATIONS)].

Definition transient_frame_claim (encoded : Z) : result ResourceClaimArithmeticError ResourceClaim :=
  try_from_entries [(AccountedMemoryBytes, encoded); (OpaqueDependencyResidual, TRANSIENT_FRAME_SHARED_ALLOCATIONS)].

Record PendingFrame : Type := mkPending {
  pf_seq : Z;
  pf_frame : bytes;
  pf_sent : bool;
  pf_handed_out : bool;
  pf_reply : option Caller;
  pf_retention : Lease;
}.

Record ReliableState : Type := mkReliable {
  rs_stream : Z;
  next_seq : Z;
  pending : LeasedQueue PendingFrame Lease;
  inbound_stream : option Z;
  last_seq : Z;
}.

Record UnsentFrame : Type := mkUnsent { uf_seq : Z; uf_bytes : bytes; uf_lease : Lease }.

Inductive InboundOutcome : Type :=
| Delivered (mark : Z)
| Duplicate (mark : Z)
| Gap (mark : Z)
| ForeignStream.

Inductive effect : Type :=
| Answered (caller : Caller) (ok : bool)
| Released (lease : Lease).

(** [ReliableState::new]; the stream is the random draw with its lowest bit set. *)
Definition reliable_new (draw : Z) : ReliableState := mkReliable (Z.lor draw 1) 0 queue_new None 0.

Definition outcome_acknowledge (o : InboundOutcome) : option Z :=
  match o with Delivered mark | Duplicate mark | Gap mark => Some mark | ForeignStream => None end.

(** Answer the caller once. *)
Definition resolve (f : PendingFrame) (ok : bool) : list effect * PendingFrame :=
  (match pf_reply f with Some c => [Answered c ok] | None => [] end,
   mkPending (pf_seq f) (pf_frame f) (pf_sent f) (pf_handed_out f) None (pf_retention f)).

(** [Drop]: an unresolved caller is told the frame was abandoned, then the
    retention goes back. *)
Definition drop_frame (f : PendingFrame) : list effect := (resolve f false).1 ++ [Released (pf_retention f)].

(** A node dropped in place (value, then its lease) and one whose value was moved
    out (its lease first). *)
Definition drop_node (node : PendingFrame * Lease) : list effect := drop_frame node.1 ++ [Released node.2].
Definition drop_popped (node : PendingFrame * Lease) : list effect := Released node.2 :: drop_frame node.1.

Definition abandoned (closed : Caller → bool) (f : PendingFrame) : bool :=
  match pf_reply f with Some c => closed c | None => false end.

Definition with_pending (s : ReliableState) (q : LeasedQueue PendingFrame Lease) : ReliableState :=
  mkReliable (rs_stream s) (next_seq s) q (inbound_stream s) (last_seq s).

(** The loop over the tail of [release_abandoned]: one round per retained frame. *)
Fixpoint release_tail (rounds : nat) (closed : Caller → bool) (s : ReliableState) (out : list effect)
    : option (ReliableState * list effect) :=
  let '(q, frames) := queue_iter (pending s) in
  match last frames with
  | Some f =>
      if negb (pf_handed_out f) && abandoned closed f then
        match rounds, queue_pop_back q with
        | S rounds, Some (q', Some node) =>
            release_tail rounds closed
              (mkReliable (rs_stream s) (saturating_sub (pf_seq node.1) 1) q' (inbound_stream s) (last_seq s))
              (out ++ drop_popped node)
        | _, Some (q', None) => Some (with_pending s q', out)
        | _, _ => None
        end
      else Some (with_pending s q, out)
  | None => Some (with_pending s q, out)
  end.

Definition release_abandoned (closed : Caller → bool) (s : ReliableState) : option (ReliableState * list effect) :=
  '(s, out) ← release_tail (length (queue_rows (pending s))) closed s [];
  let '(q, dropped) := queue_retain (pending s) (λ f, negb (pf_sent f && abandoned closed f)) in
  Some (with_pending s q, out ++ mjoin (drop_node <$> dropped)).

(** [submit]: [retain] and [node] are the provider's answers to the two reservations. *)
Definition submit (retain node : ResourceClaim → option Lease) (s : ReliableState) (channel : string)
    (payload : Payload) (reply : Caller) : option (ReliableState * list effect) :=
  let refuse out := Some (s, out ++ [Answered reply false]) in
  match checked_add u64_max (next_seq s) 1 with
  | None => refuse []
  | Some seq =>
      match encoded_len (rs_stream s) seq channel payload with
      | None => refuse []
      | Some len =>
          match retained_frame_claim len with
          | Err _ => refuse []
          | Ok claim =>
              match retain claim with
              | None => refuse []
              | Some retention =>
                  match entry_claim node_bytes with
                  | Err _ => Some (s, [Answered reply false; Released retention])
                  | Ok node_claim =>
                      match node node_claim with
                      | None => Some (s, [Answered reply false; Released retention])
                      | Some entry =>
                          match encode_exact (rs_stream s) seq channel payload len with
                          | None => Some (s, [Answered reply false; Released entry; Released retention])
                          | Some encoded =>
                              q ← queue_push (pending s) (mkPending seq encoded false false (Some reply) retention) entry;
                              Some (mkReliable (rs_stream s) seq q (inbound_stream s) (last_seq s), [])
                          end
                      end
                  end
              end
          end
      end
  end.

Definition has_unsent (closed : Caller → bool) (s : ReliableState) : option (ReliableState * list effect * bool) :=
  '(s, out) ← release_abandoned closed s;
  let '(q, frames) := queue_iter (pending s) in
  Some (with_pending s q, out, existsb (λ f, negb (pf_sent f)) frames).

Definition hand_out (f : PendingFrame) : PendingFrame :=
  mkPending (pf_seq f) (pf_frame f) (pf_sent f) true (pf_reply f) (pf_retention f).

(** [next_unsent]: [fund] is the provider's answer for the copy. *)
Definition next_unsent (fund : ResourceClaim → option Lease) (closed : Caller → bool) (s : ReliableState)
    : option (ReliableState * list effect * option UnsentFrame) :=
  '(s, out) ← release_abandoned closed s;
  let '(q, frames) := queue_iter (pending s) in
  let s := with_pending s q in
  match List.find (λ f, negb (pf_sent f)) frames with
  | None => Some (s, out, None)
  | Some f =>
      match transient_frame_claim (Z.of_nat (length (pf_frame f))) with
      | Err _ => Some (s, out, None)
      | Ok claim =>
          match fund claim with
          | None => Some (s, out, None)
          | Some lease =>
              Some (with_pending s (queue_iter_mut q (first_match (λ g, pf_seq g =? pf_seq f) hand_out)), out,
                    Some (mkUnsent (pf_seq f) (pf_frame f) lease))
          end
      end
  end.

Definition set_sent (f : PendingFrame) : PendingFrame :=
  mkPending (pf_seq f) (pf_frame f) true (pf_handed_out f) (pf_reply f) (pf_retention f).

Definition mark_sent (s : ReliableState) (seq : Z) : ReliableState :=
  with_pending s (queue_iter_mut (pending s) (first_match (λ f, pf_seq f =? seq) set_sent)).

(** The loop of [acknowledge] over the front: one round per retained frame. *)
Fixpoint settle (rounds : nat) (up_to : Z) (s : ReliableState) (out : list effect) (settled : Z)
    : option (ReliableState * list effect * Z) :=
  let '(q, frames) := queue_iter (pending s) in
  match frames with
  | [] => Some (with_pending s q, out, settled)
  | f :: _ =>
      if pf_sent f && (pf_seq f <=? up_to) then
        let '(answer, f') := resolve f true in
        match rounds, queue_pop_front (queue_iter_mut q (first_match (λ _, true) (λ _, f'))) with
        | S rounds, Some (q', Some node) =>
            settle rounds up_to (with_pending s q') (out ++ answer ++ drop_popped node) (settled + 1)
        | _, _ => None
        end
      else Some (with_pending s q, out, settled)
  end.

Definition acknowledge (closed : Caller → bool) (s : ReliableState) (stream up_to : Z)
    : option (ReliableState * list effect * Z) :=
  if bool_decide (stream ≠ rs_stream s) then Some (s, [], 0)
  else
    '(s, out) ← release_abandoned closed s;
    settle (length (queue_rows (pending s))) up_to s out 0.

(** [try_receive]: [accepted] is the answer of the delivery, asked for only in order. *)
Definition try_receive {E} (deliver : Payload → result E ()) (s : ReliableState) (stream seq : Z) (payload : Payload)
    : ReliableState * result E InboundOutcome :=
  let receive s :=
    match checked_add u64_max (last_seq s) 1 with
    | None => (s, Ok (Gap (last_seq s)))
    | Some next =>
        if seq =? next then
          match deliver payload with
          | Err e => (s, Err e)
          | Ok _ => (mkReliable (rs_stream s) (next_seq s) (pending s) (inbound_stream s) seq, Ok (Delivered seq))
          end
        else if seq <? next then (s, Ok (Duplicate (last_seq s)))
        else (s, Ok (Gap (last_seq s)))
    end in
  match inbound_stream s with
  | None => receive (mkReliable (rs_stream s) (next_seq s) (pending s) (Some stream) (last_seq s))
  | Some bound => if bool_decide (bound ≠ stream) then (s, Ok ForeignStream) else receive s
  end.

(** Dropping the session: every retained frame, oldest first. *)
Definition reliable_drop (s : ReliableState) : list effect := mjoin (drop_node <$> queue_drop (pending s)).

(** ** The operations on the list of retained frames *)
Notation rows s := (queue_rows (pending s)).
Notation node := (PendingFrame * Lease)%type.

Definition callers (out : list effect) : list Caller :=
  omap (λ e, match e with Answered c _ => Some c | Released _ => None end) out.
Definition ok_callers (out : list effect) : list Caller :=
  omap (λ e, match e with Answered c true => Some c | _ => None end) out.
Definition released (out : list effect) : list Lease :=
  omap (λ e, match e with Released l => Some l | Answered _ _ => None end) out.

Definition replies (l : list node) : list Caller := omap (λ n, pf_reply n.1) l.
Definition held (l : list node) : list Lease := mjoin ((λ n : node, [pf_retention n.1; n.2]) <$> l).

(** What an operation that removes the nodes [gone] without success tells the outside. *)
Definition drops (out : list effect) (gone : list node) : Prop :=
  callers out ≡ₚ replies gone ∧ ok_callers out = [] ∧ released out ≡ₚ held gone.

Lemma drops_nil : drops [] [].
Proof. done. Qed.

Lemma drops_app out1 out2 gone1 gone2 : drops out1 gone1 → drops out2 gone2 → drops (out1 ++ out2) (gone1 ++ gone2).
Proof.
  intros (H1 & H2 & H3) (H4 & H5 & H6). unfold drops, callers, ok_callers, released, replies, held in *.
  rewrite !omap_app, fmap_app, join_app, H2, H5. split_and!; [by f_equiv|done|by f_equiv].
Qed.

Lemma drop_node_drops n : drops (drop_node n) [n] ∧ drops (drop_popped n) [n].
Proof. destruct n as [[seq frame sent handed [c|] retention] entry]; split; split_and!; cbn; try done; apply Permutation_swap. Qed.

Lemma drop_nodes_drops l : drops (mjoin (drop_node <$> l)) l.
Proof.
  induction l as [|n l IH]; [apply drops_nil|]. cbn. apply (drops_app (drop_node n) (mjoin (drop_node <$> l)) [n]); [apply drop_node_drops|done].
Qed.

Lemma queue_iter_spec (q : LeasedQueue PendingFrame Lease) :
  queue_wf q → (queue_iter q).2 = (queue_rows q).*1 ∧ queue_rows (queue_iter q).1 = queue_rows q ∧ queue_wf (queue_iter q).1.
Proof.
  intros [Hc Hb]. destruct (queue_merge_spec q) as (Ho & _ & Hl). unfold queue_iter. cbn. rewrite Ho, queue_merge_rows.
  split_and!; [done..|]. split; rewrite ?queue_merge_rows; congruence.
Qed.

Lemma queue_iter_mut_spec (q : LeasedQueue PendingFrame Lease) find write :
  queue_wf q → queue_rows (queue_iter_mut q (first_match find write)) = write_first find write (queue_rows q) ∧
  queue_wf (queue_iter_mut q (first_match find write)).
Proof.
  intros [Hc Hb]. destruct (queue_merge_spec q) as (Ho & Hn & Hl). unfold queue_iter_mut. rewrite Ho, Hn.
  rewrite <- (write_each_first find write []) by done.
  apply queue_wf_of; [unfold queue_rows at 1; cbn [oldest newest]; by rewrite reverse_nil, app_nil_r| |]; rewrite length_write_each; cbn; lia.
Qed.

Lemma queue_retain_spec (q : LeasedQueue PendingFrame Lease) keep :
  queue_wf q → queue_rows (queue_retain q keep).1 = filter (λ n, keep n.1 = true) (queue_rows q) ∧
  queue_wf (queue_retain q keep).1 ∧ (queue_retain q keep).2 = filter (λ n, keep n.1 = false) (queue_rows q).
Proof.
  intros Hwf. destruct (leased_queue_contract q (QRetain keep) Hwf) as (q' & He & Hr & Hw'); [done|]. cbn [queue_exec queue_spec fst snd] in *.
  destruct (queue_retain q keep) as [q1 dropped]. injection He as -> ->. done.
Qed.

(** Whether the tail loop may take a frame back. *)
Definition revocable (closed : Caller → bool) (n : node) : bool := negb (pf_handed_out n.1) && abandoned closed n.1.
Definition finished (closed : Caller → bool) (n : node) : bool := pf_sent n.1 && abandoned closed n.1.

Lemma release_tail_spec closed rounds s out :
  queue_wf (pending s) → (length (rows s) ≤ rounds)%nat →
  ∃ s' kept gone out', release_tail rounds closed s out = Some (s', out ++ out') ∧ queue_wf (pending s') ∧
    rows s = kept ++ gone ∧ rows s' = kept ∧ Forall (λ n, revocable closed n = true) gone ∧
    (∀ n, last kept = Some n → revocable closed n = false) ∧ drops out' (reverse gone) ∧
    rs_stream s' = rs_stream s ∧ inbound_stream s' = inbound_stream s ∧ last_seq s' = last_seq s ∧
    next_seq s' = match gone with [] => next_seq s | n :: _ => saturating_sub (pf_seq n.1) 1 end.
Proof.
  revert s out. induction rounds as [|rounds IH]; intros s out Hwf Hle;
    destruct (queue_iter_spec (pending s) Hwf) as (Hi & Hr & Hw); destruct (queue_iter (pending s)) as [q frames] eqn:Hq;
    cbn [fst snd] in Hi, Hr, Hw; cbn [release_tail]; rewrite Hq, Hi, fmap_last; destruct (last (rows s)) as [n|] eqn:Hlast; cbn [fmap option_fmap option_map].
  1: by destruct (rows s); [|cbn in Hle; lia].
  1,3: apply last_None in Hlast; exists (with_pending s q), [], [], []; rewrite app_nil_r; split_and!; cbn; try done; congruence.
  destruct (negb (pf_handed_out n.1) && abandoned closed n.1) eqn:Hrev.
  2:{ exists (with_pending s q), (rows s), [], []. rewrite !app_nil_r. split_and!; cbn; try done. intros ? Hl'. unfold revocable. congruence. }
  destruct (queue_pop_back_spec q Hw) as (q' & -> & Hr' & Hw'). rewrite Hr, Hlast.
  destruct (last_Some (rows s) n) as [Hsome _]. destruct (Hsome Hlast) as [l Hl].
  assert (Hl' : queue_rows q' = l). { rewrite Hr', Hr, Hl, length_app, Nat.add_sub. by rewrite take_app_length. }
  set (s1 := mkReliable _ _ _ _ _).
  destruct (IH s1 (out ++ drop_popped n)) as (s' & kept & gone & out' & -> & ? & Hsplit & ? & Hgone & ? & Hd & ? & ? & ? & Hn);
    [done|cbn; rewrite Hl'; rewrite Hl, length_app in Hle; cbn in Hle; lia|]. cbn in Hsplit. rewrite Hl' in Hsplit.
  exists s', kept, (gone ++ [n]), (drop_popped n ++ out'). split_and!; try done.
  - by rewrite app_assoc.
  - by rewrite Hl, Hsplit, app_assoc.
  - apply Forall_app. split; [done|]. by constructor.
  - rewrite reverse_app. by apply drops_app; [apply drop_node_drops|].
  - rewrite Hn. by destruct gone.
Qed.

Lemma release_abandoned_spec closed s :
  queue_wf (pending s) →
  ∃ s' out kept gone, release_abandoned closed s = Some (s', out) ∧ queue_wf (pending s') ∧
    rows s = kept ++ gone ∧ rows s' = filter (λ n, finished closed n = false) kept ∧
    Forall (λ n, revocable closed n = true) gone ∧ drops out (reverse gone ++ filter (λ n, finished closed n = true) kept) ∧
    rs_stream s' = rs_stream s ∧ inbound_stream s' = inbound_stream s ∧ last_seq s' = last_seq s ∧
    next_seq s' = match gone with [] => next_seq s | n :: _ => saturating_sub (pf_seq n.1) 1 end.
Proof.
  intros Hwf. unfold release_abandoned.
  destruct (release_tail_spec closed (length (rows s)) s [] Hwf (le_n _))
    as (s1 & kept & gone & out & -> & Hw1 & Hsplit & Hr1 & Hg & _ & Hd & ? & ? & ? & Hn). cbn [mbind option_bind app].
  pose proof (queue_retain_spec (pending s1) (λ f, negb (pf_sent f && abandoned closed f)) Hw1) as (Hr2 & Hw2 & Hdr).
  destruct (queue_retain _ _) as [q dropped]. cbn [fst snd] in *. rewrite Hr1 in *.
  exists (with_pending s1 q), (out ++ mjoin (drop_node <$> dropped)), kept, gone. split_and!; cbn; try done.
  - rewrite Hr2. apply list_filter_iff. intros n. unfold finished. by destruct (_ && _).
  - apply drops_app; [done|]. replace (filter (λ n, finished closed n = true) kept) with dropped; [apply drop_nodes_drops|].
    rewrite Hdr. apply list_filter_iff. intros n. unfold finished. by destruct (_ && _).
Qed.

(** The prefix an acknowledgement settles. *)
Fixpoint settled_prefix (up_to : Z) (l : list node) : list node :=
  match l with
  | [] => []
  | n :: l => if pf_sent n.1 && (pf_seq n.1 <=? up_to) then n :: settled_prefix up_to l else []
  end.

Lemma settled_prefix_split up_to l : ∃ rest, l = settled_prefix up_to l ++ rest.
Proof.
  induction l as [|n l [rest IH]]; [by exists []|]. cbn [settled_prefix]. destruct (_ && _); [|by exists (n :: l)].
  exists rest. cbn. by rewrite <- IH.
Qed.

Lemma settled_prefix_sent up_to l n : n ∈ settled_prefix up_to l → pf_sent n.1 = true ∧ pf_seq n.1 ≤ up_to.
Proof.
  induction l as [|x l IH]; [by intros ?%elem_of_nil|]. cbn [settled_prefix].
  destruct (pf_sent x.1 && (pf_seq x.1 <=? up_to)) eqn:Hx; [|by intros ?%elem_of_nil].
  apply andb_prop in Hx as [? ?%Z.leb_le]. intros [->|?]%elem_of_cons; auto.
Qed.

Lemma settle_out up_to rounds s out n :
  settle rounds up_to s out n = (λ r, (r.1.1, out ++ r.1.2, r.2)) <$> settle rounds up_to s [] n.
Proof.
  assert (Hgen : ∀ out1 out2, settle rounds up_to s (out1 ++ out2) n = (λ r, (r.1.1, out1 ++ r.1.2, r.2)) <$> settle rounds up_to s out2 n).
  { revert s n. induction rounds as [|rounds IH]; intros s n out1 out2; cbn [settle]; destruct (queue_iter (pending s)) as [q [|f frames]];
      try done; destruct (_ && _); try done; cbn [resolve]; destruct (queue_pop_front _) as [[q' [x|]]|]; try done.
    by rewrite <- app_assoc, IH. }
  by rewrite <- Hgen, app_nil_r.
Qed.

Lemma settle_spec up_to rounds s out n :
  queue_wf (pending s) → (length (rows s) ≤ rounds)%nat →
  let front := settled_prefix up_to (rows s) in
  ∃ s' out', settle rounds up_to s out n = Some (s', out ++ out', n + Z.of_nat (length front)) ∧ queue_wf (pending s') ∧
    rows s = front ++ rows s' ∧ callers out' = replies front ∧ ok_callers out' = replies front ∧ released out' ≡ₚ held front ∧
    rs_stream s' = rs_stream s ∧ next_seq s' = next_seq s ∧ inbound_stream s' = inbound_stream s ∧ last_seq s' = last_seq s.
Proof.
  cbn zeta. revert s out n. induction rounds as [|rounds IH]; intros s out n Hwf Hle;
    destruct (queue_iter_spec (pending s) Hwf) as (Hi & Hr & Hw); destruct (queue_iter (pending s)) as [q frames] eqn:Hq;
    cbn [fst snd] in Hi, Hr, Hw; cbn [settle]; rewrite Hq, Hi; destruct (rows s) as [|x l] eqn:Hrows;
    cbn [fmap list_fmap settled_prefix length].
  1,3: exists (with_pending s q), []; rewrite app_nil_r, Z.add_0_r; split_and!; cbn; congruence || done.
  { cbn in Hle. lia. }
  destruct (pf_sent x.1 && (pf_seq x.1 <=? up_to)) eqn:Hx.
  2:{ exists (with_pending s q), []. rewrite app_nil_r, Z.add_0_r. split_and!; cbn; congruence || done. }
  cbn [resolve]. set (f' := mkPending _ _ _ _ _ _).
  destruct (queue_iter_mut_spec q (λ _, true) (λ _, f') Hw) as [Hr1 Hw1]. rewrite Hr in Hr1. cbn [write_first] in Hr1.
  destruct (queue_pop_front_spec _ Hw1) as (q' & -> & Hr2 & Hw2). rewrite Hr1 in *. cbn [head tail] in *.
  destruct (IH (with_pending s q') (out ++ (match pf_reply x.1 with Some c => [Answered c true] | None => [] end) ++ drop_popped (f', x.2)) (n + 1))
    as (s' & out' & Hset & ? & Hsp & Hc & Ho & Hrel & ? & ? & ? & ?); [done|cbn; rewrite Hr2; cbn in Hle; lia|].
  cbn [pending with_pending] in *. rewrite Hr2 in *. rewrite Hset.
  exists s', ((match pf_reply x.1 with Some c => [Answered c true] | None => [] end) ++ drop_popped (f', x.2) ++ out').
  split_and!; try done.
  - f_equal. f_equal; [|cbn [length]; lia]. by rewrite <- !app_assoc.
  - by rewrite Hsp at 1.
  - unfold callers, replies in *. rewrite !omap_app, Hc. cbn. by destruct (pf_reply x.1).
  - unfold ok_callers, replies in *. rewrite !omap_app, Ho. cbn. by destruct (pf_reply x.1).
  - unfold released, held in *. rewrite !omap_app. cbn. destruct (pf_reply x.1); cbn; rewrite Hrel; apply Permutation_swap.
Qed.
End reliable.
