(* ===== verification/ReliableLink.v ===== *)
(** * Two sessions joined by a lossy link

    The sender and the receiver of Reliable.v with what lies between them: callers
    that submit and may stop waiting, copies handed to writes (flush_owner of
    crates/myownmesh-core/src/engine/reliable.rs, whose write and mark are separate
    fence entries), frames on the wire, and acknowledgements.  The link may lose,
    repeat and reorder frames and acknowledgements, a write may reach the wire
    without returning, and frames and acknowledgements of other streams may
    arrive.  A caller that is told its send succeeded was delivered, once. *)

From S2P Require Import Prelude Claims Ranking Bytes LeasedQueue Reliable.
Local Open Scope Z_scope.

Section link.
Context {Payload Caller Lease : Type} `{codec : !ChannelCodec Payload} `{callers_countable : Countable Caller} (node_bytes : Z).

Notation State := (@ReliableState Caller Lease).
Notation node := (@PendingFrame Caller Lease * Lease)%type.
Notation rows s := (queue_rows (pending s)).

Record Link : Type := mkLink {
  sender : State;
  receiver : State;
  departed : gset Caller;
  requests : gmap Caller (string * Payload);
  writes : list (Z * bytes);
  wire : list bytes;
  acks : list (Z * Z);
  delivered : list (Z * (string * Payload));
  answered : list Caller;
  succeeded : list Caller;
}.

Definition link_start (draw_sender draw_receiver : Z) : Link :=
  mkLink (reliable_new draw_sender) (reliable_new draw_receiver) ∅ ∅ [] [] [] [] [] [].

Definition closed (l : Link) (c : Caller) : bool := bool_decide (c ∈ departed l).

(** The sender after an operation with its effects. *)
Definition with_sender (l : Link) (s : State) (out : list (@effect Caller Lease)) : Link :=
  mkLink s (receiver l) (departed l) (requests l) (writes l) (wire l) (acks l) (delivered l)
    (answered l ++ callers out) (succeeded l ++ ok_callers out).

Definition acknowledged {E} (stream : Z) (outcome : result E InboundOutcome) : list (Z * Z) :=
  match outcome with
  | Ok o => match outcome_acknowledge o with Some up_to => [(stream, up_to)] | None => [] end
  | Err _ => []
  end.

(** [on_channel_seq_admitted]: mark and delivery in one step, then the
    acknowledgement the outcome allows; a refused delivery answers nothing. *)
Definition receive_frame (deliver : Payload → result () ()) (l : Link) (stream seq : Z) (channel : string) (payload : Payload)
    : Link :=
  let '(r, outcome) := try_receive deliver (receiver l) stream seq payload in
  mkLink (sender l) r (departed l) (requests l) (writes l) (wire l)
    (acks l ++ acknowledged stream outcome)
    (delivered l ++ match outcome with Ok (Delivered _) => [(stream, (channel, payload))] | _ => [] end)
    (answered l) (succeeded l).

Definition with_request (l : Link) (c : Caller) (request : string * Payload) : Link :=
  mkLink (sender l) (receiver l) (departed l) (<[c := request]> (requests l)) (writes l) (wire l) (acks l) (delivered l)
    (answered l) (succeeded l).

Definition with_write (l : Link) (u : option (@UnsentFrame Lease)) : Link :=
  mkLink (sender l) (receiver l) (departed l) (requests l)
    (writes l ++ match u with Some u => [(uf_seq u, uf_bytes u)] | None => [] end)
    (wire l) (acks l) (delivered l) (answered l) (succeeded l).

Inductive link_step : Link → Link → Prop :=
| link_submit l c channel payload retain entry s out :
    requests l !! c = None → submit node_bytes retain entry (sender l) channel payload c = Some (s, out) →
    link_step l (with_sender (with_request l c (channel, payload)) s out)
| link_leave l c :
    link_step l (mkLink (sender l) (receiver l) ({[c]} ∪ departed l) (requests l) (writes l) (wire l) (acks l) (delivered l)
                   (answered l) (succeeded l))
| link_tick l s out b : has_unsent (closed l) (sender l) = Some (s, out, b) → link_step l (with_sender l s out)
| link_take l fund s out u :
    next_unsent fund (closed l) (sender l) = Some (s, out, u) → link_step l (with_write (with_sender l s out) u)
| link_write l seq b :
    (seq, b) ∈ writes l →
    link_step l (mkLink (sender l) (receiver l) (departed l) (requests l) (writes l) (wire l ++ [b]) (acks l) (delivered l)
                   (answered l) (succeeded l))
| link_mark l seq b :
    (seq, b) ∈ writes l → b ∈ wire l → link_step l (with_sender l (mark_sent (sender l) seq) [])
| link_arrive l deliver b stream seq channel payload :
    b ∈ wire l → from_json b = Some (stream, seq, channel, payload) →
    link_step l (receive_frame deliver l stream seq channel payload)
| link_foreign l deliver stream seq channel payload :
    stream ≠ rs_stream (sender l) → link_step l (receive_frame deliver l stream seq channel payload)
| link_ack l stream up_to s out n :
    (stream, up_to) ∈ acks l ∨ stream ≠ rs_stream (sender l) →
    acknowledge (closed l) (sender l) stream up_to = Some (s, out, n) → link_step l (with_sender l s out).

Definition link_reachable (l : Link) : Prop := ∃ a b, rtc link_step (link_start a b) l.

(** What the subscribers received of the sender's stream. *)
Definition own_delivered (l : Link) : list (string * Payload) :=
  omap (λ d, if decide (d.1 = rs_stream (sender l)) then Some d.2 else None) (delivered l).

(** ** The invariant

    [owner] maps each sequence handed to a write to the caller it belongs to,
    [h] is the last such sequence; [old] and [fresh] split the retained frames
    there; [who] are the callers whose payloads were delivered. *)
Record linked (l : Link) (owner : gmap Z Caller) (h : Z) (old fresh : list node) (who : list Caller) : Prop := {
  lk_wf : queue_wf (pending (sender l));
  lk_rows : rows (sender l) = old ++ fresh;
  lk_range : 0 ≤ h;
  lk_next : next_seq (sender l) = h + Z.of_nat (length fresh);
  lk_max : next_seq (sender l) ≤ u64_max;
  lk_old : ∀ n, n ∈ old → pf_handed_out n.1 = true ∧ owner !! pf_seq n.1 = pf_reply n.1;
  lk_unique : NoDup ((λ n : node, pf_seq n.1) <$> old);
  lk_fresh : ∀ i n, fresh !! i = Some n →
    pf_seq n.1 = h + 1 + Z.of_nat i ∧ pf_handed_out n.1 = false ∧ pf_sent n.1 = false ∧
    ∀ seq c, owner !! seq = Some c → pf_reply n.1 ≠ Some c;
  lk_frames : ∀ n, n ∈ old ++ fresh → ∃ c channel payload, pf_reply n.1 = Some c ∧
    requests l !! c = Some (channel, payload) ∧
    to_json (rs_stream (sender l)) (pf_seq n.1) channel payload = Some (pf_frame n.1) ∧
    Z.of_nat (length (pf_frame n.1)) ≤ usize_max;
  lk_owner : ∀ seq, is_Some (owner !! seq) ↔ 1 ≤ seq ≤ h;
  lk_inj : ∀ s t c, owner !! s = Some c → owner !! t = Some c → s = t;
  lk_callers : NoDup (answered l ++ replies (old ++ fresh));
  lk_known : ∀ c, c ∈ answered l ++ replies (old ++ fresh) → is_Some (requests l !! c);
  lk_writes : ∀ seq c, owner !! seq = Some c → ∃ channel payload b, requests l !! c = Some (channel, payload) ∧
    to_json (rs_stream (sender l)) seq channel payload = Some b ∧ (seq, b) ∈ writes l;
  lk_written : ∀ seq b, (seq, b) ∈ writes l → ∃ c channel payload, owner !! seq = Some c ∧
    requests l !! c = Some (channel, payload) ∧ to_json (rs_stream (sender l)) seq channel payload = Some b;
  lk_wire : ∀ b, b ∈ wire l → ∃ seq, (seq, b) ∈ writes l;
  lk_kept : ∀ seq, 1 ≤ seq ≤ h → (∃ n, n ∈ old ∧ pf_seq n.1 = seq) ∨ (∃ b, (seq, b) ∈ writes l ∧ b ∈ wire l);
  lk_sent : ∀ n, n ∈ old → pf_sent n.1 = true → pf_frame n.1 ∈ wire l;
  lk_who : ∀ i c, who !! i = Some c → owner !! (Z.of_nat i + 1) = Some c;
  lk_mark : match inbound_stream (receiver l) with
            | Some bound => if decide (bound = rs_stream (sender l)) then last_seq (receiver l) = Z.of_nat (length who)
                            else who = []
            | None => who = [] ∧ last_seq (receiver l) = 0
            end;
  lk_delivered : Forall2 (λ c d, requests l !! c = Some d) who (own_delivered l);
  lk_acks : ∀ up_to, (rs_stream (sender l), up_to) ∈ acks l → up_to ≤ Z.of_nat (length who);
  lk_ok : ∀ c, c ∈ succeeded l → c ∈ who ∧ c ∈ answered l;
}.

Lemma linked_start a b : linked (link_start a b) ∅ 0 [] [] [].
Proof.
  split; cbn; try done; try (by intros ? ?%elem_of_nil); try (by intros ? ? ?%elem_of_nil); try lia; try apply NoDup_nil_2.
  intros seq. rewrite lookup_empty. split; [by intros []|lia].
Qed.

Lemma handed_frame l owner h old fresh who n seq b :
  linked l owner h old fresh who → n ∈ old → (seq, b) ∈ writes l → pf_seq n.1 = seq → pf_frame n.1 = b.
Proof.
  intros Hl Hn Hw <-. destruct (lk_written _ _ _ _ _ _ Hl _ _ Hw) as (c & ch & p & Ho & Hr & Hj).
  destruct (lk_frames _ _ _ _ _ _ Hl n) as (c' & ch' & p' & Hc & Hr' & Hj' & _); [apply elem_of_app; by left|].
  destruct (lk_old _ _ _ _ _ _ Hl n Hn) as [_ Ho']. rewrite Ho, Hc in Ho'. injection Ho' as <-. congruence.
Qed.

Lemma old_written l owner h old fresh who n :
  linked l owner h old fresh who → n ∈ old → (pf_seq n.1, pf_frame n.1) ∈ writes l ∧ 1 ≤ pf_seq n.1 ≤ h.
Proof.
  intros Hl Hn. destruct (lk_old _ _ _ _ _ _ Hl n Hn) as [_ Ho].
  destruct (lk_frames _ _ _ _ _ _ Hl n) as (c & ch & p & Hc & Hr & Hj & _); [apply elem_of_app; by left|]. rewrite Hc in Ho.
  destruct (lk_writes _ _ _ _ _ _ Hl _ _ Ho) as (? & ? & b & ? & ? & Hw). split; [|apply (lk_owner _ _ _ _ _ _ Hl); by eexists].
  by rewrite (handed_frame _ _ _ _ _ _ _ _ _ Hl Hn Hw eq_refl).
Qed.

(** The sender gives up retained frames that were sent, and the last frames that
    were never handed out. *)
Lemma linked_remove l owner h old fresh who s out old' fresh0 gone :
  linked l owner h old fresh who → queue_wf (pending s) → rs_stream s = rs_stream (sender l) →
  rows s = old' ++ fresh0 → fresh = fresh0 ++ gone → next_seq s = h + Z.of_nat (length fresh0) →
  old' `sublist_of` old → (∀ n, n ∈ old → n ∈ old' ∨ pf_sent n.1 = true) →
  callers out ++ replies (old' ++ fresh0) ≡ₚ replies (old ++ fresh) →
  (∀ c, c ∈ ok_callers out → c ∈ who ∧ c ∈ callers out) → linked (with_sender l s out) owner h old' fresh0 who.
Proof.
  intros Hl Hwf Hst Hrows -> Hnext Hsub Hsent Hcall Hok.
  assert (Hin : ∀ n, n ∈ old' → n ∈ old) by (intros n Hx; by eapply elem_of_sublist).
  pose proof Hl as [_ _ Hh Hn Hmax Hold Huniq Hfresh Hframes Hown Hinj Hnd Hknown Hwr Hwn Hwire Hkept Hs Hwho Hmark Hdel Hack Hokk].
  assert (Hperm : answered l ++ replies (old ++ fresh0 ++ gone) ≡ₚ (answered l ++ callers out) ++ replies (old' ++ fresh0))
    by (rewrite <- app_assoc; by f_equiv).
  split; cbn [sender receiver requests writes wire acks answered succeeded with_sender]; rewrite ?Hst; try done.
  - rewrite length_app in Hn. lia.
  - intros n ?. by apply Hold, Hin.
  - eapply sublist_NoDup; [exact Huniq|]. by apply fmap_sublist.
  - intros i n Hi. apply (Hfresh i n). by apply lookup_app_l_Some.
  - intros n Hx. apply Hframes. rewrite !elem_of_app in *. naive_solver.
  - by rewrite <- Hperm.
  - intros c. rewrite <- Hperm. apply Hknown.
  - intros seq Hseq. destruct (Hkept seq Hseq) as [(n & Hno & <-)|]; [|by right]. destruct (Hsent n Hno) as [|Hse]; [left; by exists n|].
    right. exists (pf_frame n.1). split; [|by apply Hs]. by apply (old_written _ _ _ _ _ _ _ Hl).
  - intros n ? ?. by apply Hs; [apply Hin|].
  - unfold own_delivered. cbn. by rewrite Hst.
  - intros c [Hc|Hc]%elem_of_app; rewrite elem_of_app; [destruct (Hokk c Hc); tauto|destruct (Hok c Hc); tauto].
Qed.

Lemma fresh_elem l owner h old fresh who n :
  linked l owner h old fresh who → n ∈ fresh → pf_handed_out n.1 = false ∧ pf_sent n.1 = false.
Proof. intros Hl [i Hi]%list_elem_of_lookup. by destruct (lk_fresh _ _ _ _ _ _ Hl i n Hi) as (_ & ? & ? & _). Qed.

(** The sweep of abandoned frames. *)
Lemma linked_release l owner h old fresh who cl s out :
  linked l owner h old fresh who → release_abandoned cl (sender l) = Some (s, out) →
  ∃ old' fresh', linked (with_sender l s out) owner h old' fresh' who ∧ ok_callers out = [].
Proof.
  intros Hl H. pose proof (lk_rows _ _ _ _ _ _ Hl) as Hrows.
  destruct (release_abandoned_spec cl (sender l) (lk_wf _ _ _ _ _ _ Hl))
    as (s1 & out1 & kept & gone & H1 & Hwf & Hsplit & Hr & Hrev & Hdrops & Hst & _ & _ & Hn).
  rewrite H in H1. injection H1 as <- <-. destruct Hdrops as (Hc & Hok & _).
  assert (Hgone : ∀ n, n ∈ gone → pf_handed_out n.1 = false).
  { intros n Hg. rewrite Forall_forall in Hrev. specialize (Hrev n Hg). unfold revocable in Hrev. by destruct (pf_handed_out n.1). }
  assert (∃ fresh0, kept = old ++ fresh0 ∧ fresh = fresh0 ++ gone) as (fresh0 & -> & ->).
  { rewrite Hsplit in Hrows. apply app_eq_inv in Hrows as [(k & -> & ->)|(k & -> & ->)]; [by exists k|].
    assert (k = []) as ->; [|exists []; by rewrite !app_nil_r].
    destruct k as [|n k]; [done|]. destruct (lk_old _ _ _ _ _ _ Hl n) as [Ho _]; [apply elem_of_app; right; by left|].
    rewrite Hgone in Ho; [done|by left]. }
  assert (Hfil : filter (λ n, finished cl n = false) (old ++ fresh0) = filter (λ n, finished cl n = false) old ++ fresh0 ∧
                 filter (λ n, finished cl n = true) (old ++ fresh0) = filter (λ n, finished cl n = true) old).
  { assert (Hf : ∀ n, n ∈ fresh0 → finished cl n = false).
    { intros n Hn'. unfold finished. destruct (fresh_elem _ _ _ _ _ _ n Hl) as [_ ->]; [apply elem_of_app; by left|done]. }
    rewrite !filter_app. split; [f_equal; by apply list_filter_all|]. rewrite <- (app_nil_r (filter _ old)) at 2. f_equal.
    apply elem_of_nil_inv. intros n [Hx Hi]%list_elem_of_filter. rewrite Hf in Hx by done. done. }
  destruct Hfil as [Hf1 Hf2]. rewrite Hf1 in Hr. rewrite Hf2 in Hc.
  exists (filter (λ n, finished cl n = false) old), fresh0. split; [|done].
  eapply (linked_remove _ _ _ _ _ _ _ _ _ _ gone Hl); try done.
  - rewrite Hn. pose proof (lk_next _ _ _ _ _ _ Hl) as Hnext. pose proof (lk_range _ _ _ _ _ _ Hl). destruct gone as [|n gone].
    + by rewrite app_nil_r in Hnext.
    + destruct (lk_fresh _ _ _ _ _ _ Hl (length fresh0) n) as [-> _]; [by apply list_lookup_middle|]. unfold saturating_sub. lia.
  - apply sublist_filter.
  - intros n Hin. destruct (finished cl n) eqn:Hf; [right; unfold finished in Hf; by destruct (pf_sent n.1)|left].
    by apply list_elem_of_filter.
  - rewrite Hc. unfold replies. rewrite !omap_app.
    rewrite <- (filter_app_complement (λ n, finished cl n = true) old) at 3. rewrite omap_app, reverse_Permutation.
    rewrite (list_filter_iff (λ x, ¬ finished cl x = true) (λ n, finished cl n = false) old)
      by (intros n; by destruct (finished cl n)). solve_Permutation.
  - rewrite Hok. by intros c ?%elem_of_nil.
Qed.

Lemma with_sender_app l s1 out1 s2 out2 :
  with_sender (with_sender l s1 out1) s2 out2 = with_sender l s2 (out1 ++ out2).
Proof. unfold with_sender. cbn. unfold callers, ok_callers. by rewrite !omap_app, !app_assoc. Qed.

Lemma elem_of_replies (l : list node) c : c ∈ replies l ↔ ∃ n, n ∈ l ∧ pf_reply n.1 = Some c.
Proof. unfold replies. by rewrite list_elem_of_omap. Qed.

(** An acknowledgement up to a delivered mark. *)
Lemma linked_settle l owner h old fresh who rounds up_to s out n :
  linked l owner h old fresh who → up_to ≤ Z.of_nat (length who) → (length (rows (sender l)) ≤ rounds)%nat →
  settle rounds up_to (sender l) [] 0 = Some (s, out, n) →
  ∃ old', linked (with_sender l s out) owner h old' fresh who.
Proof.
  intros Hl Hup Hle H. pose proof (lk_rows _ _ _ _ _ _ Hl) as Hrows.
  destruct (settle_spec up_to rounds (sender l) [] 0 (lk_wf _ _ _ _ _ _ Hl) Hle)
    as (s1 & out1 & H1 & Hwf & Hsplit & Hc & Hok & _ & Hst & Hn & _ & _).
  rewrite H in H1. injection H1 as <- -> _. cbn [app] in *. set (front := settled_prefix up_to _) in *.
  assert (Hsent : ∀ x, x ∈ front → pf_sent x.1 = true ∧ pf_seq x.1 ≤ up_to) by (intros x; apply settled_prefix_sent).
  assert (∃ old', old = front ++ old' ∧ rows s = old' ++ fresh) as (old' & -> & Hr).
  { rewrite Hsplit in Hrows. apply app_eq_inv in Hrows as [(k & Hfr & ->)|(k & -> & ->)]; [|by exists k].
    assert (k = []) as ->; [|rewrite app_nil_r in Hfr; exists []; by rewrite app_nil_r, Hfr].
    destruct k as [|x k]; [done|]. destruct (Hsent x) as [Hs _]; [rewrite Hfr; apply elem_of_app; right; by left|].
    destruct (fresh_elem _ _ _ _ _ _ x Hl) as [_ Hs']; [by left|]. congruence. }
  exists old'. eapply (linked_remove _ _ _ _ _ _ _ _ _ _ [] Hl); try done.
  - by rewrite app_nil_r.
  - rewrite Hn. apply (lk_next _ _ _ _ _ _ Hl).
  - apply sublist_inserts_l. done.
  - intros x [Hx|Hx]%elem_of_app; [right; by apply Hsent|by left].
  - rewrite Hc. unfold replies. by rewrite !omap_app, app_assoc.
  - intros c. rewrite Hok, Hc. intros Hin. split; [|done]. apply elem_of_replies in Hin as (x & Hx & Hreply).
    destruct (Hsent x Hx) as [_ Hseq]. assert (Ho : x ∈ front ++ old') by (apply elem_of_app; by left).
    destruct (old_written _ _ _ _ _ _ _ Hl Ho) as [_ Hrange]. destruct (lk_old _ _ _ _ _ _ Hl x Ho) as [_ Hown].
    destruct (who !! Z.to_nat (pf_seq x.1 - 1)) as [c'|] eqn:Hw; [|apply lookup_ge_None in Hw; lia].
    pose proof (lk_who _ _ _ _ _ _ Hl _ _ Hw) as Hc'. rewrite Z2Nat.id in Hc' by lia.
    replace (pf_seq x.1 - 1 + 1) with (pf_seq x.1) in Hc' by lia. rewrite Hown, Hreply in Hc'. injection Hc' as ->.
    by eapply list_elem_of_lookup_2.
Qed.

Lemma linked_ack l owner h old fresh who stream up_to s out n :
  linked l owner h old fresh who → (stream, up_to) ∈ acks l ∨ stream ≠ rs_stream (sender l) →
  acknowledge (closed l) (sender l) stream up_to = Some (s, out, n) →
  ∃ old' fresh', linked (with_sender l s out) owner h old' fresh' who.
Proof.
  intros Hl Hack H. unfold acknowledge in H. case_bool_decide as Hs.
  { injection H as <- <- _. exists old, fresh. destruct l. unfold with_sender. cbn in *. by rewrite !app_nil_r. }
  subst stream. destruct Hack as [Hack|?]; [|done].
  destruct (release_abandoned (closed l) (sender l)) as [[s1 out1]|] eqn:Hr; [|done]. cbn [mbind option_bind] in H.
  destruct (linked_release _ _ _ _ _ _ _ _ _ Hl Hr) as (old1 & fresh1 & Hl1 & Hok1).
  pose proof (lk_acks _ _ _ _ _ _ Hl _ Hack) as Hup.
  destruct (settle_spec up_to (length (rows s1)) s1 [] 0 (lk_wf _ _ _ _ _ _ Hl1) (le_n _)) as (s3 & out3 & H3 & _).
  destruct (linked_settle _ _ _ _ _ _ (length (rows s1)) up_to s3 out3 _ Hl1 Hup (le_n _) H3) as (old2 & Hl2).
  rewrite with_sender_app in Hl2. exists old2, fresh1.
  rewrite (settle_out up_to (length (rows s1)) s1 out1 0), H3 in H. cbn in H. by injection H as <- <- _.
Qed.

(** ** Submission *)
Lemma linked_request l owner h old fresh who c request :
  linked l owner h old fresh who → requests l !! c = None →
  linked (with_request l c request) owner h old fresh who ∧
  c ∉ answered l ++ replies (old ++ fresh) ∧ ∀ seq, owner !! seq ≠ Some c.
Proof.
  intros Hl Hc.
  assert (Hmono : ∀ c' r, requests l !! c' = Some r → <[c := request]> (requests l) !! c' = Some r).
  { intros c' r Hr. rewrite lookup_insert_ne; [done|]. intros ->. congruence. }
  pose proof Hl as [Hwf Hrows Hh Hn Hmax Hold Huniq Hfresh Hframes Hown Hinj Hnd Hknown Hwr Hwn Hwire Hkept Hs Hwho Hmark Hdel Hack Hokk].
  split_and!.
  - split; cbn [sender receiver requests writes wire acks answered succeeded with_request]; try done.
    + intros n Hx. destruct (Hframes n Hx) as (c' & ch & p & ? & ? & ?). exists c', ch, p. auto.
    + intros c' Hx. destruct (Hknown c' Hx) as [r Hr]. exists r. auto.
    + intros seq c' Ho. destruct (Hwr seq c' Ho) as (ch & p & b & ? & ? & ?). exists ch, p, b. auto.
    + intros seq b Hw. destruct (Hwn seq b Hw) as (c' & ch & p & ? & ? & ?). exists c', ch, p. auto.
    + eapply Forall2_impl; [exact Hdel|]. cbn. auto.
  - intros Hx. destruct (Hknown c Hx). congruence.
  - intros seq Ho. destruct (Hwr seq c Ho) as (ch & p & b & ? & _). congruence.
Qed.

Lemma submit_spec retain entry (s : State) channel payload c s' out :
  queue_wf (pending s) → submit node_bytes retain entry s channel payload c = Some (s', out) →
  (s' = s ∧ callers out = [c] ∧ ok_callers out = []) ∨
  ∃ b lease node_lease, out = [] ∧ next_seq s + 1 ≤ u64_max ∧ next_seq s' = next_seq s + 1 ∧
    rs_stream s' = rs_stream s ∧ to_json (rs_stream s) (next_seq s + 1) channel payload = Some b ∧ Z.of_nat (length b) ≤ usize_max ∧
    queue_wf (pending s') ∧ rows s' = rows s ++ [(mkPending (next_seq s + 1) b false false (Some c) lease, node_lease)].
Proof.
  intros Hwf H. unfold submit in H.
  destruct (checked_add u64_max (next_seq s) 1) as [seq|] eqn:Hseq; [|left; by injection H as <- <-].
  apply checked_add_Some in Hseq as [-> Hmax].
  destruct (encoded_len _ _ _ _) as [len|] eqn:Hlen; [|left; by injection H as <- <-].
  destruct (retained_frame_claim len) as [claim|e]; [|left; by injection H as <- <-].
  destruct (retain claim) as [lease|]; [|left; by injection H as <- <-].
  destruct (entry_claim node_bytes) as [nclaim|e]; [|left; by injection H as <- <-].
  destruct (entry nclaim) as [nl|]; [|left; by injection H as <- <-].
  unfold encode_exact in H. destruct (to_json _ _ _ _) as [b|] eqn:Hj; cbn [mbind option_bind] in H; [|left; by injection H as <- <-].
  destruct (_ =? len); [|left; by injection H as <- <-]. right.
  unfold encoded_len in Hlen. rewrite Hj in Hlen. cbn [mbind option_bind] in Hlen.
  destruct (Z.leb_spec (Z.of_nat (length b)) usize_max); [clear Hlen|done]. set (f := mkPending _ _ _ _ _ _) in H.
  destruct (queue_push (pending s) f nl) as [q|] eqn:Hq; [|done]. cbn [mbind option_bind] in H. injection H as <- <-.
  destruct (leased_queue_contract (pending s) (QPush f nl) Hwf) as (q' & He & Hr & Hw).
  { intros v e [= <- <-]. unfold queue_push in Hq. destruct (checked_add usize_max (queue_len (pending s)) 1) eqn:Hc; [|done].
    apply checked_add_Some in Hc as [_ ?]. lia. }
  cbn [queue_exec queue_spec fst snd] in *. rewrite Hq in He. injection He as ->. by exists b, lease, nl.
Qed.

Lemma linked_submit l owner h old fresh who c channel payload retain entry s out :
  linked l owner h old fresh who → requests l !! c = None →
  submit node_bytes retain entry (sender l) channel payload c = Some (s, out) →
  ∃ fresh', linked (with_sender (with_request l c (channel, payload)) s out) owner h old fresh' who.
Proof.
  intros Hl0 Hnew H. destruct (linked_request _ _ _ _ _ _ c (channel, payload) Hl0 Hnew) as (Hl & Hfr & Hno).
  pose proof Hl as [Hwf Hrows Hh Hn Hmax Hold Huniq Hfresh Hframes Hown Hinj Hnd Hknown Hwr Hwn Hwire Hkept Hs Hwho Hmark Hdel Hack Hokk].
  cbn [sender receiver requests writes wire acks answered succeeded with_request] in *.
  apply submit_spec in H as [(-> & Hc & Hok)|(b & lease & nl & -> & Hm & Hn' & Hst & Hj & Hfit & Hwf' & Hr)]; [..|done].
  - exists fresh. split; cbn [sender receiver requests writes wire acks answered succeeded with_request with_sender]; rewrite ?Hc, ?Hok, ?app_nil_r; try done.
    + rewrite <- app_assoc. cbn [app]. rewrite <- Permutation_middle. by apply NoDup_cons.
    + intros c'. rewrite <- app_assoc. cbn [app]. rewrite <- Permutation_middle. intros [->|?]%elem_of_cons; [|by apply Hknown].
      rewrite lookup_insert_eq. by eexists.
    + intros c' Hx. destruct (Hokk c' Hx). rewrite elem_of_app. tauto.
  - set (n := (mkPending _ _ _ _ _ _, nl)) in Hr. exists (fresh ++ [n]).
    assert (Hrep : replies (old ++ fresh ++ [n]) = replies (old ++ fresh) ++ [c]).
    { unfold replies. rewrite !omap_app. cbn. by rewrite app_assoc. }
    split; cbn [sender receiver requests writes wire acks answered succeeded with_request with_sender callers ok_callers omap list_omap];
      rewrite ?app_nil_r, ?Hst; try done.
    + by rewrite Hr, Hrows, app_assoc.
    + rewrite length_app. cbn. lia.
    + lia.
    + intros i m Hi. apply lookup_app_Some in Hi as [Hi|[Hge Hi]]; [by apply Hfresh|]. apply list_lookup_singleton_Some in Hi as [Hi <-].
      cbn. split_and!; try done; [lia|]. intros seq c' Ho [= ->]. by apply (Hno seq).
    + intros m Hm'. rewrite app_assoc in Hm'. apply elem_of_app in Hm' as [Hm'| ->%list_elem_of_singleton]; [by apply Hframes|].
      exists c, channel, payload. cbn. by rewrite lookup_insert_eq.
    + rewrite Hrep, app_assoc. apply NoDup_app. split_and!; [done| |apply NoDup_singleton].
      intros x Hx ->%list_elem_of_singleton. done.
    + intros c'. rewrite Hrep, app_assoc. intros [?| ->%list_elem_of_singleton]%elem_of_app; [by apply Hknown|].
      rewrite lookup_insert_eq. by eexists.
    + unfold own_delivered in *. cbn in *. by rewrite Hst.
Qed.

(** ** Handing a frame to a write *)
Lemma write_first_id find write (l : list node) :
  (∀ n, n ∈ l → find n.1 = true → write n.1 = n.1) → write_first find write l = l.
Proof.
  induction l as [|n l IH]; intros Hw; [done|]. cbn [write_first]. destruct (find n.1) eqn:Hf.
  - rewrite Hw; [by destruct n|by left|done].
  - f_equal. apply IH. intros x Hx. apply Hw. by right.
Qed.

Lemma write_first_at find write (before after : list node) n :
  (∀ x, x ∈ before → find x.1 = false) → find n.1 = true →
  write_first find write (before ++ n :: after) = before ++ (write n.1, n.2) :: after.
Proof.
  induction before as [|x before IH]; intros Hb Hn; cbn [app write_first]; [by rewrite Hn|].
  rewrite (Hb x) by by left. f_equal. apply IH; [|done]. intros y Hy. apply Hb. by right.
Qed.

Lemma find_unsent (l : list node) f :
  List.find (λ f, negb (pf_sent f)) l.*1 = Some f →
  ∃ before n after, l = before ++ n :: after ∧ n.1 = f ∧ pf_sent f = false ∧ Forall (λ x : node, pf_sent x.1 = true) before.
Proof.
  induction l as [|x l IH]; [done|]. cbn. destruct (pf_sent x.1) eqn:Hx; cbn.
  - intros (before & n & after & -> & ? & ? & ?)%IH. exists (x :: before), n, after. split_and!; try done. by constructor.
  - intros [= <-]. by exists [], x, l.
Qed.

Lemma next_unsent_spec fund cl (s s' : State) out u :
  queue_wf (pending s) → next_unsent fund cl s = Some (s', out, u) →
  ∃ s1, release_abandoned cl s = Some (s1, out) ∧ queue_wf (pending s') ∧ rs_stream s' = rs_stream s1 ∧ next_seq s' = next_seq s1 ∧
    match u with
    | None => rows s' = rows s1
    | Some u => ∃ before n after, rows s1 = before ++ n :: after ∧ pf_sent n.1 = false ∧
        Forall (λ x : node, pf_sent x.1 = true) before ∧ uf_seq u = pf_seq n.1 ∧ uf_bytes u = pf_frame n.1 ∧
        rows s' = write_first (λ g, pf_seq g =? pf_seq n.1) hand_out (rows s1)
    end.
Proof.
  intros Hwf H. unfold next_unsent in H. destruct (release_abandoned_spec cl s Hwf) as (s1 & out1 & kept & gone & Hr & Hw1 & _).
  rewrite Hr in *. cbn [mbind option_bind] in H. exists s1. destruct (queue_iter_spec (pending s1) Hw1) as (Hi & Hrow & Hw).
  destruct (queue_iter (pending s1)) as [q frames]. cbn [fst snd] in *. rewrite Hi in H.
  destruct (List.find _ _) as [f|] eqn:Hf; [|injection H as <- <- <-; split_and!; cbn; done].
  destruct (transient_frame_claim _) as [claim|]; [|injection H as <- <- <-; split_and!; cbn; done].
  destruct (fund claim) as [lease|]; [|injection H as <- <- <-; split_and!; cbn; done].
  injection H as <- <- <-. destruct (queue_iter_mut_spec q (λ g, pf_seq g =? pf_seq f) hand_out Hw) as [Hr' Hw'].
  apply find_unsent in Hf as (before & n & after & Heq & <- & Hs & Hb). split_and!; cbn [pending with_pending rs_stream next_seq]; try done.
  exists before, n, after. split_and!; try done. by rewrite Hr', Hrow.
Qed.

Lemma linked_same l owner h old fresh who s :
  linked l owner h old fresh who → queue_wf (pending s) → rs_stream s = rs_stream (sender l) →
  next_seq s = next_seq (sender l) → rows s = rows (sender l) → linked (with_sender l s []) owner h old fresh who.
Proof.
  intros Hl Hwf Hst Hn Hr. eapply (linked_remove _ _ _ _ fresh _ _ _ _ _ [] Hl); try done.
  - by rewrite Hr, (lk_rows _ _ _ _ _ _ Hl).
  - by rewrite app_nil_r.
  - rewrite Hn. apply (lk_next _ _ _ _ _ _ Hl).
  - intros n ?. by left.
  - by intros c ?%elem_of_nil.
Qed.

Lemma linked_write_again l owner h old fresh who n u :
  linked l owner h old fresh who → n ∈ old → uf_seq u = pf_seq n.1 → uf_bytes u = pf_frame n.1 →
  linked (with_write l (Some u)) owner h old fresh who.
Proof.
  intros Hl Hn Hs Hb. pose proof Hl as [Hwf Hrows Hh Hnx Hmax Hold Huniq Hfresh Hframes Hown Hinj Hnd Hknown Hwr Hwn Hwire Hkept Hse Hwho Hmark Hdel Hack Hokk].
  split; cbn [sender receiver requests writes wire acks answered succeeded with_write]; try done.
  - intros seq c Ho. destruct (Hwr seq c Ho) as (ch & p & b & ? & ? & ?). exists ch, p, b. rewrite elem_of_app. tauto.
  - intros seq b [Hw|[= -> ->]%list_elem_of_singleton]%elem_of_app; [by apply Hwn|].
    destruct (Hframes n) as (c & ch & p & Hc & Hr & Hj & _); [apply elem_of_app; by left|]. exists c, ch, p.
    rewrite Hs, Hb. destruct (Hold n Hn) as [_ ->]. done.
  - intros b Hw. destruct (Hwire b Hw) as [seq ?]. exists seq. rewrite elem_of_app. tauto.
  - intros seq Hseq. destruct (Hkept seq Hseq) as [?|(b & ? & ?)]; [by left|right]. exists b. rewrite elem_of_app. tauto.
Qed.

(** The next sequence gets an owner that had none. *)
Lemma owner_grow (owner : gmap Z Caller) h c :
  0 ≤ h → (∀ seq, is_Some (owner !! seq) ↔ 1 ≤ seq ≤ h) → (∀ s t c, owner !! s = Some c → owner !! t = Some c → s = t) →
  (∀ t, owner !! t ≠ Some c) →
  (∀ seq c', owner !! seq = Some c' → <[h + 1 := c]> owner !! seq = Some c') ∧
  (∀ seq, is_Some (<[h + 1 := c]> owner !! seq) ↔ 1 ≤ seq ≤ h + 1) ∧
  (∀ s t c', <[h + 1 := c]> owner !! s = Some c' → <[h + 1 := c]> owner !! t = Some c' → s = t).
Proof.
  intros Hh Hown Hinj Hno. split_and!.
  - intros seq c' Ho. rewrite lookup_insert_ne; [done|]. intros <-. assert (1 ≤ h + 1 ≤ h) by (apply Hown; by eexists). lia.
  - intros seq. destruct (decide (seq = h + 1)) as [->|Hne]; [rewrite lookup_insert_eq; split; [lia|by eexists]|].
    rewrite lookup_insert_ne, Hown by done. lia.
  - intros s1 s2 c'. destruct (decide (s1 = h + 1)) as [->|], (decide (s2 = h + 1)) as [->|];
      rewrite ?lookup_insert_eq, ?lookup_insert_ne by done; try done; [intros [= <-] ?; by exfalso; eapply Hno|
      intros ? [= <-]; by exfalso; eapply Hno|by apply Hinj].
Qed.

(** No later frame waits for the caller of the first one. *)
Lemma fresh_callers (old fresh : list node) n m c (told : list Caller) :
  NoDup (told ++ replies (old ++ n :: fresh)) → pf_reply n.1 = Some c → m ∈ fresh → pf_reply m.1 ≠ Some c.
Proof.
  intros Hnd Hc Hin Hm. apply NoDup_app in Hnd as (_ & _ & Hnd). unfold replies in Hnd. rewrite omap_app in Hnd.
  apply NoDup_app in Hnd as (_ & _ & Hnd). cbn in Hnd. rewrite Hc in Hnd. apply NoDup_cons in Hnd as [Hnd _].
  apply Hnd, list_elem_of_omap. by exists m.
Qed.

Lemma linked_hand_out l owner h old fresh who n u s :
  linked l owner h old (n :: fresh) who → queue_wf (pending s) → rs_stream s = rs_stream (sender l) →
  next_seq s = next_seq (sender l) → rows s = old ++ (hand_out n.1, n.2) :: fresh →
  uf_seq u = pf_seq n.1 → uf_bytes u = pf_frame n.1 →
  ∃ owner', linked (with_write (with_sender l s []) (Some u)) owner' (h + 1) (old ++ [(hand_out n.1, n.2)]) fresh who.
Proof.
  intros Hl Hwf Hst Hn Hr Hseq Hbytes.
  pose proof Hl as [_ Hrows Hh Hnx Hmax Hold Huniq Hfresh Hframes Hown Hinj Hnd Hknown Hwr Hwn Hwire Hkept Hse Hwho Hmark Hdel Hack Hokk].
  destruct (Hfresh 0%nat n eq_refl) as (Hns & Hnh & Hnt & Hno).
  destruct (Hframes n) as (c & ch & p & Hc & Hreq & Hj & Hfit); [apply elem_of_app; right; by left|].
  destruct (owner_grow owner h c Hh Hown Hinj) as (Hgrow & Hown' & Hinj'); [intros t Ho; by apply (Hno t c)|].
  assert (Hrep : replies ((old ++ [(hand_out n.1, n.2)]) ++ fresh) = replies (old ++ n :: fresh)).
  { unfold replies. rewrite !omap_app. cbn. rewrite <- app_assoc. cbn. by destruct (pf_reply n.1). }
  replace (h + 1 + Z.of_nat 0) with (h + 1) in Hns by lia.
  exists (<[h + 1 := c]> owner). split; cbn [sender receiver requests writes wire acks answered succeeded with_write with_sender
    callers ok_callers omap list_omap]; rewrite ?app_nil_r, ?Hst, ?Hrep; try done.
  - by rewrite Hr, <- app_assoc.
  - lia.
  - cbn [length] in Hnx. lia.
  - lia.
  - intros m [Hm| ->%list_elem_of_singleton]%elem_of_app.
    + destruct (Hold m Hm) as [? Ho]. split; [done|]. destruct (Hframes m) as (c' & ? & ? & Hc' & _); [apply elem_of_app; by left|].
      rewrite Hc' in *. by apply Hgrow.
    + cbn. split; [done|]. by rewrite Hns, lookup_insert_eq.
  - rewrite fmap_app. apply NoDup_app. split_and!; [done| |apply NoDup_singleton].
    intros x (m & -> & Hm)%list_elem_of_fmap Hx%list_elem_of_singleton. cbn in Hx.
    destruct (old_written _ _ _ _ _ _ _ Hl Hm) as [_ ?]. lia.
  - intros i m Hi. destruct (Hfresh (S i) m Hi) as (? & ? & ? & Hom). split_and!; try done; [lia|].
    intros seq c' Ho. destruct (decide (seq = h + 1)) as [->|]; [|rewrite lookup_insert_ne in Ho by done; by eapply Hom].
    rewrite lookup_insert_eq in Ho. injection Ho as <-. by eapply fresh_callers, list_elem_of_lookup_2.
  - intros m Hm. rewrite <- app_assoc in Hm. cbn [app] in Hm. rewrite elem_of_app, elem_of_cons in Hm.
    destruct Hm as [Hm|[->|Hm]]; [apply Hframes; apply elem_of_app; by left|exists c, ch, p; by cbn|].
    apply Hframes. apply elem_of_app. right. by right.
  - intros seq c' Ho. destruct (decide (seq = h + 1)) as [->|].
    + rewrite lookup_insert_eq in Ho. injection Ho as <-. exists ch, p, (pf_frame n.1). rewrite <- Hns, Hseq, Hbytes.
      split_and!; try done. apply elem_of_app. right. by left.
    + rewrite lookup_insert_ne in Ho by done. destruct (Hwr seq c' Ho) as (ch' & p' & b & ? & ? & ?). exists ch', p', b.
      rewrite elem_of_app. tauto.
  - intros seq b [Hw|[= -> ->]%list_elem_of_singleton]%elem_of_app.
    + destruct (Hwn seq b Hw) as (c' & ch' & p' & ? & ? & ?). exists c', ch', p'. auto.
    + exists c, ch, p. rewrite Hseq, Hbytes. split_and!; try done. by rewrite Hns, lookup_insert_eq.
  - intros b Hw. destruct (Hwire b Hw) as [seq ?]. exists seq. rewrite elem_of_app. tauto.
  - intros seq Hrange. destruct (decide (seq = h + 1)) as [->|].
    + left. exists (hand_out n.1, n.2). split; [apply elem_of_app; right; by left|done].
    + destruct (Hkept seq) as [(m & ? & ?)|(b & ? & ?)]; [lia|left; exists m|right; exists b]; rewrite elem_of_app; tauto.
  - intros m [Hm| ->%list_elem_of_singleton]%elem_of_app; [by apply Hse|]. cbn. congruence.
  - intros i c' Hi. apply Hgrow. by apply Hwho.
  - unfold own_delivered in *. cbn. by rewrite Hst.
Qed.

Lemma linked_take l owner h old fresh who fund s out u :
  linked l owner h old fresh who → next_unsent fund (closed l) (sender l) = Some (s, out, u) →
  ∃ owner' h' old' fresh', linked (with_write (with_sender l s out) u) owner' h' old' fresh' who.
Proof.
  intros Hl0 H. apply next_unsent_spec in H as (s1 & Hr & Hwf & Hst & Hn & Hu); [|apply (lk_wf _ _ _ _ _ _ Hl0)].
  destruct (linked_release _ _ _ _ _ _ _ _ _ Hl0 Hr) as (old1 & fresh1 & Hl & _).
  replace (with_sender l s out) with (with_sender (with_sender l s1 out) s []) by by rewrite with_sender_app, app_nil_r.
  set (l1 := with_sender l s1 out) in *. pose proof (lk_rows _ _ _ _ _ _ Hl) as Hrows. cbn [sender l1 with_sender] in Hrows.
  destruct u as [u|].
  2:{ exists owner, h, old1, fresh1. pose proof (linked_same _ _ _ _ _ _ s Hl Hwf Hst Hn Hu) as Hs.
      destruct Hs. split; cbn [sender receiver requests writes wire acks answered succeeded with_write] in *; rewrite ?app_nil_r; done. }
  destruct Hu as (before & n & after & Hsplit & Hns & Hb & Hseq & Hbytes & Hr').
  rewrite Hrows in Hsplit. symmetry in Hsplit. rewrite Forall_forall in Hb.
  assert (Hfs : ∀ x, x ∈ fresh1 → h + 1 ≤ pf_seq x.1 ∧ pf_sent x.1 = false).
  { intros x [i Hi]%list_elem_of_lookup. destruct (lk_fresh _ _ _ _ _ _ Hl i x Hi) as (? & _ & ? & _). split; [lia|done]. }
  assert (n ∈ old1 ∨ before = old1 ∧ fresh1 = n :: after) as [Hold|[-> ->]].
  { apply app_eq_inv in Hsplit as [(k & -> & Hk)|(k & -> & Hk)]; destruct k as [|x k].
    - right. by rewrite app_nil_r.
    - destruct (Hfs x) as [_ Hx]; [rewrite Hk; by left|]. rewrite Hb in Hx; [done|]. apply elem_of_app. right. by left.
    - right. by rewrite app_nil_r.
    - left. injection Hk as -> _. apply elem_of_app. right. by left. }
  - exists owner, h, old1, fresh1. eapply linked_write_again; try done. apply linked_same; try done. cbn. rewrite Hr'.
    apply write_first_id. intros x Hx Heq%Z.eqb_eq. rewrite Hrows in Hx. destruct (old_written _ _ _ _ _ _ _ Hl Hold) as [_ ?].
    apply elem_of_app in Hx as [Hx|Hx]; [|destruct (Hfs x Hx); lia]. destruct (lk_old _ _ _ _ _ _ Hl x Hx) as [Hh _].
    unfold hand_out. destruct x as [[? ? ? hd ? ?] ?]. cbn in *. by rewrite Hh.
  - destruct (linked_hand_out l1 owner h old1 after who n u s Hl) as [owner' Hl']; try done; [|by exists owner', (h + 1), (old1 ++ [(hand_out n.1, n.2)]), after].
    rewrite Hr', Hrows. apply write_first_at; [|by apply Z.eqb_eq]. intros x Hx. apply Z.eqb_neq.
    destruct (old_written _ _ _ _ _ _ _ Hl Hx) as [_ ?]. destruct (Hfs n) as [? _]; [by left|]. lia.
Qed.

(** ** A write that returned *)
Lemma write_first_fmap {A} (g : @PendingFrame Caller Lease → A) find write (l : list node) :
  (∀ f, g (write f) = g f) → (λ n : node, g n.1) <$> write_first find write l = (λ n : node, g n.1) <$> l.
Proof. intros Hg. induction l as [|n l IH]; [done|]. cbn. destruct (find n.1); cbn; [by rewrite Hg|by rewrite IH]. Qed.

Lemma write_first_app find write (l1 l2 : list node) :
  (∀ n, n ∈ l2 → find n.1 = false) → write_first find write (l1 ++ l2) = write_first find write l1 ++ l2.
Proof.
  intros Hno. induction l1 as [|n l1 IH]; cbn.
  - apply write_first_id. intros n Hn Hf. rewrite Hno in Hf by done. done.
  - destruct (find n.1); [done|]. by rewrite IH.
Qed.

Lemma write_first_elem find write (l : list node) n :
  n ∈ write_first find write l → n ∈ l ∨ ∃ m, m ∈ l ∧ find m.1 = true ∧ n = (write m.1, m.2).
Proof.
  induction l as [|x l IH]; cbn; [by left|]. destruct (find x.1) eqn:Hf; intros [->|Hn]%elem_of_cons.
  - right. exists x. split; [by left|done].
  - left. by right.
  - left. by left.
  - destruct (IH Hn) as [|(m & ? & ?)]; [left; by right|]. right. exists m. split; [by right|done].
Qed.

Lemma linked_mark l owner h old fresh who seq b :
  linked l owner h old fresh who → (seq, b) ∈ writes l → b ∈ wire l →
  ∃ old', linked (with_sender l (mark_sent (sender l) seq) []) owner h old' fresh who.
Proof.
  intros Hl Hw Hb. pose proof Hl as [Hwf Hrows Hh Hnx Hmax Hold Huniq Hfresh Hframes Hown Hinj Hnd Hknown Hwr Hwn Hwire Hkept Hse Hwho Hmark Hdel Hack Hokk].
  set (find := λ f : @PendingFrame Caller Lease, pf_seq f =? seq). exists (write_first find set_sent old).
  destruct (queue_iter_mut_spec (pending (sender l)) find set_sent Hwf) as [Hr Hwf'].
  assert (Hfind : ∀ n, n ∈ fresh → find n.1 = false).
  { intros n [i Hi]%list_elem_of_lookup. destruct (Hfresh i n Hi) as (Hsq & _). unfold find. rewrite Hsq. apply Z.eqb_neq.
    destruct (Hwn _ _ Hw) as (c & _ & _ & Ho & _). assert (1 ≤ seq ≤ h) by (apply Hown; by eexists). lia. }
  rewrite Hrows, write_first_app in Hr by done.
  assert (Hrep : replies (write_first find set_sent old ++ fresh) = replies (old ++ fresh)).
  { unfold replies. rewrite !omap_app. f_equal. pose proof (write_first_fmap pf_reply find set_sent old ltac:(done)) as Hf.
    assert (Hom : ∀ l : list node, omap (λ n, pf_reply n.1) l = omap id ((λ n : node, pf_reply n.1) <$> l)).
    { intros l'. induction l' as [|x l' IH]; [done|]. cbn. by rewrite IH. }
    by rewrite !Hom, Hf. }
  split; cbn [sender receiver requests writes wire acks answered succeeded with_sender callers ok_callers omap list_omap mark_sent with_pending
    pending rs_stream next_seq]; rewrite ?app_nil_r, ?Hrep; try done.
  - intros n [?|(m & Hm & _ & ->)]%write_first_elem; [by apply Hold|]. cbn. by apply Hold.
  - by rewrite (write_first_fmap pf_seq).
  - intros n [Hn|Hn]%elem_of_app; [|apply Hframes; apply elem_of_app; by right].
    apply write_first_elem in Hn as [?|(m & Hm & _ & ->)]; [apply Hframes; apply elem_of_app; by left|]. cbn.
    apply Hframes. apply elem_of_app. by left.
  - intros sq Hsq. destruct (Hkept sq Hsq) as [(n & Hn & Heq)|]; [left|by right].
    assert (Hin : sq ∈ (λ n : node, pf_seq n.1) <$> write_first find set_sent old).
    { rewrite (write_first_fmap pf_seq) by done. apply list_elem_of_fmap. by exists n. }
    apply list_elem_of_fmap in Hin as (m & -> & Hm). by exists m.
  - intros n Hn Hs. apply write_first_elem in Hn as [?|(m & Hm & Hf%Z.eqb_eq & ->)]; [by apply Hse|]. cbn.
    by rewrite (handed_frame _ _ _ _ _ _ _ _ _ Hl Hm Hw Hf).
Qed.

(** ** A frame at the receiver *)
Lemma try_receive_spec {E} (deliver : Payload → result E ()) (s r : State) stream seq payload o :
  try_receive deliver s stream seq payload = (r, o) →
  (∀ x up_to, o = Ok x → outcome_acknowledge x = Some up_to → up_to = last_seq r ∧ inbound_stream r = Some stream) ∧
  ((inbound_stream s = None ∨ inbound_stream s = Some stream) ∧ inbound_stream r = Some stream ∧ last_seq r = seq ∧
     seq = last_seq s + 1 ∧ o = Ok (Delivered seq) ∨
   (∀ n, o ≠ Ok (Delivered n)) ∧ last_seq r = last_seq s ∧
     (inbound_stream r = inbound_stream s ∨ inbound_stream s = None ∧ inbound_stream r = Some stream)).
Proof.
  unfold try_receive, checked_add. destruct (inbound_stream s) as [bound|] eqn:Hb; [case_bool_decide as Hd|]; cbn [last_seq].
  1: intros [= <- <-]; split; [by intros x ? [= <-]|]; right; rewrite Hb; auto.
  1: assert (bound = stream) as -> by (destruct (decide (bound = stream)); [done|by destruct Hd]).
  all: destruct (last_seq s + 1 <=? u64_max); [destruct (Z.eqb_spec seq (last_seq s + 1)); [destruct (deliver payload)|destruct (seq <? _)]|].
  all: intros [= <- <-]; split; [intros x up_to Ho; try done; injection Ho as <-; cbn; by intros [= <-]|].
  all: cbn; rewrite ?Hb; first [by left; auto|by right; auto].
Qed.

(** The receiving side alone: its clauses of the invariant carry the rest along. *)
Lemma linked_receiver l owner h old fresh who r more_acks more_delivered who' :
  let l' := mkLink (sender l) r (departed l) (requests l) (writes l) (wire l) (acks l ++ more_acks)
              (delivered l ++ more_delivered) (answered l) (succeeded l) in
  linked l owner h old fresh who → who `prefix_of` who' →
  (∀ i c, who' !! i = Some c → owner !! (Z.of_nat i + 1) = Some c) →
  match inbound_stream r with
  | Some bound => if decide (bound = rs_stream (sender l)) then last_seq r = Z.of_nat (length who') else who' = []
  | None => who' = [] ∧ last_seq r = 0
  end →
  Forall2 (λ c d, requests l !! c = Some d) who' (own_delivered l') →
  (∀ up_to, (rs_stream (sender l), up_to) ∈ more_acks → up_to ≤ Z.of_nat (length who')) →
  linked l' owner h old fresh who'.
Proof.
  intros l' [] Hpre Hwho Hmark Hdel Hack. split; try done.
  - intros up_to [Hin|Hin]%elem_of_app; [|by apply Hack]. apply prefix_length in Hpre. specialize (lk_acks0 _ Hin). lia.
  - intros c Hc. destruct (lk_ok0 c Hc) as [Hin ?]. split; [|done]. destruct Hpre as [k ->]. apply elem_of_app. by left.
Qed.

Lemma linked_receive l owner h old fresh who deliver stream seq channel payload :
  linked l owner h old fresh who →
  (stream = rs_stream (sender l) → ∃ c, owner !! seq = Some c ∧ requests l !! c = Some (channel, payload)) →
  ∃ who', linked (receive_frame deliver l stream seq channel payload) owner h old fresh who'.
Proof.
  intros Hl Hfr. unfold receive_frame. destruct (try_receive _ _ _ _ _) as [r o] eqn:Htry.
  apply try_receive_spec in Htry as [Hacks Hcase]. pose proof (lk_mark _ _ _ _ _ _ Hl) as Hmark.
  pose proof (lk_delivered _ _ _ _ _ _ Hl) as Hdel. pose proof (lk_who _ _ _ _ _ _ Hl) as Hwho.
  assert (Hask : ∀ who' : list Caller, (inbound_stream r = Some (rs_stream (sender l)) → last_seq r = Z.of_nat (length who')) →
    ∀ up_to, (rs_stream (sender l), up_to) ∈ acknowledged stream o → up_to ≤ Z.of_nat (length who')).
  { intros who' Hb up_to Hin. unfold acknowledged in Hin. destruct o as [x|]; [|by apply elem_of_nil in Hin].
    destruct (outcome_acknowledge x) as [u|] eqn:Hx; [|by apply elem_of_nil in Hin].
    apply list_elem_of_singleton in Hin as [= <- <-]. destruct (Hacks x up_to eq_refl Hx) as [-> Hr]. rewrite Hb by done. lia. }
  destruct Hcase as [(Hin & Hr & Hlast & Hseq & ->)|(Hno & Hlast & Hin)].
  - destruct (decide (stream = rs_stream (sender l))) as [->|Hne].
    + destruct (Hfr eq_refl) as (c & Ho & Hreq).
      assert (Hlen : last_seq (receiver l) = Z.of_nat (length who)).
      { destruct Hin as [Hi|Hi]; rewrite Hi in Hmark; [by destruct Hmark as [-> ->]|by rewrite decide_True in Hmark]. }
      assert (Hlen' : last_seq r = Z.of_nat (length (who ++ [c]))) by (rewrite length_app; cbn; lia).
      exists (who ++ [c]). apply linked_receiver with (1 := Hl).
      * by exists [c].
      * intros i c' [Hi|[Hge Hi]]%lookup_app_Some; [by apply Hwho|]. apply list_lookup_singleton_Some in Hi as [Hi <-].
        replace (Z.of_nat i + 1) with seq by lia. done.
      * by rewrite Hr, decide_True.
      * unfold own_delivered. cbn. rewrite omap_app. cbn. rewrite decide_True by done. apply Forall2_app; [done|]. by constructor.
      * by apply Hask.
    + exists who. assert (who = []) as ->.
      { destruct Hin as [Hi|Hi]; rewrite Hi in Hmark; [by destruct Hmark|by rewrite decide_False in Hmark]. }
      apply linked_receiver with (1 := Hl); try done; [by rewrite Hr, decide_False| |apply Hask; rewrite Hr; by intros [= ->]].
      unfold own_delivered. cbn. rewrite omap_app. cbn. by rewrite decide_False, app_nil_r.
  - exists who. assert (Hnew : match inbound_stream r with
      | Some bound => if decide (bound = rs_stream (sender l)) then last_seq r = Z.of_nat (length who) else who = []
      | None => who = [] ∧ last_seq r = 0 end).
    { rewrite Hlast. destruct Hin as [->|[Hi ->]]; [done|]. rewrite Hi in Hmark. destruct Hmark as [-> ->]. by case_decide. }
    apply linked_receiver with (1 := Hl); try done.
    + replace (match o with Ok (Delivered _) => _ | _ => _ end) with (@nil (Z * (string * Payload))); [|destruct o as [[]|]; naive_solver].
      unfold own_delivered. cbn. by rewrite app_nil_r.
    + apply Hask. intros Hr. by rewrite Hr, decide_True in Hnew.
Qed.

(** ** Every step *)
Lemma linked_wire l owner h old fresh who seq b :
  linked l owner h old fresh who → (seq, b) ∈ writes l →
  linked (mkLink (sender l) (receiver l) (departed l) (requests l) (writes l) (wire l ++ [b]) (acks l) (delivered l)
            (answered l) (succeeded l)) owner h old fresh who.
Proof.
  intros [] Hw. split; try done; cbn [sender receiver requests writes wire acks answered succeeded].
  - intros b' [?| ->%list_elem_of_singleton]%elem_of_app; [by apply lk_wire0|by exists seq].
  - intros sq Hsq. destruct (lk_kept0 sq Hsq) as [|(b' & ? & ?)]; [by left|]. right. exists b'. rewrite elem_of_app. auto.
  - intros n Hn Hs. apply elem_of_app. left. by apply lk_sent0.
Qed.

Lemma linked_tick l owner h old fresh who s out b :
  linked l owner h old fresh who → has_unsent (closed l) (sender l) = Some (s, out, b) →
  ∃ old' fresh', linked (with_sender l s out) owner h old' fresh' who.
Proof.
  intros Hl H. unfold has_unsent in H. destruct (release_abandoned _ _) as [[s1 out1]|] eqn:Hr; [|done]. cbn [mbind option_bind] in H.
  destruct (linked_release _ _ _ _ _ _ _ _ _ Hl Hr) as (old' & fresh' & Hl' & _). exists old', fresh'.
  destruct (queue_iter_spec (pending s1) (lk_wf _ _ _ _ _ _ Hl')) as (_ & Hrow & Hw).
  destruct (queue_iter (pending s1)) as [q frames]. cbn [fst snd] in *. injection H as <- <- _.
  replace (with_sender l _ out1) with (with_sender (with_sender l s1 out1) (with_pending s1 q) [])
    by by rewrite with_sender_app, app_nil_r.
  by apply linked_same.
Qed.

Context `{laws : !ChannelCodecLaws Payload}.

(** What the wire holds is what was asked for, under the sequence it was given. *)
Lemma wire_frame l owner h old fresh who b stream seq channel payload :
  linked l owner h old fresh who → b ∈ wire l → from_json b = Some (stream, seq, channel, payload) →
  stream = rs_stream (sender l) ∧ ∃ c, owner !! seq = Some c ∧ requests l !! c = Some (channel, payload).
Proof.
  intros Hl Hb Hj. destruct (lk_wire _ _ _ _ _ _ Hl b Hb) as [sq Hw].
  destruct (lk_written _ _ _ _ _ _ Hl _ _ Hw) as (c & ch & p & Ho & Hr & Hto). apply law_json in Hto. rewrite Hj in Hto.
  injection Hto as -> -> -> ->. split; [done|]. by exists c.
Qed.

Lemma linked_step l l' :
  link_step l l' → (∃ owner h old fresh who, linked l owner h old fresh who) →
  ∃ owner h old fresh who, linked l' owner h old fresh who.
Proof.
  intros Hstep (owner & h & old & fresh & who & Hl).
  destruct Hstep as [? ? ? ? ? ? ? ? Hnew Hsub| |? ? ? ? Ht|? ? ? ? ? Ht|? ? ? Hw|? ? ? Hw Hb|? ? ? ? ? ? ? Hb Hj|? ? ? ? ? ? Hne|? ? ? ? ? ? Hor Ha].
  - destruct (linked_submit _ _ _ _ _ _ _ _ _ _ _ _ _ Hl Hnew Hsub) as [fresh' ?]. by exists owner, h, old, fresh', who.
  - exists owner, h, old, fresh, who. by destruct Hl.
  - destruct (linked_tick _ _ _ _ _ _ _ _ _ Hl Ht) as (old' & fresh' & ?). by exists owner, h, old', fresh', who.
  - destruct (linked_take _ _ _ _ _ _ _ _ _ _ Hl Ht) as (owner' & h' & old' & fresh' & ?). by exists owner', h', old', fresh', who.
  - exists owner, h, old, fresh, who. by eapply linked_wire.
  - destruct (linked_mark _ _ _ _ _ _ _ _ Hl Hw Hb) as [old' ?]. by exists owner, h, old', fresh, who.
  - destruct (wire_frame _ _ _ _ _ _ _ _ _ _ _ Hl Hb Hj) as [-> Hc].
    destruct (linked_receive _ _ _ _ _ _ deliver (rs_stream (sender l)) seq channel payload Hl (λ _, Hc)) as [who' ?]. by exists owner, h, old, fresh, who'.
  - destruct (linked_receive _ _ _ _ _ _ deliver stream seq channel payload Hl (λ H, False_ind _ (Hne H))) as [who' ?].
    by exists owner, h, old, fresh, who'.
  - destruct (linked_ack _ _ _ _ _ _ _ _ _ _ _ Hl Hor Ha) as (old' & fresh' & ?). by exists owner, h, old', fresh', who.
Qed.

Lemma reachable_linked l : link_reachable l → ∃ owner h old fresh who, linked l owner h old fresh who.
Proof.
  intros (a & b & Hr). assert (Hs : ∃ owner h old fresh who, linked (link_start a b) owner h old fresh who)
    by (exists ∅, 0, [], [], []; apply linked_start). revert Hs.
  induction Hr as [|l1 l2 l3 Hstep _ IH]; [done|]. intros Hl. apply IH. by eapply linked_step.
Qed.

Lemma who_NoDup l owner h old fresh who : linked l owner h old fresh who → NoDup who.
Proof.
  intros Hl. apply NoDup_alt. intros i j c Hi Hj.
  assert (Z.of_nat i + 1 = Z.of_nat j + 1); [|lia]. by apply (lk_inj _ _ _ _ _ _ Hl _ _ c); apply (lk_who _ _ _ _ _ _ Hl).
Qed.

(** C9: Over a link that loses, repeats and reorders frames and acknowledgements, where a
    write may reach the wire without returning and callers stop waiting at any
    moment, what the subscribers received of a session is a list of requests of
    distinct callers, unchanged and each once; a caller told that its send succeeded
    is one of them; and no caller is answered twice. *)
Theorem acknowledged_means_delivered l :
  link_reachable l →
  ∃ who, NoDup who ∧ Forall2 (λ c d, requests l !! c = Some d) who (own_delivered l) ∧
    (∀ c, c ∈ succeeded l → c ∈ who) ∧ NoDup (answered l).
Proof.
  intros (owner & h & old & fresh & who & Hl)%reachable_linked. exists who. split_and!.
  - by eapply who_NoDup.
  - apply (lk_delivered _ _ _ _ _ _ Hl).
  - intros c Hc. by apply (lk_ok _ _ _ _ _ _ Hl).
  - pose proof (lk_callers _ _ _ _ _ _ Hl) as Hnd. by apply NoDup_app in Hnd as [? _].
Qed.
End link.
