(* ===== verification/ReliableProgress.v ===== *)
(** * No session state is stuck

    From every state the link of ReliableLink.v reaches, some schedule of writes,
    arrivals and one acknowledgement empties the sender's queue and tells every
    caller still waiting that its send succeeded. *)

From S2P Require Import Prelude Claims Ranking Bytes LeasedQueue Reliable ReliableLink.
Local Open Scope Z_scope.

Section progress.
Context {Payload Caller Lease : Type} `{codec : !ChannelCodec Payload} `{laws : !ChannelCodecLaws Payload}.
Context `{callers_countable : Countable Caller} (node_bytes : Z) (lease : Lease).

Notation State := (@ReliableState Caller Lease).
Notation Link := (@Link Payload Caller Lease _ _).
Notation node := (@PendingFrame Caller Lease * Lease)%type.
Notation rows s := (queue_rows (pending s)).
Notation step := (@link_step Payload Caller Lease codec _ _ node_bytes).
Notation reachable := (@link_reachable Payload Caller Lease codec _ _ node_bytes).

(** A caller the session still has to answer with success, or has. *)
Definition waits (l : Link) (c : Caller) : Prop :=
  c ∉ departed l ∧ (c ∈ replies (rows (sender l)) ∨ c ∈ succeeded l).

(** The peer's inbound stream is this session's, or not bound yet. *)
Definition admits (l : Link) : Prop :=
  inbound_stream (receiver l) = None ∨ inbound_stream (receiver l) = Some (rs_stream (sender l)).

Definition unsent (l : list node) : list node := filter (λ n, pf_sent n.1 = false) l.

Lemma link_reachable_steps l l' : reachable l → rtc step l l' → reachable l'.
Proof. intros (a & b & Hr) H. exists a, b. by etransitivity. Qed.

Lemma rows_unique (l : Link) owner h old fresh who :
  linked l owner h old fresh who → NoDup ((λ n : node, pf_seq n.1) <$> rows (sender l)).
Proof.
  intros Hl. rewrite (lk_rows _ _ _ _ _ _ Hl), fmap_app. apply NoDup_app. split_and!; [apply (lk_unique _ _ _ _ _ _ Hl)| |].
  - intros sq (n & -> & Hn)%list_elem_of_fmap (m & Heq & [i Hi]%list_elem_of_lookup)%list_elem_of_fmap.
    destruct (old_written _ _ _ _ _ _ _ Hl Hn). destruct (lk_fresh _ _ _ _ _ _ Hl i m Hi) as [? _]. lia.
  - apply NoDup_alt. intros i j sq Hi Hj. apply list_lookup_fmap_Some in Hi as (n & -> & Hi), Hj as (m & Heq & Hj).
    destruct (lk_fresh _ _ _ _ _ _ Hl i n Hi) as [? _]. destruct (lk_fresh _ _ _ _ _ _ Hl j m Hj) as [? _]. lia.
Qed.

Lemma unsent_sublist (l k : list node) : l `sublist_of` k → (length (unsent l) ≤ length (unsent k))%nat.
Proof. unfold unsent. induction 1 as [|n l k _ IH|n l k _ IH]; [done|..]; rewrite ?filter_cons; repeat case_decide; cbn; lia. Qed.

(** The sweep spares callers that wait. *)
Lemma release_spares (cl : Caller → bool) (s s' : State) out c :
  queue_wf (pending s) → release_abandoned cl s = Some (s', out) → cl c = false →
  c ∈ replies (rows s) → c ∈ replies (rows s').
Proof.
  intros Hwf H Hc (n & Hn & Hr)%elem_of_replies.
  destruct (release_abandoned_spec cl s Hwf) as (s1 & out1 & kept & gone & H1 & _ & Hsplit & Hrows & Hrev & _).
  rewrite H in H1. injection H1 as <- _. assert (Hab : abandoned cl n.1 = false) by (unfold abandoned; by rewrite Hr).
  apply elem_of_replies. exists n. split; [|done]. rewrite Hrows. apply list_elem_of_filter. unfold finished. rewrite Hab, andb_false_r.
  split; [done|]. rewrite Hsplit in Hn. apply elem_of_app in Hn as [|Hg]; [done|]. rewrite Forall_forall in Hrev.
  specialize (Hrev n Hg). unfold revocable in Hrev. rewrite Hab, andb_false_r in Hrev. done.
Qed.

Lemma release_shrinks (cl : Caller → bool) (s s' : State) out :
  queue_wf (pending s) → release_abandoned cl s = Some (s', out) → rows s' `sublist_of` rows s ∧ queue_wf (pending s').
Proof.
  intros Hwf H. destruct (release_abandoned_spec cl s Hwf) as (s1 & out1 & kept & gone & H1 & Hw & Hsplit & Hrows & _).
  rewrite H in H1. injection H1 as <- _. split; [|done]. rewrite Hrows, Hsplit. etransitivity; [apply sublist_filter|].
  by apply sublist_inserts_r.
Qed.

Lemma transient_fits n : 0 ≤ n ≤ usize_max → ∃ claim, transient_frame_claim n = Ok claim.
Proof.
  intros Hn. unfold transient_frame_claim, try_from_entries, checked_add. cbn [try_from_entries_from].
  replace (amount claim_ZERO AccountedMemoryBytes) with 0 by done. unfold checked_add. rewrite Z.add_0_l.
  destruct (Z.leb_spec n u64_max); [|unfold usize_max in *; lia]. cbn. by eexists.
Qed.

(** With room for the copy, either every retained frame is sent or one is handed out. *)
Lemma next_unsent_total (l : Link) owner h old fresh who :
  linked l owner h old fresh who →
  ∃ s out u, next_unsent (λ _, Some lease) (closed l) (sender l) = Some (s, out, u) ∧ (u = None → unsent (rows s) = []).
Proof.
  intros Hl. unfold next_unsent. destruct (release_abandoned_spec (closed l) (sender l) (lk_wf _ _ _ _ _ _ Hl))
    as (s1 & out & kept & gone & Hr & Hwf & _). destruct (linked_release _ _ _ _ _ _ _ _ _ Hl Hr) as (old1 & fresh1 & Hl1 & _).
  rewrite Hr. cbn [mbind option_bind]. destruct (queue_iter_spec (pending s1) Hwf) as (Hi & Hrow & _).
  destruct (queue_iter (pending s1)) as [q frames]. cbn [fst snd] in *. subst frames.
  destruct (List.find _ _) as [f|] eqn:Hf.
  - apply find_unsent in Hf as (before & n & after & Heq & <- & _).
    destruct (lk_frames _ _ _ _ _ _ Hl1 n) as (c & ch & p & _ & _ & _ & Hfit).
    { rewrite <- (lk_rows _ _ _ _ _ _ Hl1). cbn. rewrite Heq. apply elem_of_app. right. by left. }
    destruct (transient_fits (Z.of_nat (length (pf_frame n.1)))) as [claim ->]; [lia|]. by do 3 eexists.
  - do 3 eexists. split; [done|]. intros _. cbn [pending with_pending]. rewrite Hrow. unfold unsent.
    apply elem_of_nil_inv. intros n [Hs Hn]%list_elem_of_filter.
    assert (Hno : negb (pf_sent n.1) = false); [|by rewrite Hs in Hno].
    apply (List.find_none _ _ Hf n.1). apply list_elem_of_In, list_elem_of_fmap. by exists n.
Qed.

(** A frame handed out, written and marked, among the rows. *)
Lemma take_and_mark (s1 s : State) before n after :
  rows s1 = before ++ n :: after → NoDup ((λ n : node, pf_seq n.1) <$> rows s1) → queue_wf (pending s) →
  rows s = write_first (λ g, pf_seq g =? pf_seq n.1) hand_out (rows s1) →
  rows (mark_sent s (pf_seq n.1)) = before ++ (set_sent (hand_out n.1), n.2) :: after.
Proof.
  intros Hs1 Hnd Hw Hs. unfold mark_sent. cbn [pending with_pending].
  destruct (queue_iter_mut_spec (pending s) (λ f, pf_seq f =? pf_seq n.1) set_sent Hw) as [-> _].
  assert (Hb : ∀ x, x ∈ before → (pf_seq x.1 =? pf_seq n.1) = false).
  { intros x Hx. apply Z.eqb_neq. intros Heq. rewrite Hs1, fmap_app in Hnd. apply NoDup_app in Hnd as (_ & Hdis & _).
    apply (Hdis (pf_seq x.1)); [apply list_elem_of_fmap; by exists x|]. rewrite Heq. by left. }
  rewrite Hs, Hs1, write_first_at; [|done|by apply Z.eqb_eq]. by rewrite write_first_at; [|done|apply Z.eqb_eq].
Qed.

Lemma mark_rows (before after : list node) n :
  let l := before ++ (set_sent (hand_out n.1), n.2) :: after in
  replies l = replies (before ++ n :: after) ∧
  (pf_sent n.1 = false → length (unsent (before ++ n :: after)) = S (length (unsent l))).
Proof.
  cbn zeta. unfold replies, unsent. rewrite !omap_app, !filter_app. split; [by cbn|]. intros Hn. rewrite !length_app.
  rewrite filter_cons_True, filter_cons_False by done. cbn. lia.
Qed.

(** One frame more is written and marked, or none is unsent. *)
Lemma write_one (l : Link) :
  reachable l → ∃ l', rtc step l l' ∧ receiver l' = receiver l ∧ rs_stream (sender l') = rs_stream (sender l) ∧
    departed l' = departed l ∧ (∀ c, waits l c → waits l' c) ∧
    (unsent (rows (sender l')) = [] ∨ (length (unsent (rows (sender l'))) < length (unsent (rows (sender l))))%nat).
Proof.
  intros Hre. destruct (reachable_linked node_bytes l Hre) as (owner & h & old & fresh & who & Hl).
  destruct (next_unsent_total _ _ _ _ _ _ Hl) as (s & out & u & Htake & Hnone). pose proof (lk_wf _ _ _ _ _ _ Hl) as Hwf.
  destruct (next_unsent_spec _ _ _ _ _ _ Hwf Htake) as (s1 & Hrel & Hw & Hst & _ & Hu).
  destruct (linked_release _ _ _ _ _ _ _ _ _ Hl Hrel) as (old1 & fresh1 & Hl1 & _). pose proof (rows_unique _ _ _ _ _ _ Hl1) as Hnd.
  destruct (release_shrinks _ _ _ _ Hwf Hrel) as [Hsub _].
  assert (Hst1 : rs_stream s = rs_stream (sender l)).
  { destruct (release_abandoned_spec (closed l) (sender l) Hwf) as (? & ? & ? & ? & Hr' & _ & _ & _ & _ & _ & ? & _). congruence. }
  assert (Hwait : ∀ c (s' : State), replies (rows s') = replies (rows s1) → waits l c →
    c ∉ departed l ∧ (c ∈ replies (rows s') ∨ c ∈ succeeded l ++ ok_callers out)).
  { intros c s' Heq [Hd Hc]. split; [done|]. destruct Hc as [Hc|Hc]; [left|right; apply elem_of_app; by left].
    rewrite Heq. apply (release_spares (closed l) (sender l) s1 out); try done. by apply bool_decide_eq_false. }
  pose proof (link_take node_bytes l _ s out u Htake) as H1. destruct u as [u|].
  2:{ eexists. split; [by apply rtc_once|]. split_and!; try done; [|left; by apply Hnone]. intros c Hc. apply (Hwait c s); [by rewrite Hu|done]. }
  destruct Hu as (before & n & after & Hs1 & Hn & Hb & Hseq & Hbytes & Hs).
  assert (Hin : (pf_seq n.1, pf_frame n.1) ∈ writes (with_write (with_sender l s out) (Some u))).
  { cbn. rewrite Hseq, Hbytes. apply elem_of_app. right. by left. }
  pose proof (link_write node_bytes _ _ _ Hin) as H2. set (l2 := mkLink _ _ _ _ _ _ _ _ _ _) in H2.
  assert (H3 : step l2 (with_sender l2 (mark_sent (sender l2) (pf_seq n.1)) [])).
  { apply link_mark with (pf_frame n.1); [done|]. apply elem_of_app. right. by left. }
  pose proof (take_and_mark _ _ _ _ _ Hs1 Hnd Hw Hs) as Hrows. destruct (mark_rows before after n) as [Hrep Hlen].
  eexists. split; [by eapply rtc_l, rtc_l, rtc_once; [exact H1|exact H2|exact H3]|]. split_and!; try done.
  - intros c Hc. unfold waits. cbn [sender succeeded departed with_sender ok_callers omap list_omap l2 with_write]. rewrite app_nil_r.
    apply (Hwait c (mark_sent s (pf_seq n.1))); [|done]. by rewrite Hrows, Hs1.
  - right. cbn [sender with_sender l2 with_write]. rewrite Hrows. specialize (Hlen Hn). rewrite <- Hs1 in Hlen.
    assert (length (unsent (rows s1)) ≤ length (unsent (rows (sender l))))%nat; [|lia].
    by apply unsent_sublist.
Qed.

Lemma write_all (l : Link) :
  reachable l → ∃ l', rtc step l l' ∧ receiver l' = receiver l ∧ rs_stream (sender l') = rs_stream (sender l) ∧
    (∀ c, waits l c → waits l' c) ∧ unsent (rows (sender l')) = [].
Proof.
  remember (length (unsent (rows (sender l)))) as k eqn:Hk. revert l Hk.
  induction k as [k IH] using lt_wf_ind. intros l -> Hre.
  destruct (write_one l Hre) as (l1 & Hr1 & Hrec & Hst & _ & Hw & [Hnil|Hlt]); [by exists l1|].
  destruct (IH _ Hlt l1 eq_refl) as (l2 & Hr2 & Hrec2 & Hst2 & Hw2 & Hnil); [by eapply link_reachable_steps|].
  exists l2. split_and!; [by etransitivity|congruence..| |done]. intros c Hc. by apply Hw2, Hw.
Qed.

(** With every retained frame sent, each sequence handed out is on the wire. *)
Lemma all_on_wire (l : Link) owner h old fresh who :
  linked l owner h old fresh who → unsent (rows (sender l)) = [] →
  fresh = [] ∧ ∀ seq, 1 ≤ seq ≤ h → ∃ b channel payload, b ∈ wire l ∧
    from_json b = Some (rs_stream (sender l), seq, channel, payload).
Proof.
  intros Hl Hall. assert (Hsent : ∀ n, n ∈ old ++ fresh → pf_sent n.1 = true).
  { intros n Hn. rewrite <- (lk_rows _ _ _ _ _ _ Hl) in Hn. destruct (pf_sent n.1) eqn:Hs; [done|].
    assert (Hin : n ∈ unsent (rows (sender l))) by by apply list_elem_of_filter. rewrite Hall in Hin. by apply elem_of_nil in Hin. }
  split.
  - destruct fresh as [|n fresh]; [done|]. destruct (lk_fresh _ _ _ _ _ _ Hl 0%nat n eq_refl) as (_ & _ & Hs & _).
    rewrite Hsent in Hs; [done|]. apply elem_of_app. right. by left.
  - intros seq Hseq. assert (∃ b, (seq, b) ∈ writes l ∧ b ∈ wire l) as (b & Hw & Hb).
    { destruct (lk_kept _ _ _ _ _ _ Hl seq Hseq) as [(n & Hn & <-)|]; [|done]. exists (pf_frame n.1).
      split; [by apply (old_written _ _ _ _ _ _ _ Hl)|]. apply (lk_sent _ _ _ _ _ _ Hl n Hn). apply Hsent, elem_of_app. by left. }
    destruct (lk_written _ _ _ _ _ _ Hl _ _ Hw) as (c & ch & p & _ & _ & Hj). exists b, ch, p. split; [done|]. by apply law_json.
Qed.

Definition accept (_ : Payload) : result () () := Ok ().

(** The receiver takes the next frame in order, or acknowledges one it has. *)
Lemma try_receive_next (s : State) stream seq payload :
  (inbound_stream s = None ∨ inbound_stream s = Some stream) → seq ≤ last_seq s + 1 → seq ≤ u64_max →
  ∃ r o, try_receive accept s stream seq payload = (r, Ok o) ∧ inbound_stream r = Some stream ∧
    last_seq r = Z.max seq (last_seq s) ∧ outcome_acknowledge o = Some (last_seq r).
Proof.
  intros Hb Hs Hm. unfold try_receive, checked_add.
  destruct Hb as [Hb|Hb]; rewrite Hb; [|rewrite bool_decide_eq_false_2 by auto]; cbn [last_seq];
    (destruct (Z.leb_spec (last_seq s + 1) u64_max);
     [destruct (Z.eqb_spec seq (last_seq s + 1)); [|destruct (Z.ltb_spec seq (last_seq s + 1)); [|lia]]|]);
    do 2 eexists; (split; [done|]); cbn; split_and!; try done; lia.
Qed.

Lemma arrive_one (l : Link) seq :
  reachable l → unsent (rows (sender l)) = [] → admits l → 1 ≤ seq ≤ next_seq (sender l) → seq ≤ last_seq (receiver l) + 1 →
  ∃ l', step l l' ∧ sender l' = sender l ∧ departed l' = departed l ∧ succeeded l' = succeeded l ∧ admits l' ∧
    seq ≤ last_seq (receiver l') ∧ (rs_stream (sender l), last_seq (receiver l')) ∈ acks l'.
Proof.
  intros Hre Hall Had Hseq Hnext. destruct (reachable_linked node_bytes l Hre) as (owner & h & old & fresh & who & Hl).
  destruct (all_on_wire _ _ _ _ _ _ Hl Hall) as [-> Hwire]. pose proof (lk_next _ _ _ _ _ _ Hl) as Hn. pose proof (lk_max _ _ _ _ _ _ Hl).
  cbn in Hn. destruct (Hwire seq) as (b & ch & p & Hb & Hj); [lia|].
  destruct (try_receive_next (receiver l) (rs_stream (sender l)) seq p) as (r & o & Htry & Hin & Hlast & Hack); [done|lia..|].
  exists (receive_frame accept l (rs_stream (sender l)) seq ch p). split; [by apply (link_arrive node_bytes l accept b)|].
  unfold receive_frame. rewrite Htry. split_and!; try done; cbn.
  - by right.
  - lia.
  - apply elem_of_app. right. rewrite Hack. by left.
Qed.

Lemma arrive_all (l : Link) (k : nat) :
  reachable l → unsent (rows (sender l)) = [] → admits l → 0 ≤ last_seq (receiver l) → 1 ≤ Z.of_nat (S k) ≤ next_seq (sender l) →
  ∃ l', rtc step l l' ∧ sender l' = sender l ∧ departed l' = departed l ∧ succeeded l' = succeeded l ∧ admits l' ∧
    Z.of_nat (S k) ≤ last_seq (receiver l') ∧ (rs_stream (sender l), last_seq (receiver l')) ∈ acks l'.
Proof.
  intros Hre Hall Had H0. induction k as [|k IH]; intros Hk.
  - destruct (arrive_one l 1 Hre Hall Had) as (l' & Hs & ?); [lia..|]. exists l'. split; [by apply rtc_once|done].
  - destruct IH as (l1 & Hr & Hs & Hd & Hsu & Had1 & Hlast & _); [lia|].
    destruct (arrive_one l1 (Z.of_nat (S (S k)))) as (l2 & Hstep & Hs2 & Hd2 & Hsu2 & ? & ? & ?); [by eapply link_reachable_steps|by rewrite Hs|done|rewrite Hs; lia|lia|].
    exists l2. split; [by eapply rtc_r|]. rewrite Hs in *. split_and!; congruence.
Qed.

(** An acknowledgement of everything settles what the sweep leaves. *)
Lemma settled_all up_to (k : list node) :
  unsent k = [] → (∀ n, n ∈ k → pf_seq n.1 ≤ up_to) → settled_prefix up_to k = k.
Proof.
  unfold unsent. induction k as [|n k IH]; intros Hu Hle; [done|]. cbn [settled_prefix]. rewrite filter_cons in Hu.
  case_decide as Hs; [done|]. apply not_false_is_true in Hs. rewrite Hs. destruct (Z.leb_spec (pf_seq n.1) up_to) as [_|Hgt].
  - cbn. f_equal. apply IH; [done|]. intros m Hm. apply Hle. by right.
  - specialize (Hle n ltac:(by left)). lia.
Qed.

Lemma acknowledge_all (l : Link) up_to :
  reachable l → unsent (rows (sender l)) = [] → (rs_stream (sender l), up_to) ∈ acks l → next_seq (sender l) ≤ up_to →
  ∃ l', step l l' ∧ rows (sender l') = [] ∧ ∀ c, waits l c → c ∈ succeeded l'.
Proof.
  intros Hre Hall Hack Hup. destruct (reachable_linked node_bytes l Hre) as (owner & h & old & fresh & who & Hl).
  destruct (all_on_wire _ _ _ _ _ _ Hl Hall) as [-> _]. pose proof (lk_next _ _ _ _ _ _ Hl) as Hn. cbn in Hn.
  pose proof (lk_rows _ _ _ _ _ _ Hl) as Hrows. rewrite app_nil_r in Hrows. pose proof (lk_wf _ _ _ _ _ _ Hl) as Hwf.
  destruct (release_abandoned_spec (closed l) (sender l) Hwf) as (s1 & out1 & kept & gone & Hrel & Hw1 & _).
  destruct (release_shrinks _ _ _ _ Hwf Hrel) as [Hsub _].
  assert (Hpre : settled_prefix up_to (rows s1) = rows s1).
  { apply settled_all.
    - apply nil_length_inv. apply unsent_sublist in Hsub. rewrite Hall in Hsub. cbn in Hsub. lia.
    - intros n Hin. assert (n ∈ old) by (rewrite <- Hrows; by eapply elem_of_sublist).
      destruct (old_written _ _ _ _ _ _ _ Hl H). lia. }
  destruct (settle_spec up_to (length (rows s1)) s1 out1 0 Hw1 (le_n _)) as (s2 & out2 & Hset & _ & Hsplit & _ & Hok & _).
  rewrite Hpre in *. assert (Ha : acknowledge (closed l) (sender l) (rs_stream (sender l)) up_to = Some (s2, out1 ++ out2, 0 + Z.of_nat (length (rows s1)))).
  { unfold acknowledge. rewrite bool_decide_eq_false_2 by auto. by rewrite Hrel. }
  eexists. split; [eapply link_ack; [by left|exact Ha]|]. cbn [sender succeeded with_sender]. split.
  - rewrite <- (app_nil_r (rows s1)) in Hsplit at 1. by apply app_inv_head in Hsplit.
  - intros c [Hd [Hc|Hc]]; apply elem_of_app; [right|by left]. unfold ok_callers. rewrite omap_app. apply elem_of_app. right.
    change (c ∈ ok_callers out2). rewrite Hok. apply (release_spares (closed l) (sender l) s1 out1); try done. by apply bool_decide_eq_false.
Qed.

Lemma admits_mark (l : Link) : reachable l → admits l → 0 ≤ last_seq (receiver l).
Proof.
  intros Hre Had. destruct (reachable_linked node_bytes l Hre) as (owner & h & old & fresh & who & Hl).
  pose proof (lk_mark _ _ _ _ _ _ Hl) as Hm. destruct Had as [Ha|Ha]; rewrite Ha in Hm; [by destruct Hm as [_ ->]|].
  rewrite decide_True in Hm by done. lia.
Qed.

Lemma finish_sent (l : Link) :
  reachable l → admits l → unsent (rows (sender l)) = [] →
  ∃ l', rtc step l l' ∧ rows (sender l') = [] ∧ ∀ c, waits l c → c ∈ succeeded l'.
Proof.
  intros Hre Had Hall. pose proof (admits_mark l Hre Had) as H0.
  destruct (reachable_linked node_bytes l Hre) as (owner & h & old & fresh & who & Hl).
  destruct (all_on_wire _ _ _ _ _ _ Hl Hall) as [-> _]. pose proof (lk_next _ _ _ _ _ _ Hl) as Hn. cbn in Hn.
  pose proof (lk_range _ _ _ _ _ _ Hl). destruct (decide (h = 0)) as [->|Hh].
  - exists l. assert (Hnil : rows (sender l) = []).
    { rewrite (lk_rows _ _ _ _ _ _ Hl), app_nil_r. destruct old as [|n old]; [done|].
      destruct (old_written _ _ _ _ _ _ n Hl) as [_ ?]; [by left|lia]. }
    split_and!; [done..|]. intros c [_ [Hc|]]; [|done]. rewrite Hnil in Hc. by apply elem_of_nil in Hc.
  - destruct (arrive_all l (Z.to_nat (h - 1)) Hre Hall Had H0) as (l1 & Hr & Hs & Hd & Hsu & _ & Hlast & Hack); [lia|].
    destruct (acknowledge_all l1 (last_seq (receiver l1))) as (l2 & Hstep & Hnil & Hw);
      [by eapply link_reachable_steps|by rewrite Hs|by rewrite Hs|rewrite Hs; lia|].
    exists l2. split_and!; [by eapply rtc_r|done|]. intros c Hc. apply Hw. unfold waits. by rewrite Hs, Hd, Hsu.
Qed.

(** C13: No state of the link is stuck: while the peer's inbound stream is this session's or
    still unbound, some schedule of writes, arrivals and an acknowledgement empties
    the sender's queue, and every caller whose frame was retained and that has not
    stopped waiting is told success, its request being among those delivered. *)
Theorem every_session_can_finish (l : Link) :
  reachable l → admits l →
  ∃ l', rtc step l l' ∧ rows (sender l') = [] ∧
    ∀ c, c ∉ departed l → c ∈ replies (rows (sender l)) →
      c ∈ succeeded l' ∧ ∃ d, requests l' !! c = Some d ∧ d ∈ own_delivered l'.
Proof.
  intros Hre Had. destruct (write_all l Hre) as (l1 & Hr1 & Hrec & Hst & Hw & Hall).
  destruct (finish_sent l1) as (l2 & Hr2 & Hnil & Hsu); [by eapply link_reachable_steps|by unfold admits; rewrite Hrec, Hst|done|].
  assert (Hr : rtc step l l2) by by etransitivity. exists l2. split_and!; [done..|]. intros c Hd Hc.
  assert (Hin : c ∈ succeeded l2) by (apply Hsu, Hw; split; auto). split; [done|].
  destruct (reachable_linked node_bytes l2) as (owner & h & old & fresh & who & Hl); [by eapply link_reachable_steps|].
  destruct (lk_ok _ _ _ _ _ _ Hl c Hin) as [[i Hi]%list_elem_of_lookup _].
  destruct (Forall2_lookup_l _ _ _ _ _ (lk_delivered _ _ _ _ _ _ Hl) Hi) as (d & Hd' & ?). exists d. split; [done|].
  by eapply list_elem_of_lookup_2.
Qed.
End progress.

(** ** A session over a toy codec *)
Fixpoint demo_bits (p : positive) : bytes :=
  match p with xH => [] | xO p => Ascii.zero :: demo_bits p | xI p => Ascii.one :: demo_bits p end.
Fixpoint demo_unbits (b : bytes) : positive :=
  match b with [] => xH | c :: b => if Ascii.eqb c Ascii.zero then xO (demo_unbits b) else xI (demo_unbits b) end.

#[local] Instance demo_codec : ChannelCodec string := {
  to_json stream seq channel payload := Some (demo_bits (encode (stream, seq, channel, payload)));
  from_json b := decode (demo_unbits b);
}.

#[local] Instance demo_codec_laws : ChannelCodecLaws string.
Proof.
  intros stream seq channel payload b [= <-]. cbn. rewrite <- (decode_encode (stream, seq, channel, payload)). f_equal.
  by induction (encode _) as [p IH|p IH|]; cbn; [rewrite IH..|].
Qed.

Notation DemoLink := (@Link string Z unit _ _).

Definition demo_start : DemoLink := link_start 7 9.
Definition demo_submitted : DemoLink :=
  match submit 64 (λ _, Some ()) (λ _, Some ()) (sender demo_start) "chat" "hi" 1 with
  | Some (s, out) => with_sender (with_request demo_start 1 ("chat", "hi")) s out
  | None => demo_start
  end.
Definition demo_taken : DemoLink :=
  match next_unsent (λ _, Some ()) (closed demo_submitted) (sender demo_submitted) with
  | Some (s, out, u) => with_write (with_sender demo_submitted s out) u
  | None => demo_submitted
  end.
Definition demo_frame : bytes := Eval vm_compute in demo_bits (encode (7, 1, "chat", "hi")).
Definition demo_written : DemoLink :=
  mkLink (sender demo_taken) (receiver demo_taken) (departed demo_taken) (requests demo_taken) (writes demo_taken)
    (wire demo_taken ++ [demo_frame]) (acks demo_taken) (delivered demo_taken) (answered demo_taken) (succeeded demo_taken).
Definition demo_marked : DemoLink := with_sender demo_written (mark_sent (sender demo_written) 1) [].
Definition demo_arrived : DemoLink := receive_frame accept demo_marked 7 1 "chat" "hi".
Definition demo_acknowledged : DemoLink :=
  match acknowledge (closed demo_arrived) (sender demo_arrived) 7 1 with
  | Some (s, out, _) => with_sender demo_arrived s out
  | None => demo_arrived
  end.

Lemma demo_submitted_reachable : link_reachable 64 demo_submitted.
Proof.
  exists 7, 9. apply rtc_once. unfold demo_submitted. destruct (submit _ _ _ _ _ _ _) as [[s out]|] eqn:H; [|by vm_compute in H].
  by apply (link_submit 64 demo_start 1 "chat" "hi" (λ _, Some ()) (λ _, Some ())).
Qed.

Lemma demo_acknowledged_reachable : link_reachable 64 demo_acknowledged.
Proof.
  destruct demo_submitted_reachable as (a & b & Hr). exists a, b. apply rtc_r with demo_arrived; [apply rtc_r with demo_marked;
    [apply rtc_r with demo_written; [apply rtc_r with demo_taken; [apply rtc_r with demo_submitted; [exact Hr|]|]|]|]|].
  - unfold demo_taken. destruct (next_unsent (λ _, Some ()) (closed demo_submitted) (sender demo_submitted)) as [[[s out] u]|] eqn:H; [|by vm_compute in H].
    exact (link_take 64 demo_submitted _ s out u H).
  - apply (link_write 64 demo_taken 1 demo_frame). apply list_elem_of_In. vm_compute. auto.
  - apply (link_mark 64 demo_written 1 demo_frame); apply list_elem_of_In; vm_compute; auto.
  - apply (link_arrive 64 demo_marked accept demo_frame); [apply list_elem_of_In; vm_compute; auto|by vm_compute].
  - unfold demo_acknowledged. destruct (acknowledge (closed demo_arrived) (sender demo_arrived) 7 1) as [[[s out] u]|] eqn:H; [|by vm_compute in H].
    apply (link_ack 64 demo_arrived 7 1 s out u); [|done]. left. apply list_elem_of_In. vm_compute. auto.
Qed.

Lemma acknowledged_means_delivered_witness :
  succeeded demo_acknowledged = [1] ∧ own_delivered demo_acknowledged = [("chat", "hi")] ∧
  ∃ who, NoDup who ∧ Forall2 (λ c d, requests demo_acknowledged !! c = Some d) who [("chat", "hi")] ∧ 1 ∈ who.
Proof.
  split; [reflexivity|]. split; [reflexivity|].
  destruct (acknowledged_means_delivered 64 demo_acknowledged demo_acknowledged_reachable) as (who & Hn & Hf & Hs & _).
  exists who. split; [exact Hn|]. split; [exact Hf|]. apply Hs. by left.
Defined.

Lemma every_session_can_finish_witness :
  closed demo_submitted 1 = false ∧ replies (queue_rows (pending (sender demo_submitted))) = [1] ∧
  ∃ l', rtc (link_step 64) demo_submitted l' ∧ queue_rows (pending (sender l')) = [] ∧ 1 ∈ succeeded l'.
Proof.
  split; [reflexivity|]. split; [reflexivity|].
  destruct (every_session_can_finish 64 () demo_submitted demo_submitted_reachable) as (l' & Hr & Hn & Hc); [by left|].
  exists l'. split; [done|]. split; [done|]. apply Hc; [|by left].
  exact (bool_decide_eq_false_1 _ (eq_refl : closed demo_submitted 1 = false)).
Defined.
