(* ===== verification/Identity.v ===== *)
(** * Identities and signatures

    Models crates/myownmesh-core/src/identity.rs (the display suffix and the
    normalisation of a device identifier at an API boundary) and
    crates/myownmesh-core/src/signing.rs (signing and verification).  SHA-256,
    the base32 codec and Ed25519 are third-party code: they are the operations of
    the class [Crypto], and [CryptoLaws] states what their documentation promises
    and the code relies on. *)

From S2P Require Import Prelude Ranking Bytes DeviceId.
Local Open Scope nat_scope.

Class Crypto : Type := {
  sha256 : bytes → Bytes32;
  base32_encode : bytes → string;
  base32_decode : string → option bytes;
  (** [VerifyingKey::from_bytes] succeeds. *)
  verifying_key : bytes → bool;
  (** [VerifyingKey::verify(message, signature)] succeeds. *)
  ed25519_verify : bytes → bytes → bytes → bool;
  SigningKey : Type;
  public_key : SigningKey → Bytes32;
  ed25519_sign : SigningKey → bytes → bytes;
}.

(** The codec encodes a key in 52 characters of its alphabet, decodes what it
    encoded and nothing else (it rejects non-zero trailing bits); a key pair's
    public key is a point, its signatures have 64 bytes and verify. *)
Class CryptoLaws `{!Crypto} : Prop := {
  law_encode_length b : length b = 32 → String.length (base32_encode b) = 52;
  law_encode_alphabet b : string_forall upper_base32 (base32_encode b) = true;
  law_decode_encode b : base32_decode (base32_encode b) = Some b;
  law_encode_decode s b : base32_decode s = Some b → base32_encode b = s;
  law_public_key k : verifying_key (b32 (public_key k)) = true;
  law_sign_length k m : length (ed25519_sign k m) = 64;
  law_sign_verify k m : ed25519_verify (b32 (public_key k)) m (ed25519_sign k m) = true;
}.

(** ** [str::trim]: characters of the Unicode class White_Space, in UTF-8 *)
Definition ws_prefix (l : list nat) : nat :=
  match l with
  | a :: l1 =>
      if ((9 <=? a) && (a <=? 13)) || (a =? 32) then 1
      else match l1 with
      | b :: l2 =>
          if (a =? 194) && ((b =? 133) || (b =? 160)) then 2
          else match l2 with
          | c :: _ =>
              if ((a =? 225) && (b =? 154) && (c =? 128)) ||
                 ((a =? 226) && (b =? 128) &&
                   (((128 <=? c) && (c <=? 138)) || (c =? 168) || (c =? 169) || (c =? 175))) ||
                 ((a =? 226) && (b =? 129) && (c =? 159)) ||
                 ((a =? 227) && (b =? 128) && (c =? 128)) then 3 else 0
          | [] => 0
          end
      | [] => 0
      end
  | [] => 0
  end.

(** The same characters read backwards from the end. *)
Definition ws_suffix (l : list nat) : nat :=
  match l with
  | [] => 0
  | [a] => ws_prefix [a]
  | [a; b] => match ws_prefix [a] with 0 => match ws_prefix [b; a] with 2 => 2 | _ => 0 end | n => n end
  | a :: b :: c :: _ =>
      match ws_prefix [a] with
      | 0 => match ws_prefix [b; a] with 2 => 2 | _ => match ws_prefix [c; b; a] with 3 => 3 | _ => 0 end end
      | n => n
      end
  end.

Fixpoint strip (ws : list nat → nat) (fuel : nat) (l : bytes) : bytes :=
  match fuel with
  | 0 => l
  | S fuel =>
      match ws (Ascii.nat_of_ascii <$> l) with
      | 0 => l
      | n => strip ws fuel (drop n l)
      end
  end.

Definition trim (s : string) : string :=
  let l := str s in
  let l := strip ws_prefix (length l) l in
  String.string_of_list_ascii (reverse (strip ws_suffix (length l) (reverse l))).

(** ** The display suffix *)
Definition hex_digit (n : nat) : Ascii.ascii :=
  nth n (str "0123456789ABCDEF") (Ascii.ascii_of_nat 48).

Definition suffix_char (digest : bytes) (index : nat) : Ascii.ascii :=
  let byte := Ascii.nat_of_ascii (nth (index / 2) digest (Ascii.ascii_of_nat 0)) in
  hex_digit (if index mod 2 =? 0 then byte / 16 else byte mod 16).

Inductive identity_error : Type :=
| EmptyId | IdNotBase32 | IdWrongLength | IdNotAKey | SuffixMismatch.

Inductive signing_error : Type :=
| BadDeviceId (e : identity_error) | KeyNotBase32 | KeyWrongLength | NotAVerifyingKey
| SignatureNotBase32 | SignatureWrongLength.

Section identity.
Context {crypto : Crypto}.

Definition display_suffix_bytes (pubkey_string : bytes) : bytes :=
  suffix_char (b32 (sha256 pubkey_string)) <$> seq 0 5.
Definition display_suffix (pubkey_string : bytes) : string :=
  String.string_of_list_ascii (display_suffix_bytes pubkey_string).

(** The canonical spelling of a key: [DeviceId::base32], [Identity::public_id]. *)
Definition spell (key : Bytes32) : string := to_lowercase (base32_encode (b32 key)).

Definition display_id (key : Bytes32) : string :=
  (spell key ++ String dash (display_suffix (str (spell key))))%string.

Definition eq_ignore_ascii_case (a b : string) : bool := bool_decide (to_lowercase a = to_lowercase b).

(** The match on [rsplit_once]: a tail of five bytes is read as a display suffix. *)
Definition split_suffix (trimmed : string) : string * option string :=
  match rsplit_once dash trimmed with
  | Some (body, suffix) => if String.length suffix =? 5 then (body, Some suffix) else (trimmed, None)
  | None => (trimmed, None)
  end.

Definition normalize_device_id (input : string) : result identity_error string :=
  let trimmed := trim input in
  if bool_decide (trimmed = EmptyString) then Err EmptyId
  else
    let '(body, supplied_suffix) := split_suffix trimmed in
    let canonical := to_lowercase body in
    match base32_decode (to_ascii_uppercase canonical) with
    | None => Err IdNotBase32
    | Some decoded =>
        if negb (length decoded =? 32) then Err IdWrongLength
        else if negb (verifying_key decoded) then Err IdNotAKey
        else
          match supplied_suffix with
          | Some supplied =>
              if eq_ignore_ascii_case supplied (display_suffix (str canonical)) then Ok canonical
              else Err SuffixMismatch
          | None => Ok canonical
          end
    end.

Definition sign_with (key : SigningKey) (message : bytes) : string :=
  to_lowercase (base32_encode (ed25519_sign key message)).

Definition verify (device_id : string) (message : bytes) (signature : string) : result signing_error bool :=
  match normalize_device_id device_id with
  | Err e => Err (BadDeviceId e)
  | Ok pubkey_part_str =>
      match base32_decode (to_uppercase pubkey_part_str) with
      | None => Err KeyNotBase32
      | Some pubkey =>
          if negb (length pubkey =? 32) then Err KeyWrongLength
          else if negb (verifying_key pubkey) then Err NotAVerifyingKey
          else
            match base32_decode (to_uppercase signature) with
            | None => Err SignatureNotBase32
            | Some sig =>
                if negb (length sig =? 64) then Err SignatureWrongLength
                else Ok (ed25519_verify pubkey message sig)
            end
      end
  end.

Context {laws : CryptoLaws}.

(** *** Spellings *)
Lemma spell_alphabet key : string_forall lower_base32 (spell key) = true.
Proof. apply (canonical_alphabet base32_encode law_encode_alphabet). Qed.

Lemma ascii_uppercase_spell key : to_ascii_uppercase (spell key) = base32_encode (b32 key).
Proof. apply (ascii_uppercase_canonical base32_encode law_encode_alphabet). Qed.
Lemma uppercase_spell key : to_uppercase (spell key) = base32_encode (b32 key).
Proof. apply (uppercase_canonical base32_encode law_encode_alphabet). Qed.

Lemma ascii_decode_spell key : base32_decode (to_ascii_uppercase (spell key)) = Some (b32 key).
Proof. rewrite ascii_uppercase_spell. apply law_decode_encode. Qed.
Lemma decode_spell key : base32_decode (to_uppercase (spell key)) = Some (b32 key).
Proof. rewrite uppercase_spell. apply law_decode_encode. Qed.

#[export] Instance spell_inj : Inj (=) (=) spell.
Proof.
  intros x y H. apply (inj b32). apply (f_equal to_uppercase), (f_equal base32_decode) in H.
  rewrite !uppercase_spell, !law_decode_encode in H. by injection H.
Qed.

Lemma spell_no_dash key : no_dash (spell key) = true.
Proof. apply lower_base32_no_dash, spell_alphabet. Qed.

Lemma spell_lowercase key : to_lowercase (spell key) = spell key.
Proof. apply lower_base32_lowercase, spell_alphabet. Qed.

(** *** Trimming does nothing to a string of printable ASCII characters *)
Definition printable (a : Ascii.ascii) : bool := let n := Ascii.nat_of_ascii a in (33 <=? n) && (n <=? 126).

Lemma ws_prefix_printable n l : 33 ≤ n ≤ 126 → ws_prefix (n :: l) = 0.
Proof.
  intros Hn. unfold ws_prefix.
  rewrite !(proj2 (Nat.eqb_neq n _)) by lia. rewrite (proj2 (Nat.leb_gt n 13)) by lia.
  rewrite andb_false_r. cbn [orb andb]. destruct l as [|b [|c l]]; done.
Qed.

Lemma ws_two b n : 33 ≤ n ≤ 126 → ws_prefix [b; n] ≠ 2.
Proof. intros Hn. unfold ws_prefix. rewrite !(proj2 (Nat.eqb_neq n _)) by lia. rewrite andb_false_r. by destruct (_ || _). Qed.

Lemma ws_three c b n : 33 ≤ n ≤ 126 → ws_prefix [c; b; n] ≠ 3.
Proof.
  intros Hn. unfold ws_prefix. destruct (_ || (c =? 32)); [done|]. destruct (_ && (_ || _)); [done|].
  rewrite !(proj2 (Nat.eqb_neq n _)) by lia. rewrite (proj2 (Nat.leb_gt 128 n)) by lia.
  by rewrite !andb_false_r.
Qed.

Lemma ws_suffix_printable n l : 33 ≤ n ≤ 126 → ws_suffix (n :: l) = 0.
Proof.
  intros Hn. destruct l as [|b [|c l]]; cbn [ws_suffix]; rewrite ws_prefix_printable by done; [done|..].
  - pose proof (ws_two b n Hn). by destruct (ws_prefix [b; n]) as [|[|[|]]].
  - pose proof (ws_two b n Hn). pose proof (ws_three c b n Hn).
    destruct (ws_prefix [b; n]) as [|[|[|]]]; try done;
      by destruct (ws_prefix [c; b; n]) as [|[|[|[|]]]].
Qed.

Lemma strip_printable ws l :
  (∀ n k, 33 ≤ n ≤ 126 → ws (n :: k) = 0) → ws [] = 0 → forallb printable l = true → strip ws (length l) l = l.
Proof.
  intros Hws H0 Hl. destruct l as [|a l]; cbn; [done|]. cbn in Hl. z_norm.
  rewrite Hws; [done|]. unfold printable in H. apply andb_true_iff in H as [Ha Hb].
  apply Nat.leb_le in Ha, Hb. lia.
Qed.

Lemma trim_printable s : string_forall printable s = true → trim s = s.
Proof.
  intros Hs. unfold trim.
  assert (Hl : forallb printable (str s) = true).
  { rewrite <- (String.string_of_list_ascii_of_string s) in Hs. by rewrite string_forall_list in Hs. }
  rewrite strip_printable; [|apply ws_prefix_printable|done|done].
  rewrite <- (length_reverse (str s)).
  rewrite strip_printable; [|apply ws_suffix_printable|done|].
  - rewrite reverse_involutive. apply String.string_of_list_ascii_of_string.
  - apply forallb_forall. intros a Ha. rewrite forallb_forall in Hl. apply Hl.
    apply list_elem_of_In. apply list_elem_of_In in Ha. by apply elem_of_reverse.
Qed.

Lemma string_forall_app f a b : string_forall f (a ++ b)%string = string_forall f a && string_forall f b.
Proof.
  induction a as [|x a IH]; [done|].
  change (f x && string_forall f (a ++ b)%string = f x && string_forall f a && string_forall f b).
  by rewrite IH, andb_assoc.
Qed.

Lemma lower_printable a : implb (lower_base32 a) (printable a) = true.
Proof. revert a. apply ascii_all. vm_compute. reflexivity. Qed.

Lemma spell_printable key : string_forall printable (spell key) = true.
Proof.
  eapply string_forall_impl; [|apply spell_alphabet]. intros a Ha. pose proof (lower_printable a) as H.
  by rewrite Ha in H.
Qed.

Definition hex_upper (a : Ascii.ascii) : bool := is_ascii_alphanumeric a && printable a.

Lemma hex_digit_ok n : hex_upper (hex_digit n) = true.
Proof.
  unfold hex_digit. destruct (decide (n < 16)) as [Hn|Hn].
  - do 16 (destruct n as [|n]; [done|]). lia.
  - rewrite nth_overflow; [done|]. cbn. lia.
Qed.

Lemma display_suffix_ok b :
  String.length (display_suffix b) = 5 ∧ string_forall hex_upper (display_suffix b) = true.
Proof.
  unfold display_suffix, display_suffix_bytes. split; [done|]. rewrite string_forall_list.
  cbn [seq fmap list_fmap forallb]. unfold suffix_char. by rewrite !hex_digit_ok.
Qed.

Lemma display_suffix_alphanumeric b : all_alphanumeric (display_suffix b) = true.
Proof.
  destruct (display_suffix_ok b) as [_ H]. revert H. generalize (display_suffix b). intros s.
  induction s as [|a s IH]; [done|]. cbn [string_forall all_alphanumeric]. unfold hex_upper at 1.
  intros H. z_norm. by rewrite H, IH.
Qed.

(** *** [normalize_device_id] *)
Lemma rsplit_once_app c s body suffix : rsplit_once c s = Some (body, suffix) → s = (body ++ String c suffix)%string.
Proof.
  revert body suffix. induction s as [|a s IH]; intros body suffix; cbn [rsplit_once]; [done|].
  destruct (rsplit_once c s) as [[b f]|].
  - intros [= <- <-]. rewrite (IH b f eq_refl). done.
  - destruct (Ascii.eqb_spec a c) as [->|]; [|done]. by intros [= <- <-].
Qed.

(** A decoded body is a spelling of its key. *)
Lemma decoded_spelling body decoded :
  base32_decode (to_ascii_uppercase (to_lowercase body)) = Some decoded → length decoded = 32 →
  ∃ key, decoded = b32 key ∧ to_lowercase (to_ascii_uppercase (to_lowercase body)) = spell key.
Proof.
  intros Hd Hl. apply law_encode_decode in Hd. exists (mkBytes32 decoded (proj2 (Nat.eqb_eq _ _) Hl)).
  split; [done|]. unfold spell. cbn [b32]. by rewrite Hd.
Qed.

Lemma lower_upper_lower a : Ascii.eqb (ascii_lower (ascii_upper (ascii_lower a))) (ascii_lower a) = true.
Proof. revert a. apply ascii_all. vm_compute. reflexivity. Qed.

Lemma to_lower_upper_lower s : to_lowercase (to_ascii_uppercase (to_lowercase s)) = to_lowercase s.
Proof.
  unfold to_lowercase, to_ascii_uppercase. induction s as [|a s IH]; cbn; [done|]. rewrite IH. f_equal.
  by apply Ascii.eqb_eq, lower_upper_lower.
Qed.

(** What an API boundary accepts: a spelling of a key in any case, alone or
    followed by a dash and the key's own display suffix in any case. *)
Definition accepted_form (trimmed : string) (key : Bytes32) : Prop :=
  (∃ body, to_lowercase body = spell key ∧
     (trimmed = body ∨
      ∃ suffix, trimmed = (body ++ String dash suffix)%string ∧
                to_lowercase suffix = to_lowercase (display_suffix (str (spell key))))).

Lemma lower_dash a : Ascii.eqb (ascii_lower a) dash = Ascii.eqb a dash.
Proof. revert a. cut (∀ a, Bool.eqb (Ascii.eqb (ascii_lower a) dash) (Ascii.eqb a dash) = true);
  [intros H a; apply Bool.eqb_prop, H|]. apply ascii_all. vm_compute. reflexivity. Qed.

Lemma no_dash_lower s : no_dash (to_lowercase s) = no_dash s.
Proof. unfold to_lowercase. induction s as [|a s IH]; cbn; [done|]. by rewrite IH, lower_dash. Qed.

Lemma lower_alphanumeric a : is_ascii_alphanumeric (ascii_lower a) = is_ascii_alphanumeric a.
Proof.
  revert a. cut (∀ a, Bool.eqb (is_ascii_alphanumeric (ascii_lower a)) (is_ascii_alphanumeric a) = true);
    [intros H a; apply Bool.eqb_prop, H|]. apply ascii_all. vm_compute. reflexivity.
Qed.

Lemma alphanumeric_to_lower s : all_alphanumeric s = true → all_alphanumeric (to_lowercase s) = true.
Proof.
  unfold to_lowercase. induction s as [|a s IH]; cbn; [done|]. intros H. z_norm.
  rewrite IH by done. by rewrite andb_true_r, lower_alphanumeric.
Qed.

Lemma display_like_suffix b suffix :
  to_lowercase suffix = to_lowercase (display_suffix b) → String.length suffix = 5 ∧ no_dash suffix = true.
Proof.
  intros H. destruct (display_suffix_ok b) as [Hlen _]. split.
  - rewrite <- Hlen, <- (length_string_map ascii_lower suffix), <- (length_string_map ascii_lower (display_suffix b)).
    unfold to_lowercase in H. by rewrite H.
  - rewrite <- no_dash_lower, H, no_dash_lower. apply alphanumeric_no_dash, display_suffix_alphanumeric.
Qed.

Lemma normalize_device_id_Ok input c :
  normalize_device_id input = Ok c ↔
  ∃ key, c = spell key ∧ verifying_key (b32 key) = true ∧ accepted_form (trim input) key.
Proof.
  unfold normalize_device_id, split_suffix. split.
  - case_bool_decide as He; [done|].
    destruct (rsplit_once dash (trim input)) as [[body suffix]|] eqn:Hr;
      [destruct (String.length suffix =? 5)|];
      (destruct (base32_decode _) as [decoded|] eqn:Hd; [|done]);
      (destruct (Nat.eqb_spec (length decoded) 32) as [Hl|]; cbn [negb]; [|done]);
      (destruct (verifying_key decoded) eqn:Hv; cbn [negb]; [|done]);
      destruct (decoded_spelling _ _ Hd Hl) as (key & -> & Hs); rewrite to_lower_upper_lower in Hs.
    + unfold eq_ignore_ascii_case. case_bool_decide as Hsuf; [|done]. intros [= <-].
      exists key. split_and!; [done..|]. exists body. split; [done|]. right. exists suffix.
      split; [by apply rsplit_once_app|]. by rewrite <- Hs.
    + intros [= <-]. exists key. split_and!; [done..|]. eexists. split; [exact Hs|by left].
    + intros [= <-]. exists key. split_and!; [done..|]. eexists. split; [exact Hs|by left].
  - intros (key & -> & Hv & body & Hb & Ht).
    assert (Hnd : no_dash body = true) by (rewrite <- no_dash_lower, Hb; apply spell_no_dash).
    assert (Hne : trim input ≠ EmptyString).
    { intros He. rewrite He in Ht.
      assert (body = EmptyString) as -> by (destruct Ht as [?|(? & ? & _)]; by destruct body).
      apply (f_equal String.length) in Hb. unfold spell, to_lowercase in Hb.
      rewrite !length_string_map in Hb. rewrite law_encode_length in Hb; [done|apply length_b32]. }
    rewrite bool_decide_eq_false_2 by done. destruct Ht as [->|(suffix & -> & Hsuf)].
    + rewrite rsplit_no_dash by done. rewrite Hb, ascii_decode_spell, length_b32. cbn. by rewrite Hv.
    + destruct (display_like_suffix _ _ Hsuf) as [Hlen Hnds]. rewrite rsplit_app by done.
      rewrite Hlen. cbn [Nat.eqb]. rewrite Hb, ascii_decode_spell, length_b32. cbn [negb Nat.eqb]. rewrite Hv. cbn [negb].
      unfold eq_ignore_ascii_case. by rewrite bool_decide_eq_true_2.
Qed.

Lemma accepted_spell key : accepted_form (spell key) key.
Proof. exists (spell key). split; [apply spell_lowercase|by left]. Qed.

Lemma accepted_display key : accepted_form (display_id key) key.
Proof. exists (spell key). split; [apply spell_lowercase|right]. by eexists. Qed.

Lemma trim_spell key : trim (spell key) = spell key.
Proof. apply trim_printable, spell_printable. Qed.

Lemma hex_upper_printable b : string_forall printable (display_suffix b) = true.
Proof.
  eapply string_forall_impl; [|apply (display_suffix_ok b)]. unfold hex_upper. intros a Ha. by z_norm.
Qed.

Lemma trim_display key : trim (display_id key) = display_id key.
Proof.
  apply trim_printable. unfold display_id. rewrite string_forall_app, spell_printable.
  cbn [andb string_forall]. by rewrite hex_upper_printable.
Qed.

Lemma accepted_unique t k k' : accepted_form t k → accepted_form t k' → k = k'.
Proof.
  assert (Hbody : ∀ body key, to_lowercase body = spell key → no_dash body = true).
  { intros body key Hb. rewrite <- no_dash_lower, Hb. apply spell_no_dash. }
  assert (Hsplit : ∀ t k, accepted_form t k → ∃ body, to_lowercase body = spell k ∧ pubkey_part t = body).
  { intros t' key (body & Hb & [->|(suffix & -> & Hs)]); exists body; split; try done.
    - by eapply pubkey_part_canonical, Hbody.
    - destruct (display_like_suffix _ _ Hs) as [Hl Hn]. unfold pubkey_part. rewrite rsplit_app by done.
      rewrite Hl. cbn [Nat.eqb andb]. enough (all_alphanumeric suffix = true) as -> by done.
      assert (Hal : ∀ s, all_alphanumeric (to_lowercase s) = true → all_alphanumeric s = true).
      { unfold to_lowercase. intros s. induction s as [|a s IH]; cbn; [done|]. intros H. z_norm.
        rewrite IH by done. by rewrite andb_true_r, <- lower_alphanumeric. }
      apply Hal. rewrite Hs. apply alphanumeric_to_lower, display_suffix_alphanumeric. }
  intros (b & Hb & Hp)%Hsplit (b' & Hb' & Hp')%Hsplit. apply (inj spell). congruence.
Qed.

Lemma verify_Ok id message signature b :
  verify id message signature = Ok b ↔
  ∃ key sig, verifying_key (b32 key) = true ∧ accepted_form (trim id) key ∧
    base32_decode (to_uppercase signature) = Some sig ∧ length sig = 64 ∧
    b = ed25519_verify (b32 key) message sig.
Proof.
  unfold verify. split.
  - destruct (normalize_device_id id) as [c|] eqn:Hn; [|done].
    apply normalize_device_id_Ok in Hn as (key & -> & Hv & Ha). rewrite decode_spell, length_b32.
    cbn [Nat.eqb negb]. rewrite Hv. cbn [negb].
    destruct (base32_decode (to_uppercase signature)) as [sig|]; [|done].
    destruct (Nat.eqb_spec (length sig) 64) as [Hl|]; cbn [negb]; [|done]. intros [= <-]. eauto 10.
  - intros (key & sig & Hv & Ha & Hd & Hl & ->).
    rewrite (proj2 (normalize_device_id_Ok id (spell key))) by eauto.
    rewrite decode_spell, length_b32. cbn [Nat.eqb negb]. rewrite Hv. cbn [negb]. rewrite Hd, Hl. done.
Qed.

Lemma verify_signed_form key message id :
  accepted_form (trim id) (public_key key) → verify id message (sign_with key message) = Ok true.
Proof.
  intros Hi. apply verify_Ok. exists (public_key key), (ed25519_sign key message).
  split_and!; [apply law_public_key|done| |apply law_sign_length|by rewrite law_sign_verify].
  unfold sign_with. rewrite (uppercase_canonical base32_encode law_encode_alphabet). apply law_decode_encode.
Qed.

Lemma verify_signed key message : verify (spell (public_key key)) message (sign_with key message) = Ok true.
Proof. apply verify_signed_form. rewrite trim_spell. apply accepted_spell. Qed.

(** what a device signs verifies under every form its identifier is accepted
    in (its wire spelling, its display form, and any case of either), and a
    verification that answers [true] checked the signature against the one key the
    identifier names. *)
Theorem signature_binds_named_key key message id signature :
  (accepted_form (trim id) (public_key key) → verify id message (sign_with key message) = Ok true) ∧
  verify (spell (public_key key)) message (sign_with key message) = Ok true ∧
  verify (display_id (public_key key)) message (sign_with key message) = Ok true ∧
  (verify id message signature = Ok true →
   ∃ named sig, accepted_form (trim id) named ∧ (∀ other, accepted_form (trim id) other → other = named) ∧
     base32_decode (to_uppercase signature) = Some sig ∧ ed25519_verify (b32 named) message sig = true).
Proof.
  split_and!; [apply verify_signed_form|apply verify_signed|
               apply verify_signed_form; rewrite trim_display; apply accepted_display|].
  intros (named & sig & _ & Ha & Hd & _ & He)%verify_Ok. exists named, sig. split_and!; try done.
  intros other Ho. by eapply accepted_unique.
Qed.
End identity.

(** ** A concrete instance

    RFC 4648 base32 that refuses what it would not itself encode, and toy digest
    and signature functions of the right shapes. *)
Definition strict_decode (s : string) : option bytes :=
  match rfc4648_decode s with
  | Some b => if decide (rfc4648_encode b = s) then Some b else None
  | None => None
  end.

Definition fold_digest (m : bytes) : bytes :=
  be_bytes 32 (foldl (λ h a, Z.land (h * 257 + Z.of_nat (Ascii.nat_of_ascii a) + 1) (Z.ones 40))%Z 0%Z m).

Lemma fold_digest_len m : (length (fold_digest m) =? 32) = true.
Proof. apply Nat.eqb_eq, length_be_bytes. Qed.

Definition demo_sha256 (m : bytes) : Bytes32 := mkBytes32 (fold_digest m) (fold_digest_len m).
Definition demo_sign (key : Bytes32) (m : bytes) : bytes :=
  fold_digest (b32 key ++ m) ++ fold_digest (m ++ b32 key).

#[export] Instance demo_crypto : Crypto := {|
  sha256 := demo_sha256;
  base32_encode := rfc4648_encode;
  base32_decode := strict_decode;
  verifying_key := λ b, length b =? 32;
  ed25519_verify := λ k m s,
    match to_bytes32 k with Some k => bool_decide (s = demo_sign k m) | None => false end;
  SigningKey := Bytes32;
  public_key := λ k, k;
  ed25519_sign := demo_sign;
|}.

#[export] Instance demo_laws : @CryptoLaws demo_crypto.
Proof.
  split.
  - apply rfc4648_length.
  - apply rfc4648_alphabet.
  - intros b. change (strict_decode (rfc4648_encode b) = Some b). unfold strict_decode. rewrite rfc4648_round. by destruct (decide _).
  - intros s b. change (strict_decode s = Some b → rfc4648_encode b = s). unfold strict_decode. destruct (rfc4648_decode s); [|done]. destruct (decide _); [|done].
    by intros [= <-].
  - intros k. apply Nat.eqb_eq, length_b32.
  - intros k m. change (length (demo_sign k m) = 64). unfold demo_sign, fold_digest. by rewrite length_app, !length_be_bytes.
  - intros k m. cbn [ed25519_verify demo_crypto public_key ed25519_sign]. rewrite to_bytes32_b32. by apply bool_decide_eq_true.
Qed.

Definition demo_key32 : Bytes32 := demo_sha256 (str "demo key").

Definition demo_signer : @SigningKey demo_crypto := demo_key32.

Lemma signature_binds_named_key_witness :
  verify (display_id (public_key demo_signer)) (str "hello mesh") (sign_with demo_signer (str "hello mesh")) = Ok true.
Proof.
  apply (proj1 (signature_binds_named_key demo_signer (str "hello mesh") (display_id (public_key demo_signer))
           (sign_with demo_signer (str "hello mesh")))).
  rewrite trim_display. apply accepted_display.
Defined.
