(* ===== verification/EndpointAuth.v ===== *)
(** * Endpoint authentication

    The exchange that turns a connected channel into an authenticated one:
    endpoint_auth/{mod,context,contribution,transcript,capability,task}.rs and the
    handoff of connector/{binding,handoff,incarnation}.rs under
    crates/myownmesh-core/src.  A task is driven under its mutex, so every call is
    one atomic step; pointer identities are numbers.  What a call does to the
    outside is a list of effects: a signature made, a channel returned to the
    connector that retains it. *)

From Stdlib Require Import DecimalString DecimalN.
From S2P Require Import Prelude Ranking Bytes DeviceId Identity.
Local Open Scope nat_scope.

Definition ENDPOINT_AUTH_DOMAIN_TAG : string := "myownmesh-endpoint-auth-v1:".
Definition CONTRIBUTION_BYTES : nat := 32.

Inductive EndpointRole : Type := Initiator | Responder.
#[export] Instance role_eq_dec : EqDecision EndpointRole.
Proof. solve_decision. Defined.

Definition role_tag_text (r : EndpointRole) : string := match r with Initiator => "initiator" | Responder => "responder" end.
Definition role_peer (r : EndpointRole) : EndpointRole := match r with Initiator => Responder | Responder => Initiator end.

Inductive EndpointAuthError : Type :=
  NoBoundTranscript | NotMutual | ContributionNotFresh | SignatureInvalid | ChannelNotCurrent | ConflictingPeerContribution.
Inductive EndpointAuthSetupError : Type :=
  MissingIdentityField | MissingContribution | ContributionWrongWidth | ContributionMalformed | IncompatibleProfile.

Inductive EndpointAuthProfile : Type := V1Ed25519Dtls.
Definition profile_tag (p : EndpointAuthProfile) : string := match p with V1Ed25519Dtls => "ed25519-dtls-v1" end.

(** ** The transcript *)

(** [usize::to_string]. *)
Definition decimal (n : nat) : bytes := str (NilEmpty.string_of_uint (N.to_uint (N.of_nat n))).
Definition colon : Ascii.ascii := Ascii.ascii_of_nat 58.

Definition push_field (out : bytes) (field : string) : bytes :=
  out ++ decimal (length (str field)) ++ [colon] ++ str field.

Definition role_of (local_device_id remote_device_id : string) : EndpointRole :=
  if is_less (String.compare local_device_id remote_device_id) then Initiator else Responder.

Definition transcript_bytes (mesh_context : string) (profile : EndpointAuthProfile) (signer : EndpointRole)
    (local_device_id remote_device_id local_contribution remote_contribution local_fingerprint remote_fingerprint : string)
    : bytes :=
  let '(initiator_id, responder_id, initiator_contribution, responder_contribution, initiator_fingerprint, responder_fingerprint) :=
    match role_of local_device_id remote_device_id with
    | Initiator => (local_device_id, remote_device_id, local_contribution, remote_contribution, local_fingerprint, remote_fingerprint)
    | Responder => (remote_device_id, local_device_id, remote_contribution, local_contribution, remote_fingerprint, local_fingerprint)
    end in
  foldl push_field (str ENDPOINT_AUTH_DOMAIN_TAG)
    [mesh_context; profile_tag profile; role_tag_text signer; initiator_id; responder_id;
     initiator_contribution; responder_contribution; initiator_fingerprint; responder_fingerprint].

(** ** Binding and context *)
Record EndpointAuthBinding : Type := mkBinding { local_component : string; remote_component : string }.

Definition webrtc_certificate_fingerprints (local remote : string) : option EndpointAuthBinding :=
  if bool_decide (local = EmptyString) || bool_decide (remote = EmptyString) then None else Some (mkBinding local remote).

Record EndpointAuthContext : Type := mkContext {
  mesh_context : string;
  local_device_id : string;
  expected_remote_device_id : string;
  profile : EndpointAuthProfile;
  binding : EndpointAuthBinding;
  local_role : EndpointRole;
}.

Definition context_new (mesh_context local_device_id expected_remote_device_id : string) (binding : EndpointAuthBinding)
    : result EndpointAuthSetupError EndpointAuthContext :=
  if bool_decide (mesh_context = EmptyString) || bool_decide (local_device_id = EmptyString) ||
     bool_decide (expected_remote_device_id = EmptyString)
  then Err MissingIdentityField
  else
    let local_role := if is_less (String.compare local_device_id expected_remote_device_id) then Initiator else Responder in
    Ok (mkContext mesh_context local_device_id expected_remote_device_id V1Ed25519Dtls binding local_role).

Definition context_matches (c : EndpointAuthContext) (mesh remote : string) : bool :=
  bool_decide (mesh_context c = mesh) && bool_decide (expected_remote_device_id c = remote).

Definition transcript_for_context (c : EndpointAuthContext) (signer : EndpointRole) (local peer : string) : bytes :=
  transcript_bytes (mesh_context c) (profile c) signer (local_device_id c) (expected_remote_device_id c) local peer
    (local_component (binding c)) (remote_component (binding c)).

(** ** Channels and what is issued over them *)
Record Channel : Type := mkChannel { ch_id : nat; ch_runtime : nat }.
#[export] Instance channel_eq_dec : EqDecision Channel.
Proof. solve_decision. Defined.

Record ConnectedChannelHandoff : Type := mkHandoff { ho_capability : option Channel; ho_incarnation : nat }.

(** The connector keeps the claim of a handoff that is dropped. *)
Definition handoff_drop (h : ConnectedChannelHandoff) : list Channel :=
  match ho_capability h with Some c => [c] | None => [] end.

Record AuthenticatedBindingRecord : Type := mkRecord {
  ab_mesh_context : string;
  ab_local_device_id : string;
  ab_remote_device_id : string;
  ab_local_role : EndpointRole;
  ab_transcript_digest : string;
  ab_connector : nat;
  ab_runtime : nat;
}.

Record AuthenticatedChannelCapability : Type := mkAuthenticated { ac_record : AuthenticatedBindingRecord; ac_handoff : ConnectedChannelHandoff }.

Definition authenticated_for (a : AuthenticatedChannelCapability) (mesh remote : string) : bool :=
  bool_decide (ab_mesh_context (ac_record a) = mesh) && bool_decide (ab_remote_device_id (ac_record a) = remote).

Definition capability_belongs_to (a : AuthenticatedChannelCapability) (incarnation : nat) : bool :=
  ho_incarnation (ac_handoff a) =? incarnation.

Record IssuedIdentity : Type := mkIssued { is_transcript_digest : string; is_runtime : nat }.

Inductive AcceptedPeerHello : Type := FirstBinding (proof : string) | ExactDuplicate (proof : string).
Inductive PeerProofAcceptance : Type := PromotedTo (c : AuthenticatedChannelCapability) | AlreadyPromoted.

Inductive ExchangeState : Type :=
| AwaitingPeerContribution
| BoundTo (peer_contribution : string) (local_proof : string)
| Terminal (e : EndpointAuthError)
| Promoted (peer_contribution : string) (local_proof : string) (issued : IssuedIdentity).

Section task.
Context {crypto : Crypto}.

Definition contribution_spelling (draw : bytes) : string := to_lowercase (base32_encode draw).

(** [PeerContribution::from_wire]. *)
Definition from_wire (value : string) : result EndpointAuthSetupError string :=
  if bool_decide (value = EmptyString) then Err MissingContribution
  else match base32_decode (to_ascii_uppercase value) with
       | None => Err ContributionMalformed
       | Some decoded =>
           if negb (length decoded =? CONTRIBUTION_BYTES) then Err ContributionWrongWidth
           else if bool_decide (to_lowercase (base32_encode decoded) ≠ value) then Err ContributionMalformed
           else Ok value
       end.

Definition digest_of (fields : list bytes) : string :=
  to_lowercase (base32_encode (b32 (sha256 (concat ((λ f, decimal (length f) ++ [colon] ++ f) <$> fields))))).

Definition record_from_verified_exchange (c : EndpointAuthContext) (transcript : bytes) (connector runtime : nat)
    : AuthenticatedBindingRecord :=
  mkRecord (mesh_context c) (local_device_id c) (expected_remote_device_id c) (local_role c) (digest_of [transcript]) connector runtime.

Record EndpointAuthTask : Type := mkTask {
  incarnation : nat;
  retired : bool;
  context : EndpointAuthContext;
  signer : SigningKey;
  local_contribution : string;
  handoff : option ConnectedChannelHandoff;
  state : ExchangeState;
}.

Inductive auth_effect : Type := Signed (key : SigningKey) (message : bytes) | Retained (c : Channel).

Definition retained_of (h : option ConnectedChannelHandoff) : list auth_effect :=
  match h with Some h => Retained <$> handoff_drop h | None => [] end.

Definition task_begin (c : EndpointAuthContext) (h : ConnectedChannelHandoff) (key : SigningKey) (draw : bytes) : EndpointAuthTask :=
  mkTask (ho_incarnation h) false c key (contribution_spelling draw) (Some h) AwaitingPeerContribution.

Definition terminalize (t : EndpointAuthTask) (cause : EndpointAuthError) : EndpointAuthTask * list auth_effect * EndpointAuthError :=
  match state t with
  | Terminal existing =>
      (mkTask (incarnation t) true (context t) (signer t) (local_contribution t) (handoff t) (state t), [], existing)
  | _ =>
      (mkTask (incarnation t) true (context t) (signer t) (local_contribution t) None (Terminal cause), retained_of (handoff t), cause)
  end.

Definition is_retired (t : EndpointAuthTask) : bool := retired t.
Definition task_belongs_to (t : EndpointAuthTask) (i : nat) : bool := negb (is_retired t) && (incarnation t =? i).

Definition issued (t : EndpointAuthTask) (a : AuthenticatedChannelCapability) : bool :=
  match state t with
  | Promoted _ _ i =>
      let r := ac_record a in
      authenticated_for a (mesh_context (context t)) (expected_remote_device_id (context t)) &&
      context_matches (context t) (ab_mesh_context r) (ab_remote_device_id r) &&
      bool_decide (ab_local_device_id r = local_device_id (context t)) &&
      bool_decide (ab_local_role r = local_role (context t)) &&
      (ab_connector r =? incarnation t) &&
      bool_decide (ab_transcript_digest r = is_transcript_digest i) && (ab_runtime r =? is_runtime i)
  | _ => false
  end.

Definition retire (t : EndpointAuthTask) : EndpointAuthTask * list auth_effect :=
  let '(t, out, _) := terminalize t ChannelNotCurrent in (t, out).

Definition refuse {A} (t : EndpointAuthTask) (cause : EndpointAuthError) : EndpointAuthTask * list auth_effect * result EndpointAuthError A :=
  let '(t, out, e) := terminalize t cause in (t, out, Err e).

Definition accept_peer_hello (t : EndpointAuthTask) (peer_contribution : string)
    : EndpointAuthTask * list auth_effect * result EndpointAuthError AcceptedPeerHello :=
  match state t with
  | Terminal e => (t, [], Err e)
  | BoundTo bound local_proof | Promoted bound local_proof _ =>
      if bool_decide (bound = peer_contribution) then (t, [], Ok (ExactDuplicate local_proof))
      else refuse t ConflictingPeerContribution
  | AwaitingPeerContribution =>
      if bool_decide (peer_contribution = local_contribution t) then refuse t ContributionNotFresh
      else if bool_decide (local_device_id (context t) = expected_remote_device_id (context t)) then refuse t NotMutual
      else
        let transcript := transcript_for_context (context t) (local_role (context t)) (local_contribution t) peer_contribution in
        let local_proof := sign_with (signer t) transcript in
        (mkTask (incarnation t) (retired t) (context t) (signer t) (local_contribution t) (handoff t)
           (BoundTo peer_contribution local_proof),
         [Signed (signer t) transcript], Ok (FirstBinding local_proof))
  end.

Definition accept_peer_proof (t : EndpointAuthTask) (peer_signature : string)
    : EndpointAuthTask * list auth_effect * result EndpointAuthError PeerProofAcceptance :=
  match state t with
  | Terminal e => (t, [], Err e)
  | Promoted _ _ _ => (t, [], Ok AlreadyPromoted)
  | AwaitingPeerContribution => refuse t NoBoundTranscript
  | BoundTo peer_contribution local_proof =>
      let peer_transcript :=
        transcript_for_context (context t) (role_peer (local_role (context t))) (local_contribution t) peer_contribution in
      match verify (expected_remote_device_id (context t)) peer_transcript peer_signature with
      | Ok true =>
          let taken := mkTask (incarnation t) (retired t) (context t) (signer t) (local_contribution t) None (state t) in
          match handoff t with
          | None => refuse taken ChannelNotCurrent
          | Some h =>
              match ho_capability h with
              | None => refuse taken ChannelNotCurrent
              | Some c =>
                  let record := record_from_verified_exchange (context t) peer_transcript (ho_incarnation h) (ch_runtime c) in
                  (mkTask (incarnation t) (retired t) (context t) (signer t) (local_contribution t) None
                     (Promoted peer_contribution local_proof (mkIssued (ab_transcript_digest record) (ab_runtime record))),
                   [], Ok (PromotedTo (mkAuthenticated record h)))
              end
          end
      | _ => refuse t SignatureInvalid
      end
  end.
End task.

(** ** The framing can be read back *)
Definition framed (field : string) : bytes := decimal (length (str field)) ++ [colon] ++ str field.

Lemma decimal_inj m n : decimal m = decimal n → m = n.
Proof.
  unfold decimal. intros H%(inj str)%(f_equal NilEmpty.uint_of_string). rewrite !NilEmpty.usu in H. injection H as H.
  apply (f_equal N.of_uint) in H. rewrite !DecimalN.Unsigned.of_to in H. lia.
Qed.

Lemma decimal_no_colon n : colon ∉ decimal n.
Proof.
  unfold decimal. induction (N.to_uint (N.of_nat n)); cbn; [by intros ?%elem_of_nil|..];
    intros [Hc|Hin]%elem_of_cons; done.
Qed.

Lemma split_at {A} (c : A) l k r s : c ∉ l → c ∉ k → l ++ c :: r = k ++ c :: s → l = k ∧ r = s.
Proof.
  revert k. induction l as [|x l IH]; intros [|y k] Hl Hk H; cbn in H; rewrite ?not_elem_of_cons in *.
  - by injection H as ->.
  - injection H as -> _. by destruct Hk.
  - injection H as <- _. by destruct Hl.
  - injection H as -> H. destruct (IH k) as [-> ->]; naive_solver.
Qed.

#[export] Instance prefix_framed : Prefix (λ _, True) framed.
Proof.
  intros a b r s _ _ H. unfold framed in H. rewrite <- !app_assoc in H. cbn [app] in H.
  apply split_at in H as [Hl H]; [|apply decimal_no_colon..]. apply decimal_inj in Hl.
  apply app_inj_1 in H as [H ->]; [|done]. split; [by apply (inj str)|done].
Qed.

Lemma foldl_push_field fields out : foldl push_field out fields = out ++ concat (framed <$> fields).
Proof.
  revert out. induction fields as [|f fields IH]; intros out; cbn; [by rewrite app_nil_r|]. rewrite IH. unfold push_field, framed.
  by rewrite <- !app_assoc.
Qed.

Lemma push_fields_inj tag l k : length l = length k → foldl push_field tag l = foldl push_field tag k → l = k.
Proof.
  intros Hlen H. rewrite !foldl_push_field in H. apply app_inv_head in H.
  destruct (prefix_concat (λ _, True) framed l k [] []) as [? _]; try done; [by apply Forall_true..|]. by rewrite !app_nil_r.
Qed.

Lemma role_of_swap a b : a ≠ b → role_of b a = role_peer (role_of a b).
Proof.
  intros Hne. unfold role_of. rewrite (cmpspec_antisym a b). destruct (String.compare a b) eqn:Hc; try done.
  by apply (cmpspec_eq (cmp := String.compare)) in Hc.
Qed.

(** What a context built by [context_new] satisfies. *)
Definition context_wf (c : EndpointAuthContext) : Prop := local_role c = role_of (local_device_id c) (expected_remote_device_id c).

Lemma context_new_wf mesh local remote b c : context_new mesh local remote b = Ok c → context_wf c.
Proof. unfold context_new. destruct (_ || _); [done|]. by intros [= <-]. Qed.

(** The other endpoint's view of the same exchange. *)
Definition mirrored (c : EndpointAuthContext) (d : EndpointAuthContext) : Prop :=
  mesh_context d = mesh_context c ∧ profile d = profile c ∧ local_device_id d = expected_remote_device_id c ∧
  expected_remote_device_id d = local_device_id c ∧ local_component (binding d) = remote_component (binding c) ∧
  remote_component (binding d) = local_component (binding c).

Lemma role_tag_text_inj r s : role_tag_text r = role_tag_text s → r = s.
Proof. by destruct r, s. Qed.

(** The transcript one side checks is the one the other side signs only if they
    see the same exchange from opposite ends. *)
Lemma transcript_mirrored c d lc pc ld pd :
  context_wf c → context_wf d →
  transcript_for_context c (role_peer (local_role c)) lc pc = transcript_for_context d (local_role d) ld pd →
  mirrored c d ∧ ld = pc ∧ pd = lc.
Proof.
  unfold context_wf, transcript_for_context, transcript_bytes. intros Hc Hd H. rewrite <- Hc, <- Hd in H.
  destruct (local_role c) eqn:Rc, (local_role d) eqn:Rd; cbn [role_peer] in H;
    apply push_fields_inj in H; try done; injection H; intros; subst; try done; unfold mirrored; split_and!; try done; by destruct (profile c), (profile d).
Qed.

Lemma transcript_agrees c d lc pc :
  context_wf c → context_wf d → mirrored c d → local_device_id c ≠ expected_remote_device_id c →
  local_role d = role_peer (local_role c) ∧
  transcript_for_context d (local_role d) pc lc = transcript_for_context c (role_peer (local_role c)) lc pc.
Proof.
  unfold context_wf. intros Hc Hd (Hm & Hp & Hl & Hr & Hf & Hg) Hne.
  assert (Hrole : local_role d = role_peer (local_role c)) by (rewrite Hd, Hc, Hl, Hr; by apply role_of_swap).
  split; [done|]. unfold transcript_for_context, transcript_bytes. rewrite <- Hc, <- Hd, Hrole, Hm, Hp, Hl, Hr, Hf, Hg.
  by destruct (local_role c).
Qed.

(** A transcript is longer than any fact identity, so a signed fact is no proof. *)
Lemma transcript_length c r l p : 32 < length (transcript_for_context c r l p).
Proof.
  unfold transcript_for_context, transcript_bytes. destruct (role_of _ _); rewrite foldl_push_field, length_app;
    change (length (str ENDPOINT_AUTH_DOMAIN_TAG)) with 27;
    unfold framed; cbn [fmap list_fmap concat]; rewrite !length_app; cbn [length]; lia.
Qed.
