(* ===== verification/EndpointWorld.v ===== *)
(** * Endpoint authentication between tasks

    The tasks of EndpointAuth.v of any number of devices, driven by an adversary
    that delivers whatever contributions and proofs it likes and owns every key
    but the honest ones.  A verifying signature under an honest key was made by
    that key; honest keys also sign facts and messages outside the domain of
    endpoint authentication.  A promoted task agrees with the one task of its peer
    on the whole exchange, and no channel is lost or issued twice. *)

From S2P Require Import Prelude Ranking Bytes DeviceId Identity EndpointAuth.
Local Open Scope nat_scope.

Section world.
Context {crypto : Crypto} {laws : CryptoLaws} (honest : SigningKey → Prop).

(** [bindings] records the contribution each task bound first. *)
Record World : Type := mkWorld {
  tasks : gmap nat EndpointAuthTask;
  signatures : list (SigningKey * bytes);
  bindings : gmap nat string;
  capabilities : list (nat * AuthenticatedChannelCapability);
  returned : list Channel;
  channels : list Channel;
}.

Definition world_start : World := mkWorld ∅ [] ∅ [] [] [].

Definition signed_in (out : list auth_effect) : list (SigningKey * bytes) :=
  omap (λ e, match e with Signed k m => Some (k, m) | Retained _ => None end) out.
Definition retained_in (out : list auth_effect) : list Channel :=
  omap (λ e, match e with Retained c => Some c | Signed _ _ => None end) out.

Definition after_hello (w : World) (i : nat) (t : EndpointAuthTask) (value : string) : World :=
  let '(t', out, answer) := accept_peer_hello t value in
  mkWorld (<[i := t']> (tasks w)) (signatures w ++ signed_in out)
    (match answer with Ok (FirstBinding _) => <[i := value]> (bindings w) | _ => bindings w end)
    (capabilities w) (returned w ++ retained_in out) (channels w).

Definition after_proof (w : World) (i : nat) (t : EndpointAuthTask) (signature : string) : World :=
  let '(t', out, answer) := accept_peer_proof t signature in
  mkWorld (<[i := t']> (tasks w)) (signatures w ++ signed_in out) (bindings w)
    (capabilities w ++ match answer with Ok (PromotedTo a) => [(i, a)] | _ => [] end)
    (returned w ++ retained_in out) (channels w).

Definition after_retire (w : World) (i : nat) (t : EndpointAuthTask) : World :=
  let '(t', out) := retire t in
  mkWorld (<[i := t']> (tasks w)) (signatures w ++ signed_in out) (bindings w) (capabilities w)
    (returned w ++ retained_in out) (channels w).

Definition with_signature (w : World) (key : SigningKey) (message : bytes) : World :=
  mkWorld (tasks w) (signatures w ++ [(key, message)]) (bindings w) (capabilities w) (returned w) (channels w).

Definition bound_to (s : ExchangeState) : option string :=
  match s with BoundTo pc _ | Promoted pc _ _ => Some pc | _ => None end.

(** The transcript a task signs for a peer contribution, and the one it checks. *)
Definition own_transcript (t : EndpointAuthTask) (pc : string) : bytes :=
  transcript_for_context (context t) (local_role (context t)) (local_contribution t) pc.
Definition peer_transcript (t : EndpointAuthTask) (pc : string) : bytes :=
  transcript_for_context (context t) (role_peer (local_role (context t))) (local_contribution t) pc.

(** The proof step: a signature that the task accepts under an honest key was made by
    that key. *)
Inductive world_step : World → World → Prop :=
| world_begin w i mesh local remote b c channel inc key draw :
    tasks w !! i = None → bindings w !! i = None → context_new mesh local remote b = Ok c → channel ∉ channels w →
    length draw = CONTRIBUTION_BYTES → (∀ j t, tasks w !! j = Some t → local_contribution t ≠ contribution_spelling draw) →
    world_step w (mkWorld (<[i := task_begin c (mkHandoff (Some channel) inc) key draw]> (tasks w)) (signatures w) (bindings w)
                    (capabilities w) (returned w) (channels w ++ [channel]))
| world_hello w i t wire value :
    tasks w !! i = Some t → from_wire wire = Ok value → world_step w (after_hello w i t value)
| world_proof w i t signature :
    tasks w !! i = Some t →
    (∀ key pc, honest key → accepted_form (trim (expected_remote_device_id (context t))) (public_key key) →
       bound_to (state t) = Some pc → verify (expected_remote_device_id (context t)) (peer_transcript t pc) signature = Ok true →
       (key, peer_transcript t pc) ∈ signatures w) →
    world_step w (after_proof w i t signature)
| world_retire w i t : tasks w !! i = Some t → world_step w (after_retire w i t)
| world_fact w key id : world_step w (with_signature w key (b32 id))
| world_other w key message :
    ¬ str ENDPOINT_AUTH_DOMAIN_TAG `prefix_of` message → world_step w (with_signature w key message).

Definition world_reachable (w : World) : Prop := rtc world_step world_start w.

(** The channel a task still holds. *)
Definition channel_of (t : EndpointAuthTask) : list Channel := match handoff t with Some h => handoff_drop h | None => [] end.
Definition held (m : gmap nat EndpointAuthTask) : list Channel := mjoin ((λ p, channel_of p.2) <$> map_to_list m).
Definition issued_channels (w : World) : list Channel := mjoin ((λ p, handoff_drop (ac_handoff p.2)) <$> capabilities w).

(** ** One task *)
Record task_wf (t : EndpointAuthTask) : Prop := {
  tw_context : context_wf (context t);
  tw_retired : retired t = true ↔ ∃ e, state t = Terminal e;
  tw_handoff : match state t with
               | AwaitingPeerContribution | BoundTo _ _ =>
                   ∃ c, handoff t = Some (mkHandoff (Some c) (incarnation t))
               | _ => handoff t = None
               end;
  tw_bound : ∀ pc, bound_to (state t) = Some pc →
    local_device_id (context t) ≠ expected_remote_device_id (context t) ∧ pc ≠ local_contribution t;
}.

(** What a call may not change. *)
Definition same_task (t t' : EndpointAuthTask) : Prop :=
  context t' = context t ∧ signer t' = signer t ∧ local_contribution t' = local_contribution t ∧ incarnation t' = incarnation t.

Lemma refuse_spec {A} t cause t' out (r : result EndpointAuthError A) :
  task_wf t → refuse t cause = (t', out, r) →
  task_wf t' ∧ same_task t t' ∧ signed_in out = [] ∧ retained_in out = channel_of t ∧ channel_of t' = [] ∧
  (∃ e, r = Err e ∧ state t' = Terminal e) ∧ bound_to (state t') = None.
Proof.
  intros [Hc Hr Hh Hb]. unfold refuse, terminalize, channel_of.
  destruct (state t) as [|pc lp|e|pc lp i] eqn:Hs; intros [= <- <- <-]; cbn in *; unfold retained_of, channel_of.
  all: first [rewrite Hh|destruct Hh as [c Hh]; rewrite Hh]; split_and!; try done; [|by eexists].
  all: split; cbn; try done; split; [by eexists|done].
Qed.

Lemma hello_spec t value t' out r :
  task_wf t → accept_peer_hello t value = (t', out, r) →
  task_wf t' ∧ same_task t t' ∧ channel_of t = retained_in out ++ channel_of t' ∧
  ((∃ lp, r = Ok (FirstBinding lp)) ∧ state t = AwaitingPeerContribution ∧ bound_to (state t') = Some value ∧
     signed_in out = [(signer t, own_transcript t value)] ∨
   (∀ lp, r ≠ Ok (FirstBinding lp)) ∧ signed_in out = [] ∧ (t' = t ∨ ∃ e, state t' = Terminal e)).
Proof.
  intros Hwf. assert (Href : ∀ cause, refuse t cause = (t', out, r) →
    task_wf t' ∧ same_task t t' ∧ channel_of t = retained_in out ++ channel_of t' ∧
    ((∃ lp, r = Ok (FirstBinding lp)) ∧ state t = AwaitingPeerContribution ∧ bound_to (state t') = Some value ∧
       signed_in out = [(signer t, own_transcript t value)] ∨
     (∀ lp, r ≠ Ok (FirstBinding lp)) ∧ signed_in out = [] ∧ (t' = t ∨ ∃ e, state t' = Terminal e))).
  { intros cause (? & ? & ? & -> & -> & (e & -> & ?) & _)%refuse_spec; [|done]. rewrite app_nil_r. split_and!; try done. right. eauto. }
  unfold accept_peer_hello. destruct (state t) as [|pc lp|e|pc lp i] eqn:Hs.
  - case_bool_decide as Hfr; [by apply Href|]. case_bool_decide as Hmut; [by apply Href|]. intros [= <- <- <-].
    destruct Hwf as [Hc Hr Hh Hb]. rewrite Hs in *. split_and!; try done; [|left; by eauto]. split; cbn; try done.
    + split; [intros Hx; apply Hr in Hx as [??]; done|by intros [??]].
    + intros pc [= <-]. done.
  - case_bool_decide; [|by apply Href]. intros [= <- <- <-]. split_and!; try done. right. eauto.
  - intros [= <- <- <-]. split_and!; try done. right. eauto.
  - case_bool_decide; [|by apply Href]. intros [= <- <- <-]. split_and!; try done. right. eauto.
Qed.

Lemma issued_iff t a a' pc lp :
  state t = Promoted pc lp (mkIssued (ab_transcript_digest (ac_record a)) (ab_runtime (ac_record a))) →
  ab_mesh_context (ac_record a) = mesh_context (context t) → ab_local_device_id (ac_record a) = local_device_id (context t) →
  ab_remote_device_id (ac_record a) = expected_remote_device_id (context t) → ab_local_role (ac_record a) = local_role (context t) →
  ab_connector (ac_record a) = incarnation t → issued t a' = true ↔ ac_record a' = ac_record a.
Proof.
  intros Hs H1 H2 H3 H4 H5. unfold issued, authenticated_for, context_matches. rewrite Hs. cbn [is_transcript_digest is_runtime].
  rewrite !andb_true_iff, !bool_decide_eq_true, !Nat.eqb_eq. destruct (ac_record a'), (ac_record a). cbn in *. split; [|naive_solver congruence].
  intros; destruct_and!; congruence.
Qed.

Lemma proof_spec t signature t' out r :
  task_wf t → accept_peer_proof t signature = (t', out, r) →
  task_wf t' ∧ same_task t t' ∧ signed_in out = [] ∧
  ((∃ a pc, r = Ok (PromotedTo a) ∧ bound_to (state t) = Some pc ∧
      verify (expected_remote_device_id (context t)) (peer_transcript t pc) signature = Ok true ∧
      channel_of t = handoff_drop (ac_handoff a) ∧ retained_in out = [] ∧ channel_of t' = [] ∧
      bound_to (state t') = Some pc ∧ (∃ lp, state t = BoundTo pc lp) ∧ ∀ a', issued t' a' = true ↔ ac_record a' = ac_record a) ∨
   (∀ a, r ≠ Ok (PromotedTo a)) ∧ channel_of t = retained_in out ++ channel_of t' ∧ (t' = t ∨ ∃ e, state t' = Terminal e)).
Proof.
  intros Hwf. assert (Href : ∀ cause, refuse t cause = (t', out, r) →
    task_wf t' ∧ same_task t t' ∧ signed_in out = [] ∧ (∀ a, r ≠ Ok (PromotedTo a)) ∧
    channel_of t = retained_in out ++ channel_of t' ∧ (t' = t ∨ ∃ e, state t' = Terminal e)).
  { intros cause (? & ? & ? & -> & -> & (e & -> & ?) & _)%refuse_spec; [|done]. rewrite app_nil_r. split_and!; try done. eauto. }
  unfold accept_peer_proof. destruct (state t) as [|pc lp|e|pc lp i] eqn:Hs.
  - intros (? & ? & ? & ?)%Href. split_and!; try done. by right.
  - fold (peer_transcript t pc). pose proof (tw_handoff t Hwf) as Hh. rewrite Hs in Hh. destruct Hh as [c Hh].
    destruct (verify _ _ _) as [[]|] eqn:Hv; [|intros (? & ? & ? & ?)%Href; split_and!; try done; by right..].
    rewrite Hh. cbn [ho_capability ho_incarnation]. intros [= <- <- <-]. destruct Hwf as [Hc Hr _ Hb]. rewrite Hs in *.
    split_and!; try done.
    + split; cbn; try done. split; [intros Hx; apply Hr in Hx as [??]; done|by intros [??]].
    + left. do 2 eexists. split_and!; try done; [|by eexists|].
      * unfold channel_of. by rewrite Hh.
      * intros a'. by eapply issued_iff.
  - intros [= <- <- <-]. split_and!; try done. right. eauto.
  - intros [= <- <- <-]. split_and!; try done. right. eauto.
Qed.

(** ** The invariant of the world *)
Record promoted_once (w : World) (i : nat) (a : AuthenticatedChannelCapability) (t : EndpointAuthTask) : Prop := {
  po_spent : handoff t = None;
  po_issued : (∃ e, state t = Terminal e) ∨ ∀ a', issued t a' = true ↔ ac_record a' = ac_record a;
  po_verified : ∃ pc, bindings w !! i = Some pc ∧
    ∀ key, honest key → accepted_form (trim (expected_remote_device_id (context t))) (public_key key) →
      (key, peer_transcript t pc) ∈ signatures w;
}.

Definition by_task (w : World) (key : SigningKey) (m : bytes) : Prop :=
  ∃ j u pc, tasks w !! j = Some u ∧ signer u = key ∧ bindings w !! j = Some pc ∧ m = own_transcript u pc.

Record world_wf (w : World) : Prop := {
  ww_tasks : ∀ i t, tasks w !! i = Some t → task_wf t;
  ww_fresh : ∀ i j t u, tasks w !! i = Some t → tasks w !! j = Some u → local_contribution t = local_contribution u → i = j;
  ww_bound : ∀ i t pc, tasks w !! i = Some t → bound_to (state t) = Some pc → bindings w !! i = Some pc;
  ww_awaiting : ∀ i t, tasks w !! i = Some t → state t = AwaitingPeerContribution → bindings w !! i = None;
  ww_signed : ∀ key m, (key, m) ∈ signatures w →
    by_task w key m ∨ length m = 32 ∨ ¬ str ENDPOINT_AUTH_DOMAIN_TAG `prefix_of` m;
  ww_issued : ∀ i a, (i, a) ∈ capabilities w → ∃ t, tasks w !! i = Some t ∧ promoted_once w i a t;
  ww_once : NoDup (capabilities w).*1;
  ww_custody : channels w ≡ₚ returned w ++ held (tasks w) ++ issued_channels w;
  ww_channels : NoDup (channels w);
}.

Lemma held_lookup m i t : m !! i = Some t → held m ≡ₚ channel_of t ++ held (delete i m).
Proof.
  intros Hi. unfold held. by rewrite <- (map_to_list_delete m i t Hi).
Qed.

Lemma held_insert m i t : held (<[i := t]> m) ≡ₚ channel_of t ++ held (delete i m).
Proof. rewrite (held_lookup _ i t) by apply lookup_insert_eq. by rewrite delete_insert_eq. Qed.

(** What a call on one task may do to the world. *)
Record call_ok (w : World) (i : nat) (t t' : EndpointAuthTask) (sigs : list (SigningKey * bytes)) (b : gmap nat string)
    (caps : list (nat * AuthenticatedChannelCapability)) (rets : list Channel) : Prop := {
  co_wf : task_wf t';
  co_same : same_task t t';
  co_bindings : ∀ j pc, bindings w !! j = Some pc → b !! j = Some pc;
  co_others : ∀ j, j ≠ i → b !! j = bindings w !! j;
  co_bound : ∀ pc, bound_to (state t') = Some pc → b !! i = Some pc;
  co_awaiting : state t' = AwaitingPeerContribution → b !! i = None;
  co_sigs : ∀ key m, (key, m) ∈ sigs → ∃ pc, b !! i = Some pc ∧ key = signer t ∧ m = own_transcript t pc;
  co_spent : handoff t = None → handoff t' = None ∧ caps = [] ∧ (t' = t ∨ ∃ e, state t' = Terminal e);
  co_caps : caps = [] ∨ ∃ a, caps = [(i, a)] ∧ handoff t' = None ∧ (∀ a', issued t' a' = true ↔ ac_record a' = ac_record a) ∧
    ∃ pc, b !! i = Some pc ∧ ∀ key, honest key →
      accepted_form (trim (expected_remote_device_id (context t))) (public_key key) → (key, peer_transcript t pc) ∈ signatures w;
  co_custody : channel_of t ≡ₚ rets ++ channel_of t' ++ mjoin ((λ p, handoff_drop (ac_handoff p.2)) <$> caps);
}.

Lemma peer_transcript_same t t' pc : same_task t t' → peer_transcript t' pc = peer_transcript t pc ∧ own_transcript t' pc = own_transcript t pc.
Proof. intros (Hc & _ & Hl & _). unfold peer_transcript, own_transcript. by rewrite Hc, Hl. Qed.

Lemma spent_unissued w i t a : world_wf w → tasks w !! i = Some t → (i, a) ∈ capabilities w → handoff t = None.
Proof. intros Hw Hi Ha. destruct (ww_issued w Hw i a Ha) as (t' & Hi' & Hp). rewrite Hi in Hi'. injection Hi' as <-. apply Hp. Qed.

Lemma call_issued w i t t' sigs b caps rets j a :
  world_wf w → tasks w !! i = Some t → call_ok w i t t' sigs b caps rets → (j, a) ∈ capabilities w ++ caps →
  ∃ u, <[i := t']> (tasks w) !! j = Some u ∧
    promoted_once (mkWorld (<[i := t']> (tasks w)) (signatures w ++ sigs) b (capabilities w ++ caps) (returned w ++ rets) (channels w)) j a u.
Proof.
  intros Hw Hi [] Hin. apply elem_of_app in Hin as [Hin|Hin].
  - destruct (ww_issued w Hw j a Hin) as (u & Hu & [Hsp His (pc & Hb & Hv)]). destruct (decide (j = i)) as [->|Hne].
    + rewrite Hi in Hu. injection Hu as <-. exists t'. rewrite lookup_insert_eq. split; [done|].
      destruct (co_spent0 Hsp) as (Hsp' & _ & Hst). split; [done|destruct Hst as [->|]; [done|by left]|].
      exists pc. split; [by apply co_bindings0|]. destruct (peer_transcript_same t t' pc co_same0) as [-> _].
      destruct co_same0 as (-> & _). cbn. intros key Hk Ha. apply elem_of_app. left. by apply Hv.
    + exists u. rewrite lookup_insert_ne by done. split; [done|]. split; [done..|]. exists pc. split; [by apply co_bindings0|].
      cbn. intros key Hk Ha. apply elem_of_app. left. by apply Hv.
  - destruct co_caps0 as [->|(a0 & -> & Hsp & His & pc & Hb & Hv)]; [by apply elem_of_nil in Hin|].
    apply list_elem_of_singleton in Hin as [= -> ->]. exists t'. rewrite lookup_insert_eq. split; [done|]. split; [done|by right|].
    exists pc. split; [done|]. destruct (peer_transcript_same t t' pc co_same0) as [-> _]. destruct co_same0 as (-> & _).
    cbn. intros key Hk Ha. apply elem_of_app. left. by apply Hv.
Qed.

Lemma call_signed w i t t' sigs b caps rets key m :
  world_wf w → tasks w !! i = Some t → call_ok w i t t' sigs b caps rets → (key, m) ∈ signatures w ++ sigs →
  by_task (mkWorld (<[i := t']> (tasks w)) (signatures w ++ sigs) b (capabilities w ++ caps) (returned w ++ rets) (channels w)) key m ∨
  length m = 32 ∨ ¬ str ENDPOINT_AUTH_DOMAIN_TAG `prefix_of` m.
Proof.
  intros Hw Hi [] [Hin|Hin]%elem_of_app.
  - destruct (ww_signed w Hw key m Hin) as [(j & u & pc & Hu & Hk & Hb & ->)|]; [left|by right]. destruct (decide (j = i)) as [->|Hne].
    + rewrite Hi in Hu. injection Hu as <-. exists i, t', pc. cbn. rewrite lookup_insert_eq.
      destruct (peer_transcript_same t t' pc co_same0) as [_ ->]. destruct co_same0 as (_ & -> & _). split_and!; try done. by apply co_bindings0.
    + exists j, u, pc. cbn. rewrite lookup_insert_ne by done. split_and!; try done. by apply co_bindings0.
  - destruct (co_sigs0 key m Hin) as (pc & Hb & -> & ->). left. exists i, t', pc. cbn. rewrite lookup_insert_eq.
    destruct (peer_transcript_same t t' pc co_same0) as [_ ->]. by destruct co_same0 as (_ & -> & _).
Qed.

Lemma call_wf w i t t' sigs b caps rets :
  world_wf w → tasks w !! i = Some t → call_ok w i t t' sigs b caps rets →
  world_wf (mkWorld (<[i := t']> (tasks w)) (signatures w ++ sigs) b (capabilities w ++ caps) (returned w ++ rets) (channels w)).
Proof.
  intros Hw Hi Hco. pose proof Hco as []. split; cbn.
  - intros j u [[-> <-]|[? ?]]%lookup_insert_Some; [done|by eapply ww_tasks].
  - assert (Hl : local_contribution t' = local_contribution t) by apply co_same0.
    intros j k u v [[<- <-]|[? Hj]]%lookup_insert_Some [[<- <-]|[? Hk]]%lookup_insert_Some He; [done|..];
      rewrite ?Hl in He; by eapply ww_fresh.
  - intros j u pc [[-> <-]|[Hne Hu]]%lookup_insert_Some Hp; [by apply co_bound0|]. rewrite co_others0 by done. by eapply ww_bound.
  - intros j u [[-> <-]|[Hne Hu]]%lookup_insert_Some Hp; [by apply co_awaiting0|]. rewrite co_others0 by done. by eapply ww_awaiting.
  - intros key m Hin. by eapply call_signed.
  - intros j a Hin. by eapply call_issued.
  - rewrite fmap_app. destruct co_caps0 as [->|(a & -> & _)]; [rewrite app_nil_r; apply Hw|]. cbn.
    apply NoDup_app. split_and!; [apply Hw| |apply NoDup_singleton]. intros j Hj ->%list_elem_of_singleton.
    apply list_elem_of_fmap in Hj as ([j a'] & -> & Hin). cbn in *. by destruct (co_spent0 (spent_unissued w j t a' Hw Hi Hin)) as (_ & ? & _).
  - rewrite (ww_custody w Hw), (held_lookup _ i t Hi), held_insert, co_custody0. unfold issued_channels. cbn.
    rewrite fmap_app, join_app, <- !app_assoc. do 2 f_equiv. f_equiv. solve_Permutation.
  - apply Hw.
Qed.

(** A call that changes nothing or ends the task. *)
Lemma quiet_call_ok w i t t' rets :
  world_wf w → tasks w !! i = Some t → task_wf t' → same_task t t' → channel_of t = rets ++ channel_of t' →
  (t' = t ∨ ∃ e, state t' = Terminal e) → call_ok w i t t' [] (bindings w) [] rets.
Proof.
  intros Hw Hi Hwf Hsame Hch Hst. split; try done.
  - intros pc Hp. destruct Hst as [->|[e He]]; [by eapply ww_bound|]. by rewrite He in Hp.
  - intros Ha. destruct Hst as [->|[e He]]; [by eapply ww_awaiting|congruence].
  - by intros key m ?%elem_of_nil.
  - intros Hn. split_and!; try done. destruct Hst as [->|[e He]]; [done|]. pose proof (tw_handoff t' Hwf) as Hh. by rewrite He in Hh.
  - by left.
  - cbn. by rewrite app_nil_r, Hch.
Qed.

Lemma hello_wf w i t value : world_wf w → tasks w !! i = Some t → world_wf (after_hello w i t value).
Proof.
  intros Hw Hi. unfold after_hello. destruct (accept_peer_hello t value) as [[t' out] r] eqn:Ha.
  apply hello_spec in Ha as (Hwf & Hsame & Hch & Hcase); [|by eapply ww_tasks].
  rewrite <- (app_nil_r (capabilities w)). destruct Hcase as [([lp ->] & Hst & Hb & ->)|(Hno & -> & Hst)].
  - apply call_wf with t; [done..|]. assert (Hnone : bindings w !! i = None) by by eapply ww_awaiting.
    assert (Hh : handoff t ≠ None).
    { pose proof (tw_handoff t (ww_tasks w Hw i t Hi)) as Hh. rewrite Hst in Hh. by destruct Hh as [? ->]. }
    split; try done.
    + intros j pc Hj. rewrite lookup_insert_ne; [done|]. intros ->. congruence.
    + intros j Hne. by rewrite lookup_insert_ne.
    + intros pc Hp. rewrite Hb in Hp. injection Hp as <-. apply lookup_insert_eq.
    + intros Ha. by rewrite Ha in Hb.
    + intros key m [= -> ->]%list_elem_of_singleton. exists value. by rewrite lookup_insert_eq.
    + by left.
    + cbn. by rewrite app_nil_r, Hch.
  - replace (match r with Ok (FirstBinding _) => <[i := value]> (bindings w) | _ => bindings w end) with (bindings w)
      by (destruct r as [[]|]; naive_solver).
    apply call_wf with t; [done..|]. by apply quiet_call_ok.
Qed.

Lemma proof_wf w i t signature :
  world_wf w → tasks w !! i = Some t →
  (∀ key pc, honest key → accepted_form (trim (expected_remote_device_id (context t))) (public_key key) →
     bound_to (state t) = Some pc → verify (expected_remote_device_id (context t)) (peer_transcript t pc) signature = Ok true →
     (key, peer_transcript t pc) ∈ signatures w) →
  world_wf (after_proof w i t signature).
Proof.
  intros Hw Hi Hun. unfold after_proof. destruct (accept_peer_proof t signature) as [[t' out] r] eqn:Ha.
  pose proof (ww_tasks w Hw i t Hi) as Hwt.
  apply proof_spec in Ha as (Hwf & Hsame & -> & [(a & pc & -> & Hb & Hv & Hch & -> & Hch' & Hb' & (lp & Hs) & His)|(Hno & Hch & Hst)]); [..|done].
  - apply call_wf with t; [done..|]. pose proof (ww_bound w Hw i t pc Hi Hb) as Hbw.
    assert (Hh : handoff t ≠ None) by (pose proof (tw_handoff t Hwt) as Hh; rewrite Hs in Hh; by destruct Hh as [? ->]).
    split; try done.
    + intros pc' Hp. congruence.
    + intros Haw. by rewrite Haw in Hb'.
    + by intros key m ?%elem_of_nil.
    + right. exists a. split_and!; try done.
      * pose proof (tw_handoff t' Hwf) as Hn. destruct (state t') eqn:He; try done; destruct Hn as [c Hn]; unfold channel_of in Hch'; by rewrite Hn in Hch'.
      * exists pc. split; [done|]. intros key Hk Hf. by apply Hun.
    + cbn. by rewrite Hch, Hch', app_nil_r.
  - replace (match r with Ok (PromotedTo a) => [(i, a)] | _ => [] end) with (@nil (nat * AuthenticatedChannelCapability))
      by (destruct r as [[]|]; naive_solver).
    apply call_wf with t; [done..|]. by apply quiet_call_ok.
Qed.

Lemma retire_wf w i t : world_wf w → tasks w !! i = Some t → world_wf (after_retire w i t).
Proof.
  intros Hw Hi. unfold after_retire, retire. destruct (terminalize t ChannelNotCurrent) as [[t' out] e] eqn:Ht.
  assert (Hr : @refuse _ unit t ChannelNotCurrent = (t', out, Err e)) by (unfold refuse; by rewrite Ht).
  apply refuse_spec in Hr as (? & ? & -> & -> & Hn & (e' & _ & Hs) & _); [|by eapply ww_tasks].
  rewrite <- (app_nil_r (capabilities w)). apply call_wf with t; [done..|]. apply quiet_call_ok; try done; [by rewrite Hn, app_nil_r|eauto].
Qed.

Lemma signature_wf w key m :
  world_wf w → length m = 32 ∨ ¬ str ENDPOINT_AUTH_DOMAIN_TAG `prefix_of` m → world_wf (with_signature w key m).
Proof.
  intros [] Hm. split; cbn; try done.
  - intros k m' [Hin|[= -> ->]%list_elem_of_singleton]%elem_of_app; [by apply ww_signed0|by right].
  - intros i a Hin. destruct (ww_issued0 i a Hin) as (t & Ht & [? ? (pc & ? & Hv)]). exists t. split; [done|]. split; [done..|].
    exists pc. split; [done|]. intros k Hk Ha. cbn. apply elem_of_app. left. by apply Hv.
Qed.

Lemma begin_wf w i c channel inc key draw :
  world_wf w → tasks w !! i = None → bindings w !! i = None → context_wf c → channel ∉ channels w →
  (∀ j t, tasks w !! j = Some t → local_contribution t ≠ contribution_spelling draw) →
  world_wf (mkWorld (<[i := task_begin c (mkHandoff (Some channel) inc) key draw]> (tasks w)) (signatures w) (bindings w)
              (capabilities w) (returned w) (channels w ++ [channel])).
Proof.
  intros [] Hi Hb Hc Hch Hfr. split; cbn; try done.
  - intros j u [[<- <-]|[? ?]]%lookup_insert_Some; [|by eapply ww_tasks0]. split; cbn; try done; [by split; [|intros [??]]|by eexists].
  - intros j k u v [[<- <-]|[? Hj]]%lookup_insert_Some [[<- <-]|[? Hk]]%lookup_insert_Some He; [done|..].
    + by destruct (Hfr k v).
    + by destruct (Hfr j u).
    + by eapply ww_fresh0.
  - intros j u pc [[<- <-]|[? ?]]%lookup_insert_Some Hp; [done|by eapply ww_bound0].
  - intros j u [[<- <-]|[? ?]]%lookup_insert_Some Hp; [done|by eapply ww_awaiting0].
  - intros k m Hin. destruct (ww_signed0 k m Hin) as [(j & u & pc & Hu & ?)|]; [left|by right]. exists j, u, pc. cbn.
    rewrite lookup_insert_ne by congruence. done.
  - intros j a Hin. destruct (ww_issued0 j a Hin) as (u & Hu & Hp). exists u. rewrite lookup_insert_ne by congruence. split; [done|].
    by destruct Hp.
  - rewrite held_insert, delete_id, ww_custody0 by done. unfold issued_channels. cbn. solve_Permutation.
  - apply NoDup_app. split_and!; [done| |apply NoDup_singleton]. intros x Hx ->%list_elem_of_singleton. done.
Qed.

Lemma world_start_wf : world_wf world_start.
Proof.
  split; try done; cbn; try (by intros ? ? ?%elem_of_nil); try apply NoDup_nil_2.
Qed.

Lemma reachable_wf w : world_reachable w → world_wf w.
Proof.
  intros Hr. assert (Hgen : ∀ v, world_wf v → rtc world_step v w → world_wf w); [|by apply (Hgen world_start); [apply world_start_wf|]].
  clear Hr. intros v Hv Hs. induction Hs as [|v1 v2 v3 Hstep _ IH]; [done|]. apply IH. destruct Hstep.
  - apply begin_wf; try done. by eapply context_new_wf.
  - by apply hello_wf.
  - by apply proof_wf.
  - by apply retire_wf.
  - apply signature_wf; [done|]. left. apply length_b32.
  - apply signature_wf; [done|]. by right.
Qed.

Lemma transcript_tagged c r l p : str ENDPOINT_AUTH_DOMAIN_TAG `prefix_of` transcript_for_context c r l p.
Proof.
  unfold transcript_for_context, transcript_bytes. destruct (role_of _ _); rewrite foldl_push_field; by eexists.
Qed.

(** C5: Agreement: whatever an adversary delivers, when a task has issued an authenticated
    channel and the key its peer's identifier names is honest, there is exactly one
    task of that key that drew the contribution this task bound; it signed for the
    same mesh and profile, the same pair of devices in opposite roles and the same
    pair of certificate fingerprints, and bound this task's contribution in turn. *)
Theorem promoted_tasks_agree w i a t key :
  world_reachable w → (i, a) ∈ capabilities w → tasks w !! i = Some t →
  honest key → accepted_form (trim (expected_remote_device_id (context t))) (public_key key) →
  ∃ j u, tasks w !! j = Some u ∧ signer u = key ∧ mirrored (context t) (context u) ∧
    bindings w !! i = Some (local_contribution u) ∧ bindings w !! j = Some (local_contribution t) ∧
    ∀ k v, tasks w !! k = Some v → bindings w !! i = Some (local_contribution v) → k = j.
Proof.
  intros Hw%reachable_wf Ha Hi Hk Hf. destruct (ww_issued w Hw i a Ha) as (t' & Hi' & [_ _ (pc & Hb & Hv)]).
  rewrite Hi in Hi'. injection Hi' as <-. specialize (Hv key Hk Hf).
  destruct (ww_signed w Hw _ _ Hv) as [(j & u & pd & Hu & Hs & Hbj & Heq)|[Hlen|Hno]].
  - apply transcript_mirrored in Heq as (Hm & <- & ->); [|by eapply ww_tasks..].
    exists j, u. split_and!; try done. intros k v Hkv Hbv. apply (ww_fresh w Hw k j v u); try done. congruence.
  - pose proof (transcript_length (context t) (role_peer (local_role (context t))) (local_contribution t) pc) as Hl.
    unfold peer_transcript in Hlen. lia.
  - destruct Hno. apply transcript_tagged.
Qed.

(** Custody: every channel handed to a task is at any time in exactly one place, held by
    its task, inside the capability the task issued, or back with the connector; a
    task issues at most one capability, while it is not retired it vouches for
    exactly the record it issued, and a retired task for none. *)
Theorem channels_are_issued_once w :
  world_reachable w →
  NoDup (channels w) ∧ channels w ≡ₚ returned w ++ held (tasks w) ++ issued_channels w ∧ NoDup (capabilities w).*1 ∧
  ∀ i t, tasks w !! i = Some t →
    (is_retired t = true → channel_of t = [] ∧ ∀ a, issued t a = false) ∧
    ∀ a, (i, a) ∈ capabilities w → is_retired t = false → ∀ a', issued t a' = true ↔ ac_record a' = ac_record a.
Proof.
  intros Hw%reachable_wf. split_and!; [apply Hw..|]. intros i t Hi. pose proof (ww_tasks w Hw i t Hi) as Ht. split.
  - intros [e He]%(tw_retired t Ht). pose proof (tw_handoff t Ht) as Hh. unfold channel_of, issued. rewrite He in *. by rewrite Hh.
  - intros a Ha Hr. destruct (ww_issued w Hw i a Ha) as (t' & Hi' & [_ [Hterm|His] _]); rewrite Hi in Hi'; injection Hi' as <-; [|done].
    apply (tw_retired t Ht) in Hterm. unfold is_retired in Hr. congruence.
Qed.

(** C40: An error is the end of the attempt: whenever a call on a reachable task answers an
    error, the task is terminal with that cause, holds no channel, belongs to no
    connector, vouches for nothing, and answers every later call with the same
    cause. *)
Theorem errors_end_the_task w i t t' out e value signature :
  world_reachable w → tasks w !! i = Some t →
  accept_peer_hello t value = (t', out, Err e) ∨ accept_peer_proof t signature = (t', out, Err e) →
  is_retired t' = true ∧ channel_of t' = [] ∧ (∀ n, task_belongs_to t' n = false) ∧ (∀ a, issued t' a = false) ∧
  (∀ value', accept_peer_hello t' value' = (t', [], Err e)) ∧ ∀ signature', accept_peer_proof t' signature' = (t', [], Err e).
Proof.
  intros Hw%reachable_wf Hi H. pose proof (ww_tasks w Hw i t Hi) as Ht.
  assert (state t' = Terminal e ∧ task_wf t') as [Hs Ht'].
  { assert (Href : ∀ A cause, @refuse _ A t cause = (t', out, Err e) → state t' = Terminal e ∧ task_wf t').
    { intros A cause (? & _ & _ & _ & _ & (e' & [= <-] & ?) & _)%refuse_spec; done. }
    destruct H as [H|H]; [unfold accept_peer_hello in H|unfold accept_peer_proof in H; pose proof (tw_handoff t Ht) as Hh];
      destruct (state t) eqn:Hst; repeat case_bool_decide; try exact (Href _ _ H); try done.
    all: try by injection H as <- <- <-.
    destruct Hh as [c Hh]. rewrite Hh in H. cbn in H. by destruct (verify _ _ _) as [[]|]; try exact (Href _ _ H). }
  assert (Hr : retired t' = true) by (apply (tw_retired t' Ht'); by eexists).
  pose proof (tw_handoff t' Ht') as Hh. unfold channel_of, task_belongs_to, is_retired, issued, accept_peer_hello, accept_peer_proof.
  rewrite Hs in *. by rewrite Hh, Hr.
Qed.

(** The two successful calls. *)
Definition bound_task (t : EndpointAuthTask) (pc : string) : EndpointAuthTask :=
  mkTask (incarnation t) (retired t) (context t) (signer t) (local_contribution t) (handoff t)
    (BoundTo pc (sign_with (signer t) (own_transcript t pc))).

Lemma first_hello t value :
  state t = AwaitingPeerContribution → value ≠ local_contribution t →
  local_device_id (context t) ≠ expected_remote_device_id (context t) →
  accept_peer_hello t value =
    (bound_task t value, [Signed (signer t) (own_transcript t value)], Ok (FirstBinding (sign_with (signer t) (own_transcript t value)))).
Proof. intros Hs Hv Hm. unfold accept_peer_hello. rewrite Hs. by rewrite !bool_decide_eq_false_2 by congruence. Qed.

Lemma good_proof t pc lp signature channel inc :
  state t = BoundTo pc lp → handoff t = Some (mkHandoff (Some channel) inc) →
  verify (expected_remote_device_id (context t)) (peer_transcript t pc) signature = Ok true →
  ∃ t' a, accept_peer_proof t signature = (t', [], Ok (PromotedTo a)) ∧ ac_handoff a = mkHandoff (Some channel) inc ∧
    authenticated_for a (mesh_context (context t)) (expected_remote_device_id (context t)) = true.
Proof.
  intros Hs Hh Hv. unfold accept_peer_proof. rewrite Hs, Hh. fold (peer_transcript t pc). rewrite Hv. cbn. do 2 eexists.
  split; [done|]. split; [done|]. unfold authenticated_for. cbn. by rewrite !bool_decide_eq_true_2.
Qed.

Lemma own_contribution_parses draw :
  length draw = CONTRIBUTION_BYTES → from_wire (contribution_spelling draw) = Ok (contribution_spelling draw).
Proof.
  intros Hl. unfold from_wire, contribution_spelling. case_bool_decide as He.
  { pose proof (law_encode_length draw Hl) as Hn. apply (f_equal String.length) in He. unfold to_lowercase in He.
    rewrite length_string_map in He. cbn in He. lia. }
  rewrite (ascii_uppercase_canonical base32_encode law_encode_alphabet), law_decode_encode, Hl. cbn. by rewrite bool_decide_eq_false_2 by auto.
Qed.

(** Completeness: two tasks whose contexts mirror each other, under the keys their
    identifiers name and with distinct draws, accept each other's contribution from
    the wire and then each other's proof: both issue an authenticated channel for
    the other device over their own channel. *)
Theorem mirrored_tasks_promote mesh a b fa fb c d ha hb ka kb da db :
  context_new mesh a b (mkBinding fa fb) = Ok c → context_new mesh b a (mkBinding fb fa) = Ok d → a ≠ b →
  accepted_form (trim a) (public_key ka) → accepted_form (trim b) (public_key kb) →
  length da = CONTRIBUTION_BYTES → length db = CONTRIBUTION_BYTES → contribution_spelling da ≠ contribution_spelling db →
  is_Some (ho_capability ha) → is_Some (ho_capability hb) →
  let t := task_begin c ha ka da in let u := task_begin d hb kb db in
  ∃ t1 o1 pt t2 ca u1 o2 pu u2 cb,
    from_wire (local_contribution u) = Ok (local_contribution u) ∧ from_wire (local_contribution t) = Ok (local_contribution t) ∧
    accept_peer_hello t (local_contribution u) = (t1, o1, Ok (FirstBinding pt)) ∧
    accept_peer_hello u (local_contribution t) = (u1, o2, Ok (FirstBinding pu)) ∧
    accept_peer_proof t1 pu = (t2, [], Ok (PromotedTo ca)) ∧ accept_peer_proof u1 pt = (u2, [], Ok (PromotedTo cb)) ∧
    authenticated_for ca mesh b = true ∧ authenticated_for cb mesh a = true ∧ ac_handoff ca = ha ∧ ac_handoff cb = hb.
Proof.
  intros Hc Hd Hne Hka Hkb Hda Hdb Hdraw [cha Hha] [chb Hhb] t u. destruct ha as [ha ia], hb as [hb ib]. cbn in Hha, Hhb. subst ha hb.
  pose proof (context_new_wf _ _ _ _ _ Hc) as Wc. pose proof (context_new_wf _ _ _ _ _ Hd) as Wd.
  unfold context_new in Hc, Hd. destruct (_ || _); [done|]. destruct (_ || _) in Hd; [done|]. injection Hc as Hc. injection Hd as Hd.
  destruct (transcript_agrees c d (contribution_spelling da) (contribution_spelling db) Wc Wd) as [_ H1]; [by subst c d|by subst c|].
  destruct (transcript_agrees d c (contribution_spelling db) (contribution_spelling da) Wd Wc) as [_ H2]; [by subst c d|by subst d|].
  destruct (good_proof (bound_task t (contribution_spelling db)) _ _ (sign_with kb (own_transcript u (contribution_spelling da))) cha ia
    eq_refl eq_refl) as (t2 & ca & Ht2 & Hca & Hau); [unfold peer_transcript; cbn; rewrite <- H1; subst c; by apply verify_signed_form|].
  destruct (good_proof (bound_task u (contribution_spelling da)) _ _ (sign_with ka (own_transcript t (contribution_spelling db))) chb ib
    eq_refl eq_refl) as (u2 & cb & Hu2 & Hcb & Hbu); [unfold peer_transcript; cbn; rewrite <- H2; subst d; by apply verify_signed_form|].
  do 10 eexists. split; [by apply own_contribution_parses|]. split; [by apply own_contribution_parses|].
  split; [apply first_hello; [done|cbn; congruence|by subst c]|]. split; [apply first_hello; [done|cbn; congruence|subst d; cbn; congruence]|].
  split; [exact Ht2|]. split; [exact Hu2|]. subst c d. done.
Qed.
End world.

(** ** Two honest devices *)
Definition demo_ka : @SigningKey demo_crypto := demo_key32.
Definition demo_kb : @SigningKey demo_crypto := demo_sha256 (str "peer key").
Definition demo_a : string := Eval vm_compute in spell (public_key demo_ka).
Definition demo_b : string := Eval vm_compute in spell (public_key demo_kb).
Definition demo_binding : EndpointAuthBinding := mkBinding "fp-of-a" "fp-of-b".
Definition demo_binding' : EndpointAuthBinding := mkBinding "fp-of-b" "fp-of-a".
Definition demo_context : EndpointAuthContext := mkContext "mesh-1" demo_a demo_b V1Ed25519Dtls demo_binding (role_of demo_a demo_b).
Definition demo_context' : EndpointAuthContext := mkContext "mesh-1" demo_b demo_a V1Ed25519Dtls demo_binding' (role_of demo_b demo_a).
Definition demo_draw : bytes := b32 (demo_sha256 (str "draw-a")).
Definition demo_draw' : bytes := b32 (demo_sha256 (str "draw-b")).

Definition demo_t : EndpointAuthTask := task_begin demo_context (mkHandoff (Some (mkChannel 1 7)) 3) demo_ka demo_draw.
Definition demo_u : EndpointAuthTask := task_begin demo_context' (mkHandoff (Some (mkChannel 2 8)) 4) demo_kb demo_draw'.
Definition demo_t1 : EndpointAuthTask := bound_task demo_t (contribution_spelling demo_draw').
Definition demo_proof : string := sign_with demo_kb (own_transcript demo_u (contribution_spelling demo_draw)).

Definition demo_w2 : World :=
  mkWorld (<[1 := demo_u]> (<[0 := demo_t]> ∅)) [] ∅ [] [] [mkChannel 1 7; mkChannel 2 8].
Definition demo_w3 : World := after_hello demo_w2 0 demo_t (contribution_spelling demo_draw').
Definition demo_w4 : World := after_hello demo_w3 1 demo_u (contribution_spelling demo_draw).
Definition demo_w5 : World := after_proof demo_w4 0 demo_t1 demo_proof.

Definition all_honest (_ : @SigningKey demo_crypto) : Prop := True.

Lemma demo_contexts :
  context_new "mesh-1" demo_a demo_b demo_binding = Ok demo_context ∧ context_new "mesh-1" demo_b demo_a demo_binding' = Ok demo_context'.
Proof. split; vm_compute; reflexivity. Qed.

Lemma demo_w2_reachable : world_reachable all_honest demo_w2.
Proof.
  apply rtc_r with (mkWorld (<[0 := demo_t]> ∅) [] ∅ [] [] [mkChannel 1 7]); [apply rtc_once|].
  - apply (world_begin all_honest world_start 0 "mesh-1" demo_a demo_b demo_binding demo_context (mkChannel 1 7) 3 demo_ka demo_draw);
      try done; by intros ?%elem_of_nil.
  - refine (world_begin all_honest (mkWorld (<[0 := demo_t]> ∅) [] ∅ [] [] [mkChannel 1 7]) 1 "mesh-1" demo_b demo_a demo_binding'
              demo_context' (mkChannel 2 8) 4 demo_kb demo_draw' _ _ _ _ _ _); try done; [by intros ?%list_elem_of_singleton|].
    cbn [tasks]. intros j t [[_ <-]|[_ Hj]]%lookup_insert_Some; [|done]. intros He. vm_compute in He. done.
Qed.

Lemma demo_w4_rows :
  tasks demo_w3 !! 1 = Some demo_u ∧ tasks demo_w4 !! 0 = Some demo_t1 ∧
  (demo_kb, peer_transcript demo_t1 (contribution_spelling demo_draw')) ∈ signatures demo_w4.
Proof.
  assert (Hne : demo_a ≠ demo_b) by (by vm_compute). assert (Hne' : demo_b ≠ demo_a) by done.
  assert (Hdr : contribution_spelling demo_draw ≠ contribution_spelling demo_draw') by (intros He; by vm_compute in He).
  unfold demo_w4, demo_w3, after_hello. rewrite (first_hello demo_t) by done. rewrite (first_hello demo_u) by done.
  cbn [tasks signatures demo_w2]. split_and!.
  - by rewrite lookup_insert_ne, lookup_insert_eq.
  - by rewrite lookup_insert_ne, lookup_insert_eq.
  - apply elem_of_app. right. cbn [signed_in omap list_omap]. apply list_elem_of_singleton. f_equal.
Qed.

Lemma demo_w4_reachable : world_reachable all_honest demo_w4.
Proof.
  apply rtc_r with demo_w3; [apply rtc_r with demo_w2; [apply demo_w2_reachable|]|].
  - apply (world_hello all_honest demo_w2 0 demo_t (contribution_spelling demo_draw')); [done|by apply own_contribution_parses].
  - apply (world_hello all_honest demo_w3 1 demo_u (contribution_spelling demo_draw)); [apply demo_w4_rows|by apply own_contribution_parses].
Qed.

Lemma demo_w5_reachable : world_reachable all_honest demo_w5.
Proof.
  apply rtc_r with demo_w4; [apply demo_w4_reachable|]. apply (world_proof all_honest demo_w4 0 demo_t1); [apply demo_w4_rows|].
  intros key pc _ Hf Hb _. assert (key = demo_kb) as ->.
  { apply (accepted_unique (trim demo_b)); [exact Hf|]. change demo_b with (spell (public_key demo_kb)). rewrite trim_spell.
    apply accepted_spell. }
  assert (pc = contribution_spelling demo_draw') as -> by (change (Some (contribution_spelling demo_draw') = Some pc) in Hb; congruence).
  apply demo_w4_rows.
Qed.

Lemma demo_promotes : ∃ a t, (0, a) ∈ capabilities demo_w5 ∧ tasks demo_w5 !! 0 = Some t ∧ context t = demo_context.
Proof.
  destruct (good_proof demo_t1 _ _ demo_proof (mkChannel 1 7) 3 eq_refl eq_refl) as (t & a & Ha & _).
  { change (verify (spell (public_key demo_kb)) (own_transcript demo_u (contribution_spelling demo_draw)) demo_proof = Ok true). apply verify_signed. }
  exists a, t. destruct (proof_spec demo_t1 demo_proof t [] (Ok (PromotedTo a))) as (_ & (Hc & _) & _); [|done|].
  - apply (ww_tasks all_honest demo_w4 (reachable_wf all_honest demo_w4 demo_w4_reachable) 0). apply demo_w4_rows.
  - unfold demo_w5, after_proof. rewrite Ha. cbn [capabilities tasks]. split_and!; [apply elem_of_app; right; by left| |done].
    by rewrite lookup_insert_eq.
Qed.

Lemma promoted_tasks_agree_witness :
  ∃ a t, (0, a) ∈ capabilities demo_w5 ∧ tasks demo_w5 !! 0 = Some t ∧
    ∃ j u, tasks demo_w5 !! j = Some u ∧ signer u = demo_kb ∧ mirrored demo_context (context u).
Proof.
  destruct demo_promotes as (a & t & Ha & Ht & Hc). exists a, t. split; [exact Ha|]. split; [exact Ht|].
  destruct (promoted_tasks_agree all_honest demo_w5 0 a t demo_kb demo_w5_reachable Ha Ht I) as (j & u & Hu & Hs & Hm & _).
  - rewrite Hc. change (accepted_form (trim (spell (public_key demo_kb))) (public_key demo_kb)). rewrite trim_spell. apply accepted_spell.
  - exists j, u. rewrite Hc in Hm. split; [exact Hu|]. split; [exact Hs|exact Hm].
Defined.

Lemma channels_are_issued_once_witness :
  channels demo_w5 = [mkChannel 1 7; mkChannel 2 8] ∧
  channels demo_w5 ≡ₚ returned demo_w5 ++ held (tasks demo_w5) ++ issued_channels demo_w5.
Proof.
  split; [|apply (channels_are_issued_once all_honest demo_w5 demo_w5_reachable)].
  unfold demo_w5, after_proof. destruct (accept_peer_proof demo_t1 demo_proof) as [[t out] r]. reflexivity.
Defined.

Lemma errors_end_the_task_witness :
  is_retired (accept_peer_proof demo_t "forged").1.1 = true ∧ task_belongs_to (accept_peer_proof demo_t "forged").1.1 3 = false.
Proof.
  destruct (errors_end_the_task all_honest demo_w2 0 demo_t (accept_peer_proof demo_t "forged").1.1 [Retained (mkChannel 1 7)]
    NoBoundTranscript EmptyString "forged" demo_w2_reachable) as (H1 & _ & H2 & _); [reflexivity|right; reflexivity|].
  split; [exact H1|apply H2].
Defined.

Lemma mirrored_tasks_promote_witness :
  ∃ ca cb : AuthenticatedChannelCapability, authenticated_for ca "mesh-1" demo_b = true ∧ authenticated_for cb "mesh-1" demo_a = true.
Proof.
  destruct (mirrored_tasks_promote "mesh-1" demo_a demo_b "fp-of-a" "fp-of-b" demo_context demo_context'
    (mkHandoff (Some (mkChannel 1 7)) 3) (mkHandoff (Some (mkChannel 2 8)) 4) demo_ka demo_kb demo_draw demo_draw')
    as (t1 & o1 & pt & t2 & ca & u1 & o2 & pu & u2 & cb & _ & _ & _ & _ & _ & _ & Ha & Hb & _).
  - apply demo_contexts.
  - apply demo_contexts.
  - intros He. vm_compute in He. discriminate He.
  - change (accepted_form (trim (spell (public_key demo_ka))) (public_key demo_ka)). rewrite trim_spell. apply accepted_spell.
  - change (accepted_form (trim (spell (public_key demo_kb))) (public_key demo_kb)). rewrite trim_spell. apply accepted_spell.
  - reflexivity.
  - reflexivity.
  - intros He. vm_compute in He. discriminate He.
  - by eexists.
  - by eexists.
  - exists ca, cb. split; [exact Ha|exact Hb].
Defined.
