(* ===== verification/Content.v ===== *)
(** * Canonical semantic facts

    Models the signed content of the semantic layer:
    crates/myownmesh-core/src/semantic/content.rs (bodies, exclusive cells,
    authority uses and their canonical encoding), fact.rs (content, identity,
    signing and validation) and verify.rs (the check of a received fact).  A
    device, a fact identity and a mesh context are 32 bytes each. *)

From S2P Require Import Prelude Ranking Bytes DeviceId Identity.
Local Open Scope nat_scope.

Notation Device := Bytes32 (only parsing).
Notation FactId := Bytes32 (only parsing).
Notation MeshContextId := Bytes32 (only parsing).

Inductive FactDomain : Type := Governance | EvictionProofDomain.
Inductive Role : Type := Member | Controller | Owner.
Inductive AttestationDecision : Type := DecideEvict | DecideApprove | DecideReject.

Inductive ExclusiveCell : Type :=
| RoleCell (subject : Device)
| MembershipCell (subject : Device)
| DecisionCell (proposal : FactId).

Record AuthorityUse : Type := mkAuthorityUse { au_subject : Device; au_predecessors : list FactId }.

Inductive FactBody : Type :=
| RoleGrant (target : Device) (role : Role)
| RoleRevoke (target : Device)
| Evict (target : Device)
| MembershipAdmit (target : Device)
| EvictionProof (target : Device) (evidence : list FactId)
| SelfStandDown (device_id : Device) (evidence : list FactId)
| Attestation (target : Device) (proposal : FactId) (decision : AttestationDecision) (signer : Device)
    (contributions : list FactId)
| Resolution (cell : ExclusiveCell) (cited_heads : list FactId) (selected_head : FactId)
| AuthorityLineageResolution (subject : Device) (cited_heads : list FactId) (selected_head : FactId).

Record FactContent : Type := mkFactContent {
  fc_version : Z;
  fc_domain : FactDomain;
  fc_context : MeshContextId;
  fc_body : FactBody;
  fc_author : Device;
  fc_parents : list FactId;
  fc_authority_uses : list AuthorityUse;
}.

Record SignedFact : Type := mkSignedFact { sf_content : FactContent; sf_id : FactId; sf_signature : string }.

#[export] Instance fact_domain_eq_dec : EqDecision FactDomain.
Proof. solve_decision. Defined.
#[export] Instance role_eq_dec : EqDecision Role.
Proof. solve_decision. Defined.
#[export] Instance decision_eq_dec : EqDecision AttestationDecision.
Proof. solve_decision. Defined.
#[export] Instance cell_eq_dec : EqDecision ExclusiveCell.
Proof. solve_decision. Defined.
#[export] Instance authority_use_eq_dec : EqDecision AuthorityUse.
Proof. solve_decision. Defined.
#[export] Instance body_eq_dec : EqDecision FactBody.
Proof. solve_decision. Defined.
#[export] Instance content_eq_dec : EqDecision FactContent.
Proof. solve_decision. Defined.
#[export] Instance signed_eq_dec : EqDecision SignedFact.
Proof. solve_decision. Defined.

#[export] Instance cell_countable : Countable ExclusiveCell.
Proof.
  refine (inj_countable'
    (λ c, match c with RoleCell d => inl d | MembershipCell d => inr (inl d) | DecisionCell p => inr (inr p) end)
    (λ x, match x with inl d => RoleCell d | inr (inl d) => MembershipCell d | inr (inr p) => DecisionCell p end) _).
  by intros [].
Defined.

(** [SEMANTIC_SCHEMA_VERSION]. *)
Definition SEMANTIC_SCHEMA_VERSION : Z := 4.

Inductive SemanticCapacityDimension : Type :=
| FactEncodedBytes | DependenciesPerFact | AuthorityUsesPerFact | AuthorityPredecessorsPerUse
| AdmittedFacts | AdmittedBytes | QuarantinedFacts | QuarantinedBytes
| QuarantinedFactsPerAuthor | QuarantinedBytesPerAuthor | RetainedFactsPerAuthor | RetainedBytesPerAuthor
| DependencyEdges | ReadyBatch.

Inductive SemanticError : Type :=
| UnsupportedVersion (v : Z)
| EmptyField (field : string)
| DomainMismatch
| UnsortedParents
| DuplicateParent
| AuthorMismatch
| NonCanonicalSet (field : string)
| IncompleteEvictionProof
| FactIdMismatch
| InvalidSignature
| MissingParent (id : FactId)
| SelfParent
| ContextMismatch (expected found : MeshContextId)
| Cycle
| UnknownResolutionHead (id : FactId)
| IncompleteResolution
| ResolutionSelectionNotCited
| DuplicateFact (id : FactId)
| NoOp (what : string)
| QuarantineSignerNotEligible
| ResolutionNotCurrent
| UnauthorizedEviction
| UnauthorizedAttestation
| UnauthorizedRoleGrant
| UnauthorizedMembershipAdmit
| InvalidEvictionEvidence
| InvalidStandDownProof
| InvalidAuthorityUse
| CapacityExceeded (dimension : SemanticCapacityDimension) (limit observed : Z)
| EncodingFailed.

(** ** Operations on bodies *)
Definition domain_tag (d : FactDomain) : string :=
  match d with Governance => "governance" | EvictionProofDomain => "eviction_proof" end.

Definition ids_sort_dedup : list FactId → list FactId := sort_dedup b32_cmp.

Definition normalize (b : FactBody) : FactBody :=
  match b with
  | EvictionProof target evidence => EvictionProof target (ids_sort_dedup evidence)
  | SelfStandDown d evidence => SelfStandDown d (ids_sort_dedup evidence)
  | Attestation t p d s contributions => Attestation t p d s (ids_sort_dedup contributions)
  | Resolution cell cited selected => Resolution cell (ids_sort_dedup cited) selected
  | AuthorityLineageResolution subject cited selected =>
      AuthorityLineageResolution subject (ids_sort_dedup cited) selected
  | RoleGrant _ _ | RoleRevoke _ | Evict _ | MembershipAdmit _ => b
  end.

Definition require_sorted_unique (values : list FactId) (field : string) : result SemanticError () :=
  if sorted_unique b32_cmp values then Ok () else Err (NonCanonicalSet field).

Definition validate_canonical (b : FactBody) : result SemanticError () :=
  match b with
  | EvictionProof _ evidence | SelfStandDown _ evidence =>
      match evidence with
      | [] => Err IncompleteEvictionProof
      | _ => require_sorted_unique evidence "eviction evidence"
      end
  | Attestation _ _ _ _ contributions => require_sorted_unique contributions "attestation contributions"
  | Resolution _ cited _ | AuthorityLineageResolution _ cited _ =>
      require_sorted_unique cited "resolution cited heads"
  | _ => Ok ()
  end.

Definition body_domain (b : FactBody) : FactDomain :=
  match b with EvictionProof _ _ | SelfStandDown _ _ => EvictionProofDomain | _ => Governance end.

Definition exclusive_cells (b : FactBody) : list ExclusiveCell :=
  match b with
  | RoleGrant target _ | RoleRevoke target => [RoleCell target]
  | Evict target => [RoleCell target; MembershipCell target]
  | MembershipAdmit target => [MembershipCell target]
  | EvictionProof _ _ | SelfStandDown _ _ => []
  | Attestation _ proposal _ _ _ => [DecisionCell proposal]
  | Resolution cell _ _ => [cell]
  | AuthorityLineageResolution _ _ _ => []
  end.

Definition causal_support (b : FactBody) : list FactId :=
  ids_sort_dedup
    match b with
    | EvictionProof _ evidence | SelfStandDown _ evidence => evidence
    | Attestation _ proposal _ _ contributions => proposal :: contributions
    | Resolution _ cited _ | AuthorityLineageResolution _ cited _ => cited
    | _ => []
    end.

Definition body_advances_cell (b : FactBody) (cell : ExclusiveCell) : bool :=
  existsb (λ candidate, bool_decide (candidate = cell)) (exclusive_cells b).

Definition projected_role (b : FactBody) (subject : Device) : option Role :=
  match b with
  | RoleGrant target role => if decide (target = subject) then Some role else None
  | _ => None
  end.

Definition projected_membership (b : FactBody) (subject : Device) : option bool :=
  match b with
  | Evict target => if decide (target = subject) then Some false else None
  | MembershipAdmit target => if decide (target = subject) then Some true else None
  | _ => None
  end.

Definition projected_decision (b : FactBody) (proposal : FactId) : option AttestationDecision :=
  match b with
  | Attestation _ p decision _ _ => if decide (p = proposal) then Some decision else None
  | _ => None
  end.

(** ** The canonical encoding *)
Definition enc_ids : list FactId → bytes := enc_list b32.

Definition enc_authority_use (u : AuthorityUse) : bytes := b32 (au_subject u) ++ enc_ids (au_predecessors u).
Definition enc_authority_uses : list AuthorityUse → bytes := enc_list enc_authority_use.

Definition enc_cell (c : ExclusiveCell) : bytes :=
  match c with
  | RoleCell subject => enc_text "role" ++ b32 subject
  | MembershipCell subject => enc_text "membership" ++ b32 subject
  | DecisionCell proposal => enc_text "decision" ++ b32 proposal
  end.

Definition role_tag (r : Role) : string :=
  match r with Member => "member" | Controller => "controller" | Owner => "owner" end.
Definition decision_tag (d : AttestationDecision) : string :=
  match d with DecideEvict => "evict" | DecideApprove => "approve" | DecideReject => "reject" end.

Definition enc_body (b : FactBody) : bytes :=
  match b with
  | RoleGrant target role => enc_text "role_grant" ++ b32 target ++ enc_text (role_tag role)
  | RoleRevoke target => enc_text "role_revoke" ++ b32 target
  | Evict target => enc_text "evict" ++ b32 target
  | MembershipAdmit target => enc_text "membership_admit" ++ b32 target
  | EvictionProof target evidence => enc_text "eviction_proof" ++ b32 target ++ enc_ids evidence
  | SelfStandDown device evidence => enc_text "self_stand_down" ++ b32 device ++ enc_ids evidence
  | Attestation target proposal decision signer contributions =>
      enc_text "attestation" ++ b32 target ++ b32 proposal ++ enc_text (decision_tag decision) ++
      b32 signer ++ enc_ids contributions
  | Resolution cell cited selected => enc_text "resolution" ++ enc_cell cell ++ enc_ids cited ++ b32 selected
  | AuthorityLineageResolution subject cited selected =>
      enc_text "authority_lineage_resolution" ++ b32 subject ++ enc_ids cited ++ b32 selected
  end.

Definition canonical_bytes (c : FactContent) : bytes :=
  enc_text "myownmesh-semantic-v4" ++ enc_text "schema" ++ enc_bytes (be_bytes 4 (fc_version c)) ++
  enc_text (domain_tag (fc_domain c)) ++ b32 (fc_context c) ++ b32 (fc_author c) ++
  enc_text "parents" ++ enc_ids (fc_parents c) ++
  enc_text "authority_uses" ++ enc_authority_uses (fc_authority_uses c) ++
  enc_text "body" ++ enc_body (fc_body c).

Section content.
Context {crypto : Crypto}.

(** [DeviceId::cmp]: the order of the spellings. *)
Definition device_spelling_cmp (a b : Device) : comparison := String.compare (spell a) (spell b).

Definition authority_use_subjects (b : FactBody) (author : Device) : list Device :=
  sort_dedup device_spelling_cmp
    match b with
    | RoleGrant target _ | RoleRevoke target | Evict target => [author; target]
    | MembershipAdmit target | EvictionProof target _ => [author; target]
    | SelfStandDown device _ => [author; device]
    | Attestation _ _ _ _ _ => [author]
    | Resolution cell _ _ =>
        author :: match cell with
                  | RoleCell subject | MembershipCell subject => [subject]
                  | DecisionCell _ => []
                  end
    | AuthorityLineageResolution subject _ _ => [author; subject]
    end.

Definition authority_use_new (subject : Device) (predecessors : list FactId) : AuthorityUse :=
  mkAuthorityUse subject (ids_sort_dedup predecessors).

Definition content_new (domain : FactDomain) (context : MeshContextId) (body : FactBody) (author : Device)
    (parents : list FactId) : FactContent :=
  let parents := ids_sort_dedup parents in
  let body := normalize body in
  mkFactContent SEMANTIC_SCHEMA_VERSION domain context body author parents
    ((λ subject, authority_use_new subject parents) <$> authority_use_subjects body author).

(** The loop over [authority_uses] in [validate]. *)
Fixpoint validate_uses (parents : list FactId) (uses : list AuthorityUse) : result SemanticError () :=
  match uses with
  | [] => Ok ()
  | u :: uses =>
      if negb (sorted_unique b32_cmp (au_predecessors u)) then Err (NonCanonicalSet "authority use predecessors")
      else if negb (forallb (λ p, bool_decide (p ∈ parents)) (au_predecessors u)) then Err InvalidAuthorityUse
      else validate_uses parents uses
  end.

(** The loop over neighbouring [parents] in [validate]. *)
Fixpoint validate_parents (parents : list FactId) : result SemanticError () :=
  match parents with
  | x :: ((y :: _) as rest) =>
      match b32_cmp x y with
      | Eq => Err DuplicateParent
      | Gt => Err UnsortedParents
      | Lt => validate_parents rest
      end
  | _ => Ok ()
  end.

Definition validate_author (c : FactContent) : result SemanticError () :=
  match fc_body c with
  | SelfStandDown device _ => if decide (fc_author c = device) then Ok () else Err InvalidStandDownProof
  | Attestation _ _ _ signer _ => if decide (fc_author c = signer) then Ok () else Err AuthorMismatch
  | _ => Ok ()
  end.

Definition validate (c : FactContent) : result SemanticError () :=
  if negb (fc_version c =? SEMANTIC_SCHEMA_VERSION)%Z then Err (UnsupportedVersion (fc_version c))
  else if bool_decide (body_domain (fc_body c) ≠ fc_domain c) then Err DomainMismatch
  else
    validate_canonical (fc_body c) ≫= λ _,
    if bool_decide ((au_subject <$> fc_authority_uses c) ≠ authority_use_subjects (fc_body c) (fc_author c))
    then Err InvalidAuthorityUse
    else
      validate_uses (fc_parents c) (fc_authority_uses c) ≫= λ _,
      validate_parents (fc_parents c) ≫= λ _,
      validate_author c.

(** [FactId::from_content]. *)
Definition from_content (c : FactContent) : FactId := sha256 (canonical_bytes c).

Definition sign (c : FactContent) (key : SigningKey) : result SemanticError SignedFact :=
  validate c ≫= λ _,
  if negb (verifying_key (b32 (public_key key))) then Err AuthorMismatch
  else if decide (fc_author c = public_key key) then
    let id := from_content c in
    Ok (mkSignedFact c id (sign_with key (b32 id)))
  else Err AuthorMismatch.

Definition verify_fact (f : SignedFact) : result SemanticError () :=
  validate (sf_content f) ≫= λ _,
  if decide (from_content (sf_content f) = sf_id f) then
    match verify (spell (fc_author (sf_content f))) (b32 (sf_id f)) (sf_signature f) with
    | Ok true => Ok ()
    | _ => Err InvalidSignature
    end
  else Err FactIdMismatch.
End content.

(** ** The encoding is injective *)

(** Vector lengths that fit the [u64] of a length prefix. *)
Definition body_fits (b : FactBody) : Prop :=
  match b with
  | EvictionProof _ l | SelfStandDown _ l | Attestation _ _ _ _ l | Resolution _ l _
  | AuthorityLineageResolution _ l _ => fits (length l)
  | _ => True
  end.
Definition use_fits (u : AuthorityUse) : Prop := fits (length (au_predecessors u)).
Definition content_fits (c : FactContent) : Prop :=
  (0 ≤ fc_version c ≤ u32_max)%Z ∧ fits (length (fc_parents c)) ∧ fits (length (fc_authority_uses c)) ∧
  Forall use_fits (fc_authority_uses c) ∧ body_fits (fc_body c).

Definition short (t : string) : bool := length (str t) <? 4096.

Lemma enc_tag t t' r s : short t = true → short t' = true → enc_text t ++ r = enc_text t' ++ s → t = t' ∧ r = s.
Proof. intros Ht Ht'. apply prefix_enc_text; apply fits_small, Nat.ltb_lt; done. Qed.

Lemma enc_ids_prefix l l' r s :
  fits (length l) → fits (length l') → enc_ids l ++ r = enc_ids l' ++ s → l = l' ∧ r = s.
Proof. intros H H'. apply (prefix_enc_list (λ _, True) b32); split; try done; by apply Forall_true. Qed.

Lemma b32_prefix (x y : Bytes32) r s : b32 x ++ r = b32 y ++ s → x = y ∧ r = s.
Proof. by apply prefix_b32. Qed.

(** Read the next field of both sides of an equation of encodings. *)
Ltac enc_step :=
  match goal with
  | H : enc_text ?t ++ _ = enc_text ?t' ++ _ |- _ =>
      let E := fresh "E" in
      apply (enc_tag t t') in H as [E H]; [try discriminate E; clear E|reflexivity|reflexivity]
  | H : b32 _ ++ _ = b32 _ ++ _ |- _ => apply b32_prefix in H as [-> H]
  | H : enc_ids _ ++ _ = enc_ids _ ++ _ |- _ => apply enc_ids_prefix in H as [-> H]; [|done|done]
  end.

Lemma enc_cell_prefix c c' r s : enc_cell c ++ r = enc_cell c' ++ s → c = c' ∧ r = s.
Proof.
  destruct c, c'; cbn [enc_cell]; rewrite <- !app_assoc; intros H; repeat enc_step; done.
Qed.

Lemma role_tag_prefix (x y : Role) r s : enc_text (role_tag x) ++ r = enc_text (role_tag y) ++ s → x = y ∧ r = s.
Proof. destruct x, y; cbn [role_tag]; intros H; repeat enc_step; done. Qed.

Lemma decision_tag_prefix (x y : AttestationDecision) r s :
  enc_text (decision_tag x) ++ r = enc_text (decision_tag y) ++ s → x = y ∧ r = s.
Proof. destruct x, y; cbn [decision_tag]; intros H; repeat enc_step; done. Qed.

#[export] Instance enc_body_prefix : Prefix body_fits enc_body.
Proof.
  intros b b' r s Hb Hb'. destruct b, b'; cbn [enc_body body_fits] in *; rewrite <- !app_assoc; intros H;
    enc_step; repeat first
      [ enc_step
      | match goal with
        | H : enc_text (role_tag _) ++ _ = _ |- _ => apply role_tag_prefix in H as [-> H]
        | H : enc_text (decision_tag _) ++ _ = _ |- _ => apply decision_tag_prefix in H as [-> H]
        | H : enc_cell _ ++ _ = _ |- _ => apply enc_cell_prefix in H as [-> H]
        end ]; done.
Qed.

#[export] Instance enc_authority_use_prefix : Prefix use_fits enc_authority_use.
Proof.
  intros [d l] [d' l'] r s Hu Hu'. unfold enc_authority_use, use_fits in *; cbn [au_subject au_predecessors] in *.
  rewrite <- !app_assoc. intros H. repeat enc_step. done.
Qed.

Lemma enc_uses_prefix l l' r s :
  fits (length l) → fits (length l') → Forall use_fits l → Forall use_fits l' →
  enc_authority_uses l ++ r = enc_authority_uses l' ++ s → l = l' ∧ r = s.
Proof. intros ????. by apply (prefix_enc_list use_fits enc_authority_use). Qed.

Lemma version_prefix v v' r s :
  (0 ≤ v ≤ u32_max)%Z → (0 ≤ v' ≤ u32_max)%Z →
  enc_bytes (be_bytes 4 v) ++ r = enc_bytes (be_bytes 4 v') ++ s → v = v' ∧ r = s.
Proof.
  intros Hv Hv' H. apply prefix_enc_bytes in H as [H ->]; [|rewrite length_be_bytes; apply fits_small; lia..].
  unfold u32_max in *. split; [|done]. apply be_bytes_inj in H; [done|cbn; lia..].
Qed.

Lemma domain_prefix d d' r s : enc_text (domain_tag d) ++ r = enc_text (domain_tag d') ++ s → d = d' ∧ r = s.
Proof. destruct d, d'; cbn [domain_tag]; intros H; repeat enc_step; done. Qed.

Lemma canonical_bytes_inj c c' :
  content_fits c → content_fits c' → canonical_bytes c = canonical_bytes c' → c = c'.
Proof.
  intros (Hv & Hp & Hu & Hus & Hb) (Hv' & Hp' & Hu' & Hus' & Hb') H.
  destruct c as [v d x b a ps us], c' as [v' d' x' b' a' ps' us']; cbn in Hv, Hp, Hu, Hus, Hb, Hv', Hp', Hu', Hus', Hb'.
  unfold canonical_bytes in H; cbn [fc_version fc_domain fc_context fc_body fc_author fc_parents fc_authority_uses] in H.
  do 2 enc_step. apply version_prefix in H as [-> H]; [|done..].
  apply domain_prefix in H as [-> H]. do 4 enc_step. enc_step.
  apply enc_uses_prefix in H as [-> H]; [|done..]. enc_step.
  apply (prefix_inj body_fits enc_body) in H as ->; done.
Qed.

(** ** Validation, signing and verification *)
Section facts.
Context {crypto : Crypto} {laws : CryptoLaws}.

#[export] Instance device_spelling_cmp_spec : CmpSpec device_spelling_cmp.
Proof. apply (cmp_via spell String.compare). Qed.

Lemma require_sorted_unique_Ok l field : require_sorted_unique l field = Ok () ↔ sorted_unique b32_cmp l = true.
Proof. unfold require_sorted_unique. by destruct (sorted_unique b32_cmp l). Qed.

Lemma validate_uses_Ok parents uses :
  validate_uses parents uses = Ok () ↔
  Forall (λ u, sorted_unique b32_cmp (au_predecessors u) = true ∧ au_predecessors u ⊆ parents) uses.
Proof.
  induction uses as [|u uses IH]; cbn [validate_uses]; [split; [constructor|done]|]. rewrite Forall_cons, <- IH.
  destruct (sorted_unique b32_cmp (au_predecessors u)); cbn [negb]; [|by split; [|intros [[] _]]].
  destruct (forallb _ _) eqn:Hf; cbn [negb].
  - assert (au_predecessors u ⊆ parents); [|tauto]. intros p Hp. rewrite forallb_forall in Hf.
    by apply list_elem_of_In, Hf, bool_decide_eq_true in Hp.
  - split; [done|]. intros [[_ Hs] _]. exfalso. apply not_true_iff_false in Hf. apply Hf.
    apply forallb_forall. intros p Hp. by apply bool_decide_eq_true, Hs, list_elem_of_In.
Qed.

Lemma validate_parents_Ok parents : validate_parents parents = Ok () ↔ sorted_unique b32_cmp parents = true.
Proof.
  induction parents as [|x l IH]; [done|]. destruct l as [|y l]; [done|].
  change (match b32_cmp x y with
          | Eq => Err DuplicateParent | Gt => Err UnsortedParents | Lt => validate_parents (y :: l)
          end = Ok () ↔ is_less (b32_cmp x y) && sorted_unique b32_cmp (y :: l) = true).
  destruct (b32_cmp x y); cbn [is_less andb]; done.
Qed.

(** The canonical form of a body: the sets it carries are sorted without
    duplicates, and a proof carries evidence. *)
Definition canonical_body (b : FactBody) : Prop :=
  match b with
  | EvictionProof _ l | SelfStandDown _ l => l ≠ [] ∧ sorted_unique b32_cmp l = true
  | Attestation _ _ _ _ l | Resolution _ l _ | AuthorityLineageResolution _ l _ => sorted_unique b32_cmp l = true
  | _ => True
  end.

(** A stand-down is authored by its device and an attestation by its signer. *)
Definition authored_by_subject (c : FactContent) : Prop :=
  match fc_body c with
  | SelfStandDown device _ => fc_author c = device
  | Attestation _ _ _ signer _ => fc_author c = signer
  | _ => True
  end.

Lemma validate_canonical_Ok b : validate_canonical b = Ok () ↔ canonical_body b.
Proof.
  destruct b; cbn [validate_canonical canonical_body]; rewrite ?require_sorted_unique_Ok; try done.
  all: destruct evidence; [split; [done|by intros []]|]; rewrite require_sorted_unique_Ok; by split; [|intros []].
Qed.

Lemma validate_author_Ok c : validate_author c = Ok () ↔ authored_by_subject c.
Proof. unfold validate_author, authored_by_subject. destruct (fc_body c); try done; by destruct (decide _). Qed.

Lemma bind_Ok {E A B} (m : result E A) (f : A → result E B) b :
  m ≫= f = Ok b ↔ ∃ a, m = Ok a ∧ f a = Ok b.
Proof. destruct m; cbn; split; [eauto|by intros (? & [= <-] & ?)|done|by intros (? & ? & _)]. Qed.

Lemma bind_Ok_unit {E B} (m : result E ()) (f : () → result E B) b : m ≫= f = Ok b ↔ m = Ok () ∧ f () = Ok b.
Proof. rewrite bind_Ok. split; [intros ([] & ? & ?); done|intros [? ?]; by exists ()]. Qed.

(** What validation admits. *)
Definition canonical_content (c : FactContent) : Prop :=
  fc_version c = SEMANTIC_SCHEMA_VERSION ∧ fc_domain c = body_domain (fc_body c) ∧ canonical_body (fc_body c) ∧
  au_subject <$> fc_authority_uses c = authority_use_subjects (fc_body c) (fc_author c) ∧
  Forall (λ u, sorted_unique b32_cmp (au_predecessors u) = true ∧ au_predecessors u ⊆ fc_parents c)
    (fc_authority_uses c) ∧
  sorted_unique b32_cmp (fc_parents c) = true ∧ authored_by_subject c.

Lemma validate_Ok c : validate c = Ok () ↔ canonical_content c.
Proof.
  unfold validate, canonical_content. destruct (Z.eqb_spec (fc_version c) SEMANTIC_SCHEMA_VERSION); cbn [negb];
    [|by split; [|intros []]].
  case_bool_decide as Hd; [split; [done|]; intros (_ & ? & _); congruence|].
  rewrite bind_Ok_unit, validate_canonical_Ok.
  case_bool_decide as Hs; [split; [by intros []|]; intros (_ & _ & _ & ? & _); congruence|].
  rewrite !bind_Ok_unit, validate_uses_Ok, validate_parents_Ok, validate_author_Ok.
  intuition congruence.
Qed.

(** A body that can be authored by [author]: proofs carry evidence, and it is
    the author's own stand-down or attestation. *)
Definition authorable (b : FactBody) (author : Device) : Prop :=
  match b with
  | EvictionProof _ l => l ≠ []
  | SelfStandDown device l => l ≠ [] ∧ device = author
  | Attestation _ _ _ signer _ => signer = author
  | _ => True
  end.

Lemma ids_sort_dedup_nonempty l : l ≠ [] → ids_sort_dedup l ≠ [].
Proof.
  destruct l as [|x l]; [done|]. intros _ H. apply (not_elem_of_nil x). rewrite <- H.
  apply elem_of_sort_dedup; [apply _|]. by left.
Qed.

Lemma ids_sort_dedup_unique l : sorted_unique b32_cmp (ids_sort_dedup l) = true.
Proof. apply sort_dedup_sorted_unique, _. Qed.

Lemma normalize_canonical b author : authorable b author → canonical_body (normalize b).
Proof.
  destruct b; cbn [normalize canonical_body authorable]; auto using ids_sort_dedup_nonempty, ids_sort_dedup_unique.
  intros [? _]. auto using ids_sort_dedup_nonempty, ids_sort_dedup_unique.
Qed.

Lemma normalize_domain b : body_domain (normalize b) = body_domain b.
Proof. by destruct b. Qed.

Lemma content_new_canonical context body author parents :
  authorable body author → canonical_content (content_new (body_domain body) context body author parents).
Proof.
  intros Ha. unfold content_new, canonical_content, authored_by_subject.
  cbn [fc_version fc_domain fc_body fc_author fc_parents fc_authority_uses].
  split_and!; [done|by rewrite normalize_domain|by eapply normalize_canonical| | |apply ids_sort_dedup_unique|].
  - rewrite <- list_fmap_compose. apply list_fmap_id.
  - apply Forall_fmap, Forall_true. intros u. cbn. split; [apply ids_sort_dedup_unique|].
    intros p Hp. by apply elem_of_sort_dedup in Hp; [|apply _].
  - destruct body; cbn in *; try done. by destruct Ha.
Qed.

Lemma sign_Ok c key f :
  sign c key = Ok f ↔
  canonical_content c ∧ fc_author c = public_key key ∧
  f = mkSignedFact c (from_content c) (sign_with key (b32 (from_content c))).
Proof.
  unfold sign. rewrite bind_Ok_unit, validate_Ok, law_public_key. cbn [negb].
  destruct (decide _); [|naive_solver]. split; [intros [? [= <-]]; done|by intros (? & _ & ->)].
Qed.

Lemma verify_fact_Ok f :
  verify_fact f = Ok () ↔
  canonical_content (sf_content f) ∧ sf_id f = from_content (sf_content f) ∧
  verify (spell (fc_author (sf_content f))) (b32 (sf_id f)) (sf_signature f) = Ok true.
Proof.
  unfold verify_fact. rewrite bind_Ok_unit, validate_Ok. destruct (decide _) as [He|Hne].
  - rewrite He. destruct (verify _ _ _) as [[]|]; split; try done; naive_solver.
  - split; [by intros []|]. intros (_ & He & _). by rewrite He in Hne.
Qed.

Lemma upper_upper a : Ascii.eqb (ascii_upper (ascii_upper a)) (ascii_upper a) = true.
Proof. revert a. apply ascii_all. vm_compute. reflexivity. Qed.

(** A signature in upper case is read as the signature itself. *)
Lemma ascii_upper_cases a : Ascii.eqb (ascii_upper a) a || is_ascii a && is_ascii (ascii_upper a) = true.
Proof. revert a. apply ascii_all. vm_compute. reflexivity. Qed.

Lemma upper_two_recased a b : upper_two (ascii_upper a) (ascii_upper b) = upper_two a b.
Proof.
  pose proof (ascii_upper_cases a) as [->%Ascii.eqb_eq|[H1 H2]%andb_true_iff]%orb_true_iff;
    [|by rewrite !upper_two_not_ascii by (by rewrite ?H1, ?H2)].
  pose proof (ascii_upper_cases b) as [->%Ascii.eqb_eq|[H1 H2]%andb_true_iff]%orb_true_iff; [done|].
  by rewrite !upper_two_not_ascii by (by rewrite ?H1, ?H2, orb_true_r).
Qed.

Lemma upper_three_recased a b c : upper_three (ascii_upper a) (ascii_upper b) (ascii_upper c) = upper_three a b c.
Proof.
  pose proof (ascii_upper_cases a) as [->%Ascii.eqb_eq|[H1 H2]%andb_true_iff]%orb_true_iff;
    [|by rewrite !upper_three_not_ascii by (by rewrite ?H1, ?H2)].
  pose proof (ascii_upper_cases b) as [->%Ascii.eqb_eq|[H1 H2]%andb_true_iff]%orb_true_iff;
    [|by rewrite !upper_three_not_ascii by (by rewrite ?H1, ?H2, !orb_true_r)].
  pose proof (ascii_upper_cases c) as [->%Ascii.eqb_eq|[H1 H2]%andb_true_iff]%orb_true_iff; [done|].
  by rewrite !upper_three_not_ascii by (by rewrite ?H1, ?H2, !orb_true_r).
Qed.

Lemma to_uppercase_recased s : to_uppercase (to_ascii_uppercase s) = to_uppercase s.
Proof.
  unfold to_ascii_uppercase. induction s as [s IH] using (induction_ltof1 _ String.length). unfold ltof in IH.
  destruct s as [|a s1]; [done|]. assert (H1 := IH s1 ltac:(cbn; lia)).
  assert (Hone : String (ascii_upper (ascii_upper a)) (to_uppercase (string_map ascii_upper s1)) = String (ascii_upper a) (to_uppercase s1)).
  { rewrite H1. f_equal. by apply Ascii.eqb_eq, upper_upper. }
  cbn [string_map to_uppercase]. destruct s1 as [|b s2]; [exact Hone|]. cbn [string_map]. cbn [string_map] in Hone.
  rewrite upper_two_recased. destruct (upper_two a b); [rewrite IH by (cbn; lia); done|].
  destruct s2 as [|c s3]; [exact Hone|]. cbn [string_map]. cbn [string_map] in Hone.
  rewrite upper_three_recased. destruct (upper_three a b c); [rewrite IH by (cbn; lia); done|exact Hone].
Qed.

(** Verification reads a signature in any case. *)
Definition recased (f : SignedFact) : SignedFact :=
  mkSignedFact (sf_content f) (sf_id f) (to_ascii_uppercase (sf_signature f)).

Lemma verify_fact_recased f : verify_fact f = Ok () → verify_fact (recased f) = Ok ().
Proof.
  rewrite !verify_fact_Ok. intros (? & ? & Hv). split_and!; [done..|].
  rewrite verify_Ok in *. cbn [recased sf_content sf_id sf_signature]. by rewrite to_uppercase_recased.
Qed.

(** C36: the canonical encoding of content is unambiguous: two contents of any kind
    that encode to the same bytes are the same content. *)
Theorem canonical_encoding_is_injective c c' :
  content_fits c → content_fits c' → canonical_bytes c = canonical_bytes c' → c = c'.
Proof. apply canonical_bytes_inj. Qed.

(** the identity of a verified fact determines all of its content and names a
    key whose signature over that identity verifies, provided the digest does not
    collide on the two encodings. *)
Theorem fact_identity_binds_content f g :
  verify_fact f = Ok () → verify_fact g = Ok () →
  content_fits (sf_content f) → content_fits (sf_content g) →
  (sha256 (canonical_bytes (sf_content f)) = sha256 (canonical_bytes (sf_content g)) →
   canonical_bytes (sf_content f) = canonical_bytes (sf_content g)) →
  sf_id f = sf_id g →
  sf_content f = sf_content g ∧
  ∃ sig, base32_decode (to_uppercase (sf_signature f)) = Some sig ∧
    ed25519_verify (b32 (fc_author (sf_content f))) (b32 (sf_id f)) sig = true.
Proof.
  intros (_ & Hf & Hsig)%verify_fact_Ok (_ & Hg & _)%verify_fact_Ok Ff Fg Hcol Hid. split.
  - apply canonical_bytes_inj; [done..|]. apply Hcol. unfold from_content in *. congruence.
  - apply verify_Ok in Hsig as (key & sig & _ & Ha & Hd & _ & Hv). exists sig. split; [done|].
    rewrite trim_spell in Ha. by rewrite (accepted_unique _ _ _ (accepted_spell _) Ha).
Qed.

(** authoring works end to end.  Content built for any body its author may
    author is canonical, is signed by the author's key, and the signed fact
    verifies; validation admits exactly canonical content. *)
Theorem authored_fact_verifies context body key parents :
  authorable body (public_key key) →
  let c := content_new (body_domain body) context body (public_key key) parents in
  (∃ f, sign c key = Ok f ∧ verify_fact f = Ok () ∧ sf_content f = c) ∧
  (∀ other, validate other = Ok () ↔ canonical_content other).
Proof.
  intros Ha c. split; [|apply validate_Ok]. assert (Hc : canonical_content c) by by apply content_new_canonical.
  eexists. split; [by apply sign_Ok|]. split; [|done]. apply verify_fact_Ok. cbn [sf_content sf_id sf_signature].
  split_and!; [done..|]. apply verify_signed.
Qed.
End facts.

(** ** Witnesses *)
Definition demo_context : MeshContextId := demo_sha256 (str "context").
Definition demo_id (n : nat) : FactId := demo_sha256 (be64 n).
Definition demo_target : Device := demo_sha256 (str "target").
Definition demo_body : FactBody := EvictionProof demo_target [demo_id 2; demo_id 1; demo_id 2].
Definition demo_content : FactContent :=
  content_new EvictionProofDomain demo_context demo_body (public_key demo_signer) [demo_id 2; demo_id 1].
Definition demo_fact : SignedFact :=
  mkSignedFact demo_content (from_content demo_content) (sign_with demo_signer (b32 (from_content demo_content))).
(** The same fact with its signature in upper case. *)
Definition demo_fact_upper : SignedFact := recased demo_fact.

Ltac fits_compute := apply fits_small, Nat.ltb_lt; vm_compute; reflexivity.

Lemma content_new_fits domain context body author parents :
  body_fits (normalize body) → fits (length (ids_sort_dedup parents)) →
  fits (length (ids_sort_dedup (ids_sort_dedup parents))) →
  fits (length (authority_use_subjects (normalize body) author)) →
  content_fits (content_new domain context body author parents).
Proof.
  intros Hb Hp Hpp Hs. split_and!; cbn [content_new fc_version fc_parents fc_authority_uses fc_body]; try done.
  - by rewrite length_fmap.
  - apply Forall_fmap, Forall_true. done.
Qed.

Lemma demo_content_fits : content_fits demo_content.
Proof. apply content_new_fits; fits_compute. Qed.

Lemma canonical_encoding_is_injective_witness :
  content_new EvictionProofDomain demo_context (normalize demo_body) (public_key demo_signer)
    [demo_id 1; demo_id 2; demo_id 1] = demo_content.
Proof.
  apply canonical_encoding_is_injective; [|apply demo_content_fits|vm_compute; reflexivity].
  apply content_new_fits; fits_compute.
Defined.

Lemma demo_fact_verifies : verify_fact demo_fact = Ok ().
Proof.
  apply verify_fact_Ok. cbn [sf_content sf_id sf_signature demo_fact].
  split_and!; [by apply (content_new_canonical demo_context demo_body)|done|].
  apply verify_signed.
Qed.

Lemma fact_identity_binds_content_witness : sf_content demo_fact = sf_content demo_fact_upper.
Proof.
  refine (proj1 (fact_identity_binds_content demo_fact demo_fact_upper _ _ _ _ _ _)).
  - exact demo_fact_verifies.
  - exact (verify_fact_recased demo_fact demo_fact_verifies).
  - exact demo_content_fits.
  - exact demo_content_fits.
  - exact (λ _, @eq_refl bytes (canonical_bytes demo_content)).
  - exact (@eq_refl FactId (from_content demo_content)).
Defined.

Lemma authored_fact_verifies_witness :
  ∃ f, sign demo_content demo_signer = Ok f ∧ verify_fact f = Ok () ∧ sf_content f = demo_content.
Proof. apply (authored_fact_verifies demo_context demo_body demo_signer [demo_id 2; demo_id 1]). discriminate. Defined.
