(* ===== verification/StorageCodec.v ===== *)
(** * The durable encoding of facts

    Models crates/myownmesh-core/src/semantic/storage_codec.rs: the compact row
    the store keeps of a signed fact, and the reconstruction of the fact from the
    row and its indexed columns.  The byte serialisation of the row is the
    third-party crate bincode: the class [RowFormat], whose law is its round trip. *)

From S2P Require Import Prelude Ranking Bytes DeviceId Identity Content.
Local Open Scope nat_scope.

Inductive StoredExclusiveCell : Type :=
| StoredRole (b : Bytes32) | StoredMembership (b : Bytes32) | StoredDecision (b : Bytes32).

Inductive StoredFactBody : Type :=
| StoredRoleGrant (target : Bytes32) (role : Role)
| StoredRoleRevoke (target : Bytes32)
| StoredEvict (target : Bytes32)
| StoredMembershipAdmit (target : Bytes32)
| StoredEvictionProof (target : Bytes32) (evidence : list Bytes32)
| StoredSelfStandDown (device_id : Bytes32) (evidence : list Bytes32)
| StoredAttestation (target proposal : Bytes32) (decision : AttestationDecision) (signer : Bytes32)
    (contributions : list Bytes32)
| StoredResolution (cell : StoredExclusiveCell) (cited_heads : list Bytes32) (selected_head : Bytes32)
| StoredAuthorityLineageResolution (subject : Bytes32) (cited_heads : list Bytes32) (selected_head : Bytes32).

Record StoredFact : Type := mkStoredFact {
  st_body : StoredFactBody;
  st_parents : list Bytes32;
  st_authority_predecessors : list (list Bytes32);
  st_signature : bytes;
}.

(** [bincode::serialize] and [bincode::deserialize] with trailing bytes rejected. *)
Class RowFormat : Type := {
  serialize : StoredFact → option bytes;
  deserialize : bytes → option StoredFact;
}.
Class RowFormatLaws `{!RowFormat} : Prop :=
  law_row_roundtrip s b : serialize s = Some b → deserialize b = Some s.

Inductive codec_error : Type :=
| InvalidContent (e : SemanticError) | SignatureNotDecodable | SignatureNotCanonical | SerializeFailed
| UnsupportedEncoding | DeserializeFailed | SignatureLength | NotADevice | UseCountMismatch | IdMismatch.

Definition MAGIC : bytes := str "MOMF" ++ [u8 1].

Definition stored_cell (c : ExclusiveCell) : StoredExclusiveCell :=
  match c with
  | RoleCell subject => StoredRole subject
  | MembershipCell subject => StoredMembership subject
  | DecisionCell proposal => StoredDecision proposal
  end.

Definition stored_body (b : FactBody) : StoredFactBody :=
  match b with
  | RoleGrant target role => StoredRoleGrant target role
  | RoleRevoke target => StoredRoleRevoke target
  | Evict target => StoredEvict target
  | MembershipAdmit target => StoredMembershipAdmit target
  | EvictionProof target evidence => StoredEvictionProof target evidence
  | SelfStandDown device evidence => StoredSelfStandDown device evidence
  | Attestation target proposal decision signer contributions =>
      StoredAttestation target proposal decision signer contributions
  | Resolution cell cited selected => StoredResolution (stored_cell cell) cited selected
  | AuthorityLineageResolution subject cited selected => StoredAuthorityLineageResolution subject cited selected
  end.

Section codec.
Context {crypto : Crypto} {format : RowFormat}.

(** [DeviceId::from_public_key_bytes]: the bytes must be a point. *)
Definition decoded_device (b : Bytes32) : result codec_error Device :=
  if verifying_key (b32 b) then Ok b else Err NotADevice.

Definition decoded_cell (c : StoredExclusiveCell) : result codec_error ExclusiveCell :=
  match c with
  | StoredRole subject => d ← decoded_device subject; Ok (RoleCell d)
  | StoredMembership subject => d ← decoded_device subject; Ok (MembershipCell d)
  | StoredDecision proposal => Ok (DecisionCell proposal)
  end.

Definition decoded_body (b : StoredFactBody) : result codec_error FactBody :=
  match b with
  | StoredRoleGrant target role => d ← decoded_device target; Ok (RoleGrant d role)
  | StoredRoleRevoke target => d ← decoded_device target; Ok (RoleRevoke d)
  | StoredEvict target => d ← decoded_device target; Ok (Evict d)
  | StoredMembershipAdmit target => d ← decoded_device target; Ok (MembershipAdmit d)
  | StoredEvictionProof target evidence => d ← decoded_device target; Ok (EvictionProof d evidence)
  | StoredSelfStandDown device evidence => d ← decoded_device device; Ok (SelfStandDown d evidence)
  | StoredAttestation target proposal decision signer contributions =>
      d ← decoded_device target; s ← decoded_device signer; Ok (Attestation d proposal decision s contributions)
  | StoredResolution cell cited selected => c ← decoded_cell cell; Ok (Resolution c cited selected)
  | StoredAuthorityLineageResolution subject cited selected =>
      d ← decoded_device subject; Ok (AuthorityLineageResolution d cited selected)
  end.

Definition storage_encode (f : SignedFact) : result codec_error bytes :=
  match validate (sf_content f) with
  | Err e => Err (InvalidContent e)
  | Ok _ =>
      match base32_decode (to_uppercase (sf_signature f)) with
      | None => Err SignatureNotDecodable
      | Some signature =>
          if negb (length signature =? 64) ||
             bool_decide (to_lowercase (base32_encode signature) ≠ sf_signature f)
          then Err SignatureNotCanonical
          else
            let stored := mkStoredFact (stored_body (fc_body (sf_content f))) (fc_parents (sf_content f))
                            (au_predecessors <$> fc_authority_uses (sf_content f)) signature in
            match serialize stored with
            | None => Err SerializeFailed
            | Some payload => Ok (MAGIC ++ payload)
            end
      end
  end.

(** [starts_with] and the slice after the magic. *)
Definition strip_magic (encoded : bytes) : option bytes :=
  if decide (take (length MAGIC) encoded = MAGIC) then Some (drop (length MAGIC) encoded) else None.

Definition storage_decode (encoded : bytes) (context : MeshContextId) (author id : Bytes32) : result codec_error SignedFact :=
  match strip_magic encoded with
  | None => Err UnsupportedEncoding
  | Some payload =>
      match deserialize payload with
      | None => Err DeserializeFailed
      | Some stored =>
          if negb (length (st_signature stored) =? 64) then Err SignatureLength
          else
            author ← decoded_device author;
            body ← decoded_body (st_body stored);
            let subjects := authority_use_subjects body author in
            if negb (length subjects =? length (st_authority_predecessors stored)) then Err UseCountMismatch
            else
              let content :=
                mkFactContent SEMANTIC_SCHEMA_VERSION (body_domain body) context body author (st_parents stored)
                  (zip_with mkAuthorityUse subjects (st_authority_predecessors stored)) in
              let fact := mkSignedFact content id (to_lowercase (base32_encode (st_signature stored))) in
              if decide (from_content content = id) then Ok fact else Err IdMismatch
      end
  end.

(** Every device a body names is a point: the invariant of the type [DeviceId]. *)
Definition cell_devices (c : ExclusiveCell) : list Device :=
  match c with RoleCell d | MembershipCell d => [d] | DecisionCell _ => [] end.
Definition body_devices (b : FactBody) : list Device :=
  match b with
  | RoleGrant d _ | RoleRevoke d | Evict d | MembershipAdmit d | EvictionProof d _ | SelfStandDown d _
  | AuthorityLineageResolution d _ _ => [d]
  | Attestation d _ _ s _ => [d; s]
  | Resolution c _ _ => cell_devices c
  end.
Definition fact_devices (f : SignedFact) : list Device := fc_author (sf_content f) :: body_devices (fc_body (sf_content f)).
Definition real_devices (f : SignedFact) : Prop := Forall (λ d, verifying_key (b32 d) = true) (fact_devices f).

Lemma decoded_device_Ok d : verifying_key (b32 d) = true → decoded_device d = Ok d.
Proof. unfold decoded_device. by intros ->. Qed.

Lemma decoded_stored_body b :
  Forall (λ d, verifying_key (b32 d) = true) (body_devices b) → decoded_body (stored_body b) = Ok b.
Proof.
  intros H. destruct b as [| | | | | | |cell cited selected|]; cbn [body_devices] in H;
    [..|destruct cell|]; cbn [stored_body stored_cell decoded_body decoded_cell cell_devices] in *;
    repeat (apply Forall_cons in H as [Hd H]; rewrite (decoded_device_Ok _ Hd); clear Hd); done.
Qed.

Lemma strip_magic_app payload : strip_magic (MAGIC ++ payload) = Some payload.
Proof. unfold strip_magic. rewrite take_app_length, drop_app_length. by destruct (decide _). Qed.

Context {laws : CryptoLaws} {format_laws : RowFormatLaws}.

Lemma storage_encode_Ok f b :
  storage_encode f = Ok b ↔
  canonical_content (sf_content f) ∧
  ∃ signature payload,
    base32_decode (to_uppercase (sf_signature f)) = Some signature ∧ length signature = 64 ∧
    to_lowercase (base32_encode signature) = sf_signature f ∧
    serialize (mkStoredFact (stored_body (fc_body (sf_content f))) (fc_parents (sf_content f))
                 (au_predecessors <$> fc_authority_uses (sf_content f)) signature) = Some payload ∧
    b = MAGIC ++ payload.
Proof.
  unfold storage_encode. destruct (validate (sf_content f)) as [[]|e] eqn:Hv.
  - apply validate_Ok in Hv. destruct (base32_decode _) as [sig|]; [|naive_solver].
    destruct (Nat.eqb_spec (length sig) 64); cbn [negb orb]; [|naive_solver].
    case_bool_decide; [naive_solver|]. destruct (serialize _) as [payload|] eqn:Hs; [|naive_solver].
    split; [intros [= <-]; eauto 10|]. intros (_ & ? & ? & [= <-] & _ & _ & Hp & ->). congruence.
  - split; [done|]. intros [Hc%validate_Ok _]. congruence.
Qed.

Lemma zip_uses uses :
  zip_with mkAuthorityUse (au_subject <$> uses) (au_predecessors <$> uses) = uses.
Proof. induction uses as [|[s p] uses IH]; [done|]. cbn. by f_equal. Qed.

Lemma decode_stored f b :
  real_devices f → sf_id f = from_content (sf_content f) → storage_encode f = Ok b →
  storage_decode b (fc_context (sf_content f)) (fc_author (sf_content f)) (sf_id f) = Ok f.
Proof.
  intros [Ha Hb]%Forall_cons Hid (Hc & sig & payload & _ & Hl & Hs & Hp & ->)%storage_encode_Ok.
  destruct Hc as (Hver & Hdom & _ & Hsub & _). unfold storage_decode. rewrite strip_magic_app, (law_row_roundtrip _ _ Hp).
  cbn [st_signature st_body st_authority_predecessors st_parents]. rewrite Hl. cbn [Nat.eqb negb].
  rewrite (decoded_device_Ok _ Ha). cbn [mbind result_bind]. rewrite (decoded_stored_body _ Hb). cbn [mbind result_bind].
  rewrite <- Hsub, !length_fmap, Nat.eqb_refl. cbn [negb]. rewrite zip_uses, <- Hver, <- Hdom, Hs.
  destruct f as [[v d x bo au ps us] id sg]; cbn in *. by rewrite decide_True.
Qed.

(** C37: storing a fact loses nothing: whatever the codec stores of a fact with its
    true identity, it reads back as the same fact, and what it reads back has
    canonical schema, domain and lineage subjects and the identity of its content. *)
Theorem stored_fact_roundtrip f b :
  real_devices f → sf_id f = from_content (sf_content f) → storage_encode f = Ok b →
  storage_decode b (fc_context (sf_content f)) (fc_author (sf_content f)) (sf_id f) = Ok f.
Proof. apply decode_stored. Qed.

(** a decoded row is what its indexed columns say: it carries the requested
    context, author and identity, the identity is the digest of the decoded
    content, and its lineage names exactly the subjects its body requires. *)
Theorem decoded_row_is_consistent b context author id f :
  storage_decode b context author id = Ok f →
  fc_context (sf_content f) = context ∧ fc_author (sf_content f) = author ∧ sf_id f = id ∧
  from_content (sf_content f) = id ∧ fc_version (sf_content f) = SEMANTIC_SCHEMA_VERSION ∧
  fc_domain (sf_content f) = body_domain (fc_body (sf_content f)) ∧
  au_subject <$> fc_authority_uses (sf_content f) =
    authority_use_subjects (fc_body (sf_content f)) (fc_author (sf_content f)).
Proof.
  unfold storage_decode. destruct (strip_magic b) as [payload|]; [|done]. destruct (deserialize payload) as [st|]; [|done].
  destruct (negb _); [done|]. unfold decoded_device at 1. destruct (verifying_key (b32 author)); [|done].
  cbn [mbind result_bind]. destruct (decoded_body _) as [body|]; [|done]. cbn [mbind result_bind].
  destruct (Nat.eqb_spec (length (authority_use_subjects body author)) (length (st_authority_predecessors st)))
    as [Hl|]; cbn [negb]; [|done].
  destruct (decide _) as [He|]; [|done]. intros [= <-]. cbn. split_and!; try done.
  rewrite fmap_zip_with_l; [done..|lia].
Qed.

(** verification and storage disagree on re-cased signatures: if a verified
    fact is storable and its signature has a letter, the same fact with its
    signature in upper case still verifies under the same identity, and the
    codec refuses to store it. *)
Theorem recased_signature_verifies_unstorable f b :
  verify_fact f = Ok () → storage_encode f = Ok b → to_ascii_uppercase (sf_signature f) ≠ sf_signature f →
  sf_id (recased f) = sf_id f ∧ verify_fact (recased f) = Ok () ∧ storage_encode (recased f) = Err SignatureNotCanonical.
Proof.
  intros Hv (Hc & sig & _ & Hd & Hl & Hs & _)%storage_encode_Ok Hne. split_and!; [done|by apply verify_fact_recased|].
  unfold storage_encode. cbn [recased sf_content sf_signature]. rewrite (proj2 (validate_Ok _) Hc), to_uppercase_recased, Hd, Hl.
  cbn [Nat.eqb negb orb]. rewrite Hs. by rewrite bool_decide_true by done.
Qed.
End codec.

(** ** Witnesses: a row format that satisfies the law *)
#[export] Instance role_countable : Countable Role.
Proof.
  refine (inj_countable' (λ r, match r with Member => 0 | Controller => 1 | Owner => 2 end)
            (λ n, match n with 0 => Member | 1 => Controller | _ => Owner end) _). by intros [].
Defined.
#[export] Instance decision_countable : Countable AttestationDecision.
Proof.
  refine (inj_countable' (λ r, match r with DecideEvict => 0 | DecideApprove => 1 | DecideReject => 2 end)
            (λ n, match n with 0 => DecideEvict | 1 => DecideApprove | _ => DecideReject end) _). by intros [].
Defined.
#[export] Instance stored_cell_eq_dec : EqDecision StoredExclusiveCell.
Proof. solve_decision. Defined.
#[export] Instance stored_cell_countable : Countable StoredExclusiveCell.
Proof.
  refine (inj_countable'
    (λ c, match c with StoredRole d => inl d | StoredMembership d => inr (inl d) | StoredDecision p => inr (inr p) end)
    (λ x, match x with inl d => StoredRole d | inr (inl d) => StoredMembership d | inr (inr p) => StoredDecision p end) _).
  by intros [].
Defined.
#[export] Instance stored_body_eq_dec : EqDecision StoredFactBody.
Proof. solve_decision. Defined.
#[export] Instance stored_body_countable : Countable StoredFactBody.
Proof.
  refine (inj_countable'
    (λ b, match b with
     | StoredRoleGrant t r => inl (inl (t, r))
     | StoredRoleRevoke t => inl (inr (inl t))
     | StoredEvict t => inl (inr (inr (inl t)))
     | StoredMembershipAdmit t => inl (inr (inr (inr t)))
     | StoredEvictionProof t l => inr (inl (inl (t, l)))
     | StoredSelfStandDown t l => inr (inl (inr (t, l)))
     | StoredAttestation t p d s l => inr (inr (inl (t, p, d, s, l)))
     | StoredResolution c l h => inr (inr (inr (inl (c, l, h))))
     | StoredAuthorityLineageResolution d l h => inr (inr (inr (inr (d, l, h))))
     end)
    (λ x, match x with
     | inl (inl (t, r)) => StoredRoleGrant t r
     | inl (inr (inl t)) => StoredRoleRevoke t
     | inl (inr (inr (inl t))) => StoredEvict t
     | inl (inr (inr (inr t))) => StoredMembershipAdmit t
     | inr (inl (inl (t, l))) => StoredEvictionProof t l
     | inr (inl (inr (t, l))) => StoredSelfStandDown t l
     | inr (inr (inl (t, p, d, s, l))) => StoredAttestation t p d s l
     | inr (inr (inr (inl (c, l, h)))) => StoredResolution c l h
     | inr (inr (inr (inr (d, l, h)))) => StoredAuthorityLineageResolution d l h
     end) _).
  by intros [].
Defined.
#[export] Instance stored_fact_eq_dec : EqDecision StoredFact.
Proof. solve_decision. Defined.
#[export] Instance stored_fact_countable : Countable StoredFact.
Proof.
  refine (inj_countable'
    (λ s, (st_body s, st_parents s, st_authority_predecessors s, st_signature s))
    (λ x, match x with (b, p, a, s) => mkStoredFact b p a s end) _).
  by intros [].
Defined.

(** Binary digits of a code number. *)
Fixpoint pos_digits (p : positive) : bytes :=
  match p with xH => [] | xO p => u8 48 :: pos_digits p | xI p => u8 49 :: pos_digits p end.
Fixpoint digits_pos (l : bytes) : positive :=
  match l with [] => xH | a :: l => if Ascii.eqb a (u8 49) then xI (digits_pos l) else xO (digits_pos l) end.

Lemma digits_pos_digits p : digits_pos (pos_digits p) = p.
Proof. induction p as [p IH|p IH|]; cbn [pos_digits digits_pos]; [|..]; try done; cbn; by rewrite IH. Qed.

#[export] Instance demo_format : RowFormat := {|
  serialize := λ s, Some (pos_digits (stdpp.countable.encode s));
  deserialize := λ b, stdpp.countable.decode (digits_pos b);
|}.

#[export] Instance demo_format_laws : RowFormatLaws.
Proof.
  intros s b [= <-]. cbn [deserialize demo_format]. rewrite digits_pos_digits. apply decode_encode.
Qed.

Lemma demo_fact_storable : is_ok (storage_encode demo_fact) = true.
Proof.
  destruct (storage_encode demo_fact) as [b|e] eqn:He; [done|]. exfalso.
  pose proof (proj1 (verify_fact_Ok _) demo_fact_verifies) as (Hc & _ & _).
  assert (∃ b, storage_encode demo_fact = Ok b) as [b Hb]; [|congruence].
  eexists. apply storage_encode_Ok. split; [done|]. do 2 eexists. split_and!; [| | |reflexivity..].
  - cbn [demo_fact sf_signature]. unfold sign_with.
    rewrite (uppercase_canonical base32_encode law_encode_alphabet). apply law_decode_encode.
  - apply law_sign_length.
  - done.
Qed.

Lemma recased_differs s : string_forall (λ a, Ascii.eqb (ascii_upper a) a) s = false → to_ascii_uppercase s ≠ s.
Proof.
  intros Hs He. apply not_true_iff_false in Hs. apply Hs. rewrite <- He. clear Hs He.
  unfold to_ascii_uppercase. rewrite string_forall_map. induction s as [|a s IH]; cbn; [done|].
  by rewrite IH, upper_upper.
Qed.

Lemma demo_signature_letter : string_forall (λ a, Ascii.eqb (ascii_upper a) a) (sf_signature demo_fact) = false.
Proof. vm_compute. reflexivity. Qed.

Lemma stored_fact_roundtrip_witness :
  ∃ b, storage_encode demo_fact = Ok b ∧
    storage_decode b (fc_context demo_content) (fc_author demo_content) (from_content demo_content) = Ok demo_fact.
Proof.
  pose proof demo_fact_storable as Hs. destruct (storage_encode demo_fact) as [b|e] eqn:He; [|discriminate Hs].
  exists b. split; [reflexivity|]. apply (stored_fact_roundtrip demo_fact b).
  - repeat constructor; apply Nat.eqb_eq, length_b32.
  - reflexivity.
  - exact He.
Defined.

Lemma decoded_row_is_consistent_witness :
  ∃ b, is_ok (storage_decode b (fc_context demo_content) (fc_author demo_content) (from_content demo_content)) = true ∧
    from_content (sf_content demo_fact) = from_content demo_content.
Proof.
  pose proof demo_fact_storable as Hs. destruct (storage_encode demo_fact) as [b|e] eqn:He; [|discriminate Hs].
  assert (Hd : storage_decode b (fc_context demo_content) (fc_author demo_content) (from_content demo_content) = Ok demo_fact).
  { apply (decode_stored demo_fact b); [repeat constructor; apply Nat.eqb_eq, length_b32|reflexivity|exact He]. }
  exists b. rewrite Hd. split; [reflexivity|].
  apply (decoded_row_is_consistent b (fc_context demo_content) (fc_author demo_content) (from_content demo_content)
           demo_fact Hd).
Defined.

Lemma recased_signature_verifies_unstorable_witness :
  verify_fact demo_fact_upper = Ok () ∧ storage_encode demo_fact_upper = Err SignatureNotCanonical.
Proof.
  pose proof demo_fact_storable as Hs. destruct (storage_encode demo_fact) as [b|e] eqn:He; [|discriminate Hs].
  apply (recased_signature_verifies_unstorable demo_fact b).
  - exact demo_fact_verifies.
  - exact He.
  - exact (recased_differs _ demo_signature_letter).
Defined.
