(* ===== verification/Merkle.v ===== *)
(** * The projection commitment

    Models the Patricia-Merkle commitment of
    crates/myownmesh-core/src/semantic/projection.rs: nodes with their digests,
    the update of one key along the 256 bits of its digest, and the commitment
    object.  [canonical] is the reference: the tree of a finite map.  The
    theorems show that updating in any order computes it, and that a root
    determines the map. *)

From S2P Require Import Prelude Ranking Bytes Identity.
Local Open Scope nat_scope.

Notation digest := Bytes32 (only parsing).
Notation entry := (bytes * digest)%type.

Inductive MerkleNode : Type :=
| Empty (hash : digest) (size : Z)
| Leaf (entries : list entry) (hash : digest) (size : Z)
| Branch (left right : MerkleNode) (hash : digest) (size : Z).

Definition node_hash (n : MerkleNode) : digest :=
  match n with Empty h _ | Leaf _ h _ | Branch _ _ h _ => h end.
Definition node_bytes (n : MerkleNode) : Z :=
  match n with Empty _ b | Leaf _ _ b | Branch _ _ _ b => b end.
Definition is_empty (n : MerkleNode) : bool := match n with Empty _ _ => true | _ => false end.

Definition PROJECTION_COMMITMENT_DOMAIN : bytes := str "myownmesh-v4/projection-patricia-merkle/v1".

(** [unwrap_or(u64::MAX)]. *)
Definition or_max (o : option Z) : Z := default u64_max o.

(** [u16::to_be_bytes] of a depth and the one-byte tags. *)
Definition be16 (depth : nat) : bytes := be_bytes 2 (Z.of_nat depth).

Definition empty_message (depth : nat) : bytes := PROJECTION_COMMITMENT_DOMAIN ++ str "e" ++ be16 depth.
Definition leaf_message (entries : list entry) : bytes :=
  PROJECTION_COMMITMENT_DOMAIN ++ str "l" ++ be64 (length entries) ++
  concat ((λ e, be64 (length e.1) ++ e.1 ++ b32 e.2) <$> entries).
Definition branch_message (depth : nat) (left right : digest) : bytes :=
  PROJECTION_COMMITMENT_DOMAIN ++ str "b" ++ be16 depth ++ b32 left ++ b32 right.
Definition key_message (key : bytes) : bytes :=
  PROJECTION_COMMITMENT_DOMAIN ++ str "k" ++ be64 (length key) ++ key.

(** [digest[depth / 8] & (0x80 >> (depth % 8)) != 0]. *)
Definition digest_bit (d : digest) (depth : nat) : bool :=
  let byte := Z.of_nat (Ascii.nat_of_ascii (nth (depth / 8) (b32 d) (Ascii.ascii_of_nat 0))) in
  negb (Z.land byte (Z.shiftr 128 (Z.of_nat (depth mod 8))) =? 0)%Z.

Section merkle.
Context {crypto : Crypto}.

Definition empty_node (depth : nat) : MerkleNode := Empty (sha256 (empty_message depth)) (1 + 32).

Definition leaf_node (entries : list entry) : MerkleNode :=
  Leaf entries (sha256 (leaf_message entries))
    (foldl (λ total e, or_max (checked_add u64_max total (Z.of_nat (length e.1) + 32))) (1 + 32)%Z entries).

Definition branch_node (depth : nat) (left right : MerkleNode) : MerkleNode :=
  Branch left right (sha256 (branch_message depth (node_hash left) (node_hash right)))
    (or_max (v ← checked_add u64_max (1 + 32) (node_bytes left); checked_add u64_max v (node_bytes right))).

Definition key_digest (key : bytes) : digest := sha256 (key_message key).

(** The entries of a node at depth 256, with [key] set or removed. *)
Definition update_entries (entries : list entry) (key : bytes) (value : option digest) : list entry :=
  match binary_search_by (λ e, bytes_cmp e.1 key) entries with
  | Ok index =>
      match value with
      | Some v => <[index := (key, v)]> entries
      | None => take index entries ++ drop (S index) entries
      end
  | Err index => match value with Some v => vec_insert index (key, v) entries | None => entries end
  end.

(** [update_merkle] at depth [256 - rest]. *)
Fixpoint update_merkle (rest : nat) (node : MerkleNode) (d : digest) (key : bytes) (value : option digest) :
    MerkleNode :=
  let depth := 256 - rest in
  match rest with
  | 0 =>
      let entries := match node with Leaf entries _ _ => entries | Empty _ _ | Branch _ _ _ _ => [] end in
      match update_entries entries key value with
      | [] => empty_node depth
      | entries => leaf_node entries
      end
  | S rest =>
      let '(l, r) :=
        match node with
        | Branch l r _ _ => (l, r)
        | Empty _ _ | Leaf _ _ _ => (empty_node (depth + 1), empty_node (depth + 1))
        end in
      let '(l, r) :=
        if digest_bit d depth then (l, update_merkle rest r d key value)
        else (update_merkle rest l d key value, r) in
      if is_empty l && is_empty r then empty_node depth else branch_node depth l r
  end.

Definition ProjectionCommitment : Type := MerkleNode.
Definition commitment_default : ProjectionCommitment := empty_node 0.
Definition commitment_apply (c : ProjectionCommitment) (key : bytes) (value : option digest) : ProjectionCommitment :=
  update_merkle 256 c (key_digest key) key value.
Definition commitment_root (c : ProjectionCommitment) : digest := node_hash c.
Definition retained_bytes (c : ProjectionCommitment) : Z := node_bytes c.

(** ** Entries of a map *)
Definition entry_cmp : entry → entry → comparison := pair_cmp bytes_cmp b32_cmp.

#[export] Instance entry_cmp_spec : CmpSpec entry_cmp.
Proof. apply pair_cmp_spec; apply _. Qed.

Notation kvmap := (gmap bytes digest).

(** The entries of a map in key order. *)
Definition entries_of (m : kvmap) : list entry := btree_set entry_cmp (map_to_list m).

Lemma elem_of_entries m k v : (k, v) ∈ entries_of m ↔ m !! k = Some v.
Proof. unfold entries_of. rewrite (elem_of_btree_set entry_cmp). apply elem_of_map_to_list. Qed.

Lemma entries_increasing m : increasing entry_cmp (entries_of m).
Proof. apply btree_set_increasing, _. Qed.

Lemma entries_inj m m' : entries_of m = entries_of m' → m = m'.
Proof.
  intros H. apply map_eq. intros k. apply option_eq. intros v. by rewrite <- !elem_of_entries, H.
Qed.

Lemma entries_empty : entries_of ∅ = [].
Proof. done. Qed.

Definition below (key : bytes) (m : kvmap) : kvmap := filter (λ p, bytes_cmp p.1 key = Lt) m.
Definition above (key : bytes) (m : kvmap) : kvmap := filter (λ p, bytes_cmp p.1 key = Gt) m.

Lemma entries_split key m :
  entries_of m = entries_of (below key m) ++
    match m !! key with Some v => [(key, v)] | None => [] end ++ entries_of (above key m).
Proof.
  assert (Hb : ∀ k v, (k, v) ∈ entries_of (below key m) ↔ m !! k = Some v ∧ bytes_cmp k key = Lt).
  { intros. rewrite elem_of_entries. unfold below. by rewrite map_lookup_filter_Some. }
  assert (Ha : ∀ k v, (k, v) ∈ entries_of (above key m) ↔ m !! k = Some v ∧ bytes_cmp k key = Gt).
  { intros. rewrite elem_of_entries. unfold above. by rewrite map_lookup_filter_Some. }
  assert (Hm : ∀ k v, (k, v) ∈ match m !! key with Some v => [(key, v)] | None => [] end ↔
                      m !! k = Some v ∧ k = key).
  { intros k v. destruct (m !! key) eqn:Hk.
    - rewrite list_elem_of_singleton. naive_solver.
    - rewrite elem_of_nil. naive_solver. }
  apply (increasing_unique entry_cmp); [apply entries_increasing| |].
  - apply increasing_app. split_and!; [apply entries_increasing|apply increasing_app; split_and!; [|apply entries_increasing|]|].
    + destruct (m !! key); repeat constructor.
    + intros [k v] [k' v'] [_ ->]%Hm [_ Hk]%Ha. unfold entry_cmp, pair_cmp. cbn [fst snd].
      apply (cmp_gt bytes_cmp) in Hk. by rewrite Hk.
    + intros [k v] [k' v'] [_ Hk]%Hb. rewrite elem_of_app, Hm, Ha. unfold entry_cmp, pair_cmp. cbn [fst snd].
      intros [[_ ->]|[_ Hk']]; [by rewrite Hk|]. apply (cmp_gt bytes_cmp) in Hk'.
      by rewrite (cmp_trans bytes_cmp k key k').
  - intros [k v]. rewrite !elem_of_app, Hb, Hm, Ha, elem_of_entries.
    destruct (bytes_cmp k key) eqn:Hk; [apply (cmp_eq bytes_cmp) in Hk as ->; tauto| |]; [naive_solver|naive_solver].
Qed.

(** Set or remove a key. *)
Definition set_key (key : bytes) (value : option digest) (m : kvmap) : kvmap := partial_alter (λ _, value) key m.

Lemma filter_set_key (P : bytes → Prop) `{!∀ k, Decision (P k)} key value m :
  filter (λ p, P p.1) (set_key key value m) =
  if decide (P key) then set_key key value (filter (λ p, P p.1) m) else filter (λ p, P p.1) m.
Proof.
  apply map_eq. intros k. unfold set_key. apply option_eq. intros v.
  destruct (decide (P key)) as [HP|HP]; destruct (decide (k = key)) as [->|Hk];
    rewrite ?map_lookup_filter_Some, ?lookup_partial_alter_eq, ?lookup_partial_alter_ne by done;
    rewrite ?map_lookup_filter_Some; cbn; try tauto.
Qed.

Lemma update_entries_spec m key value : update_entries (entries_of m) key value = entries_of (set_key key value m).
Proof.
  rewrite (entries_split key m), (entries_split key (set_key key value m)).
  assert (Hb : below key (set_key key value m) = below key m).
  { etransitivity; [exact (filter_set_key (λ k, bytes_cmp k key = Lt) key value m)|].
    destruct (decide _) as [H|]; [by rewrite (cmp_refl bytes_cmp) in H|done]. }
  assert (Ha : above key (set_key key value m) = above key m).
  { etransitivity; [exact (filter_set_key (λ k, bytes_cmp k key = Gt) key value m)|].
    destruct (decide _) as [H|]; [by rewrite (cmp_refl bytes_cmp) in H|done]. }
  rewrite Hb, Ha. unfold set_key at 1. rewrite lookup_partial_alter_eq.
  set (lo := entries_of (below key m)). set (hi := entries_of (above key m)).
  assert (Hlo : Forall (λ e : entry, bytes_cmp e.1 key = Lt) lo).
  { apply Forall_forall. intros [k v]. unfold lo, below. rewrite elem_of_entries, map_lookup_filter_Some. tauto. }
  assert (Hhi : Forall (λ e : entry, bytes_cmp e.1 key = Gt) hi).
  { apply Forall_forall. intros [k v]. unfold hi, above. rewrite elem_of_entries, map_lookup_filter_Some. tauto. }
  unfold update_entries. destruct (m !! key) as [v0|].
  - cbn [app]. rewrite binary_search_found by (done || apply (cmp_refl bytes_cmp)). destruct value as [v|].
    + replace (length lo) with (length lo + 0) by lia. by rewrite insert_app_r.
    + rewrite take_app_length, (drop_app_ge _ _ (S (length lo))) by lia.
      by replace (S (length lo) - length lo) with 1 by lia.
  - cbn [app]. rewrite binary_search_split by done. destruct value as [v|]; [|done].
    unfold vec_insert. by rewrite take_app_length, drop_app_length.
Qed.

(** ** The tree of a map *)
Definition side (bit : bool) (depth : nat) (m : kvmap) : kvmap :=
  filter (λ p, digest_bit (key_digest p.1) depth = bit) m.

Fixpoint canonical (rest : nat) (m : kvmap) : MerkleNode :=
  let depth := 256 - rest in
  if decide (m = ∅) then empty_node depth
  else
    match rest with
    | 0 => leaf_node (entries_of m)
    | S rest => branch_node depth (canonical rest (side false depth m)) (canonical rest (side true depth m))
    end.

Lemma canonical_S rest depth m :
  256 - S rest = depth →
  canonical (S rest) m =
  if decide (m = ∅) then empty_node depth
  else branch_node depth (canonical rest (side false depth m)) (canonical rest (side true depth m)).
Proof. by intros <-. Qed.

Lemma canonical_empty rest : canonical rest ∅ = empty_node (256 - rest).
Proof. destruct rest; cbn [canonical]; by rewrite decide_True. Qed.

Lemma is_empty_canonical rest m : is_empty (canonical rest m) = bool_decide (m = ∅).
Proof.
  destruct (decide (m = ∅)) as [->|Hm].
  - by rewrite canonical_empty, bool_decide_eq_true_2.
  - rewrite bool_decide_eq_false_2 by done. by destruct rest; cbn [canonical]; rewrite decide_False.
Qed.

Lemma side_set_key bit depth key value m :
  side bit depth (set_key key value m) =
  if decide (digest_bit (key_digest key) depth = bit) then set_key key value (side bit depth m) else side bit depth m.
Proof. unfold side. exact (filter_set_key (λ k, digest_bit (key_digest k) depth = bit) key value m). Qed.

Lemma sides_empty depth m : m = ∅ ↔ side false depth m = ∅ ∧ side true depth m = ∅.
Proof.
  split; [intros ->; by unfold side; rewrite !map_filter_empty|]. intros [Hf Ht].
  apply map_empty. intros k. apply eq_None_not_Some. intros [v Hv].
  assert (∀ b, side b depth m = ∅ → digest_bit (key_digest k) depth ≠ b) as Hb.
  { intros b Hs He. apply (lookup_empty_Some k v). rewrite <- Hs. unfold side. by rewrite map_lookup_filter_Some. }
  destruct (digest_bit (key_digest k) depth) eqn:He; [by apply (Hb true)|by apply (Hb false)].
Qed.

Lemma update_canonical rest m key value :
  rest ≤ 256 →
  update_merkle rest (canonical rest m) (key_digest key) key value = canonical rest (set_key key value m).
Proof.
  revert m. induction rest as [|rest IH]; intros m Hle.
  - cbn [update_merkle].
    assert (match canonical 0 m with Leaf entries _ _ => entries | _ => [] end = entries_of m) as ->.
    { cbn [canonical]. destruct (decide (m = ∅)) as [->|]; done. }
    rewrite update_entries_spec. cbn [canonical]. destruct (decide (set_key key value m = ∅)) as [->|Hne]; [done|].
    destruct (entries_of (set_key key value m)) as [|e l] eqn:He; [|done]. destruct Hne. by apply entries_inj.
  - assert (Hd : (256 - S rest) + 1 = 256 - rest) by lia.
    cbn [update_merkle]. remember (256 - S rest) as depth eqn:Hdepth. symmetry in Hdepth.
    assert (match canonical (S rest) m with
            | Branch l r _ _ => (l, r) | _ => (empty_node (depth + 1), empty_node (depth + 1)) end
            = (canonical rest (side false depth m), canonical rest (side true depth m))) as ->.
    { rewrite (canonical_S rest depth) by done. destruct (decide (m = ∅)) as [->|]; [|done].
      unfold side. rewrite !map_filter_empty, canonical_empty.
      rewrite <- Hd. reflexivity. }
    assert (Hsides : (if digest_bit (key_digest key) depth
              then (canonical rest (side false depth m),
                    update_merkle rest (canonical rest (side true depth m)) (key_digest key) key value)
              else (update_merkle rest (canonical rest (side false depth m)) (key_digest key) key value,
                    canonical rest (side true depth m)))
            = (canonical rest (side false depth (set_key key value m)),
               canonical rest (side true depth (set_key key value m)))).
    { rewrite !side_set_key. rewrite !IH by lia. by destruct (digest_bit (key_digest key) depth). }
    rewrite Hsides, !is_empty_canonical, (canonical_S rest depth) by done.
    destruct (decide (set_key key value m = ∅)) as [He|Hne].
    + apply (sides_empty depth) in He as [-> ->]. done.
    + destruct (_ && _) eqn:Hb; [|done]. apply andb_true_iff in Hb as [H1%bool_decide_eq_true H2%bool_decide_eq_true].
      destruct Hne. by apply (sides_empty depth).
Qed.

(** *** Any sequence of updates *)
Definition update : Type := bytes * option digest.
Definition apply_all (c : ProjectionCommitment) (us : list update) : ProjectionCommitment :=
  foldl (λ c u, commitment_apply c u.1 u.2) c us.
Definition set_all (m : kvmap) (us : list update) : kvmap := foldl (λ m u, set_key u.1 u.2 m) m us.

Lemma commitment_apply_canonical m key value :
  commitment_apply (canonical 256 m) key value = canonical 256 (set_key key value m).
Proof. apply update_canonical. lia. Qed.

Lemma apply_all_cons c u us : apply_all c (u :: us) = apply_all (commitment_apply c u.1 u.2) us.
Proof. reflexivity. Qed.

Lemma set_all_cons m u us : set_all m (u :: us) = set_all (set_key u.1 u.2 m) us.
Proof. reflexivity. Qed.

Lemma apply_all_canonical m us : apply_all (canonical 256 m) us = canonical 256 (set_all m us).
Proof.
  revert m. induction us as [|u us IH]; intros m; [reflexivity|].
  rewrite apply_all_cons, set_all_cons, commitment_apply_canonical. apply IH.
Qed.

Lemma default_canonical : commitment_default = canonical 256 ∅.
Proof. symmetry. apply (canonical_empty 256). Qed.

Lemma apply_all_default us : apply_all commitment_default us = canonical 256 (set_all ∅ us).
Proof. rewrite default_canonical. apply apply_all_canonical. Qed.

(** ** A root determines the map

    [canonical_messages] lists what is hashed to build a tree: the digest need
    only be free of collisions among the messages of the two trees compared. *)
Fixpoint canonical_messages (rest : nat) (m : kvmap) : list bytes :=
  let depth := 256 - rest in
  if decide (m = ∅) then [empty_message depth]
  else
    match rest with
    | 0 => [leaf_message (entries_of m)]
    | S rest =>
        branch_message depth (node_hash (canonical rest (side false depth m)))
          (node_hash (canonical rest (side true depth m)))
        :: canonical_messages rest (side false depth m) ++ canonical_messages rest (side true depth m)
    end.

Definition collision_free (l : list bytes) : Prop := ∀ x y, x ∈ l → y ∈ l → sha256 x = sha256 y → x = y.

Lemma collision_free_sub l l' : (∀ x, x ∈ l' → x ∈ l) → collision_free l → collision_free l'.
Proof. intros Hs Hcf x y Hx Hy. by apply Hcf; apply Hs. Qed.

(** Keys and counts that fit a length prefix. *)
Definition kv_fits (m : kvmap) : Prop := fits (size m) ∧ ∀ k v, m !! k = Some v → fits (length k).

Definition top_message (rest : nat) (m : kvmap) : bytes :=
  let depth := 256 - rest in
  if decide (m = ∅) then empty_message depth
  else
    match rest with
    | 0 => leaf_message (entries_of m)
    | S rest => branch_message depth (node_hash (canonical rest (side false depth m)))
                  (node_hash (canonical rest (side true depth m)))
    end.

Lemma top_message_elem rest m : top_message rest m ∈ canonical_messages rest m.
Proof. unfold top_message. destruct rest; cbn [canonical_messages]; destruct (decide (m = ∅)); by left. Qed.

Lemma canonical_hash rest m : node_hash (canonical rest m) = sha256 (top_message rest m).
Proof. unfold top_message. destruct rest; cbn [canonical]; by destruct (decide (m = ∅)). Qed.

Lemma entries_perm m : entries_of m ≡ₚ map_to_list m.
Proof.
  apply NoDup_Permutation; [eapply increasing_NoDup, entries_increasing|apply NoDup_map_to_list|].
  - apply _.
  - intros e. unfold entries_of. apply (elem_of_btree_set entry_cmp).
Qed.

Lemma length_entries m : length (entries_of m) = size m.
Proof. by rewrite entries_perm, length_map_to_list. Qed.

Lemma side_fits bit depth m : kv_fits m → kv_fits (side bit depth m).
Proof.
  intros [Hs Hk]. split.
  - assert (size (side bit depth m) ≤ size m); [|unfold fits in *; lia].
    rewrite <- !length_map_to_list. apply submseteq_length, map_to_list_submseteq, map_filter_subseteq.
  - intros k v. unfold side. rewrite map_lookup_filter_Some. intros [H _]. by eapply Hk.
Qed.

Lemma sides_inj depth m m' : side false depth m = side false depth m' → side true depth m = side true depth m' → m = m'.
Proof.
  intros Hf Ht. apply map_eq. intros k. apply option_eq. intros v.
  assert (Hb : ∀ b, digest_bit (key_digest k) depth = b → side b depth m = side b depth m' →
            m !! k = Some v ↔ m' !! k = Some v).
  { intros b Hb Hs. transitivity (side b depth m !! k = Some v); [|rewrite Hs];
      unfold side; rewrite map_lookup_filter_Some; cbn; tauto. }
  destruct (digest_bit (key_digest k) depth) eqn:He; [by apply (Hb true)|by apply (Hb false)].
Qed.

#[local] Instance entry_prefix : Prefix (λ e : entry, fits (length e.1)) (λ e, be64 (length e.1) ++ e.1 ++ b32 e.2).
Proof.
  intros [k v] [k' v'] r s Hk Hk'. cbn [fst snd] in *. rewrite <- !app_assoc. intros H.
  assert (H' : enc_bytes k ++ (b32 v ++ r) = enc_bytes k' ++ (b32 v' ++ s)) by (unfold enc_bytes; by rewrite <- !app_assoc).
  apply prefix_enc_bytes in H' as [-> H']; [|done..]. apply prefix_b32 in H' as [-> ->]; done.
Qed.

Lemma leaf_message_inj m m' :
  kv_fits m → kv_fits m' → leaf_message (entries_of m) = leaf_message (entries_of m') → m = m'.
Proof.
  intros [Hs Hk] [Hs' Hk'] H. apply app_inv_head, app_inv_head in H. apply entries_inj.
  assert (Hf : ∀ m, kv_fits m → fits (length (entries_of m)) ∧ Forall (λ e : entry, fits (length e.1)) (entries_of m)).
  { intros m0 [H1 H2]. rewrite length_entries. split; [done|]. apply Forall_forall. intros [k v].
    rewrite elem_of_entries. apply H2. }
  by apply (prefix_inj _ (enc_list (λ e : entry, be64 (length e.1) ++ e.1 ++ b32 e.2))); [apply Hf|apply Hf|].
Qed.

Lemma branch_message_inj depth l r l' r' :
  branch_message depth l r = branch_message depth l' r' → l = l' ∧ r = r'.
Proof.
  unfold branch_message. intros H. do 3 apply app_inv_head in H. apply prefix_b32 in H as [-> H]; [|done..].
  split; [done|]. by apply (inj b32).
Qed.

Lemma canonical_inj rest m m' :
  kv_fits m → kv_fits m' → collision_free (canonical_messages rest m ++ canonical_messages rest m') →
  node_hash (canonical rest m) = node_hash (canonical rest m') → m = m'.
Proof.
  revert m m'. induction rest as [|rest IH]; intros m m' Hm Hm' Hcf H; rewrite !canonical_hash in H;
    (apply Hcf in H; [|apply elem_of_app; left; apply top_message_elem|apply elem_of_app; right; apply top_message_elem]).
  - unfold top_message in H. cbn [canonical_messages] in Hcf. destruct (decide (m = ∅)) as [->|], (decide (m' = ∅)) as [->|]; [done|..].
    + by apply app_inv_head in H.
    + by apply app_inv_head in H.
    + by apply leaf_message_inj.
  - unfold top_message in H. cbn [canonical_messages] in Hcf. destruct (decide (m = ∅)) as [->|], (decide (m' = ∅)) as [->|]; [done|..].
    + by apply app_inv_head in H.
    + by apply app_inv_head in H.
    + apply branch_message_inj in H as [Hl Hr].
      apply (sides_inj (256 - S rest)); apply IH; try (by apply side_fits); try assumption;
        (eapply collision_free_sub; [|exact Hcf]); intros x; rewrite !elem_of_app, !elem_of_cons, !elem_of_app; tauto.
Qed.

(** incremental maintenance of the commitment is exact: after any sequence of
    insertions, replacements and removals the tree is the canonical tree of the
    resulting map, so it depends neither on the order of the updates nor on what
    was inserted and removed in between. *)
Theorem commitment_is_canonical us us' :
  apply_all commitment_default us = canonical 256 (set_all ∅ us) ∧
  (set_all ∅ us = set_all ∅ us' → apply_all commitment_default us = apply_all commitment_default us').
Proof. rewrite !apply_all_default. split; [done|by intros ->]. Qed.

(** C38: the root binds the map: two commitments with the same root are commitments
    to the same map, provided the digest has no collision among the messages that
    build the two trees. *)
Theorem commitment_root_binds_map us us' :
  let m := set_all ∅ us in
  let m' := set_all ∅ us' in
  kv_fits m → kv_fits m' → collision_free (canonical_messages 256 m ++ canonical_messages 256 m') →
  commitment_root (apply_all commitment_default us) = commitment_root (apply_all commitment_default us') →
  m = m'.
Proof. cbv zeta. rewrite !apply_all_default. apply canonical_inj. Qed.
End merkle.

(** ** Witnesses *)
Definition demo_update (k v : string) : update := (str k, Some (demo_sha256 (str v))).

Lemma commitment_is_canonical_witness :
  apply_all commitment_default [demo_update "a" "1"; demo_update "b" "2"; demo_update "a" "3"]
  = apply_all commitment_default [demo_update "a" "3"; demo_update "c" "4"; demo_update "b" "2"; (str "c", None)].
Proof.
  refine (proj2 (commitment_is_canonical
    [demo_update "a" "1"; demo_update "b" "2"; demo_update "a" "3"]
    [demo_update "a" "3"; demo_update "c" "4"; demo_update "b" "2"; (str "c", None)]) _).
  vm_compute. reflexivity.
Defined.

Lemma commitment_root_binds_map_witness : set_all ∅ [demo_update "a" "1"; (str "a", None)] = set_all ∅ [].
Proof.
  assert (He : set_all ∅ [demo_update "a" "1"; (str "a", None)] = ∅) by (vm_compute; reflexivity).
  assert (Hfits : kv_fits ∅).
  { split; [apply fits_small, Nat.ltb_lt; reflexivity|]. intros k v H. rewrite lookup_empty in H. discriminate H. }
  apply (commitment_root_binds_map [demo_update "a" "1"; (str "a", None)] []).
  - rewrite He. exact Hfits.
  - exact Hfits.
  - rewrite He. intros x y [Hx|Hx]%elem_of_app [Hy|Hy]%elem_of_app _;
      apply list_elem_of_singleton in Hx; apply list_elem_of_singleton in Hy; congruence.
  - rewrite (apply_all_default [demo_update "a" "1"; (str "a", None)]), He.
    rewrite (apply_all_default []). exact eq_refl.
Defined.
