(* ===== verification/HubIntroduction.v ===== *)
(** * Signed introductions

    Models crates/myownmesh-core/src/protocol/hub_introduction.rs and the hop of
    protocol/topology.rs: an envelope signed by its source that up to four
    forwarders extend, each signing its hop over a digest of everything before it.
    The JSON text of the signed tuples and the length of the whole frame are
    parameters; [encoded_json_len] fails where the text does. *)

From S2P Require Import Prelude Ranking Bytes DeviceId Identity EndpointAuth Content Merkle.
Local Open Scope Z_scope.

Definition HUB_INTRODUCTION_MAX_WIRE_BYTES : Z := 16384.
Definition HUB_INTRODUCTION_MAX_SDP_BYTES : Z := 8192.
Definition HUB_INTRODUCTION_MAX_CANDIDATE_BYTES : Z := 2048.
Definition HUB_INTRODUCTION_MAX_HOPS : Z := 4.

Definition nul : bytes := [Ascii.ascii_of_nat 0].
Definition DOMAIN : bytes := str "myownmesh-hub-introduction-v1" ++ nul.
Definition HOP_DOMAIN : bytes := str "myownmesh-hub-introduction-hop-v1" ++ nul.
Definition REQUEST_DOMAIN : bytes := str "myownmesh-hub-introduction-request-v1" ++ nul.
Definition MAX_SIGNING_DOMAIN_BYTES : Z := Z.of_nat (Nat.max (length DOMAIN) (length HOP_DOMAIN)).
Definition CANONICAL_WORK_BYTES : Z := HUB_INTRODUCTION_MAX_WIRE_BYTES + MAX_SIGNING_DOMAIN_BYTES.

Record IntroductionChallenge : Type := mkChallenge { request_hash : Bytes32; responder_challenge : Bytes32 }.
#[export] Instance challenge_eq_dec : EqDecision IntroductionChallenge.
Proof. solve_decision. Defined.

Inductive IntroductionRefusal : Type :=
  NotAdmitted | IntroductionCapacity | IntroductionExpired | Replay | NoRoute | Cancelled | Unsupported | OutcomeUnknown.

Inductive HubIntroductionBody : Type :=
| Request
| Accept
| Refuse (reason : IntroductionRefusal)
| Cancel
| Offer (sdp : string)
| Answer (sdp : string)
| Candidate (candidate : string) (sdp_mid : option string) (sdp_mline_index : option Z) (username_fragment : option string).

Record RoutedHop : Type := mkHop {
  forwarder : DeviceId;
  previous_remaining_ttl : Z;
  hop_remaining_ttl : Z;
  prior_digest : Bytes32;
  hop_signature : string;
}.

Record HubIntroductionEnvelope : Type := mkEnvelope {
  version : Z;
  context_id : Bytes32;
  source : DeviceId;
  destination : DeviceId;
  introduction_id : bytes;
  sequence : Z;
  challenge : option IntroductionChallenge;
  initial_hop_budget : Z;
  remaining_ttl : Z;
  body : HubIntroductionBody;
  env_signature : string;
  hops : list RoutedHop;
}.

Inductive HubIntroductionError : Type := Version | Coordinates | Body | SignatureRefused | Hop | ContextMismatch | Challenge | Wire | Work.

(** The signed tuples. *)
Record origin_fields : Type := mkOrigin {
  of_version : Z; of_context : Bytes32; of_source : string; of_destination : string; of_id : bytes; of_sequence : Z;
  of_challenge : option IntroductionChallenge; of_budget : Z; of_body : HubIntroductionBody;
}.
Record hop_fields : Type := mkHopFields {
  hf_context : Bytes32; hf_source : string; hf_destination : string; hf_id : bytes; hf_sequence : Z;
  hf_challenge : option IntroductionChallenge; hf_prior : Bytes32; hf_forwarder : string; hf_previous : Z; hf_remaining : Z;
}.

Class IntroductionJson : Type := {
  origin_json : origin_fields → option bytes;
  hop_json : hop_fields → option bytes;
  complete_encoded_len : HubIntroductionEnvelope → option Z;
}.

(** Different tuples have different texts, and a text holds no raw NUL. *)
Class IntroductionJsonLaws `{!IntroductionJson} : Prop := {
  law_origin_json a b t : origin_json a = Some t → origin_json b = Some t → a = b;
  law_hop_json a b t : hop_json a = Some t → hop_json b = Some t → a = b;
  law_no_nul a t : origin_json a = Some t → Ascii.ascii_of_nat 0 ∉ t;
}.

Section introduction.
Context {crypto : Crypto} {json : IntroductionJson}.

Definition signed_bytes (domain : bytes) (text : option bytes) : result HubIntroductionError bytes :=
  match text with
  | None => Err Wire
  | Some text =>
      if Z.of_nat (length text) + Z.of_nat (length domain) <=? CANONICAL_WORK_BYTES then Ok (domain ++ text) else Err Wire
  end.

Definition origin_of (e : HubIntroductionEnvelope) : origin_fields :=
  mkOrigin (version e) (context_id e) (id_canonical (source e)) (id_canonical (destination e)) (introduction_id e) (sequence e)
    (challenge e) (initial_hop_budget e) (body e).
Definition origin_bytes (e : HubIntroductionEnvelope) : result HubIntroductionError bytes :=
  signed_bytes DOMAIN (origin_json (origin_of e)).

Definition hop_of (e : HubIntroductionEnvelope) (h : RoutedHop) : hop_fields :=
  mkHopFields (context_id e) (id_canonical (source e)) (id_canonical (destination e)) (introduction_id e) (sequence e) (challenge e)
    (prior_digest h) (id_canonical (forwarder h)) (previous_remaining_ttl h) (hop_remaining_ttl h).
Definition hop_bytes (e : HubIntroductionEnvelope) (h : RoutedHop) : result HubIntroductionError bytes :=
  signed_bytes HOP_DOMAIN (hop_json (hop_of e h)).

Definition verify_signature (id : DeviceId) (message : bytes) (signature : string) : result HubIntroductionError () :=
  if negb (Nat.eqb (String.length signature) 103) || negb (string_forall lower_base32 signature) ||
     match verify (id_canonical id) message signature with Ok b => negb b | Err _ => true end
  then Err SignatureRefused else Ok ().

Definition next_digest (previous : Bytes32) (message : bytes) (signature : string) : Bytes32 :=
  sha256 (b32 previous ++ message ++ str signature).

Definition current_carrier (e : HubIntroductionEnvelope) : DeviceId :=
  match last (hops e) with Some h => forwarder h | None => source e end.

Definition validate_wire (e : HubIntroductionEnvelope) : result HubIntroductionError () :=
  match checked_sub (initial_hop_budget e) (Z.of_nat (length (hops e))) with
  | None => Err Hop
  | Some remaining_hops =>
      match (len ← complete_encoded_len e; checked_add usize_max len (remaining_hops * 512)) with
      | Some len => if len <=? HUB_INTRODUCTION_MAX_WIRE_BYTES then Ok () else Err Wire
      | None => Err Wire
      end
  end.

Definition canonical_id (id : DeviceId) : result HubIntroductionError () :=
  match canonical_key_bytes base32_decode base32_encode verifying_key (id_canonical id) with
  | Err _ => Err Coordinates
  | Ok key => if bool_decide (key ≠ id_bytes id) then Err Coordinates else Ok ()
  end.

Fixpoint canonical_ids (ids : list DeviceId) : result HubIntroductionError () :=
  match ids with [] => Ok () | id :: ids => canonical_id id;; canonical_ids ids end.

Definition zero32 : bytes := replicate 32 (Ascii.ascii_of_nat 0).

Definition validate_challenge_binding (e : HubIntroductionEnvelope) (expected : IntroductionChallenge)
    : result HubIntroductionError () :=
  if bool_decide (challenge e ≠ Some expected) || bool_decide (b32 (request_hash expected) = zero32) ||
     bool_decide (b32 (responder_challenge expected) = zero32)
  then Err Challenge else Ok ().

Definition bounded (text : string) (limit : Z) : bool :=
  negb (bool_decide (text = EmptyString)) && (Z.of_nat (length (str text)) <=? limit).

Definition valid_body (e : HubIntroductionEnvelope) : bool :=
  match body e with
  | Offer sdp | Answer sdp => bounded sdp HUB_INTRODUCTION_MAX_SDP_BYTES
  | Candidate candidate sdp_mid _ username_fragment =>
      bounded candidate HUB_INTRODUCTION_MAX_CANDIDATE_BYTES &&
      match sdp_mid with Some v => bounded v 64 | None => true end &&
      match username_fragment with Some v => bounded v 64 | None => true end
  | Request | Accept => sequence e =? 0
  | Refuse _ | Cancel => true
  end.

Definition challenge_fits (e : HubIntroductionEnvelope) : bool :=
  match body e, challenge e with
  | Request, Some _ => false
  | Request, None | Refuse _, _ => true
  | _, None => false
  | _, Some _ => true
  end.

Definition needs_sequence (b : HubIntroductionBody) : bool :=
  match b with Offer _ | Answer _ | Candidate _ _ _ _ | Cancel => true | _ => false end.

Definition validate_shape (e : HubIntroductionEnvelope) : result HubIntroductionError () :=
  if negb (version e =? 1) then Err Version
  else
    canonical_ids (source e :: destination e :: (forwarder <$> hops e));;
    if device_eq (source e) (destination e) || bool_decide (introduction_id e = replicate 16 (Ascii.ascii_of_nat 0)) then Err Coordinates
    else if negb ((1 <=? initial_hop_budget e) && (initial_hop_budget e <=? HUB_INTRODUCTION_MAX_HOPS)) ||
            (initial_hop_budget e <? remaining_ttl e) || (initial_hop_budget e <? Z.of_nat (length (hops e))) then Err Hop
    else if negb (valid_body e) then Err Body
    else if negb (challenge_fits e) then Err Challenge
    else
      match challenge e with Some c => validate_challenge_binding e c | None => Ok () end;;
      if needs_sequence (body e) && (sequence e =? 0) then Err Coordinates else Ok ().

(** The loop over the hops of [verify_for_previous_hop]. *)
Fixpoint verify_hops (e : HubIntroductionEnvelope) (l : list RoutedHop) (digest : Bytes32) (ttl : Z) : result HubIntroductionError Z :=
  match l with
  | [] => Ok ttl
  | h :: l =>
      if (ttl =? 0) || negb (previous_remaining_ttl h =? ttl) || negb (hop_remaining_ttl h =? ttl - 1) ||
         bool_decide (prior_digest h ≠ digest) then Err Hop
      else
        message ← hop_bytes e h;
        verify_signature (forwarder h) message (hop_signature h);;
        verify_hops e l (next_digest digest message (hop_signature h)) (hop_remaining_ttl h)
  end.

Definition verify_for_previous_hop (e : HubIntroductionEnvelope) (previous : DeviceId) (context : Bytes32) : result HubIntroductionError () :=
  if bool_decide (context_id e ≠ context) then Err ContextMismatch
  else
    validate_shape e;;
    validate_wire e;;
    message ← origin_bytes e;
    verify_signature (source e) message (env_signature e);;
    ttl ← verify_hops e (hops e) (sha256 message) (initial_hop_budget e);
    if negb (ttl =? remaining_ttl e) || negb (device_eq previous (current_carrier e)) then Err Hop else Ok ().

Definition with_signature (e : HubIntroductionEnvelope) (signature : string) : HubIntroductionEnvelope :=
  mkEnvelope (version e) (context_id e) (source e) (destination e) (introduction_id e) (sequence e) (challenge e)
    (initial_hop_budget e) (remaining_ttl e) (body e) signature (hops e).

Definition envelope_new (context_id : Bytes32) (source destination : DeviceId) (introduction_id : bytes) (sequence : Z)
    (challenge : option IntroductionChallenge) (initial_hop_budget : Z) (body : HubIntroductionBody) (key : SigningKey)
    : result HubIntroductionError HubIntroductionEnvelope :=
  if bool_decide (id_bytes source ≠ b32 (public_key key)) then Err SignatureRefused
  else
    let value := mkEnvelope 1 context_id source destination introduction_id sequence challenge initial_hop_budget initial_hop_budget
                   body EmptyString [] in
    validate_shape value;;
    validate_wire value;;
    message ← origin_bytes value;
    let value := with_signature value (sign_with key message) in
    validate_wire value;;
    Ok value.

Definition request_digest (e : HubIntroductionEnvelope) : result HubIntroductionError Bytes32 :=
  validate_shape e;;
  validate_wire e;;
  match body e with
  | Request =>
      message ← origin_bytes e;
      verify_signature (source e) message (env_signature e);;
      Ok (sha256 (REQUEST_DOMAIN ++ message ++ str (env_signature e)))
  | _ => Err Challenge
  end.

(** The digest after the hops, as [append_hop] recomputes it. *)
Fixpoint chain_digest (e : HubIntroductionEnvelope) (l : list RoutedHop) (digest : Bytes32) : result HubIntroductionError Bytes32 :=
  match l with
  | [] => Ok digest
  | h :: l => message ← hop_bytes e h; chain_digest e l (next_digest digest message (hop_signature h))
  end.

Definition with_hops (e : HubIntroductionEnvelope) (l : list RoutedHop) (ttl : Z) : HubIntroductionEnvelope :=
  mkEnvelope (version e) (context_id e) (source e) (destination e) (introduction_id e) (sequence e) (challenge e)
    (initial_hop_budget e) ttl (body e) (env_signature e) l.

(** [append_hop]: the envelope after the call, and the answer. *)
Definition append_hop (e : HubIntroductionEnvelope) (by_ : DeviceId) (key : SigningKey)
    : HubIntroductionEnvelope * result HubIntroductionError () :=
  let checks :=
    verify_for_previous_hop e (current_carrier e) (context_id e);;
    canonical_id by_;;
    if bool_decide (id_bytes by_ ≠ b32 (public_key key)) then Err SignatureRefused
    else if remaining_ttl e =? 0 then Err Hop
    else
      message ← origin_bytes e;
      digest ← chain_digest e (hops e) (sha256 message);
      let hop := mkHop by_ (remaining_ttl e) (remaining_ttl e - 1) digest EmptyString in
      message ← hop_bytes e hop;
      Ok (mkHop by_ (remaining_ttl e) (remaining_ttl e - 1) digest (sign_with key message)) in
  match checks with
  | Err err => (e, Err err)
  | Ok hop =>
      let e' := with_hops e (hops e ++ [hop]) (remaining_ttl e - 1) in
      match validate_wire e' with
      | Ok _ => (e', Ok ())
      | Err err => (with_hops e' (removelast (hops e')) (remaining_ttl e' + 1), Err err)
      end
  end.

Context {laws : CryptoLaws} {json_laws : IntroductionJsonLaws}.

(** ** What an accepted envelope says *)

(** The messages digested along a chain. *)
Fixpoint chain_messages (e : HubIntroductionEnvelope) (l : list RoutedHop) (digest : Bytes32) : list bytes :=
  match l with
  | [] => []
  | h :: l =>
      match hop_bytes e h with
      | Ok message =>
          (b32 digest ++ message ++ str (hop_signature h)) :: chain_messages e l (next_digest digest message (hop_signature h))
      | Err _ => []
      end
  end.

Definition envelope_messages (e : HubIntroductionEnvelope) : list bytes :=
  match origin_bytes e with Ok message => message :: chain_messages e (hops e) (sha256 message) | Err _ => [] end.

(** Hop [i] of a chain that started with a digest and a budget. *)
Record hop_ok (e : HubIntroductionEnvelope) (l : list RoutedHop) (digest : Bytes32) (ttl : Z) (i : nat) (h : RoutedHop) : Prop := {
  hk_prior : chain_digest e (take i l) digest = Ok (prior_digest h);
  hk_previous : previous_remaining_ttl h = ttl - Z.of_nat i;
  hk_remaining : hop_remaining_ttl h = ttl - Z.of_nat i - 1;
  hk_signed : ∃ m, hop_bytes e h = Ok m ∧ verify_signature (forwarder h) m (hop_signature h) = Ok () ∧
    b32 (prior_digest h) ++ m ++ str (hop_signature h) ∈ chain_messages e l digest;
}.

Lemma verify_hops_ok e l digest ttl t :
  verify_hops e l digest ttl = Ok t → 0 ≤ ttl →
  t = ttl - Z.of_nat (length l) ∧ 0 ≤ t ∧ ∀ i h, l !! i = Some h → hop_ok e l digest ttl i h.
Proof.
  revert digest ttl. induction l as [|h l IH]; intros digest ttl H Hpos; cbn [verify_hops] in H.
  { injection H as <-. cbn. split_and!; [lia|done|by intros i h]. }
  destruct ((ttl =? 0) || _ || _ || _) eqn:Hc; [done|]. apply orb_false_elim in Hc as [Hc Hd]. apply orb_false_elim in Hc as [Hc Hr].
  apply orb_false_elim in Hc as [Hz Hp]. apply Z.eqb_neq in Hz. apply negb_false_iff, Z.eqb_eq in Hp, Hr.
  apply bool_decide_eq_false in Hd. assert (Hd' : prior_digest h = digest) by (destruct (decide (prior_digest h = digest)); done). clear Hd.
  destruct (hop_bytes e h) as [m|] eqn:Hm; [|done]. cbn in H. destruct (verify_signature _ _ _) as [[]|] eqn:Hs; [|done]. cbn in H.
  rewrite Hr in H. destruct (IH _ _ H) as (-> & Ht & Hall); [lia|]. split_and!; [cbn [length]; lia|done|].
  intros [|i] g Hg; cbn in Hg.
  - injection Hg as <-. split; cbn; [by rewrite Hd'|lia..|]. exists m. rewrite Hm, Hd'. split_and!; try done. by left.
  - destruct (Hall i g Hg) as [Hpr Hpv Hrm (m' & ? & ? & ?)]. split; cbn; [by rewrite Hm|lia..|]. exists m'. rewrite Hm.
    split_and!; try done. by right.
Qed.

Lemma accepted_iff e previous context :
  verify_for_previous_hop e previous context = Ok () ↔
  context_id e = context ∧ validate_shape e = Ok () ∧ validate_wire e = Ok () ∧ device_eq previous (current_carrier e) = true ∧
  ∃ m, origin_bytes e = Ok m ∧ verify_signature (source e) m (env_signature e) = Ok () ∧
    verify_hops e (hops e) (sha256 m) (initial_hop_budget e) = Ok (remaining_ttl e).
Proof.
  unfold verify_for_previous_hop. split.
  - case_bool_decide as Hc; [done|]. intros H.
    destruct (validate_shape e) as [[]|]; [|done]. destruct (validate_wire e) as [[]|]; [|done]. cbn in H.
    destruct (origin_bytes e) as [m|]; [|done]. cbn in H. destruct (verify_signature _ _ _) as [[]|] eqn:Hs; [|done]. cbn in H.
    destruct (verify_hops _ _ _ _) as [t|] eqn:Hh; [|done]. cbn in H. destruct (_ || _) eqn:Hor; [done|].
    apply orb_false_elim in Hor as [Ht%negb_false_iff Hd%negb_false_iff]. apply Z.eqb_eq in Ht. subst t. split_and!; try done. by exists m.
  - intros (Hc & Hs & Hw & Hd & m & Hm & Hv & Hh). rewrite bool_decide_eq_false_2 by auto. rewrite Hs, Hw, Hm. cbn. rewrite Hv. cbn.
    rewrite Hh. cbn. by rewrite Z.eqb_refl, Hd.
Qed.

Lemma canonical_id_ok id : canonical_id id = Ok () ↔ canonical_key_bytes base32_decode base32_encode verifying_key (id_canonical id) = Ok (id_bytes id).
Proof.
  unfold canonical_id. destruct (canonical_key_bytes _ _ _ _) as [key|]; [|done]. case_bool_decide as Hk; [by split; [|intros [= ?]]|]. by rewrite Hk.
Qed.

Lemma canonical_ids_ok ids : canonical_ids ids = Ok () ↔ Forall (λ id, canonical_id id = Ok ()) ids.
Proof.
  induction ids as [|id ids IH]; cbn; [by split|]. rewrite Forall_cons, <- IH. destruct (canonical_id id) as [[]|]; cbn; naive_solver.
Qed.

Lemma shape_bounds e :
  validate_shape e = Ok () →
  Forall (λ id, canonical_id id = Ok ()) (source e :: destination e :: (forwarder <$> hops e)) ∧ version e = 1 ∧
  device_eq (source e) (destination e) = false ∧ 1 ≤ initial_hop_budget e ≤ HUB_INTRODUCTION_MAX_HOPS ∧ remaining_ttl e ≤ initial_hop_budget e.
Proof.
  unfold validate_shape. destruct (version e =? 1) eqn:Hv; [|done]. cbn [negb]. apply Z.eqb_eq in Hv. intros H.
  destruct (canonical_ids _) as [[]|] eqn:Hids; [|done]. cbn [mbind result_bind] in H. apply canonical_ids_ok in Hids.
  destruct (device_eq _ _) eqn:Hd; [done|]. cbn [orb] in H. case_bool_decide; [done|].
  destruct (negb _ || _ || _) eqn:Hb; [done|]. apply orb_false_elim in Hb as [Hb _]. apply orb_false_elim in Hb as [Hb Hr].
  apply negb_false_iff, andb_prop in Hb as [H1%Z.leb_le H2%Z.leb_le]. apply Z.ltb_ge in Hr. done.
Qed.

Lemma verify_signature_ok id m signature :
  verify_signature id m signature = Ok () ↔
  String.length signature = 103%nat ∧ string_forall lower_base32 signature = true ∧ verify (id_canonical id) m signature = Ok true.
Proof.
  unfold verify_signature. destruct (Nat.eqb_spec (String.length signature) 103) as [Hl|Hl]; cbn [negb orb]; [|naive_solver].
  destruct (string_forall _ _); cbn [negb orb]; [|naive_solver]. destruct (verify _ _ _) as [[]|]; cbn; naive_solver.
Qed.

(** ** A hop commits to everything before it *)
Lemma signed_bytes_ok domain text m : signed_bytes domain text = Ok m → ∃ t, text = Some t ∧ m = domain ++ t.
Proof. unfold signed_bytes. destruct text as [t|]; [|done]. destruct (_ <=? _); [|done]. intros [= <-]. by exists t. Qed.

Lemma origin_bytes_inj e1 e2 m : origin_bytes e1 = Ok m → origin_bytes e2 = Ok m → origin_of e1 = origin_of e2.
Proof.
  intros (t & H1 & ->)%signed_bytes_ok (t' & H2 & Heq)%signed_bytes_ok. apply app_inv_head in Heq as ->. by eapply law_origin_json.
Qed.

Lemma hop_bytes_inj e1 e2 h1 h2 m : hop_bytes e1 h1 = Ok m → hop_bytes e2 h2 = Ok m → hop_of e1 h1 = hop_of e2 h2.
Proof.
  intros (t & H1 & ->)%signed_bytes_ok (t' & H2 & Heq)%signed_bytes_ok. apply app_inv_head in Heq as ->. by eapply law_hop_json.
Qed.

(** An origin is not the digested form of a hop: a digest and the hop domain put a
    NUL where the origin has text. *)
Lemma origin_is_no_hop e1 e2 m h m' d rest : origin_bytes e1 = Ok m → hop_bytes e2 h = Ok m' → m ≠ b32 d ++ m' ++ rest.
Proof.
  intros (t & H1 & ->)%signed_bytes_ok (t' & H2 & ->)%signed_bytes_ok Heq. apply (law_no_nul _ _ H1).
  apply (f_equal (λ l, l !! 65%nat)) in Heq. rewrite lookup_app_r in Heq by (vm_compute; lia).
  rewrite lookup_app_r in Heq by (rewrite length_b32; lia). rewrite length_b32, <- app_assoc, lookup_app_l in Heq by (vm_compute; lia).
  change (HOP_DOMAIN !! (65 - 32)%nat) with (Some (Ascii.ascii_of_nat 0)) in Heq. by eapply list_elem_of_lookup_2.
Qed.

Lemma digested_inj (d1 d2 : Bytes32) m1 m2 s1 s2 :
  String.length s1 = 103%nat → String.length s2 = 103%nat →
  b32 d1 ++ m1 ++ str s1 = b32 d2 ++ m2 ++ str s2 → d1 = d2 ∧ m1 = m2 ∧ s1 = s2.
Proof.
  intros H1 H2 H. assert (Hlen : ∀ s, length (str s) = String.length s).
  { intros s. unfold str. induction s; cbn; congruence. }
  apply app_inj_1 in H as [Hd H]; [|by rewrite !length_b32]. apply app_inj_2 in H as [-> Hs]; [|by rewrite !Hlen, H1, H2].
  split_and!; [by apply (inj b32)|done|by apply (inj str)].
Qed.

Lemma chain_digest_snoc e l h d :
  chain_digest e (l ++ [h]) d = d' ← chain_digest e l d; m ← hop_bytes e h; Ok (next_digest d' m (hop_signature h)).
Proof.
  revert d. induction l as [|g l IH]; intros d; cbn.
  - by destruct (hop_bytes e h).
  - destruct (hop_bytes e g); cbn; [apply IH|done].
Qed.

(** One side of a comparison: an accepted envelope. *)
Record chained (e : HubIntroductionEnvelope) (m : bytes) : Prop := {
  cd_origin : origin_bytes e = Ok m;
  cd_ids : Forall (λ id, canonical_id id = Ok ()) (forwarder <$> hops e);
  cd_hops : ∀ i h, hops e !! i = Some h → hop_ok e (hops e) (sha256 m) (initial_hop_budget e) i h;
}.

Lemma accepted_chained e previous context : verify_for_previous_hop e previous context = Ok () → ∃ m, chained e m.
Proof.
  intros (_ & Hs%shape_bounds & _ & _ & m & Hm & _ & Hh)%accepted_iff. destruct Hs as (Hids & _ & _ & Hb & _).
  exists m. split; [done|by inversion Hids as [|? ? _ H]; inversion H|]. apply (verify_hops_ok _ _ _ _ _ Hh). lia.
Qed.

Lemma chained_message e m i h :
  chained e m → hops e !! i = Some h →
  ∃ t, hop_bytes e h = Ok t ∧ String.length (hop_signature h) = 103%nat ∧
    b32 (prior_digest h) ++ t ++ str (hop_signature h) ∈ envelope_messages e.
Proof.
  intros Hc Hi. destruct (cd_hops e m Hc i h Hi) as [_ _ _ (t & Ht & Hv & Hin)]. exists t. apply verify_signature_ok in Hv as (? & _).
  split_and!; try done. unfold envelope_messages. rewrite (cd_origin e m Hc). by right.
Qed.

(** The digest a hop carries, from the hop before it. *)
Lemma prior_of e m i h :
  chained e m → hops e !! i = Some h →
  (i = 0%nat ∧ prior_digest h = sha256 m) ∨
  ∃ k g t, i = S k ∧ hops e !! k = Some g ∧ hop_bytes e g = Ok t ∧ take i (hops e) = take k (hops e) ++ [g] ∧
    prior_digest h = sha256 (b32 (prior_digest g) ++ t ++ str (hop_signature g)).
Proof.
  intros Hc Hi. pose proof (hk_prior _ _ _ _ _ _ (cd_hops e m Hc i h Hi)) as Hp. destruct i as [|k].
  - left. by injection Hp as <-.
  - right. destruct (lookup_lt_is_Some_2 (hops e) k) as [g Hg]; [apply lookup_lt_Some in Hi; lia|].
    destruct (chained_message e m k g Hc Hg) as (t & Ht & _). exists k, g, t.
    pose proof (take_S_r (hops e) k g Hg) as Htake. split_and!; try done.
    rewrite Htake, chain_digest_snoc, (hk_prior _ _ _ _ _ _ (cd_hops e m Hc k g Hg)), Ht in Hp. by injection Hp as <-.
Qed.

Lemma same_forwarder (f g : DeviceId) :
  canonical_id f = Ok () → canonical_id g = Ok () → id_canonical f = id_canonical g → f = g.
Proof.
  rewrite !canonical_id_ok. intros Hf Hg He. rewrite He, Hg in Hf. injection Hf as Hb. destruct f, g. cbn in *. congruence.
Qed.

Lemma same_history e1 e2 m1 m2 :
  chained e1 m1 → chained e2 m2 → collision_free (envelope_messages e1 ++ envelope_messages e2) →
  ∀ i j h1 h2, hops e1 !! i = Some h1 → hops e2 !! j = Some h2 → prior_digest h1 = prior_digest h2 →
    i = j ∧ take i (hops e1) = take i (hops e2) ∧ origin_of e1 = origin_of e2.
Proof.
  intros C1 C2 Hcf. assert (Hm1 : m1 ∈ envelope_messages e1) by (unfold envelope_messages; rewrite (cd_origin _ _ C1); by left).
  assert (Hm2 : m2 ∈ envelope_messages e2) by (unfold envelope_messages; rewrite (cd_origin _ _ C2); by left).
  assert (Heq : ∀ x y, x ∈ envelope_messages e1 → y ∈ envelope_messages e2 → sha256 x = sha256 y → x = y).
  { intros x y Hx Hy. apply Hcf; apply elem_of_app; auto. }
  induction i as [|i IH]; intros j h1 h2 H1 H2 Hp;
    destruct (prior_of e1 m1 _ h1 C1 H1) as [[Hi P1]|(k & g & t & Hi & Hg & Ht & T1 & P1)]; try discriminate Hi; try injection Hi as <-;
    destruct (prior_of e2 m2 _ h2 C2 H2) as [[-> P2]|(k' & g' & t' & -> & Hg' & Ht' & T2 & P2)]; rewrite P1, P2 in Hp.
  - apply Heq in Hp as ->; [|done..]. split_and!; try done. eapply origin_bytes_inj; [apply C1|apply C2].
  - destruct (chained_message e2 m2 k' g' C2 Hg') as (u & Hu & _ & Hin). rewrite Ht' in Hu. injection Hu as <-.
    apply Heq in Hp; [|done..]. by apply (origin_is_no_hop e1 e2 _ _ _ _ _ (cd_origin _ _ C1) Ht') in Hp.
  - destruct (chained_message e1 m1 i g C1 Hg) as (u & Hu & _ & Hin). rewrite Ht in Hu. injection Hu as <-.
    apply Heq in Hp; [|done..]. symmetry in Hp. by apply (origin_is_no_hop e2 e1 _ _ _ _ _ (cd_origin _ _ C2) Ht) in Hp.
  - destruct (chained_message e1 m1 i g C1 Hg) as (u & Hu & L1 & Hin). rewrite Ht in Hu. injection Hu as <-.
    destruct (chained_message e2 m2 k' g' C2 Hg') as (u & Hu & L2 & Hin'). rewrite Ht' in Hu. injection Hu as <-.
    apply Heq in Hp; [|done..]. apply digested_inj in Hp as (Hd & -> & Hs); [|done..].
    destruct (IH k' g g' Hg Hg' Hd) as (-> & Htk & Ho). rewrite T1, T2, Htk. split_and!; try done. do 2 f_equal.
    pose proof (hop_bytes_inj _ _ _ _ _ Ht Ht') as Hh. unfold hop_of in Hh. injection Hh as _ _ _ _ _ _ _ Hf Hpv Hrm.
    apply same_forwarder in Hf; [destruct g, g'; cbn in *; congruence|..].
    + pose proof (cd_ids _ _ C1) as Hids. rewrite Forall_forall in Hids. apply Hids, list_elem_of_fmap. exists g. split; [done|by eapply list_elem_of_lookup_2].
    + pose proof (cd_ids _ _ C2) as Hids. rewrite Forall_forall in Hids. apply Hids, list_elem_of_fmap. exists g'. split; [done|by eapply list_elem_of_lookup_2].
Qed.

(** C35: A forwarder's signature commits to the whole history: if two accepted envelopes
    hold a hop with the same signed bytes, then, unless two of the messages digested
    along the two chains collide, the hops sit at the same place, the hops before
    them are the same, signatures included, and so is everything the source signed. *)
Theorem hop_signature_binds_history e1 e2 p1 p2 c1 c2 i j h1 h2 m :
  verify_for_previous_hop e1 p1 c1 = Ok () → verify_for_previous_hop e2 p2 c2 = Ok () →
  collision_free (envelope_messages e1 ++ envelope_messages e2) →
  hops e1 !! i = Some h1 → hops e2 !! j = Some h2 → hop_bytes e1 h1 = Ok m → hop_bytes e2 h2 = Ok m →
  i = j ∧ take i (hops e1) = take i (hops e2) ∧ origin_of e1 = origin_of e2.
Proof.
  intros [m1 C1]%accepted_chained [m2 C2]%accepted_chained Hcf H1 H2 B1 B2. apply (same_history e1 e2 m1 m2 C1 C2 Hcf i j h1 h2); try done.
  pose proof (hop_bytes_inj _ _ _ _ _ B1 B2) as Hh. unfold hop_of in Hh. by injection Hh.
Qed.

(** ** Forwarding *)
Inductive introduced : HubIntroductionEnvelope → Prop :=
| introduced_new context src dst id seq c budget b key e :
    envelope_new context src dst id seq c budget b key = Ok e → introduced e
| introduced_hop e by_ key e' : introduced e → append_hop e by_ key = (e', Ok ()) → introduced e'.

(** The codec spells a signature with 103 characters. *)
Context (signature_spelling : ∀ b, length b = 64%nat → String.length (base32_encode b) = 103%nat).

Lemma signed_by_id id key m :
  canonical_id id = Ok () → id_bytes id = b32 (public_key key) → verify_signature id m (sign_with key m) = Ok ().
Proof.
  intros Hc%canonical_id_ok Hb. apply verify_signature_ok. unfold canonical_key_bytes in Hc. rewrite Hb in Hc.
  destruct (negb _); [done|]. destruct (negb _); [done|]. destruct (base32_decode _) as [bs|]; [|done]. destruct (negb _); [done|].
  case_bool_decide as Hsp; [done|]. destruct (negb _); [done|]. injection Hc as ->.
  split_and!.
  - unfold sign_with, to_lowercase. rewrite length_string_map. apply signature_spelling, law_sign_length.
  - apply (canonical_alphabet base32_encode law_encode_alphabet).
  - rewrite <- Hsp. apply verify_signed.
Qed.

Lemma verify_hops_snoc e l h d ttl t d' m :
  verify_hops e l d ttl = Ok t → chain_digest e l d = Ok d' → t ≠ 0 → previous_remaining_ttl h = t → hop_remaining_ttl h = t - 1 →
  prior_digest h = d' → hop_bytes e h = Ok m → verify_signature (forwarder h) m (hop_signature h) = Ok () →
  verify_hops e (l ++ [h]) d ttl = Ok (t - 1).
Proof.
  revert d ttl. induction l as [|g l IH]; intros d ttl; cbn [verify_hops chain_digest app].
  - intros [= ->] [= ->] Hz -> -> -> Hm Hv. apply Z.eqb_neq in Hz. rewrite Hz, !Z.eqb_refl, bool_decide_eq_false_2 by auto. cbn.
    rewrite Hm. cbn. by rewrite Hv.
  - destruct (_ || _); [done|]. destruct (hop_bytes e g) as [mg|]; [|done]. cbn. destruct (verify_signature (forwarder g) mg _); [|done]. cbn.
    intros. by eapply IH.
Qed.

Lemma verify_hops_with e l' ttl' l d ttl : verify_hops (with_hops e l' ttl') l d ttl = verify_hops e l d ttl.
Proof.
  revert d ttl. induction l as [|h l IH]; intros d ttl; [done|]. cbn [verify_hops].
  change (hop_bytes (with_hops e l' ttl') h) with (hop_bytes e h). destruct (_ || _); [done|]. destruct (hop_bytes e h); [|done]. cbn.
  destruct (verify_signature _ _ _); [|done]. cbn. apply IH.
Qed.

Lemma shape_append e h :
  validate_shape e = Ok () → canonical_id (forwarder h) = Ok () → Z.of_nat (length (hops e)) < initial_hop_budget e →
  validate_shape (with_hops e (hops e ++ [h]) (remaining_ttl e - 1)) = Ok ().
Proof.
  intros Hs Hc Hl. destruct (shape_bounds e Hs) as (Hids & _ & _ & _ & Hr). unfold validate_shape in *.
  cbn [version source destination hops introduction_id initial_hop_budget remaining_ttl challenge sequence body with_hops].
  destruct (negb (version e =? 1)); [done|]. destruct (canonical_ids _) as [[]|]; [|done]. cbn [mbind result_bind] in Hs.
  rewrite (proj2 (canonical_ids_ok _)); [|rewrite fmap_app; cbn; rewrite app_comm_cons, app_comm_cons; apply Forall_app; split; [done|by constructor]].
  cbn [mbind result_bind]. destruct (device_eq _ _ || _); [done|]. destruct (negb ((1 <=? _) && _)); [done|]. cbn [orb] in *.
  destruct (Z.ltb_spec (initial_hop_budget e) (remaining_ttl e - 1)); [lia|].
  destruct (Z.ltb_spec (initial_hop_budget e) (Z.of_nat (length (hops e ++ [h])))) as [Hb|_]; [rewrite length_app in Hb; cbn in Hb; lia|]. cbn.
  destruct ((initial_hop_budget e <? remaining_ttl e) || _); [done|]. exact Hs.
Qed.

Lemma chain_digest_ok e l d ttl t : verify_hops e l d ttl = Ok t → ∃ d', chain_digest e l d = Ok d'.
Proof.
  revert d ttl. induction l as [|h l IH]; intros d ttl; cbn [verify_hops chain_digest]; [by eexists|].
  destruct (_ || _); [done|]. destruct (hop_bytes e h); [|done]. cbn. destruct (verify_signature _ _ _); [|done]. cbn. apply IH.
Qed.

Lemma append_accepted e by_ key e' :
  append_hop e by_ key = (e', Ok ()) →
  verify_for_previous_hop e (current_carrier e) (context_id e) = Ok () ∧
  verify_for_previous_hop e' by_ (context_id e) = Ok () ∧ origin_of e' = origin_of e ∧ remaining_ttl e' = remaining_ttl e - 1 ∧
  ∃ h, hops e' = hops e ++ [h] ∧ forwarder h = by_.
Proof.
  unfold append_hop. destruct (verify_for_previous_hop e _ _) as [[]|] eqn:Hv; [|done]. cbn [mbind result_bind].
  destruct (canonical_id by_) as [[]|] eqn:Hc; [|done]. cbn [mbind result_bind]. case_bool_decide as Hk; [done|].
  destruct (Z.eqb_spec (remaining_ttl e) 0) as [|Hz]; [done|].
  pose proof (proj1 (accepted_iff _ _ _) Hv) as (_ & Hs & _ & _ & m & Hm & Hsig & Hh). rewrite Hm. cbn [mbind result_bind].
  destruct (chain_digest_ok _ _ _ _ _ Hh) as [d Hd]. rewrite Hd. cbn [mbind result_bind].
  set (bare := mkHop by_ _ _ d EmptyString). destruct (hop_bytes e bare) as [t|] eqn:Ht; [|done]. cbn [mbind result_bind].
  set (h := mkHop by_ _ _ d (sign_with key t)). destruct (validate_wire _) as [[]|] eqn:Hw; [|done]. intros [= <-].
  destruct (shape_bounds e Hs) as (_ & _ & _ & Hb & _). destruct (verify_hops_ok _ _ _ _ _ Hh) as (Hr & Hpos & _); [lia|].
  split_and!; try done; [|by exists h]. apply accepted_iff.
  split_and!; [done|apply shape_append; [done|done|lia]|done| |].
  - unfold current_carrier. cbn [hops with_hops]. rewrite last_snoc. by apply bool_decide_eq_true.
  - exists m. split_and!; [done|done|]. cbn [hops with_hops initial_hop_budget remaining_ttl]. rewrite verify_hops_with.
    apply verify_hops_snoc with d t; try done. by apply signed_by_id.
Qed.

Lemma append_refused e by_ key e' err : append_hop e by_ key = (e', Err err) → e' = e.
Proof.
  unfold append_hop. destruct (verify_for_previous_hop _ _ _;; _) as [h|]; [|by intros [= <-]].
  destruct (validate_wire _); [done|]. intros [= <- _]. unfold with_hops. cbn [hops remaining_ttl]. rewrite removelast_last.
  destruct e. cbn. f_equal. lia.
Qed.

Lemma new_accepted context src dst id seq c budget b key e :
  envelope_new context src dst id seq c budget b key = Ok e → verify_for_previous_hop e src context = Ok () ∧ current_carrier e = src.
Proof.
  unfold envelope_new. case_bool_decide as Hk; [done|]. set (v := mkEnvelope _ _ _ _ _ _ _ _ _ _ _ _).
  destruct (validate_shape v) as [[]|] eqn:Hs; [|done]. destruct (validate_wire v) as [[]|] eqn:Hw; [|done]. cbn [mbind result_bind].
  destruct (origin_bytes v) as [m|] eqn:Hm; [|done]. cbn [mbind result_bind]. destruct (validate_wire (with_signature v _)) as [[]|] eqn:Hw'; [|done].
  cbn [mbind result_bind]. intros [= <-]. split; [|done]. apply accepted_iff. split_and!; try done.
  - by apply bool_decide_eq_true.
  - exists m. split_and!; try done. apply signed_by_id; [|done]. destruct (shape_bounds v Hs) as (Hids & _). by inversion Hids.
Qed.

(** Forwarding keeps an introduction valid and bounded: a fresh envelope and every
    envelope obtained from it by hops verify at the next hop as coming from the last
    forwarder, with the origin unchanged and the budget, at most four, equal to the
    hops taken plus the hops left; a refused hop leaves the envelope as it was, and
    with no budget left every hop is refused. *)
Theorem introductions_verify_along_the_way e :
  introduced e →
  verify_for_previous_hop e (current_carrier e) (context_id e) = Ok () ∧
  Z.of_nat (length (hops e)) + remaining_ttl e = initial_hop_budget e ∧ 1 ≤ initial_hop_budget e ≤ 4 ∧ 0 ≤ remaining_ttl e ∧
  ∀ by_ key e' r, append_hop e by_ key = (e', r) →
    match r with
    | Ok _ => origin_of e' = origin_of e ∧ current_carrier e' = by_ ∧ remaining_ttl e' = remaining_ttl e - 1 ∧ 0 < remaining_ttl e
    | Err _ => e' = e
    end.
Proof.
  intros Hi. assert (Hv : verify_for_previous_hop e (current_carrier e) (context_id e) = Ok ()).
  { induction Hi as [? ? ? ? ? ? ? ? ? e Hn|e by_ key e' _ _ Ha].
    - destruct (new_accepted _ _ _ _ _ _ _ _ _ _ Hn) as [Hv ->]. pose proof (proj1 (proj1 (accepted_iff _ _ _) Hv)) as ->. done.
    - destruct (append_accepted e by_ key e' Ha) as (_ & Hv & _ & _ & h & Hh & Hf).
      pose proof (proj1 (proj1 (accepted_iff _ _ _) Hv)) as ->. unfold current_carrier. by rewrite Hh, last_snoc, Hf. }
  pose proof (proj1 (accepted_iff _ _ _) Hv) as (_ & Hs & _ & _ & m & _ & _ & Hh).
  destruct (shape_bounds e Hs) as (_ & _ & _ & Hb & _). destruct (verify_hops_ok _ _ _ _ _ Hh) as (Hr & Hpos & _); [lia|].
  unfold HUB_INTRODUCTION_MAX_HOPS in Hb. split_and!; try done; try lia. intros by_ key e' [[]|err] Ha; [|by eapply append_refused].
  destruct (append_accepted e by_ key e' Ha) as (_ & Hv' & Ho & Ht & h & Hh' & Hf). split_and!; try done.
  - unfold current_carrier. by rewrite Hh', last_snoc.
  - pose proof (proj1 (accepted_iff _ _ _) Hv') as (_ & Hs' & _ & _ & m' & _ & _ & Hx). destruct (shape_bounds e' Hs') as (_ & _ & _ & Hb' & _).
    destruct (verify_hops_ok _ _ _ _ _ Hx) as (_ & ? & _); lia.
Qed.
End introduction.

(** ** A concrete introduction *)
Fixpoint demo_text (p : positive) : bytes :=
  match p with xH => [] | xO p => Ascii.ascii_of_nat 48 :: demo_text p | xI p => Ascii.ascii_of_nat 49 :: demo_text p end.

Lemma demo_text_inj p q : demo_text p = demo_text q → p = q.
Proof. revert q. induction p as [p IH|p IH|]; intros [q|q|]; cbn; try done; intros [= H%IH]; congruence. Qed.

Lemma demo_text_no_nul p : Ascii.ascii_of_nat 0 ∉ demo_text p.
Proof. induction p as [p IH|p IH|]; cbn; [..|by intros ?%elem_of_nil]; by intros [?|?]%elem_of_cons. Qed.

(** A body as a flat tuple. *)
Definition demo_body (b : HubIntroductionBody) : nat * string * option string * option Z * option string :=
  match b with
  | Request => (0%nat, "", None, None, None)
  | Accept => (1%nat, "", None, None, None)
  | Cancel => (2%nat, "", None, None, None)
  | Offer sdp => (3%nat, sdp, None, None, None)
  | Answer sdp => (4%nat, sdp, None, None, None)
  | Candidate c mid line frag => (5%nat, c, mid, line, frag)
  | Refuse NotAdmitted => (6%nat, "", None, None, None)
  | Refuse IntroductionCapacity => (7%nat, "", None, None, None)
  | Refuse IntroductionExpired => (8%nat, "", None, None, None)
  | Refuse Replay => (9%nat, "", None, None, None)
  | Refuse NoRoute => (10%nat, "", None, None, None)
  | Refuse Cancelled => (11%nat, "", None, None, None)
  | Refuse Unsupported => (12%nat, "", None, None, None)
  | Refuse OutcomeUnknown => (13%nat, "", None, None, None)
  end.

Lemma demo_body_inj a b : demo_body a = demo_body b → a = b.
Proof.
  destruct a as [| |[]| | | |]; destruct b as [| |[]| | | |]; cbn; try done; intros [=]; by subst.
Qed.

Definition demo_challenge (c : option IntroductionChallenge) : option (bytes * bytes) :=
  (λ c, (b32 (request_hash c), b32 (responder_challenge c))) <$> c.

Lemma demo_challenge_inj a b : demo_challenge a = demo_challenge b → a = b.
Proof.
  destruct a as [[a1 a2]|], b as [[b1 b2]|]; cbn; try done. intros [= H1 H2]. apply (inj b32) in H1, H2. by subst.
Qed.

(** Fields as digits, each closed by a comma. *)
Definition demo_fields (l : list positive) : bytes := concat ((λ p, demo_text p ++ [Ascii.ascii_of_nat 44]) <$> l).

Lemma demo_fields_inj l k : demo_fields l = demo_fields k → l = k.
Proof.
  revert k. induction l as [|p l IH]; intros [|q k]; cbn; try done; rewrite <- ?app_assoc; cbn.
  - by destruct (demo_text q).
  - by destruct (demo_text p).
  - assert (Hno : ∀ p, Ascii.ascii_of_nat 44 ∉ demo_text p).
    { induction p0 as [p' IHp|p' IHp|]; cbn; [..|by intros ?%elem_of_nil]; by intros [?|?]%elem_of_cons. }
    intros [Hp%demo_text_inj Hk%IH]%split_at; [congruence|apply Hno..].
Qed.

Lemma demo_fields_no_nul l : Ascii.ascii_of_nat 0 ∉ demo_fields l.
Proof.
  induction l as [|p l IH]; cbn; [by intros ?%elem_of_nil|]. rewrite !elem_of_app. intros [[?|Hc]|?]; [by eapply demo_text_no_nul| |done].
  by apply list_elem_of_singleton in Hc.
Qed.

#[local] Instance demo_json : IntroductionJson := {
  origin_json f := Some (demo_fields [encode (of_version f); encode (b32 (of_context f)); encode (of_source f); encode (of_destination f);
    encode (of_id f); encode (of_sequence f); encode (demo_challenge (of_challenge f)); encode (of_budget f); encode (demo_body (of_body f))]);
  hop_json f := Some (demo_fields [encode (b32 (hf_context f)); encode (hf_source f); encode (hf_destination f); encode (hf_id f);
    encode (hf_sequence f); encode (demo_challenge (hf_challenge f)); encode (b32 (hf_prior f)); encode (hf_forwarder f);
    encode (hf_previous f); encode (hf_remaining f)]);
  complete_encoded_len _ := Some 1000;
}.

#[local] Instance demo_json_laws : IntroductionJsonLaws.
Proof.
  split.
  - intros [] [] t [= <-] H. injection H as H. apply demo_fields_inj in H. injection H. intros. cbn in *.
    repeat match goal with Heq : encode _ = encode _ |- _ => apply (inj encode) in Heq end.
    f_equal; try done; [by apply (inj b32)|by apply demo_challenge_inj|by apply demo_body_inj].
  - intros [] [] t [= <-] H. injection H as H. apply demo_fields_inj in H. injection H. intros. cbn in *.
    repeat match goal with Heq : encode _ = encode _ |- _ => apply (inj encode) in Heq end.
    f_equal; try done; [by apply (inj b32)|by apply demo_challenge_inj|by apply (inj b32)].
  - intros a t [= <-]. apply demo_fields_no_nul.
Qed.

Definition demo_source : @SigningKey demo_crypto := demo_sha256 (str "source").
Definition demo_forwarder : @SigningKey demo_crypto := demo_sha256 (str "forwarder").
Definition demo_id (key : @SigningKey demo_crypto) : DeviceId := mkDeviceId (b32 (public_key key)) (spell (public_key key)).
Definition demo_new : result HubIntroductionError HubIntroductionEnvelope :=
  envelope_new (demo_sha256 (str "mesh")) (demo_id demo_source) (demo_id (demo_sha256 (str "target")))
    (replicate 16 (Ascii.ascii_of_nat 7)) 0 None 2 Request demo_source.
Definition demo_envelope : HubIntroductionEnvelope := match demo_new with Ok e => e | Err _ => mkEnvelope 0 (demo_sha256 []) (demo_id demo_source)
  (demo_id demo_source) [] 0 None 0 0 Request "" [] end.
Definition demo_forwarded : HubIntroductionEnvelope := (append_hop demo_envelope (demo_id demo_forwarder) demo_forwarder).1.

Lemma demo_introduced : introduced demo_envelope ∧ append_hop demo_envelope (demo_id demo_forwarder) demo_forwarder = (demo_forwarded, Ok ()).
Proof.
  split.
  - eapply introduced_new with (key := demo_source). unfold demo_envelope. assert (H : match demo_new with Ok _ => true | Err _ => false end = true)
      by (vm_compute; reflexivity). destruct demo_new as [e|] eqn:He; [exact He|done].
  - unfold demo_forwarded. assert (H : match (append_hop demo_envelope (demo_id demo_forwarder) demo_forwarder).2 with Ok _ => true | Err _ => false end = true)
      by (vm_compute; reflexivity). destruct (append_hop _ _ _) as [e [[]|]]; [done|done].
Qed.

Lemma demo_signature_spelling (b : bytes) : length b = 64%nat → String.length (base32_encode b) = 103%nat.
Proof.
  intros Hl. change (String.length (rfc4648_encode b) = 103%nat). unfold rfc4648_encode. rewrite length_join_bits, Hl.
  change ((8 * 64 + 4) / 5)%nat with 103%nat.
  assert (H : ∀ l, String.length (String.string_of_list_ascii l) = length l) by (induction l; cbn; congruence).
  by rewrite H, length_fmap, length_chunks.
Qed.

Definition no_collisions (l : list bytes) : bool :=
  forallb (λ x, forallb (λ y, implb (bool_decide (b32 (sha256 x) = b32 (sha256 y))) (bool_decide (x = y))) l) l.

Lemma no_collisions_twice l : no_collisions l = true → collision_free (l ++ l).
Proof.
  unfold no_collisions. intros Hcf x y Hx Hy Heq. rewrite forallb_forall in Hcf.
  assert (Hin : ∀ z, z ∈ l ++ l → List.In z l) by (intros z Hz; apply list_elem_of_In; apply elem_of_app in Hz as []; assumption).
  specialize (Hcf x (Hin x Hx)). rewrite forallb_forall in Hcf. specialize (Hcf y (Hin y Hy)).
  rewrite (bool_decide_eq_true_2 _ (f_equal b32 Heq)) in Hcf. exact (bool_decide_eq_true_1 _ Hcf).
Qed.

Lemma demo_messages_differ : collision_free (envelope_messages demo_forwarded ++ envelope_messages demo_forwarded).
Proof. apply no_collisions_twice. vm_compute. reflexivity. Qed.

Lemma introductions_verify_along_the_way_witness :
  current_carrier demo_forwarded = demo_id demo_forwarder ∧
  verify_for_previous_hop demo_forwarded (current_carrier demo_forwarded) (context_id demo_forwarded) = Ok ().
Proof.
  split.
  - destruct (introductions_verify_along_the_way demo_signature_spelling demo_envelope (proj1 demo_introduced)) as (_ & _ & _ & _ & Hstep).
    exact (proj1 (proj2 (Hstep _ _ _ _ (proj2 demo_introduced)))).
  - exact (proj1 (introductions_verify_along_the_way demo_signature_spelling demo_forwarded
             (introduced_hop _ _ _ _ (proj1 demo_introduced) (proj2 demo_introduced)))).
Defined.

Lemma hop_signature_binds_history_witness :
  ∃ h m, hops demo_forwarded !! 0%nat = Some h ∧ hop_bytes demo_forwarded h = Ok m ∧
    take 0 (hops demo_forwarded) = take 0 (hops demo_forwarded).
Proof.
  destruct (append_accepted demo_signature_spelling _ _ _ _ (proj2 demo_introduced)) as (_ & Hv & _ & _ & h & Hh & _).
  assert (He : hops demo_envelope = []) by (vm_compute; reflexivity). rewrite He in Hh.
  assert (H0 : hops demo_forwarded !! 0%nat = Some h) by (rewrite Hh; reflexivity).
  destruct (accepted_chained _ _ _ Hv) as [o Hc]. destruct (chained_message _ _ _ _ Hc H0) as (m & Hm & _).
  exists h, m. split; [exact H0|]. split; [exact Hm|].
  exact (proj1 (proj2 (hop_signature_binds_history demo_forwarded demo_forwarded _ _ _ _ 0%nat 0%nat h h m Hv Hv demo_messages_differ H0 H0 Hm Hm))).
Defined.
