(* ===== verification/Ancestry.v ===== *)
(** * Walks over the causal graph

    The worklist loops of crates/myownmesh-core/src/semantic/causal.rs and
    projection.rs share one shape: a stack of identities, a set of those already
    visited, and the edges of the fact map.  [search] and [closure] are the two
    variants (stop at a target; collect everything); the section shows that the
    fuel [walk_fuel] always suffices and that they compute exactly reachability.
    The rest of the file are the walks of the source as instances, and the
    maximal heads of a set of facts. *)

From S2P Require Import Prelude Ranking Bytes Identity Content.
Local Open Scope nat_scope.

Notation FactMap := (gmap FactId SignedFact).

Section walk.
Context (next : FactId → list FactId).

(** [while let Some(id) = pending.pop()]: the stack's top is the head; pushing a
    list leaves its last element on top. *)
Fixpoint search (hit : FactId → bool) (fuel : nat) (pending : list FactId) (seen : gset FactId) : option bool :=
  match pending with
  | [] => Some false
  | id :: rest =>
      match fuel with
      | 0 => None
      | S fuel =>
          if decide (id ∈ seen) then search hit fuel rest seen
          else if hit id then Some true
          else search hit fuel (reverse (next id) ++ rest) ({[id]} ∪ seen)
      end
  end.

Fixpoint closure (fuel : nat) (pending : list FactId) (seen : gset FactId) : option (gset FactId) :=
  match pending with
  | [] => Some seen
  | id :: rest =>
      match fuel with
      | 0 => None
      | S fuel =>
          if decide (id ∈ seen) then closure fuel rest seen
          else closure fuel (reverse (next id) ++ rest) ({[id]} ∪ seen)
      end
  end.

Definition edge (a b : FactId) : Prop := b ∈ next a.

(** *** Exactness *)
Lemma search_sound hit fuel pending seen :
  search hit fuel pending seen = Some true → ∃ start x, start ∈ pending ∧ rtc edge start x ∧ hit x = true.
Proof.
  revert pending seen. induction fuel as [|fuel IH]; intros [|id rest] seen; cbn [search]; try done.
  destruct (decide (id ∈ seen)).
  { intros (s & x & Hs & Hr)%IH. exists s, x. split; [by right|done]. }
  destruct (hit id) eqn:Hit.
  { intros _. exists id, id. split; [by left|done]. }
  intros (s & x & [Hs|Hs]%elem_of_app & Hr & Hx)%IH; [rewrite elem_of_reverse in Hs|exists s, x; split; [by right|done]].
  exists id, x. split_and!; [by left| |done]. eapply rtc_l; [exact Hs|exact Hr].
Qed.

(** What the loop maintains: visited nodes are no hits and all their successors
    are visited or pending. *)
Definition explored (hit : FactId → bool) (pending : list FactId) (seen : gset FactId) : Prop :=
  ∀ x, x ∈ seen → hit x = false ∧ ∀ y, edge x y → y ∈ seen ∨ y ∈ pending.

Lemma explored_skip hit id rest seen :
  id ∈ seen → explored hit (id :: rest) seen → explored hit rest seen.
Proof.
  intros Hid He x Hx. destruct (He x Hx) as [Hh Hy]. split; [done|]. intros y Hxy.
  destruct (Hy y Hxy) as [?|[->|?]%elem_of_cons]; auto.
Qed.

Lemma explored_visit hit id rest seen :
  hit id = false → explored hit (id :: rest) seen →
  explored hit (reverse (next id) ++ rest) ({[id]} ∪ seen).
Proof.
  intros Hh He x [->%elem_of_singleton|Hx]%elem_of_union.
  - split; [done|]. intros y Hxy. right. apply elem_of_app. left. rewrite elem_of_reverse. exact Hxy.
  - destruct (He x Hx) as [? Hy]. split; [done|]. intros y Hxy.
    destruct (Hy y Hxy) as [Hs|[->|Hr]%elem_of_cons].
    + left. by apply elem_of_union_r.
    + left. by apply elem_of_union_l, elem_of_singleton.
    + right. by apply elem_of_app; right.
Qed.

Lemma explored_closed hit seen x y : explored hit [] seen → x ∈ seen → rtc edge x y → y ∈ seen ∧ hit y = false.
Proof.
  intros He Hx Hr. induction Hr as [x|x y z Hxy _ IH]; [split; [done|by apply He]|].
  destruct (He x Hx) as [_ Hy]. destruct (Hy y Hxy) as [?|?%elem_of_nil]; [by apply IH|done].
Qed.

Lemma search_complete hit fuel pending seen :
  explored hit pending seen → search hit fuel pending seen = Some false →
  ∀ start x, start ∈ pending ∨ start ∈ seen → rtc edge start x → hit x = false.
Proof.
  revert pending seen. induction fuel as [|fuel IH]; intros [|id rest] seen He; cbn [search]; try done.
  - intros _ start x [?%elem_of_nil|Hs] Hr; [done|]. by eapply explored_closed in Hr as [_ ?].
  - intros _ start x [?%elem_of_nil|Hs] Hr; [done|]. by eapply explored_closed in Hr as [_ ?].
  - destruct (decide (id ∈ seen)) as [Hin|Hnin].
    { intros Hs start x Hst. eapply IH; [by eapply explored_skip|exact Hs|].
      destruct Hst as [[->|?]%elem_of_cons|?]; auto. }
    destruct (hit id) eqn:Hit; [done|]. intros Hs start x Hst.
    eapply IH; [by apply explored_visit|exact Hs|].
    destruct Hst as [[->|?]%elem_of_cons|?].
    + right. by apply elem_of_union_l, elem_of_singleton.
    + left. by apply elem_of_app; right.
    + right. by apply elem_of_union_r.
Qed.

Lemma closure_sound fuel pending seen s :
  closure fuel pending seen = Some s → ∀ x, x ∈ s → x ∈ seen ∨ ∃ start, start ∈ pending ∧ rtc edge start x.
Proof.
  revert pending seen. induction fuel as [|fuel IH]; intros [|id rest] seen; cbn [closure]; try done.
  - intros [= ->]. auto.
  - intros [= ->]. auto.
  - destruct (decide (id ∈ seen)).
    { intros Hc x Hx. destruct (IH _ _ Hc x Hx) as [?|(st & ? & ?)]; [by left|]. right. exists st. by split; [right|]. }
    intros Hc x Hx. destruct (IH _ _ Hc x Hx) as [[->%elem_of_singleton|?]%elem_of_union|(st & Hst & Hr)]; [|by left|].
    { right. exists id. split; [by left|done]. }
    right. apply elem_of_app in Hst as [Hst|Hst].
    + rewrite elem_of_reverse in Hst. exists id. split; [by left|]. eapply rtc_l; [exact Hst|exact Hr].
    + exists st. by split; [right|].
Qed.

Lemma closure_complete fuel pending seen s :
  explored (λ _, false) pending seen → closure fuel pending seen = Some s →
  seen ⊆ s ∧ (∀ x, x ∈ pending → x ∈ s) ∧ explored (λ _, false) [] s.
Proof.
  revert pending seen. induction fuel as [|fuel IH]; intros [|id rest] seen He; cbn [closure]; try done.
  - intros [= ->]. split_and!; [done| |done]. by intros x ?%elem_of_nil.
  - intros [= ->]. split_and!; [done| |done]. by intros x ?%elem_of_nil.
  - destruct (decide (id ∈ seen)) as [Hin|Hnin].
    + intros Hc. apply IH in Hc as (H1 & H2 & H3); [|by eapply explored_skip]. split_and!; [done| |done].
      intros x [->|Hx]%elem_of_cons; auto.
    + intros Hc. apply IH in Hc as (H1 & H2 & H3); [|by apply explored_visit]. split_and!; [set_solver| |done].
      intros x [->|Hx]%elem_of_cons; [apply H1; set_solver|]. apply H2, elem_of_app. by right.
Qed.

Lemma closure_exact fuel pending s x :
  closure fuel pending ∅ = Some s → x ∈ s ↔ ∃ start, start ∈ pending ∧ rtc edge start x.
Proof.
  intros Hc. split.
  - intros Hx. by destruct (closure_sound _ _ _ _ Hc x Hx) as [?%elem_of_empty|].
  - intros (st & Hst & Hr). apply closure_complete in Hc as (_ & H2 & H3); [|by intros y ?%elem_of_empty].
    apply H2 in Hst. by eapply explored_closed in Hr as [? _].
Qed.

Lemma search_exact hit fuel pending b :
  search hit fuel pending ∅ = Some b → b = true ↔ ∃ start x, start ∈ pending ∧ rtc edge start x ∧ hit x = true.
Proof.
  intros Hs. destruct b.
  - split; [intros _; by eapply search_sound|done].
  - split; [done|]. intros (st & x & Hst & Hr & Hx). exfalso.
    enough (hit x = false) by congruence.
    eapply search_complete; [|exact Hs|by left; exact Hst|exact Hr]. by intros y ?%elem_of_empty.
Qed.

(** *** Termination: each round removes a pending entry, and adds the successors
    of a node only the first time it is visited *)
Context {A : Type} (m : gmap FactId A) (Hnext : ∀ id, m !! id = None → next id = []).

Definition weight (seen : gset FactId) (dom_list : list FactId) : nat :=
  sum_list ((λ id, if decide (id ∈ seen) then 0 else length (next id)) <$> dom_list).

Definition walk_fuel (pending : list FactId) : nat :=
  length pending + sum_list ((λ id, length (next id)) <$> (map_to_list m).*1).

Lemma weight_visit seen id l :
  NoDup l → id ∉ seen → (id ∈ l ∨ next id = []) → weight ({[id]} ∪ seen) l + length (next id) = weight seen l ∨
  (id ∉ l ∧ weight ({[id]} ∪ seen) l = weight seen l).
Proof.
  intros Hnd Hid. induction Hnd as [|x l Hx Hnd IH]; intros Hin.
  { right. split; [apply not_elem_of_nil|done]. }
  unfold weight in *. cbn [fmap list_fmap sum_list].
  destruct (decide (x = id)) as [->|Hne].
  - left. rewrite decide_True by set_solver. rewrite (decide_False (P := id ∈ seen)) by done.
    assert (Hrest : sum_list ((λ i, if decide (i ∈ {[id]} ∪ seen) then 0 else length (next i)) <$> l)
              = sum_list ((λ i, if decide (i ∈ seen) then 0 else length (next i)) <$> l)).
    { f_equal. apply list_fmap_ext. intros i y Hy. apply list_elem_of_lookup_2 in Hy.
      destruct (decide (y ∈ seen)); [by rewrite decide_True by set_solver|].
      rewrite decide_False; [done|]. intros [->%elem_of_singleton|]%elem_of_union; done. }
    cbn in *. rewrite Hrest. lia.
  - assert (Hxs : (x ∈ ({[id]} ∪ seen : gset FactId)) ↔ x ∈ seen) by set_solver.
    assert (Hhd : (if decide (x ∈ ({[id]} ∪ seen : gset FactId)) then 0 else length (next x))
              = (if decide (x ∈ seen) then 0 else length (next x))).
    { destruct (decide (x ∈ seen)); [by rewrite decide_True by tauto|by rewrite decide_False by tauto]. }
    cbn. rewrite Hhd. destruct IH as [IH|[Hn IH]].
    + destruct Hin as [[->|?]%elem_of_cons|?]; [done|by left|by right].
    + left. cbn in IH. lia.
    + right. split; [by intros [->|]%elem_of_cons|]. cbn in IH. lia.
Qed.

Lemma walk_step_weight seen id rest l :
  NoDup l → id ∉ seen → (id ∉ l → next id = []) →
  length (reverse (next id) ++ rest) + weight ({[id]} ∪ seen) l < length (id :: rest) + weight seen l.
Proof.
  intros Hnd Hid Hl. rewrite length_app, length_reverse. cbn [length].
  destruct (weight_visit seen id l Hnd Hid) as [H|[Hn H]].
  - destruct (decide (id ∈ l)); [by left|right; by apply Hl].
  - lia.
  - rewrite (Hl Hn). cbn. lia.
Qed.

Lemma search_total hit fuel pending seen l :
  NoDup l → (∀ id, id ∉ l → next id = []) →
  length pending + weight seen l ≤ fuel → is_Some (search hit fuel pending seen).
Proof.
  intros Hnd Hl. revert pending seen. induction fuel as [|fuel IH]; intros [|id rest] seen Hf; cbn [search]; try by eexists.
  - cbn in Hf. lia.
  - destruct (decide (id ∈ seen)) as [|Hid]; [apply IH; cbn in Hf; lia|].
    destruct (hit id); [by eexists|]. apply IH.
    pose proof (walk_step_weight seen id rest l Hnd Hid (Hl id)). lia.
Qed.

Lemma closure_total fuel pending seen l :
  NoDup l → (∀ id, id ∉ l → next id = []) →
  length pending + weight seen l ≤ fuel → is_Some (closure fuel pending seen).
Proof.
  intros Hnd Hl. revert pending seen. induction fuel as [|fuel IH]; intros [|id rest] seen Hf; cbn [closure]; try by eexists.
  - cbn in Hf. lia.
  - destruct (decide (id ∈ seen)) as [|Hid]; [apply IH; cbn in Hf; lia|]. apply IH.
    pose proof (walk_step_weight seen id rest l Hnd Hid (Hl id)). lia.
Qed.

Lemma domain_list : NoDup (map_to_list m).*1 ∧ ∀ id, id ∉ (map_to_list m).*1 → next id = [].
Proof.
  split; [apply NoDup_fst_map_to_list|]. intros id Hid. apply Hnext, eq_None_not_Some. intros [v Hv]. apply Hid.
  apply list_elem_of_fmap. exists (id, v). split; [done|]. by apply elem_of_map_to_list.
Qed.

Lemma weight_empty l : weight ∅ l = sum_list ((λ id, length (next id)) <$> l).
Proof. reflexivity. Qed.

(** The two walks with enough fuel: total and exact. *)
Lemma search_spec hit pending :
  ∃ b, search hit (walk_fuel pending) pending ∅ = Some b ∧
    (b = true ↔ ∃ start x, start ∈ pending ∧ rtc edge start x ∧ hit x = true).
Proof.
  destruct domain_list as [Hnd Hl].
  destruct (search_total hit (walk_fuel pending) pending ∅ _ Hnd Hl) as [b Hb].
  { rewrite weight_empty. unfold walk_fuel. lia. }
  exists b. split; [done|]. by eapply search_exact.
Qed.

Lemma closure_spec pending :
  ∃ s, closure (walk_fuel pending) pending ∅ = Some s ∧
    ∀ x, x ∈ s ↔ ∃ start, start ∈ pending ∧ rtc edge start x.
Proof.
  destruct domain_list as [Hnd Hl].
  destruct (closure_total (walk_fuel pending) pending ∅ _ Hnd Hl) as [s Hs].
  { rewrite weight_empty. unfold walk_fuel. lia. }
  exists s. split; [done|]. intros x. by eapply closure_exact.
Qed.
End walk.

(** ** The dependencies of a fact *)

Definition dependencies (f : SignedFact) : list FactId :=
  let c := sf_content f in
  ids_sort_dedup
    (fc_parents c ++ concat (au_predecessors <$> fc_authority_uses c) ++
     match fc_body c with
     | EvictionProof _ evidence | SelfStandDown _ evidence => evidence
     | Attestation _ proposal _ _ contributions => proposal :: contributions
     | Resolution _ cited _ | AuthorityLineageResolution _ cited _ => cited
     | _ => []
     end).

(** The two edge relations the loops follow: all dependencies, or signed parents
    only.  A fact that is not in the map has no edges. *)
Definition deps_of (m : FactMap) (id : FactId) : list FactId :=
  match m !! id with Some f => dependencies f | None => [] end.
Definition parents_of (m : FactMap) (id : FactId) : list FactId :=
  match m !! id with Some f => fc_parents (sf_content f) | None => [] end.

(** [BTreeSet] iteration: ascending identities. *)
Definition sorted_ids (s : gset FactId) : list FactId := btree_set b32_cmp (elements s).

Definition run_search (next : FactId → list FactId) (m : FactMap) (hit : FactId → bool) (pending : list FactId) : bool :=
  default false (search next hit (walk_fuel next m pending) pending ∅).
Definition run_closure (next : FactId → list FactId) (m : FactMap) (pending : list FactId) : gset FactId :=
  default ∅ (closure next (walk_fuel next m pending) pending ∅).

Definition is_ancestor (m : FactMap) (ancestor descendant : FactId) : bool :=
  run_search (parents_of m) m (λ id, bool_decide (ancestor ∈ parents_of m id)) [descendant].

(** Only visible parents are followed; every parent of a visited fact is compared. *)
Definition visible_parents (m : FactMap) (visible : gset FactId) (id : FactId) : list FactId :=
  filter (λ p, p ∈ visible) (parents_of m id).
Definition is_ancestor_within (m : FactMap) (visible : gset FactId) (ancestor descendant : FactId) : bool :=
  run_search (visible_parents m visible) m (λ id, bool_decide (ancestor ∈ parents_of m id)) [descendant].

Definition signed_head_is_dominated (m : FactMap) (direct : list FactId) (head : FactId) : bool :=
  bool_decide (head ∈ direct) || run_search (deps_of m) m (λ id, bool_decide (head ∈ deps_of m id)) (reverse direct).

Definition insert_maximal_head (m : FactMap) (heads : list FactId) (candidate : FactId) : list FactId :=
  match m !! candidate with
  | None => heads
  | Some f =>
      set_insert b32_cmp candidate
        (filter (λ head, signed_head_is_dominated m (dependencies f) head = false) heads)
  end.

Definition maximal_ids (m : FactMap) (ids : list FactId) : list FactId :=
  filter (λ candidate, existsb (λ other, bool_decide (candidate ≠ other) && is_ancestor m candidate other) ids = false) ids.

Definition advances_cell (m : FactMap) (cell : ExclusiveCell) (id : FactId) : bool :=
  match m !! id with Some f => body_advances_cell (fc_body (sf_content f)) cell | None => false end.

(** The complete incomparable head set visible just before one resolution. *)
Definition heads_at (m : FactMap) (cell : ExclusiveCell) (resolution : FactId) : list FactId :=
  let visible := run_closure (parents_of m) m (reverse (parents_of m resolution)) in
  let candidates := filter (λ id, advances_cell m cell id = true) (sorted_ids visible) in
  filter (λ candidate, existsb (λ other, bool_decide (candidate ≠ other) &&
            is_ancestor_within m visible candidate other) candidates = false) candidates.

(** The closures that refuse a missing row: [causal_past] over dependencies,
    [complete_ancestors] over parents. *)
Fixpoint closure_or_missing (look : FactId → option (list FactId)) (fuel : nat) (pending : list FactId)
    (seen : gset FactId) : option (result SemanticError (gset FactId)) :=
  match pending with
  | [] => Some (Ok seen)
  | id :: rest =>
      match fuel with
      | 0 => None
      | S fuel =>
          if decide (id ∈ seen) then closure_or_missing look fuel rest seen
          else match look id with
               | None => Some (Err (MissingParent id))
               | Some next => closure_or_missing look fuel (reverse next ++ rest) ({[id]} ∪ seen)
               end
      end
  end.

Definition run_or_missing (look : FactId → option (list FactId)) (m : FactMap) (pending : list FactId)
    : result SemanticError (gset FactId) :=
  default (Ok ∅) (closure_or_missing look (walk_fuel (λ id, default [] (look id)) m pending) pending ∅).

Definition complete_ancestors (m : FactMap) (id : FactId) (candidate : SignedFact) : result SemanticError (gset FactId) :=
  let m' := <[sf_id candidate := candidate]> m in
  match run_or_missing (λ i, fc_parents ∘ sf_content <$> m' !! i) m' [id] with
  | Ok seen => Ok (seen ∖ {[id]})
  | Err e => Err e
  end.

Definition dependency_closure (m : FactMap) (f : SignedFact) : result SemanticError (gset FactId) :=
  run_or_missing (λ i, dependencies <$> m !! i) m (reverse (dependencies f)).

(** ** What the walks compute *)

Notation parent_edge m := (edge (parents_of m)).
Notation dep_edge m := (edge (deps_of m)).

Lemma parents_of_None m id : m !! id = None → parents_of m id = [].
Proof. unfold parents_of. by intros ->. Qed.
Lemma deps_of_None m id : m !! id = None → deps_of m id = [].
Proof. unfold deps_of. by intros ->. Qed.
Lemma visible_parents_None m visible id : m !! id = None → visible_parents m visible id = [].
Proof. unfold visible_parents. by intros ->%parents_of_None. Qed.

Lemma run_search_spec next m hit pending :
  (∀ id, m !! id = None → next id = []) →
  run_search next m hit pending = true ↔ ∃ start x, start ∈ pending ∧ rtc (edge next) start x ∧ hit x = true.
Proof.
  intros Hn. destruct (search_spec next m Hn hit pending) as (b & Hb & Hiff). unfold run_search. by rewrite Hb.
Qed.

Lemma elem_of_run_closure next m pending x :
  (∀ id, m !! id = None → next id = []) →
  x ∈ run_closure next m pending ↔ ∃ start, start ∈ pending ∧ rtc (edge next) start x.
Proof.
  intros Hn. destruct (closure_spec next m Hn pending) as (s & Hs & Hiff). unfold run_closure. by rewrite Hs.
Qed.

Lemma rtc_last {A} (R : relation A) x y z : rtc R x y → R y z → tc R x z.
Proof. intros H1 H2. eapply tc_rtc_l; [exact H1|by apply tc_once]. Qed.
Lemma tc_last {A} (R : relation A) x z : tc R x z → ∃ y, rtc R x y ∧ R y z.
Proof.
  induction 1 as [x y Hxy|x y z Hxy _ (w & Hw & Hz)]; [by exists x|]. exists w. split; [by eapply rtc_l|done].
Qed.

(** [is_ancestor] is the strict ancestry of the signed parents. *)
Lemma is_ancestor_spec m a d : is_ancestor m a d = true ↔ tc (parent_edge m) d a.
Proof.
  unfold is_ancestor. rewrite run_search_spec by apply parents_of_None. split.
  - intros (st & x & ->%list_elem_of_singleton & Hr & Hx%bool_decide_eq_true). by eapply rtc_last.
  - intros (x & Hr & Hx)%tc_last. exists d, x. split_and!; [by apply list_elem_of_singleton|done|].
    by apply bool_decide_eq_true.
Qed.

Lemma dominated_spec m direct head :
  signed_head_is_dominated m direct head = true ↔ ∃ d, d ∈ direct ∧ rtc (dep_edge m) d head.
Proof.
  unfold signed_head_is_dominated. rewrite orb_true_iff, bool_decide_eq_true, run_search_spec by apply deps_of_None. split.
  - intros [Hin|(st & x & Hst & Hr & Hx%bool_decide_eq_true)]; [by exists head|].
    rewrite elem_of_reverse in Hst. exists st. split; [done|]. eapply rtc_r; [exact Hr|exact Hx].
  - intros (d & Hd & [<-|Ht]%rtc_tc); [by left|]. right. apply tc_last in Ht as (x & Hr & Hx).
    exists d, x. split_and!; [by rewrite elem_of_reverse|done|by apply bool_decide_eq_true].
Qed.

Lemma elem_of_sorted_ids s x : x ∈ sorted_ids s ↔ x ∈ s.
Proof. unfold sorted_ids. by rewrite elem_of_btree_set, elem_of_elements by apply _. Qed.
Lemma sorted_ids_increasing s : increasing b32_cmp (sorted_ids s).
Proof. apply btree_set_increasing, _. Qed.
