(* ===== verification/Projection.v ===== *)
(** * The projection of the causal graph into exclusive cells

    crates/myownmesh-core/src/semantic/projection.rs: the projected cells and
    stand-downs of a graph, their authenticated commitment, sparse updates,
    checkpoints and rollback entries.  The projection reads a graph through the
    interface [GraphView]; the fact graph is its instance. *)

From S2P Require Import Prelude Ranking Bytes Identity Content Merkle Ancestry.
Local Open Scope nat_scope.

Inductive CellProjection : Type := Value (id : FactId) | Conflict (ids : list FactId).
Record StandDown : Type := mkStandDown { sd_target : Device; sd_proof : FactId }.

#[export] Instance cell_projection_eq_dec : EqDecision CellProjection.
Proof. solve_decision. Defined.
#[export] Instance stand_down_eq_dec : EqDecision StandDown.
Proof. solve_decision. Defined.

(** What the projection reads of a graph. *)
Class GraphView (G : Type) : Type := {
  gv_facts : G → FactMap;
  cell_heads : G → ExclusiveCell → list FactId;
  indexed_cells : G → gset ExclusiveCell;
  indexed_stand_down_candidates : G → gmap Device (list FactId);
  fact_is_authoritative : G → FactId → bool;
}.

(** The index of cells names every cell that has a head. *)
Class GraphViewLaws {G} `{!GraphView G} (g : G) : Prop :=
  law_indexed_cells cell : cell ∉ indexed_cells g → cell_heads g cell = [].

Section projection.
Context {crypto : Crypto}.

(** The derived order of cells: variant first, then subject or proposal. *)
Definition cell_cmp (a b : ExclusiveCell) : comparison :=
  match a, b with
  | RoleCell x, RoleCell y | MembershipCell x, MembershipCell y => device_spelling_cmp x y
  | DecisionCell x, DecisionCell y => b32_cmp x y
  | RoleCell _, _ => Lt
  | _, RoleCell _ => Gt
  | MembershipCell _, _ => Lt
  | _, MembershipCell _ => Gt
  end.

(** Iteration over ordered sets and maps. *)
Definition sorted_set {A} `{Countable A} (cmp : A → A → comparison) (s : gset A) : list A :=
  btree_set cmp (elements s).
Definition sorted_rows {K V} `{Countable K} (cmp : K → K → comparison) (m : gmap K V) : list (K * V) :=
  omap (λ k, (k,.) <$> m !! k) (sorted_set cmp (dom m)).

Record Projection : Type := mkProjection {
  p_cells : gmap ExclusiveCell CellProjection;
  p_stand_down : gmap Device StandDown;
  p_commitment : ProjectionCommitment;
}.

Definition projection_default : Projection := mkProjection ∅ ∅ commitment_default.

Record ProjectionDelta : Type := mkProjectionDelta {
  pd_base_generation : Z;
  pd_generation : Z;
  pd_base_commitment : digest;
  pd_commitment : digest;
  pd_cells : gmap ExclusiveCell (option CellProjection);
  pd_stand_down : gmap Device (option StandDown);
}.

Definition commitment_root_of (p : Projection) : digest := commitment_root (p_commitment p).
Definition commitment_bytes (p : Projection) : Z := retained_bytes (p_commitment p).

(** ** Keys and values of the commitment *)
Definition cell_key (c : ExclusiveCell) : bytes := enc_text "cell" ++ enc_cell c.
Definition cell_value_message (v : CellProjection) : bytes :=
  match v with
  | Value id => enc_text "value" ++ b32 id
  | Conflict ids => enc_text "conflict" ++ enc_ids ids
  end.
Definition cell_value (v : CellProjection) : digest := sha256 (cell_value_message v).
Definition stand_down_key (target : Device) : bytes := enc_text "stand_down" ++ b32 target.
Definition stand_down_value (v : StandDown) : digest := sha256 (b32 (sd_target v) ++ b32 (sd_proof v)).

(** [BTreeMap::insert] or [remove], by the value. *)
Definition write_entry {K V} `{Countable K} (m : gmap K V) (row : K * option V) : gmap K V :=
  match row.2 with Some v => <[row.1 := v]> m | None => delete row.1 m end.
Definition write_entries {K V} `{Countable K} (m : gmap K V) (rows : list (K * option V)) : gmap K V :=
  foldl write_entry m rows.

Definition apply_cell (c : ProjectionCommitment) (row : ExclusiveCell * option CellProjection) : ProjectionCommitment :=
  commitment_apply c (cell_key row.1) (cell_value <$> row.2).
Definition apply_stand_down (c : ProjectionCommitment) (row : Device * option StandDown) : ProjectionCommitment :=
  commitment_apply c (stand_down_key row.1) (stand_down_value <$> row.2).

Definition commitment_from_maps (cells : gmap ExclusiveCell CellProjection) (stand_down : gmap Device StandDown)
    : ProjectionCommitment :=
  let c := foldl (λ c row, apply_cell c (row.1, Some row.2)) commitment_default (sorted_rows cell_cmp cells) in
  foldl (λ c row, apply_stand_down c (row.1, Some row.2)) c (sorted_rows device_spelling_cmp stand_down).

(** ** Checkpoints and sparse entries *)
Definition checkpoint_parts (p : Projection) : list (ExclusiveCell * CellProjection) * list (Device * StandDown) :=
  (sorted_rows cell_cmp (p_cells p), sorted_rows device_spelling_cmp (p_stand_down p)).

Definition from_checkpoint_parts (cells : list (ExclusiveCell * CellProjection)) (stand_down : list (Device * StandDown))
    : option Projection :=
  let cell_map := foldl (λ m row, <[row.1 := row.2]> m) (∅ : gmap ExclusiveCell CellProjection) cells in
  let sd_map := foldl (λ m row, <[row.1 := row.2]> m) (∅ : gmap Device StandDown) stand_down in
  if negb (size cell_map =? length cells) || negb (size sd_map =? length stand_down) then None
  else Some (mkProjection cell_map sd_map (commitment_from_maps cell_map sd_map)).

Definition sparse_entries (p : Projection) (cells : gset ExclusiveCell) (subjects : gset Device)
    : gmap ExclusiveCell (option CellProjection) * gmap Device (option StandDown) :=
  (set_to_map (λ c, (c, p_cells p !! c)) cells, set_to_map (λ s, (s, p_stand_down p !! s)) subjects).

Definition delta_rows {K V} `{Countable K} `{EqDecision V} (current : gmap K V) (previous : gmap K (option V))
    : gmap K (option V) :=
  map_imap (λ k prior, if decide (current !! k = prior) then None else Some (current !! k)) previous.

Definition delta_from_sparse (p : Projection) (base_generation generation : Z) (base_commitment : digest)
    (previous_cells : gmap ExclusiveCell (option CellProjection))
    (previous_stand_down : gmap Device (option StandDown)) : ProjectionDelta :=
  mkProjectionDelta base_generation generation base_commitment (commitment_root_of p)
    (delta_rows (p_cells p) previous_cells) (delta_rows (p_stand_down p) previous_stand_down).

Definition write_rows (p : Projection) (cells : gmap ExclusiveCell (option CellProjection))
    (stand_down : gmap Device (option StandDown)) : Projection :=
  let cell_rows := sorted_rows cell_cmp cells in
  let sd_rows := sorted_rows device_spelling_cmp stand_down in
  mkProjection (write_entries (p_cells p) cell_rows) (write_entries (p_stand_down p) sd_rows)
    (foldl apply_stand_down (foldl apply_cell (p_commitment p) cell_rows) sd_rows).

Definition apply_delta (p : Projection) (d : ProjectionDelta) (expected_base_generation : Z)
    (expected_base_commitment : digest) : option Projection :=
  if negb (pd_base_generation d =? expected_base_generation)%Z
     || bool_decide (pd_base_commitment d ≠ expected_base_commitment)
     || bool_decide (commitment_root_of p ≠ expected_base_commitment) then None
  else
    let next := write_rows p (pd_cells d) (pd_stand_down d) in
    if bool_decide (commitment_root_of next ≠ pd_commitment d) then None else Some next.

Definition restore_sparse_entries (p : Projection) (previous_cells : gmap ExclusiveCell (option CellProjection))
    (previous_stand_down : gmap Device (option StandDown)) : Projection :=
  write_rows p previous_cells previous_stand_down.

(** ** Reading the graph *)
Section graph.
Context {G : Type} `{!GraphView G}.

(** Follow a same-cell resolution chain to the effective head; the visited set
    grows by a present fact at each step, so [S (size facts)] steps suffice. *)
Fixpoint resolve_effective_head (fuel : nat) (m : FactMap) (cell : ExclusiveCell) (head : FactId)
    (visited : gset FactId) : option FactId :=
  match fuel with
  | 0 => None
  | S fuel =>
      if decide (head ∈ visited) then None
      else match m !! head with
      | None => None
      | Some f =>
          match fc_body (sf_content f) with
          | Resolution resolution_cell cited_heads selected_head =>
              if decide (resolution_cell = cell) then
                let cited := ids_sort_dedup cited_heads in
                if (length cited <? 2) || negb (length cited =? length cited_heads)
                   || bool_decide (cited ≠ cited_heads) || bool_decide (selected_head ∉ cited)
                   || bool_decide (heads_at m cell head ≠ cited) then None
                else if advances_cell m cell selected_head
                     then resolve_effective_head fuel m cell selected_head ({[head]} ∪ visited)
                     else None
              else if body_advances_cell (fc_body (sf_content f)) cell then Some head else None
          | body => if body_advances_cell body cell then Some head else None
          end
      end
  end.

Definition effective_head (m : FactMap) (cell : ExclusiveCell) (head : FactId) : option FactId :=
  resolve_effective_head (S (size m)) m cell head ∅.

Definition projected_cell (g : G) (cell : ExclusiveCell) : option CellProjection :=
  match cell_heads g cell with
  | [] => None
  | [head] => Some match effective_head (gv_facts g) cell head with
                   | Some id => Value id
                   | None => Conflict [head]
                   end
  | heads => Some (Conflict heads)
  end.

Definition projected_membership_restoration (g : G) (target : Device) : option FactId :=
  let cell := MembershipCell target in
  match cell_heads g cell with
  | [head] =>
      selected ← effective_head (gv_facts g) cell head;
      match fc_body ∘ sf_content <$> gv_facts g !! selected with
      | Some (MembershipAdmit admitted) => if decide (admitted = target) then Some selected else None
      | _ => None
      end
  | _ => None
  end.

(** A proof still stands unless the selected restoration is it or descends from it. *)
Definition proof_active (g : G) (restoration : option FactId) (proof : FactId) : bool :=
  match restoration with
  | None => true
  | Some restored => bool_decide (proof ≠ restored) && negb (is_ancestor (gv_facts g) proof restored)
  end.

Definition projected_stand_down_for_target (g : G) (target : Device) (proofs : list FactId) : option StandDown :=
  let restoration := projected_membership_restoration g target in
  mkStandDown target <$>
    List.find (λ proof, fact_is_authoritative g proof && proof_active g restoration proof) proofs.

(** [projected_stand_down]: the authoritative evidence first, then the first
    proof that still stands. *)
Definition projected_stand_down (g : G) : gmap Device StandDown :=
  let evidence := omap (λ candidates,
      match filter (λ id, fact_is_authoritative g id = true) candidates with [] => None | proofs => Some proofs end)
    (indexed_stand_down_candidates g) in
  map_imap (λ target proofs,
      mkStandDown target <$> List.find (proof_active g (projected_membership_restoration g target)) proofs) evidence.

Definition from_graph (g : G) : Projection :=
  let cells := write_entries ∅ ((λ c, (c, projected_cell g c)) <$> sorted_set cell_cmp (indexed_cells g)) in
  let stand_down := projected_stand_down g in
  mkProjection cells stand_down (commitment_from_maps cells stand_down).

Definition affected_cell_rows (g : G) (affected : gset ExclusiveCell) : list (ExclusiveCell * option CellProjection) :=
  (λ c, (c, projected_cell g c)) <$> sorted_set cell_cmp affected.
Definition affected_stand_down_rows (g : G) (affected : gset Device) : list (Device * option StandDown) :=
  (λ t, (t, indexed_stand_down_candidates g !! t ≫= projected_stand_down_for_target g t))
    <$> sorted_set device_spelling_cmp affected.

Definition update_from_graph_deferred_commitment (g : G) (previous : Projection) (cells : gset ExclusiveCell)
    (targets : gset Device) : Projection :=
  mkProjection (write_entries (p_cells previous) (affected_cell_rows g cells))
    (write_entries (p_stand_down previous) (affected_stand_down_rows g targets)) (p_commitment previous).

Definition update_from_graph (g : G) (previous : Projection) (cells : gset ExclusiveCell) (targets : gset Device)
    : Projection :=
  let next := update_from_graph_deferred_commitment g previous cells targets in
  let cell_rows := (λ c, (c, p_cells next !! c)) <$> sorted_set cell_cmp cells in
  let sd_rows := (λ t, (t, p_stand_down next !! t)) <$> sorted_set device_spelling_cmp targets in
  mkProjection (p_cells next) (p_stand_down next)
    (foldl apply_stand_down (foldl apply_cell (p_commitment next) cell_rows) sd_rows).
End graph.

Definition rebuild_commitment (p : Projection) : Projection :=
  mkProjection (p_cells p) (p_stand_down p) (commitment_from_maps (p_cells p) (p_stand_down p)).

(** ** Reading the projection *)
Definition is_conflicted (p : Projection) (cell : ExclusiveCell) : bool :=
  match p_cells p !! cell with Some (Conflict _) => true | _ => false end.
Definition value (p : Projection) (cell : ExclusiveCell) : option FactId :=
  match p_cells p !! cell with Some (Value id) => Some id | _ => None end.
Definition is_stood_down (p : Projection) (target : Device) : bool := bool_decide (is_Some (p_stand_down p !! target)).
End projection.

(** ** Writing rows *)
Section rows.
Context {K V : Type} `{Countable K}.

Lemma write_entries_cons (m : gmap K V) row rows :
  write_entries m (row :: rows) = write_entries (write_entry m row) rows.
Proof. reflexivity. Qed.

Lemma lookup_write_entry (m : gmap K V) row k :
  write_entry m row !! k = if decide (k = row.1) then row.2 else m !! k.
Proof.
  unfold write_entry. destruct (decide (k = row.1)) as [->|Hk], (row.2) as [v|].
  - by rewrite lookup_insert_eq.
  - by rewrite lookup_delete_eq.
  - by rewrite lookup_insert_ne.
  - by rewrite lookup_delete_ne.
Qed.

Lemma lookup_write_entries_notin (m : gmap K V) rows k : k ∉ rows.*1 → write_entries m rows !! k = m !! k.
Proof.
  revert m. induction rows as [|row rows IH]; intros m Hk; [done|]. rewrite write_entries_cons, IH.
  - rewrite lookup_write_entry, decide_False; [done|]. set_solver.
  - set_solver.
Qed.

Lemma lookup_write_entries (m : gmap K V) rows k v :
  NoDup rows.*1 → (k, v) ∈ rows → write_entries m rows !! k = v.
Proof.
  revert m. induction rows as [|row rows IH]; intros m Hnd Hin; [by apply not_elem_of_nil in Hin|].
  cbn in Hnd. apply NoDup_cons in Hnd as [Hk Hnd]. rewrite write_entries_cons. apply elem_of_cons in Hin as [<-|Hin]; [|by apply IH].
  rewrite lookup_write_entries_notin by done. by rewrite lookup_write_entry, decide_True.
Qed.

(** Rows computed from their keys. *)
Lemma lookup_write_fun (m : gmap K V) (h : K → option V) l k :
  write_entries m ((λ k, (k, h k)) <$> l) !! k = if decide (k ∈ l) then h k else m !! k.
Proof.
  revert m. induction l as [|x l IH]; intros m.
  { cbn. by rewrite decide_False by apply not_elem_of_nil. }
  rewrite fmap_cons, write_entries_cons, IH, lookup_write_entry. cbn. destruct (decide (k ∈ l)) as [Hl|Hl].
  - by rewrite decide_True by (by right).
  - destruct (decide (k = x)) as [->|Hx]; [by rewrite decide_True by left|].
    rewrite decide_False; [done|]. by intros [?|?]%elem_of_cons.
Qed.

Context (cmp : K → K → comparison) `{!CmpSpec cmp}.

Lemma elem_of_sorted_set (s : gset K) x : x ∈ sorted_set cmp s ↔ x ∈ s.
Proof. unfold sorted_set. by rewrite elem_of_btree_set, elem_of_elements. Qed.
Lemma sorted_set_NoDup (s : gset K) : NoDup (sorted_set cmp s).
Proof. by apply (increasing_NoDup cmp), btree_set_increasing. Qed.

Lemma elem_of_sorted_rows {W} (m : gmap K W) k v : (k, v) ∈ sorted_rows cmp m ↔ m !! k = Some v.
Proof.
  unfold sorted_rows. rewrite list_elem_of_omap. split.
  - intros (k' & _ & (v' & Hm & [= -> ->])%fmap_Some). done.
  - intros Hm. exists k. split; [rewrite elem_of_sorted_set; by eapply elem_of_dom_2|]. by rewrite Hm.
Qed.

Lemma keys_sorted_rows {W} (m : gmap K W) : (sorted_rows cmp m).*1 = sorted_set cmp (dom m).
Proof.
  unfold sorted_rows. assert (Hall : ∀ k, k ∈ sorted_set cmp (dom m) → is_Some (m !! k)).
  { intros k Hk%elem_of_sorted_set. by apply elem_of_dom. }
  induction (sorted_set cmp (dom m)) as [|k l IH]; [done|]. cbn.
  destruct (Hall k) as [v Hv]; [by left|]. rewrite Hv. cbn. f_equal. apply IH. intros k' Hk'. apply Hall. by right.
Qed.

Lemma lookup_write_sorted (m : gmap K V) (rows : gmap K (option V)) k :
  write_entries m (sorted_rows cmp rows) !! k = match rows !! k with Some v => v | None => m !! k end.
Proof.
  destruct (rows !! k) as [v|] eqn:Hk.
  - apply lookup_write_entries; [rewrite keys_sorted_rows; apply sorted_set_NoDup|]. by apply elem_of_sorted_rows.
  - apply lookup_write_entries_notin. rewrite keys_sorted_rows, elem_of_sorted_set. by apply not_elem_of_dom.
Qed.

(** A map is its sorted rows. *)
Lemma insert_sorted_rows {W} (m : gmap K W) :
  foldl (λ a row, <[row.1 := row.2]> a) ∅ (sorted_rows cmp m) = m.
Proof.
  assert (Hgen : ∀ (l : list (K * W)) (a : gmap K W) k, NoDup l.*1 →
    foldl (λ a row, <[row.1 := row.2]> a) a l !! k =
    match list_to_map (M := gmap K W) l !! k with Some v => Some v | None => a !! k end).
  { induction l as [|[x v] l IH]; intros a k Hnd; [done|]. cbn in Hnd. apply NoDup_cons in Hnd as [Hx Hnd].
    cbn. rewrite IH by done. destruct (decide (k = x)) as [->|Hk].
    - rewrite lookup_insert_eq. rewrite (not_elem_of_list_to_map_1 l x) by done. by rewrite lookup_insert_eq.
    - by rewrite !(lookup_insert_ne _ x k) by done. }
  apply map_eq. intros k. rewrite Hgen by (rewrite keys_sorted_rows; apply sorted_set_NoDup).
  destruct (m !! k) as [v|] eqn:Hk.
  - rewrite (elem_of_list_to_map_1 (sorted_rows cmp m) k v); [done| |by apply elem_of_sorted_rows].
    rewrite keys_sorted_rows. apply sorted_set_NoDup.
  - rewrite (not_elem_of_list_to_map_1 (sorted_rows cmp m) k); [by rewrite lookup_empty|].
    rewrite keys_sorted_rows, elem_of_sorted_set. by apply not_elem_of_dom.
Qed.

Lemma length_sorted_rows {W} (m : gmap K W) : length (sorted_rows cmp m) = size m.
Proof.
  rewrite <- (length_fmap fst), keys_sorted_rows, <- size_dom. unfold size, set_size. apply Permutation_length.
  apply NoDup_Permutation; [apply sorted_set_NoDup|apply NoDup_elements|]. intros x.
  by rewrite elem_of_sorted_set, elem_of_elements.
Qed.
End rows.

(** ** The commitment of a projection *)
#[local] Arguments canonical : simpl never.

Section commitment.
Context {crypto : Crypto} {laws : CryptoLaws}.

#[export] Instance cell_cmp_spec : CmpSpec cell_cmp.
Proof.
  split.
  - intros [x|x|x] [y|y|y]; cbn [cell_cmp]; rewrite ?(cmp_eq device_spelling_cmp), ?(cmp_eq b32_cmp);
      split; congruence.
  - intros [x|x|x] [y|y|y]; cbn [cell_cmp]; try done; apply cmpspec_antisym.
  - intros [x|x|x] [y|y|y] [z|z|z]; cbn [cell_cmp]; try done;
      first [apply (cmp_trans device_spelling_cmp)|apply (cmp_trans b32_cmp)].
Qed.

#[export] Instance cell_key_inj : Inj (=) (=) cell_key.
Proof.
  intros c c' H. unfold cell_key in H. enc_step.
  rewrite <- (app_nil_r (enc_cell c)), <- (app_nil_r (enc_cell c')) in H. by apply enc_cell_prefix in H as [? _].
Qed.

#[export] Instance stand_down_key_inj : Inj (=) (=) stand_down_key.
Proof. intros t t' H. unfold stand_down_key in H. enc_step. by apply (inj b32) in H. Qed.

Lemma cell_stand_down_key c t : cell_key c ≠ stand_down_key t.
Proof. intros H. unfold cell_key, stand_down_key in H. by enc_step. Qed.

(** What a projection commits to. *)
Definition committed_map (cells : gmap ExclusiveCell CellProjection) (stand_down : gmap Device StandDown) : gmap bytes digest :=
  kmap cell_key (cell_value <$> cells) ∪ kmap stand_down_key (stand_down_value <$> stand_down).

Definition committed (p : Projection) : Prop :=
  p_commitment p = canonical 256 (committed_map (p_cells p) (p_stand_down p)).

Lemma kmap_write {K V W} `{Countable K} (f : K → bytes) `{!Inj (=) (=) f} (h : V → W) (m : gmap K V) row :
  kmap (M2 := gmap bytes) f (h <$> write_entry m row) =
  partial_alter (λ _, h <$> row.2) (f row.1) (kmap (M2 := gmap bytes) f (h <$> m)).
Proof.
  unfold write_entry. destruct (row.2) as [v|]; cbn.
  - by rewrite fmap_insert, kmap_insert by done.
  - by rewrite fmap_delete, kmap_delete by done.
Qed.

Lemma partial_alter_union {A} (m1 m2 : gmap bytes A) k v :
  (m2 !! k = None → partial_alter (λ _, v) k (m1 ∪ m2) = partial_alter (λ _, v) k m1 ∪ m2) ∧
  (m1 !! k = None → partial_alter (λ _, v) k (m1 ∪ m2) = m1 ∪ partial_alter (λ _, v) k m2).
Proof.
  split; intros Hk; apply map_eq; intros i; rewrite lookup_union; destruct (decide (i = k)) as [->|Hi];
    rewrite ?lookup_partial_alter_eq, ?lookup_partial_alter_ne, ?lookup_union, ?Hk by done; by destruct v.
Qed.

Lemma committed_write_cell cells sd row :
  set_key (cell_key row.1) (cell_value <$> row.2) (committed_map cells sd) = committed_map (write_entry cells row) sd.
Proof.
  unfold committed_map, set_key. rewrite kmap_write by apply _.
  apply partial_alter_union. apply lookup_kmap_None; [apply _|].
  intros t Ht. by apply cell_stand_down_key in Ht.
Qed.

Lemma committed_write_stand_down cells sd row :
  set_key (stand_down_key row.1) (stand_down_value <$> row.2) (committed_map cells sd) =
  committed_map cells (write_entry sd row).
Proof.
  unfold committed_map, set_key. rewrite kmap_write by apply _.
  apply partial_alter_union. apply lookup_kmap_None; [apply _|].
  intros c Hc. symmetry in Hc. by apply cell_stand_down_key in Hc.
Qed.

Lemma apply_cells_canonical cells sd rows :
  foldl apply_cell (canonical 256 (committed_map cells sd)) rows = canonical 256 (committed_map (write_entries cells rows) sd).
Proof.
  revert cells. induction rows as [|row rows IH]; intros cells; [reflexivity|].
  rewrite write_entries_cons, <- IH, <- committed_write_cell, <- commitment_apply_canonical. reflexivity.
Qed.

Lemma apply_stand_downs_canonical cells sd rows :
  foldl apply_stand_down (canonical 256 (committed_map cells sd)) rows =
  canonical 256 (committed_map cells (write_entries sd rows)).
Proof.
  revert sd. induction rows as [|row rows IH]; intros sd; [reflexivity|].
  rewrite write_entries_cons, <- IH, <- committed_write_stand_down, <- commitment_apply_canonical. reflexivity.
Qed.

Lemma foldl_map {A B C} (f : A → C → A) (g : B → C) a (l : list B) :
  foldl f a (g <$> l) = foldl (λ a x, f a (g x)) a l.
Proof. revert a. induction l as [|x l IH]; intros a; [done|]. apply IH. Qed.

Lemma write_some_rows {K V} `{Countable K} (l : list (K * V)) (m : gmap K V) :
  write_entries m ((λ row, (row.1, Some row.2)) <$> l) = foldl (λ a row, <[row.1 := row.2]> a) m l.
Proof. unfold write_entries. by rewrite foldl_map. Qed.

Lemma commitment_from_maps_canonical cells sd :
  commitment_from_maps cells sd = canonical 256 (committed_map cells sd).
Proof.
  unfold commitment_from_maps.
  rewrite <- (foldl_map apply_cell (λ row, (row.1, Some row.2))).
  rewrite <- (foldl_map apply_stand_down (λ row, (row.1, Some row.2))).
  assert (Hd : commitment_default = canonical 256 (committed_map ∅ ∅)).
  { assert (Hz : committed_map ∅ ∅ = ∅) by reflexivity. rewrite Hz. apply default_canonical. }
  rewrite Hd, apply_cells_canonical, apply_stand_downs_canonical, !write_some_rows.
  by rewrite (insert_sorted_rows cell_cmp), (insert_sorted_rows device_spelling_cmp).
Qed.

(** A committed projection is determined by its two maps. *)
Lemma committed_ext p q :
  committed p → committed q → (∀ c, p_cells p !! c = p_cells q !! c) →
  (∀ t, p_stand_down p !! t = p_stand_down q !! t) → p = q.
Proof.
  intros Hp Hq Hc%map_eq Hs%map_eq. destruct p, q. cbn in *. subst. f_equal.
  unfold committed in Hp, Hq. cbn [p_commitment p_cells p_stand_down] in Hp, Hq. by rewrite Hp, Hq.
Qed.

Lemma rebuild_committed p : committed (rebuild_commitment p).
Proof. apply commitment_from_maps_canonical. Qed.

Lemma write_rows_committed p cells sd : committed p → committed (write_rows p cells sd).
Proof.
  unfold committed, write_rows. intros ->. cbn [p_commitment p_cells p_stand_down].
  by rewrite apply_cells_canonical, apply_stand_downs_canonical.
Qed.

Section graph.
Context {G : Type} {view : GraphView G}.

Lemma from_graph_committed (g : G) : committed (from_graph g).
Proof. apply commitment_from_maps_canonical. Qed.

(** The deferred update writes the affected entries. *)
Lemma lookup_updated_cells (g : G) p cells targets c :
  p_cells (update_from_graph g p cells targets) !! c = if decide (c ∈ cells) then projected_cell g c else p_cells p !! c.
Proof.
  cbn. unfold affected_cell_rows. rewrite (lookup_write_fun _ (projected_cell g)).
  destruct (decide (c ∈ cells)); [rewrite decide_True|rewrite decide_False]; try done;
    by rewrite (elem_of_sorted_set cell_cmp).
Qed.

Definition target_stand_down (g : G) (t : Device) : option StandDown :=
  indexed_stand_down_candidates g !! t ≫= projected_stand_down_for_target g t.

Lemma lookup_updated_stand_down (g : G) p cells targets t :
  p_stand_down (update_from_graph g p cells targets) !! t =
  if decide (t ∈ targets) then target_stand_down g t else p_stand_down p !! t.
Proof.
  cbn. unfold affected_stand_down_rows. rewrite (lookup_write_fun _ (target_stand_down g)).
  destruct (decide (t ∈ targets)); [rewrite decide_True|rewrite decide_False]; try done;
    by rewrite (elem_of_sorted_set device_spelling_cmp).
Qed.

Lemma write_same {K V} `{Countable K} (m m' : gmap K V) l :
  (∀ k, k ∉ l → m !! k = m' !! k) → write_entries m ((λ k, (k, m' !! k)) <$> l) = m'.
Proof.
  intros Hk. apply map_eq. intros k. rewrite (lookup_write_fun _ (λ k, m' !! k)).
  destruct (decide (k ∈ l)); [done|by apply Hk].
Qed.

Lemma update_committed (g : G) p cells targets : committed p → committed (update_from_graph g p cells targets).
Proof.
  intros Hp. unfold committed, update_from_graph. cbn [p_commitment p_cells p_stand_down update_from_graph_deferred_commitment].
  rewrite Hp, apply_cells_canonical, apply_stand_downs_canonical. do 2 f_equal.
  - apply write_same. intros c Hc. symmetry. apply lookup_write_entries_notin.
    unfold affected_cell_rows. by rewrite <- list_fmap_compose, list_fmap_id.
  - apply write_same. intros c Hc. symmetry. apply lookup_write_entries_notin.
    unfold affected_stand_down_rows. by rewrite <- list_fmap_compose, list_fmap_id.
Qed.

Lemma find_filter {A} (f h : A → bool) l :
  List.find h (filter (λ x, f x = true) l) = List.find (λ x, f x && h x) l.
Proof.
  induction l as [|x l IH]; [done|]. rewrite filter_cons. cbn. destruct (f x) eqn:Hx; cbn.
  - rewrite decide_True by done. cbn. by rewrite IH.
  - by rewrite decide_False by congruence.
Qed.

(** The full scan and the scan of one target agree. *)
Lemma lookup_projected_stand_down (g : G) t : projected_stand_down g !! t = target_stand_down g t.
Proof.
  unfold projected_stand_down, target_stand_down. rewrite map_lookup_imap, lookup_omap.
  destruct (indexed_stand_down_candidates g !! t) as [l|]; [|done]. cbn. unfold projected_stand_down_for_target.
  rewrite <- find_filter. by destruct (filter _ l).
Qed.

Lemma lookup_from_graph_cells (g : G) {glaws : GraphViewLaws g} c : p_cells (from_graph g) !! c = projected_cell g c.
Proof.
  cbn. rewrite (lookup_write_fun _ (projected_cell g)). destruct (decide _) as [|Hc]; [done|].
  rewrite (elem_of_sorted_set cell_cmp) in Hc. unfold projected_cell.
  by rewrite (law_indexed_cells (g := g) c Hc), lookup_empty.
Qed.
End graph.
End commitment.

(** ** What the projection guarantees *)
Section guarantees.
Context {crypto : Crypto} {laws : CryptoLaws}.

Lemma lookup_sparse {K V} `{Countable K} (h : K → V) (s : gset K) k :
  set_to_map (M := gmap K V) (λ k, (k, h k)) s !! k = if decide (k ∈ s) then Some (h k) else None.
Proof.
  apply option_eq. intros v. rewrite lookup_set_to_map by (intros ???? [=]; done).
  destruct (decide (k ∈ s)); split.
  - by intros (? & _ & [= -> <-]).
  - intros [= <-]. by exists k.
  - by intros (? & ? & [= -> <-]).
  - done.
Qed.

Lemma lookup_write_rows p cells sd c :
  p_cells (write_rows p cells sd) !! c = match cells !! c with Some v => v | None => p_cells p !! c end.
Proof. apply (lookup_write_sorted cell_cmp). Qed.
Lemma lookup_write_rows_stand_down p cells sd t :
  p_stand_down (write_rows p cells sd) !! t = match sd !! t with Some v => v | None => p_stand_down p !! t end.
Proof. apply (lookup_write_sorted device_spelling_cmp). Qed.

(** Two projections that agree outside a set of keys. *)
Definition agree_outside (p q : Projection) (cells : gset ExclusiveCell) (targets : gset Device) : Prop :=
  (∀ c, c ∉ cells → p_cells p !! c = p_cells q !! c) ∧
  (∀ t, t ∉ targets → p_stand_down p !! t = p_stand_down q !! t).

Lemma restore_sparse p q cells targets :
  committed p → committed q → agree_outside p q cells targets →
  restore_sparse_entries q (sparse_entries p cells targets).1 (sparse_entries p cells targets).2 = p.
Proof.
  intros Hp Hq [Hc Ht]. apply committed_ext; [by apply write_rows_committed|done|..].
  - intros c. unfold restore_sparse_entries. rewrite lookup_write_rows. cbn. rewrite (lookup_sparse (λ c, p_cells p !! c)).
    destruct (decide (c ∈ cells)); [done|]. symmetry. by apply Hc.
  - intros t. unfold restore_sparse_entries. rewrite lookup_write_rows_stand_down. cbn.
    rewrite (lookup_sparse (λ t, p_stand_down p !! t)). destruct (decide (t ∈ targets)); [done|]. symmetry. by apply Ht.
Qed.

Lemma lookup_delta_rows {K V} `{Countable K} `{EqDecision V} (m current : gmap K V) (s : gset K) k :
  (∀ k, k ∉ s → m !! k = current !! k) →
  match delta_rows current (set_to_map (λ k, (k, m !! k)) s) !! k with Some v => v | None => m !! k end = current !! k.
Proof.
  intros Hs. unfold delta_rows. rewrite map_lookup_imap, (lookup_sparse (λ k, m !! k)).
  destruct (decide (k ∈ s)); cbn; [|by apply Hs]. by destruct (decide (current !! k = m !! k)).
Qed.

Lemma apply_sparse_delta p q cells targets base_generation generation :
  committed p → committed q → agree_outside p q cells targets →
  apply_delta p (delta_from_sparse q base_generation generation (commitment_root_of p)
                   (sparse_entries p cells targets).1 (sparse_entries p cells targets).2)
    base_generation (commitment_root_of p) = Some q.
Proof.
  intros Hp Hq [Hc Ht]. unfold apply_delta. cbn [pd_base_generation pd_base_commitment pd_commitment delta_from_sparse
    pd_cells pd_stand_down].
  rewrite Z.eqb_refl, !bool_decide_false by (intros ?; done). cbn [negb orb].
  assert (Heq : write_rows p (delta_rows (p_cells q) (sparse_entries p cells targets).1)
                  (delta_rows (p_stand_down q) (sparse_entries p cells targets).2) = q).
  { apply committed_ext; [by apply write_rows_committed|done|..].
    - intros c. rewrite lookup_write_rows. by apply lookup_delta_rows.
    - intros t. rewrite lookup_write_rows_stand_down. by apply lookup_delta_rows. }
  rewrite Heq. by rewrite bool_decide_false by (intros ?; done).
Qed.

Lemma checkpoint_restores p :
  committed p → from_checkpoint_parts (checkpoint_parts p).1 (checkpoint_parts p).2 = Some p.
Proof.
  intros Hp. unfold from_checkpoint_parts. cbn [checkpoint_parts fst snd].
  rewrite (insert_sorted_rows cell_cmp), (insert_sorted_rows device_spelling_cmp).
  rewrite !length_sorted_rows by apply _. rewrite !Nat.eqb_refl. cbn [negb orb]. f_equal.
  rewrite commitment_from_maps_canonical, <- Hp. by destruct p.
Qed.

Lemma apply_delta_committed p d gen base q : committed p → apply_delta p d gen base = Some q → committed q.
Proof.
  intros Hp. unfold apply_delta. destruct (_ || _); [done|]. destruct (bool_decide _); [done|].
  intros [= <-]. by apply write_rows_committed.
Qed.

Context {G : Type} {view : GraphView G}.

(** However a projection is obtained (computed from a graph, updated for the
    affected entries, restored from rollback entries or from a checkpoint, or by
    applying a delta), its commitment is the canonical tree of its two maps. *)
Theorem projection_commitment_is_maintained (g : G) p :
  committed (from_graph g) ∧ committed (rebuild_commitment p) ∧
  (∀ cells stand_down q, from_checkpoint_parts cells stand_down = Some q → committed q) ∧
  (committed p →
    (∀ cells targets, committed (update_from_graph g p cells targets)) ∧
    (∀ cells stand_down, committed (restore_sparse_entries p cells stand_down)) ∧
    (∀ d generation base q, apply_delta p d generation base = Some q → committed q)).
Proof.
  split_and!; [apply from_graph_committed|apply rebuild_committed| |].
  - intros cells sd q. unfold from_checkpoint_parts. destruct (_ || _); [done|]. intros [= <-].
    apply commitment_from_maps_canonical.
  - intros Hp. split_and!.
    + intros. by apply update_committed.
    + intros. by apply write_rows_committed.
    + intros d gen base q. by apply apply_delta_committed.
Qed.

(** Updating only the affected entries of a projection gives exactly the full
    projection of the graph, root included, provided that every entry outside the
    affected sets already has its value in that graph; the deferred variant does
    so once its commitment is rebuilt. *)
Theorem sparse_update_is_full_projection (g : G) {glaws : GraphViewLaws g} p cells targets :
  committed p → agree_outside p (from_graph g) cells targets →
  update_from_graph g p cells targets = from_graph g ∧
  rebuild_commitment (update_from_graph_deferred_commitment g p cells targets) = from_graph g.
Proof.
  intros Hp [Hc Ht].
  assert (Heq : update_from_graph g p cells targets = from_graph g).
  { apply committed_ext; [by apply update_committed|apply from_graph_committed|..].
    - intros c. rewrite lookup_updated_cells. destruct (decide (c ∈ cells)); [|by apply Hc].
      by rewrite lookup_from_graph_cells.
    - intros t. rewrite lookup_updated_stand_down. destruct (decide (t ∈ targets)); [|by apply Ht].
      symmetry. apply lookup_projected_stand_down. }
  split; [done|]. rewrite <- Heq. apply committed_ext; [apply rebuild_committed| |done..]. by apply update_committed.
Qed.

(** The sparse entries captured before an update undo it exactly; the delta
    between the two projections, applied behind its generation and root fence,
    redoes it exactly; and a projection survives its checkpoint unchanged. *)
Theorem projection_rollback_roundtrip (g : G) p cells targets base_generation generation :
  committed p →
  let q := update_from_graph g p cells targets in
  let previous := sparse_entries p cells targets in
  restore_sparse_entries q previous.1 previous.2 = p ∧
  apply_delta p (delta_from_sparse q base_generation generation (commitment_root_of p) previous.1 previous.2)
    base_generation (commitment_root_of p) = Some q ∧
  from_checkpoint_parts (checkpoint_parts q).1 (checkpoint_parts q).2 = Some q.
Proof.
  intros Hp q previous. assert (Hq : committed q) by by apply update_committed.
  assert (Ha : agree_outside p q cells targets).
  { split; intros k Hk; symmetry; unfold q.
    - rewrite lookup_updated_cells. by apply decide_False.
    - rewrite lookup_updated_stand_down. by apply decide_False. }
  split_and!; [by apply restore_sparse|by apply apply_sparse_delta|by apply checkpoint_restores].
Qed.
End guarantees.
