(* ===== verification/FactGraph.v ===== *)
(** * The causal fact graph: state, indexes and authority

    crates/myownmesh-core/src/semantic/causal.rs: the record [FactGraph], the
    derived indexes and their maintenance, the authority lineage of a subject,
    typed selectors and their provenance, and which admitted facts are
    authoritative.  The fields of the source are grouped by role: [Indexes] are
    the derived maps, [Quarantine] the facts waiting for dependencies.  The model
    is the graph whose rows are all resident: no cold history is retired or
    staged, so the indexes are always current. *)

From S2P Require Import Prelude Ranking Bytes Identity Content Merkle Ancestry Projection.
Local Open Scope nat_scope.

(** [SemanticAdmissionPolicy]: the limits the graph reads. *)
Record SemanticAdmissionPolicy : Type := mkAdmissionPolicy {
  max_fact_encoded_bytes : Z;
  max_dependencies_per_fact : Z;
  max_authority_uses_per_fact : Z;
  max_authority_predecessors_per_use : Z;
  max_admitted_facts : Z;
  max_admitted_bytes : Z;
  max_quarantined_facts : Z;
  max_quarantined_bytes : Z;
  max_quarantined_facts_per_author : Z;
  max_quarantined_bytes_per_author : Z;
  max_retained_facts_per_author : Z;
  max_retained_bytes_per_author : Z;
  max_dependency_edges : Z;
  max_ready_batch : Z;
  max_database_bytes : Z;
}.

Inductive VerifiedProjectPolicy : Type := PolicyOpen | PolicyClosed.

(** Relations of a fact to a typed selector, from signed ancestry; equality counts. *)
Record AuthoritySelectorRelation : Type := mkRelation {
  rel_selected : FactId;
  post_selector : bool;
  selected_before : bool;
  before_selected : bool;
}.

#[export] Instance relation_eq_dec : EqDecision AuthoritySelectorRelation.
Proof. solve_decision. Defined.

Notation AuthorityProvenanceRow := (gmap FactId AuthoritySelectorRelation).
Notation AuthorityProvenance := (gmap FactId AuthorityProvenanceRow).

(** Ordered sets of identities are increasing lists. *)
Record Indexes : Type := mkIndexes {
  cell_heads_index : gmap ExclusiveCell (list FactId);
  authority_heads_index : gmap Device (list FactId);
  authority_facts_index : gmap Device (list FactId);
  authority_selector_index : gmap Device (list (FactId * FactId));
  authority_provenance : AuthorityProvenance;
  cells_index : gset ExclusiveCell;
  stand_down_index : gmap Device (list FactId);
}.

Record Quarantine : Type := mkQuarantine {
  quarantined : FactMap;
  quarantine_missing : gmap FactId (list FactId);
  waiting_by_dependency : gmap FactId (list FactId);
  ready_quarantine : list FactId;
  quarantined_bytes : Z;
  quarantined_dependency_edges : Z;
  quarantined_by_author : gmap Device (Z * Z);
}.

Record FactGraph : Type := mkFactGraph {
  facts : FactMap;
  admission_order : list FactId;
  indexes : Indexes;
  quarantine : Quarantine;
  retained_by_author : gmap Device (Z * Z);
  admitted_fact_count : Z;
  admitted_bytes : Z;
  derived_index_bytes : Z;
  admitted_dependency_edges : Z;
  generation : Z;
  defer_projection_commitment : bool;
  projection_cache : option (Z * Projection);
  context_id : MeshContextId;
  authority_roots : gset Device;
  policy : VerifiedProjectPolicy;
  policy_limits : SemanticAdmissionPolicy;
}.

Definition empty_indexes : Indexes := mkIndexes ∅ ∅ ∅ ∅ ∅ ∅ ∅.
Definition empty_quarantine : Quarantine := mkQuarantine ∅ ∅ ∅ [] 0 0 ∅.

(** [from_bootstrap_with_policy]: the bootstrap supplies context, roots and policy. *)
Definition from_bootstrap (context : MeshContextId) (roots : gset Device) (p : VerifiedProjectPolicy)
    (limits : SemanticAdmissionPolicy) : FactGraph :=
  mkFactGraph ∅ [] empty_indexes empty_quarantine ∅ 0 0 0 0 0 false None context roots p limits.

Section graph.
Context {crypto : Crypto}.

Definition is_payload_local_resolution (body : FactBody) (author subject : Device) : bool :=
  match body with
  | Resolution (MembershipCell cell_subject) _ _ =>
      bool_decide (cell_subject = subject) && bool_decide (cell_subject ≠ author)
  | _ => false
  end.

(** Whether a fact is an edge of the authority lineage of [subject]. *)
Definition uses_authority (f : SignedFact) (subject : Device) : bool :=
  existsb (λ u, bool_decide (au_subject u = subject)
                && negb (is_payload_local_resolution (fc_body (sf_content f)) (fc_author (sf_content f)) subject))
    (fc_authority_uses (sf_content f)).

Definition indexed_authority_subjects (f : SignedFact) : list Device :=
  btree_set device_spelling_cmp
    (au_subject <$> filter (λ u, is_payload_local_resolution (fc_body (sf_content f)) (fc_author (sf_content f))
                                   (au_subject u) = false) (fc_authority_uses (sf_content f))).

(** [entry(k).or_default().insert(id)]. *)
Definition index_insert {K} `{Countable K} (ix : gmap K (list FactId)) (id : FactId) (k : K) : gmap K (list FactId) :=
  <[k := set_insert b32_cmp id (default [] (ix !! k))]> ix.

Definition selector_cmp : FactId * FactId → FactId * FactId → comparison := pair_cmp b32_cmp b32_cmp.

Definition stand_down_target (body : FactBody) : option Device :=
  match body with
  | EvictionProof target _ => Some target
  | SelfStandDown device _ => Some device
  | _ => None
  end.

Definition body_cells (body : FactBody) : list ExclusiveCell := btree_set cell_cmp (exclusive_cells body).

Definition index_fact_metadata (m : FactMap) (ix : Indexes) (id : FactId) : Indexes :=
  match m !! id with
  | None => ix
  | Some f =>
      let body := fc_body (sf_content f) in
      mkIndexes (cell_heads_index ix) (authority_heads_index ix)
        (foldl (λ a s, index_insert a id s) (authority_facts_index ix) (indexed_authority_subjects f))
        (match body with
         | AuthorityLineageResolution subject _ selected =>
             <[subject := set_insert selector_cmp (id, selected) (default [] (authority_selector_index ix !! subject))]>
               (authority_selector_index ix)
         | _ => authority_selector_index ix
         end)
        (authority_provenance ix)
        (list_to_set (body_cells body) ∪ cells_index ix)
        (match stand_down_target body with
         | Some target => index_insert (stand_down_index ix) id target
         | None => stand_down_index ix
         end)
  end.

Definition advance_heads {K} `{Countable K} (m : FactMap) (id : FactId) (ix : gmap K (list FactId)) (k : K)
    : gmap K (list FactId) :=
  <[k := insert_maximal_head m (default [] (ix !! k)) id]> ix.

Definition index_fact_heads (m : FactMap) (ix : Indexes) (id : FactId) : Indexes :=
  match m !! id with
  | None => ix
  | Some f =>
      let body := fc_body (sf_content f) in
      let author := fc_author (sf_content f) in
      mkIndexes
        (foldl (advance_heads m id) (cell_heads_index ix) (body_cells body))
        (foldl (advance_heads m id) (authority_heads_index ix)
           (filter (λ s, is_payload_local_resolution body author s = false) (authority_use_subjects body author)))
        (authority_facts_index ix) (authority_selector_index ix) (authority_provenance ix)
        (cells_index ix) (stand_down_index ix)
  end.

Definition index_fact (m : FactMap) (ix : Indexes) (id : FactId) : Indexes :=
  match m !! id with
  | None => ix
  | Some _ => index_fact_heads m (index_fact_metadata m ix id) id
  end.

Definition set_provenance (ix : Indexes) (p : AuthorityProvenance) : Indexes :=
  mkIndexes (cell_heads_index ix) (authority_heads_index ix) (authority_facts_index ix) (authority_selector_index ix)
    p (cells_index ix) (stand_down_index ix).

(** ** Heads and lineages *)
Definition raw_cell_heads (g : FactGraph) (cell : ExclusiveCell) : list FactId :=
  default [] (cell_heads_index (indexes g) !! cell).

Definition not_payload_local (m : FactMap) (subject : Device) (id : FactId) : bool :=
  match m !! id with
  | Some f => negb (is_payload_local_resolution (fc_body (sf_content f)) (fc_author (sf_content f)) subject)
  | None => false
  end.

Definition raw_authority_use_heads (g : FactGraph) (subject : Device) : list FactId :=
  filter (λ id, not_payload_local (facts g) subject id = true)
    (default [] (authority_heads_index (indexes g) !! subject)).

(** The row of selector relations of one fact. *)
Definition provenance_row (g : FactGraph) (id : FactId) : AuthorityProvenanceRow :=
  default ∅ (authority_provenance (indexes g) !! id).

Definition post_relation (g : FactGraph) (id selector : FactId) : bool :=
  match provenance_row g id !! selector with Some r => post_selector r | None => false end.

Definition selector_provenance_complete (g : FactGraph) (subject : Device) : bool :=
  forallb (λ p, match provenance_row g p.1 !! p.1 with
                | Some r => post_selector r && bool_decide (rel_selected r = p.2)
                | None => false
                end) (default [] (authority_selector_index (indexes g) !! subject)).

Definition selects (g : FactGraph) (subject : Device) (selector selected : FactId) : bool :=
  match fc_body ∘ sf_content <$> facts g !! selector with
  | Some (AuthorityLineageResolution s _ head) => bool_decide (s = subject) && bool_decide (head = selected)
  | _ => false
  end.

Definition ancestral_typed_selectors (g : FactGraph) (subject : Device) (heads : list FactId) : list FactId :=
  btree_set b32_cmp
    (concat ((λ head, (filter (λ row, post_selector row.2 = true ∧ selects g subject row.1 (rel_selected row.2) = true)
                         (map_to_list (provenance_row g head))).*1) <$> heads)).

(** Those no other of them descends from. *)
Definition maximal_selectors (g : FactGraph) (candidates : list FactId) : list FactId :=
  filter (λ c, existsb (λ other, bool_decide (c ≠ other) && post_relation g other c) candidates = false) candidates.

Definition maximal_typed_selectors (g : FactGraph) (subject : Device) (heads : list FactId) : list FactId :=
  maximal_selectors g (ancestral_typed_selectors g subject heads).

Definition selected_authority_branch (g : FactGraph) (subject : Device) (heads : list FactId) : option FactId :=
  if negb (length heads =? 1) then None
  else match maximal_typed_selectors g subject heads with
       | [selector] =>
           match fc_body ∘ sf_content <$> facts g !! selector with
           | Some (AuthorityLineageResolution _ _ selected) => Some selected
           | _ => None
           end
       | _ => None
       end.

Record AuthorityLineage : Type := mkLineage {
  al_subject : Device;
  al_heads : list FactId;
  al_selected_branch : option FactId;
}.

Definition from_heads (subject : Device) (heads : list FactId) (selected : option FactId) : AuthorityLineage :=
  mkLineage subject (ids_sort_dedup heads) selected.
Definition is_singular (l : AuthorityLineage) : bool := length (al_heads l) <=? 1.
Definition lineage_conflicted (l : AuthorityLineage) : bool := 1 <? length (al_heads l).

Definition authority_lineage (g : FactGraph) (subject : Device) : AuthorityLineage :=
  let heads := raw_authority_use_heads g subject in
  from_heads subject heads (selected_authority_branch g subject heads).

Definition authority_use_heads (g : FactGraph) (subject : Device) : list FactId := al_heads (authority_lineage g subject).

Definition selector_permits_fact (g : FactGraph) (selector fact : FactId) : bool :=
  match fc_body ∘ sf_content <$> facts g !! selector with
  | Some (AuthorityLineageResolution _ _ selected) =>
      match provenance_row g fact !! selector with
      | Some r => bool_decide (rel_selected r = selected) && (post_selector r || selected_before r || before_selected r)
      | None => false
      end
  | _ => false
  end.

(** The newest-first rounds of [relevant_typed_selectors]; every round removes at
    least one pending selector, so as many rounds as selectors suffice. *)
Definition relevant_rounds (g : FactGraph) : nat → list FactId → list FactId → option (list FactId) :=
  fix rounds fuel pending relevant :=
  match pending with
  | [] => Some relevant
  | _ =>
      match fuel with
      | 0 => None
      | S fuel =>
          match maximal_selectors g pending with
          | [] => None
          | maxima =>
              let permitted := filter (λ c, forallb (λ later, selector_permits_fact g later c) relevant = true) maxima in
              rounds fuel (filter (λ c, c ∉ maxima) pending) (relevant ++ permitted)
          end
      end
  end.

Definition relevant_typed_selectors (g : FactGraph) (subject : Device) (heads : list FactId) : option (list FactId) :=
  let pending := ancestral_typed_selectors g subject heads in
  relevant_rounds g (length pending) pending [].

Definition authority_use_heads_from_parents (g : FactGraph) (f : SignedFact) (subject : Device) : list FactId :=
  let direct := filter (λ id, match facts g !! id with Some p => uses_authority p subject | None => false end = true)
                  (fc_parents (sf_content f)) in
  filter (λ c, existsb (λ other, bool_decide (c ≠ other) && is_ancestor (facts g) c other) direct = false) direct.

(** The checks of [fact_is_authoritative] for one subject, in the source's order. *)
Definition authoritative_for (g : FactGraph) (f : SignedFact) (subject : Device) : bool :=
  let payload_local := is_payload_local_resolution (fc_body (sf_content f)) (fc_author (sf_content f)) subject in
  let lineage := authority_lineage g subject in
  if negb payload_local && negb (selector_provenance_complete g subject) then false
  else if negb payload_local && (1 <? length (maximal_typed_selectors g subject (al_heads lineage))) then false
  else if negb payload_local && negb (is_singular lineage)
          && negb (forallb (λ head, bool_decide (sf_id f = head) || is_ancestor (facts g) (sf_id f) head) (al_heads lineage))
       then false
  else match List.find (λ u, bool_decide (au_subject u = subject)) (fc_authority_uses (sf_content f)) with
  | None => false
  | Some u =>
      if bool_decide (au_predecessors u ≠ authority_use_heads_from_parents g f subject) then false
      else if payload_local then true
      else match relevant_typed_selectors g subject (al_heads lineage) with
           | None => false
           | Some selectors => forallb (λ s, selector_permits_fact g s (sf_id f)) selectors
           end
  end.

Definition graph_fact_is_authoritative (g : FactGraph) (id : FactId) : bool :=
  match facts g !! id with
  | None => false
  | Some f => forallb (authoritative_for g f) (authority_use_subjects (fc_body (sf_content f)) (fc_author (sf_content f)))
  end.

Definition graph_cell_heads (g : FactGraph) (cell : ExclusiveCell) : list FactId :=
  let raw := raw_cell_heads g cell in
  match filter (λ id, graph_fact_is_authoritative g id = true) raw with
  | [] => if 1 <? length raw then raw else []
  | authoritative => authoritative
  end.

#[export] Instance fact_graph_view : GraphView FactGraph := {
  gv_facts := facts;
  cell_heads := graph_cell_heads;
  indexed_cells g := cells_index (indexes g);
  indexed_stand_down_candidates g := stand_down_index (indexes g);
  fact_is_authoritative := graph_fact_is_authoritative;
}.
End graph.
