(* ===== verification/Residency.v ===== *)
(** * Selector provenance and the byte accounting of the derived indexes

    crates/myownmesh-core/src/semantic/causal.rs: [planned_provenance], the
    reservation and the exact delta of index bytes for one fact, and the full
    scan [logical_index_residency_bytes].  The sizes of Rust types and the length
    of a fact's JSON text are parameters ([Layout]). *)

From S2P Require Import Prelude Ranking Bytes Identity Content Merkle Ancestry Projection FactGraph.
Local Open Scope Z_scope.

(** [size_of] of the rows the indexes hold, and [serde_json::to_vec(fact).len()]. *)
Class Layout : Type := {
  size_fact_id : Z;
  size_cell : Z;
  size_cell_row : Z;
  size_device_row : Z;
  size_selector : Z;
  size_selector_row : Z;
  size_provenance : Z;
  size_provenance_row : Z;
  json_len : SignedFact → option Z;
}.

(** Sizes and lengths are machine words, the sizes positive (no row type is
    zero-sized); the types of a fact always serialize. *)
Class LayoutLaws `{!Layout} : Prop := {
  law_sizes : Forall (λ z, 0 < z ≤ u64_max)
    [size_fact_id; size_cell; size_cell_row; size_device_row; size_selector; size_selector_row;
     size_provenance; size_provenance_row];
  law_json_len f : ∃ n, json_len f = Some n ∧ 0 ≤ n ≤ u64_max;
}.

Section residency.
Context {crypto : Crypto} {layout : Layout}.

(** ** Checked arithmetic *)
Section limit.
Context (limit : Z).

Definition accounting_error : SemanticError := CapacityExceeded AdmittedBytes limit u64_max.

Definition checked_add_bytes (left right : Z) : result SemanticError Z :=
  ok_or accounting_error (checked_add u64_max left right).
Definition checked_mul_bytes (left right : Z) : result SemanticError Z :=
  ok_or accounting_error (checked_mul u64_max left right).
Definition checked_len (n : nat) : result SemanticError Z :=
  if Z.of_nat n <=? u64_max then Ok (Z.of_nat n) else Err accounting_error.

Definition checked_entry_bytes (inline dynamic : Z) (count : nat) (value_bytes : Z) : result SemanticError Z :=
  count ← checked_len count;
  values ← checked_mul_bytes count value_bytes;
  base ← checked_add_bytes inline dynamic;
  checked_add_bytes base values.

Definition device_dynamic_bytes (_ : Device) : Z := 0.
Definition cell_dynamic_bytes (c : ExclusiveCell) : Z :=
  match c with
  | RoleCell subject | MembershipCell subject => device_dynamic_bytes subject
  | DecisionCell _ => 0
  end.

Definition provenance_row_bytes (row : AuthorityProvenanceRow) : result SemanticError Z :=
  checked_entry_bytes size_provenance_row 0 (size row) size_provenance.

(** A loop that adds to a total. *)
Fixpoint sum_bytes {A} (h : A → result SemanticError Z) (total : Z) (l : list A) : result SemanticError Z :=
  match l with
  | [] => Ok total
  | x :: l => entry ← h x; total ← checked_add_bytes total entry; sum_bytes h total l
  end.
End limit.

Definition check_capacity (dimension : SemanticCapacityDimension) (observed limit : Z) : result SemanticError () :=
  if limit <? observed then Err (CapacityExceeded dimension limit observed) else Ok ().

(** ** Planned provenance *)
Definition inherit_relation (row : AuthorityProvenanceRow) (entry : FactId * AuthoritySelectorRelation)
    : AuthorityProvenanceRow :=
  let '(selector, r) := entry in
  if post_selector r || selected_before r then
    let prior := default (mkRelation (rel_selected r) false false false) (row !! selector) in
    <[selector := mkRelation (rel_selected prior) (post_selector prior || post_selector r)
                    (selected_before prior || selected_before r) (before_selected prior)]> row
  else row.

Definition inherited_row (g : FactGraph) (f : SignedFact) : AuthorityProvenanceRow :=
  foldl (λ row parent, foldl inherit_relation row (sorted_rows b32_cmp (provenance_row g parent)))
    (provenance_row g (sf_id f)) (fc_parents (sf_content f)).

Definition relation_to (m : FactMap) (f : SignedFact) (selector selected : FactId) (selected_ancestors : gset FactId)
    (id : FactId) : result SemanticError AuthoritySelectorRelation :=
  ancestors ← complete_ancestors m id f;
  Ok (mkRelation selected
        (bool_decide (id = selector) || bool_decide (selector ∈ ancestors))
        (bool_decide (id = selected) || bool_decide (selected ∈ ancestors))
        (bool_decide (id = selected) || bool_decide (id ∈ selected_ancestors))).

(** One identity of the loop over all resident facts and the new selector. *)
Definition plan_relation (g : FactGraph) (f : SignedFact) (selector selected : FactId) (selected_ancestors : gset FactId)
    (acc : AuthorityProvenance * Z) (id : FactId) : result SemanticError (AuthorityProvenance * Z) :=
  let limit := max_database_bytes (policy_limits g) in
  let '(changes, planned) := acc in
  r ← relation_to (facts g) f selector selected selected_ancestors id;
  if post_selector r || selected_before r || before_selected r then
    let stored := authority_provenance (indexes g) !! id in
    let prior := match changes !! id with Some row => Some row | None => stored end in
    base ← match changes !! id, prior with
           | Some _, _ => Ok 0
           | None, Some row => provenance_row_bytes limit row
           | None, None => Ok size_provenance_row
           end;
    let added := match prior ≫= (!!) selector with Some _ => 0 | None => size_provenance end in
    step ← checked_add_bytes limit base added;
    next ← checked_add_bytes limit planned step;
    check_capacity AdmittedBytes next limit ≫= λ _,
    Ok (<[id := <[selector := r]> (default ∅ prior)]> changes, next)
  else Ok acc.

Fixpoint plan_relations (g : FactGraph) (f : SignedFact) (selector selected : FactId) (ancestors : gset FactId)
    (acc : AuthorityProvenance * Z) (ids : list FactId) : result SemanticError (AuthorityProvenance * Z) :=
  match ids with
  | [] => Ok acc
  | id :: ids =>
      acc ← plan_relation g f selector selected ancestors acc id;
      plan_relations g f selector selected ancestors acc ids
  end.

(** The closing loop over the planned rows: every running total is checked. *)
Fixpoint check_planned (limit bytes : Z) (rows : list (FactId * AuthorityProvenanceRow)) : result SemanticError () :=
  match rows with
  | [] => Ok ()
  | (_, row) :: rows =>
      n ← provenance_row_bytes limit row;
      bytes ← checked_add_bytes limit bytes n;
      check_capacity AdmittedBytes bytes limit ≫= λ _, check_planned limit bytes rows
  end.

Definition dependencies_present (m : FactMap) (f : SignedFact) : bool :=
  forallb (λ d, bool_decide (is_Some (m !! d))) (dependencies f).

Definition planned_provenance (g : FactGraph) (f : SignedFact) : result SemanticError AuthorityProvenance :=
  let limit := max_database_bytes (policy_limits g) in
  if negb (dependencies_present (facts g) f) then Ok ∅
  else
    let row := inherited_row g f in
    inherited ← (if decide (row = ∅) then Ok (∅, 0)
                 else bytes ← provenance_row_bytes limit row;
                      check_capacity AdmittedBytes bytes limit ≫= λ _, Ok ({[sf_id f := row]}, bytes));
    planned ← match fc_body (sf_content f) with
              | AuthorityLineageResolution _ _ selected =>
                  selected_ancestors ← complete_ancestors (facts g) selected f;
                  plan_relations g f (sf_id f) selected selected_ancestors inherited
                    (sorted_ids ({[sf_id f]} ∪ dom (facts g)))
              | _ => Ok inherited
              end;
    check_planned limit 0 (sorted_rows b32_cmp planned.1) ≫= λ _, Ok planned.1.

(** ** Index bytes of one fact *)
Definition provenance_delta_row (limit : Z) (g : FactGraph) (row : FactId * AuthorityProvenanceRow)
    (delta : Z * Z) : result SemanticError (Z * Z) :=
  let '(added, removed) := delta in
  removed ← match authority_provenance (indexes g) !! row.1 with
            | Some previous => n ← provenance_row_bytes limit previous; checked_add_bytes limit removed n
            | None => Ok removed
            end;
  n ← provenance_row_bytes limit row.2;
  added ← checked_add_bytes limit added n;
  Ok (added, removed).

Fixpoint provenance_delta_rows (limit : Z) (g : FactGraph) (delta : Z * Z)
    (rows : list (FactId * AuthorityProvenanceRow)) : result SemanticError (Z * Z) :=
  match rows with
  | [] => Ok delta
  | row :: rows => delta ← provenance_delta_row limit g row delta; provenance_delta_rows limit g delta rows
  end.

Definition provenance_residency_delta (g : FactGraph) (f : SignedFact) : result SemanticError (Z * Z) :=
  plan ← planned_provenance g f;
  provenance_delta_rows (max_database_bytes (policy_limits g)) g (0, 0) (sorted_rows b32_cmp plan).

(** The rows one fact adds to or changes in the keyed indexes. *)
Definition head_replacement_delta (g : FactGraph) (heads : option (list FactId)) (direct : list FactId)
    (inline dynamic : Z) (delta : Z * Z) : result SemanticError (Z * Z) :=
  let limit := max_database_bytes (policy_limits g) in
  let '(added, removed) := delta in
  added ← match heads with
          | None => row ← checked_add_bytes limit inline dynamic; checked_add_bytes limit added row
          | Some _ => Ok added
          end;
  added ← checked_add_bytes limit added size_fact_id;
  count ← checked_len limit
            (length (filter (λ h, signed_head_is_dominated (facts g) direct h = true) (default [] heads)));
  bytes ← checked_mul_bytes limit count size_fact_id;
  removed ← checked_add_bytes limit removed bytes;
  Ok (added, removed).

(** [index.get(k)] is absent: the row; the identity is absent: the identity. *)
Definition set_row_delta {A} `{EqDecision A} (limit row_bytes item_bytes : Z) (set : option (list A)) (x : A)
    (added : Z) : result SemanticError Z :=
  added ← match set with None => checked_add_bytes limit added row_bytes | Some _ => Ok added end;
  if bool_decide (x ∈ default [] set) then Ok added else checked_add_bytes limit added item_bytes.

Definition cell_delta (g : FactGraph) (direct : list FactId) (delta : Z * Z) (cell : ExclusiveCell)
    : result SemanticError (Z * Z) :=
  let limit := max_database_bytes (policy_limits g) in
  let heads := cell_heads_index (indexes g) !! cell in
  added ← (if bool_decide (cell ∈ cells_index (indexes g)) then Ok delta.1
           else row ← checked_add_bytes limit size_cell (cell_dynamic_bytes cell); checked_add_bytes limit delta.1 row);
  head_replacement_delta g heads direct size_cell_row
    (match heads with Some _ => 0 | None => cell_dynamic_bytes cell end) (added, delta.2).

Definition subject_delta (g : FactGraph) (id : FactId) (direct : list FactId) (delta : Z * Z) (subject : Device)
    : result SemanticError (Z * Z) :=
  let limit := max_database_bytes (policy_limits g) in
  let heads := authority_heads_index (indexes g) !! subject in
  row ← checked_add_bytes limit size_device_row (device_dynamic_bytes subject);
  added ← set_row_delta limit row size_fact_id (authority_facts_index (indexes g) !! subject) id delta.1;
  head_replacement_delta g heads direct size_device_row
    (match heads with Some _ => 0 | None => device_dynamic_bytes subject end) (added, delta.2).

Fixpoint deltas {A} (h : Z * Z → A → result SemanticError (Z * Z)) (delta : Z * Z) (l : list A)
    : result SemanticError (Z * Z) :=
  match l with [] => Ok delta | x :: l => delta ← h delta x; deltas h delta l end.

Definition exact_index_residency_delta (g : FactGraph) (f : SignedFact) : result SemanticError (Z * Z) :=
  let limit := max_database_bytes (policy_limits g) in
  let direct := dependencies f in
  let body := fc_body (sf_content f) in
  delta ← deltas (cell_delta g direct) (0, 0) (body_cells body);
  delta ← deltas (subject_delta g (sf_id f) direct) delta (indexed_authority_subjects f);
  added ← match body with
          | AuthorityLineageResolution subject _ selected =>
              row ← checked_add_bytes limit size_selector_row (device_dynamic_bytes subject);
              set_row_delta limit row size_selector (authority_selector_index (indexes g) !! subject)
                (sf_id f, selected) delta.1
          | _ => Ok delta.1
          end;
  provenance ← provenance_residency_delta g f;
  added ← checked_add_bytes limit added provenance.1;
  removed ← checked_add_bytes limit delta.2 provenance.2;
  added ← match stand_down_target body with
          | Some target =>
              row ← checked_add_bytes limit size_device_row (device_dynamic_bytes target);
              set_row_delta limit row size_fact_id (stand_down_index (indexes g) !! target) (sf_id f) added
          | None => Ok added
          end;
  Ok (added, removed).

Definition apply_index_residency_delta (limit current : Z) (delta : Z * Z) : result SemanticError Z :=
  after ← ok_or (accounting_error limit) (checked_sub current delta.2);
  checked_add_bytes limit after delta.1.

(** [index_residency_delta]: the conservative reservation. *)
Definition reserve_row {A} `{EqDecision A} (limit row_bytes dynamic item_bytes : Z) (set : option (list A)) (count : nat)
    : result SemanticError Z :=
  match set with
  | None => checked_entry_bytes limit row_bytes dynamic count item_bytes
  | Some _ => checked_entry_bytes limit 0 0 count item_bytes
  end.

Definition cell_reserve (g : FactGraph) (cell : ExclusiveCell) (total : Z) : result SemanticError Z :=
  let limit := max_database_bytes (policy_limits g) in
  total ← (if bool_decide (cell ∈ cells_index (indexes g)) then Ok total
           else row ← checked_add_bytes limit size_cell (cell_dynamic_bytes cell); checked_add_bytes limit total row);
  entry ← reserve_row limit size_cell_row (cell_dynamic_bytes cell) size_fact_id (cell_heads_index (indexes g) !! cell) 1;
  checked_add_bytes limit total entry.

Definition subject_reserve (g : FactGraph) (id : FactId) (subject : Device) (total : Z) : result SemanticError Z :=
  let limit := max_database_bytes (policy_limits g) in
  let indexed := authority_facts_index (indexes g) !! subject in
  entry ← reserve_row limit size_device_row (device_dynamic_bytes subject) size_fact_id indexed
            (if bool_decide (id ∈ default [] indexed) then 0%nat else 1%nat);
  total ← checked_add_bytes limit total entry;
  entry ← reserve_row limit size_device_row (device_dynamic_bytes subject) size_fact_id
            (authority_heads_index (indexes g) !! subject) 1;
  checked_add_bytes limit total entry.

Fixpoint reserves {A} (h : A → Z → result SemanticError Z) (total : Z) (l : list A) : result SemanticError Z :=
  match l with [] => Ok total | x :: l => total ← h x total; reserves h total l end.

Definition index_residency_delta (g : FactGraph) (f : SignedFact) : result SemanticError Z :=
  let limit := max_database_bytes (policy_limits g) in
  let body := fc_body (sf_content f) in
  total ← reserves (cell_reserve g) 0 (body_cells body);
  total ← reserves (subject_reserve g (sf_id f)) total (indexed_authority_subjects f);
  total ← match body with
          | AuthorityLineageResolution subject _ _ =>
              entry ← reserve_row limit size_selector_row (device_dynamic_bytes subject) size_selector
                        (authority_selector_index (indexes g) !! subject) 1;
              checked_add_bytes limit total entry
          | _ => Ok total
          end;
  provenance ← provenance_residency_delta g f;
  total ← checked_add_bytes limit total (Z.max 0 (provenance.1 - provenance.2));
  match stand_down_target body with
  | Some target =>
      entry ← reserve_row limit size_device_row (device_dynamic_bytes target) size_fact_id
                (stand_down_index (indexes g) !! target) 1;
      checked_add_bytes limit total entry
  | None => Ok total
  end.

(** ** The full scan *)
Definition keyed_rows {K A} `{Countable K} (limit row_bytes item_bytes total : Z) (ix : gmap K (list A))
    : result SemanticError Z :=
  sum_bytes limit (λ row, checked_entry_bytes limit row_bytes 0 (length row.2) item_bytes) total (map_to_list ix).

Definition logical_index_residency_bytes (g : FactGraph) : result SemanticError Z :=
  let limit := max_database_bytes (policy_limits g) in
  let ix := indexes g in
  total ← keyed_rows limit size_cell_row size_fact_id 0 (cell_heads_index ix);
  total ← keyed_rows limit size_device_row size_fact_id total (authority_heads_index ix);
  total ← keyed_rows limit size_device_row size_fact_id total (authority_facts_index ix);
  total ← keyed_rows limit size_selector_row size_selector total (authority_selector_index ix);
  total ← sum_bytes limit (λ row, provenance_row_bytes limit row.2) total (map_to_list (authority_provenance ix));
  total ← sum_bytes limit (λ c, checked_add_bytes limit size_cell (cell_dynamic_bytes c)) total (elements (cells_index ix));
  keyed_rows limit size_device_row size_fact_id total (stand_down_index ix).

(** ** The scalar totals of the fact tables, from the facts *)
Definition fact_encoded_and_edges (limit : Z) (f : SignedFact) : result SemanticError (Z * Z) :=
  encoded ← ok_or EncodingFailed (json_len f);
  deps ← checked_len limit (length (dependencies f));
  uses ← checked_len limit (length (fc_authority_uses (sf_content f)));
  edges ← checked_add_bytes limit deps uses;
  Ok (encoded, edges).

Fixpoint fact_totals (limit : Z) (totals : Z * Z) (fs : list SignedFact) : result SemanticError (Z * Z) :=
  match fs with
  | [] => Ok totals
  | f :: fs =>
      cost ← fact_encoded_and_edges limit f;
      bytes ← checked_add_bytes limit totals.1 cost.1;
      edges ← checked_add_bytes limit totals.2 cost.2;
      fact_totals limit (bytes, edges) fs
  end.

Definition reconciled_fact_totals (g : FactGraph) : result SemanticError (Z * Z * (Z * Z)) :=
  let limit := max_database_bytes (policy_limits g) in
  admitted ← fact_totals limit (0, 0) (map_to_list (facts g)).*2;
  waiting ← fact_totals limit (0, 0) (map_to_list (quarantined (quarantine g))).*2;
  Ok (admitted, waiting).
End residency.
