(* ===== verification/Evaluator.v ===== *)
(** * Causal pasts and the authority evaluator

    crates/myownmesh-core/src/semantic/causal.rs: rebuilding the indexes of a set
    of facts, the graph visible to a candidate ([causal_past]), the current
    projection and [SemanticEvaluator]. *)

From S2P Require Import Prelude Ranking Bytes Identity Content Merkle Ancestry Projection FactGraph Residency.
Local Open Scope nat_scope.

Section evaluator.
Context {crypto : Crypto} {layout : Layout}.

(** ** Rebuilding the indexes in causal order (Kahn's algorithm) *)
Definition resident_dependencies (m : FactMap) (id : FactId) : list FactId :=
  filter (λ d, is_Some (m !! d)) (deps_of m id).

Definition kahn_visit (dependent : FactId) (acc : gmap FactId nat * list FactId) : gmap FactId nat * list FactId :=
  let count := pred (default 0 (acc.1 !! dependent)) in
  (<[dependent := count]> acc.1, if count =? 0 then set_insert b32_cmp dependent acc.2 else acc.2).

Fixpoint kahn (fuel : nat) (dependents : FactId → list FactId) (indegree : gmap FactId nat) (ready ordered : list FactId)
    : list FactId :=
  match fuel, ready with
  | S fuel, id :: ready =>
      let '(indegree, ready) := foldl (λ acc d, kahn_visit d acc) (indegree, ready) (dependents id) in
      kahn fuel dependents indegree ready (ordered ++ [id])
  | _, _ => ordered
  end.

(** The facts in causal order; what a cyclic map leaves over follows by identity. *)
Definition causal_order (m : FactMap) : list FactId :=
  let ids := sorted_ids (dom m) in
  let dependents id := filter (λ d, id ∈ resident_dependencies m d) ids in
  let indegree : gmap FactId nat := list_to_map ((λ id, (id, length (resident_dependencies m id))) <$> ids) in
  let ready := filter (λ id, length (resident_dependencies m id) = 0) ids in
  let ordered := kahn (length ids) dependents indegree ready [] in
  if length ordered =? length ids then ordered else ordered ++ filter (λ id, id ∉ ordered) ids.

Definition is_selector (f : SignedFact) : bool :=
  match fc_body (sf_content f) with AuthorityLineageResolution _ _ _ => true | _ => false end.

Definition selector_ids (m : FactMap) : list FactId :=
  filter (λ id, match m !! id with Some f => is_selector f | None => false end = true) (sorted_ids (dom m)).

Definition set_indexes (g : FactGraph) (ix : Indexes) : FactGraph :=
  mkFactGraph (facts g) (admission_order g) ix (quarantine g) (retained_by_author g) (admitted_fact_count g)
    (admitted_bytes g) (derived_index_bytes g) (admitted_dependency_edges g) (generation g)
    (defer_projection_commitment g) (projection_cache g) (context_id g) (authority_roots g) (policy g) (policy_limits g).

(** Provenance of every selector in turn: a failed plan is skipped by
    [rebuild_indexes] and returned by [rebuild_provenance_checked]. *)
Definition add_provenance (g : FactGraph) (changes : AuthorityProvenance) : FactGraph :=
  set_indexes g (set_provenance (indexes g) (changes ∪ authority_provenance (indexes g))).

Definition rebuild_provenance (g : FactGraph) : FactGraph :=
  foldl (λ g id, match facts g !! id with
                 | Some f => match planned_provenance g f with Ok changes => add_provenance g changes | Err _ => g end
                 | None => g
                 end) g (selector_ids (facts g)).

Fixpoint rebuild_provenance_checked (g : FactGraph) (selectors : list FactId) : result SemanticError FactGraph :=
  match selectors with
  | [] => Ok g
  | id :: selectors =>
      match facts g !! id with
      | Some f => changes ← planned_provenance g f; rebuild_provenance_checked (add_provenance g changes) selectors
      | None => rebuild_provenance_checked g selectors
      end
  end.

Definition rebuild_index_maps (m : FactMap) : Indexes :=
  foldl (index_fact_heads m) (foldl (index_fact_metadata m) empty_indexes (sorted_ids (dom m))) (causal_order m).

Definition with_index_bytes (g : FactGraph) (bytes : Z) : FactGraph :=
  mkFactGraph (facts g) (admission_order g) (indexes g) (quarantine g) (retained_by_author g) (admitted_fact_count g)
    (admitted_bytes g) bytes (admitted_dependency_edges g) (generation g) (defer_projection_commitment g)
    (projection_cache g) (context_id g) (authority_roots g) (policy g) (policy_limits g).

Definition with_totals (g : FactGraph) (totals : Z * Z * (Z * Z)) : FactGraph :=
  let q := quarantine g in
  mkFactGraph (facts g) (admission_order g) (indexes g)
    (mkQuarantine (quarantined q) (quarantine_missing q) (waiting_by_dependency q) (ready_quarantine q)
       totals.2.1 totals.2.2 (quarantined_by_author q))
    (retained_by_author g) (admitted_fact_count g) totals.1.1 (derived_index_bytes g) totals.1.2 (generation g)
    (defer_projection_commitment g) (projection_cache g) (context_id g) (authority_roots g) (policy g) (policy_limits g).

(** [rebuild_indexes] without retired history: order, indexes, provenance and
    count from the facts; a scalar that overflows becomes the closed sentinel. *)
Definition rebuild_indexes (g : FactGraph) : FactGraph :=
  let m := facts g in
  let rebuilt := rebuild_provenance
    (mkFactGraph m (causal_order m) (rebuild_index_maps m) (quarantine g) (retained_by_author g) (Z.of_nat (size m))
       (admitted_bytes g) (derived_index_bytes g) (admitted_dependency_edges g) (generation g)
       (defer_projection_commitment g) None (context_id g) (authority_roots g) (policy g) (policy_limits g)) in
  with_index_bytes
    (with_totals rebuilt
       match reconciled_fact_totals rebuilt with Ok t => t | Err _ => (u64_max, u64_max, (u64_max, u64_max)) end)
    match logical_index_residency_bytes rebuilt with Ok bytes => bytes | Err _ => u64_max end.

(** The graph over a subset of the facts, with context, roots, policy and limits
    of the original: [causal_past]'s scoped graph. *)
Definition scoped_graph (g : FactGraph) (ids : gset FactId) : result SemanticError FactGraph :=
  let m : FactMap := filter (λ row, row.1 ∈ ids) (facts g) in
  let scoped := mkFactGraph m [] empty_indexes empty_quarantine ∅ 0 0 0 0 0
                  false None (context_id g) (authority_roots g) (policy g) (policy_limits g) in
  rebuilt ← rebuild_provenance_checked (rebuild_indexes scoped) (selector_ids m);
  bytes ← logical_index_residency_bytes rebuilt;
  Ok (with_index_bytes rebuilt bytes).

Definition heads_cited (heads parents : list FactId) : bool := forallb (λ h, bool_decide (h ∈ parents)) heads.

Definition current_heads_are_complete (g : FactGraph) (f : SignedFact) : bool :=
  let c := sf_content f in
  match fc_body c with
  | RoleGrant _ _ | RoleRevoke _ =>
      forallb (λ cell, heads_cited (raw_cell_heads g cell) (fc_parents c)) (exclusive_cells (fc_body c)) &&
      forallb (λ s, heads_cited (raw_authority_use_heads g s) (fc_parents c))
        (authority_use_subjects (fc_body c) (fc_author c))
  | _ => false
  end.

(** [causal_past]: the live graph itself when the candidate cites every current
    head or depends on every fact, else the graph of its dependencies. *)
Definition causal_past (g : FactGraph) (f : SignedFact) : result SemanticError FactGraph :=
  if current_heads_are_complete g f then Ok g
  else
    ids ← dependency_closure (facts g) f;
    if size ids =? size (facts g) then Ok g else scoped_graph g ids.

(** ** The evaluator *)
Definition projection (g : FactGraph) : Projection :=
  match projection_cache g with
  | Some (cached, p) => if (cached =? generation g)%Z then p else from_graph g
  | None => from_graph g
  end.

Definition effective_role (g : FactGraph) (subject : Device) : option Role :=
  let p := projection g in
  if is_stood_down p subject then None
  else if is_conflicted p (RoleCell subject) then None
  else match value p (RoleCell subject) with
       | None => if decide (subject ∈ authority_roots g) then Some Owner else None
       | Some id => f ← facts g !! id; projected_role (fc_body (sf_content f)) subject
       end.

Definition effective_authorized_role (g : FactGraph) (subject : Device) : option Role :=
  if negb (selector_provenance_complete g subject) then None
  else if is_singular (authority_lineage g subject) then effective_role g subject else None.

Definition projected_fact (g : FactGraph) (cell : ExclusiveCell) : option SignedFact :=
  id ← value (projection g) cell;
  f ← facts g !! id;
  if body_advances_cell (fc_body (sf_content f)) cell then Some f else None.

Definition effective_membership (g : FactGraph) (subject : Device) : option bool :=
  f ← projected_fact g (MembershipCell subject); projected_membership (fc_body (sf_content f)) subject.

Definition effective_decision (g : FactGraph) (proposal : FactId) : option AttestationDecision :=
  f ← projected_fact g (DecisionCell proposal); projected_decision (fc_body (sf_content f)) proposal.

Definition has_tier (g : FactGraph) (signer : Device) (required : Role) : bool :=
  if negb (selector_provenance_complete g signer) then false
  else match effective_role g signer, required with
       | None, _ => false
       | Some Owner, _ => true
       | Some Controller, (Controller | Member) => true
       | Some Member, Member => true
       | _, _ => false
       end.

(** The tier needed to act on a role: an unknown role needs an owner. *)
Definition tier_over (r : option Role) : Role :=
  match r with Some Owner => Owner | Some Controller => Controller | Some Member => Controller | None => Owner end.
Definition target_tier (g : FactGraph) (target : Device) : Role := tier_over (effective_role g target).

Definition grant_tier (r : Role) : Role := match r with Owner => Owner | Member | Controller => Controller end.

(** [max] of roles in the derived order Member, Controller, Owner. *)
Definition role_max (a b : Role) : Role :=
  match a, b with Owner, _ | _, Owner => Owner | Controller, _ | _, Controller => Controller | _, _ => Member end.
Definition max_role (l : list Role) : option Role :=
  match l with [] => None | r :: l => Some (foldl role_max r l) end.

(** A resolution of a role cell needs the highest tier of its candidates, followed
    through nested resolutions; the visited set bounds the depth by the facts. *)
Fixpoint resolution_tier_with_visited (fuel : nat) (g : FactGraph) (cell : ExclusiveCell) (cited : list FactId)
    (visited : gset FactId) : Role :=
  match fuel, cell with
  | S fuel, RoleCell subject =>
      let candidate head : option Role :=
        if decide (head ∈ visited) then None
        else match facts g !! head with
             | None => None
             | Some f =>
                 match fc_body (sf_content f) with
                 | RoleGrant target role => if decide (target = subject) then Some (grant_tier role) else None
                 | RoleRevoke target =>
                     if decide (target = subject) then
                       match causal_past g f with
                       | Ok past => Some (tier_over (effective_role past subject))
                       | Err _ => None
                       end
                     else None
                 | Resolution nested cited' _ =>
                     if decide (nested = cell)
                     then Some (resolution_tier_with_visited fuel g nested cited' ({[head]} ∪ visited))
                     else None
                 | _ => None
                 end
             end in
      default (target_tier g subject) (max_role (omap candidate cited))
  | _, RoleCell subject | _, MembershipCell subject => target_tier g subject
  | _, DecisionCell _ => Member
  end.

Definition resolution_tier (g : FactGraph) (cell : ExclusiveCell) (cited : list FactId) : Role :=
  resolution_tier_with_visited (S (size (facts g))) g cell cited ∅.

Definition body_tier (g : FactGraph) (body : FactBody) : Role :=
  match body with
  | RoleGrant _ role => grant_tier role
  | RoleRevoke target | Evict target | EvictionProof target _ => target_tier g target
  | MembershipAdmit _ => Controller
  | Attestation _ _ _ _ _ => Member
  | Resolution cell cited _ => resolution_tier g cell cited
  | AuthorityLineageResolution subject cited _ => resolution_tier g (RoleCell subject) cited
  | SelfStandDown _ _ => Owner
  end.

Definition authorizes (g : FactGraph) (author : Device) (body : FactBody) : bool :=
  match body with
  | SelfStandDown device _ => bool_decide (author = device)
  | _ => has_tier g author (body_tier g body)
  end.

Definition required_tier (g : FactGraph) (body : FactBody) : option Role :=
  match policy g, body with
  | PolicyOpen, _ | _, SelfStandDown _ _ => None
  | PolicyClosed, _ => Some (body_tier g body)
  end.

Definition role_admits (g : FactGraph) (subject : Device) : bool :=
  match effective_role g subject with
  | None => false
  | Some _ => default true (effective_membership g subject)
  end.

Definition admits_closed_session (g : FactGraph) (local remote : Device) : bool :=
  match policy g with
  | PolicyOpen => true
  | PolicyClosed =>
      is_singular (authority_lineage g local) && is_singular (authority_lineage g remote)
      && role_admits g local && role_admits g remote
  end.

(** ** Authoring *)
Definition direct_dependency (m : FactMap) (descendant ancestor : FactId) : bool :=
  match m !! descendant with Some f => bool_decide (ancestor ∈ dependencies f) | None => false end.

Definition stand_down_heads (g : FactGraph) (subject : Device) : list FactId :=
  let ids := filter (λ id, graph_fact_is_authoritative g id = true) (default [] (stand_down_index (indexes g) !! subject)) in
  filter (λ c, existsb (λ other, bool_decide (c ≠ other) && direct_dependency (facts g) other c) ids = false) ids.

Record AuthoringWitness : Type := mkWitness {
  aw_author : Device;
  aw_parents : list FactId;
  aw_required_tier : option Role;
}.

Definition authoring_witness (g : FactGraph) (body : FactBody) (author : Device) : AuthoringWitness :=
  mkWitness author
    (ids_sort_dedup
       (concat (graph_cell_heads g <$> exclusive_cells body)
        ++ concat (authority_use_heads g <$> authority_use_subjects body author)
        ++ match body with MembershipAdmit target => stand_down_heads g target | _ => [] end))
    (required_tier g body).

Definition from_authoring_witness (g : FactGraph) (body : FactBody) (w : AuthoringWitness) (support : list FactId)
    : FactContent :=
  let content := content_new (body_domain body) (context_id g) body (aw_author w)
                   (aw_parents w ++ causal_support body ++ support) in
  mkFactContent (fc_version content) (fc_domain content) (fc_context content) (fc_body content) (fc_author content)
    (fc_parents content)
    ((λ s, authority_use_new s (authority_use_heads g s))
       <$> authority_use_subjects (fc_body content) (fc_author content)).
(** ** Enough fuel *)
Lemma visit_shrinks {A} (m : gmap FactId A) id (visited : gset FactId) :
  id ∉ visited → is_Some (m !! id) → size (dom m ∖ ({[id]} ∪ visited)) < size (dom m ∖ visited).
Proof.
  intros Hid Hm%elem_of_dom. apply subset_size. split; [set_solver|]. intros Hsub. specialize (Hsub id). set_solver.
Qed.

Lemma resolve_fuel fuel extra m cell head visited :
  size (dom m ∖ visited) < fuel →
  resolve_effective_head (fuel + extra) m cell head visited = resolve_effective_head fuel m cell head visited.
Proof.
  revert head visited. induction fuel as [|fuel IH]; intros head visited Hlt; [lia|]. cbn [resolve_effective_head Nat.add].
  destruct (decide (head ∈ visited)) as [|Hv]; [done|]. destruct (m !! head) as [f|] eqn:Hf; [|done].
  destruct (fc_body (sf_content f)); try done. destruct (decide _); [|done]. destruct (_ || _); [done|].
  destruct (advances_cell _ _ _); [|done]. apply IH. pose proof (visit_shrinks m head visited Hv (ex_intro _ _ Hf)). lia.
Qed.

Lemma relevant_rounds_fuel g fuel extra pending relevant :
  length pending ≤ fuel → relevant_rounds g (fuel + extra) pending relevant = relevant_rounds g fuel pending relevant.
Proof.
  revert pending relevant. induction fuel as [|fuel IH]; intros pending relevant Hle.
  { destruct pending; [|cbn in Hle; lia]. by destruct extra. }
  destruct pending as [|x pending]; [done|]. cbn [relevant_rounds Nat.add].
  destruct (maximal_selectors g (x :: pending)) as [|y maxima] eqn:Hm; [done|]. apply IH.
  assert (Hy : y ∈ x :: pending).
  { assert (Hin : y ∈ maximal_selectors g (x :: pending)) by (rewrite Hm; by left). by apply list_elem_of_filter in Hin as [_ ?]. }
  assert (Hlt : length (filter (λ c, c ∉ y :: maxima) (x :: pending)) < length (x :: pending)).
  { apply length_filter_lt with y; [done|]. intros Hn. apply Hn. by left. }
  lia.
Qed.

Lemma resolution_tier_fuel fuel extra g cell cited visited :
  size (dom (facts g) ∖ visited) < fuel →
  resolution_tier_with_visited (fuel + extra) g cell cited visited = resolution_tier_with_visited fuel g cell cited visited.
Proof.
  revert cell cited visited. induction fuel as [|fuel IH]; intros cell cited visited Hlt; [lia|].
  cbn [resolution_tier_with_visited Nat.add]. destruct cell as [subject|subject|id]; [|done..]. do 2 f_equal.
  apply list_omap_ext, Forall2_same_length_lookup_2; [done|]. intros i h h' Hh Hh'. assert (h' = h) as -> by congruence.
  destruct (decide (h ∈ visited)) as [|Hv]; [done|]. destruct (facts g !! h) as [f|] eqn:Hf; [|done].
  destruct (fc_body (sf_content f)); try done. destruct (decide _); [|done]. f_equal. apply IH.
  pose proof (visit_shrinks (facts g) h visited Hv (ex_intro _ _ Hf)). lia.
Qed.
End evaluator.
