(* ===== verification/Admission.v ===== *)
(** * Admission of facts into the causal graph

    crates/myownmesh-core/src/semantic/causal.rs: which projected entries a fact
    can change, the cost and the reservations of a fact, the admission checks,
    insertion, quarantine, waking and the bounded retry of waiters, and the
    journaled admission that composes them.  A refused call returns no graph: the
    source restores the captured rollback state, so the caller keeps its graph,
    with the projection cache as it was or empty ([uncached]). *)

From S2P Require Import Prelude Ranking Bytes Identity Content Merkle Ancestry Projection FactGraph Residency.
From S2P Require Import Evaluator.
Local Open Scope Z_scope.

Inductive Admission : Type := Inserted | AlreadyPresent | Quarantined (missing : list FactId).

#[export] Instance admission_eq_dec : EqDecision Admission.
Proof. solve_decision. Defined.

Record FactCost : Type := mkFactCost {
  encoded_bytes : Z;
  cost_index_bytes : Z;
  dependency_edges : Z;
  missing : list FactId;
}.

Section admission.
Context {crypto : Crypto} {layout : Layout}.

(** ** Which projected entries a fact can change *)
Notation impact := (gset ExclusiveCell * gset Device)%type.
Definition join_impact (a b : impact) : impact := (a.1 ∪ b.1, a.2 ∪ b.2).

Definition cell_subject (cell : ExclusiveCell) : list Device :=
  match cell with RoleCell s | MembershipCell s => [s] | DecisionCell _ => [] end.

(** The cells of a body, their subjects, and the target of an eviction. *)
Definition body_impact (body : FactBody) : impact :=
  (list_to_set (exclusive_cells body),
   list_to_set (concat (cell_subject <$> exclusive_cells body) ++
     match body with EvictionProof t _ | SelfStandDown t _ | Evict t => [t] | _ => [] end)).

Definition cites_authority (f : SignedFact) (subject : Device) (predecessor : FactId) : bool :=
  existsb (λ u, bool_decide (au_subject u = subject)
                && negb (is_payload_local_resolution (fc_body (sf_content f)) (fc_author (sf_content f)) subject)
                && bool_decide (predecessor ∈ au_predecessors u)) (fc_authority_uses (sf_content f)).

(** Resident facts of the subject's authority that cite [id]; unknown rows end a walk. *)
Definition authority_dependents (g : FactGraph) (subject : Device) (id : FactId) : list FactId :=
  match facts g !! id with
  | None => []
  | Some _ =>
      filter (λ d, match facts g !! d with Some f => cites_authority f subject id | None => false end = true)
        (default [] (authority_facts_index (indexes g) !! subject))
  end.

Definition authority_branch_impact (g : FactGraph) (subject : Device) (seeds : list FactId) : impact :=
  let visited := run_closure (authority_dependents g subject) (facts g) (reverse seeds) in
  foldr (λ id acc, match facts g !! id with
                   | Some f => join_impact (body_impact (fc_body (sf_content f))) acc
                   | None => acc
                   end) (∅, ∅) (elements visited).

Definition authority_participant_impact (g : FactGraph) (subject : Device) (seeds : list FactId) : impact :=
  authority_branch_impact g subject
    (btree_set b32_cmp (seeds ++ default [] (authority_facts_index (indexes g) !! subject))).

Definition ordinary_authority_fork_impact (g : FactGraph) (f : SignedFact) (subject : Device) : impact :=
  let heads := default [] (authority_heads_index (indexes g) !! subject) in
  if existsb (λ head, bool_decide (head ≠ sf_id f) && bool_decide (head ∉ dependencies f)) heads
  then authority_participant_impact g subject heads
  else (∅, ∅).

Definition authority_resolution_selection (body : FactBody) (subject : Device) : option FactId :=
  match body with
  | AuthorityLineageResolution s _ selected | Resolution (RoleCell s) _ selected =>
      if decide (s = subject) then Some selected else None
  | _ => None
  end.

Definition use_predecessors (f : SignedFact) (subject : Device) : list FactId :=
  match List.find (λ u, bool_decide (au_subject u = subject)) (fc_authority_uses (sf_content f)) with
  | Some u => au_predecessors u
  | None => []
  end.

Definition subject_impact (g : FactGraph) (f : SignedFact) (subject : Device) : impact :=
  let body := fc_body (sf_content f) in
  match authority_resolution_selection body subject with
  | Some _ =>
      match body with
      | AuthorityLineageResolution _ _ _ => authority_participant_impact g subject (use_predecessors f subject)
      | _ => authority_branch_impact g subject (use_predecessors f subject)
      end
  | None =>
      if is_payload_local_resolution body (fc_author (sf_content f)) subject then (∅, ∅)
      else ordinary_authority_fork_impact g f subject
  end.

Definition projection_impact_for_fact (g : FactGraph) (f : SignedFact) : impact :=
  let body := fc_body (sf_content f) in
  foldl (λ acc s, join_impact acc (join_impact (∅, {[s]}) (subject_impact g f s))) (body_impact body)
    (authority_use_subjects body (fc_author (sf_content f))).

(** ** Cost and reservations *)
Definition max_predecessors (uses : list AuthorityUse) : nat :=
  foldr Nat.max 0%nat ((λ u, length (au_predecessors u)) <$> uses).

Definition missing_dependencies (g : FactGraph) (f : SignedFact) : list FactId :=
  filter (λ d, facts g !! d = None) (dependencies f).

Definition fact_cost (g : FactGraph) (f : SignedFact) : result SemanticError FactCost :=
  let l := policy_limits g in
  let limit := max_database_bytes l in
  sizes ← fact_encoded_and_edges limit f;
  index_bytes ← index_residency_delta g f;
  check_capacity FactEncodedBytes sizes.1 (max_fact_encoded_bytes l) ≫= λ _,
  deps ← checked_len limit (length (dependencies f));
  check_capacity DependenciesPerFact deps (max_dependencies_per_fact l) ≫= λ _,
  uses ← checked_len limit (length (fc_authority_uses (sf_content f)));
  check_capacity AuthorityUsesPerFact uses (max_authority_uses_per_fact l) ≫= λ _,
  preds ← checked_len limit (max_predecessors (fc_authority_uses (sf_content f)));
  check_capacity AuthorityPredecessorsPerUse preds (max_authority_predecessors_per_use l) ≫= λ _,
  Ok (mkFactCost sizes.1 index_bytes sizes.2 (missing_dependencies g f)).

Definition checked_total (dimension : SemanticCapacityDimension) (current additional limit : Z) : result SemanticError Z :=
  observed ← ok_or (CapacityExceeded dimension limit u64_max) (checked_add u64_max current additional);
  check_capacity dimension observed limit ≫= λ _, Ok observed.

Definition usage_of (m : gmap Device (Z * Z)) (author : Device) : Z * Z := default (0, 0) (m !! author).

Definition reserve_retained (g : FactGraph) (author : Device) (cost : FactCost) : result SemanticError () :=
  let '(count, bytes) := usage_of (retained_by_author g) author in
  checked_total RetainedFactsPerAuthor count 1 (max_retained_facts_per_author (policy_limits g)) ≫= λ _,
  checked_total RetainedBytesPerAuthor bytes (encoded_bytes cost) (max_retained_bytes_per_author (policy_limits g))
    ≫= λ _, Ok ().

(** The counted dependency edges of admitted and quarantined facts together. *)
Definition reserve_edges (g : FactGraph) (cost : FactCost) : result SemanticError () :=
  let limit := max_dependency_edges (policy_limits g) in
  total ← ok_or (CapacityExceeded DependencyEdges limit u64_max)
            (checked_add u64_max (admitted_dependency_edges g) (quarantined_dependency_edges (quarantine g)));
  checked_total DependencyEdges total (dependency_edges cost) limit ≫= λ _, Ok ().

Definition reserve_quarantine (g : FactGraph) (f : SignedFact) (cost : FactCost) (retained_reserved : bool)
    : result SemanticError () :=
  let l := policy_limits g in
  (if retained_reserved then Ok () else reserve_retained g (fc_author (sf_content f)) cost) ≫= λ _,
  count ← checked_len (max_database_bytes l) (size (quarantined (quarantine g)));
  checked_total QuarantinedFacts count 1 (max_quarantined_facts l) ≫= λ _,
  checked_total QuarantinedBytes (quarantined_bytes (quarantine g)) (encoded_bytes cost) (max_quarantined_bytes l) ≫= λ _,
  reserve_edges g cost ≫= λ _,
  let '(author_count, author_bytes) := usage_of (quarantined_by_author (quarantine g)) (fc_author (sf_content f)) in
  checked_total QuarantinedFactsPerAuthor author_count 1 (max_quarantined_facts_per_author l) ≫= λ _,
  checked_total QuarantinedBytesPerAuthor author_bytes (encoded_bytes cost) (max_quarantined_bytes_per_author l)
    ≫= λ _, Ok ().

Definition reserve_admitted (g : FactGraph) (f : SignedFact) (cost : FactCost) (retained_reserved : bool)
    : result SemanticError () :=
  let l := policy_limits g in
  (if retained_reserved then Ok () else reserve_retained g (fc_author (sf_content f)) cost) ≫= λ _,
  checked_total AdmittedFacts (admitted_fact_count g) 1 (max_admitted_facts l) ≫= λ _,
  checked_total AdmittedBytes (admitted_bytes g) (encoded_bytes cost) (max_admitted_bytes l) ≫= λ _,
  resident ← ok_or (accounting_error (max_database_bytes l))
    (a ← checked_add u64_max (admitted_bytes g) (encoded_bytes cost);
     b ← checked_add u64_max a (derived_index_bytes g);
     checked_add u64_max b (cost_index_bytes cost));
  check_capacity AdmittedBytes resident (max_database_bytes l) ≫= λ _,
  reserve_edges g cost.

(** Per-author usage: one more fact, or one fewer (an empty row is removed). *)
Definition retain_usage (m : gmap Device (Z * Z)) (author : Device) (bytes : Z) : gmap Device (Z * Z) :=
  let '(n, b) := usage_of m author in <[author := (n + 1, b + bytes)]> m.
Definition release_usage (m : gmap Device (Z * Z)) (author : Device) (bytes : Z) : gmap Device (Z * Z) :=
  match m !! author with
  | None => m
  | Some (n, b) => if n - 1 =? 0 then delete author m else <[author := (n - 1, b - bytes)]> m
  end.

(** ** The admission checks *)
Definition validate_domain (g : FactGraph) : result SemanticError () :=
  match policy g with PolicyOpen => Err DomainMismatch | PolicyClosed => Ok () end.

Definition semantic_noop (g : FactGraph) (body : FactBody) : option string :=
  match body with
  | RoleGrant target role =>
      if decide (effective_role g target = Some role) then Some "role grant already effective" else None
  | RoleRevoke target =>
      let absent :=
        match p_cells (projection g) !! RoleCell target with
        | None => bool_decide (target ∉ authority_roots g)
        | Some (Conflict _) => false
        | Some (Value id) =>
            match facts g !! id with
            | Some f => match projected_role (fc_body (sf_content f)) target with Some _ => false | None => true end
            | None => true
            end
        end in
      if absent then Some "role revoke targets an absent role" else None
  | MembershipAdmit target =>
      if decide (effective_membership g target = Some true) then Some "membership is already admitted" else None
  | Evict target =>
      if decide (effective_membership g target = Some false) then Some "membership is already evicted" else None
  | SelfStandDown device _ =>
      if is_stood_down (projection g) device then Some "stand-down is already effective" else None
  | Resolution cell _ _ =>
      if is_conflicted (projection g) cell then None else Some "resolution has no live conflict"
  | AuthorityLineageResolution subject _ _ =>
      if lineage_conflicted (authority_lineage g subject) then None
      else Some "authority-lineage resolution has no live conflict"
  | _ => None
  end%string.

Definition semantic_noop_for_candidate (g : FactGraph) (f : SignedFact) : result SemanticError (option string) :=
  match fc_body (sf_content f) with
  | RoleGrant _ _ | RoleRevoke _ | Resolution _ _ _ | AuthorityLineageResolution _ _ _ =>
      past ← causal_past g f; Ok (semantic_noop past (fc_body (sf_content f)))
  | body => Ok (semantic_noop g body)
  end.

Definition authorization_error (body : FactBody) : option SemanticError :=
  match body with
  | RoleGrant _ _ | RoleRevoke _ | Evict _ | Resolution _ _ _ | AuthorityLineageResolution _ _ _ =>
      Some UnauthorizedRoleGrant
  | MembershipAdmit _ => Some UnauthorizedMembershipAdmit
  | Attestation _ _ _ _ _ => Some UnauthorizedAttestation
  | _ => None
  end.

Definition resolution_selects_authority_heads (body : FactBody) (subject : Device) : bool :=
  match body with AuthorityLineageResolution s _ _ => bool_decide (s = subject) | _ => false end.

Definition same_cell_role_resolution (m : FactMap) (body : FactBody) (subject : Device) (expected : list FactId) : bool :=
  match body with
  | Resolution (RoleCell s) cited _ =>
      bool_decide (s = subject) && bool_decide (cited = expected)
      && forallb (advances_cell m (RoleCell subject)) expected
  | _ => false
  end.

Definition lineage_valid_for (g : FactGraph) (f : SignedFact) (subject : Device) : bool :=
  let body := fc_body (sf_content f) in
  match List.find (λ u, bool_decide (au_subject u = subject)) (fc_authority_uses (sf_content f)) with
  | None => false
  | Some u =>
      let expected := raw_authority_use_heads g subject in
      bool_decide (ids_sort_dedup (au_predecessors u) = expected)
      && ((length expected <=? 1)%nat
          || is_payload_local_resolution body (fc_author (sf_content f)) subject
          || resolution_selects_authority_heads body subject
          || same_cell_role_resolution (facts g) body subject expected)
  end.

Definition validate_authority_lineage (g : FactGraph) (f : SignedFact) (error : SemanticError) : result SemanticError () :=
  if forallb (lineage_valid_for g f) (authority_use_subjects (fc_body (sf_content f)) (fc_author (sf_content f)))
  then Ok () else Err error.

Definition valid_attestation (g : FactGraph) (target : Device) (id : FactId) : bool :=
  match sf_content <$> facts g !! id with
  | Some c =>
      match fc_body c with
      | Attestation t _ DecideEvict signer _ =>
          bool_decide (t = target) && has_tier g signer Member && bool_decide (signer = fc_author c)
      | _ => false
      end
  | None => false
  end.

Definition validate_eviction_proof (g : FactGraph) (target : Device) (evidence : list FactId) (author : Device)
    : result SemanticError () :=
  if negb (authorizes g author (Evict target)) then Err UnauthorizedEviction
  else if forallb (valid_attestation g target) evidence then Ok () else Err InvalidEvictionEvidence.

Definition evicts (m : FactMap) (device : Device) (id : FactId) : bool :=
  match fc_body ∘ sf_content <$> m !! id with
  | Some (EvictionProof target _) => bool_decide (target = device)
  | _ => false
  end.

Definition validate_self_stand_down (g : FactGraph) (device : Device) (evidence : list FactId) (author : Device)
    : result SemanticError () :=
  if bool_decide (device ≠ author) then Err InvalidStandDownProof
  else if forallb (evicts (facts g) device) evidence then Ok () else Err InvalidStandDownProof.

Definition cited_canonical (cited : list FactId) : bool :=
  let sorted := ids_sort_dedup cited in
  negb ((length sorted <? 2)%nat || negb (length sorted =? length cited)%nat || bool_decide (sorted ≠ cited)).

(** The loop that requires every cited head to be known and a parent. *)
Fixpoint cited_heads_known (m : FactMap) (parents cited : list FactId) : result SemanticError () :=
  match cited with
  | [] => Ok ()
  | head :: cited =>
      match m !! head with
      | None => Err (UnknownResolutionHead head)
      | Some _ => if bool_decide (head ∈ parents) then cited_heads_known m parents cited else Err IncompleteResolution
      end
  end.

Definition validate_resolution (g : FactGraph) (f : SignedFact) : result SemanticError () :=
  let parents := fc_parents (sf_content f) in
  match fc_body (sf_content f) with
  | Resolution cell cited selected =>
      if bool_decide (selected ∉ cited) then Err ResolutionSelectionNotCited
      else if negb (cited_canonical cited) then Err IncompleteResolution
      else
        cited_heads_known (facts g) parents cited ≫= λ _,
        if negb (forallb (advances_cell (facts g) cell) cited) then Err IncompleteResolution
        else if bool_decide (raw_cell_heads g cell ≠ cited) then Err ResolutionNotCurrent else Ok ()
  | AuthorityLineageResolution subject cited selected =>
      if bool_decide (selected ∉ cited) then Err ResolutionSelectionNotCited
      else if negb (cited_canonical cited) then Err IncompleteResolution
      else if negb (forallb (λ head, bool_decide (head ∈ parents)
                               && match facts g !! head with
                                  | Some h => existsb (λ u, bool_decide (au_subject u = subject))
                                                (fc_authority_uses (sf_content h))
                                  | None => false
                                  end) cited) then Err InvalidAuthorityUse
      else if bool_decide (cited ≠ al_heads (authority_lineage g subject)) then Err ResolutionNotCurrent else Ok ()
  | _ => Ok ()
  end.

(** Everything the candidate must satisfy in the graph it is judged against. *)
Definition validate_candidate (causal : FactGraph) (f : SignedFact) : result SemanticError () :=
  let body := fc_body (sf_content f) in
  let author := fc_author (sf_content f) in
  validate_resolution causal f ≫= λ _,
  match authorization_error body with
  | Some error =>
      validate_authority_lineage causal f error ≫= λ _,
      if authorizes causal author body then Ok () else Err error
  | None => Ok ()
  end ≫= λ _,
  match body with
  | EvictionProof target evidence =>
      validate_authority_lineage causal f UnauthorizedEviction ≫= λ _, validate_eviction_proof causal target evidence author
  | SelfStandDown device evidence =>
      validate_authority_lineage causal f InvalidStandDownProof ≫= λ _, validate_self_stand_down causal device evidence author
  | _ => Ok ()
  end.

Definition is_authorized_signer (g : FactGraph) (signer : Device) : bool := bool_decide (is_Some (effective_role g signer)).

(** The checks before any change: identity, duplicates, cost, redundancy. *)
Definition precheck (g : FactGraph) (f : SignedFact) : result SemanticError (option FactCost) :=
  verify_fact f ≫= λ _,
  if bool_decide (fc_context (sf_content f) ≠ context_id g) then Err (ContextMismatch (context_id g) (fc_context (sf_content f)))
  else
    validate_domain g ≫= λ _,
    match facts g !! sf_id f, quarantined (quarantine g) !! sf_id f with
    | Some existing, _ | None, Some existing =>
        if decide (existing = f) then Ok None else Err (DuplicateFact (sf_id f))
    | None, None =>
        if bool_decide (sf_id f ∈ fc_parents (sf_content f)) then Err SelfParent
        else
          cost ← fact_cost g f;
          match missing cost with
          | [] =>
              noop ← semantic_noop_for_candidate g f;
              match noop with
              | Some operation => Err (NoOp operation)
              | None =>
                  match List.find (λ p, bool_decide (facts g !! p = None)) (fc_parents (sf_content f)) with
                  | Some parent => Err (MissingParent parent)
                  | None => Ok (Some cost)
                  end
              end
          | _ => Ok (Some cost)
          end
    end.

(** ** Changing the graph *)
Definition with_quarantine (g : FactGraph) (q : Quarantine) (retained : gmap Device (Z * Z)) : FactGraph :=
  mkFactGraph (facts g) (admission_order g) (indexes g) q retained (admitted_fact_count g) (admitted_bytes g)
    (derived_index_bytes g) (admitted_dependency_edges g) (generation g) (defer_projection_commitment g)
    (projection_cache g) (context_id g) (authority_roots g) (policy g) (policy_limits g).

(** The projection cache: [uncached] after [projection_for_update] took it, [warm]
    after [projection] stored what it answered. *)
Definition with_cache (g : FactGraph) (cache : option (Z * Projection)) : FactGraph :=
  mkFactGraph (facts g) (admission_order g) (indexes g) (quarantine g) (retained_by_author g) (admitted_fact_count g)
    (admitted_bytes g) (derived_index_bytes g) (admitted_dependency_edges g) (generation g)
    (defer_projection_commitment g) cache (context_id g) (authority_roots g) (policy g) (policy_limits g).
Definition with_projection (g : FactGraph) (p : Projection) : FactGraph := with_cache g (Some (generation g, p)).
Definition uncached (g : FactGraph) : FactGraph := with_cache g None.
Definition warm (g : FactGraph) : FactGraph := with_projection g (projection g).

(** The signer check reads the projection, which leaves it in the cache. *)
Definition admit_quarantined (g : FactGraph) (f : SignedFact) (cost : FactCost) (retained_reserved : bool)
    : result SemanticError (FactGraph * Admission) :=
  let author := fc_author (sf_content f) in
  let q := quarantine g in
  if negb (is_authorized_signer g author) then Err QuarantineSignerNotEligible
  else
    reserve_quarantine g f cost retained_reserved ≫= λ _,
    let missing := btree_set b32_cmp (missing cost) in
    let q' := mkQuarantine (<[sf_id f := f]> (quarantined q)) (<[sf_id f := missing]> (quarantine_missing q))
                (foldl (λ w d, index_insert w (sf_id f) d) (waiting_by_dependency q) missing)
                (ready_quarantine q) (quarantined_bytes q + encoded_bytes cost)
                (quarantined_dependency_edges q + dependency_edges cost)
                (retain_usage (quarantined_by_author q) author (encoded_bytes cost)) in
    Ok (with_quarantine (warm g) q'
          (if retained_reserved then retained_by_author g
           else retain_usage (retained_by_author g) author (encoded_bytes cost)),
        Quarantined missing).

Definition wake_waiter (dependency : FactId) (q : gmap FactId (list FactId) * list FactId) (waiter : FactId)
    : gmap FactId (list FactId) * list FactId :=
  match q.1 !! waiter with
  | None => q
  | Some missing =>
      let missing := filter (λ d, d ≠ dependency) missing in
      (<[waiter := missing]> q.1, match missing with [] => set_insert b32_cmp waiter q.2 | _ => q.2 end)
  end.

Definition wake_dependency (q : Quarantine) (dependency : FactId) : Quarantine :=
  match waiting_by_dependency q !! dependency with
  | None => q
  | Some waiters =>
      let '(missing, ready) := foldl (wake_waiter dependency) (quarantine_missing q, ready_quarantine q) waiters in
      mkQuarantine (quarantined q) missing (delete dependency (waiting_by_dependency q)) ready
        (quarantined_bytes q) (quarantined_dependency_edges q) (quarantined_by_author q)
  end.

(** The graph with the fact recorded and indexed; projection and wake-up follow. *)
Definition inserted_graph (g : FactGraph) (f : SignedFact) (cost : FactCost) (provenance : AuthorityProvenance)
    (index_bytes : Z) : FactGraph :=
  let m := <[sf_id f := f]> (facts g) in
  let ix := set_provenance (indexes g) (provenance ∪ authority_provenance (indexes g)) in
  mkFactGraph m (admission_order g ++ [sf_id f]) (index_fact m ix (sf_id f)) (quarantine g) (retained_by_author g)
    (admitted_fact_count g + 1) (admitted_bytes g + encoded_bytes cost) index_bytes
    (admitted_dependency_edges g + dependency_edges cost) (generation g + 1) (defer_projection_commitment g)
    None (context_id g) (authority_roots g) (policy g) (policy_limits g).

Definition updated_projection (g : FactGraph) (previous : Projection) (f : SignedFact) : Projection :=
  let '(cells, targets) := projection_impact_for_fact g f in
  if defer_projection_commitment g then update_from_graph_deferred_commitment g previous cells targets
  else update_from_graph g previous cells targets.

(** [previous] is the projection the caller took from the graph before. *)
Definition insert_fact (g : FactGraph) (f : SignedFact) (cost : FactCost) (retained_reserved : bool)
    (previous : Projection) : result SemanticError FactGraph :=
  let limit := max_database_bytes (policy_limits g) in
  let author := fc_author (sf_content f) in
  delta ← exact_index_residency_delta g f;
  provenance ← planned_provenance g f;
  reserve_admitted g f cost retained_reserved ≫= λ _,
  index_bytes ← apply_index_residency_delta limit (derived_index_bytes g) delta;
  let g1 := inserted_graph g f cost provenance index_bytes in
  let p := updated_projection g1 previous f in
  resident ← ok_or (accounting_error limit)
    (a ← checked_add u64_max (admitted_bytes g1) index_bytes; checked_add u64_max a (commitment_bytes p));
  check_capacity AdmittedBytes resident limit ≫= λ _,
  let g2 := with_projection g1 p in
  Ok (with_quarantine g2 (wake_dependency (quarantine g2) (sf_id f))
        (if retained_reserved then retained_by_author g2
         else retain_usage (retained_by_author g2) author (encoded_bytes cost))).

(** [admit_inner_with_projection]: [validated] is the cost of a preceding preflight and
    [supplied] the projection taken by the caller, if any. *)
Definition admit_inner (g : FactGraph) (f : SignedFact) (retained_reserved : bool) (validated : option FactCost)
    (supplied : option Projection) : result SemanticError (FactGraph * Admission) :=
  checked ← match validated with Some cost => Ok (Some cost) | None => precheck g f end;
  match checked with
  | None => Ok (g, AlreadyPresent)
  | Some cost =>
      match missing cost with
      | [] =>
          causal ← (if current_heads_are_complete g f then Ok g else causal_past g f);
          validate_candidate causal f ≫= λ _,
          g' ← insert_fact g f cost retained_reserved (default (projection g) supplied);
          Ok (g', Inserted)
      | _ =>
          match validated with
          | Some _ => admit_quarantined g f cost retained_reserved
          | None => if is_authorized_signer g (fc_author (sf_content f))
                    then admit_quarantined g f cost retained_reserved
                    else Err QuarantineSignerNotEligible
          end
      end
  end.

Definition admit_fact (g : FactGraph) (f : SignedFact) : result SemanticError (FactGraph * Admission) :=
  admit_inner g f false None None.

(** ** Preflight *)
Definition preflight_admission (g : FactGraph) (f : SignedFact) : result SemanticError (Admission * option FactCost) :=
  checked ← precheck g f;
  match checked with
  | None => Ok (AlreadyPresent, None)
  | Some cost =>
      match missing cost with
      | [] => reserve_admitted g f cost false ≫= λ _, Ok (Inserted, Some cost)
      | missing =>
          if negb (is_authorized_signer g (fc_author (sf_content f))) then Err QuarantineSignerNotEligible
          else reserve_quarantine g f cost false ≫= λ _, Ok (Quarantined missing, Some cost)
      end
  end.

(** ** Retrying waiters *)
Definition remove_waiter (id : FactId) (waiting : gmap FactId (list FactId)) (dependency : FactId)
    : gmap FactId (list FactId) :=
  match waiting !! dependency with
  | None => waiting
  | Some waiters =>
      match filter (λ w, w ≠ id) waiters with
      | [] => delete dependency waiting
      | waiters => <[dependency := waiters]> waiting
      end
  end.

Definition remove_ready (q : Quarantine) (id : FactId) : Quarantine :=
  mkQuarantine (quarantined q) (quarantine_missing q) (waiting_by_dependency q)
    (filter (λ w, w ≠ id) (ready_quarantine q)) (quarantined_bytes q) (quarantined_dependency_edges q)
    (quarantined_by_author q).

Definition remove_quarantine (g : FactGraph) (id : FactId) : result SemanticError (FactGraph * option SignedFact) :=
  let q := remove_ready (quarantine g) id in
  match quarantined q !! id with
  | None => Ok (with_quarantine g q (retained_by_author g), None)
  | Some f =>
      cost ← fact_cost g f;
      let q' := mkQuarantine (delete id (quarantined q)) (delete id (quarantine_missing q))
                  (foldl (remove_waiter id) (waiting_by_dependency q) (default [] (quarantine_missing q !! id)))
                  (ready_quarantine q) (quarantined_bytes q - encoded_bytes cost)
                  (quarantined_dependency_edges q - dependency_edges cost)
                  (release_usage (quarantined_by_author q) (fc_author (sf_content f)) (encoded_bytes cost)) in
      Ok (with_quarantine g q' (retained_by_author g), Some f)
  end.

Definition is_terminal_authorization_waiter (g : FactGraph) (f : SignedFact) (error : SemanticError) : bool :=
  dependencies_present (facts g) f
  && match error with
     | UnauthorizedRoleGrant | UnauthorizedMembershipAdmit | UnauthorizedAttestation | UnauthorizedEviction => true
     | _ => false
     end
  && match fc_body (sf_content f) with SelfStandDown _ _ => false | _ => true end.

Definition is_terminal_waiter_error (g : FactGraph) (f : SignedFact) (error : SemanticError) : bool :=
  match error with
  | UnsupportedVersion _ | EmptyField _ | DomainMismatch | UnsortedParents | DuplicateParent | AuthorMismatch
  | NonCanonicalSet _ | IncompleteEvictionProof | FactIdMismatch | InvalidSignature | InvalidStandDownProof
  | InvalidAuthorityUse => true
  | _ => is_terminal_authorization_waiter g f error
  end.

Definition release_author (g : FactGraph) (author : Device) (cost : FactCost) : FactGraph :=
  with_quarantine g (quarantine g) (release_usage (retained_by_author g) author (encoded_bytes cost)).

(** One waiter: the new graph, and whether its identity is reported as touched. *)
Definition retry_waiter (g : FactGraph) (id : FactId) : result SemanticError (FactGraph * bool) :=
  removed ← remove_quarantine g id;
  match removed with
  | (g1, None) => Ok (g1, false)
  | (g1, Some f) =>
      cost ← fact_cost g1 f;
      match admit_inner g1 f true None None with
      | Ok (g2, _) => Ok (g2, true)
      | Err error =>
          if is_terminal_waiter_error g1 f error then Ok (release_author g1 (fc_author (sf_content f)) cost, true)
          else Err error
      end
  end.

Fixpoint retry_waiters (g : FactGraph) (touched ids : list FactId) : result SemanticError (FactGraph * list FactId) :=
  match ids with
  | [] => Ok (g, touched)
  | id :: ids =>
      retry_waiter g id ≫= λ step : FactGraph * bool,
      retry_waiters step.1 (if step.2 then touched ++ [id] else touched) ids
  end.

(** [retry_quarantined_batch_bounded]: rounds over the ready waiters not yet
    processed, [budget] of [batch_limit] attempts used; a round attempts at least
    one waiter, so [batch_limit - budget + 1] rounds suffice. *)
Fixpoint retry_rounds (rounds : nat) (batch_limit budget : nat) (g : FactGraph) (processed : gset FactId)
    (touched : list FactId) : result SemanticError (FactGraph * list FactId) :=
  let fresh := filter (λ id, id ∉ processed) (ready_quarantine (quarantine g)) in
  match take (batch_limit - budget) fresh with
  | [] =>
      match fresh with
      | [] => Ok (g, touched)
      | _ => Err (CapacityExceeded ReadyBatch (Z.of_nat batch_limit) (Z.of_nat budget + 1))
      end
  | ready =>
      match rounds with
      | O => Err EncodingFailed
      | S rounds =>
          step ← retry_waiters g touched ready;
          retry_rounds rounds batch_limit (budget + length ready) step.1 (list_to_set ready ∪ processed) step.2
      end
  end.

(** ** Journaled admission *)
Inductive SemanticFactStatus : Type := StatusAdmitted | StatusQuarantined.
Record SemanticDelta : Type := mkSemanticDelta {
  rows : list (SignedFact * SemanticFactStatus);
  promoted : list FactId;
  removed_ids : list FactId;
  provisional_added : list FactId;
  provisional_removed : list FactId;
  affected : gset ExclusiveCell * gset Device;
  projection_delta : option ProjectionDelta;
}.
Definition empty_delta : SemanticDelta := mkSemanticDelta [] [] [] [] [] (∅, ∅) None.

Definition status_row (g : FactGraph) (id : FactId) : list (SignedFact * SemanticFactStatus) :=
  match facts g !! id, quarantined (quarantine g) !! id with
  | Some f, _ => [(f, StatusAdmitted)]
  | None, Some f => [(f, StatusQuarantined)]
  | None, None => []
  end.

(** The rows of the candidate, then of each touched waiter in order. *)
Definition delta_waiter (g : FactGraph) (d : SemanticDelta) (id : FactId) : SemanticDelta :=
  match facts g !! id with
  | Some f => mkSemanticDelta (rows d ++ [(f, StatusAdmitted)]) (promoted d ++ [id]) (removed_ids d)
                (provisional_added d) (provisional_removed d ++ [id]) (affected d) (projection_delta d)
  | None => mkSemanticDelta (rows d) (promoted d) (removed_ids d ++ [id]) (provisional_added d)
              (provisional_removed d ++ [id]) (affected d) (projection_delta d)
  end.

Definition delta_of_rows (g : FactGraph) (id : FactId) (admission : Admission) (touched : list FactId) : SemanticDelta :=
  foldl (delta_waiter g)
    (mkSemanticDelta (match admission with AlreadyPresent => [] | _ => status_row g id end) [] []
       (match admission with Quarantined _ => [id] | _ => [] end) [] (∅, ∅) None) touched.

Definition admitted_rows (d : SemanticDelta) : list SignedFact :=
  omap (λ r : SignedFact * SemanticFactStatus, match r.2 with StatusAdmitted => Some r.1 | StatusQuarantined => None end)
    (rows d).

(** The waiters a retry can reach from the seeds through the index by dependency. *)
Definition waiter_closure (g : FactGraph) (seeds : list FactId) : gset FactId :=
  let waiting := waiting_by_dependency (quarantine g) in
  let next id := default [] (waiting !! id) in
  default ∅ (closure next (walk_fuel next waiting seeds) seeds ∅).

Definition projection_impact_for_facts (g : FactGraph) (fs : list SignedFact) : impact :=
  foldr (λ f acc, join_impact (projection_impact_for_fact g f) acc) (∅, ∅) fs.

(** What the admission can change, planned before it: the impact of the fact and
    of every waiter of the closure. *)
Definition potential_impact (g : FactGraph) (f : SignedFact) : impact :=
  let ids := sorted_ids (waiter_closure g (ready_quarantine (quarantine g) ++ [sf_id f])) in
  projection_impact_for_facts g (f :: omap (λ id, quarantined (quarantine g) !! id) ids).

(** The rows, with the entries they affect and the projection change between the
    graph before ([g0]) and after. *)
Definition journal_delta (g0 g : FactGraph) (f : SignedFact) (admission : Admission) (touched : list FactId)
    : SemanticDelta :=
  let d := delta_of_rows g (sf_id f) admission touched in
  let potential := potential_impact g0 f in
  let previous := sparse_entries (projection g0) potential.1 potential.2 in
  mkSemanticDelta (rows d) (promoted d) (removed_ids d) (provisional_added d) (provisional_removed d)
    (projection_impact_for_facts g (admitted_rows d))
    (match admitted_rows d with
     | [] => None
     | _ => Some (delta_from_sparse (projection g) (generation g0) (generation g) (commitment_root_of (projection g0))
                    previous.1 previous.2)
     end).

Definition unique (ids : list FactId) : bool := bool_decide (NoDup ids).

Definition is_bounded_and_unique (d : SemanticDelta) (max_batch : nat) : bool :=
  unique ((λ r, sf_id r.1) <$> rows d) && unique (promoted d) && unique (removed_ids d) && unique (provisional_added d)
  && unique (provisional_removed d) && (length (rows d) <=? S max_batch)%nat && (length (promoted d) <=? max_batch)%nat
  && (length (removed_ids d) <=? max_batch)%nat.

(** [admit_journaled]: preflight, apply, retry the woken waiters, bound the delta.  The
    apply phase takes the cached projection first, so the candidate is judged
    against a projection rebuilt from the graph. *)
Definition admit_journaled (g : FactGraph) (f : SignedFact)
    : result SemanticError (FactGraph * Admission * SemanticDelta) :=
  let limit := max_ready_batch (policy_limits g) in
  let batch_limit := Z.to_nat limit in
  preflight ← preflight_admission g f;
  match preflight.2 with
  | None => Ok (g, AlreadyPresent, empty_delta)
  | Some cost =>
      step ← admit_inner (uncached g) f false (Some cost) (Some (projection g));
      let '(g1, admission) := step in
      retried ← match admission with
                | Inserted =>
                    if (batch_limit =? 0)%nat then Err (CapacityExceeded ReadyBatch 0 1)
                    else retry_rounds (S batch_limit) batch_limit 0 g1 ∅ []
                | _ => Ok (g1, [])
                end;
      let d := journal_delta g retried.1 f admission retried.2 in
      if is_bounded_and_unique d batch_limit then Ok (retried.1, admission, d)
      else Err (CapacityExceeded ReadyBatch limit (Z.of_nat (length (rows d))))
  end.
End admission.
