(* ===== verification/GraphIndex.v ===== *)
(** * The derived indexes are exact

    An index of heads lists the maximal facts of its key, in identity order; the
    other indexes list exactly the facts they are keyed by.  Insertion of a fact
    whose dependencies are present keeps them so. *)

From S2P Require Import Prelude Ranking Bytes Identity Content Merkle Ancestry Projection FactGraph.
Local Open Scope nat_scope.

(** ** Closed sets of facts *)
Definition closed (m : FactMap) : Prop :=
  ∀ id f, m !! id = Some f → sf_id f = id ∧ ∀ d, d ∈ dependencies f → is_Some (m !! d).

Lemma elem_of_concat {A B} (h : A → list B) l x : x ∈ concat (h <$> l) ↔ ∃ a, a ∈ l ∧ x ∈ h a.
Proof.
  induction l as [|a l IH]; cbn.
  - split; [by intros ?%elem_of_nil|]. by intros (? & ?%elem_of_nil & _).
  - rewrite elem_of_app, IH. split.
    + intros [Hx|(b & Hb & Hx)]; [exists a; split; [by left|done]|exists b; split; [by right|done]].
    + intros (b & [->|Hb]%elem_of_cons & Hx); [by left|]. right. by exists b.
Qed.

Lemma elem_of_dependencies f x :
  x ∈ dependencies f ↔
  x ∈ fc_parents (sf_content f) ∨ (∃ u, u ∈ fc_authority_uses (sf_content f) ∧ x ∈ au_predecessors u) ∨
  x ∈ match fc_body (sf_content f) with
      | EvictionProof _ evidence | SelfStandDown _ evidence => evidence
      | Attestation _ proposal _ _ contributions => proposal :: contributions
      | Resolution _ cited _ | AuthorityLineageResolution _ cited _ => cited
      | _ => []
      end.
Proof.
  unfold dependencies, ids_sort_dedup. rewrite elem_of_sort_dedup by apply _. rewrite !elem_of_app.
  by rewrite elem_of_concat.
Qed.

Lemma parents_in_dependencies f x : x ∈ fc_parents (sf_content f) → x ∈ dependencies f.
Proof. intros Hx. apply elem_of_dependencies. by left. Qed.

Lemma closed_empty : closed ∅.
Proof. intros id f Hf. by rewrite lookup_empty in Hf. Qed.

Lemma closed_edge m x y : closed m → dep_edge m x y → is_Some (m !! x) ∧ is_Some (m !! y).
Proof.
  unfold edge, deps_of. intros Hm H. destruct (m !! x) as [f|] eqn:Hx; [|by apply elem_of_nil in H].
  split; [by eexists|]. by apply (Hm x f Hx).
Qed.

Lemma tc_first {A} (R : relation A) x z : tc R x z → ∃ y, R x y ∧ rtc R y z.
Proof. intros Ht. destruct Ht as [a b H|a b c H Ht]; [by exists b|]. exists b. split; [done|by apply tc_rtc]. Qed.

Lemma closed_tc m x y : closed m → tc (dep_edge m) x y → is_Some (m !! x) ∧ is_Some (m !! y).
Proof.
  intros Hm Ht. split.
  - apply tc_first in Ht as (z & Hz & _). by apply (closed_edge m x z).
  - apply tc_last in Ht as (z & _ & Hz). by apply (closed_edge m z y).
Qed.

Lemma parent_tc_dep m x y : tc (parent_edge m) x y → tc (dep_edge m) x y.
Proof.
  assert (H1 : ∀ x y, parent_edge m x y → dep_edge m x y).
  { unfold edge, parents_of, deps_of. intros a b. destruct (m !! a); [apply parents_in_dependencies|done]. }
  induction 1 as [a b H|a b c H _ IH]; [by apply tc_once, H1|by eapply tc_l; [apply H1|]].
Qed.

Section extend.
Context (m : FactMap) (f : SignedFact) (Hm : closed m) (Hnew : m !! sf_id f = None)
        (Hdeps : ∀ d, d ∈ dependencies f → is_Some (m !! d)).
Notation m' := (<[sf_id f := f]> m).

Lemma closed_insert : closed m'.
Proof.
  intros id h Hh. destruct (decide (id = sf_id f)) as [->|Hne].
  - rewrite lookup_insert_eq in Hh. injection Hh as <-. split; [done|]. intros d Hd.
    destruct (decide (d = sf_id f)) as [->|]; [by rewrite lookup_insert_eq|]. rewrite lookup_insert_ne by done. auto.
  - rewrite lookup_insert_ne in Hh by done. destruct (Hm id h Hh) as [Hid Hd]. split; [done|]. intros d Hin.
    destruct (decide (d = sf_id f)) as [->|]; [by rewrite lookup_insert_eq|]. rewrite lookup_insert_ne by done. auto.
Qed.

Lemma deps_of_new : deps_of m' (sf_id f) = dependencies f.
Proof. unfold deps_of. by rewrite lookup_insert_eq. Qed.
Lemma deps_of_old x : x ≠ sf_id f → deps_of m' x = deps_of m x.
Proof. intros Hx. unfold deps_of. by rewrite lookup_insert_ne. Qed.

(** Nothing depends on the new fact. *)
Lemma no_edge_to_new x : ¬ dep_edge m' x (sf_id f).
Proof.
  unfold edge. intros H. destruct (decide (x = sf_id f)) as [->|Hx].
  - rewrite deps_of_new in H. apply Hdeps in H as [? ?]. congruence.
  - rewrite deps_of_old in H by done. apply (closed_edge m) in H as [_ [? ?]]; [congruence|done].
Qed.

Lemma no_path_to_new x : ¬ tc (dep_edge m') x (sf_id f).
Proof. intros (y & _ & Hy)%tc_last. by eapply no_edge_to_new. Qed.

(** Paths between old facts are unchanged. *)
Lemma path_old x y : x ≠ sf_id f → tc (dep_edge m') x y ↔ tc (dep_edge m) x y.
Proof.
  intros Hx. split.
  - intros Ht. revert Hx. induction Ht as [a b H|a b c H _ IH]; intros Ha.
    + apply tc_once. unfold edge in *. by rewrite deps_of_old in H.
    + assert (Hb : b ≠ sf_id f). { intros ->. by eapply no_edge_to_new. }
      eapply tc_l; [|by apply IH]. unfold edge in *. by rewrite deps_of_old in H.
  - intros Ht. revert Hx. induction Ht as [a b H|a b c H _ IH]; intros Ha.
    + apply tc_once. unfold edge in *. by rewrite deps_of_old.
    + assert (Hb : b ≠ sf_id f). { intros ->. apply (closed_edge m) in H as [_ [? ?]]; [congruence|done]. }
      eapply tc_l; [|by apply IH]. unfold edge in *. by rewrite deps_of_old.
Qed.

Lemma path_new y : tc (dep_edge m') (sf_id f) y ↔ ∃ d, d ∈ dependencies f ∧ rtc (dep_edge m') d y.
Proof.
  split.
  - intros Ht. apply tc_first in Ht as (d & H & Hr). exists d. unfold edge in H. by rewrite deps_of_new in H.
  - intros (d & Hd & Hr). eapply tc_rtc_r; [apply tc_once|exact Hr]. unfold edge. by rewrite deps_of_new.
Qed.

(** *** Maximal facts of a kind *)
Definition of_kind (n : FactMap) (P : SignedFact → bool) (id : FactId) : Prop := ∃ h, n !! id = Some h ∧ P h = true.
Definition is_maximal (n : FactMap) (P : SignedFact → bool) (id : FactId) : Prop :=
  of_kind n P id ∧ ∀ id', of_kind n P id' → ¬ tc (dep_edge n) id' id.

Lemma of_kind_insert P id : of_kind m' P id ↔ (id = sf_id f ∧ P f = true) ∨ of_kind m P id.
Proof.
  unfold of_kind. destruct (decide (id = sf_id f)) as [->|Hne].
  - rewrite lookup_insert_eq. split; [intros (h & [= <-] & HP); by left|].
    intros [[_ HP]|(h & Hh & _)]; [by exists f|congruence].
  - rewrite lookup_insert_ne by done. split; [by right|]. by intros [[? _]|?].
Qed.

Lemma of_kind_old P id : of_kind m P id → id ≠ sf_id f.
Proof. intros (h & Hh & _) ->. congruence. Qed.

Lemma dominated_by_new id : signed_head_is_dominated m' (dependencies f) id = true ↔ tc (dep_edge m') (sf_id f) id.
Proof. by rewrite dominated_spec, path_new. Qed.

(** [insert_maximal_head] computes the maximal facts after the insertion. *)
Lemma maximal_insert P l :
  P f = true → increasing b32_cmp l → (∀ id, id ∈ l ↔ is_maximal m P id) →
  increasing b32_cmp (insert_maximal_head m' l (sf_id f)) ∧
  ∀ id, id ∈ insert_maximal_head m' l (sf_id f) ↔ is_maximal m' P id.
Proof.
  intros HP Hinc Hl. unfold insert_maximal_head. rewrite lookup_insert_eq. split.
  { apply set_insert_increasing; [apply _|]. by apply increasing_filter. }
  intros id. rewrite elem_of_set_insert, list_elem_of_filter, Hl by apply _.
  assert (Hdom : signed_head_is_dominated m' (dependencies f) id = false ↔ ¬ tc (dep_edge m') (sf_id f) id).
  { rewrite <- dominated_by_new. by destruct (signed_head_is_dominated _ _ _). }
  rewrite Hdom. unfold is_maximal. setoid_rewrite of_kind_insert. split.
  - intros [->|(Hnd & Hk & Hmax)].
    + split; [by left|]. intros id' _. apply no_path_to_new.
    + split; [by right|]. intros id' [[-> _]|Hk']; [done|]. rewrite path_old by by eapply of_kind_old. by apply Hmax.
  - intros [[[-> _]|Hk] Hmax]; [by left|]. right. split_and!; [apply Hmax; by left|done|].
    intros id' Hk'. rewrite <- path_old by by eapply of_kind_old. apply Hmax. by right.
Qed.

Lemma maximal_insert_other P id : P f = false → is_maximal m' P id ↔ is_maximal m P id.
Proof.
  intros HP. unfold is_maximal. setoid_rewrite of_kind_insert. rewrite HP. split.
  - intros [[[_ ?]|Hk] Hmax]; [done|]. split; [done|]. intros id' Hk'.
    rewrite <- path_old by by eapply of_kind_old. apply Hmax. by right.
  - intros [Hk Hmax]. split; [by right|]. intros id' [[_ ?]|Hk']; [done|].
    rewrite path_old by by eapply of_kind_old. by apply Hmax.
Qed.
End extend.

(** ** Exact indexes *)
Section keyed.
Context {K : Type} `{Countable K} (kind : K → SignedFact → bool).

(** A row per key that has a fact; a row lists the maximal facts, or all facts. *)
Definition heads_exact (m : FactMap) (ix : gmap K (list FactId)) : Prop :=
  ∀ k, match ix !! k with
       | Some l => (∃ id, of_kind m (kind k) id) ∧ increasing b32_cmp l ∧ ∀ id, id ∈ l ↔ is_maximal m (kind k) id
       | None => ∀ id, ¬ of_kind m (kind k) id
       end.
Definition members_exact (m : FactMap) (ix : gmap K (list FactId)) : Prop :=
  ∀ k, match ix !! k with
       | Some l => (∃ id, of_kind m (kind k) id) ∧ increasing b32_cmp l ∧ ∀ id, id ∈ l ↔ of_kind m (kind k) id
       | None => ∀ id, ¬ of_kind m (kind k) id
       end.

Lemma heads_exact_unique m ix ix' : heads_exact m ix → heads_exact m ix' → ix = ix'.
Proof.
  intros H1 H2. apply map_eq. intros k. specialize (H1 k). specialize (H2 k).
  destruct (ix !! k) as [l|], (ix' !! k) as [l'|]; [|naive_solver..]. f_equal.
  apply (increasing_unique b32_cmp); [naive_solver..|]. intros id. destruct H1 as (_ & _ & ->). destruct H2 as (_ & _ & ->). done.
Qed.

Lemma members_exact_unique m ix ix' : members_exact m ix → members_exact m ix' → ix = ix'.
Proof.
  intros H1 H2. apply map_eq. intros k. specialize (H1 k). specialize (H2 k).
  destruct (ix !! k) as [l|], (ix' !! k) as [l'|]; [|naive_solver..]. f_equal.
  apply (increasing_unique b32_cmp); [naive_solver..|]. intros id. destruct H1 as (_ & _ & ->). destruct H2 as (_ & _ & ->). done.
Qed.

(** Updating the rows of distinct keys. *)
Lemma lookup_foldl_rows {V} (h : list V → list V) (ix : gmap K (list V)) l k :
  NoDup l →
  foldl (λ a k, <[k := h (default [] (a !! k))]> a) ix l !! k =
  if decide (k ∈ l) then Some (h (default [] (ix !! k))) else ix !! k.
Proof.
  intros Hnd. revert ix. induction Hnd as [|x l Hx Hnd IH]; intros ix; [done|]. cbn [foldl]. rewrite IH.
  destruct (decide (k = x)) as [->|Hk].
  - rewrite decide_False by done. rewrite lookup_insert_eq. by rewrite decide_True by left.
  - rewrite lookup_insert_ne by done. destruct (decide (k ∈ l)); [by rewrite decide_True by by right|].
    rewrite decide_False; [done|]. by intros [?|?]%elem_of_cons.
Qed.

Context (m : FactMap) (f : SignedFact) (Hm : closed m) (Hnew : m !! sf_id f = None)
        (Hdeps : ∀ d, d ∈ dependencies f → is_Some (m !! d)).
Notation m' := (<[sf_id f := f]> m).
Context (keys : list K) (Hkeys : NoDup keys) (Hkind : ∀ k, k ∈ keys ↔ kind k f = true).

Lemma empty_maximal k : (∀ id, ¬ of_kind m (kind k) id) → ∀ id, id ∈ ([] : list FactId) ↔ is_maximal m (kind k) id.
Proof. intros Hn id. split; [by intros ?%elem_of_nil|]. intros [Hk _]. by apply Hn in Hk. Qed.

Lemma heads_exact_insert ix :
  heads_exact m ix → heads_exact m' (foldl (advance_heads m' (sf_id f)) ix keys).
Proof.
  intros Hix k. unfold advance_heads. rewrite (lookup_foldl_rows (λ l, insert_maximal_head m' l (sf_id f))) by done.
  specialize (Hix k). destruct (decide (k ∈ keys)) as [Hin|Hin]; rewrite Hkind in Hin.
  - split. { exists (sf_id f). apply of_kind_insert; [done|]. by left. }
    apply maximal_insert; try done.
    + destruct (ix !! k) as [l|]; [apply Hix|constructor].
    + destruct (ix !! k) as [l|]; [apply Hix|by apply empty_maximal].
  - apply not_true_is_false in Hin. destruct (ix !! k) as [l|].
    + destruct Hix as (Hex & Hinc & Hl). split_and!; [|done|].
      * destruct Hex as [id Hid]. exists id. apply of_kind_insert; [done|]. by right.
      * intros id. rewrite Hl. symmetry. by apply maximal_insert_other.
    + intros id [[_ ?]|Hk]%of_kind_insert; [congruence|by eapply Hix|done].
Qed.

Lemma members_exact_insert ix :
  members_exact m ix → members_exact m' (foldl (λ a k, index_insert a (sf_id f) k) ix keys).
Proof.
  intros Hix k. unfold index_insert. rewrite (lookup_foldl_rows (λ l, set_insert b32_cmp (sf_id f) l)) by done.
  specialize (Hix k). destruct (decide (k ∈ keys)) as [Hin|Hin]; rewrite Hkind in Hin.
  - split_and!.
    + exists (sf_id f). apply of_kind_insert; [done|]. by left.
    + apply set_insert_increasing; [apply _|]. destruct (ix !! k); [apply Hix|constructor].
    + intros id. rewrite elem_of_set_insert, of_kind_insert by (done || apply _).
      destruct (ix !! k) as [l|]; cbn.
      * destruct Hix as (_ & _ & ->). naive_solver.
      * rewrite elem_of_nil. specialize (Hix id). naive_solver.
  - apply not_true_is_false in Hin. destruct (ix !! k) as [l|].
    + destruct Hix as (Hex & Hinc & Hl). split_and!; [|done|].
      * destruct Hex as [id Hid]. exists id. apply of_kind_insert; [done|]. by right.
      * intros id. rewrite Hl, of_kind_insert by done. rewrite Hin. naive_solver.
    + intros id [[_ ?]|Hk]%of_kind_insert; [congruence|by eapply Hix|done].
Qed.
End keyed.

Section indexes.
Context {crypto : Crypto} {laws : CryptoLaws}.

(** What each index is keyed by. *)
Definition cell_kind (c : ExclusiveCell) (f : SignedFact) : bool := bool_decide (c ∈ exclusive_cells (fc_body (sf_content f))).
Definition lineage_kind (s : Device) (f : SignedFact) : bool :=
  bool_decide (s ∈ authority_use_subjects (fc_body (sf_content f)) (fc_author (sf_content f)))
  && negb (is_payload_local_resolution (fc_body (sf_content f)) (fc_author (sf_content f)) s).
Definition authority_kind (s : Device) (f : SignedFact) : bool := bool_decide (s ∈ indexed_authority_subjects f).
Definition stand_down_kind (t : Device) (f : SignedFact) : bool :=
  bool_decide (stand_down_target (fc_body (sf_content f)) = Some t).
Definition selector_row (m : FactMap) (s : Device) (p : FactId * FactId) : Prop :=
  ∃ f cited, m !! p.1 = Some f ∧ fc_body (sf_content f) = AuthorityLineageResolution s cited p.2.

Record head_indexes_exact (m : FactMap) (ix : Indexes) : Prop := {
  exact_cell_heads : heads_exact cell_kind m (cell_heads_index ix);
  exact_authority_heads : heads_exact lineage_kind m (authority_heads_index ix);
}.

Record metadata_exact (m : FactMap) (ix : Indexes) : Prop := {
  exact_authority_facts : members_exact authority_kind m (authority_facts_index ix);
  exact_stand_down : members_exact stand_down_kind m (stand_down_index ix);
  exact_cells : ∀ c, c ∈ cells_index ix ↔ ∃ id, of_kind m (cell_kind c) id;
  exact_selectors : ∀ s, match authority_selector_index ix !! s with
                         | Some l => l ≠ [] ∧ increasing selector_cmp l ∧ ∀ p, p ∈ l ↔ selector_row m s p
                         | None => ∀ p, ¬ selector_row m s p
                         end;
}.

Record indexes_exact (m : FactMap) (ix : Indexes) : Prop := {
  exact_metadata :> metadata_exact m ix;
  exact_heads :> head_indexes_exact m ix;
}.

Lemma empty_indexes_exact : indexes_exact ∅ empty_indexes.
Proof.
  assert (Hn : ∀ P id, ¬ of_kind ∅ P id). { intros P id (h & Hh & _). by rewrite lookup_empty in Hh. }
  split; split; try (intros k; cbn; rewrite lookup_empty; intros id; apply Hn).
  - intros c. split; [by intros ?%elem_of_empty|]. intros [id Hid]. by apply Hn in Hid.
  - intros s. cbn. rewrite lookup_empty. intros p (h & cited & Hh & _). by rewrite lookup_empty in Hh.
Qed.

Lemma cell_keys f c : c ∈ body_cells (fc_body (sf_content f)) ↔ cell_kind c f = true.
Proof. unfold body_cells, cell_kind. by rewrite (elem_of_btree_set cell_cmp), bool_decide_eq_true. Qed.

Lemma lineage_keys f s :
  s ∈ filter (λ s, is_payload_local_resolution (fc_body (sf_content f)) (fc_author (sf_content f)) s = false)
        (authority_use_subjects (fc_body (sf_content f)) (fc_author (sf_content f))) ↔ lineage_kind s f = true.
Proof.
  rewrite list_elem_of_filter. unfold lineage_kind. rewrite andb_true_iff, bool_decide_eq_true, negb_true_iff. tauto.
Qed.

Lemma body_cells_NoDup b : NoDup (body_cells b).
Proof. by apply (increasing_NoDup cell_cmp), btree_set_increasing, _. Qed.
Lemma indexed_subjects_NoDup f : NoDup (indexed_authority_subjects f).
Proof. by apply (increasing_NoDup device_spelling_cmp), btree_set_increasing, _. Qed.
Lemma use_subjects_NoDup b a : NoDup (authority_use_subjects b a).
Proof. by apply (increasing_NoDup device_spelling_cmp), sort_dedup_increasing, _. Qed.

#[export] Instance selector_cmp_spec : CmpSpec selector_cmp.
Proof. apply pair_cmp_spec; apply _. Qed.

Section insert.
Context (m : FactMap) (f : SignedFact) (Hm : closed m) (Hnew : m !! sf_id f = None)
        (Hdeps : ∀ d, d ∈ dependencies f → is_Some (m !! d)).
Notation m' := (<[sf_id f := f]> m).

Lemma selector_row_insert s p :
  selector_row m' s p ↔
  (p.1 = sf_id f ∧ ∃ cited, fc_body (sf_content f) = AuthorityLineageResolution s cited p.2) ∨ selector_row m s p.
Proof.
  unfold selector_row. destruct (decide (p.1 = sf_id f)) as [->|Hne].
  - rewrite lookup_insert_eq. split.
    + intros (h & cited & [= <-] & Hb). left. split; [done|]. by exists cited.
    + intros [[_ [cited Hb]]|(h & cited & Hh & _)]; [by exists f, cited|congruence].
  - rewrite lookup_insert_ne by done. split; [by right|]. by intros [[? _]|?].
Qed.

Lemma selectors_insert ix :
  metadata_exact m ix →
  let ix' := index_fact_metadata m' ix (sf_id f) in
  ∀ s, match authority_selector_index ix' !! s with
       | Some l => l ≠ [] ∧ increasing selector_cmp l ∧ ∀ p, p ∈ l ↔ selector_row m' s p
       | None => ∀ p, ¬ selector_row m' s p
       end.
Proof.
  intros Hix. pose proof (exact_selectors _ _ Hix) as Hs. cbn zeta. unfold index_fact_metadata.
  rewrite lookup_insert_eq. cbn [authority_selector_index]. intros s. specialize (Hs s).
  assert (Hkeep : (∀ cited h, fc_body (sf_content f) ≠ AuthorityLineageResolution s cited h) →
    match authority_selector_index ix !! s with
    | Some l => l ≠ [] ∧ increasing selector_cmp l ∧ ∀ p, p ∈ l ↔ selector_row m' s p
    | None => ∀ p, ¬ selector_row m' s p
    end).
  { intros Hb. destruct (authority_selector_index ix !! s) as [l|].
    - destruct Hs as (Hne & Hinc & Hl). split_and!; [done..|]. intros p. rewrite Hl, selector_row_insert.
      split; [by right|]. intros [[_ [c Hc]]|?]; [by apply Hb in Hc|done].
    - intros p. rewrite selector_row_insert. intros [[_ [c Hc]]|?]; [by apply Hb in Hc|by eapply Hs]. }
  destruct (fc_body (sf_content f)) as [| | | | | | | |subject cited h] eqn:Hb; try by apply Hkeep.
  destruct (decide (s = subject)) as [->|Hne].
  - rewrite lookup_insert_eq. split_and!.
    + intros Hnil. assert (Hin : (sf_id f, h) ∈ set_insert selector_cmp (sf_id f, h) (default [] (authority_selector_index ix !! subject))).
      { apply elem_of_set_insert; [apply _|]. by left. } rewrite Hnil in Hin. by apply elem_of_nil in Hin.
    + apply set_insert_increasing; [apply _|]. destruct (authority_selector_index ix !! subject); [apply Hs|constructor].
    + intros p. rewrite elem_of_set_insert, selector_row_insert by apply _. rewrite Hb. destruct p as [i j]. cbn [fst snd].
      assert (Hold : (i, j) ∈ default [] (authority_selector_index ix !! subject) ↔ selector_row m subject (i, j)).
      { destruct (authority_selector_index ix !! subject); [apply Hs|]. split; [by intros ?%elem_of_nil|].
        intros Hr. by apply Hs in Hr. }
      rewrite Hold. split.
      * intros [[= -> ->]|?]; [left; split; [done|by exists cited]|by right].
      * intros [[-> [c [= _ ->]]]|?]; [by left|by right].
  - rewrite lookup_insert_ne by done. apply Hkeep. intros c k [= -> _ _]. done.
Qed.

Lemma index_metadata_exact ix : metadata_exact m ix → metadata_exact m' (index_fact_metadata m' ix (sf_id f)).
Proof.
  intros Hix. pose proof (selectors_insert ix Hix) as Hsel. cbn zeta in Hsel. unfold index_fact_metadata in *.
  rewrite lookup_insert_eq in *. split; [..|exact Hsel].
  - cbn [authority_facts_index]. apply members_exact_insert; [done|apply indexed_subjects_NoDup| |apply Hix].
    intros k. unfold authority_kind. by rewrite bool_decide_eq_true.
  - cbn [stand_down_index].
    pose proof (members_exact_insert stand_down_kind m f Hnew (option_list (stand_down_target (fc_body (sf_content f))))) as Hins.
    destruct (stand_down_target (fc_body (sf_content f))) as [t|] eqn:Ht; cbn [option_list foldl] in Hins.
    + apply Hins; [apply NoDup_singleton| |apply Hix]. intros k. unfold stand_down_kind. rewrite bool_decide_eq_true, Ht. cbn. rewrite list_elem_of_singleton.
      split; [by intros ->|by intros [= ->]].
    + apply Hins; [apply NoDup_nil_2| |apply Hix]. intros k. unfold stand_down_kind. rewrite bool_decide_eq_true, Ht. cbn. by rewrite elem_of_nil.
  - cbn [cells_index]. intros c. rewrite elem_of_union, elem_of_list_to_set, cell_keys, (exact_cells _ _ Hix). setoid_rewrite (of_kind_insert m f Hnew).
    split; [intros [Hc|[id Hid]]; [exists (sf_id f); by left|exists id; by right]|].
    intros [id [[_ Hc]|Hid]]; [by left|right; by exists id].
Qed.

Lemma index_heads_exact ix : head_indexes_exact m ix → head_indexes_exact m' (index_fact_heads m' ix (sf_id f)).
Proof.
  intros Hix. unfold index_fact_heads. rewrite lookup_insert_eq. split.
  - apply heads_exact_insert; [done..|apply body_cells_NoDup|apply cell_keys|apply Hix].
  - apply heads_exact_insert; [done..|apply NoDup_filter, use_subjects_NoDup|intros k; apply (lineage_keys f k)|apply Hix].
Qed.

Lemma index_fact_exact ix p :
  indexes_exact m ix → indexes_exact m' (index_fact m' (set_provenance ix p) (sf_id f)).
Proof.
  intros [Hm' Hh]. unfold index_fact. rewrite lookup_insert_eq. split.
  - assert (Hmeta : metadata_exact m' (index_fact_metadata m' (set_provenance ix p) (sf_id f))) by (apply index_metadata_exact; by destruct Hm').
    unfold index_fact_heads. rewrite lookup_insert_eq. by destruct Hmeta.
  - apply index_heads_exact. unfold index_fact_metadata. rewrite lookup_insert_eq. by destruct Hh.
Qed.
End insert.

(** Exact indexes are determined by the facts. *)
Lemma indexes_exact_unique m ix ix' :
  indexes_exact m ix → indexes_exact m ix' →
  cell_heads_index ix = cell_heads_index ix' ∧ authority_heads_index ix = authority_heads_index ix' ∧
  authority_facts_index ix = authority_facts_index ix' ∧ stand_down_index ix = stand_down_index ix' ∧
  cells_index ix = cells_index ix' ∧ authority_selector_index ix = authority_selector_index ix'.
Proof.
  intros [[H3 H4 H5 H6] [H1 H2]] [[H3' H4' H5' H6'] [H1' H2']]. split_and!.
  - by eapply heads_exact_unique.
  - by eapply heads_exact_unique.
  - by eapply members_exact_unique.
  - by eapply members_exact_unique.
  - apply set_eq. intros c. by rewrite H5, H5'.
  - apply map_eq. intros s. specialize (H6 s). specialize (H6' s).
    destruct (authority_selector_index ix !! s) as [l|], (authority_selector_index ix' !! s) as [l'|]; [f_equal| | |done].
    + apply (increasing_unique selector_cmp); [naive_solver..|]. intros q. destruct H6 as (_ & _ & ->). by destruct H6' as (_ & _ & ->).
    + destruct H6 as (Hne & _ & Hl). destruct l as [|q l]; [done|]. exfalso. apply (H6' q), Hl. by left.
    + destruct H6' as (Hne & _ & Hl). destruct l' as [|q l']; [done|]. exfalso. apply (H6 q), Hl. by left.
Qed.
End indexes.
