(* ===== verification/GraphProvenance.v ===== *)
(** * Selector provenance is exact ancestry

    The sparse rows of [authority_provenance] are maintained from the rows of a
    fact's parents; this file shows that they always state the true ancestry
    between facts, typed selectors and the heads those select. *)

From S2P Require Import Prelude Ranking Bytes Identity Content Merkle Ancestry Projection FactGraph Residency.
From S2P Require Import GraphIndex.
Local Open Scope nat_scope.

(** ** The walks that refuse missing rows *)
Lemma closure_known look fuel pending seen :
  (∀ start x, start ∈ pending → rtc (edge (λ i, default [] (look i))) start x → is_Some (look x)) →
  closure_or_missing look fuel pending seen =
  Ok <$> closure (λ i, default [] (look i)) fuel pending seen.
Proof.
  revert pending seen. induction fuel as [|fuel IH]; intros [|id rest] seen Hk; cbn [closure_or_missing closure]; try done.
  destruct (decide (id ∈ seen)). { apply IH. intros st x Hst. apply Hk. by right. }
  destruct (look id) as [next|] eqn:Hl.
  - change (default [] (Some next)) with next. apply IH. intros st x [Hst|Hst]%elem_of_app Hr.
    + apply (Hk id); [by left|]. eapply rtc_l; [|exact Hr]. unfold edge. rewrite Hl. by rewrite elem_of_reverse in Hst.
    + by apply (Hk st); [right|].
  - destruct (Hk id id) as [? ?]; [by left|done|congruence].
Qed.

Lemma run_or_missing_known look m pending :
  (∀ id, m !! id = None → default [] (look id) = []) →
  (∀ start x, start ∈ pending → rtc (edge (λ i, default [] (look i))) start x → is_Some (look x)) →
  ∃ s, run_or_missing look m pending = Ok s ∧
    ∀ x, x ∈ s ↔ ∃ start, start ∈ pending ∧ rtc (edge (λ i, default [] (look i))) start x.
Proof.
  intros Hn Hk. unfold run_or_missing. rewrite closure_known by done.
  destruct (closure_spec _ m Hn pending) as (s & -> & Hs). by exists s.
Qed.

Section extend.
Context (m : FactMap) (f : SignedFact) (Hm : closed m) (Hnew : m !! sf_id f = None)
        (Hdeps : ∀ d, d ∈ dependencies f → is_Some (m !! d)).
Notation m' := (<[sf_id f := f]> m).
Notation parents := (fc_parents (sf_content f)).

Lemma parents_of_new : parents_of m' (sf_id f) = parents.
Proof. unfold parents_of. by rewrite lookup_insert_eq. Qed.
Lemma parents_of_old x : x ≠ sf_id f → parents_of m' x = parents_of m x.
Proof. intros Hx. unfold parents_of. by rewrite lookup_insert_ne. Qed.

Lemma ancestor_new x : ¬ tc (parent_edge m') x (sf_id f).
Proof. intros Ht%parent_tc_dep. by eapply no_path_to_new. Qed.

Lemma ancestor_old x y : x ≠ sf_id f → tc (parent_edge m') x y ↔ tc (parent_edge m) x y.
Proof.
  intros Hx. split; intros Ht; revert Hx; induction Ht as [a b H|a b c H Ht IH]; intros Ha.
  - apply tc_once. unfold edge in *. by rewrite parents_of_old in H.
  - assert (Hb : b ≠ sf_id f). { intros ->. by apply (ancestor_new a), tc_once. }
    eapply tc_l; [|by apply IH]. unfold edge in *. by rewrite parents_of_old in H.
  - apply tc_once. unfold edge in *. by rewrite parents_of_old.
  - assert (Hb : b ≠ sf_id f). { intros ->. apply (ancestor_new a), tc_once. unfold edge in *. by rewrite parents_of_old. }
    eapply tc_l; [|by apply IH]. unfold edge in *. by rewrite parents_of_old.
Qed.

Lemma parent_present p : p ∈ parents → is_Some (m !! p) ∧ p ≠ sf_id f.
Proof.
  intros Hp%parents_in_dependencies%Hdeps. split; [done|]. intros ->. destruct Hp as [? ?]. congruence.
Qed.

Lemma is_ancestor_old x y : y ≠ sf_id f → is_ancestor m' x y = is_ancestor m x y.
Proof. intros Hy. apply Bool.eq_iff_eq_true. rewrite !is_ancestor_spec. by apply ancestor_old. Qed.

Lemma is_ancestor_of_new x : is_ancestor m' (sf_id f) x = false.
Proof. apply not_true_is_false. rewrite is_ancestor_spec. apply ancestor_new. Qed.

Lemma is_ancestor_to_new x :
  is_ancestor m' x (sf_id f) = existsb (λ p, bool_decide (p = x) || is_ancestor m x p) parents.
Proof.
  apply Bool.eq_iff_eq_true. rewrite is_ancestor_spec, existsb_exists. split.
  - intros (p & Hp & Hr)%tc_first. unfold edge in Hp. rewrite parents_of_new in Hp.
    exists p. split; [by apply list_elem_of_In|]. apply rtc_tc in Hr as [->|Ht]; [by rewrite bool_decide_true|].
    rewrite orb_true_iff, is_ancestor_spec. right. apply ancestor_old; [by apply parent_present|done].
  - intros (p & Hp%list_elem_of_In & Hx). eapply tc_rtc_r; [apply tc_once|].
    + unfold edge. rewrite parents_of_new. exact Hp.
    + apply orb_true_iff in Hx as [->%bool_decide_eq_true|Hx%is_ancestor_spec]; [done|].
      apply tc_rtc. apply ancestor_old; [by apply parent_present|done].
Qed.

Lemma closed_ancestor x y : is_Some (m' !! x) → rtc (parent_edge m') x y → is_Some (m' !! y).
Proof.
  intros Hx [<-|Ht]%rtc_tc; [done|]. apply parent_tc_dep in Ht.
  by apply (closed_tc m') in Ht as [_ ?]; [|apply closed_insert].
Qed.

(** [complete_ancestors] over the facts and the candidate. *)
Lemma complete_ancestors_spec id :
  is_Some (m' !! id) →
  ∃ s, complete_ancestors m id f = Ok s ∧ ∀ x, x ∈ s ↔ x ≠ id ∧ is_ancestor m' x id = true.
Proof.
  intros Hid. unfold complete_ancestors.
  set (look := λ i : FactId, fc_parents ∘ sf_content <$> m' !! i).
  assert (Hlook : ∀ i, default [] (look i) = parents_of m' i).
  { intros i. unfold look, parents_of. by destruct (m' !! i). }
  assert (Hedge : ∀ x y, rtc (edge (λ i, default [] (look i))) x y ↔ rtc (parent_edge m') x y).
  { intros x y. split; (induction 1 as [a|a b c H _ IH]; [done|eapply rtc_l; [|exact IH]]);
      unfold edge in *; by rewrite Hlook in *. }
  destruct (run_or_missing_known look m' [id]) as (s & Hs & Hx).
  - intros i Hi. rewrite Hlook. by apply parents_of_None.
  - intros st x ->%list_elem_of_singleton Hr%Hedge. unfold look. rewrite fmap_is_Some. by eapply closed_ancestor.
  - rewrite Hs. eexists. split; [done|]. intros x. rewrite elem_of_difference, elem_of_singleton, Hx, is_ancestor_spec. split.
    + intros [(st & ->%list_elem_of_singleton & Hr%Hedge) Hne]. split; [done|]. by apply rtc_tc in Hr as [?|?].
    + intros [Hne Ht]. split; [|done]. exists id. split; [by apply list_elem_of_singleton|]. by apply Hedge, tc_rtc.
Qed.
End extend.

(** ** The relation of a fact to a selector *)
Definition any_relation (r : AuthoritySelectorRelation) : bool := post_selector r || selected_before r || before_selected r.

Definition selected_of (m : FactMap) (s : FactId) : option FactId :=
  match fc_body ∘ sf_content <$> m !! s with
  | Some (AuthorityLineageResolution _ _ h) => Some h
  | _ => None
  end.

Definition ancestry_relation (m : FactMap) (id s h : FactId) : AuthoritySelectorRelation :=
  mkRelation h (bool_decide (id = s) || is_ancestor m s id) (bool_decide (id = h) || is_ancestor m h id)
    (bool_decide (id = h) || is_ancestor m id h).

(** The row entry of fact [id] for selector [s], from signed ancestry alone. *)
Definition relation_spec (m : FactMap) (id s : FactId) : option AuthoritySelectorRelation :=
  match m !! id, selected_of m s with
  | Some _, Some h => let r := ancestry_relation m id s h in if any_relation r then Some r else None
  | _, _ => None
  end.

Definition row_of (p : AuthorityProvenance) (id : FactId) : AuthorityProvenanceRow := default ∅ (p !! id).

Record provenance_exact (m : FactMap) (p : AuthorityProvenance) : Prop := {
  exact_rows : ∀ id s, row_of p id !! s = relation_spec m id s;
  exact_nonempty : ∀ id row, p !! id = Some row → row ≠ ∅;
}.

(** Selectors select a head they depend on. *)
Definition selectors_known (m : FactMap) : Prop := ∀ s h, selected_of m s = Some h → is_Some (m !! h).

Lemma empty_provenance_exact : provenance_exact ∅ ∅.
Proof.
  split; [|by intros id row ?%lookup_empty_Some]. intros id s. unfold row_of, relation_spec.
  by rewrite !lookup_empty.
Qed.

Lemma provenance_exact_unique m p p' : provenance_exact m p → provenance_exact m p' → p = p'.
Proof.
  intros [H1 N1] [H2 N2]. apply map_eq. intros id.
  assert (Hrow : row_of p id = row_of p' id). { apply map_eq. intros s. by rewrite H1, H2. }
  unfold row_of in Hrow. specialize (N1 id). specialize (N2 id).
  destruct (p !! id) as [r|], (p' !! id) as [r'|]; cbn in Hrow; [by rewrite Hrow| | |done].
  - exfalso. by apply (N1 r).
  - exfalso. by apply (N2 r').
Qed.

(** *** Rows inherited from the parents *)
Lemma inherit_other row s r s' : s ≠ s' → inherit_relation row (s, r) !! s' = row !! s'.
Proof. intros Hne. unfold inherit_relation. destruct (_ || _); [by rewrite lookup_insert_ne|done]. Qed.

Lemma inherit_rows_notin rows row s : s ∉ rows.*1 → foldl inherit_relation row rows !! s = row !! s.
Proof.
  revert row. induction rows as [|[x r] rows IH]; intros row Hs; [done|]. cbn [foldl].
  rewrite IH by set_solver. apply inherit_other. set_solver.
Qed.

Definition merge_relation (prior : option AuthoritySelectorRelation) (r : option AuthoritySelectorRelation)
    : option AuthoritySelectorRelation :=
  match r with
  | Some r =>
      if post_selector r || selected_before r then
        let q := default (mkRelation (rel_selected r) false false false) prior in
        Some (mkRelation (rel_selected q) (post_selector q || post_selector r)
                (selected_before q || selected_before r) (before_selected q))
      else prior
  | None => prior
  end.

Lemma inherit_rows row (pr : AuthorityProvenanceRow) s :
  foldl inherit_relation row (sorted_rows b32_cmp pr) !! s = merge_relation (row !! s) (pr !! s).
Proof.
  assert (Hgen : ∀ rows row r, NoDup rows.*1 → (s, r) ∈ rows →
    foldl inherit_relation row rows !! s = merge_relation (row !! s) (Some r)).
  { induction rows as [|[x q] rows IH]; intros row0 r Hnd Hin; [by apply elem_of_nil in Hin|].
    cbn [foldl fmap list_fmap fst] in *. apply NoDup_cons in Hnd as [Hx Hnd].
    apply elem_of_cons in Hin as [[= <- <-]|Hin].
    - rewrite inherit_rows_notin by done. unfold inherit_relation, merge_relation.
      destruct (_ || _); [by rewrite lookup_insert_eq|done].
    - rewrite (IH _ r) by done. f_equal. apply inherit_other. intros ->. apply Hx.
      apply list_elem_of_fmap. by exists (s, r). }
  destruct (pr !! s) as [r|] eqn:Hr.
  - apply Hgen; [rewrite keys_sorted_rows by apply _; apply sorted_set_NoDup, _|]. by apply elem_of_sorted_rows; [apply _|].
  - rewrite inherit_rows_notin; [done|]. rewrite keys_sorted_rows, elem_of_sorted_set by apply _. by apply not_elem_of_dom.
Qed.

Definition row_post (r : option AuthoritySelectorRelation) : bool := match r with Some r => post_selector r | None => false end.
Definition row_selected_before (r : option AuthoritySelectorRelation) : bool :=
  match r with Some r => selected_before r | None => false end.

(** All entries of one selector name the same selected head. *)
Lemma inherit_parents (look : FactId → AuthorityProvenanceRow) parents row s h :
  (∀ p r, p ∈ parents → look p !! s = Some r → rel_selected r = h) →
  (∀ r, row !! s = Some r → rel_selected r = h ∧ before_selected r = false ∧ (post_selector r || selected_before r) = true) →
  let po := row_post (row !! s) || existsb (λ p, row_post (look p !! s)) parents in
  let sb := row_selected_before (row !! s) || existsb (λ p, row_selected_before (look p !! s)) parents in
  foldl (λ row p, foldl inherit_relation row (sorted_rows b32_cmp (look p))) row parents !! s =
  if po || sb then Some (mkRelation h po sb false) else None.
Proof.
  revert row. induction parents as [|p ps IH]; intros row Hl Hrow; cbn [foldl existsb].
  - cbn. rewrite !orb_false_r. destruct (row !! s) as [[h0 a b c]|] eqn:Hr; [|done].
    destruct (Hrow _ eq_refl) as (Hh & Hb & Hany). cbn in *. by rewrite Hany, Hh, Hb.
  - rewrite IH; clear IH.
    + rewrite inherit_rows. specialize (Hl p). destruct (look p !! s) as [[h1 a1 b1 c1]|] eqn:Hp; cbn [merge_relation row_post row_selected_before post_selector selected_before].
      * destruct (row !! s) as [[h0 a0 b0 c0]|] eqn:Hr, a1, b1;
          cbn; rewrite ?orb_true_r, ?orb_false_r, ?orb_assoc; reflexivity.
      * reflexivity.
    + intros q r Hq. apply Hl. by right.
    + intros r. rewrite inherit_rows. specialize (Hl p). destruct (look p !! s) as [[h1 a1 b1 c1]|] eqn:Hp; [|apply Hrow].
      cbn [merge_relation post_selector selected_before]. destruct (a1 || b1) eqn:Hab; [|apply Hrow].
      assert (Hh1 : h1 = h) by (apply (Hl (mkRelation h1 a1 b1 c1)); [by left|done]).
      intros [= <-]. destruct (row !! s) as [[h0 a0 b0 c0]|] eqn:Hr; cbn.
      * destruct (Hrow _ eq_refl) as (Hh & Hb & Hany). cbn in *. split_and!; [done..|].
        destruct a0, b0; cbn in *; rewrite ?orb_true_r; done.
      * done.
Qed.

(** *** Rows planned for a new selector *)
Lemma bind_Ok_inv {E A B} (r : result E A) (h : A → result E B) b : r ≫= h = Ok b → ∃ a, r = Ok a ∧ h a = Ok b.
Proof. destruct r as [a|e]; [|done]. by exists a. Qed.

Lemma bind_ext_r {E A B} (r : result E A) (h k : A → result E B) : (∀ a, h a = k a) → r ≫= h = r ≫= k.
Proof. intros Hk. by destruct r; [apply Hk|]. Qed.

(** Split a successful sequence of calls into its steps. *)
Ltac inv_ok :=
  repeat match goal with
  | H : _ ≫= _ = Ok _ |- _ => apply bind_Ok_inv in H as (? & ? & H)
  | H : Ok _ = Ok _ |- _ => injection H as H
  end.

Section plan.
Context {layout : Layout} (g : FactGraph) (f : SignedFact).
Notation stored := (authority_provenance (indexes g)).

Definition prior_row (changes : AuthorityProvenance) (id : FactId) : AuthorityProvenanceRow :=
  default ∅ (match changes !! id with Some row => Some row | None => stored !! id end).

Lemma plan_relation_inv selector selected ancestors acc id acc' r :
  relation_to (facts g) f selector selected ancestors id = Ok r →
  plan_relation g f selector selected ancestors acc id = Ok acc' →
  acc'.1 = if any_relation r then <[id := <[selector := r]> (prior_row acc.1 id)]> acc.1 else acc.1.
Proof.
  destruct acc as [changes planned]. unfold plan_relation. intros Hr H. rewrite Hr in H. cbn [mbind result_bind fst] in *.
  unfold any_relation. destruct (post_selector r || selected_before r || before_selected r); [|by injection H as <-].
  inv_ok. by subst acc'.
Qed.

Lemma plan_relations_inv selector selected ancestors (rel : FactId → AuthoritySelectorRelation) ids acc acc' id :
  NoDup ids → (∀ i, i ∈ ids → relation_to (facts g) f selector selected ancestors i = Ok (rel i)) →
  plan_relations g f selector selected ancestors acc ids = Ok acc' →
  acc'.1 !! id = if decide (id ∈ ids ∧ any_relation (rel id) = true)
                 then Some (<[selector := rel id]> (prior_row acc.1 id)) else acc.1 !! id.
Proof.
  intros Hnd. revert acc. induction Hnd as [|x l Hx Hnd IH]; intros acc Hrel H; cbn [plan_relations] in H.
  { injection H as <-. rewrite decide_False; [done|]. by intros [?%elem_of_nil _]. }
  apply bind_Ok_inv in H as (acc1 & H1 & H). pose proof (plan_relation_inv _ _ _ _ _ _ (rel x) (Hrel x ltac:(by left)) H1) as Hacc.
  rewrite (IH acc1) by (try done; intros i Hi; apply Hrel; by right). clear IH.
  destruct (decide (id = x)) as [->|Hne].
  - rewrite decide_False by (by intros [? _]). rewrite Hacc. destruct (any_relation (rel x)) eqn:Ha.
    + rewrite lookup_insert_eq. rewrite decide_True; [done|]. split; [by left|done].
    + rewrite decide_False; [done|]. by intros [_ ?].
  - assert (Hsame : acc1.1 !! id = acc.1 !! id). { rewrite Hacc. destruct (any_relation (rel x)); [by rewrite lookup_insert_ne|done]. }
    unfold prior_row. rewrite Hsame. destruct (decide (id ∈ l ∧ any_relation (rel id) = true)) as [[Hl Ha]|Hn].
    + rewrite decide_True; [done|]. split; [by right|done].
    + rewrite decide_False; [done|]. intros [[->|Hl]%elem_of_cons Ha]; [done|]. by apply Hn.
Qed.

Lemma planned_provenance_inv changes :
  (∀ d, d ∈ dependencies f → is_Some (facts g !! d)) → planned_provenance g f = Ok changes →
  let row := inherited_row g f in
  let inherited : AuthorityProvenance := if decide (row = ∅) then ∅ else {[sf_id f := row]} in
  match fc_body (sf_content f) with
  | AuthorityLineageResolution _ _ selected =>
      ∃ ancestors planned planned', complete_ancestors (facts g) selected f = Ok ancestors ∧
        plan_relations g f (sf_id f) selected ancestors (inherited, planned)
          (sorted_ids ({[sf_id f]} ∪ dom (facts g))) = Ok (changes, planned')
  | _ => changes = inherited
  end.
Proof.
  intros Hdeps H. unfold planned_provenance in H.
  assert (Hp : dependencies_present (facts g) f = true).
  { unfold dependencies_present. apply forallb_forall. intros d Hd%list_elem_of_In. by apply bool_decide_eq_true, Hdeps. }
  rewrite Hp in H. cbn [negb] in H. apply bind_Ok_inv in H as ([inh n] & Hi & H).
  apply bind_Ok_inv in H as ([ch n'] & Hpl & H). apply bind_Ok_inv in H as (_ & _ & H). cbn in H. injection H as <-.
  assert (Hinh : inh = if decide (inherited_row g f = ∅) then ∅ else {[sf_id f := inherited_row g f]}).
  { destruct (decide _); [by injection Hi as <-|]. inv_ok. congruence. }
  cbn zeta. rewrite <- Hinh. destruct (fc_body (sf_content f)); try by injection Hpl as -> _.
  apply bind_Ok_inv in Hpl as (anc & Ha & Hpl). by exists anc, n, n'.
Qed.
End plan.

Lemma existsb_ext_in {A} (a b : A → bool) l : (∀ x, x ∈ l → a x = b x) → existsb a l = existsb b l.
Proof.
  induction l as [|x l IH]; intros H; [done|]. cbn. rewrite H by (by left). f_equal. apply IH. intros y Hy. apply H. by right.
Qed.

Lemma orb_decide_ext (P : Prop) `{Decision P} a b : (¬ P → a = b) → bool_decide P || a = bool_decide P || b.
Proof. destruct (decide P); [by rewrite bool_decide_true|]. intros ->; done. Qed.

(** ** The planned rows are the exact rows of the extended graph *)
Section exact.
Context {layout : Layout} (g : FactGraph) (f : SignedFact).
Notation m := (facts g).
Notation m' := (<[sf_id f := f]> m).
Notation stored := (authority_provenance (indexes g)).
Hypothesis Hnew : m !! sf_id f = None.
Hypothesis Hclosed : closed m.
Hypothesis Hdeps : ∀ d, d ∈ dependencies f → is_Some (m !! d).
Hypothesis Hexact : provenance_exact m stored.
Hypothesis Hknown : selectors_known m.

Lemma selected_of_old s : s ≠ sf_id f → selected_of m' s = selected_of m s.
Proof. intros Hs. unfold selected_of. by rewrite lookup_insert_ne. Qed.

Lemma selected_of_new_None : selected_of m (sf_id f) = None.
Proof. unfold selected_of. by rewrite Hnew. Qed.

Lemma relation_spec_old id s : id ≠ sf_id f → s ≠ sf_id f → relation_spec m' id s = relation_spec m id s.
Proof.
  intros Hid Hs. unfold relation_spec. rewrite lookup_insert_ne, selected_of_old by done.
  destruct (m !! id); [|done]. destruct (selected_of m s) as [h|] eqn:Hh; [|done].
  assert (h ≠ sf_id f). { intros ->. apply Hknown in Hh as [? ?]. congruence. }
  unfold ancestry_relation. by rewrite !is_ancestor_old.
Qed.

Lemma new_row_empty : stored !! sf_id f = None.
Proof.
  destruct (stored !! sf_id f) as [row|] eqn:Hr; [|done]. exfalso. apply (exact_nonempty _ _ Hexact _ _ Hr).
  apply map_empty. intros s. pose proof (exact_rows _ _ Hexact (sf_id f) s) as He. unfold row_of in He.
  rewrite Hr in He. cbn in He. rewrite He. unfold relation_spec. by rewrite Hnew.
Qed.

Lemma stored_relation p s : provenance_row g p !! s = relation_spec m p s.
Proof. apply (exact_rows _ _ Hexact). Qed.

Lemma inherited_row_exact s :
  inherited_row g f !! s = if decide (s = sf_id f) then None else relation_spec m' (sf_id f) s.
Proof.
  unfold inherited_row. assert (Hempty : provenance_row g (sf_id f) = ∅).
  { unfold provenance_row. by rewrite new_row_empty. }
  rewrite Hempty. destruct (selected_of m s) as [h|] eqn:Hh.
  - assert (Hs : s ≠ sf_id f). { intros ->. by rewrite selected_of_new_None in Hh. }
    assert (h ≠ sf_id f). { intros ->. apply Hknown in Hh as [? ?]. congruence. }
    rewrite decide_False by done. rewrite (inherit_parents _ _ _ _ h).
    + rewrite lookup_empty. cbn [row_post row_selected_before orb]. unfold relation_spec.
      rewrite lookup_insert_eq, selected_of_old, Hh by done. unfold ancestry_relation, any_relation.
      rewrite !(is_ancestor_to_new m f Hclosed Hnew Hdeps), (is_ancestor_of_new m f Hclosed Hnew Hdeps).
      rewrite !(bool_decide_false (sf_id f = _)) by done. cbn [orb post_selector selected_before before_selected].
      rewrite !orb_false_r.
      assert (Hp : ∀ p, p ∈ fc_parents (sf_content f) →
        row_post (provenance_row g p !! s) = bool_decide (p = s) || is_ancestor m s p ∧
        row_selected_before (provenance_row g p !! s) = bool_decide (p = h) || is_ancestor m h p).
      { intros p Hp. destruct (parent_present m f Hnew Hdeps p Hp) as [[q Hq] _]. rewrite stored_relation. unfold relation_spec. rewrite Hq, Hh.
        unfold any_relation, ancestry_relation. cbn. destruct (_ || _ || _) eqn:Ha; [done|]. cbn.
        apply orb_false_iff in Ha as [[-> ->]%orb_false_iff _]. done. }
      rewrite (existsb_ext_in _ _ _ (λ p Hp', proj1 (Hp p Hp'))), (existsb_ext_in _ _ _ (λ p Hp', proj2 (Hp p Hp'))). done.
    + intros p r _. rewrite stored_relation. unfold relation_spec. destruct (m !! p); [|done]. rewrite Hh. cbn.
      destruct (any_relation _); [|done]. by intros [= <-].
    + intros r. by rewrite lookup_empty.
  - rewrite (inherit_parents _ _ _ _ s).
    + rewrite lookup_empty. cbn [row_post row_selected_before orb].
      assert (He : ∀ a : option AuthoritySelectorRelation → bool, a None = false →
        existsb (λ p, a (provenance_row g p !! s)) (fc_parents (sf_content f)) = false).
      { intros a Ha. apply not_true_is_false. intros (p & _ & Hp)%existsb_exists. rewrite stored_relation in Hp.
        unfold relation_spec in Hp. rewrite Hh in Hp. destruct (m !! p); congruence. }
      rewrite !He by done. cbn. destruct (decide _); [done|]. unfold relation_spec.
      rewrite selected_of_old, Hh by done. by destruct (m' !! _).
    + intros p r _. rewrite stored_relation. unfold relation_spec. rewrite Hh. by destruct (m !! p).
    + intros r. by rewrite lookup_empty.
Qed.

Notation row := (inherited_row g f).
Notation inherited := (if decide (row = ∅) then ∅ else {[sf_id f := row]} : AuthorityProvenance).

Lemma inherited_base id s :
  row_of (inherited ∪ stored) id !! s = if decide (s = sf_id f) then None else relation_spec m' id s.
Proof.
  assert (Hbase : row_of (inherited ∪ stored) id = if decide (id = sf_id f) then row else row_of stored id).
  { unfold row_of. destruct (decide (id = sf_id f)) as [->|Hid]; destruct (decide (row = ∅)) as [Hr|Hr].
    - by rewrite map_empty_union, new_row_empty, Hr.
    - by erewrite lookup_union_Some_l by apply lookup_singleton_eq.
    - by rewrite map_empty_union.
    - by rewrite lookup_union_r by by apply lookup_singleton_ne. }
  rewrite Hbase. destruct (decide (id = sf_id f)) as [->|Hid]; [apply inherited_row_exact|].
  rewrite (exact_rows _ _ Hexact). destruct (decide (s = sf_id f)) as [->|Hs]; [|by rewrite relation_spec_old].
  unfold relation_spec. rewrite selected_of_new_None. by destruct (m !! id).
Qed.

Lemma inherited_base_nonempty id r : (inherited ∪ stored) !! id = Some r → r ≠ ∅.
Proof.
  intros [H|[_ H]]%lookup_union_Some_raw; [|by eapply exact_nonempty].
  destruct (decide (row = ∅)); [by apply lookup_empty_Some in H|]. by apply lookup_singleton_Some in H as [_ <-].
Qed.

Lemma relation_to_exact h anc id :
  (∀ x, x ∈ anc ↔ x ≠ h ∧ is_ancestor m' x h = true) → is_Some (m' !! id) →
  relation_to m f (sf_id f) h anc id = Ok (ancestry_relation m' id (sf_id f) h).
Proof.
  intros Hanc Hid. unfold relation_to. destruct (complete_ancestors_spec m f Hclosed Hdeps id Hid) as (s & -> & Hs).
  cbn [mbind result_bind]. unfold ancestry_relation. do 2 f_equal.
  - apply orb_decide_ext. intros Hne. apply Bool.eq_iff_eq_true. rewrite bool_decide_eq_true, Hs. naive_solver.
  - apply orb_decide_ext. intros Hne. apply Bool.eq_iff_eq_true. rewrite bool_decide_eq_true, Hs. naive_solver.
  - apply orb_decide_ext. intros Hne. apply Bool.eq_iff_eq_true. rewrite bool_decide_eq_true, Hanc. naive_solver.
Qed.

Lemma planned_provenance_exact changes :
  (∀ d s h, fc_body (sf_content f) = AuthorityLineageResolution d s h → is_Some (m !! h)) →
  planned_provenance g f = Ok changes → provenance_exact m' (changes ∪ stored).
Proof.
  intros Hsel Hplan. pose proof (planned_provenance_inv g f changes Hdeps Hplan) as Hinv. cbn zeta in Hinv.
  destruct (selected_of m' (sf_id f)) as [h|] eqn:Hh; unfold selected_of in Hh; rewrite lookup_insert_eq in Hh; cbn in Hh.
  - destruct (fc_body (sf_content f)) as [| | | | | | | |d c h'] eqn:Hb; try done. injection Hh as ->.
    destruct Hinv as (anc & n & n' & Hanc & Hpl).
    assert (Hhm : is_Some (m' !! h)). { apply lookup_insert_is_Some'. right. by eapply Hsel. }
    destruct (complete_ancestors_spec m f Hclosed Hdeps h Hhm) as (anc' & Hanc' & Hx).
    rewrite Hanc' in Hanc. injection Hanc as ->.
    assert (Hids : ∀ i, i ∈ sorted_ids ({[sf_id f]} ∪ dom m) ↔ is_Some (m' !! i)).
    { intros i. rewrite elem_of_sorted_ids, lookup_insert_is_Some', elem_of_union, elem_of_singleton, elem_of_dom. naive_solver. }
    assert (Hl : ∀ id, changes !! id = _) by (intros id; refine (plan_relations_inv g f _ _ _
      (λ i, ancestry_relation m' i (sf_id f) h) _ _ _ id _ _ Hpl);
      [apply (increasing_NoDup b32_cmp), btree_set_increasing, _|intros i Hi%Hids; by apply relation_to_exact]).
    cbn [fst] in Hl.
    assert (Hrow : ∀ id, (changes ∪ stored) !! id = if decide (id ∈ sorted_ids ({[sf_id f]} ∪ dom m) ∧
        any_relation (ancestry_relation m' id (sf_id f) h) = true)
      then Some (<[sf_id f := ancestry_relation m' id (sf_id f) h]> (row_of (inherited ∪ stored) id))
      else (inherited ∪ stored) !! id).
    { intros id. rewrite lookup_union, Hl. destruct (decide (id ∈ _ ∧ _)) as [Hd|Hd].
      - transitivity (Some (<[sf_id f := ancestry_relation m' id (sf_id f) h]> (prior_row g inherited id))).
        { by destruct (stored !! id). }
        do 2 f_equal. unfold prior_row, row_of. rewrite lookup_union. by destruct (inherited !! id), (stored !! id).
      - by rewrite lookup_union. }
    split.
    + intros id s. unfold row_of at 1. rewrite Hrow. pose proof (inherited_base id s) as Hb'.
      destruct (decide (s = sf_id f)) as [->|Hs].
      * unfold relation_spec, selected_of. rewrite lookup_insert_eq. cbn. rewrite Hb. cbn.
        destruct (decide (id ∈ _ ∧ _)) as [[Hi Ha]|Hd].
        -- apply Hids in Hi as [q ->]. cbn. by rewrite lookup_insert_eq, Ha.
        -- unfold row_of in Hb'. rewrite Hb'. destruct (m' !! id) eqn:Hq; [|done]. destruct (any_relation _) eqn:Ha; [|done].
           exfalso. apply Hd. split; [|done]. apply Hids. by rewrite Hq.
      * destruct (decide (id ∈ _ ∧ _)); [|exact Hb']. cbn. by rewrite lookup_insert_ne.
    + intros id r. rewrite Hrow. destruct (decide (id ∈ _ ∧ _)); [|apply inherited_base_nonempty].
      intros [= <-]. apply insert_non_empty.
  - assert (Hch : changes = inherited) by (by destruct (fc_body (sf_content f))). rewrite Hch. split.
    + intros id s. rewrite inherited_base. destruct (decide (s = sf_id f)) as [->|]; [|done].
      unfold relation_spec, selected_of. rewrite lookup_insert_eq. cbn. destruct (m' !! id), (fc_body (sf_content f)); done.
    + intros id r. apply inherited_base_nonempty.
Qed.
End exact.
