(* ===== verification/GraphInv.v ===== *)
(** * Reachable causal graphs

    The state changes of admission as a step relation, that [admit_fact] and
    [admit_journaled] are sequences of such steps, and the invariant of the
    admitted facts and their indexes: in every reachable graph the facts are
    closed under dependencies, the admission order is a topological order of
    them, and every index is the one their signed ancestry determines. *)

From S2P Require Import Prelude Ranking Bytes Identity Content Merkle Ancestry Projection FactGraph Residency.
From S2P Require Import Evaluator Admission GraphIndex GraphProvenance.
Local Open Scope Z_scope.

Section reach.
Context {crypto : Crypto} {laws : CryptoLaws} {layout : Layout}.

(** ** Steps *)
(** What the checks before any change establish, whatever projection they read. *)
Record prechecked (g : FactGraph) (f : SignedFact) (cost : FactCost) : Prop := {
  pc_verified : verify_fact f = Ok ();
  pc_context : fc_context (sf_content f) = context_id g;
  pc_domain : validate_domain g = Ok ();
  pc_absent : facts g !! sf_id f = None;
  pc_not_waiting : quarantined (quarantine g) !! sf_id f = None;
  pc_cost : fact_cost g f = Ok cost;
}.

Lemma precheck_inv g f cost : precheck g f = Ok (Some cost) → prechecked g f cost.
Proof.
  unfold precheck. intros H. apply bind_Ok_inv in H as ([] & Hv & H).
  destruct (bool_decide (fc_context _ ≠ _)) eqn:Hc; [done|].
  apply bind_Ok_inv in H as ([] & Hd & H). destruct (facts g !! sf_id f) eqn:Hf; [by destruct (decide _)|].
  destruct (quarantined _ !! _) eqn:Hq; [by destruct (decide _)|]. destruct (bool_decide (_ ∈ _)); [done|].
  apply bind_Ok_inv in H as (c & Hcost & H).
  assert (c = cost). { destruct (missing c); [|by injection H]. apply bind_Ok_inv in H as ([n|] & _ & H); [done|].
    destruct (List.find _ _); [done|by injection H]. }
  subst c. apply bool_decide_eq_false, dec_stable in Hc. by split.
Qed.

(** The cost of a fact does not read the projection. *)
Lemma plan_relations_cache g cache f selector selected ancestors acc ids :
  plan_relations (with_cache g cache) f selector selected ancestors acc ids
  = plan_relations g f selector selected ancestors acc ids.
Proof.
  revert acc. induction ids as [|id ids IH]; intros acc; [done|]. cbn [plan_relations].
  apply (bind_ext_r (plan_relation g f selector selected ancestors acc id)), IH.
Qed.

Lemma planned_provenance_cache g cache f : planned_provenance (with_cache g cache) f = planned_provenance g f.
Proof.
  unfold planned_provenance. cbn [facts with_cache policy_limits].
  destruct (negb _); [done|]. apply bind_ext_r. intros inherited. f_equal.
  destruct (fc_body (sf_content f)); try done. apply bind_ext_r. intros. apply plan_relations_cache.
Qed.

Lemma provenance_delta_rows_cache limit g cache delta rows :
  provenance_delta_rows limit (with_cache g cache) delta rows = provenance_delta_rows limit g delta rows.
Proof.
  revert delta. induction rows as [|row rows IH]; intros delta; [done|]. cbn [provenance_delta_rows].
  apply (bind_ext_r (provenance_delta_row limit g row delta)), IH.
Qed.

Lemma fact_cost_cache g cache f : fact_cost (with_cache g cache) f = fact_cost g f.
Proof.
  assert (Hp : provenance_residency_delta (with_cache g cache) f = provenance_residency_delta g f).
  { unfold provenance_residency_delta. rewrite planned_provenance_cache. apply bind_ext_r. intros plan.
    apply provenance_delta_rows_cache. }
  assert (Hi : index_residency_delta (with_cache g cache) f = index_residency_delta g f).
  { unfold index_residency_delta. by rewrite Hp. }
  unfold fact_cost. by rewrite Hi.
Qed.

Lemma prechecked_cache g f cost cache : prechecked g f cost → prechecked (with_cache g cache) f cost.
Proof. intros []. split; [done..|by rewrite fact_cost_cache]. Qed.

(** The graph a candidate is judged in: the live one, or the live one after its cached
    projection was taken for the update. *)
Definition judging (g j : FactGraph) : Prop := j = g ∨ j = uncached g.

Inductive step (g : FactGraph) : FactGraph → Prop :=
| step_insert j f cost causal reserved g' :
    judging g j → prechecked j f cost → missing cost = [] →
    causal_past j f = Ok causal → validate_candidate causal f = Ok () →
    insert_fact j f cost reserved (projection g) = Ok g' → step g g'
| step_quarantine j f cost reserved g' admission :
    judging g j → prechecked j f cost → missing cost ≠ [] → admit_quarantined j f cost reserved = Ok (g', admission) →
    step g g'
| step_remove id g' removed : remove_quarantine g id = Ok (g', removed) → step g g'
| step_release author cost : step g (release_author g author cost)
| step_uncached : step g (uncached g)
| step_warm : step g (warm g).

Lemma admit_inner_step g j f reserved validated supplied g' a :
  judging g j → default (projection j) supplied = projection g → (∀ cost, validated = Some cost → prechecked j f cost) →
  admit_inner j f reserved validated supplied = Ok (g', a) → g' = j ∧ validated = None ∨ step g g'.
Proof.
  intros Hj Hs Hv H. unfold admit_inner in H. apply bind_Ok_inv in H as (checked & Hc & H). rewrite Hs in H.
  assert (Hpre : ∀ cost, checked = Some cost → prechecked j f cost).
  { intros cost ->. destruct validated as [c|]; [injection Hc as <-; by apply Hv|by apply precheck_inv]. }
  destruct checked as [cost|]; [|injection H as <- _; left; by destruct validated]. specialize (Hpre _ eq_refl). right.
  destruct (missing cost) eqn:Hm.
  - apply bind_Ok_inv in H as (causal & Hcausal & H). apply bind_Ok_inv in H as ([] & Hval & H).
    apply bind_Ok_inv in H as (g1 & Hins & H). injection H as <- _.
    eapply (step_insert g j f cost causal reserved); [done..| |done|done].
    unfold causal_past. unfold causal_past in Hcausal. by destruct (current_heads_are_complete j f).
  - eapply (step_quarantine g j f cost reserved); [done..|by rewrite Hm|].
    destruct validated; [exact H|]. by destruct (is_authorized_signer j _).
Qed.

Lemma admit_inner_live_step g f reserved g' a :
  admit_inner g f reserved None None = Ok (g', a) → g' = g ∨ step g g'.
Proof. intros [[-> _]|H]%(admit_inner_step g); [by left|by right|by left|done..]. Qed.

Lemma preflight_precheck g f a cost : preflight_admission g f = Ok (a, Some cost) → precheck g f = Ok (Some cost).
Proof.
  unfold preflight_admission. intros H. apply bind_Ok_inv in H as ([c|] & -> & H); [|done].
  destruct (missing c); [|destruct (negb _); [done|]]; inv_ok; congruence.
Qed.

Lemma retry_waiter_steps g id g' b : retry_waiter g id = Ok (g', b) → rtc step g g'.
Proof.
  unfold retry_waiter. intros H. apply bind_Ok_inv in H as ([g1 [f|]] & Hr & H).
  2:{ injection H as <- _. by eapply rtc_once, step_remove. }
  apply bind_Ok_inv in H as (cost & _ & H). eapply rtc_l; [by eapply step_remove|].
  destruct (admit_inner g1 f true None None) as [[g2 a]|e] eqn:Ha.
  - injection H as <- _. apply admit_inner_live_step in Ha as [->|Ha]; [done|by apply rtc_once].
  - destruct (is_terminal_waiter_error g1 f e); [|done]. injection H as <- _. apply rtc_once, step_release.
Qed.

Lemma retry_waiters_steps ids g touched g' touched' :
  retry_waiters g touched ids = Ok (g', touched') → rtc step g g'.
Proof.
  revert g touched. induction ids as [|id ids IH]; intros g touched H; cbn [retry_waiters] in H; [by injection H as <- _|].
  apply bind_Ok_inv in H as ([g1 b] & H1 & H). etrans; [by eapply retry_waiter_steps|by eapply IH].
Qed.

Lemma retry_rounds_steps rounds limit budget g processed touched g' touched' :
  retry_rounds rounds limit budget g processed touched = Ok (g', touched') → rtc step g g'.
Proof.
  revert budget g processed touched. induction rounds as [|rounds IH]; intros budget g processed touched H;
    cbn [retry_rounds] in H; destruct (take _ _) eqn:Ht; try done.
  1,2: destruct (filter _ _); [by injection H as <- _|done].
  apply bind_Ok_inv in H as ([g1 t1] & H1 & H). etrans; [by eapply retry_waiters_steps|by eapply IH].
Qed.

Lemma admit_steps g f g' a : admit_fact g f = Ok (g', a) → rtc step g g'.
Proof. unfold admit_fact. intros [->|H]%admit_inner_live_step; [done|by apply rtc_once]. Qed.

Lemma admit_journaled_steps g f g' a d : admit_journaled g f = Ok (g', a, d) → rtc step g g'.
Proof.
  unfold admit_journaled. intros H. apply bind_Ok_inv in H as ([pa [cost|]] & Hp & H); cbn [snd] in H; [|by injection H as <- _ _].
  apply preflight_precheck in Hp. apply bind_Ok_inv in H as ([g1 a1] & H1 & H).
  apply bind_Ok_inv in H as ([g2 t] & H2 & H). destruct (is_bounded_and_unique _ _); [|done]. injection H as <- _ _. cbn [fst].
  transitivity g1; [|destruct a1; try (by injection H2 as <- _);
    destruct (_ =? _)%nat; [done|by eapply retry_rounds_steps]].
  apply (admit_inner_step g) in H1 as [[_ ?]|H1]; [done|by apply rtc_once|by right|done|].
  intros c [= <-]. by apply prechecked_cache, precheck_inv.
Qed.

(** Graphs reachable from a bootstrap by the public operations.  A refused admission
    leaves the graph, or the graph with an empty projection cache; a read leaves the
    projection it answered in the cache. *)
Inductive reachable (context : MeshContextId) (roots : gset Device) (p : VerifiedProjectPolicy)
    (limits : SemanticAdmissionPolicy) : FactGraph → Prop :=
| reach_start : reachable context roots p limits (from_bootstrap context roots p limits)
| reach_admit g f g' a : reachable context roots p limits g → admit_fact g f = Ok (g', a) → reachable context roots p limits g'
| reach_journaled g f g' a d : reachable context roots p limits g → admit_journaled g f = Ok (g', a, d) →
    reachable context roots p limits g'
| reach_refused g f e : reachable context roots p limits g → (admit_fact g f = Err e ∨ admit_journaled g f = Err e) →
    reachable context roots p limits (uncached g)
| reach_read g : reachable context roots p limits g → reachable context roots p limits (warm g).

Lemma reachable_steps context roots p limits g :
  reachable context roots p limits g → rtc step (from_bootstrap context roots p limits) g.
Proof.
  induction 1 as [|g f g' a _ IH H|g f g' a d _ IH H|g f e _ IH _|g _ IH]; [done|..]; (etrans; [exact IH|]).
  - by eapply admit_steps.
  - by eapply admit_journaled_steps.
  - apply rtc_once, step_uncached.
  - apply rtc_once, step_warm.
Qed.

(** An invariant of steps that holds of the bootstrap graph holds of every reachable graph. *)
Lemma reachable_invariant (P : FactGraph → Prop) context roots p limits :
  P (from_bootstrap context roots p limits) → (∀ g g', step g g' → P g → P g') →
  ∀ g, reachable context roots p limits g → P g.
Proof. intros H0 Hstep g Hr%reachable_steps. induction Hr as [|x y z Hxy _ IH]; eauto. Qed.

(** ** Facts, order and indexes *)
Definition topological (m : FactMap) (order : list FactId) : Prop :=
  ∀ before id after d, order = before ++ id :: after → d ∈ deps_of m id → d ∈ before.

Lemma topological_snoc m f order :
  m !! sf_id f = None → (∀ d, d ∈ dependencies f → is_Some (m !! d)) → (∀ id, id ∈ order ↔ is_Some (m !! id)) →
  topological m order → topological (<[sf_id f := f]> m) (order ++ [sf_id f]).
Proof.
  intros Hnew Hdeps Hord Htop before id after d He Hd.
  destruct after as [|x after _] using rev_ind.
  - apply app_inj_tail in He as [-> <-]. unfold deps_of in Hd. rewrite lookup_insert_eq in Hd. by apply Hord, Hdeps.
  - rewrite app_comm_cons, app_assoc in He. apply app_inj_tail in He as [-> <-]. apply (Htop before id after); [done|].
    assert (id ≠ sf_id f). { intros ->. assert (is_Some (m !! sf_id f)) as [? ?]; [|congruence].
      apply Hord, elem_of_app. right. by left. }
    unfold deps_of in *. by rewrite lookup_insert_ne in Hd.
Qed.

(** A selector depends on the head it selects. *)
Definition selectors_cite (m : FactMap) : Prop := ∀ s h, selected_of m s = Some h → h ∈ deps_of m s.

Lemma selectors_cite_insert m f :
  selectors_cite m → (∀ d s h, fc_body (sf_content f) = AuthorityLineageResolution d s h → h ∈ dependencies f) →
  selectors_cite (<[sf_id f := f]> m).
Proof.
  intros Hk Hf s h. unfold selected_of, deps_of. destruct (decide (s = sf_id f)) as [->|Hne].
  - rewrite lookup_insert_eq. cbn. destruct (fc_body (sf_content f)) eqn:Hb; try done. intros [= <-]. by eapply Hf.
  - rewrite lookup_insert_ne by done. apply Hk.
Qed.

Lemma selectors_known_insert m f :
  selectors_known m → (∀ d s h, fc_body (sf_content f) = AuthorityLineageResolution d s h → is_Some (m !! h)) →
  selectors_known (<[sf_id f := f]> m).
Proof.
  intros Hk Hf s h Hs. apply lookup_insert_is_Some'. right. unfold selected_of in Hs.
  destruct (decide (s = sf_id f)) as [->|Hne]; [rewrite lookup_insert_eq in Hs|rewrite lookup_insert_ne in Hs by done; by apply (Hk s)].
  cbn in Hs. destruct (fc_body (sf_content f)) eqn:Hb; try done. injection Hs as <-. by eapply Hf.
Qed.

Record graph_exact (g : FactGraph) : Prop := {
  ge_closed : closed (facts g);
  ge_verified : map_Forall (λ _ f, verify_fact f = Ok () ∧ fc_context (sf_content f) = context_id g) (facts g);
  ge_order : NoDup (admission_order g) ∧ (∀ id, id ∈ admission_order g ↔ is_Some (facts g !! id)) ∧
    topological (facts g) (admission_order g);
  ge_count : admitted_fact_count g = Z.of_nat (size (facts g));
  ge_indexes : indexes_exact (facts g) (indexes g);
  ge_selectors : selectors_known (facts g);
  ge_cited : selectors_cite (facts g);
  ge_provenance : provenance_exact (facts g) (authority_provenance (indexes g));
}.

Lemma from_bootstrap_exact context roots p limits : graph_exact (from_bootstrap context roots p limits).
Proof.
  split; cbn; [apply closed_empty|apply map_Forall_empty| |done|apply empty_indexes_exact| | |apply empty_provenance_exact].
  - split_and!; [constructor| |by intros []]. intros id. rewrite lookup_empty. split; [by intros ?%elem_of_nil|by intros []].
  - intros s h. unfold selected_of. by rewrite lookup_empty.
  - intros s h. unfold selected_of. by rewrite lookup_empty.
Qed.

Lemma fact_cost_missing g f cost : fact_cost g f = Ok cost → missing cost = missing_dependencies g f.
Proof. unfold fact_cost. intros H. inv_ok. by subst cost. Qed.

Lemma missing_dependencies_nil g f : missing_dependencies g f = [] → ∀ d, d ∈ dependencies f → is_Some (facts g !! d).
Proof.
  intros Hm d Hd. destruct (facts g !! d) eqn:Hf; [by eexists|]. exfalso.
  assert (Hin : d ∈ missing_dependencies g f) by by apply list_elem_of_filter. rewrite Hm in Hin. by apply elem_of_nil in Hin.
Qed.

(** An admitted selector selects a head it cites, and cites only its parents. *)
Lemma validated_selector causal f subject cited selected :
  validate_candidate causal f = Ok () → fc_body (sf_content f) = AuthorityLineageResolution subject cited selected →
  selected ∈ dependencies f.
Proof.
  unfold validate_candidate. intros H Hb. apply bind_Ok_inv in H as ([] & H & _). unfold validate_resolution in H.
  rewrite Hb in H. destruct (bool_decide (selected ∉ cited)) eqn:Hs; [done|].
  apply bool_decide_eq_false, dec_stable in Hs. apply elem_of_dependencies. rewrite Hb. right. by right.
Qed.

Lemma check_capacity_Ok dimension observed limit u : check_capacity dimension observed limit = Ok u → observed ≤ limit.
Proof. unfold check_capacity. destruct (Z.ltb_spec limit observed); [done|lia]. Qed.
Lemma ok_or_Ok {E A} (e : E) (o : option A) a : ok_or e o = Ok a → o = Some a.
Proof. destruct o; [|done]. by intros [= ->]. Qed.

Lemma insert_fact_inv g f cost reserved previous g' :
  insert_fact g f cost reserved previous = Ok g' →
  ∃ delta provenance bytes,
    let g1 := inserted_graph g f cost provenance bytes in
    let p := updated_projection g1 previous f in
    exact_index_residency_delta g f = Ok delta ∧ planned_provenance g f = Ok provenance ∧
    reserve_admitted g f cost reserved = Ok () ∧
    apply_index_residency_delta (max_database_bytes (policy_limits g)) (derived_index_bytes g) delta = Ok bytes ∧
    admitted_bytes g1 + bytes + commitment_bytes p ≤ max_database_bytes (policy_limits g) ∧
    g' = with_quarantine (with_projection g1 p) (wake_dependency (quarantine g) (sf_id f))
           (if reserved then retained_by_author g
            else retain_usage (retained_by_author g) (fc_author (sf_content f)) (encoded_bytes cost)).
Proof.
  unfold insert_fact. intros H. apply bind_Ok_inv in H as (delta & Hd & H). apply bind_Ok_inv in H as (prov & Hp & H).
  apply bind_Ok_inv in H as ([] & Hr & H). apply bind_Ok_inv in H as (bytes & Hb & H).
  apply bind_Ok_inv in H as (resident & Hres & H). apply bind_Ok_inv in H as ([] & Hcap & H).
  exists delta, prov, bytes. cbn zeta. split_and!; try done; [|by injection H as <-].
  apply check_capacity_Ok in Hcap. apply ok_or_Ok, bind_Some in Hres as (a & Ha & Hres). z_norm. lia.
Qed.

Lemma insert_exact g f cost causal reserved previous g' :
  prechecked g f cost → missing cost = [] → validate_candidate causal f = Ok () →
  insert_fact g f cost reserved previous = Ok g' → graph_exact g → graph_exact g'.
Proof.
  intros Hpre Hmiss Hval Hins [Hcl Hver (Hnd & Hord & Htop) Hcount Hix Hsel Hcite Hprov].
  destruct Hpre as [Hv Hctx _ Hnew _ Hcost].
  assert (Hdeps : ∀ d, d ∈ dependencies f → is_Some (facts g !! d)).
  { apply missing_dependencies_nil. by rewrite <- (fact_cost_missing _ _ _ Hcost). }
  assert (Hhead : ∀ d s h, fc_body (sf_content f) = AuthorityLineageResolution d s h → is_Some (facts g !! h)).
  { intros d s h Hb. apply Hdeps. by eapply validated_selector. }
  apply insert_fact_inv in Hins as (delta & prov & bytes & _ & Hplan & _ & _ & _ & ->). split; cbn.
  - by apply closed_insert.
  - by apply map_Forall_insert_2.
  - split_and!.
    + apply NoDup_app. split_and!; [done| |apply NoDup_singleton]. intros x Hx ->%list_elem_of_singleton.
      apply Hord in Hx as [? ?]. congruence.
    + intros id. rewrite elem_of_app, list_elem_of_singleton, Hord, lookup_insert_is_Some'. naive_solver.
    + by apply topological_snoc.
  - rewrite map_size_insert_None by done. lia.
  - by apply index_fact_exact.
  - by apply selectors_known_insert.
  - apply selectors_cite_insert; [done|]. intros d s h Hb. by eapply validated_selector.
  - unfold index_fact, index_fact_heads, index_fact_metadata. rewrite lookup_insert_eq. cbn.
    by apply planned_provenance_exact.
Qed.

Lemma remove_quarantine_frame g id g' removed :
  remove_quarantine g id = Ok (g', removed) → ∃ q, g' = with_quarantine g q (retained_by_author g).
Proof.
  unfold remove_quarantine. intros H. destruct (quarantined _ !! id).
  - apply bind_Ok_inv in H as (cost & _ & H). injection H as <- _. by eexists.
  - injection H as <- _. by eexists.
Qed.

Lemma admit_quarantined_inv g f cost reserved g' a :
  admit_quarantined g f cost reserved = Ok (g', a) →
  is_authorized_signer g (fc_author (sf_content f)) = true ∧ reserve_quarantine g f cost reserved = Ok () ∧
  ∃ q r, g' = with_quarantine (warm g) q r.
Proof.
  unfold admit_quarantined. intros H. destruct (is_authorized_signer _ _); [|done]. cbn [negb] in H.
  apply bind_Ok_inv in H as ([] & Hr & H). injection H as <- _. split_and!; [done..|]. by do 2 eexists.
Qed.

Lemma with_quarantine_exact g q r : graph_exact g → graph_exact (with_quarantine g q r).
Proof. by intros []. Qed.

Lemma with_cache_exact g cache : graph_exact g → graph_exact (with_cache g cache).
Proof. by intros []. Qed.

Lemma judging_exact g j : judging g j → graph_exact g → graph_exact j.
Proof. intros [->| ->]; [done|apply with_cache_exact]. Qed.

Lemma step_exact g g' : step g g' → graph_exact g → graph_exact g'.
Proof.
  intros [j f cost causal reserved h Hj Hp Hm _ Hv Hi|j f cost reserved h a Hj _ _ H|id h o H|author cost| |] Hg.
  - apply (judging_exact g j) in Hg; [|done]. by eapply insert_exact.
  - apply admit_quarantined_inv in H as (_ & _ & q & r & ->). by eapply with_quarantine_exact, with_cache_exact, judging_exact.
  - apply remove_quarantine_frame in H as [q ->]. by apply with_quarantine_exact.
  - by apply with_quarantine_exact.
  - by apply with_cache_exact.
  - by apply with_cache_exact.
Qed.

Lemma reachable_exact context roots p limits g : reachable context roots p limits g → graph_exact g.
Proof. apply reachable_invariant; [apply from_bootstrap_exact|apply step_exact]. Qed.

(** C1: In every graph reachable from a bootstrap by [admit_fact] and [admit_journaled]
    the admitted facts are verified facts of the graph's context, closed under
    dependencies; the admission order lists each of them once, after everything it
    depends on; every head index holds the maximal facts of its key in identity
    order, every membership index exactly the facts of its key; and the selector
    provenance holds exactly the relations that signed ancestry determines. *)
Theorem reachable_graph_is_exact context roots p limits g :
  reachable context roots p limits g → graph_exact g.
Proof. apply reachable_exact. Qed.

(** ** What rebuilding keeps *)
Definition same_frame (g h : FactGraph) : Prop :=
  facts h = facts g ∧ authority_roots h = authority_roots g ∧ policy h = policy g.

Lemma rebuild_provenance_frame g : same_frame g (rebuild_provenance g).
Proof.
  unfold rebuild_provenance. generalize (selector_ids (facts g)) as l. intros l.
  assert (Hgen : ∀ h, same_frame g h → same_frame g (foldl (λ g id, match facts g !! id with
                 | Some f => match planned_provenance g f with Ok changes => add_provenance g changes | Err _ => g end
                 | None => g
                 end) h l)).
  { induction l as [|id l IH]; intros h Hh; [done|]. cbn [foldl]. apply IH.
    destruct (facts h !! id); [|done]. by destruct (planned_provenance h _). }
  by apply Hgen.
Qed.

Lemma rebuild_provenance_checked_frame l g h : rebuild_provenance_checked g l = Ok h → same_frame g h.
Proof.
  revert g. induction l as [|id l IH]; intros g H; cbn [rebuild_provenance_checked] in H; [by injection H as <-|].
  destruct (facts g !! id); [|by apply IH]. apply bind_Ok_inv in H as (ch & _ & H). by apply IH in H.
Qed.

Lemma scoped_frame g ids past :
  scoped_graph g ids = Ok past →
  facts past = filter (λ row, row.1 ∈ ids) (facts g) ∧ authority_roots past = authority_roots g ∧ policy past = policy g.
Proof.
  intros H. unfold scoped_graph in H. apply bind_Ok_inv in H as (rebuilt & Hr & H). apply bind_Ok_inv in H as (? & _ & H). injection H as <-.
  cbn [facts authority_roots policy with_index_bytes]. apply rebuild_provenance_checked_frame in Hr as (-> & -> & ->).
  unfold rebuild_indexes. cbn.
  match goal with |- context [rebuild_provenance ?s] => destruct (rebuild_provenance_frame s) as (-> & -> & ->) end. done.
Qed.

(** ** The facts determine everything derived from them *)
Lemma exact_indexes_agree g h : graph_exact g → graph_exact h → facts g = facts h → indexes g = indexes h.
Proof.
  intros [_ _ _ _ Hi _ _ Hp] [_ _ _ _ Hi' _ _ Hp'] Hf. rewrite <- Hf in Hi', Hp'.
  destruct (indexes_exact_unique _ _ _ Hi Hi') as (H1 & H2 & H3 & H4 & H5 & H6).
  pose proof (provenance_exact_unique _ _ _ Hp Hp') as H7.
  destruct (indexes g), (indexes h). cbn in *. by subst.
Qed.

(** A graph with exact indexes satisfies what the projection relies on. *)
Lemma exact_graph_view g : graph_exact g → GraphViewLaws g.
Proof.
  intros Hg cell Hc. cbn in Hc. cbn. unfold graph_cell_heads, raw_cell_heads.
  rewrite (exact_cells _ _ (ge_indexes _ Hg)) in Hc. pose proof (exact_cell_heads _ _ (ge_indexes _ Hg) cell) as Hh.
  destruct (cell_heads_index (indexes g) !! cell) as [l|]; [|done]. destruct Hh as [He _]. done.
Qed.

Lemma from_graph_agree g h : facts g = facts h → indexes g = indexes h → from_graph g = from_graph h.
Proof. destruct g, h. cbn. intros -> ->. reflexivity. Qed.

(** C16: Arrival order is irrelevant to what is derived from the admitted facts: two
    reachable graphs (of whatever bootstraps, limits and admission histories) that
    hold the same facts have equal head, membership and selector indexes, equal
    provenance, and the projection rebuilt from either, commitment included, is the
    same. *)
Theorem facts_determine_projection context roots p limits g context' roots' p' limits' h :
  reachable context roots p limits g → reachable context' roots' p' limits' h → facts g = facts h →
  indexes g = indexes h ∧ from_graph g = from_graph h.
Proof.
  intros Hg%reachable_exact Hh%reachable_exact Hf.
  pose proof (exact_indexes_agree g h Hg Hh Hf). split; [done|]. by apply from_graph_agree.
Qed.
End reach.
