(* ===== verification/Rebuild.v ===== *)
(** * Rebuilding a graph from its facts

    Kahn's algorithm returns a topological order of any closed acyclic set of
    facts, and the indexes and provenance rebuilt from it are the exact ones: the
    scoped graph a candidate is judged in is the graph its dependencies would have
    built alone. *)

From S2P Require Import Prelude Ranking Bytes Identity Content Merkle Ancestry Projection FactGraph Residency.
From S2P Require Import Evaluator Admission GraphIndex GraphProvenance GraphInv.
Local Open Scope nat_scope.

(** ** Kahn's algorithm *)
Lemma kahn_visits ds indegree ready :
  NoDup ds →
  let r := foldl (λ acc d, kahn_visit d acc) (indegree, ready) ds in
  (∀ x, r.1 !! x = if decide (x ∈ ds) then Some (pred (default 0 (indegree !! x))) else indegree !! x) ∧
  (∀ x, x ∈ r.2 ↔ x ∈ ready ∨ (x ∈ ds ∧ pred (default 0 (indegree !! x)) = 0)) ∧
  (increasing b32_cmp ready → increasing b32_cmp r.2).
Proof.
  intros Hnd. revert indegree ready. induction Hnd as [|d ds Hd Hnd IH]; intros indegree ready; cbn zeta; cbn [foldl].
  { split_and!; [intros x; by rewrite decide_False by apply not_elem_of_nil| |done]. intros x. rewrite elem_of_nil. tauto. }
  unfold kahn_visit at 2 4 6. cbn [fst snd]. set (n := pred (default 0 (indegree !! d))).
  destruct (IH (<[d := n]> indegree) (if n =? 0 then set_insert b32_cmp d ready else ready)) as (H1 & H2 & H3). split_and!.
  - intros x. rewrite H1. destruct (decide (x = d)) as [->|Hne].
    + rewrite decide_False by done. by rewrite lookup_insert_eq, decide_True by left.
    + rewrite lookup_insert_ne by done. destruct (decide (x ∈ ds)); [by rewrite decide_True by by right|].
      rewrite decide_False; [done|]. by intros [?|?]%elem_of_cons.
  - intros x. rewrite H2, elem_of_cons. destruct (decide (x = d)) as [->|Hne].
    + destruct (Nat.eqb_spec n 0); [rewrite elem_of_set_insert by apply _|]; unfold n in *; naive_solver.
    + rewrite lookup_insert_ne by done. destruct (n =? 0); [rewrite elem_of_set_insert by apply _|]; naive_solver.
  - intros Hi. apply H3. destruct (n =? 0); [by apply set_insert_increasing; [apply _|]|done].
Qed.

Section kahn.
Context (m : FactMap).
Notation ids := (sorted_ids (dom m)).
Notation rdeps := (resident_dependencies m).
Definition dependents_of (id : FactId) : list FactId := filter (λ d, id ∈ rdeps d) ids.
Definition remaining (ordered : list FactId) (id : FactId) : list FactId := filter (λ d, d ∉ ordered) (rdeps id).

Lemma rdeps_NoDup id : NoDup (rdeps id).
Proof.
  apply NoDup_filter. unfold deps_of. destruct (m !! id); [|apply NoDup_nil_2].
  apply (increasing_NoDup b32_cmp), sort_dedup_increasing, _.
Qed.
Lemma ids_NoDup : NoDup ids.
Proof. apply (increasing_NoDup b32_cmp), btree_set_increasing, _. Qed.
Lemma rdeps_resident id d : d ∈ rdeps id → d ∈ ids.
Proof. intros [[q Hq] _]%list_elem_of_filter. apply elem_of_sorted_ids, elem_of_dom. by exists q. Qed.

Record kahn_inv (indegree : gmap FactId nat) (ready ordered : list FactId) : Prop := {
  k_nodup : NoDup ordered;
  k_known : ∀ x, x ∈ ordered → x ∈ ids;
  k_top : ∀ before x after d, ordered = before ++ x :: after → d ∈ rdeps x → d ∈ before;
  k_degree : ∀ x, x ∈ ids → indegree !! x = Some (length (remaining ordered x));
  k_sorted : increasing b32_cmp ready;
  k_ready : ∀ x, x ∈ ready ↔ x ∈ ids ∧ x ∉ ordered ∧ remaining ordered x = [];
}.

Lemma remaining_nil ordered x d : remaining ordered x = [] → d ∈ rdeps x → d ∈ ordered.
Proof.
  intros Hr Hd. apply dec_stable. intros Hn. apply (not_elem_of_nil d). rewrite <- Hr. by apply list_elem_of_filter.
Qed.

Lemma remaining_snoc ordered x y :
  x ∉ ordered → length (remaining (ordered ++ [x]) y) =
  if decide (x ∈ rdeps y) then pred (length (remaining ordered y)) else length (remaining ordered y).
Proof.
  intros Hx. unfold remaining. pose proof (rdeps_NoDup y) as Hnd. induction Hnd as [|d l Hd Hnd IH].
  { by destruct (decide _). }
  rewrite !filter_cons. destruct (decide (d = x)) as [->|Hne].
  - rewrite (decide_True (P := x ∉ ordered)) by done. rewrite decide_False by (rewrite elem_of_app, list_elem_of_singleton; tauto).
    rewrite decide_True by left. rewrite decide_False in IH by done. cbn. exact IH.
  - assert (Hin : d ∉ ordered ++ [x] ↔ d ∉ ordered). { rewrite elem_of_app, list_elem_of_singleton. tauto. }
    assert (Hx' : x ∈ d :: l ↔ x ∈ l). { rewrite elem_of_cons. naive_solver. }
    rewrite (decide_ext _ _ _ _ Hx').
    destruct (decide (d ∉ ordered)) as [Hd1|Hd1].
    + rewrite decide_True by by apply Hin. cbn. rewrite IH. destruct (decide (x ∈ l)) as [Hl|]; [|done].
      assert (Hpos : x ∈ filter (λ d, d ∉ ordered) l) by by apply list_elem_of_filter.
      destruct (filter (λ d, d ∉ ordered) l); [by apply elem_of_nil in Hpos|done].
    + rewrite decide_False by by rewrite Hin. exact IH.
Qed.

Lemma kahn_step indegree id ready ordered :
  kahn_inv indegree (id :: ready) ordered →
  let r := foldl (λ acc d, kahn_visit d acc) (indegree, ready) (dependents_of id) in
  kahn_inv r.1 r.2 (ordered ++ [id]).
Proof.
  intros [Hnd Hk Ht Hdeg Hs Hr]. destruct (proj1 (Hr id) ltac:(by left)) as (Hid & Hni & Hrem).
  assert (Hself : id ∉ rdeps id). { intros H. by apply Hni, (remaining_nil ordered id). }
  assert (Hstay : ∀ x, x ∈ ordered → id ∉ rdeps x).
  { intros x Hx H. apply Hni. apply list_elem_of_split in Hx as (l1 & l2 & ->).
    apply elem_of_app. left. by eapply (Ht l1 x l2). }
  assert (Hrest : id ∉ ready ∧ increasing b32_cmp ready).
  { split; [by apply (increasing_NoDup b32_cmp), NoDup_cons in Hs as [? _]|by inversion Hs]. }
  destruct (kahn_visits (dependents_of id) indegree ready) as (H1 & H2 & H3); [apply NoDup_filter, ids_NoDup|].
  cbn zeta. destruct (foldl _ _ (dependents_of id)) as [indegree' ready']. cbn [fst snd] in *.
  assert (Hdep : ∀ x, x ∈ dependents_of id ↔ id ∈ rdeps x ∧ x ∈ ids). { intros x. unfold dependents_of. by rewrite list_elem_of_filter. }
  split.
  - apply NoDup_app. split_and!; [done| |apply NoDup_singleton]. intros x Hx ->%list_elem_of_singleton. done.
  - intros x [Hx| ->%list_elem_of_singleton]%elem_of_app; auto.
  - intros before x after d He Hd. destruct after as [|y after _] using rev_ind.
    + apply app_inj_tail in He as [-> ->]. by eapply remaining_nil.
    + rewrite app_comm_cons, app_assoc in He. apply app_inj_tail in He as [-> _]. by eapply Ht.
  - intros x Hx. rewrite H1, Hdeg, remaining_snoc by done. cbn. destruct (decide (x ∈ dependents_of id)) as [Hd|Hd]; rewrite Hdep in Hd.
    + by rewrite decide_True by tauto.
    + rewrite decide_False; [done|tauto].
  - apply H3, Hrest.
  - intros x. rewrite H2, Hdep, elem_of_app, list_elem_of_singleton. pose proof (remaining_snoc ordered id x Hni) as Hlen.
    assert (Hin : x ∈ ready → x ∈ ids ∧ x ∉ ordered ∧ remaining ordered x = []). { intros Hx. apply Hr. by right. }
    split.
    + intros [Hx|([Hd Hx] & Hp)].
      * destruct (Hin Hx) as (? & ? & Hnil). split_and!; [done| |].
        -- intros [?| ->]; [done|]. by apply Hrest.
        -- apply nil_length_inv. rewrite Hlen, Hnil. by destruct (decide _).
      * rewrite Hdeg in Hp by done. cbn in Hp. split_and!; [done| |].
        -- intros [?| ->]; [by eapply Hstay|done].
        -- apply nil_length_inv. by rewrite Hlen, decide_True.
    + intros (Hx & Hno & Hnil). rewrite Hnil in Hlen. cbn in Hlen. rewrite Hdeg by done. cbn.
      destruct (decide (id ∈ rdeps x)); [by right|]. left. assert (Hc : x ∈ id :: ready).
      { apply Hr. split_and!; [done|tauto|]. by apply nil_length_inv. }
      apply elem_of_cons in Hc as [->|]; [|done]. tauto.
Qed.

Lemma kahn_start :
  kahn_inv (list_to_map ((λ id, (id, length (rdeps id))) <$> ids)) (filter (λ id, length (rdeps id) = 0) ids) [].
Proof.
  assert (Hrem : ∀ x, remaining [] x = rdeps x).
  { intros x. unfold remaining. induction (rdeps x) as [|d l IH]; [done|]. by rewrite filter_cons_True, IH by apply not_elem_of_nil. }
  split.
  - constructor.
  - by intros x ?%elem_of_nil.
  - by intros [].
  - intros x Hx. rewrite Hrem. apply elem_of_list_to_map_1.
    + rewrite <- list_fmap_compose. cbn. rewrite (list_fmap_ext _ id) by done. rewrite list_fmap_id. apply ids_NoDup.
    + apply list_elem_of_fmap. by exists x.
  - apply increasing_filter, btree_set_increasing, _.
  - intros x. rewrite list_elem_of_filter, Hrem, elem_of_nil. split.
    + intros [Hl Hx]. split_and!; [done|tauto|by apply nil_length_inv].
    + intros (Hx & _ & ->). done.
Qed.

(** A closed acyclic map: an order in which dependencies come first. *)
Definition acyclic : Prop := ∃ order, (∀ id, id ∈ order ↔ is_Some (m !! id)) ∧ topological m order.

Lemma kahn_stuck indegree ordered : acyclic → kahn_inv indegree [] ordered → ∀ x, x ∈ ids → x ∈ ordered.
Proof.
  intros (order & Ho & Htop) [_ _ _ _ _ Hr].
  assert (Hall : ∀ pre post, order = pre ++ post → ∀ x, x ∈ pre → x ∈ ordered).
  { intros pre. induction pre as [|y pre IH] using rev_ind; intros post He x Hx; [by apply elem_of_nil in Hx|].
    rewrite <- app_assoc in He. cbn in He. specialize (IH _ He). apply elem_of_app in Hx as [Hx| ->%list_elem_of_singleton]; [by apply IH|].
    apply dec_stable. intros Hn. apply (not_elem_of_nil y), Hr. split_and!; [|done|].
    - apply elem_of_sorted_ids, elem_of_dom, Ho. rewrite He. apply elem_of_app. right. by left.
    - destruct (remaining ordered y) as [|d l] eqn:Hd; [done|]. exfalso.
      assert (Hin : d ∈ remaining ordered y) by (rewrite Hd; by left).
      apply list_elem_of_filter in Hin as [Hdn [_ Hdy]%list_elem_of_filter]. apply Hdn, IH. by eapply Htop. }
  intros x Hx%elem_of_sorted_ids%elem_of_dom. apply (Hall order []); [by rewrite app_nil_r|]. by apply Ho.
Qed.

Lemma kahn_complete fuel indegree ready ordered :
  acyclic → kahn_inv indegree ready ordered → length ids ≤ fuel + length ordered →
  ∃ indegree' ready', kahn_inv indegree' ready' (kahn fuel dependents_of indegree ready ordered) ∧
    ∀ x, x ∈ ids → x ∈ kahn fuel dependents_of indegree ready ordered.
Proof.
  intros Hac. revert indegree ready ordered. induction fuel as [|fuel IH]; intros indegree ready ordered Hinv Hlen.
  - exists indegree, ready. split; [done|]. destruct Hinv as [Hnd Hk _ _ _ _]. cbn [kahn].
    assert (Hp : ordered ≡ₚ ids); [|intros x; by rewrite Hp].
    apply submseteq_length_Permutation; [|cbn in Hlen; lia]. apply NoDup_submseteq; [done|exact Hk].
  - destruct ready as [|id ready]; [exists indegree, []; split; [done|]; by apply (kahn_stuck indegree)|]. cbn [kahn].
    pose proof (kahn_step _ _ _ _ Hinv) as Hstep. cbn zeta in Hstep. destruct (foldl _ _ (dependents_of id)) as [indegree' ready'].
    apply IH; [done|]. rewrite length_app. cbn. lia.
Qed.

Lemma causal_order_spec :
  closed m → acyclic → NoDup (causal_order m) ∧ (∀ id, id ∈ causal_order m ↔ is_Some (m !! id)) ∧ topological m (causal_order m).
Proof.
  intros Hcl Hac. unfold causal_order. fold dependents_of.
  destruct (kahn_complete (length ids) _ _ _ Hac kahn_start ltac:(cbn; lia)) as (i' & r' & [Hnd Hk Ht _ _ _] & Hall).
  set (o := kahn _ _ _ _ _) in *.
  assert (Hp : o ≡ₚ ids). { apply NoDup_Permutation; [done|apply ids_NoDup|]. intros x. split; auto. }
  rewrite (Permutation_length Hp), Nat.eqb_refl. split_and!; [done| |].
  - intros id. rewrite Hp, elem_of_sorted_ids. apply elem_of_dom.
  - intros before id after d He Hd. eapply Ht; [exact He|]. apply list_elem_of_filter. split; [|done].
    unfold deps_of in Hd. destruct (m !! id) as [f|] eqn:Hf; [|by apply elem_of_nil in Hd]. by apply (Hcl id f Hf).
Qed.
End kahn.

(** ** Parts of a map *)
Definition part (m : FactMap) (l : list FactId) : FactMap := filter (λ row, row.1 ∈ l) m.

Lemma lookup_part m l id : part m l !! id = if decide (id ∈ l) then m !! id else None.
Proof.
  unfold part. destruct (decide (id ∈ l)) as [Hl|Hl].
  - destruct (m !! id) as [f|] eqn:Hf; [by apply map_lookup_filter_Some|]. apply map_lookup_filter_None. by left.
  - apply map_lookup_filter_None. right. intros f _. exact Hl.
Qed.

Lemma part_snoc m l id f : m !! id = Some f → part m (l ++ [id]) = <[id := f]> (part m l).
Proof.
  intros Hf. apply map_eq. intros x. rewrite lookup_part. destruct (decide (x = id)) as [->|Hne].
  - rewrite lookup_insert_eq, decide_True; [done|]. apply elem_of_app. right. by left.
  - rewrite lookup_insert_ne, lookup_part by done. apply decide_ext. rewrite elem_of_app, list_elem_of_singleton. tauto.
Qed.

Lemma part_all m l : (∀ id, is_Some (m !! id) → id ∈ l) → part m l = m.
Proof.
  intros Hl. apply map_eq. intros x. rewrite lookup_part. destruct (decide _) as [|Hn]; [done|].
  destruct (m !! x) eqn:Hx; [|done]. exfalso. apply Hn, Hl. by rewrite Hx.
Qed.

Lemma part_sub m l : part m l ⊆ m.
Proof. apply map_filter_subseteq. Qed.

(** Paths that start in a closed part stay in it. *)
Lemma closed_part_path n m x y : closed n → n ⊆ m → is_Some (n !! x) → rtc (dep_edge m) x y ↔ rtc (dep_edge n) x y.
Proof.
  intros Hcl Hsub. assert (Hdeps : ∀ x, is_Some (n !! x) → deps_of m x = deps_of n x).
  { intros z [f Hf]. unfold deps_of. by rewrite Hf, (lookup_weaken _ _ _ _ Hf Hsub). }
  intros Hx. split; intros Hr; revert Hx; induction Hr as [|a b c Hab _ IH]; intros Ha; try done.
  - unfold edge in Hab. rewrite Hdeps in Hab by done. eapply rtc_l; [exact Hab|]. apply IH. by apply (closed_edge n a b).
  - eapply rtc_l; [|apply IH; by apply (closed_edge n a b)]. unfold edge in *. by rewrite Hdeps.
Qed.

Lemma closed_prefix m l after :
  closed m → topological m (l ++ after) → (∀ id, id ∈ l → is_Some (m !! id)) → closed (part m l).
Proof.
  intros Hcl Htop Hin id f Hf. rewrite lookup_part in Hf. destruct (decide (id ∈ l)) as [Hl|]; [|done].
  destruct (Hcl id f Hf) as [Hid _]. split; [done|]. intros d Hd.
  apply list_elem_of_split in Hl as (l1 & l2 & ->). rewrite <- app_assoc in Htop. cbn in Htop.
  assert (Hd1 : d ∈ l1). { eapply Htop; [done|]. unfold deps_of. by rewrite Hf. }
  rewrite lookup_part, decide_True by (apply elem_of_app; by left). apply Hin. apply elem_of_app. by left.
Qed.

Section rebuild.
Context {crypto : Crypto} {laws : CryptoLaws} {layout : Layout}.

(** ** Indexes *)
Lemma rebuilt_metadata m l :
  closed m → NoDup l → (∀ id, id ∈ l → is_Some (m !! id)) →
  metadata_exact (part m l) (foldl (index_fact_metadata m) empty_indexes l).
Proof.
  intros Hcl. induction l as [|id l IH] using rev_ind; intros Hnd Hin.
  { replace (part m []) with (∅ : FactMap); [apply empty_indexes_exact|]. apply map_eq. intros x. by rewrite lookup_part, lookup_empty, decide_False by apply not_elem_of_nil. }
  apply NoDup_app in Hnd as (Hnd & Hni & _). destruct (Hin id) as [f Hf]; [apply elem_of_app; right; by left|].
  destruct (Hcl id f Hf) as [Hid _]. rewrite foldl_snoc, (part_snoc m l id f Hf).
  assert (Hnew : part m l !! id = None). { rewrite lookup_part, decide_False; [done|]. intros H. by apply (Hni id); [|left]. }
  rewrite <- Hid in *. replace (index_fact_metadata m) with (index_fact_metadata m) by done.
  assert (Heq : ∀ ix, index_fact_metadata m ix (sf_id f) = index_fact_metadata (<[sf_id f := f]> (part m l)) ix (sf_id f)).
  { intros ix. unfold index_fact_metadata. by rewrite Hf, lookup_insert_eq. }
  rewrite Heq. apply index_metadata_exact; [done|]. apply IH; [done|]. intros x Hx. apply Hin, elem_of_app. by left.
Qed.

Lemma index_fact_heads_part m n ix f :
  closed n → n ⊆ m → n !! sf_id f = Some f →
  index_fact_heads m ix (sf_id f) = index_fact_heads n ix (sf_id f).
Proof.
  intros Hcl Hsub Hf. unfold index_fact_heads. rewrite Hf, (lookup_weaken _ _ _ _ Hf Hsub).
  assert (Hdom : ∀ h, signed_head_is_dominated m (dependencies f) h = signed_head_is_dominated n (dependencies f) h).
  { intros h. apply Bool.eq_iff_eq_true. rewrite !dominated_spec. destruct (Hcl _ _ Hf) as [_ Hd].
    split; intros (d & Hin & Hr); exists d; (split; [done|]); apply (closed_part_path n m); auto. }
  assert (Hins : ∀ l, insert_maximal_head m l (sf_id f) = insert_maximal_head n l (sf_id f)).
  { intros l. unfold insert_maximal_head. rewrite Hf, (lookup_weaken _ _ _ _ Hf Hsub). f_equal.
    apply list_filter_iff. intros h. by rewrite Hdom. }
  assert (Hfold : ∀ K `{Countable K} (a : gmap K (list FactId)) l,
    foldl (advance_heads m (sf_id f)) a l = foldl (advance_heads n (sf_id f)) a l).
  { intros K ? ? a l. revert a. induction l as [|k l IH]; intros a; [done|]. cbn [foldl].
    replace (advance_heads m (sf_id f) a k) with (advance_heads n (sf_id f) a k); [apply IH|]. unfold advance_heads. by rewrite Hins. }
  by rewrite !Hfold.
Qed.

Lemma rebuilt_heads m l after ix :
  closed m → NoDup l → (∀ id, id ∈ l → is_Some (m !! id)) → topological m (l ++ after) → head_indexes_exact ∅ ix →
  head_indexes_exact (part m l) (foldl (index_fact_heads m) ix l).
Proof.
  intros Hcl Hnd Hin Htop Hix. revert after Htop. induction l as [|id l IH] using rev_ind; intros after Htop.
  { replace (part m []) with (∅ : FactMap); [done|]. apply map_eq. intros x. by rewrite lookup_part, lookup_empty, decide_False by apply not_elem_of_nil. }
  apply NoDup_app in Hnd as (Hnd & Hni & _). destruct (Hin id) as [f Hf]; [apply elem_of_app; right; by left|].
  destruct (Hcl id f Hf) as [Hid _]. pose proof (closed_prefix m (l ++ [id]) after Hcl Htop Hin) as Hcl'.
  rewrite foldl_snoc. rewrite (part_snoc m l id f Hf) in *.
  assert (Hnew : part m l !! id = None). { rewrite lookup_part, decide_False; [done|]. intros H. by apply (Hni id); [|left]. }
  assert (Hin' : ∀ x, x ∈ l → is_Some (m !! x)) by (intros x Hx; apply Hin, elem_of_app; by left).
  rewrite <- app_assoc in Htop. cbn in Htop. pose proof (closed_prefix m l _ Hcl Htop Hin') as Hcll.
  assert (Hd : ∀ d, d ∈ dependencies f → is_Some (part m l !! d)).
  { intros d Hd. assert (Hdl : d ∈ l). { eapply Htop; [done|]. unfold deps_of. by rewrite Hf. }
    rewrite lookup_part, decide_True by done. auto. }
  rewrite <- Hid in *. rewrite (index_fact_heads_part m (<[sf_id f := f]> (part m l))).
  - apply index_heads_exact; [done..|]. by eapply IH.
  - done.
  - apply insert_subseteq_l; [done|apply part_sub].
  - apply lookup_insert_eq.
Qed.

(** Each pass leaves the other pass's indexes alone. *)
Lemma heads_pass_frame m l ix :
  let ix' := foldl (index_fact_heads m) ix l in
  authority_facts_index ix' = authority_facts_index ix ∧ stand_down_index ix' = stand_down_index ix ∧
  cells_index ix' = cells_index ix ∧ authority_selector_index ix' = authority_selector_index ix ∧
  authority_provenance ix' = authority_provenance ix.
Proof.
  cbn zeta. revert ix. induction l as [|id l IH]; intros ix; [done|]. cbn [foldl].
  destruct (IH (index_fact_heads m ix id)) as (-> & -> & -> & -> & ->). unfold index_fact_heads. by destruct (m !! id).
Qed.

Lemma metadata_pass_frame m l ix :
  let ix' := foldl (index_fact_metadata m) ix l in
  cell_heads_index ix' = cell_heads_index ix ∧ authority_heads_index ix' = authority_heads_index ix ∧
  authority_provenance ix' = authority_provenance ix.
Proof.
  cbn zeta. revert ix. induction l as [|id l IH]; intros ix; [done|]. cbn [foldl].
  destruct (IH (index_fact_metadata m ix id)) as (-> & -> & ->). unfold index_fact_metadata. by destruct (m !! id).
Qed.

Lemma rebuild_index_maps_exact m :
  closed m → acyclic m → indexes_exact m (rebuild_index_maps m) ∧ authority_provenance (rebuild_index_maps m) = ∅.
Proof.
  intros Hcl Hac. destruct (causal_order_spec m Hcl Hac) as (Hnd & Hin & Htop). unfold rebuild_index_maps.
  set (meta := foldl (index_fact_metadata m) empty_indexes (sorted_ids (dom m))).
  assert (Hids : ∀ x, x ∈ sorted_ids (dom m) ↔ is_Some (m !! x)). { intros x. rewrite elem_of_sorted_ids. apply elem_of_dom. }
  destruct (heads_pass_frame m (causal_order m) meta) as (E1 & E2 & E3 & E4 & E5).
  destruct (metadata_pass_frame m (sorted_ids (dom m)) empty_indexes) as (F1 & F2 & F3). fold meta in F1, F2, F3.
  split; [split|by rewrite E5, F3].
  - assert (Hm : metadata_exact m meta).
    { rewrite <- (part_all m (sorted_ids (dom m))) at 1 by (intros; by apply Hids).
      apply rebuilt_metadata; [done|apply ids_NoDup|by intros x; rewrite Hids]. }
    destruct Hm as [H1 H2 H3 H4]. split; by rewrite ?E1, ?E2, ?E3, ?E4.
  - rewrite <- (part_all m (causal_order m)) at 1 by (intros; by apply Hin).
    apply (rebuilt_heads m _ []); [done|done|by intros x; rewrite Hin|by rewrite app_nil_r|].
    destruct (empty_indexes_exact) as [_ [H1 H2]]. split; by rewrite ?F1, ?F2.
Qed.

(** ** Provenance *)
(** Exact for the selectors in [S], nothing for the others. *)
Record provenance_for (m : FactMap) (S : gset FactId) (p : AuthorityProvenance) : Prop := {
  pf_rows : ∀ id s, row_of p id !! s = if decide (s ∈ S) then relation_spec m id s else None;
  pf_nonempty : ∀ id row, p !! id = Some row → row ≠ ∅;
}.

Lemma provenance_for_empty m : provenance_for m ∅ ∅.
Proof.
  split; [|intros id row; by rewrite lookup_empty]. intros id s. unfold row_of. rewrite lookup_empty. cbn.
  rewrite lookup_empty. by rewrite decide_False by apply not_elem_of_empty.
Qed.

Section selector.
Context (g : FactGraph) (f : SignedFact) (S : gset FactId).
Notation m := (facts g).
Notation stored := (authority_provenance (indexes g)).
Context (Hf : m !! sf_id f = Some f) (Hcl : closed m) (Hp : provenance_for m S stored).

Lemma stored_for id s : provenance_row g id !! s = if decide (s ∈ S) then relation_spec m id s else None.
Proof. apply (pf_rows _ _ _ Hp). Qed.

Lemma parent_ancestor x p : p ∈ fc_parents (sf_content f) → x = p ∨ is_ancestor m x p = true → is_ancestor m x (sf_id f) = true.
Proof.
  intros Hpar Hx. apply is_ancestor_spec. eapply tc_rtc_r.
  - apply tc_once. unfold edge, parents_of. rewrite Hf. exact Hpar.
  - destruct Hx as [->|Hx%is_ancestor_spec]; [done|by apply tc_rtc].
Qed.

(** A row that is already exact inherits nothing new. *)
Lemma merge_parent p s : p ∈ fc_parents (sf_content f) →
  merge_relation (provenance_row g (sf_id f) !! s) (provenance_row g p !! s) = provenance_row g (sf_id f) !! s.
Proof.
  intros Hpar. rewrite !stored_for. destruct (decide (s ∈ S)); [|done]. unfold relation_spec. rewrite Hf.
  destruct (m !! p); [|done]. destruct (selected_of m s) as [h|]; [|done]. cbn.
  set (rp := ancestry_relation m p s h). set (rf := ancestry_relation m (sf_id f) s h).
  assert (H1 : post_selector rp = true → post_selector rf = true).
  { cbn. rewrite !orb_true_iff, !bool_decide_eq_true. intros H. right. apply (parent_ancestor s p Hpar). naive_solver. }
  assert (H2 : selected_before rp = true → selected_before rf = true).
  { cbn. rewrite !orb_true_iff, !bool_decide_eq_true. intros H. right. apply (parent_ancestor h p Hpar). naive_solver. }
  assert (H3 : rel_selected rf = rel_selected rp) by done. clearbody rp rf.
  destruct rp as [hp a b c], rf as [hf a' b' c']. unfold any_relation. cbn in *. subst hf.
  destruct a, b, a', b', c'; cbn; try done; first [discriminate (H1 eq_refl)|discriminate (H2 eq_refl)|by destruct c].
Qed.

Lemma inherited_same : inherited_row g f = provenance_row g (sf_id f).
Proof.
  unfold inherited_row. assert (H : ∀ l row, (∀ p, p ∈ l → p ∈ fc_parents (sf_content f)) → row = provenance_row g (sf_id f) →
    foldl (λ row p, foldl inherit_relation row (sorted_rows b32_cmp (provenance_row g p))) row l = provenance_row g (sf_id f)).
  { induction l as [|p l IH]; intros row Hl Hrow; [done|]. cbn [foldl]. apply IH; [intros q Hq; apply Hl; by right|].
    apply map_eq. intros s. rewrite inherit_rows, Hrow. apply merge_parent, Hl. by left. }
  by apply H.
Qed.

Notation inherited := (if decide (inherited_row g f = ∅) then ∅ else {[sf_id f := inherited_row g f]} : AuthorityProvenance).

Lemma inherited_lookup id : inherited !! id = None ∨ inherited !! id = Some (row_of stored id).
Proof.
  rewrite inherited_same. destruct (decide _); [left; apply lookup_empty|].
  destruct (decide (id = sf_id f)) as [->|]; [right; by rewrite lookup_singleton_eq|left; by rewrite lookup_singleton_ne].
Qed.

Lemma inherited_union_row id : row_of (inherited ∪ stored) id = row_of stored id.
Proof.
  unfold row_of at 1. destruct (inherited_lookup id) as [H|H].
  - by rewrite lookup_union_r.
  - by rewrite (lookup_union_Some_l _ _ _ _ H).
Qed.

Lemma prior_row_stored id : prior_row g inherited id = row_of stored id.
Proof. unfold prior_row. destruct (inherited_lookup id) as [H|H]; by rewrite H. Qed.

Lemma planned_for subject cited h changes :
  fc_body (sf_content f) = AuthorityLineageResolution subject cited h → is_Some (m !! h) →
  planned_provenance g f = Ok changes → provenance_for m ({[sf_id f]} ∪ S) (changes ∪ stored).
Proof.
  intros Hb Hh Hplan. destruct (Hcl _ _ Hf) as [_ Hdeps]. assert (Hid : <[sf_id f := f]> m = m) by by apply insert_id.
  pose proof (planned_provenance_inv g f changes Hdeps Hplan) as Hinv. cbn zeta in Hinv. rewrite Hb in Hinv.
  destruct Hinv as (anc & n & n' & Hanc & Hpl).
  destruct (complete_ancestors_spec m f Hcl Hdeps h) as (anc' & Hanc' & Hx); [by rewrite Hid|]. rewrite Hanc' in Hanc. injection Hanc as ->.
  assert (Hids : ∀ i, i ∈ sorted_ids ({[sf_id f]} ∪ dom m) ↔ is_Some (m !! i)).
  { intros i. rewrite elem_of_sorted_ids, elem_of_union, elem_of_singleton, elem_of_dom. split; [|by right]. intros [->|?]; [by rewrite Hf|done]. }
  assert (Hrel : ∀ i, i ∈ sorted_ids ({[sf_id f]} ∪ dom m) →
    relation_to m f (sf_id f) h anc i = Ok (ancestry_relation m i (sf_id f) h)).
  { intros i Hi%Hids. rewrite <- Hid at 2. apply relation_to_exact; [done..|]. by rewrite Hid. }
  assert (Hl : ∀ id, (changes ∪ stored) !! id = if decide (id ∈ sorted_ids ({[sf_id f]} ∪ dom m) ∧
      any_relation (ancestry_relation m id (sf_id f) h) = true)
    then Some (<[sf_id f := ancestry_relation m id (sf_id f) h]> (row_of stored id)) else (inherited ∪ stored) !! id).
  { intros id. rewrite lookup_union. pose proof (plan_relations_inv g f _ _ _ (λ i, ancestry_relation m i (sf_id f) h) _ _ _ id
      (increasing_NoDup b32_cmp _ (btree_set_increasing b32_cmp _)) Hrel Hpl) as Hc. cbn [fst] in Hc. rewrite Hc.
    destruct (decide (id ∈ _ ∧ _)) as [Hd|Hd]; [|by rewrite lookup_union]. rewrite prior_row_stored. by destruct (stored !! id). }
  split.
  - intros id s. unfold row_of at 1. rewrite Hl. pose proof (pf_rows _ _ _ Hp id s) as Hold.
    assert (Hbase : default ∅ ((inherited ∪ stored) !! id) !! s = row_of stored id !! s) by (by rewrite <- (inherited_union_row id)).
    destruct (decide (s = sf_id f)) as [->|Hs].
    + rewrite (decide_True (P := sf_id f ∈ {[sf_id f]} ∪ S)) by set_solver.
      assert (Hspec : relation_spec m id (sf_id f) = match m !! id with Some _ => if any_relation (ancestry_relation m id (sf_id f) h)
        then Some (ancestry_relation m id (sf_id f) h) else None | None => None end).
      { unfold relation_spec, selected_of. rewrite Hf. cbn. by rewrite Hb. }
      rewrite Hspec. destruct (decide (id ∈ _ ∧ _)) as [[Hi Ha]|Hd].
      * apply Hids in Hi as [q ->]. rewrite Ha. cbn. by rewrite lookup_insert_eq.
      * rewrite Hbase, Hold, Hspec. destruct (m !! id) eqn:Hq; [|by destruct (decide (sf_id f ∈ S))].
        destruct (any_relation _) eqn:Ha; [|by destruct (decide (sf_id f ∈ S))]. exfalso. apply Hd. split; [|done]. apply Hids. by rewrite Hq.
    + rewrite (decide_ext (s ∈ {[sf_id f]} ∪ S) (s ∈ S)) by set_solver.
      destruct (decide (id ∈ _ ∧ _)); [cbn; by rewrite lookup_insert_ne|by rewrite Hbase].
  - intros id row. rewrite Hl. destruct (decide (id ∈ _ ∧ _)); [intros [= <-]; apply insert_non_empty|].
    intros [H|[_ H]]%lookup_union_Some_raw; [|by eapply pf_nonempty].
    destruct (decide (inherited_row g f = ∅)); [by rewrite lookup_empty in H|]. by apply lookup_singleton_Some in H as [_ <-].
Qed.
End selector.

Definition with_provenance (g : FactGraph) (p : AuthorityProvenance) : FactGraph := set_indexes g (set_provenance (indexes g) p).

Lemma with_provenance_twice g p q : with_provenance (with_provenance g p) q = with_provenance g q.
Proof. done. Qed.

Lemma selector_body m id f :
  closed m → selectors_known m → m !! id = Some f → is_selector f = true →
  sf_id f = id ∧ ∃ subject cited h, fc_body (sf_content f) = AuthorityLineageResolution subject cited h ∧ is_Some (m !! h).
Proof.
  intros Hcl Hk Hf Hs. split; [by apply (Hcl id f)|]. unfold is_selector in Hs.
  destruct (fc_body (sf_content f)) as [| | | | | | | |s c h] eqn:Hb; try done. exists s, c, h. split; [done|].
  apply (Hk id). unfold selected_of. rewrite Hf. cbn. by rewrite Hb.
Qed.

Lemma elem_of_selector_ids m id : id ∈ selector_ids m ↔ ∃ f, m !! id = Some f ∧ is_selector f = true.
Proof.
  unfold selector_ids. rewrite list_elem_of_filter, elem_of_sorted_ids, elem_of_dom. split.
  - intros [Hs [f Hf]]. rewrite Hf in Hs. by exists f.
  - intros (f & Hf & Hs). rewrite Hf. split; [done|by eexists].
Qed.

(** Planning one selector of a graph whose rows are exact for some selectors. *)
Lemma plan_selector g id f S changes :
  closed (facts g) → selectors_known (facts g) → facts g !! id = Some f → is_selector f = true →
  provenance_for (facts g) S (authority_provenance (indexes g)) → planned_provenance g f = Ok changes →
  provenance_for (facts g) ({[id]} ∪ S) (authority_provenance (indexes (add_provenance g changes))).
Proof.
  intros Hcl Hk Hf Hs Hp Hplan. destruct (selector_body _ _ _ Hcl Hk Hf Hs) as (<- & s & c & h & Hb & Hh). by eapply planned_for.
Qed.

Lemma rebuild_provenance_for g S :
  closed (facts g) → selectors_known (facts g) → provenance_for (facts g) S (authority_provenance (indexes g)) →
  ∃ p S', rebuild_provenance g = with_provenance g p ∧ provenance_for (facts g) S' p.
Proof.
  intros Hcl Hk Hp0. assert (Hgen : ∀ l S p, (∀ id, id ∈ l → ∃ f, facts g !! id = Some f ∧ is_selector f = true) →
    provenance_for (facts g) S p → ∃ p' S', foldl (λ g id, match facts g !! id with
                 | Some f => match planned_provenance g f with Ok changes => add_provenance g changes | Err _ => g end
                 | None => g
                 end) (with_provenance g p) l = with_provenance g p' ∧ provenance_for (facts g) S' p').
  { induction l as [|id l IH]; intros S' p Hl Hp; [by exists p, S'|]. cbn [foldl].
    destruct (Hl id) as (f & Hf & Hs); [by left|]. change (facts (with_provenance g p)) with (facts g). rewrite Hf.
    assert (Hl' : ∀ x, x ∈ l → ∃ f, facts g !! x = Some f ∧ is_selector f = true) by (intros x Hx; apply Hl; by right).
    destruct (planned_provenance (with_provenance g p) f) as [changes|e] eqn:Hplan; [|by eapply IH].
    pose proof (plan_selector (with_provenance g p) id f S' changes Hcl Hk Hf Hs Hp Hplan) as Hp'.
    change (add_provenance (with_provenance g p) changes) with (with_provenance g (changes ∪ p)). by eapply IH. }
  unfold rebuild_provenance. destruct (Hgen (selector_ids (facts g)) S (authority_provenance (indexes g))) as (p & S' & He & Hp').
  - intros id. by apply elem_of_selector_ids.
  - done.
  - exists p, S'. split; [|done]. rewrite <- He. by destruct g as [? ? []].
Qed.

Lemma rebuild_provenance_checked_for g S l h :
  closed (facts g) → selectors_known (facts g) → provenance_for (facts g) S (authority_provenance (indexes g)) →
  (∀ id, id ∈ l → ∃ f, facts g !! id = Some f ∧ is_selector f = true) → rebuild_provenance_checked g l = Ok h →
  ∃ p, h = with_provenance g p ∧ provenance_for (facts g) (list_to_set l ∪ S) p.
Proof.
  intros Hcl Hk. revert g S Hcl Hk. induction l as [|id l IH]; intros g S Hcl Hk Hp Hl H; cbn [rebuild_provenance_checked] in H.
  { injection H as <-. exists (authority_provenance (indexes g)). split; [by destruct g as [? ? []]|]. cbn. by rewrite union_empty_l_L. }
  destruct (Hl id) as (f & Hf & Hs); [by left|]. rewrite Hf in H. apply bind_Ok_inv in H as (changes & Hplan & H).
  pose proof (plan_selector g id f S changes Hcl Hk Hf Hs Hp Hplan) as Hp'.
  destruct (IH (add_provenance g changes) _ Hcl Hk Hp') as (p & -> & Hp''); [|done|].
  - intros x Hx. apply Hl. by right.
  - exists p. split; [done|]. cbn [list_to_set]. by replace ({[id]} ∪ list_to_set l ∪ S) with (list_to_set l ∪ ({[id]} ∪ S)) by set_solver.
Qed.

Lemma provenance_for_exact m S p : provenance_for m S p → (∀ s, s ∈ selector_ids m → s ∈ S) → provenance_exact m p.
Proof.
  intros [H1 H2] HS. split; [|done]. intros id s. rewrite H1. destruct (decide (s ∈ S)) as [|Hn]; [done|]. unfold relation_spec.
  destruct (m !! id); [|done]. destruct (selected_of m s) as [h|] eqn:Hs; [|done]. exfalso. apply Hn, HS, elem_of_selector_ids.
  unfold selected_of in Hs. destruct (m !! s) as [f|]; [|done]. exists f. split; [done|]. unfold is_selector. cbn in Hs.
  by destruct (fc_body (sf_content f)).
Qed.

(** ** Scoped graphs *)
Definition dependency_closed (m : FactMap) (ids : gset FactId) : Prop :=
  ∀ id f d, id ∈ ids → m !! id = Some f → d ∈ dependencies f → d ∈ ids.

Section scope.
Context (m : FactMap) (ids : gset FactId) (Hcl : closed m) (Hids : dependency_closed m ids).
Notation m' := (filter (λ row : FactId * SignedFact, row.1 ∈ ids) m : FactMap).

Lemma lookup_scope id : m' !! id = if decide (id ∈ ids) then m !! id else None.
Proof.
  destruct (decide (id ∈ ids)).
  - destruct (m !! id) eqn:Hf; [by apply map_lookup_filter_Some|]. apply map_lookup_filter_None. by left.
  - apply map_lookup_filter_None. by right.
Qed.

Lemma closed_scope : closed m'.
Proof.
  intros id f Hf. rewrite lookup_scope in Hf. destruct (decide (id ∈ ids)) as [Hi|]; [|done]. destruct (Hcl id f Hf) as [Hid Hd].
  split; [done|]. intros d Hdep. rewrite lookup_scope, decide_True by by eapply Hids. auto.
Qed.

Lemma acyclic_scope order : (∀ id, id ∈ order ↔ is_Some (m !! id)) → topological m order → acyclic m'.
Proof.
  intros Ho Htop. exists (filter (λ id, id ∈ ids) order). split.
  - intros id. rewrite list_elem_of_filter, Ho, lookup_scope. destruct (decide (id ∈ ids)); [tauto|]. split; [tauto|by intros []].
  - intros before id after d He Hd. unfold deps_of in Hd. rewrite lookup_scope in Hd.
    assert (Hi : id ∈ ids ∧ id ∈ order). { apply (list_elem_of_filter (λ id, id ∈ ids)). rewrite He. apply elem_of_app. right. by left. }
    destruct Hi as [Hi Hio]. rewrite decide_True in Hd by done. destruct (m !! id) as [f|] eqn:Hf; [|by apply elem_of_nil in Hd].
    assert (Hsplit : ∃ l1 l2, order = l1 ++ id :: l2 ∧ before = filter (λ id, id ∈ ids) l1).
    { clear - He. revert before He. induction order as [|x o IH]; intros before He; [by destruct before|]. rewrite filter_cons in He.
      destruct (decide (x ∈ ids)).
      - destruct before as [|b before]; injection He as -> He; [by exists [], o|]. destruct (IH _ He) as (l1 & l2 & -> & ->).
        exists (b :: l1), l2. split; [done|]. by rewrite filter_cons_True.
      - destruct (IH _ He) as (l1 & l2 & -> & ->). exists (x :: l1), l2. split; [done|]. by rewrite filter_cons_False. }
    destruct Hsplit as (l1 & l2 & -> & ->). apply list_elem_of_filter. split; [by eapply Hids|].
    eapply (Htop l1 id l2); [done|]. unfold deps_of. by rewrite Hf.
Qed.

Lemma scope_selectors : selectors_cite m → selectors_known m' ∧ selectors_cite m'.
Proof.
  intros Hcite. assert (Hone : selectors_cite m').
  { intros s h Hs. unfold selected_of, deps_of in *. rewrite lookup_scope in *. destruct (decide (s ∈ ids)); [|done]. by apply (Hcite s h). }
  split; [|done]. intros s h Hs%Hone. by apply (closed_edge m' s h); [apply closed_scope|].
Qed.
End scope.

Lemma scoped_graph_exact g ids past :
  graph_exact g → dependency_closed (facts g) ids → scoped_graph g ids = Ok past → graph_exact past.
Proof.
  intros [Hcl Hver (Hnd & Hord & Htop) Hcount Hix Hsel Hcite Hprov] Hids H. unfold scoped_graph in H.
  set (m := filter _ (facts g) : FactMap) in H. unfold rebuild_indexes in H. cbn [facts] in H.
  set (scoped := mkFactGraph m (causal_order m) _ _ _ _ _ _ _ _ _ _ _ _ _ _) in H.
  assert (Hcl' : closed m) by by apply closed_scope.
  assert (Hac : acyclic m) by by eapply acyclic_scope.
  destruct (rebuild_index_maps_exact m Hcl' Hac) as [Hix' Hp0]. destruct (causal_order_spec m Hcl' Hac) as (Hnd' & Hord' & Htop').
  destruct (scope_selectors (facts g) ids Hcl Hids Hcite) as [Hk Hc].
  destruct (rebuild_provenance_for scoped ∅) as (p1 & S1 & Hr1 & Hp1); [done|done|cbn; rewrite Hp0; apply provenance_for_empty|].
  rewrite Hr1 in H. apply bind_Ok_inv in H as (rebuilt & Hr2 & H). apply bind_Ok_inv in H as (bytes & _ & H). injection H as <-.
  set (settled := with_index_bytes _ _) in Hr2.
  destruct (rebuild_provenance_checked_for settled S1 (selector_ids m) rebuilt) as (p & -> & Hp); try done.
  { intros id. by apply elem_of_selector_ids. }
  split; cbn; try done.
  - intros id f Hf. apply (Hver id). unfold m in Hf. by apply map_lookup_filter_Some in Hf as [? _].
  - destruct Hix' as [[] []]. split; split; done.
  - apply (provenance_for_exact m _ p Hp). intros s Hs. apply elem_of_union. left. by apply elem_of_list_to_set.
Qed.

Lemma dependency_closure_spec m f ids :
  closed m → (∀ d, d ∈ dependencies f → is_Some (m !! d)) → dependency_closure m f = Ok ids →
  ∀ x, x ∈ ids ↔ ∃ d, d ∈ dependencies f ∧ rtc (dep_edge m) d x.
Proof.
  intros Hcl Hdeps H. unfold dependency_closure in H. set (look := λ i : FactId, dependencies <$> m !! i) in H.
  assert (Hlook : ∀ i, default [] (look i) = deps_of m i). { intros i. unfold look, deps_of. by destruct (m !! i). }
  assert (Hedge : ∀ x y, rtc (edge (λ i, default [] (look i))) x y ↔ rtc (dep_edge m) x y).
  { intros x y. split; (induction 1 as [a|a b c Hab _ IH]; [done|eapply rtc_l; [|exact IH]]); unfold edge in *; by rewrite Hlook in *. }
  destruct (run_or_missing_known look m (reverse (dependencies f))) as (s & Hs & Hx).
  - intros i Hi. rewrite Hlook. by apply deps_of_None.
  - intros st x Hst Hr%Hedge. rewrite elem_of_reverse in Hst. unfold look. rewrite fmap_is_Some.
    apply rtc_tc in Hr as [<-|Ht]; [by apply Hdeps|]. by apply (closed_tc m st x).
  - rewrite H in Hs. injection Hs as ->. intros x. rewrite Hx. split; intros (d & Hd & Hr); exists d;
      (split; [by rewrite elem_of_reverse in *|by apply Hedge]).
Qed.

Lemma closure_closed m f ids :
  closed m → (∀ d, d ∈ dependencies f → is_Some (m !! d)) → dependency_closure m f = Ok ids → dependency_closed m ids.
Proof.
  intros Hcl Hdeps H id x d Hid Hx Hd. rewrite (dependency_closure_spec m f ids Hcl Hdeps H) in *. destruct Hid as (e & He & Hr).
  exists e. split; [done|]. eapply rtc_r; [exact Hr|]. unfold edge, deps_of. by rewrite Hx.
Qed.

Lemma causal_past_spec g f past :
  graph_exact g → (∀ d, d ∈ dependencies f → is_Some (facts g !! d)) → causal_past g f = Ok past →
  graph_exact past ∧
  (past = g ∨ ∀ id x, facts past !! id = Some x ↔
                facts g !! id = Some x ∧ ∃ d, d ∈ dependencies f ∧ rtc (dep_edge (facts g)) d id).
Proof.
  intros Hg Hdeps H.
  unfold causal_past in H. destruct (current_heads_are_complete g f); [injection H as <-; by split; [|left]|].
  apply bind_Ok_inv in H as (ids & Hids & H). destruct (_ =? _); [injection H as <-; by split; [|left]|].
  pose proof (ge_closed _ Hg) as Hcl. split; [eapply scoped_graph_exact; [done|by eapply closure_closed|done]|]. right. intros id x.
  apply scoped_frame in H as [-> _]. rewrite lookup_scope, <- (dependency_closure_spec _ _ _ Hcl Hdeps Hids).
  destruct (decide (id ∈ ids)); naive_solver.
Qed.

(** C10: The graph a candidate is judged in is exact.  For a candidate whose
    dependencies are admitted, [causal_past] of a reachable graph is either the
    live graph or holds exactly the facts the candidate transitively depends on;
    in both cases its order, head indexes, membership indexes and selector
    provenance, rebuilt by Kahn's algorithm and the two provenance passes, are the
    ones those facts determine. *)
Theorem causal_past_is_exact context roots p limits g f past :
  reachable context roots p limits g → (∀ d, d ∈ dependencies f → is_Some (facts g !! d)) → causal_past g f = Ok past →
  graph_exact past ∧
  (past = g ∨ ∀ id x, facts past !! id = Some x ↔
                facts g !! id = Some x ∧ ∃ d, d ∈ dependencies f ∧ rtc (dep_edge (facts g)) d id).
Proof. intros Hg%reachable_exact. by apply causal_past_spec. Qed.

(** Rebuilding is equivalent to incremental maintenance: rebuilding the indexes
    of all facts of a reachable graph from scratch gives the indexes and the
    selector provenance that admission maintained fact by fact, and hence the same
    projection and commitment. *)
Theorem rebuild_equals_incremental context roots p limits g rebuilt :
  reachable context roots p limits g → scoped_graph g (dom (facts g)) = Ok rebuilt →
  facts rebuilt = facts g ∧ indexes rebuilt = indexes g ∧ from_graph rebuilt = from_graph g.
Proof.
  intros Hg%reachable_exact H.
  assert (Hf : facts rebuilt = facts g).
  { apply scoped_frame in H as [-> _]. apply map_eq. intros id. rewrite lookup_scope. destruct (decide _) as [|Hn]; [done|].
    symmetry. by apply not_elem_of_dom. }
  assert (Hp : graph_exact rebuilt).
  { eapply scoped_graph_exact; [done| |done]. intros id f d _ Hid Hd. apply elem_of_dom. by apply (ge_closed _ Hg id f). }
  pose proof (exact_indexes_agree rebuilt g Hp Hg Hf). split_and!; [done..|]. by apply from_graph_agree.
Qed.
End rebuild.
