(* ===== verification/Authority.v ===== *)
(** * Authority of the admitted facts

    Every admitted fact was judged in its causal past and its author had there the
    role its body asks for: [permitted] spells that role out body by body, in terms
    of the effective roles of the author and of the device acted on.  The role rests
    on a chain of admitted role grants down to an authority root ([holds]).
    Evictions, stand-downs and resolutions carry admitted evidence.  The
    closed-session gate passes exactly the pairs in good standing. *)

From S2P Require Import Prelude Ranking Bytes Identity Content Merkle Ancestry Projection FactGraph Residency.
From S2P Require Import Evaluator Admission GraphIndex GraphProvenance GraphInv Rebuild.
Local Open Scope nat_scope.

(** ** Tiers *)
Definition tier_le (a b : Role) : bool :=
  match a, b with
  | Member, _ | Controller, (Controller | Owner) | Owner, Owner => true
  | _, _ => false
  end.

(** A floor: no graph asks a lower tier of the body ([permitted] is what one graph asks). *)
Definition least_tier (body : FactBody) : Role :=
  match body with
  | RoleGrant _ Owner => Owner
  | Attestation _ _ _ _ _ | Resolution (DecisionCell _) _ _ => Member
  | _ => Controller
  end.

(** [holds m roots d r]: [d] is a root, or the facts carry a chain of role grants from a
    root to [d], whether or not a later fact revoked one of them. *)
Inductive holds (m : FactMap) (roots : gset Device) : Device → Role → Prop :=
| holds_root d : d ∈ roots → holds m roots d Owner
| holds_grant d r tier id f :
    m !! id = Some f → fc_body (sf_content f) = RoleGrant d r → holds m roots (fc_author (sf_content f)) tier →
    tier_le (least_tier (RoleGrant d r)) tier = true → holds m roots d r.

Definition entitled (m : FactMap) (roots : gset Device) (d : Device) (least : Role) : Prop :=
  ∃ tier, holds m roots d tier ∧ tier_le least tier = true.

Definition attests_eviction (m : FactMap) (target : Device) (id : FactId) : Prop :=
  ∃ a proposal contributions, m !! id = Some a ∧
    fc_body (sf_content a) = Attestation target proposal DecideEvict (fc_author (sf_content a)) contributions.
Definition proves_eviction (m : FactMap) (device : Device) (id : FactId) : Prop :=
  ∃ p evidence, m !! id = Some p ∧ fc_body (sf_content p) = EvictionProof device evidence.

(** What admission established for a fact. *)
Definition justified (m : FactMap) (roots : gset Device) (f : SignedFact) : Prop :=
  let body := fc_body (sf_content f) in
  let author := fc_author (sf_content f) in
  match body with
  | SelfStandDown device evidence => device = author ∧ ∀ e, e ∈ evidence → proves_eviction m device e
  | EvictionProof target evidence =>
      entitled m roots author (least_tier body) ∧ ∀ e, e ∈ evidence → attests_eviction m target e
  | Resolution _ cited selected | AuthorityLineageResolution _ cited selected =>
      entitled m roots author (least_tier body) ∧ selected ∈ cited ∧ 2 ≤ length cited ∧
      ∀ h, h ∈ cited → h ∈ fc_parents (sf_content f) ∧ is_Some (m !! h)
  | _ => entitled m roots author (least_tier body)
  end.

Lemma holds_mono m m' roots d r : m ⊆ m' → holds m roots d r → holds m' roots d r.
Proof. intros Hm. induction 1; [by apply holds_root|]. eapply holds_grant; try done. by eapply lookup_weaken. Qed.

Lemma entitled_mono m m' roots d r : m ⊆ m' → entitled m roots d r → entitled m' roots d r.
Proof. intros Hm (t & Ht & Hr). exists t. split; [by eapply holds_mono|done]. Qed.

Lemma justified_mono m m' roots f : m ⊆ m' → justified m roots f → justified m' roots f.
Proof.
  intros Hm. unfold justified. pose proof (λ d r, entitled_mono m m' roots d r Hm) as He.
  destruct (fc_body (sf_content f)); try apply He; (intros [H1 H2]; split; [auto|]).
  - intros e (a & p & c & Ha & Hb)%H2. exists a, p, c. split; [by eapply lookup_weaken|done].
  - intros e (p & ev & Hp & Hb)%H2. exists p, ev. split; [by eapply lookup_weaken|done].
  - destruct H2 as (? & ? & Hc). split_and!; [done..|]. intros h [? ?]%Hc. split; [done|by eapply lookup_weaken_is_Some].
  - destruct H2 as (? & ? & Hc). split_and!; [done..|]. intros h [? ?]%Hc. split; [done|by eapply lookup_weaken_is_Some].
Qed.

Section authority.
Context {crypto : Crypto} {laws : CryptoLaws} {layout : Layout}.

(** ** The graph a candidate is judged in *)
Definition past_of (g past : FactGraph) : Prop :=
  facts past ⊆ facts g ∧ authority_roots past = authority_roots g ∧ policy past = policy g.

Lemma causal_past_of g f past : causal_past g f = Ok past → past_of g past.
Proof.
  unfold causal_past. destruct (current_heads_are_complete g f); [by intros [= ->]|]. intros H.
  apply bind_Ok_inv in H as (ids & _ & H). destruct (_ =? _); [by injection H as ->|].
  apply scoped_frame in H as (Hf & ? & ?). split_and!; [|done..]. rewrite Hf. apply map_filter_subseteq.
Qed.

(** ** Tiers and roles in such a graph *)
Lemma tier_over_least r : tier_le Controller (tier_over r) = true.
Proof. by destruct r as [[]|]. Qed.
Lemma grant_tier_least d r : grant_tier r = least_tier (RoleGrant d r).
Proof. by destruct r. Qed.
Lemma tier_le_trans a b c : tier_le a b = true → tier_le b c = true → tier_le a c = true.
Proof. by destruct a, b, c. Qed.

Lemma max_role_least l r : (∀ x, x ∈ l → tier_le Controller x = true) → max_role l = Some r → tier_le Controller r = true.
Proof.
  destruct l as [|x l]; [done|]. intros Hl [= <-]. cbn.
  assert (Hx : tier_le Controller x = true) by (apply Hl; by left).
  assert (Hr : ∀ y, y ∈ l → tier_le Controller y = true) by (intros y Hy; apply Hl; by right). clear Hl.
  revert x Hx. induction l as [|y l IH]; intros x Hx; [done|]. cbn. apply IH; [intros z Hz; apply Hr; by right|].
  by destruct x, y.
Qed.

Lemma resolution_tier_least fuel g subject cited visited :
  tier_le Controller (resolution_tier_with_visited fuel g (RoleCell subject) cited visited) = true.
Proof.
  revert cited visited. induction fuel as [|fuel IH]; intros cited visited; [apply tier_over_least|].
  cbn [resolution_tier_with_visited].
  match goal with |- tier_le _ (default _ ?o) = _ => destruct o as [r|] eqn:Hr end; [|apply tier_over_least]. cbn.
  refine (max_role_least _ _ _ Hr). intros x (head & _ & Hx)%list_elem_of_omap.
  destruct (decide (head ∈ visited)); [done|]. destruct (facts g !! head) as [f|]; [|done].
  destruct (fc_body (sf_content f)) as [t r0|t| | | | | |nested c s|]; try done; destruct (decide _) as [He|]; try done.
  - injection Hx as <-. by destruct r0.
  - destruct (causal_past g f); [|done]. injection Hx as <-. apply tier_over_least.
  - injection Hx as <-. rewrite He. apply IH.
Qed.

Lemma body_tier_least g body :
  match body with SelfStandDown _ _ => True | _ => tier_le (least_tier body) (body_tier g body) = true end.
Proof.
  destruct body as [d []| | | | | | |[] |]; cbn [least_tier body_tier]; unfold target_tier, resolution_tier;
    try apply tier_over_least; try apply resolution_tier_least; done.
Qed.

Lemma has_tier_role g signer required :
  has_tier g signer required = true → ∃ r, effective_role g signer = Some r ∧ tier_le required r = true.
Proof.
  unfold has_tier. destruct (selector_provenance_complete g signer); [|done]. cbn.
  destruct (effective_role g signer) as [r|]; [|done]. intros H. exists r. split; [done|]. by destruct r, required.
Qed.

Lemma effective_role_source g subject r :
  effective_role g subject = Some r →
  (subject ∈ authority_roots g ∧ r = Owner) ∨
  ∃ id f, facts g !! id = Some f ∧ fc_body (sf_content f) = RoleGrant subject r.
Proof.
  unfold effective_role. destruct (is_stood_down _ _); [done|]. destruct (is_conflicted _ _); [done|].
  destruct (value _ _) as [id|].
  - destruct (facts g !! id) as [f|] eqn:Hf; [|done]. cbn. unfold projected_role. intros H. right. exists id, f.
    split; [done|]. destruct (fc_body (sf_content f)); try done. destruct (decide _) as [->|]; [|done]. by injection H as ->.
  - destruct (decide _); [|done]. intros [= <-]. by left.
Qed.

(** ** What a body asks of its author in the graph it is judged in *)
Definition commands (past : FactGraph) (author : Device) : Prop :=
  effective_role past author = Some Owner ∨ effective_role past author = Some Controller.

(** An owner acts on anyone, a controller only on a member or a controller; a target
    without an effective role is an owner's to act on. *)
Definition acts_on (past : FactGraph) (author target : Device) : Prop :=
  effective_role past author = Some Owner ∨
  effective_role past author = Some Controller ∧
    (effective_role past target = Some Member ∨ effective_role past target = Some Controller).

(** The grants and revocations of the subject's role a resolution decides between:
    the cited ones, and those of the resolutions of that role it cites. *)
Inductive contends (m : FactMap) (subject : Device) : list FactId → SignedFact → Prop :=
| contends_grant h f cited r :
    h ∈ cited → m !! h = Some f → fc_body (sf_content f) = RoleGrant subject r → contends m subject cited f
| contends_revoke h f cited :
    h ∈ cited → m !! h = Some f → fc_body (sf_content f) = RoleRevoke subject → contends m subject cited f
| contends_nested h f cited nested selected x :
    h ∈ cited → m !! h = Some f → fc_body (sf_content f) = Resolution (RoleCell subject) nested selected →
    contends m subject nested x → contends m subject cited x.

(** Deciding over an owner grant, or over a revocation made where the subject was an
    owner or had no role, takes an owner; deciding over no such fact, the authority
    to act on the subject. *)
Record settles (past : FactGraph) (author subject : Device) (cited : list FactId) : Prop := {
  settles_commands : commands past author;
  settles_grants f : contends (facts past) subject cited f → fc_body (sf_content f) = RoleGrant subject Owner →
    effective_role past author = Some Owner;
  settles_revocations f before : contends (facts past) subject cited f → fc_body (sf_content f) = RoleRevoke subject →
    causal_past past f = Ok before → (effective_role before subject = Some Owner ∨ effective_role before subject = None) →
    effective_role past author = Some Owner;
  settles_nothing : (∀ f, ¬ contends (facts past) subject cited f) → acts_on past author subject;
}.

Definition permitted (past : FactGraph) (author : Device) (body : FactBody) : Prop :=
  match body with
  | RoleGrant _ Owner => effective_role past author = Some Owner
  | RoleGrant _ _ | MembershipAdmit _ => commands past author
  | RoleRevoke target | Evict target | EvictionProof target _ => acts_on past author target
  | Attestation _ _ _ _ _ => is_Some (effective_role past author)
  | SelfStandDown device _ => device = author
  | Resolution (RoleCell subject) cited _ | AuthorityLineageResolution subject cited _ => settles past author subject cited
  | Resolution (MembershipCell subject) _ _ => acts_on past author subject
  | Resolution (DecisionCell _) _ _ => is_Some (effective_role past author)
  end.

(** The evidence a body carries: attestations by devices with a role, eviction proofs
    of the author, or all the current heads of what is resolved. *)
Definition substantiated (past : FactGraph) (f : SignedFact) : Prop :=
  let parents := fc_parents (sf_content f) in
  match fc_body (sf_content f) with
  | EvictionProof target evidence => ∀ e, e ∈ evidence → ∃ a proposal contributions, facts past !! e = Some a ∧
      fc_body (sf_content a) = Attestation target proposal DecideEvict (fc_author (sf_content a)) contributions ∧
      is_Some (effective_role past (fc_author (sf_content a)))
  | SelfStandDown device evidence => ∀ e, e ∈ evidence → proves_eviction (facts past) device e
  | Resolution cell cited selected =>
      selected ∈ cited ∧ 2 ≤ length cited ∧ (∀ h, h ∈ cited → h ∈ parents ∧ is_Some (facts past !! h)) ∧
      raw_cell_heads past cell = cited
  | AuthorityLineageResolution subject cited selected =>
      selected ∈ cited ∧ 2 ≤ length cited ∧ (∀ h, h ∈ cited → h ∈ parents ∧ is_Some (facts past !! h)) ∧
      al_heads (authority_lineage past subject) = cited
  | _ => True
  end.

(** ** The tiers of the code against what they permit *)
Lemma topological_tc m order before id after x :
  topological m order → order = before ++ id :: after → tc (dep_edge m) id x → x ∈ before.
Proof.
  intros Htop He Hp. revert before after He. induction Hp as [id x Hx|id y x Hy _ IH]; intros before after He.
  - by eapply Htop.
  - assert (Hb : y ∈ before) by by eapply Htop. apply list_elem_of_split in Hb as (b1 & b2 & ->).
    apply elem_of_app. left. apply (IH b1 (b2 ++ id :: after)). by rewrite He, <- app_assoc.
Qed.

Lemma no_cycle g x : graph_exact g → ¬ tc (dep_edge (facts g)) x x.
Proof.
  intros Hg Hp. destruct (ge_order _ Hg) as (Hnd & Hord & Htop).
  destruct (closed_tc _ _ _ (ge_closed _ Hg) Hp) as [Hx _]. apply Hord, list_elem_of_split in Hx as (before & after & He).
  pose proof (topological_tc _ _ _ _ _ _ Htop He Hp) as Hb. rewrite He in Hnd. apply NoDup_app in Hnd as (_ & Hnd & _).
  apply (Hnd x Hb). by left.
Qed.

Lemma role_max_le a b : tier_le a (role_max a b) = true ∧ tier_le b (role_max a b) = true.
Proof. by destruct a, b. Qed.

Lemma max_role_le l x : x ∈ l → ∃ r, max_role l = Some r ∧ tier_le x r = true.
Proof.
  destruct l as [|y l]; [by intros ?%elem_of_nil|]. intros Hx. exists (foldl role_max y l). split; [done|].
  revert x y Hx. induction l as [|z l IH]; intros x y Hx; cbn.
  - apply list_elem_of_singleton in Hx as ->. by destruct y.
  - destruct (role_max_le y z). apply elem_of_cons in Hx as [->|[->|Hx]%elem_of_cons].
    + eapply tier_le_trans; [done|]. apply IH. by left.
    + eapply tier_le_trans; [done|]. apply IH. by left.
    + apply IH. by right.
Qed.

Lemma max_role_same l t : (∀ x, x ∈ l → x = t) → default t (max_role l) = t.
Proof.
  destruct l as [|y l]; [done|]. intros Hl. cbn. assert (y = t) as -> by (apply Hl; by left).
  assert (Hr : ∀ x, x ∈ l → x = t) by (intros x Hx; apply Hl; by right). clear Hl.
  induction l as [|z l IH]; [done|]. cbn. rewrite (Hr z) by by left.
  replace (role_max t t) with t by by destruct t. apply IH. intros x Hx. apply Hr. by right.
Qed.

(** The tier one contending fact asks for. *)
Definition contention_tier (g : FactGraph) (subject : Device) (f : SignedFact) : option Role :=
  match fc_body (sf_content f) with
  | RoleGrant _ r => Some (grant_tier r)
  | RoleRevoke _ => match causal_past g f with Ok past => Some (tier_over (effective_role past subject)) | Err _ => None end
  | _ => None
  end.

Lemma contention_le g subject cited f t :
  graph_exact g → contends (facts g) subject cited f → contention_tier g subject f = Some t →
  ∀ fuel visited, size (dom (facts g) ∖ visited) < fuel →
    (∀ v h, v ∈ visited → h ∈ cited → tc (dep_edge (facts g)) v h) →
    tier_le t (resolution_tier_with_visited fuel g (RoleCell subject) cited visited) = true.
Proof.
  intros Hg Hc Ht. induction Hc as [h f cited r Hh Hf Hb|h f cited Hh Hf Hb|h f cited nested sel x Hh Hf Hb Hc IH];
    intros fuel visited Hfuel Hvis; (destruct fuel as [|fuel]; [lia|]); cbn [resolution_tier_with_visited];
    assert (Hv : h ∉ visited) by (intros Hv; eapply no_cycle; [exact Hg|by apply (Hvis h h)]);
    match goal with |- tier_le _ (default _ (max_role ?l)) = _ =>
      enough (∃ y, y ∈ l ∧ tier_le t y = true) as (y & Hy & Hle);
        [destruct (max_role_le _ _ Hy) as (m & -> & Hm); by eapply tier_le_trans|] end.
  - unfold contention_tier in Ht. rewrite Hb in Ht. injection Ht as <-. exists (grant_tier r). split; [|by destruct r].
    apply list_elem_of_omap. exists h. split; [done|]. rewrite decide_False, Hf, Hb by done. by rewrite decide_True.
  - unfold contention_tier in Ht. rewrite Hb in Ht. exists t. split; [|by destruct t].
    apply list_elem_of_omap. exists h. split; [done|]. rewrite decide_False, Hf, Hb by done. by rewrite decide_True.
  - eexists. split.
    + apply list_elem_of_omap. exists h. split; [done|]. rewrite decide_False, Hf, Hb by done. by rewrite decide_True.
    + apply IH; [done|pose proof (visit_shrinks (facts g) h visited Hv (ex_intro _ _ Hf)); lia|].
      intros v h' Hvv Hh'. assert (He : dep_edge (facts g) h h').
      { unfold edge, deps_of. rewrite Hf. apply elem_of_dependencies. rewrite Hb. by do 2 right. }
      apply elem_of_union in Hvv as [->%elem_of_singleton|Hvv]; [by apply tc_once|].
      eapply tc_r; [by apply Hvis|done].
Qed.

Lemma no_contention fuel g subject cited visited :
  (∀ f, ¬ contends (facts g) subject cited f) →
  resolution_tier_with_visited fuel g (RoleCell subject) cited visited = target_tier g subject.
Proof.
  revert cited visited. induction fuel as [|fuel IH]; intros cited visited Hn; [done|]. cbn [resolution_tier_with_visited].
  apply max_role_same. intros x (h & Hh & Hx)%list_elem_of_omap.
  destruct (decide (h ∈ visited)); [done|]. destruct (facts g !! h) as [f|] eqn:Hf; [|done].
  destruct (fc_body (sf_content f)) as [t r| t| | | | | |nested c s|] eqn:Hb; try done; destruct (decide _) as [He|]; try done; subst.
  - by destruct (Hn f (contends_grant _ _ _ _ _ _ Hh Hf Hb)).
  - by destruct (Hn f (contends_revoke _ _ _ _ _ Hh Hf Hb)).
  - injection Hx as <-. apply IH. intros y Hy. by apply (Hn y), (contends_nested _ _ _ _ _ _ _ _ Hh Hf Hb).
Qed.

Lemma tier_acts_on g author target r :
  effective_role g author = Some r → tier_le (target_tier g target) r = true → acts_on g author target.
Proof. unfold acts_on, target_tier. intros ->. destruct (effective_role g target) as [[]|], r; naive_solver. Qed.

Lemma tier_settles g author subject cited r :
  graph_exact g → effective_role g author = Some r → tier_le (resolution_tier g (RoleCell subject) cited) r = true →
  settles g author subject cited.
Proof.
  intros Hg Hr Hle. unfold resolution_tier in Hle.
  assert (Hf : size (dom (facts g) ∖ ∅) < S (size (facts g))) by (rewrite difference_empty_L, size_dom; lia).
  assert (Hc : ∀ f, contends (facts g) subject cited f → contention_tier g subject f = Some Owner →
    effective_role g author = Some Owner).
  { intros f Hc Ht. assert (H : tier_le Owner r = true); [|by destruct r].
    eapply tier_le_trans; [|exact Hle]. by eapply (contention_le g subject cited f Owner Hg Hc Ht); [|set_solver]. }
  split.
  - pose proof (tier_le_trans _ _ _ (resolution_tier_least _ _ _ _ _) Hle). unfold commands. destruct r; naive_solver.
  - intros f Hf' Hb. apply (Hc f Hf'). unfold contention_tier. by rewrite Hb.
  - intros f before Hf' Hb Hp Ho. apply (Hc f Hf'). unfold contention_tier. rewrite Hb, Hp. by destruct Ho as [-> | ->].
  - intros Hn. rewrite no_contention in Hle by done. by eapply tier_acts_on.
Qed.

Lemma authorized_permitted g author body : graph_exact g → authorizes g author body = true → permitted g author body.
Proof.
  intros Hg Ha. destruct body as [d []| | | | | | |[]|]; cbn [authorizes permitted] in *;
    try (apply bool_decide_eq_true in Ha; done); apply has_tier_role in Ha as (r & Hr & Hle);
    unfold commands; cbn [body_tier grant_tier] in Hle; try rewrite Hr;
    try (by destruct r; naive_solver); try (by eapply tier_acts_on); try (by eapply tier_settles).
Qed.

(** ** The invariant *)
Definition all_justified (g : FactGraph) : Prop :=
  map_Forall (λ _ f, justified (facts g) (authority_roots g) f) (facts g).

Lemma role_is_held g past subject r :
  past_of g past → all_justified g → effective_role past subject = Some r → holds (facts g) (authority_roots g) subject r.
Proof.
  intros (Hsub & Hroots & _) Hall [[Hs ->]|(id & f & Hf & Hb)]%effective_role_source.
  - apply holds_root. by rewrite <- Hroots.
  - assert (Hg : facts g !! id = Some f) by by eapply lookup_weaken.
    pose proof (Hall id f Hg) as Hj. unfold justified in Hj. rewrite Hb in Hj. destruct Hj as (t & Ht & Hle).
    by eapply holds_grant.
Qed.

Lemma authorized_is_entitled g past author body :
  past_of g past → all_justified g → authorizes past author body = true →
  match body with SelfStandDown _ _ => True | _ => entitled (facts g) (authority_roots g) author (least_tier body) end.
Proof.
  intros Hp Hall Ha. pose proof (body_tier_least past body) as Hl.
  destruct body; try done; cbn [authorizes] in Ha;
    (apply has_tier_role in Ha as (r & Hr & Hle); exists r; split;
     [by eapply role_is_held|by eapply tier_le_trans]).
Qed.

Lemma cited_heads_in past f cited :
  cited_heads_known (facts past) (fc_parents (sf_content f)) cited = Ok () →
  ∀ h, h ∈ cited → h ∈ fc_parents (sf_content f) ∧ is_Some (facts past !! h).
Proof.
  induction cited as [|x l IH]; intros Hk h Hh; [by apply elem_of_nil in Hh|]. cbn in Hk.
  destruct (facts past !! x) eqn:Hx; [|done]. destruct (bool_decide _) eqn:Hd; [|done]. apply bool_decide_eq_true in Hd.
  apply elem_of_cons in Hh as [->|Hh]; [by rewrite Hx|by apply IH].
Qed.

Lemma cited_canonical_two cited : cited_canonical cited = true → 2 ≤ length cited.
Proof. unfold cited_canonical. rewrite negb_true_iff, !orb_false_iff, negb_false_iff, Nat.eqb_eq, Nat.ltb_ge. lia. Qed.

Lemma resolution_substantiated past f :
  validate_resolution past f = Ok () →
  match fc_body (sf_content f) with Resolution _ _ _ | AuthorityLineageResolution _ _ _ => substantiated past f | _ => True end.
Proof.
  unfold validate_resolution, substantiated.
  destruct (fc_body (sf_content f)) as [| | | | | | |c cited selected|s cited selected]; try done;
    (destruct (bool_decide (selected ∉ cited)) eqn:Hs; [done|]); apply bool_decide_eq_false, dec_stable in Hs;
    (destruct (cited_canonical cited) eqn:Hcan; [cbn [negb]|done]); apply cited_canonical_two in Hcan; intros H.
  - apply bind_Ok_inv in H as ([] & Hk & H). destruct (negb _); [done|].
    destruct (bool_decide (_ ≠ cited)) eqn:Hh; [done|]. apply bool_decide_eq_false, dec_stable in Hh.
    split_and!; [done..|by apply cited_heads_in|done].
  - destruct (forallb _ cited) eqn:Hk; [cbn [negb] in H|done].
    destruct (bool_decide (cited ≠ _)) eqn:Hh; [done|]. apply bool_decide_eq_false, dec_stable in Hh.
    split_and!; [done..| |done]. intros h Hin%list_elem_of_In.
    apply (proj1 (forallb_forall _ _) Hk) in Hin as [Hd Hp]%andb_true_iff. apply bool_decide_eq_true in Hd.
    split; [done|]. by destruct (facts past !! h).
Qed.

Lemma valid_attestation_inv past target e :
  valid_attestation past target e = true → ∃ a proposal contributions, facts past !! e = Some a ∧
    fc_body (sf_content a) = Attestation target proposal DecideEvict (fc_author (sf_content a)) contributions ∧
    is_Some (effective_role past (fc_author (sf_content a))).
Proof.
  unfold valid_attestation. destruct (facts past !! e) as [a|]; [|done]. cbn.
  destruct (fc_body (sf_content a)) as [| | | | | |t p [] signer cs| |] eqn:Hb; try done.
  intros [[Ht%bool_decide_eq_true Htier]%andb_true_iff Hs%bool_decide_eq_true]%andb_true_iff. subst t signer.
  apply has_tier_role in Htier as (r & Hr & _). exists a, p, cs. split_and!; [done..|by exists r].
Qed.

(** What a validated candidate established. *)
Lemma validated_inv past f :
  validate_candidate past f = Ok () →
  authorizes past (fc_author (sf_content f)) (fc_body (sf_content f)) = true ∧ substantiated past f.
Proof.
  unfold validate_candidate. intros H. apply bind_Ok_inv in H as ([] & H0 & H). apply bind_Ok_inv in H as ([] & H1 & H2).
  pose proof (resolution_substantiated past f H0) as Hres. clear H0.
  assert (Hok : authorization_error (fc_body (sf_content f)) ≠ None →
    authorizes past (fc_author (sf_content f)) (fc_body (sf_content f)) = true).
  { intros Hn. destruct (authorization_error _); [|done]. apply bind_Ok_inv in H1 as ([] & _ & H1). by destruct (authorizes _ _ _). }
  clear H1. unfold substantiated in *. destruct (fc_body (sf_content f)) as [| | | |t ev|d ev| | |] eqn:Hb;
    try (split; [by apply Hok|done]); apply bind_Ok_inv in H2 as ([] & _ & H2).
  - unfold validate_eviction_proof in H2. destruct (authorizes past _ _) eqn:Ha; [|done].
    destruct (forallb _ ev) eqn:Hev; [|done]. split; [done|]. intros e He%list_elem_of_In.
    by apply valid_attestation_inv, (proj1 (forallb_forall _ _) Hev).
  - unfold validate_self_stand_down in H2. destruct (bool_decide (d ≠ _)) eqn:Hd; [done|].
    apply bool_decide_eq_false, dec_stable in Hd. split; [by apply bool_decide_eq_true|].
    destruct (forallb _ ev) eqn:Hev; [|done]. intros e He%list_elem_of_In. apply (proj1 (forallb_forall _ _) Hev) in He.
    unfold evicts in He. destruct (facts past !! e) as [a|] eqn:Hf; [|done]. cbn in He.
    destruct (fc_body (sf_content a)) as [| | | |tt ev'| | | |] eqn:Hba; try done. apply bool_decide_eq_true in He as ->.
    by exists a, ev'.
Qed.

Lemma validated_justified g past f :
  past_of g past → all_justified g → validate_candidate past f = Ok () → justified (facts g) (authority_roots g) f.
Proof.
  intros Hp Hall [Ha Hs]%validated_inv. pose proof Hp as (Hsub & _ & _).
  assert (Hk : ∀ h, is_Some (facts past !! h) → is_Some (facts g !! h)) by (intros h Hh; by eapply lookup_weaken_is_Some).
  pose proof (authorized_is_entitled g past _ _ Hp Hall Ha) as He. unfold justified, substantiated in *.
  destruct (fc_body (sf_content f)) as [| | | |t ev|d ev| |c cited sel|s cited sel]; try exact He.
  - split; [done|]. intros e (a & p & cs & Hf & Hb & _)%Hs. exists a, p, cs. split; [by eapply lookup_weaken|done].
  - apply bool_decide_eq_true in Ha. split; [done|]. intros e (a & ev' & Hf & Hb)%Hs. exists a, ev'.
    split; [by eapply lookup_weaken|done].
  - destruct Hs as (H1 & H2 & H3 & _). split_and!; [done..|]. intros h [? ?]%H3. auto.
  - destruct Hs as (H1 & H2 & H3 & _). split_and!; [done..|]. intros h [? ?]%H3. auto.
Qed.

Lemma step_justified g g' : step g g' → all_justified g → all_justified g'.
Proof.
  intros [j f cost causal reserved h Hj Hp Hm Hc Hv Hi|j f cost reserved h a Hj _ _ H|id h o H|author cost| |] Hg; try exact Hg.
  - assert (Hj' : all_justified j) by by destruct Hj as [->| ->].
    apply insert_fact_inv in Hi as (delta & prov & bytes & _ & _ & _ & _ & _ & ->). unfold all_justified. cbn.
    assert (Hsub : facts j ⊆ <[sf_id f := f]> (facts j)) by (apply insert_subseteq; apply Hp).
    apply map_Forall_insert_2.
    + eapply justified_mono; [done|]. eapply validated_justified; [by eapply causal_past_of|done..].
    + intros id x Hx. eapply justified_mono; [done|]. by eapply Hj'.
  - apply admit_quarantined_inv in H as (_ & _ & q & r & ->). by destruct Hj as [->| ->].
  - apply remove_quarantine_frame in H as [q ->]. exact Hg.
Qed.

Lemma reachable_roots context roots p limits g :
  reachable context roots p limits g → authority_roots g = roots ∧ policy g = p ∧ context_id g = context ∧ policy_limits g = limits.
Proof.
  revert g. apply reachable_invariant; [done|].
  intros g g' [j f cost causal reserved h Hj _ _ _ _ Hi|j f cost reserved h a Hj _ _ H|id h o H|author cost| |] Hg; try exact Hg.
  - apply insert_fact_inv in Hi as (delta & prov & bytes & _ & _ & _ & _ & _ & ->). by destruct Hj as [->| ->].
  - apply admit_quarantined_inv in H as (_ & _ & q & r & ->). by destruct Hj as [->| ->].
  - apply remove_quarantine_frame in H as [q ->]. exact Hg.
Qed.

Lemma reachable_justified context roots p limits g : reachable context roots p limits g → all_justified g.
Proof. apply reachable_invariant; [apply map_Forall_empty|apply step_justified]. Qed.

(** ** The judgement of every admitted fact *)
(** [f] was judged in its causal past in a graph [live] that admission steps led to
    from [start] (with its cached projection, or after that was taken for the
    update), before [f] was admitted, and its author had there what its body asks
    for. *)
Definition judged_from (start g : FactGraph) (f : SignedFact) : Prop :=
  ∃ live judged past, rtc step start live ∧ facts live ⊆ facts g ∧ facts live !! sf_id f = None ∧
    judging live judged ∧ causal_past judged f = Ok past ∧ graph_exact past ∧
    (∀ d, d ∈ dependencies f → is_Some (facts past !! d)) ∧
    (∀ d r, effective_role past d = Some r → holds (facts live) (authority_roots live) d r) ∧
    permitted past (fc_author (sf_content f)) (fc_body (sf_content f)) ∧ substantiated past f.

Lemma judged_from_mono start g g' f : facts g ⊆ facts g' → judged_from start g f → judged_from start g' f.
Proof. intros Hs (live & j & past & H1 & H2 & H3). exists live, j, past. split_and!; [done|by etrans|apply H3..]. Qed.

(** The causal past holds the dependencies it is the past of. *)
Lemma causal_past_dependencies g f past :
  graph_exact g → (∀ d, d ∈ dependencies f → is_Some (facts g !! d)) → causal_past g f = Ok past →
  ∀ d, d ∈ dependencies f → is_Some (facts past !! d).
Proof.
  intros Hg Hdeps H d Hd. destruct (causal_past_spec g f past Hg Hdeps H) as [_ [->|Hs]]; [by apply Hdeps|].
  destruct (Hdeps d Hd) as [x Hx]. exists x. apply Hs. split; [done|]. by exists d.
Qed.

Lemma step_judged start g g' :
  step g g' → (rtc step start g ∧ graph_exact g ∧ all_justified g) ∧ map_Forall (λ _ f, judged_from start g f) (facts g) →
  (rtc step start g' ∧ graph_exact g' ∧ all_justified g') ∧ map_Forall (λ _ f, judged_from start g' f) (facts g').
Proof.
  intros Hstep [(Hr & Hg & Hjust) Hall]. split; [split_and!; [by eapply rtc_r|by eapply step_exact|by eapply step_justified]|].
  destruct Hstep as [j f cost causal reserved h Hj Hp Hm Hc Hv Hi|j f cost reserved h a Hj _ _ H|id h o H|author cost| |];
    try exact Hall.
  - pose proof (judging_exact g j Hj Hg) as Hgj. assert (Hfj : facts j = facts g) by by destruct Hj as [->| ->].
    assert (Hdeps : ∀ d, d ∈ dependencies f → is_Some (facts j !! d)).
    { apply missing_dependencies_nil. by rewrite <- (fact_cost_missing _ _ _ (pc_cost _ _ _ Hp)). }
    apply insert_fact_inv in Hi as (delta & prov & bytes & _ & _ & _ & _ & _ & ->). cbn.
    pose proof (pc_absent _ _ _ Hp) as Hnew. rewrite Hfj in *.
    assert (Hsub : facts g ⊆ <[sf_id f := f]> (facts g)) by by apply insert_subseteq.
    apply map_Forall_insert_2.
    + apply validated_inv in Hv as [Ha Hs]. destruct (causal_past_spec j f causal Hgj) as [Hex _]; [by rewrite Hfj|done|].
      exists g, j, causal. cbn. rewrite Hfj. split_and!; [done..| | |by apply authorized_permitted|done].
      * eapply causal_past_dependencies; [exact Hgj|by rewrite Hfj|done].
      * intros d r. apply role_is_held; [|done]. apply causal_past_of in Hc. by destruct Hj as [->| ->].
    + intros id x Hx. eapply judged_from_mono; [|by eapply Hall]. cbn. by rewrite Hfj.
  - apply admit_quarantined_inv in H as (_ & _ & q & r & ->). by destruct Hj as [->| ->].
  - apply remove_quarantine_frame in H as [q ->]. exact Hall.
Qed.

Lemma reachable_judged context roots p limits g :
  reachable context roots p limits g →
  map_Forall (λ _ f, judged_from (from_bootstrap context roots p limits) g f) (facts g).
Proof.
  set (start := from_bootstrap context roots p limits). intros Hr.
  apply (reachable_invariant (λ g, (rtc step start g ∧ graph_exact g ∧ all_justified g) ∧ map_Forall (λ _ f, judged_from start g f) (facts g)))
    in Hr as [_ Hr]; [done| |].
  - split; [split_and!; [done|apply from_bootstrap_exact|apply map_Forall_empty]|apply map_Forall_empty].
  - apply step_judged.
Qed.


(** ** The closed-session gate *)
(** The role in force: a root's while no fact projects to its role cell, else the one of
    the grant that projects, made by a device entitled to make it. *)
Definition role_in_force (g : FactGraph) (roots : gset Device) (d : Device) : Prop :=
  match value (projection g) (RoleCell d) with
  | None => d ∈ roots
  | Some id => ∃ f r, facts g !! id = Some f ∧ fc_body (sf_content f) = RoleGrant d r ∧
      entitled (facts g) roots (fc_author (sf_content f)) (least_tier (RoleGrant d r))
  end.

Record in_standing (g : FactGraph) (roots : gset Device) (d : Device) : Prop := {
  standing_lineage : length (al_heads (authority_lineage g d)) ≤ 1;
  standing_present : is_stood_down (projection g) d = false;
  standing_undisputed : is_conflicted (projection g) (RoleCell d) = false;
  standing_role : role_in_force g roots d;
  standing_member : effective_membership g d ≠ Some false;
}.

Lemma role_in_force_spec g d :
  all_justified g → is_stood_down (projection g) d = false → is_conflicted (projection g) (RoleCell d) = false →
  role_in_force g (authority_roots g) d ↔ is_Some (effective_role g d).
Proof.
  intros Hall Hs Hc. unfold role_in_force, effective_role. rewrite Hs, Hc. destruct (value _ _) as [id|].
  - split.
    + intros (f & r & -> & Hb & _). cbn. unfold projected_role. rewrite Hb, decide_True by done. by eexists.
    + intros [r Hr]. destruct (facts g !! id) as [f|] eqn:Hf; [|done]. cbn in Hr. unfold projected_role in Hr.
      destruct (fc_body (sf_content f)) as [t r0| | | | | | | |] eqn:Hb; try done. destruct (decide _) as [->|]; [|done].
      exists f, r0. split_and!; [done..|]. pose proof (Hall id f Hf) as Hj. unfold justified in Hj. by rewrite Hb in Hj.
  - destruct (decide _); [by split|]. split; [done|by intros []].
Qed.

Lemma in_standing_spec g d :
  all_justified g → in_standing g (authority_roots g) d ↔ is_singular (authority_lineage g d) = true ∧ role_admits g d = true.
Proof.
  intros Hall. unfold role_admits, is_singular. rewrite Nat.leb_le. split.
  - intros [H1 H2 H3 H4%role_in_force_spec H5]; [|done..]. destruct H4 as [r ->]. split; [done|].
    by destruct (effective_membership g d) as [[]|].
  - intros [H1 H2]. destruct (effective_role g d) as [r|] eqn:Hr; [|done].
    assert (Hs : is_stood_down (projection g) d = false) by (unfold effective_role in Hr; by destruct (is_stood_down _ _)).
    assert (Hc : is_conflicted (projection g) (RoleCell d) = false).
    { unfold effective_role in Hr. destruct (is_stood_down _ _); [done|]. by destruct (is_conflicted _ _). }
    split; [done..|by apply role_in_force_spec; [..|by exists r]|]. intros He. by rewrite He in H2.
Qed.

End authority.
