(* ===== verification/Bootstrap.v ===== *)
(** * Mesh bootstrap

    Models crates/myownmesh-core/src/semantic/bootstrap.rs: the record a mesh starts
    from.  The core of a basis (scope, profile, authority root, creation id) is
    digested, the mesh context commits to that digest, and the root signs the identity
    of the context together with the commitment.  A verified record fixes the policy,
    and the fact graph starts from it.  Text is UTF-8; what serde generates for the
    records is left out. *)

From S2P Require Import Prelude Ranking Bytes DeviceId Identity Content Merkle Ancestry Projection FactGraph Residency.
From S2P Require Import Evaluator Admission GraphIndex GraphProvenance GraphInv Rebuild Authority.
Local Open Scope Z_scope.

Definition BASIS_VERSION : Z := 1.
Definition CONTEXT_VERSION : Z := 1.

Definition BASIS_DOMAIN : bytes := str "myownmesh-semantic-v4-basis-core-v1".
Definition CONTEXT_DOMAIN : bytes := str "myownmesh-semantic-v4-mesh-context-v1".
Definition ROOT_PROOF_DOMAIN : bytes := str "myownmesh-semantic-v4-root-proof-v1".

Inductive ClosedProfileId : Type := SingleRootSignedMemberLogV1.
#[export] Instance profile_eq_dec : EqDecision ClosedProfileId.
Proof. solve_decision. Defined.

Definition profile_tag (p : ClosedProfileId) : string :=
  match p with SingleRootSignedMemberLogV1 => "single_root_signed_member_log_v1" end.

Record MeshContext : Type := mkContext {
  cx_version : Z;
  cx_scope : string;
  cx_profile : option ClosedProfileId;
  cx_commitment : option Bytes32;
}.

Record BasisCore : Type := mkCore {
  bc_version : Z;
  bc_scope : string;
  bc_profile : ClosedProfileId;
  bc_roots : list Device;
  bc_creation_id : Bytes32;
}.

Record GenesisBasis : Type := mkBasis {
  gb_version : Z;
  gb_scope : string;
  gb_profile : ClosedProfileId;
  gb_roots : list Device;
  gb_creation_id : Bytes32;
  gb_signatures : list string;
}.

Record BootstrapRecord : Type := mkRecord { br_context : MeshContext; br_basis : option GenesisBasis }.

Record VerifiedClosedPolicy : Type := mkClosedPolicy {
  cp_profile : ClosedProfileId;
  cp_scope : string;
  cp_commitment : Bytes32;
  cp_root : Device;
}.

Inductive ProjectPolicy : Type := ProjectOpen | ProjectClosed (p : VerifiedClosedPolicy).

Record VerifiedBootstrap : Type := mkVerified {
  vb_record : BootstrapRecord;
  vb_context_id : MeshContextId;
  vb_policy : ProjectPolicy;
}.

Inductive BootstrapError : Type :=
| EmptyField (field : string) | NonCanonicalField (field : string) | ExactlyOneAuthorityRoot
| AuthorityRootsNotCanonical | RootSignatureCount | InvalidAuthorityRoot | InvalidRootSignature (root : string)
| UnsupportedBasisVersion (v : Z) | UnsupportedContextVersion (v : Z) | OpenBasisPresent | ClosedBasisMissing
| ProfileOrScopeMismatch | BasisCommitmentMismatch | ContextCommitmentMismatch.

(** [char::is_control]: the ranges U+0000 to U+001F and U+007F to U+009F, in UTF-8. *)
Fixpoint has_control (l : list nat) : bool :=
  match l with
  | [] => false
  | a :: l' =>
      (a <? 32)%nat || (a =? 127)%nat ||
      match l' with b :: _ => (a =? 194)%nat && (128 <=? b)%nat && (b <=? 159)%nat | [] => false end || has_control l'
  end.

Definition validate_text (value field : string) : result BootstrapError () :=
  if bool_decide (value = EmptyString) then Err (EmptyField field)
  else if bool_decide (trim value ≠ value) || has_control (Ascii.nat_of_ascii <$> str value) then Err (NonCanonicalField field)
  else Ok ().

Definition context_validate (c : MeshContext) : result BootstrapError () :=
  if negb (cx_version c =? CONTEXT_VERSION) then Err (UnsupportedContextVersion (cx_version c))
  else
    validate_text (cx_scope c) "scope" ≫= λ _,
    match cx_profile c, cx_commitment c with
    | None, None => Ok ()
    | Some _, Some _ => Ok ()
    | None, Some _ => Err OpenBasisPresent
    | Some _, None => Err ClosedBasisMissing
    end.

Definition context_open (scope : string) : result BootstrapError MeshContext :=
  let context := mkContext CONTEXT_VERSION scope None None in
  context_validate context ≫= λ _, Ok context.
Definition context_closed (scope : string) (profile : ClosedProfileId) (commitment : Bytes32) : result BootstrapError MeshContext :=
  let context := mkContext CONTEXT_VERSION scope (Some profile) (Some commitment) in
  context_validate context ≫= λ _, Ok context.

(** What [canonical_bytes] writes after its validation. *)
Definition context_bytes (c : MeshContext) : bytes :=
  CONTEXT_DOMAIN ++ be_bytes 2 (cx_version c) ++ enc_text (cx_scope c) ++
  match cx_profile c with Some p => u8 1 :: enc_text (profile_tag p) | None => [u8 0] end ++
  match cx_commitment c with Some d => u8 1 :: b32 d | None => [u8 0] end.

Definition context_canonical_bytes (c : MeshContext) : result BootstrapError bytes :=
  context_validate c ≫= λ _, Ok (context_bytes c).

Definition genesis_core (b : GenesisBasis) : BasisCore :=
  mkCore (gb_version b) (gb_scope b) (gb_profile b) (gb_roots b) (gb_creation_id b).

Definition core_bytes (c : BasisCore) : bytes :=
  BASIS_DOMAIN ++ be_bytes 2 (bc_version c) ++ enc_text (bc_scope c) ++ enc_text (profile_tag (bc_profile c)) ++
  enc_list b32 (bc_roots c) ++ b32 (bc_creation_id c).

Definition root_proof_transcript (context : MeshContextId) (commitment : Bytes32) : bytes :=
  ROOT_PROOF_DOMAIN ++ b32 context ++ b32 commitment.

Section bootstrap.
Context {crypto : Crypto}.

Definition context_id_of (c : MeshContext) : result BootstrapError MeshContextId :=
  bytes ← context_canonical_bytes c; Ok (sha256 bytes).

Definition core_validate (c : BasisCore) : result BootstrapError () :=
  if negb (bc_version c =? BASIS_VERSION) then Err (UnsupportedBasisVersion (bc_version c))
  else
    validate_text (bc_scope c) "scope" ≫= λ _,
    if negb (length (bc_roots c) =? 1)%nat then Err ExactlyOneAuthorityRoot
    else if negb (sorted_unique device_spelling_cmp (bc_roots c)) then Err AuthorityRootsNotCanonical
    else Ok ().

Definition core_unsigned_bytes (c : BasisCore) : result BootstrapError bytes :=
  core_validate c ≫= λ _, Ok (core_bytes c).
Definition core_commitment (c : BasisCore) : result BootstrapError Bytes32 :=
  bytes ← core_unsigned_bytes c; Ok (sha256 bytes).

Definition validate_signature (signature : string) (root : Device) : result BootstrapError () :=
  if bool_decide (signature = EmptyString) || bool_decide (signature ≠ to_lowercase signature)
  then Err (InvalidRootSignature (spell root))
  else
    match base32_decode (to_uppercase signature) with
    | None => Err (InvalidRootSignature (spell root))
    | Some bytes =>
        if negb (length bytes =? 64)%nat || bool_decide (to_lowercase (base32_encode bytes) ≠ signature)
        then Err (InvalidRootSignature (spell root)) else Ok ()
    end.

(** The two indexings are in range: the core has one root and there is one signature. *)
Definition genesis_validate (b : GenesisBasis) : result BootstrapError () :=
  core_validate (genesis_core b) ≫= λ _,
  match gb_signatures b, gb_roots b with
  | [signature], root :: _ => validate_signature signature root
  | _, _ => Err RootSignatureCount
  end.

Definition validate_proofs (b : GenesisBasis) (context : MeshContextId) (commitment : Bytes32) : result BootstrapError () :=
  genesis_validate b ≫= λ _,
  match gb_signatures b, gb_roots b with
  | signature :: _, root :: _ =>
      match verify (spell root) (root_proof_transcript context commitment) signature with
      | Ok true => Ok ()
      | _ => Err (InvalidRootSignature (spell root))
      end
  | _, _ => Err RootSignatureCount
  end.

(** [VerifiedBootstrap::from_record], the part on a closed record. *)
Definition verify_closed (record : BootstrapRecord) (profile : ClosedProfileId) (basis : GenesisBasis) :
    result BootstrapError VerifiedBootstrap :=
  if bool_decide (gb_profile basis ≠ profile) || bool_decide (gb_scope basis ≠ cx_scope (br_context record))
  then Err ProfileOrScopeMismatch
  else
    commitment ← core_commitment (genesis_core basis);
    if bool_decide (cx_commitment (br_context record) ≠ Some commitment) then Err BasisCommitmentMismatch
    else
      expected_context ← context_closed (gb_scope basis) (gb_profile basis) commitment;
      expected ← context_id_of expected_context;
      actual ← context_id_of (br_context record);
      if bool_decide (actual ≠ expected) then Err ContextCommitmentMismatch
      else
        validate_proofs basis expected commitment ≫= λ _,
        match gb_roots basis with
        | root :: _ => Ok (mkVerified record actual (ProjectClosed (mkClosedPolicy (gb_profile basis) (gb_scope basis) commitment root)))
        | [] => Err ExactlyOneAuthorityRoot
        end.

Definition from_record (record : BootstrapRecord) : result BootstrapError VerifiedBootstrap :=
  context_validate (br_context record) ≫= λ _,
  match cx_profile (br_context record), br_basis record with
  | None, None => id ← context_id_of (br_context record); Ok (mkVerified record id ProjectOpen)
  | None, Some _ => Err OpenBasisPresent
  | Some _, None => Err ClosedBasisMissing
  | Some profile, Some basis => verify_closed record profile basis
  end.

Definition verified_validate (v : VerifiedBootstrap) : result BootstrapError () :=
  from_record (vb_record v) ≫= λ _, Ok ().

Definition bootstrap_open (scope : string) : result BootstrapError VerifiedBootstrap :=
  context ← context_open scope; from_record (mkRecord context None).

Definition create_closed (scope : string) (signing_keys : list SigningKey) (creation_id : Bytes32) :
    result BootstrapError VerifiedBootstrap :=
  match signing_keys with
  | [key] =>
      if negb (verifying_key (b32 (public_key key))) then Err InvalidAuthorityRoot
      else
        let root := public_key key in
        let profile := SingleRootSignedMemberLogV1 in
        commitment ← core_commitment (mkCore BASIS_VERSION scope profile [root] creation_id);
        context ← context_closed scope profile commitment;
        context_id ← context_id_of context;
        let signature := sign_with key (root_proof_transcript context_id commitment) in
        from_record (mkRecord context (Some (mkBasis BASIS_VERSION scope profile [root] creation_id [signature])))
  | _ => Err ExactlyOneAuthorityRoot
  end.

(** [VerifiedBootstrap::authority_roots]. *)
Definition verified_roots (v : VerifiedBootstrap) : list Device :=
  match br_basis (vb_record v) with Some b => gb_roots b | None => [] end.

(** What the fact graph reads of the policy. *)
Definition graph_policy (v : VerifiedBootstrap) : VerifiedProjectPolicy :=
  match vb_policy v with ProjectOpen => PolicyOpen | ProjectClosed _ => PolicyClosed end.

(** [FactGraph::from_bootstrap_with_policy] on a verified record. *)
Definition bootstrapped_graph (v : VerifiedBootstrap) (limits : SemanticAdmissionPolicy) : FactGraph :=
  from_bootstrap (vb_context_id v) (list_to_set (verified_roots v)) (graph_policy v) limits.

(** [MeshContextId::base32] and its [Deserialize]; every refusal is one error. *)
Definition context_text (id : MeshContextId) : string := to_lowercase (base32_encode (b32 id)).
Definition context_from_text (encoded : string) : option MeshContextId :=
  if bool_decide (encoded ≠ to_lowercase encoded) then None
  else
    bytes ← base32_decode (to_uppercase encoded);
    id ← to_bytes32 bytes;
    if bool_decide (encoded ≠ context_text id) then None else Some id.
End bootstrap.

#[global] Arguments core_bytes : simpl never.
#[global] Arguments context_bytes : simpl never.
#[global] Arguments root_proof_transcript : simpl never.
#[global] Arguments context_validate : simpl never.
#[global] Arguments context_id_of : simpl never.
#[global] Arguments validate_proofs : simpl never.
#[global] Arguments core_commitment : simpl never.

(** ** Which records are verified *)
Section verified.
Context {crypto : Crypto}.

Definition open_context (scope : string) : MeshContext := mkContext CONTEXT_VERSION scope None None.
Definition closed_core (scope : string) (profile : ClosedProfileId) (root : Device) (creation_id : Bytes32) : BasisCore :=
  mkCore BASIS_VERSION scope profile [root] creation_id.
Definition closed_context (scope : string) (profile : ClosedProfileId) (root : Device) (creation_id : Bytes32) : MeshContext :=
  mkContext CONTEXT_VERSION scope (Some profile) (Some (sha256 (core_bytes (closed_core scope profile root creation_id)))).

(** An open record is a scope; a closed one is a scope, a profile, one root and a
    creation id, committed to by the context and signed by the root. *)
Inductive verified : BootstrapRecord → VerifiedBootstrap → Prop :=
| verified_open scope (record := mkRecord (open_context scope) None) :
    validate_text scope "scope" = Ok () →
    verified record (mkVerified record (sha256 (context_bytes (open_context scope))) ProjectOpen)
| verified_closed scope profile root creation_id signature
    (commitment := sha256 (core_bytes (closed_core scope profile root creation_id)))
    (context := closed_context scope profile root creation_id)
    (record := mkRecord context (Some (mkBasis BASIS_VERSION scope profile [root] creation_id [signature]))) :
    validate_text scope "scope" = Ok () → validate_signature signature root = Ok () →
    verify (spell root) (root_proof_transcript (sha256 (context_bytes context)) commitment) signature = Ok true →
    verified record (mkVerified record (sha256 (context_bytes context)) (ProjectClosed (mkClosedPolicy profile scope commitment root))).

Lemma context_validate_closed scope profile commitment :
  validate_text scope "scope" = Ok () → context_validate (mkContext CONTEXT_VERSION scope (Some profile) (Some commitment)) = Ok ().
Proof. unfold context_validate. cbn [cx_version cx_scope cx_profile cx_commitment]. by intros ->. Qed.

Lemma context_validate_Ok c :
  context_validate c = Ok () → cx_version c = CONTEXT_VERSION ∧ validate_text (cx_scope c) "scope" = Ok ().
Proof.
  unfold context_validate. destruct (Z.eqb_spec (cx_version c) CONTEXT_VERSION); [|done]. cbn [negb].
  destruct (validate_text _ _) as [[]|]; done.
Qed.

Lemma context_id_valid c : context_validate c = Ok () → context_id_of c = Ok (sha256 (context_bytes c)).
Proof. unfold context_id_of, context_canonical_bytes. by intros ->. Qed.

Lemma core_validate_Ok c :
  core_validate c = Ok () ↔ bc_version c = BASIS_VERSION ∧ validate_text (bc_scope c) "scope" = Ok () ∧ ∃ root, bc_roots c = [root].
Proof.
  unfold core_validate. destruct (Z.eqb_spec (bc_version c) BASIS_VERSION) as [Hv|Hv]; cbn [negb].
  2: { split; [done|]. by intros [? _]. }
  destruct (validate_text _ _) as [[]|]; cbn; [|split; [done|by intros (_ & ? & _)]].
  destruct (bc_roots c) as [|root [|r rs]]; cbn; split; try done; try (by intros (_ & _ & ? & ?)). eauto.
Qed.

Lemma core_commitment_valid c : core_validate c = Ok () → core_commitment c = Ok (sha256 (core_bytes c)).
Proof. unfold core_commitment, core_unsigned_bytes. by intros ->. Qed.

Lemma core_commitment_Ok c d : core_commitment c = Ok d → core_validate c = Ok () ∧ d = sha256 (core_bytes c).
Proof. unfold core_commitment, core_unsigned_bytes. destruct (core_validate c) as [[]|]; [|done]. cbn. by intros [= <-]. Qed.

Lemma validate_proofs_Ok b context commitment root :
  gb_roots b = [root] →
  validate_proofs b context commitment = Ok () ↔
  core_validate (genesis_core b) = Ok () ∧ ∃ signature, gb_signatures b = [signature] ∧ validate_signature signature root = Ok () ∧
    verify (spell root) (root_proof_transcript context commitment) signature = Ok true.
Proof.
  intros Hr. unfold validate_proofs, genesis_validate. rewrite Hr. destruct (core_validate _) as [[]|]; cbn; [|split; [done|by intros [? _]]].
  destruct (gb_signatures b) as [|s [|s' l]]; cbn; [split; [done|by intros (_ & ? & ? & _)]| |split; [done|by intros (_ & ? & ? & _)]].
  destruct (validate_signature s root) as [[]|] eqn:Hs; cbn.
  - destruct (verify _ _ _) as [[]|] eqn:Hv; (split; [|intros (_ & ? & [= <-] & _ & ?); congruence]); try done. eauto.
  - split; [done|]. intros (_ & ? & [= <-] & ? & _). congruence.
Qed.

Lemma verify_closed_Ok record profile basis v :
  context_validate (br_context record) = Ok () → cx_profile (br_context record) = Some profile → br_basis record = Some basis →
  verify_closed record profile basis = Ok v → verified record v.
Proof.
  intros Hc Hp Hb H. unfold verify_closed in H. destruct record as [[ver scope prof comm] bas]. cbn in *. subst prof bas.
  destruct (context_validate_Ok _ Hc) as [Hver Htext]. cbn in Hver, Htext. subst ver.
  destruct (bool_decide _ || bool_decide _) eqn:Hps in H; [done|]. apply orb_false_iff in Hps as [H1%bool_decide_eq_false H2%bool_decide_eq_false].
  apply dec_stable in H1, H2. destruct basis as [bver bscope bprof roots cid sigs]. cbn in H1, H2. subst bprof bscope.
  destruct (core_commitment _) as [d|] eqn:Hd; [|done]. apply core_commitment_Ok in Hd as [Hcore ->]. cbn in H.
  pose proof Hcore as (Hbv & _ & root & Hr)%core_validate_Ok. cbn in Hbv, Hr. subst bver roots.
  destruct (bool_decide _) eqn:Hcm in H; [done|]. apply bool_decide_eq_false, dec_stable in Hcm. subst comm.
  unfold context_closed in H. rewrite Hc in H. cbn [mbind result_bind] in H. rewrite !context_id_valid in H by done. cbn in H.
  rewrite bool_decide_eq_false_2 in H by tauto. destruct (validate_proofs _ _ _) as [[]|] eqn:Hpr; [|done]. cbn in H. simplify_eq.
  apply (validate_proofs_Ok _ _ _ root) in Hpr as (_ & sig & Hs & Hvs & Hver); [|done]. cbn in Hs. subst sigs. by constructor.
Qed.

Lemma from_record_verified record v : verified record v → from_record record = Ok v.
Proof.
  intros [scope rec Ht|scope profile root cid sig commitment context rec Ht Hs Hv]; unfold from_record; cbn [br_context br_basis rec].
  - assert (context_validate (open_context scope) = Ok ()) as Hc by (unfold context_validate; cbn; by rewrite Ht).
    rewrite Hc. cbn [mbind result_bind cx_profile open_context]. by rewrite (context_id_valid _ Hc).
  - assert (context_validate context = Ok ()) as Hc by (by apply context_validate_closed).
    assert (core_validate (closed_core scope profile root cid) = Ok ()) as Hcore by (apply core_validate_Ok; cbn; eauto).
    rewrite Hc. cbn [mbind result_bind cx_profile context closed_context]. unfold verify_closed. cbn [gb_profile gb_scope br_context rec cx_scope closed_context].
    rewrite !bool_decide_eq_false_2 by tauto. cbn [orb]. change (genesis_core _) with (closed_core scope profile root cid).
    rewrite (core_commitment_valid _ Hcore). cbn [mbind result_bind]. change (cx_commitment context) with (Some commitment).
    rewrite bool_decide_eq_false_2 by tauto. unfold context_closed. fold commitment. change (mkContext _ scope (Some profile) (Some commitment)) with context.
    rewrite Hc. cbn [mbind result_bind]. rewrite (context_id_valid _ Hc). cbn [mbind result_bind]. rewrite bool_decide_eq_false_2 by tauto.
    rewrite (proj2 (validate_proofs_Ok (mkBasis BASIS_VERSION scope profile [root] cid [sig]) _ _ root eq_refl)); [done|]. split; [done|]. eauto.
Qed.

Lemma verified_iff record v : from_record record = Ok v ↔ verified record v.
Proof.
  split; [|apply from_record_verified]. intros H. unfold from_record in H. destruct (context_validate (br_context record)) as [[]|] eqn:Hc; [|done]. cbn in H.
  destruct (cx_profile (br_context record)) as [profile|] eqn:Hp, (br_basis record) as [basis|] eqn:Hb; try done; [by eapply verify_closed_Ok|].
  destruct record as [[ver scope prof comm] bas]. cbn in *. subst. rewrite (context_id_valid _ Hc) in H. cbn in H. simplify_eq.
  destruct (context_validate_Ok _ Hc) as [Hver Ht]. cbn in Hver, Ht. subst. destruct comm; [|by constructor].
  unfold context_validate in Hc. cbn in Hc. by rewrite Ht in Hc.
Qed.

(** C25: Verification accepts exactly the well-formed records, and what it returns is
    determined by them: an open record names a scope only, and a closed one names its
    scope, profile, creation id and single root, is committed to by its context, and is
    signed by that root over the context and the commitment.  What was verified once
    verifies again. *)
Theorem verification_is_exact record v :
  (from_record record = Ok v ↔ verified record v) ∧ (from_record record = Ok v → vb_record v = record ∧ verified_validate v = Ok ()).
Proof.
  split; [apply verified_iff|]. intros H. assert (vb_record v = record) as Hr by (by destruct (proj1 (verified_iff _ _) H)).
  split; [done|]. unfold verified_validate. by rewrite Hr, H.
Qed.
End verified.

(** ** The identity of a context fixes everything but the proof *)
Definition scope_fits (s : string) : Prop := fits (length (str s)).

Lemma context_bytes_inj c c' :
  cx_version c = cx_version c' → scope_fits (cx_scope c) → scope_fits (cx_scope c') → context_bytes c = context_bytes c' → c = c'.
Proof.
  destruct c as [v s p d], c' as [v' s' p' d']. cbn. intros <- Hs Hs' H. unfold context_bytes in H. cbn [cx_version cx_scope cx_profile cx_commitment] in H.
  apply app_inv_head in H. apply app_inv_head in H. apply (prefix_code (enc := enc_text)) in H as [-> H]; [|done..].
  assert (p = p' ∧ match d with Some d => u8 1 :: b32 d | None => [u8 0] end = match d' with Some d => u8 1 :: b32 d | None => [u8 0] end) as [-> Hd].
  { destruct p as [[]|], p' as [[]|]; try done; (split; [done|]).
    - apply app_inv_head in H. done.
    - by injection H. }
  destruct d as [x|], d' as [x'|]; try done. f_equal. f_equal. injection Hd. apply (inj b32).
Qed.

Lemma core_bytes_inj scope profile root cid scope' profile' root' cid' :
  scope_fits scope → scope_fits scope' →
  core_bytes (closed_core scope profile root cid) = core_bytes (closed_core scope' profile' root' cid') →
  scope = scope' ∧ root = root' ∧ cid = cid'.
Proof.
  intros Hs Hs' H. unfold core_bytes in H. cbn [closed_core bc_version bc_scope bc_profile bc_roots bc_creation_id] in H.
  apply app_inv_head in H. apply app_inv_head in H. apply (prefix_code (enc := enc_text)) in H as [-> H]; [|done..].
  destruct profile, profile'. apply app_inv_head in H. unfold enc_list in H. cbn [length fmap list_fmap concat] in H. rewrite !app_nil_r, <- !app_assoc in H.
  apply app_inv_head in H. apply app_inj_1 in H as [H1 H2]; [|by rewrite !length_b32]. split; [done|]. split; by apply (inj b32).
Qed.

Section binding.
Context {crypto : Crypto}.

(** What the verification of a record digests. *)
Definition record_messages (r : BootstrapRecord) : list bytes :=
  context_bytes (br_context r) :: match br_basis r with Some b => [core_bytes (genesis_core b)] | None => [] end.

(** C26: Two verified records with the same context identity have the same context, the
    same policy and the same roots, and their bases differ at most in the proof: as
    long as the digest does not collide on what the two verifications digest. *)
Theorem context_identity_binds_policy r1 r2 v1 v2 :
  from_record r1 = Ok v1 → from_record r2 = Ok v2 → vb_context_id v1 = vb_context_id v2 →
  scope_fits (cx_scope (br_context r1)) → scope_fits (cx_scope (br_context r2)) →
  collision_free (record_messages r1 ++ record_messages r2) →
  br_context r1 = br_context r2 ∧ genesis_core <$> br_basis r1 = genesis_core <$> br_basis r2 ∧
  vb_policy v1 = vb_policy v2 ∧ verified_roots v1 = verified_roots v2.
Proof.
  intros H1 H2 Hid Hf1 Hf2 Hcf.
  assert (br_context r1 = br_context r2) as Hctx.
  { apply context_bytes_inj; [|done|done|].
    - destruct (proj1 (verified_iff _ _) H1), (proj1 (verified_iff _ _) H2); done.
    - apply Hcf; [set_solver|set_solver|]. destruct (proj1 (verified_iff _ _) H1), (proj1 (verified_iff _ _) H2); exact Hid. }
  split; [done|].
  destruct (proj1 (verified_iff _ _) H1) as [s rec Ht|s p root cid sg cm cx rec Ht Hs Hv],
           (proj1 (verified_iff _ _) H2) as [s' rec' Ht'|s' p' root' cid' sg' cm' cx' rec' Ht' Hs' Hv']; cbn in *; simplify_eq; [done|].
  assert (core_bytes (closed_core s' p' root cid) = core_bytes (closed_core s' p' root' cid')) as Hcore.
  { apply Hcf; [set_solver|set_solver|done]. }
  apply core_bytes_inj in Hcore as (_ & -> & ->); [|done|done]. unfold verified_roots. cbn. split; [done|]. split; [|done]. done.
Qed.
End binding.

(** ** Creating a mesh *)
Lemma lower_lower a : Ascii.eqb (ascii_lower (ascii_lower a)) (ascii_lower a) = true.
Proof. by destruct a as [[] [] [] [] [] [] [] []]. Qed.

Lemma lowercase_twice s : to_lowercase (to_lowercase s) = to_lowercase s.
Proof. induction s as [|a s IH]; [done|]. cbn. fold (to_lowercase s) (to_lowercase (to_lowercase s)). rewrite IH. f_equal. by apply Ascii.eqb_eq, lower_lower. Qed.

Section creation.
Context {crypto : Crypto} {laws : CryptoLaws}.

Lemma validate_signature_signed key message root :
  base32_encode [] = EmptyString → validate_signature (sign_with key message) root = Ok ().
Proof.
  intros Hnil. unfold validate_signature, sign_with. pose proof (law_sign_length key message) as Hl. set (sig := ed25519_sign key message) in *.
  rewrite (uppercase_canonical base32_encode law_encode_alphabet), law_decode_encode, Hl.
  rewrite (bool_decide_eq_false_2 (to_lowercase (base32_encode sig) = EmptyString)).
  2: { intros H. assert (base32_encode sig = EmptyString) as He by (destruct (base32_encode sig); [done|discriminate H]).
    pose proof (law_decode_encode sig) as H1. pose proof (law_decode_encode []) as H2. rewrite He, <- Hnil in H1. rewrite H1 in H2. injection H2 as E.
    rewrite E in Hl. done. }
  rewrite bool_decide_eq_false_2; [|rewrite lowercase_twice; tauto]. cbn. by rewrite bool_decide_eq_false_2 by tauto.
Qed.

(** C27: A mesh created with one key and a canonical scope is verified: its policy is
    closed, its only root is the key's device, and the record verifies again wherever
    it is read.  A scope that is empty, untrimmed or has control characters is refused
    with the error of its check. *)
Theorem created_bootstrap_verifies scope key creation_id :
  base32_encode [] = EmptyString →
  match validate_text scope "scope" with
  | Ok _ => ∃ v, create_closed scope [key] creation_id = Ok v ∧ from_record (vb_record v) = Ok v ∧
      verified_roots v = [public_key key] ∧
      vb_policy v = ProjectClosed (mkClosedPolicy SingleRootSignedMemberLogV1 scope
        (sha256 (core_bytes (closed_core scope SingleRootSignedMemberLogV1 (public_key key) creation_id))) (public_key key))
  | Err e => create_closed scope [key] creation_id = Err e
  end.
Proof.
  intros Hnil. unfold create_closed. rewrite law_public_key. cbn [negb].
  change (mkCore BASIS_VERSION scope SingleRootSignedMemberLogV1 [public_key key] creation_id)
    with (closed_core scope SingleRootSignedMemberLogV1 (public_key key) creation_id).
  destruct (validate_text scope "scope") as [[]|e] eqn:Ht.
  - assert (core_validate (closed_core scope SingleRootSignedMemberLogV1 (public_key key) creation_id) = Ok ()) as Hcore by (apply core_validate_Ok; cbn; eauto).
    rewrite (core_commitment_valid _ Hcore). cbn [mbind result_bind]. unfold context_closed.
    rewrite context_validate_closed by done. cbn [mbind result_bind]. rewrite context_id_valid by (by apply context_validate_closed). cbn [mbind result_bind].
    eexists. split; [apply verified_iff, verified_closed; [done|by apply validate_signature_signed|apply verify_signed]|].
    split; [|done]. apply verified_iff. constructor; [done|by apply validate_signature_signed|apply verify_signed].
  - unfold core_commitment, core_unsigned_bytes, core_validate. cbn. by rewrite Ht.
Qed.

(** The textual form of a context identity reads back, and only the canonical form is
    read. *)
Theorem context_text_roundtrip id encoded :
  context_from_text (context_text id) = Some id ∧ (context_from_text encoded = Some id → encoded = context_text id).
Proof.
  split.
  - unfold context_from_text. rewrite bool_decide_eq_false_2 by (unfold context_text; rewrite lowercase_twice; tauto).
    assert (base32_decode (to_uppercase (context_text id)) = Some (b32 id)) as ->.
    { unfold context_text. by rewrite (uppercase_canonical base32_encode law_encode_alphabet), law_decode_encode. }
    cbn. rewrite to_bytes32_b32. cbn.
    by rewrite bool_decide_eq_false_2 by tauto.
  - unfold context_from_text. intros H. case_bool_decide; [done|]. destruct (base32_decode _) as [b|]; [|done]. cbn in H.
    destruct (to_bytes32 b) as [x|]; [|done]. cbn in H. case_bool_decide as He; [done|]. by simplify_eq.
Qed.
End creation.

(** ** The graph of a closed mesh rests on the root that signed it *)
Section rest.
Context {crypto : Crypto} {laws : CryptoLaws} {layout : Layout}.

(** C28: Every fact admitted to a graph that started from a verified closed record is
    justified from the one root of that record, which signed the context of the graph
    together with the commitment to the record's scope, profile and creation id. *)
Theorem closed_graph_rests_on_signed_root record v policy limits g id f :
  from_record record = Ok v → vb_policy v = ProjectClosed policy →
  reachable (vb_context_id v) (list_to_set (verified_roots v)) (graph_policy v) limits g → facts g !! id = Some f →
  ∃ signature, verified_roots v = [cp_root policy] ∧ context_id g = vb_context_id v ∧
    verify (spell (cp_root policy)) (root_proof_transcript (context_id g) (cp_commitment policy)) signature = Ok true ∧
    justified (facts g) {[cp_root policy]} f.
Proof.
  intros Hv Hp Hr Hf. destruct (proj1 (verified_iff _ _) Hv) as [s rec Ht|s p root cid sg cm cx rec Ht Hs Hver]; [done|].
  cbn [vb_policy] in Hp. injection Hp as <-.
  assert (list_to_set (verified_roots (mkVerified rec (sha256 (context_bytes cx)) (ProjectClosed (mkClosedPolicy p s cm root)))) =
    ({[root]} : gset Device)) as Hset by (cbn; set_solver).
  rewrite Hset in Hr. destruct (reachable_roots _ _ _ _ _ Hr) as (Hroots & _ & Hctx & _). exists sg. split; [done|]. split; [done|]. rewrite Hctx.
  split; [done|]. cbn [cp_root]. rewrite <- Hroots. exact (reachable_justified _ _ _ _ _ Hr id f Hf).
Qed.
End rest.
