(* ===== verification/QuarantineInv.v ===== *)
(** * Quarantine bookkeeping

    In every reachable graph the quarantine tables agree: a waiter's missing row is
    exactly the dependencies that are not admitted, the waiting rows are the
    inverse of the missing rows, and the ready set is exactly the waiters with
    nothing missing.  A journaled admission leaves no ready waiter behind, and its
    retry loop always has rounds left. *)

From S2P Require Import Prelude Ranking Bytes Identity Content Merkle Ancestry Projection FactGraph Residency.
From S2P Require Import Evaluator Admission GraphIndex GraphProvenance GraphInv.
Local Open Scope nat_scope.

Section bookkeeping.
Context {crypto : Crypto} {layout : Layout}.

Definition waits_for (q : Quarantine) (id d : FactId) : Prop :=
  ∃ l, quarantine_missing q !! id = Some l ∧ d ∈ l.

Record quarantine_exact (m : FactMap) (q : Quarantine) : Prop := {
  qe_new : ∀ id f, quarantined q !! id = Some f → sf_id f = id ∧ m !! id = None ∧ verify_fact f = Ok ();
  qe_missing : ∀ id, match quarantined q !! id, quarantine_missing q !! id with
                     | Some f, Some l => increasing b32_cmp l ∧ ∀ d, d ∈ l ↔ d ∈ dependencies f ∧ m !! d = None
                     | None, None => True
                     | _, _ => False
                     end;
  qe_waiting : ∀ d, match waiting_by_dependency q !! d with
                    | Some w => w ≠ [] ∧ increasing b32_cmp w ∧ ∀ id, id ∈ w ↔ waits_for q id d
                    | None => ∀ id, ¬ waits_for q id d
                    end;
  qe_ready : increasing b32_cmp (ready_quarantine q) ∧
             ∀ id, id ∈ ready_quarantine q ↔ quarantine_missing q !! id = Some [];
}.

Lemma empty_quarantine_exact m : quarantine_exact m empty_quarantine.
Proof.
  split; cbn.
  - intros id f. by rewrite lookup_empty.
  - intros id. by rewrite !lookup_empty.
  - intros d. rewrite lookup_empty. intros id (l & Hl & _). cbn in Hl. by rewrite lookup_empty in Hl.
  - split; [constructor|]. intros id. rewrite lookup_empty. split; [by intros ?%elem_of_nil|done].
Qed.

(** *** Waking the waiters of an admitted dependency *)
Lemma wake_waiters d ws missing ready :
  NoDup ws →
  let r := foldl (wake_waiter d) (missing, ready) ws in
  (∀ id, r.1 !! id = if decide (id ∈ ws) then filter (λ x, x ≠ d) <$> missing !! id else missing !! id) ∧
  (∀ id, id ∈ r.2 ↔ id ∈ ready ∨ (id ∈ ws ∧ filter (λ x, x ≠ d) <$> missing !! id = Some [])) ∧
  (increasing b32_cmp ready → increasing b32_cmp r.2).
Proof.
  intros Hnd. revert missing ready. induction Hnd as [|w ws Hw Hnd IH]; intros missing ready; cbn zeta; cbn [foldl].
  { split_and!; [intros id; by rewrite decide_False by apply not_elem_of_nil| |done]. intros id. rewrite elem_of_nil. tauto. }
  remember (wake_waiter d (missing, ready) w) as acc eqn:Hacc. unfold wake_waiter in Hacc. cbn [fst snd] in Hacc.
  destruct (missing !! w) as [l|] eqn:Hl; rewrite Hacc; clear Hacc acc.
  2:{ destruct (IH missing ready) as (H1 & H2 & H3). split_and!; [| |done].
      - intros id. rewrite H1. destruct (decide (id = w)) as [->|Hne]; [rewrite Hl; by destruct (decide _), (decide _)|].
        destruct (decide (id ∈ ws)); [by rewrite decide_True by by right|]. rewrite decide_False; [done|].
        by intros [?|?]%elem_of_cons.
      - intros id. rewrite H2, elem_of_cons. split; [tauto|]. intros [?|[[->|?] Hf]]; [tauto|by rewrite Hl in Hf|tauto]. }
  set (l' := filter (λ x, x ≠ d) l).
  destruct (IH (<[w := l']> missing) (match l' with [] => set_insert b32_cmp w ready | _ => ready end)) as (H1 & H2 & H3).
  split_and!.
  - intros id. rewrite H1. destruct (decide (id = w)) as [->|Hne].
    + rewrite decide_False by done. rewrite lookup_insert_eq, decide_True by by left. by rewrite Hl.
    + rewrite lookup_insert_ne by done. destruct (decide (id ∈ ws)); [by rewrite decide_True by by right|].
      rewrite decide_False; [done|]. by intros [?|?]%elem_of_cons.
  - intros id. rewrite H2. destruct (decide (id = w)) as [->|Hne].
    + rewrite lookup_insert_eq, Hl. cbn. fold l'. rewrite elem_of_cons. destruct l' eqn:El'; cbn.
      * rewrite elem_of_set_insert by apply _. naive_solver.
      * split; [intros [?|[? _]]; [by left|done]|]. intros [?|[_ ?]]; [by left|done].
    + rewrite lookup_insert_ne, elem_of_cons by done. destruct l'; [rewrite elem_of_set_insert by apply _|]; naive_solver.
  - intros Hi. apply H3. destruct l'; [by apply set_insert_increasing; [apply _|]|done].
Qed.

Lemma filter_notin (d : FactId) (l : list FactId) : d ∉ l → filter (λ x, x ≠ d) l = l.
Proof.
  intros Hd. induction l as [|x l IH]; [done|]. rewrite filter_cons_True by (intros ->; apply Hd; by left).
  f_equal. apply IH. intros ?. apply Hd. by right.
Qed.

Lemma wake_rows m q d :
  quarantine_exact m q →
  (∀ id, quarantine_missing (wake_dependency q d) !! id = filter (λ x, x ≠ d) <$> quarantine_missing q !! id) ∧
  increasing b32_cmp (ready_quarantine (wake_dependency q d)) ∧
  (∀ id, id ∈ ready_quarantine (wake_dependency q d) ↔ quarantine_missing (wake_dependency q d) !! id = Some []).
Proof.
  intros [_ _ Hw [Hri Hr]]. specialize (Hw d). unfold wake_dependency. destruct (waiting_by_dependency q !! d) as [ws|].
  - destruct Hw as (_ & Hinc & Hws).
    destruct (wake_waiters d ws (quarantine_missing q) (ready_quarantine q)) as (H1 & H2 & H3); [by apply (increasing_NoDup b32_cmp)|].
    destruct (foldl _ _ ws) as [missing ready]. cbn in *.
    assert (Hrow : ∀ id, missing !! id = filter (λ x, x ≠ d) <$> quarantine_missing q !! id).
    { intros id. rewrite H1. destruct (decide (id ∈ ws)) as [|Hn]; [done|].
      destruct (quarantine_missing q !! id) as [l|] eqn:Hl; [|done]. cbn. rewrite filter_notin; [done|].
      intros Hd. apply Hn, Hws. by exists l. }
    split_and!; [done|auto|]. intros id. rewrite H2, Hrow, Hr. split.
    + intros [->|[_ ?]]; done.
    + intros Hf. destruct (decide (id ∈ ws)) as [|Hn]; [by right|]. left.
      specialize (H1 id). rewrite decide_False in H1 by done. rewrite <- H1, Hrow. done.
  - assert (Hrow : ∀ id, quarantine_missing q !! id = filter (λ x, x ≠ d) <$> quarantine_missing q !! id).
    { intros id. destruct (quarantine_missing q !! id) as [l|] eqn:Hl; [|done]. cbn. rewrite filter_notin; [done|].
      intros Hd. apply (Hw id). by exists l. }
    done.
Qed.

Lemma wake_other q d :
  quarantined (wake_dependency q d) = quarantined q ∧
  waiting_by_dependency (wake_dependency q d) = delete d (waiting_by_dependency q).
Proof.
  unfold wake_dependency. destruct (waiting_by_dependency q !! d) eqn:Hw; [by destruct (foldl _ _ _)|].
  by rewrite delete_id.
Qed.

Lemma wake_exact m q d f :
  quarantine_exact m q → m !! d = None → quarantined q !! d = None →
  quarantine_exact (<[d := f]> m) (wake_dependency q d).
Proof.
  intros Hq Hnew Hqd. destruct (wake_rows m q d Hq) as (Hrow & Hri & Hr). destruct (wake_other q d) as [Hqq Hww].
  destruct Hq as [H1 H2 H3 _]. split; [| | |by split].
  - rewrite Hqq. intros id x Hx. destruct (H1 id x Hx) as (? & ? & ?). split_and!; [done| |done].
    rewrite lookup_insert_ne; [done|]. intros ->. congruence.
  - intros id. rewrite Hqq, Hrow. specialize (H2 id). destruct (quarantined q !! id) as [x|], (quarantine_missing q !! id) as [l|]; try done.
    cbn. destruct H2 as [Hinc Hl]. split; [by apply increasing_filter|]. intros e. rewrite list_elem_of_filter, Hl.
    destruct (decide (e = d)) as [->|]; [rewrite lookup_insert_eq; naive_solver|]. rewrite lookup_insert_ne by done. naive_solver.
  - intros e. rewrite Hww. specialize (H3 e).
    assert (Hwf : ∀ id, waits_for (wake_dependency q d) id e ↔ e ≠ d ∧ waits_for q id e).
    { intros id. unfold waits_for. rewrite Hrow. destruct (quarantine_missing q !! id) as [l|]; [|naive_solver]. cbn. split.
      - intros (l' & [= <-] & [? ?]%list_elem_of_filter). split; [done|by exists l].
      - intros (? & l' & [= <-] & ?). eexists. split; [done|]. by apply list_elem_of_filter. }
    destruct (decide (e = d)) as [->|Hne].
    + rewrite lookup_delete_eq. intros id. rewrite Hwf. naive_solver.
    + rewrite lookup_delete_ne by done. destruct (waiting_by_dependency q !! e) as [w|].
      * destruct H3 as (? & ? & Hw). split_and!; [done..|]. intros id. rewrite Hw, Hwf. naive_solver.
      * intros id. rewrite Hwf. intros [_ ?]. by eapply H3.
Qed.

(** *** A new waiter *)
Lemma add_exact m q f l b e a :
  quarantine_exact m q → m !! sf_id f = None → quarantined q !! sf_id f = None → verify_fact f = Ok () →
  increasing b32_cmp l → l ≠ [] → (∀ d, d ∈ l ↔ d ∈ dependencies f ∧ m !! d = None) →
  quarantine_exact m (mkQuarantine (<[sf_id f := f]> (quarantined q)) (<[sf_id f := l]> (quarantine_missing q))
    (foldl (λ w d, index_insert w (sf_id f) d) (waiting_by_dependency q) l) (ready_quarantine q) b e a).
Proof.
  intros [H1 H2 H3 [Hri Hr]] Hnew Hq Hv Hinc Hne Hl.
  assert (Hmiss : quarantine_missing q !! sf_id f = None).
  { specialize (H2 (sf_id f)). rewrite Hq in H2. by destruct (quarantine_missing q !! sf_id f). }
  split; cbn.
  - intros id x Hx. destruct (decide (id = sf_id f)) as [->|]; [rewrite lookup_insert_eq in Hx; by injection Hx as <-|].
    rewrite lookup_insert_ne in Hx by done. by apply H1.
  - intros id. destruct (decide (id = sf_id f)) as [->|]; [by rewrite !lookup_insert_eq|]. rewrite !lookup_insert_ne by done. apply H2.
  - intros d. unfold index_insert. rewrite (lookup_foldl_rows (λ w, set_insert b32_cmp (sf_id f) w)) by by apply (increasing_NoDup b32_cmp).
    assert (Hw : ∀ id, waits_for (mkQuarantine (<[sf_id f := f]> (quarantined q)) (<[sf_id f := l]> (quarantine_missing q))
      (foldl (λ w d, index_insert w (sf_id f) d) (waiting_by_dependency q) l) (ready_quarantine q) b e a) id d ↔
      (id = sf_id f ∧ d ∈ l) ∨ waits_for q id d).
    { intros id. unfold waits_for. cbn. destruct (decide (id = sf_id f)) as [->|]; [rewrite lookup_insert_eq|rewrite lookup_insert_ne by done].
      - rewrite Hmiss. naive_solver.
      - naive_solver. }
    specialize (H3 d). destruct (decide (d ∈ l)) as [Hd|Hd].
    + split_and!.
      * intros Hnil. assert (Hin : sf_id f ∈ set_insert b32_cmp (sf_id f) (default [] (waiting_by_dependency q !! d))).
        { apply elem_of_set_insert; [apply _|]. by left. } rewrite Hnil in Hin. by apply elem_of_nil in Hin.
      * apply set_insert_increasing; [apply _|]. destruct (waiting_by_dependency q !! d); [apply H3|constructor].
      * intros id. rewrite elem_of_set_insert, Hw by apply _. destruct (waiting_by_dependency q !! d) as [w|]; cbn.
        -- destruct H3 as (_ & _ & ->). tauto.
        -- rewrite elem_of_nil. specialize (H3 id). tauto.
    + destruct (waiting_by_dependency q !! d) as [w|].
      * destruct H3 as (? & ? & Hws). split_and!; [done..|]. intros id. rewrite Hws, Hw. tauto.
      * intros id. rewrite Hw. specialize (H3 id). tauto.
  - split; [done|]. intros id. rewrite Hr. destruct (decide (id = sf_id f)) as [->|]; [rewrite lookup_insert_eq, Hmiss|by rewrite lookup_insert_ne].
    split; [done|]. intros [= ?]. done.
Qed.

(** *** Removing a waiter *)
Lemma remove_waiters id l waiting d :
  NoDup l →
  foldl (remove_waiter id) waiting l !! d =
  if decide (d ∈ l) then match filter (λ w, w ≠ id) (default [] (waiting !! d)) with [] => None | w => Some w end
  else waiting !! d.
Proof.
  intros Hnd. revert waiting. induction Hnd as [|x l Hx Hnd IH]; intros waiting; cbn [foldl].
  { by rewrite decide_False by apply not_elem_of_nil. }
  rewrite IH. assert (Hstep : ∀ e, remove_waiter id waiting x !! e =
    if decide (e = x) then match filter (λ w, w ≠ id) (default [] (waiting !! x)) with [] => None | w => Some w end else waiting !! e).
  { intros e. unfold remove_waiter. destruct (waiting !! x) as [w|] eqn:Hw; cbn.
    - destruct (filter _ w); destruct (decide (e = x)) as [->|]; by simplify_map_eq.
    - destruct (decide (e = x)) as [->|]; [by rewrite Hw|done]. }
  rewrite Hstep. destruct (decide (d = x)) as [->|Hne].
  - rewrite decide_False by done. by rewrite decide_True by left.
  - destruct (decide (d ∈ l)); [by rewrite decide_True by by right|]. rewrite decide_False; [done|]. by intros [?|?]%elem_of_cons.
Qed.

Lemma remove_exact m q id f b e a :
  quarantine_exact m q → quarantined q !! id = Some f →
  quarantine_exact m (mkQuarantine (delete id (quarantined q)) (delete id (quarantine_missing q))
    (foldl (remove_waiter id) (waiting_by_dependency q) (default [] (quarantine_missing q !! id)))
    (filter (λ w, w ≠ id) (ready_quarantine q)) b e a).
Proof.
  intros [H1 H2 H3 [Hri Hr]] Hf. pose proof (H2 id) as Hid. rewrite Hf in Hid.
  destruct (quarantine_missing q !! id) as [l|] eqn:Hl; [|done]. destruct Hid as [Hinc Hmem]. change (default [] (Some l)) with l. split; cbn.
  - intros x y [_ Hy]%lookup_delete_Some. by apply H1.
  - intros x. destruct (decide (x = id)) as [->|]; [by rewrite !lookup_delete_eq|]. rewrite !lookup_delete_ne by done. apply H2.
  - intros d. rewrite remove_waiters by by apply (increasing_NoDup b32_cmp).
    set (q' := mkQuarantine _ _ _ _ _ _ _).
    assert (Hw : ∀ x, waits_for q' x d ↔ x ≠ id ∧ waits_for q x d).
    { intros x. unfold waits_for, q'. cbn. destruct (decide (x = id)) as [->|]; [rewrite lookup_delete_eq|rewrite lookup_delete_ne by done]; naive_solver. }
    specialize (H3 d). destruct (decide (d ∈ l)) as [Hd|Hd].
    + destruct (waiting_by_dependency q !! d) as [w|]; [|exfalso; apply (H3 id); by exists l]. change (default [] (Some w)) with w.
      destruct H3 as (_ & Hwi & Hws). destruct (filter (λ x, x ≠ id) w) as [|y w'] eqn:Hfil.
      * intros x. rewrite Hw, <- Hws. intros Hx. assert (Hin : x ∈ filter (λ x, x ≠ id) w) by by apply list_elem_of_filter.
        rewrite Hfil in Hin. by apply elem_of_nil in Hin.
      * rewrite <- Hfil. split_and!; [by rewrite Hfil|by apply increasing_filter|]. intros x. by rewrite list_elem_of_filter, Hw, Hws.
    + assert (Hni : ∀ x, waits_for q x d → x ≠ id). { intros x (l' & Hl' & Hd') ->. congruence. }
      destruct (waiting_by_dependency q !! d) as [w|].
      * destruct H3 as (? & ? & Hws). split_and!; [done..|]. intros x. rewrite Hws, Hw. naive_solver.
      * intros x. rewrite Hw. naive_solver.
  - split; [by apply increasing_filter|]. intros x. rewrite list_elem_of_filter, Hr.
    destruct (decide (x = id)) as [->|]; [rewrite lookup_delete_eq|rewrite lookup_delete_ne by done]; naive_solver.
Qed.

(** ** Every step keeps the tables exact *)
Notation exact g := (quarantine_exact (facts g) (quarantine g)).

Lemma missing_no_row m q id : quarantine_exact m q → quarantined q !! id = None → quarantine_missing q !! id = None.
Proof. intros [_ H _ _] Hq. specialize (H id). rewrite Hq in H. by destruct (quarantine_missing q !! id). Qed.

Lemma remove_quarantine_inv g id g' removed :
  exact g → remove_quarantine g id = Ok (g', removed) →
  exact g' ∧ facts g' = facts g ∧ quarantined (quarantine g') = delete id (quarantined (quarantine g)) ∧
  quarantine_missing (quarantine g') = delete id (quarantine_missing (quarantine g)) ∧
  removed = quarantined (quarantine g) !! id.
Proof.
  unfold remove_quarantine. intros Hq H. cbn [quarantined remove_ready] in H.
  destruct (quarantined (quarantine g) !! id) as [f|] eqn:Hf.
  - apply bind_Ok_inv in H as (cost & _ & H). injection H as <- <-. split_and!; try done. by apply (remove_exact _ _ _ f).
  - injection H as <- <-. pose proof (missing_no_row _ _ _ Hq Hf) as Hm. cbn. rewrite !delete_id by done. split_and!; try done.
    destruct Hq as [H1 H2 H3 [Hri Hr]]. split; try done. cbn. rewrite filter_notin; [done|]. rewrite Hr. congruence.
Qed.

Lemma insert_fact_tables g f cost reserved previous g' :
  exact g → facts g !! sf_id f = None → quarantined (quarantine g) !! sf_id f = None →
  insert_fact g f cost reserved previous = Ok g' →
  exact g' ∧ facts g' = <[sf_id f := f]> (facts g) ∧ quarantined (quarantine g') = quarantined (quarantine g) ∧
  ∀ id, quarantine_missing (quarantine g') !! id = filter (λ x, x ≠ sf_id f) <$> quarantine_missing (quarantine g) !! id.
Proof.
  intros Hq Hnew Hnq H. apply insert_fact_inv in H as (delta & prov & bytes & _ & _ & _ & _ & _ & ->). cbn.
  split_and!; [by apply wake_exact|done|apply wake_other|]. by apply (wake_rows (facts g)).
Qed.

Lemma admit_quarantined_tables g f cost reserved g' a :
  exact g → prechecked g f cost → missing cost ≠ [] → admit_quarantined g f cost reserved = Ok (g', a) → exact g'.
Proof.
  intros Hq [Hv _ _ Hnew Hnq Hcost] Hm H. apply fact_cost_missing in Hcost.
  unfold admit_quarantined in H. destruct (is_authorized_signer _ _); [|done]. cbn [negb] in H.
  apply bind_Ok_inv in H as ([] & _ & H). injection H as <- _. cbn.
  apply add_exact; [done..|apply btree_set_increasing, _| |].
  - intros Hnil. apply Hm. destruct (missing cost) as [|x l]; [done|]. exfalso.
    assert (Hx : x ∈ btree_set b32_cmp (x :: l)) by (apply elem_of_btree_set; [apply _|by left]).
    rewrite Hnil in Hx. by apply elem_of_nil in Hx.
  - intros d. rewrite elem_of_btree_set by apply _. rewrite Hcost. unfold missing_dependencies. rewrite list_elem_of_filter. tauto.
Qed.

Lemma step_tables g g' : step g g' → exact g → exact g'.
Proof.
  intros [j f cost causal reserved h Hj Hp Hm _ _ Hi|j f cost reserved h a Hj Hp Hm H|id h o H|author cost| |] Hq; try exact Hq.
  - assert (Hqj : exact j) by by destruct Hj as [->| ->]. destruct Hp as [_ _ _ Hnew Hnq _].
    by apply (insert_fact_tables _ _ _ _ _ _ Hqj Hnew Hnq) in Hi as [? _].
  - assert (Hqj : exact j) by by destruct Hj as [->| ->]. by eapply admit_quarantined_tables.
  - by apply (remove_quarantine_inv _ _ _ _ Hq) in H as [? _].
Qed.

Lemma reachable_tables context roots p limits g : reachable context roots p limits g → exact g.
Proof. apply (reachable_invariant (λ g, exact g)); [apply empty_quarantine_exact|apply step_tables]. Qed.

(** C14: In every reachable graph the quarantine tables agree with each other and with
    the admitted facts: no quarantined fact is admitted, a waiter's missing row is
    exactly its dependencies that are not admitted, [waiting_by_dependency] is the
    inverse of the missing rows with no empty row, and the ready set is exactly the
    waiters with nothing missing. *)
Theorem reachable_quarantine_is_exact context roots p limits g :
  reachable context roots p limits g → quarantine_exact (facts g) (quarantine g).
Proof. apply reachable_tables. Qed.

(** ** Retrying ready waiters *)
(** Not quarantined, or waiting for nothing. *)
Definition settled (g : FactGraph) (id : FactId) : Prop :=
  quarantined (quarantine g) !! id = None ∨ quarantine_missing (quarantine g) !! id = Some [].

Lemma settled_complete g id f d :
  exact g → settled g id → quarantined (quarantine g) !! id = Some f → d ∈ dependencies f → is_Some (facts g !! d).
Proof.
  intros Hq [?|Hm] Hf Hd; [congruence|]. pose proof (qe_missing _ _ Hq id) as H. rewrite Hf, Hm in H. destruct H as [_ H].
  destruct (facts g !! d) eqn:He; [by eexists|]. exfalso. apply (not_elem_of_nil d), H. done.
Qed.

Lemma retry_waiter_drains g id g' b :
  exact g → settled g id → retry_waiter g id = Ok (g', b) →
  exact g' ∧ quarantined (quarantine g') = delete id (quarantined (quarantine g)) ∧ (∀ x, settled g x → settled g' x) ∧
  b = bool_decide (is_Some (quarantined (quarantine g) !! id)) ∧
  (facts g' = facts g ∨ ∃ f, quarantined (quarantine g) !! id = Some f ∧ facts g' = <[id := f]> (facts g)).
Proof.
  intros Hq Hs H. unfold retry_waiter in H. apply bind_Ok_inv in H as ([g1 o] & Hr & H).
  apply (remove_quarantine_inv _ _ _ _ Hq) in Hr as (Hq1 & Hf1 & Hqq & Hmm & ->).
  assert (Hset : ∀ x, settled g x → settled g1 x).
  { intros x Hx. unfold settled. rewrite Hqq, Hmm. destruct (decide (x = id)) as [->|]; [rewrite lookup_delete_eq; by left|].
    rewrite !lookup_delete_ne by done. exact Hx. }
  destruct (quarantined (quarantine g) !! id) as [f|] eqn:Hf; [|injection H as <- <-; split_and!; [done..|by left]].
  rewrite bool_decide_eq_true_2 by by eexists.
  apply bind_Ok_inv in H as (c & _ & H). destruct (admit_inner g1 f true None None) as [[g2 a]|e] eqn:Ha.
  2:{ destruct (is_terminal_waiter_error _ _ _); [|done]. injection H as <- <-. split_and!; [done..|by left]. }
  injection H as <- <-. unfold admit_inner in Ha. apply bind_Ok_inv in Ha as ([cost|] & Hp & Ha).
  2:{ injection Ha as <- _. split_and!; [done..|by left]. }
  pose proof Hp as [_ _ _ Hnew Hnq Hcost%fact_cost_missing]%precheck_inv.
  assert (Hnil : missing cost = []).
  { rewrite Hcost. unfold missing_dependencies. destruct (filter _ _) as [|d l] eqn:Hfil; [done|]. exfalso.
    assert (Hd : d ∈ filter (λ d, facts g1 !! d = None) (dependencies f)) by (rewrite Hfil; by left).
    apply list_elem_of_filter in Hd as [Hd1 Hd2]. rewrite Hf1 in Hd1.
    destruct (settled_complete g id f d Hq Hs Hf Hd2). congruence. }
  rewrite Hnil in Ha. apply bind_Ok_inv in Ha as (causal & _ & Ha). apply bind_Ok_inv in Ha as ([] & _ & Ha).
  apply bind_Ok_inv in Ha as (g3 & Hi & Ha). injection Ha as <- _.
  apply (insert_fact_tables _ _ _ _ _ _ Hq1 Hnew Hnq) in Hi as (Hq3 & Hf3 & Hqq3 & Hmm3).
  split_and!; [done|congruence| |done|].
  - intros x Hx%Hset. destruct Hx as [Hx|Hx]; [left; congruence|]. right. by rewrite Hmm3, Hx.
  - right. exists f. split; [done|]. by rewrite Hf3, Hf1, (proj1 (qe_new _ _ Hq id f Hf)).
Qed.

Lemma retry_waiters_drain ids g touched g' touched' :
  exact g → (∀ id, id ∈ ids → settled g id) → retry_waiters g touched ids = Ok (g', touched') →
  exact g' ∧ ∀ x, quarantined (quarantine g') !! x = None ↔ x ∈ ids ∨ quarantined (quarantine g) !! x = None.
Proof.
  revert g touched. induction ids as [|id ids IH]; intros g touched Hq Hs H; cbn [retry_waiters] in H.
  { injection H as <- _. split; [done|]. intros x. rewrite elem_of_nil. tauto. }
  apply bind_Ok_inv in H as ([g1 b] & H1 & H). cbn [fst snd] in H.
  apply retry_waiter_drains in H1 as (Hq1 & Hqq & Hset & _); [|done|apply Hs; by left].
  apply IH in H as [Hq' Hx]; [|done|intros x Hx; apply Hset, Hs; by right]. split; [done|].
  intros x. rewrite Hx, Hqq, elem_of_cons. destruct (decide (x = id)) as [->|]; [rewrite lookup_delete_eq; tauto|].
  rewrite lookup_delete_ne by done. tauto.
Qed.

Lemma retry_rounds_drain rounds limit budget g processed touched g' touched' :
  exact g → (∀ x, x ∈ processed → quarantined (quarantine g) !! x = None) →
  retry_rounds rounds limit budget g processed touched = Ok (g', touched') →
  exact g' ∧ ready_quarantine (quarantine g') = [].
Proof.
  revert budget g processed touched. induction rounds as [|rounds IH]; intros budget g processed touched Hq Hpr H;
    cbn [retry_rounds] in H; destruct (take _ _) as [|x ready] eqn:Ht; try done.
  1,2: destruct (filter _ _) as [|y l] eqn:Hfil; [|done]; injection H as <- _; split; [done|];
    destruct (ready_quarantine (quarantine g)) as [|y l] eqn:Hr; [done|]; exfalso;
    assert (Hy : y ∈ ready_quarantine (quarantine g)) by (rewrite Hr; by left);
    assert (Hyp : y ∈ processed) by (apply dec_stable; intros Hn; apply (not_elem_of_nil y); rewrite <- Hfil, <- Hr;
      by apply list_elem_of_filter);
    apply Hpr, (missing_no_row _ _ _ Hq) in Hyp; apply (qe_ready _ _ Hq) in Hy; congruence.
  apply bind_Ok_inv in H as ([g1 t1] & H1 & H). cbn [fst snd] in H.
  assert (Hs : ∀ id, id ∈ x :: ready → settled g id).
  { intros id Hid. rewrite <- Ht in Hid. apply elem_of_take in Hid as (i & Hid%list_elem_of_lookup_2 & _).
    apply list_elem_of_filter in Hid as [_ Hid]. right. by apply (qe_ready _ _ Hq). }
  apply retry_waiters_drain in H1 as [Hq1 Hx]; [|done..]. eapply IH; [exact Hq1| |exact H].
  intros y [Hy|Hy]%elem_of_union; apply Hx; [left; by apply elem_of_list_to_set in Hy|right; by apply Hpr].
Qed.

Lemma ready_nil_missing g id f :
  exact g → ready_quarantine (quarantine g) = [] → quarantined (quarantine g) !! id = Some f →
  ∃ d, d ∈ dependencies f ∧ facts g !! d = None.
Proof.
  intros Hq Hr Hf. pose proof (qe_missing _ _ Hq id) as H. rewrite Hf in H.
  destruct (quarantine_missing (quarantine g) !! id) as [[|d l]|] eqn:Hm; [|destruct H as [_ H]; exists d; apply H; by left|done].
  apply (qe_ready _ _ Hq) in Hm. rewrite Hr in Hm. by apply elem_of_nil in Hm.
Qed.

Lemma admit_journaled_drains g f g' a d :
  exact g → admit_journaled g f = Ok (g', a, d) → a = Inserted ∨ ready_quarantine (quarantine g) = [] →
  exact g' ∧ ready_quarantine (quarantine g') = [].
Proof.
  intros Hq H Hr. unfold admit_journaled in H. apply bind_Ok_inv in H as ([pa [cost|]] & Hp & H); cbn [snd] in H.
  2:{ injection H as <- <- _. by destruct Hr. }
  apply preflight_precheck, precheck_inv, (prechecked_cache _ _ _ None) in Hp. fold (uncached g) in Hp.
  assert (Hqu : exact (uncached g)) by done. apply bind_Ok_inv in H as ([g1 a1] & H1 & H).
  apply bind_Ok_inv in H as ([g2 t] & H2 & H). destruct (is_bounded_and_unique _ _); [|done]. injection H as <- <- _. cbn [fst].
  unfold admit_inner in H1. cbn [mbind result_bind] in H1. destruct (missing cost) eqn:Hm.
  - apply bind_Ok_inv in H1 as (causal & _ & H1). apply bind_Ok_inv in H1 as ([] & _ & H1).
    apply bind_Ok_inv in H1 as (g3 & Hi & H1). injection H1 as <- <-. destruct (_ =? _); [done|].
    apply (insert_fact_tables _ _ _ _ _ _ Hqu (pc_absent _ _ _ Hp) (pc_not_waiting _ _ _ Hp)) in Hi as (Hq3 & _).
    eapply retry_rounds_drain; [exact Hq3| |exact H2]. intros x ?%elem_of_empty. done.
  - pose proof H1 as H1'. apply admit_quarantined_tables in H1'; [|done|done|by rewrite Hm].
    unfold admit_quarantined in H1. destruct (is_authorized_signer _ _); [|done]. cbn [negb] in H1.
    apply bind_Ok_inv in H1 as ([] & _ & H1). injection H1 as Hg <-. injection H2 as <- _.
    split; [done|]. destruct Hr as [|Hr]; [done|]. by rewrite <- Hg.
Qed.

(** The graphs a history of journaled admissions, refused ones and reads leads to. *)
Inductive journal_reachable (context : MeshContextId) (roots : gset Device) (p : VerifiedProjectPolicy)
    (limits : SemanticAdmissionPolicy) : FactGraph → Prop :=
| journal_start : journal_reachable context roots p limits (from_bootstrap context roots p limits)
| journal_admit g f g' a d : journal_reachable context roots p limits g → admit_journaled g f = Ok (g', a, d) →
    journal_reachable context roots p limits g'
| journal_refused g f e : journal_reachable context roots p limits g → admit_journaled g f = Err e →
    journal_reachable context roots p limits (uncached g)
| journal_read g : journal_reachable context roots p limits g → journal_reachable context roots p limits (warm g).

(** Every fact still in quarantine misses some dependency. *)
Definition drained (g : FactGraph) : Prop :=
  ∀ id x, quarantined (quarantine g) !! id = Some x → ∃ e, e ∈ dependencies x ∧ facts g !! e = None.

(** C18: Journaled admission leaves no completed waiter behind.  From any reachable graph,
    ready waiters or not, a journaled admission that inserts its fact leaves in
    quarantine only facts that miss some dependency: all waiters that were ready or
    that it completed, directly or through waiters admitted on the way, were
    admitted or dropped.  In a history of journaled admissions alone that holds of
    every graph, whatever each admission answered. *)
Theorem journaled_admission_drains context roots p limits :
  (∀ g f g' d, reachable context roots p limits g → admit_journaled g f = Ok (g', Inserted, d) → drained g') ∧
  (∀ g, journal_reachable context roots p limits g → drained g).
Proof.
  split.
  - intros g f g' d Hg%reachable_tables H. destruct (admit_journaled_drains _ _ _ _ _ Hg H) as [Hq' Hr']; [by left|].
    intros id x. by apply ready_nil_missing.
  - intros g Hg. cut (exact g ∧ ready_quarantine (quarantine g) = []).
    { intros [Hq Hr] id x. by apply ready_nil_missing. }
    induction Hg as [|g f g' a d _ [Hq Hr] H|g f e _ IH _|g _ IH]; [split; [apply empty_quarantine_exact|done]| |done..].
    apply (admit_journaled_drains g f g' a d); [done..|by right].
Qed.

Lemma retry_rounds_fuel rounds extra limit budget g processed touched :
  limit < rounds + budget →
  retry_rounds (rounds + extra) limit budget g processed touched = retry_rounds rounds limit budget g processed touched.
Proof.
  revert budget g processed touched. induction rounds as [|rounds IH]; intros budget g processed touched Hlt.
  - replace (take (limit - budget) (filter (λ id, id ∉ processed) (ready_quarantine (quarantine g)))) with (@nil FactId)
      by (by replace (limit - budget) with 0 by lia).
    destruct extra; cbn [retry_rounds Nat.add]; by replace (limit - budget) with 0 by lia.
  - cbn [retry_rounds Nat.add]. destruct (take _ _) as [|x ready] eqn:Ht; [done|].
    destruct (retry_waiters g touched (x :: ready)) as [[g1 t1]|e]; [|done]. cbn [mbind result_bind fst snd]. apply IH. cbn [length]. lia.
Qed.

(** C39: The bounded loops never run out of fuel: following a resolution chain, the
    rounds over typed selectors, the tier of nested resolutions and the retry loop
    give with any additional fuel what they give with the fuel the model uses. *)
Theorem bounded_loops_suffice g extra :
  (∀ cell head, resolve_effective_head (S (size (facts g)) + extra) (facts g) cell head ∅ = effective_head (facts g) cell head) ∧
  (∀ subject heads, let pending := ancestral_typed_selectors g subject heads in
     relevant_rounds g (length pending + extra) pending [] = relevant_typed_selectors g subject heads) ∧
  (∀ cell cited, resolution_tier_with_visited (S (size (facts g)) + extra) g cell cited ∅ = resolution_tier g cell cited) ∧
  (∀ limit budget processed touched,
     retry_rounds (S (limit - budget) + extra) limit budget g processed touched =
     retry_rounds (S (limit - budget)) limit budget g processed touched).
Proof.
  assert (Hsize : size (dom (facts g) ∖ ∅) < S (size (facts g))) by (rewrite difference_empty_L, size_dom; lia).
  split_and!; intros.
  - by apply resolve_fuel.
  - by apply relevant_rounds_fuel.
  - by apply resolution_tier_fuel.
  - apply retry_rounds_fuel. lia.
Qed.
End bookkeeping.
