(* ===== verification/Journal.v ===== *)
(** * The delta of a journaled admission

    [admit_journaled] reports the rows it changed; the store persists them without
    looking at the graph.  Replaying the delta on the table of facts and their
    status before the admission gives the table after it. *)

From S2P Require Import Prelude Ranking Bytes Identity Content Merkle Ancestry Projection FactGraph Residency.
From S2P Require Import Evaluator Admission GraphIndex GraphProvenance GraphInv QuarantineInv.
Local Open Scope nat_scope.

(** ** The durable table and the replay of a delta *)
Notation FactTable := (gmap FactId (SignedFact * SemanticFactStatus)).

Definition fact_table (g : FactGraph) : FactTable :=
  ((λ f, (f, StatusAdmitted)) <$> facts g) ∪ ((λ f, (f, StatusQuarantined)) <$> quarantined (quarantine g)).

Definition upsert_row (t : FactTable) (r : SignedFact * SemanticFactStatus) : FactTable := <[sf_id r.1 := r]> t.

Definition replay_delta (t : FactTable) (d : SemanticDelta) : FactTable :=
  foldl (λ t id, delete id t) (foldl upsert_row t (rows d)) (removed_ids d).

Lemma upserts_other rows t x :
  (∀ r, r ∈ rows → sf_id r.1 ≠ x) → foldl upsert_row t rows !! x = t !! x.
Proof.
  revert t. induction rows as [|r rows IH]; intros t H; [done|]. cbn [foldl]. rewrite IH by (intros r' Hr'; apply H; by right).
  unfold upsert_row. by rewrite lookup_insert_ne by (apply H; by left).
Qed.

Lemma upserts_row rows t x r :
  r ∈ rows → sf_id r.1 = x → (∀ r', r' ∈ rows → sf_id r'.1 = x → r' = r) → foldl upsert_row t rows !! x = Some r.
Proof.
  intros Hin Hx. revert t Hin. induction rows as [|r0 rows IH]; intros t Hin Hu; [by apply elem_of_nil in Hin|]. cbn [foldl].
  assert (Hu' : ∀ r', r' ∈ rows → sf_id r'.1 = x → r' = r) by (intros r' Hr'; apply Hu; by right).
  destruct (decide (Exists (λ r', sf_id r'.1 = x) rows)) as [He|Hn].
  - apply Exists_exists in He as (r' & Hr' & Hx'). rewrite (Hu' r' Hr' Hx') in Hr'. by apply IH.
  - rewrite upserts_other by (intros r' Hr' Hx'; apply Hn, Exists_exists; by exists r').
    apply elem_of_cons in Hin as [->|Hin]; [|exfalso; apply Hn, Exists_exists; by exists r].
    unfold upsert_row. by rewrite Hx, lookup_insert_eq.
Qed.

Lemma deletes_lookup ids (t : FactTable) x :
  foldl (λ t id, delete id t) t ids !! x = if decide (x ∈ ids) then None else t !! x.
Proof.
  revert t. induction ids as [|id ids IH]; intros t; [by rewrite decide_False by apply not_elem_of_nil|]. cbn [foldl]. rewrite IH.
  destruct (decide (x ∈ ids)); [by rewrite decide_True by by right|]. destruct (decide (x = id)) as [->|Hne].
  - rewrite lookup_delete_eq, decide_True by by left. done.
  - rewrite lookup_delete_ne, decide_False; [done| |done]. by intros [?|?]%elem_of_cons.
Qed.

Section journal.
Context {crypto : Crypto} {layout : Layout}.

(** ** The rows of the delta *)
Lemma delta_waiters_rows g d touched :
  let d' := foldl (delta_waiter g) d touched in
  (∀ r, r ∈ rows d' ↔ r ∈ rows d ∨ ∃ x, x ∈ touched ∧ facts g !! x = Some r.1 ∧ r.2 = StatusAdmitted) ∧
  (∀ id, id ∈ promoted d' ↔ id ∈ promoted d ∨ (id ∈ touched ∧ is_Some (facts g !! id))) ∧
  (∀ id, id ∈ removed_ids d' ↔ id ∈ removed_ids d ∨ (id ∈ touched ∧ facts g !! id = None)).
Proof.
  cbn zeta. revert d. induction touched as [|x touched IH]; intros d; cbn [foldl].
  { split_and!; intros ?; rewrite ?elem_of_nil; naive_solver set_solver. }
  destruct (IH (delta_waiter g d x)) as (H1 & H2 & H3). unfold delta_waiter in *.
  split_and!; intros y; rewrite ?H1, ?H2, ?H3; destruct (facts g !! x) as [f|] eqn:Hx; cbn; rewrite ?elem_of_app, ?list_elem_of_singleton.
  - split; [intros [[?| ->]|(z & ? & ?)]; [by left|right; exists x|right; exists z]; cbn; rewrite ?elem_of_cons; tauto|].
    intros [?|(z & [->|?]%elem_of_cons & Hz & Hs)]; [tauto| |right; by exists z]. left. right. rewrite Hx in Hz. destruct y. cbn in *. congruence.
  - split; [intros [?|(z & ? & ?)]; [by left|right; exists z; rewrite elem_of_cons; tauto]|].
    intros [?|(z & [->|?]%elem_of_cons & Hz & Hs)]; [tauto|congruence|right; by exists z].
  - rewrite elem_of_cons. split; [intros [[?| ->]|[? ?]]; [tauto|right; rewrite Hx; eauto|tauto]|naive_solver].
  - rewrite elem_of_cons. split; [tauto|]. intros [?|[[->|?] ?]]; [tauto| |tauto]. rewrite Hx in *. by destruct H as [? ?].
  - rewrite elem_of_cons. split; [tauto|]. intros [?|[[->|?] ?]]; [tauto|congruence|tauto].
  - rewrite elem_of_cons. split; [intros [[?| ->]|[? ?]]; tauto|naive_solver].
Qed.
(** ** What a retry changes *)
Notation exact g := (quarantine_exact (facts g) (quarantine g)).

Lemma table_admitted g x f : fact_table g !! x = Some (f, StatusAdmitted) ↔ facts g !! x = Some f.
Proof.
  unfold fact_table. rewrite lookup_union, !lookup_fmap. destruct (facts g !! x) as [y|], (quarantined (quarantine g) !! x) as [z|];
    cbn; naive_solver.
Qed.

Lemma table_quarantined g x f :
  exact g → fact_table g !! x = Some (f, StatusQuarantined) ↔ quarantined (quarantine g) !! x = Some f.
Proof.
  intros Hq. unfold fact_table. rewrite lookup_union, !lookup_fmap.
  destruct (quarantined (quarantine g) !! x) as [z|] eqn:Hz; [rewrite (proj1 (proj2 (qe_new _ _ Hq x z Hz)))|destruct (facts g !! x)];
    cbn; naive_solver.
Qed.

Lemma table_none g x : fact_table g !! x = None ↔ facts g !! x = None ∧ quarantined (quarantine g) !! x = None.
Proof. unfold fact_table. rewrite lookup_union_None, !lookup_fmap, !fmap_None. done. Qed.

(** The rows outside [new] are as before; those of [new] left the quarantine. *)
Record changed (g g' : FactGraph) (new : list FactId) : Prop := {
  ch_other : ∀ x, x ∉ new → fact_table g' !! x = fact_table g !! x;
  ch_new : ∀ x, x ∈ new → is_Some (quarantined (quarantine g) !! x) ∧ quarantined (quarantine g') !! x = None ∧
             ∀ f, facts g' !! x = Some f → sf_id f = x;
}.

Lemma changed_nil g : changed g g [].
Proof. split; [done|]. by intros x ?%elem_of_nil. Qed.

Lemma changed_app g g1 g2 n1 n2 :
  exact g → exact g1 → exact g2 → changed g g1 n1 → changed g1 g2 n2 → changed g g2 (n1 ++ n2).
Proof.
  intros Hq Hq1 Hq2 [Ho1 Hn1] [Ho2 Hn2]. split.
  { intros x Hx. rewrite not_elem_of_app in Hx. by rewrite Ho2, Ho1 by tauto. }
  intros x Hx. destruct (decide (x ∈ n2)) as [H2|H2].
  - destruct (Hn2 x H2) as (Hs & ? & ?). split; [|done]. destruct (decide (x ∈ n1)) as [H1|H1]; [by apply Hn1|].
    destruct Hs as [f Hf]. exists f. by rewrite <- table_quarantined, <- Ho1, table_quarantined.
  - apply elem_of_app in Hx as [H1|?]; [|done]. destruct (Hn1 x H1) as (? & Hnone & Hid). specialize (Ho2 x H2).
    split; [done|]. split.
    + apply eq_None_not_Some. intros [f Hf]. rewrite <- table_quarantined, Ho2, table_quarantined in Hf by done. congruence.
    + intros f Hf. apply Hid. by rewrite <- table_admitted, <- Ho2, table_admitted.
Qed.

Lemma retry_waiter_changed g id g' b :
  exact g → settled g id → retry_waiter g id = Ok (g', b) → changed g g' (if b then [id] else []).
Proof.
  intros Hq Hs H. apply (retry_waiter_drains _ _ _ _ Hq Hs) in H as (Hq' & Hqq & _ & -> & Hf).
  assert (Hoth : ∀ x, x ≠ id → fact_table g' !! x = fact_table g !! x).
  { intros x Hx. unfold fact_table. rewrite !lookup_union, !lookup_fmap, Hqq, lookup_delete_ne by done.
    destruct Hf as [->|(f & _ & ->)]; [done|]. by rewrite lookup_insert_ne by done. }
  case_bool_decide as Hin.
  - split; [intros x Hx; apply Hoth; intros ->; apply Hx; by left|]. intros x ->%list_elem_of_singleton. split; [done|].
    rewrite Hqq, lookup_delete_eq. split; [done|]. intros f' Hf'. destruct Hin as [f Hf0].
    destruct (qe_new _ _ Hq id f Hf0) as (Hid & Hno & _). destruct Hf as [Hf|(f1 & Hf1 & Hf)]; rewrite Hf in Hf'; [congruence|].
    rewrite lookup_insert_eq in Hf'. congruence.
  - split; [|by intros x ?%elem_of_nil]. intros x _. destruct (decide (x = id)) as [->|]; [|by apply Hoth].
    apply eq_None_not_Some in Hin. unfold fact_table. rewrite !lookup_union, !lookup_fmap, Hqq, lookup_delete_eq, Hin.
    destruct Hf as [->|(f & ? & _)]; [done|congruence].
Qed.

Lemma retry_waiters_changed ids g touched g' touched' :
  exact g → (∀ id, id ∈ ids → settled g id) → retry_waiters g touched ids = Ok (g', touched') →
  exact g' ∧ ∃ new, touched' = touched ++ new ∧ changed g g' new.
Proof.
  revert g touched. induction ids as [|id ids IH]; intros g touched Hq Hs H; cbn [retry_waiters] in H.
  { injection H as <- <-. split; [done|]. exists []. by rewrite app_nil_r; split; [|apply changed_nil]. }
  apply bind_Ok_inv in H as ([g1 b] & H1 & H). cbn [fst snd] in H.
  pose proof (retry_waiter_changed _ _ _ _ Hq (Hs id ltac:(by left)) H1) as Hc.
  apply retry_waiter_drains in H1 as (Hq1 & _ & Hset & _); [|done|apply Hs; by left].
  apply IH in H as (Hq' & new & -> & Hc'); [|done|intros x Hx; apply Hset, Hs; by right]. split; [done|].
  exists ((if b then [id] else []) ++ new). split; [by destruct b; rewrite <- ?app_assoc|]. by apply (changed_app g g1 g').
Qed.

Lemma retry_rounds_changed rounds limit budget g processed touched g' touched' :
  exact g → retry_rounds rounds limit budget g processed touched = Ok (g', touched') →
  exact g' ∧ ∃ new, touched' = touched ++ new ∧ changed g g' new.
Proof.
  revert budget g processed touched. induction rounds as [|rounds IH]; intros budget g processed touched Hq H;
    cbn [retry_rounds] in H; destruct (take _ _) as [|x ready] eqn:Ht; try done.
  1,2: destruct (filter _ _); [|done]; injection H as <- <-; (split; [done|]); exists []; by rewrite app_nil_r; split; [|apply changed_nil].
  apply bind_Ok_inv in H as ([g1 t1] & H1 & H). cbn [fst snd] in H.
  assert (Hs : ∀ id, id ∈ x :: ready → settled g id).
  { intros id Hid. rewrite <- Ht in Hid. apply elem_of_take in Hid as (i & Hid%list_elem_of_lookup_2 & _).
    apply list_elem_of_filter in Hid as [_ Hid]. right. by apply (qe_ready _ _ Hq). }
  apply retry_waiters_changed in H1 as (Hq1 & n1 & -> & Hc1); [|done..]. apply IH in H as (Hq' & n2 & -> & Hc2); [|done].
  split; [done|]. exists (n1 ++ n2). by rewrite app_assoc; split; [|apply (changed_app g g1 g')].
Qed.
(** ** The admission itself *)
Lemma admit_inner_table g f cost supplied g1 a :
  exact g → prechecked g f cost → admit_inner g f false (Some cost) supplied = Ok (g1, a) →
  exact g1 ∧ fact_table g !! sf_id f = None ∧
  ∃ st, fact_table g1 = <[sf_id f := (f, st)]> (fact_table g) ∧
    match a with Inserted => st = StatusAdmitted | Quarantined _ => st = StatusQuarantined | AlreadyPresent => False end.
Proof.
  intros Hq Hp H. pose proof Hp as [_ _ _ Hnew Hnq _].
  assert (Hno : fact_table g !! sf_id f = None) by by apply table_none.
  unfold admit_inner in H. cbn [mbind result_bind] in H. destruct (missing cost) eqn:Hm.
  - apply bind_Ok_inv in H as (causal & _ & H). apply bind_Ok_inv in H as ([] & _ & H).
    apply bind_Ok_inv in H as (g3 & Hi & H). injection H as <- <-.
    apply (insert_fact_tables _ _ _ _ _ _ Hq Hnew Hnq) in Hi as (Hq1 & Hf & Hqq & _). split_and!; [done..|].
    exists StatusAdmitted. split; [|done]. unfold fact_table. by rewrite Hf, Hqq, fmap_insert, insert_union_l.
  - pose proof H as Hq1. apply admit_quarantined_tables in Hq1; [|done|done|by rewrite Hm].
    unfold admit_quarantined in H. destruct (is_authorized_signer _ _); [|done]. cbn [negb] in H.
    apply bind_Ok_inv in H as ([] & _ & H). injection H as <- <-. split_and!; [done..|].
    exists StatusQuarantined. split; [|done]. unfold fact_table. cbn. rewrite fmap_insert, insert_union_r; [done|].
    by rewrite lookup_fmap, Hnew.
Qed.

Lemma status_row_table g id f st : exact g → fact_table g !! id = Some (f, st) → status_row g id = [(f, st)].
Proof.
  intros Hq. unfold status_row. destruct st.
  - rewrite table_admitted. by intros ->.
  - rewrite table_quarantined by done. intros Hf. by rewrite (proj1 (proj2 (qe_new _ _ Hq id f Hf))), Hf.
Qed.

(** The delta of a graph [g'] reached from [g1], the graph with the candidate's
    row, by retrying the waiters [new]. *)
Lemma delta_of_rows_replays g g1 g' f st new added d :
  exact g1 → exact g' → fact_table g1 = <[sf_id f := (f, st)]> (fact_table g) → changed g1 g' new → sf_id f ∉ new →
  d = foldl (delta_waiter g') (mkSemanticDelta (status_row g' (sf_id f)) [] [] added [] (∅, ∅) None) new →
  fact_table g' = foldl (λ t id, delete id t) (foldl upsert_row (fact_table g) (rows d)) (removed_ids d).
Proof.
  intros Hq1 Hq' Ht [Hother Hnew] Hid ->.
  assert (Hrow : fact_table g' !! sf_id f = Some (f, st)) by by rewrite Hother, Ht, lookup_insert_eq.
  rewrite (status_row_table _ _ _ _ Hq' Hrow).
  destruct (delta_waiters_rows g' (mkSemanticDelta [(f, st)] [] [] added [] (∅, ∅) None) new) as (Hrows & _ & Hrem).
  remember (foldl _ _ new) as d. cbn [rows removed_ids] in Hrows, Hrem.
  assert (Hids : ∀ r x, r ∈ rows d → sf_id r.1 = x → fact_table g' !! x = Some r).
  { intros [r s] x Hr <-. apply Hrows in Hr as [[= -> ->]%list_elem_of_singleton|(y & Hy & Hf & Hs)]; [done|]. cbn in *. subst s.
    rewrite (proj2 (proj2 (Hnew y Hy)) r Hf). by apply table_admitted. }
  apply map_eq. intros x. rewrite deletes_lookup. destruct (decide (x ∈ removed_ids d)) as [[?%elem_of_nil|[Hx Hn]]%Hrem|Hx]; [done| |].
  { apply table_none. split; [done|]. by apply Hnew. }
  destruct (fact_table g' !! x) as [[y s]|] eqn:Hy.
  - destruct (decide (Exists (λ r, sf_id r.1 = x) (rows d))) as [(r & Hr & Hrx)%Exists_exists|Hnone].
    + symmetry. rewrite <- Hy, (Hids r x Hr Hrx). apply (upserts_row _ _ _ r Hr Hrx). intros r' Hr' Hrx'.
      apply (Hids _ _ Hr') in Hrx'. rewrite (Hids r x Hr Hrx) in Hrx'. congruence.
    + rewrite upserts_other by (intros r Hr Hrx; apply Hnone, Exists_exists; by exists r).
      assert (Hxf : x ≠ sf_id f). { intros ->. apply Hnone, Exists_exists. exists (f, st). split; [apply Hrows; left; by left|done]. }
      assert (Hxn : x ∉ new).
      { intros Hxn. destruct (Hnew x Hxn) as (_ & Hqn & Hsf). destruct s; [|by rewrite table_quarantined, Hqn in Hy].
        apply table_admitted in Hy. apply Hnone, Exists_exists. exists (y, StatusAdmitted). split; [|by apply Hsf].
        apply Hrows. right. by exists x. }
      by rewrite <- Hy, Hother, Ht, lookup_insert_ne.
  - rewrite upserts_other by (intros r Hr Hrx; by rewrite (Hids r x Hr Hrx) in Hy).
    destruct (decide (x ∈ new)) as [Hxn|Hxn].
    + exfalso. apply Hx, Hrem. right. split; [done|]. by apply table_none in Hy as [? _].
    + rewrite Hother, Ht in Hy by done. by apply lookup_insert_None in Hy as [? _].
Qed.
Lemma admit_journaled_changes g f g' a d :
  exact g → admit_journaled g f = Ok (g', a, d) →
  (g' = g ∧ d = empty_delta) ∨
  ∃ g1 st new added, exact g1 ∧ exact g' ∧ fact_table g !! sf_id f = None ∧
    fact_table g1 = <[sf_id f := (f, st)]> (fact_table g) ∧ changed g1 g' new ∧ sf_id f ∉ new ∧
    let d0 := foldl (delta_waiter g') (mkSemanticDelta (status_row g' (sf_id f)) [] [] added [] (∅, ∅) None) new in
    rows d = rows d0 ∧ promoted d = promoted d0 ∧ removed_ids d = removed_ids d0.
Proof.
  intros Hq H. unfold admit_journaled in H. apply bind_Ok_inv in H as ([pa [cost|]] & Hp & H); cbn [snd] in H.
  2:{ left. by injection H as <- _ <-. }
  right. apply preflight_precheck, precheck_inv, (prechecked_cache _ _ _ None) in Hp.
  apply bind_Ok_inv in H as ([g1 a1] & H1 & H).
  apply bind_Ok_inv in H as ([g2 t] & H2 & H). destruct (is_bounded_and_unique _ _); [|done]. injection H as <- _ <-. cbn [fst snd].
  apply (admit_inner_table (uncached g) _ _ _ _ _ Hq Hp) in H1 as (Hq1 & Hno & st & Ht & Ha). unfold journal_delta, delta_of_rows. cbn.
  destruct a1; [|done|].
  - destruct (_ =? _); [done|]. apply retry_rounds_changed in H2 as (Hq2 & new & -> & Hc); [|done]. cbn [app].
    exists g1, st, new, []. split_and!; try done. intros Hin. destruct (ch_new _ _ _ Hc _ Hin) as ([z Hz] & _).
    apply (table_quarantined _ _ _ Hq1) in Hz. rewrite Ht, lookup_insert_eq in Hz. congruence.
  - injection H2 as <- <-. exists g1, st, [], [sf_id f]. split_and!; try done; [apply changed_nil|apply not_elem_of_nil].
Qed.

(** C19: The delta of a journaled admission is exact.  Upserting its rows and deleting
    its removed identities in the durable table of facts and their status turns
    the table of the graph before into the table of the graph after; [promoted]
    are exactly the waiters that were admitted and [removed] exactly those that
    left the graph. *)
Theorem journal_delta_replays context roots p limits g f g' a d :
  reachable context roots p limits g → admit_journaled g f = Ok (g', a, d) →
  fact_table g' = replay_delta (fact_table g) d ∧
  (∀ id, id ∈ promoted d ↔ is_Some (quarantined (quarantine g) !! id) ∧ is_Some (facts g' !! id)) ∧
  (∀ id, id ∈ removed_ids d ↔ is_Some (quarantined (quarantine g) !! id) ∧ fact_table g' !! id = None).
Proof.
  intros Hq%reachable_tables H.
  destruct (admit_journaled_changes _ _ _ _ _ Hq H) as [[-> ->]|(g1 & st & new & added & Hq1 & Hq' & Hno & Ht & Hc & Hid & Hr & Hp & Hm)].
  { split; [done|]. cbn. split; intros id; rewrite elem_of_nil; (split; [done|]); intros [[y Hy] Hf].
    - rewrite (proj1 (proj2 (qe_new _ _ Hq id y Hy))) in Hf. by destruct Hf.
    - by apply table_none in Hf as [_ ?]; simplify_eq. }
  split; [unfold replay_delta; rewrite Hr, Hm; exact (delta_of_rows_replays g g1 g' f st new added _ Hq1 Hq' Ht Hc Hid eq_refl)|].
  assert (Hwas : ∀ id, is_Some (quarantined (quarantine g1) !! id) ∧ id ≠ sf_id f ↔ is_Some (quarantined (quarantine g) !! id)).
  { intros id. destruct (decide (id = sf_id f)) as [->|Hne].
    - split; [by intros [_ ?]|]. intros [y Hy]. by apply table_none in Hno as [_ ?]; simplify_eq.
    - split; [intros [[y Hy] _]|intros [y Hy]; split; [|done]]; exists y; revert Hy;
        rewrite <- !table_quarantined, Ht, lookup_insert_ne by done; done. }
  destruct (delta_waiters_rows g' (mkSemanticDelta (status_row g' (sf_id f)) [] [] added [] (∅, ∅) None) new) as (_ & Hpr & Hrm).
  split; intros id; rewrite ?Hp, ?Hm, ?Hpr, ?Hrm; cbn; rewrite elem_of_nil; (split; [intros [?|[Hin Hx]]; [done|]|]).
  - split; [|done]. apply Hwas. split; [by apply (ch_new _ _ _ Hc)|by intros ->].
  - intros [[[y Hy] Hne]%Hwas [z Hz]]. right. split; [|by eexists]. apply dec_stable. intros Hnew.
    apply table_admitted in Hz. rewrite (ch_other _ _ _ Hc _ Hnew) in Hz. apply (table_quarantined _ _ _ Hq1) in Hy. congruence.
  - split; [apply Hwas; split; [by apply (ch_new _ _ _ Hc)|by intros ->]|]. apply table_none. split; [done|]. by apply (ch_new _ _ _ Hc).
  - intros [[[y Hy] Hne]%Hwas Hz]. right. split; [|by apply table_none in Hz as [? _]]. apply dec_stable. intros Hnew.
    rewrite (ch_other _ _ _ Hc _ Hnew) in Hz. apply (table_quarantined _ _ _ Hq1) in Hy. congruence.
Qed.
End journal.
