(* ===== verification/Accounts.v ===== *)
(** * Resource accounts of the causal graph

    The byte, edge and per-author counters of a reachable graph are the sums over
    the facts they stand for, and stay within the limits of its admission policy.
    While a waiter is retried it is in flight: out of quarantine and still
    retained by its author. *)

From S2P Require Import Prelude Ranking Bytes Identity Content Merkle Ancestry Projection FactGraph Residency.
From S2P Require Import Evaluator Admission GraphIndex GraphProvenance GraphInv QuarantineInv.
Local Open Scope Z_scope.

(** ** Sums over facts *)
Definition total (w : SignedFact → Z) (m : FactMap) : Z := map_fold (λ _ f acc, w f + acc) 0 m.

Lemma total_empty w : total w ∅ = 0.
Proof. apply map_fold_empty. Qed.

Lemma total_insert w m id f : m !! id = None → total w (<[id := f]> m) = w f + total w m.
Proof. intros Hm. unfold total. rewrite map_fold_insert_L; [done|intros; lia|done]. Qed.

Lemma total_delete w m id f : m !! id = Some f → total w m = w f + total w (delete id m).
Proof. intros Hm. rewrite <- (insert_delete_id m id f Hm) at 1. by rewrite total_insert by apply lookup_delete_eq. Qed.

Lemma total_nonneg w m : (∀ f, 0 ≤ w f) → 0 ≤ total w m.
Proof.
  intros Hw. induction m as [|id f m Hm IH] using map_ind; [by rewrite total_empty|]. rewrite total_insert by done.
  specialize (Hw f). lia.
Qed.

(** A sum is zero wherever a nonnegative sum over the same support is. *)
Lemma total_zero w v m : (∀ f, 0 ≤ v f) → (∀ f, v f = 0 → w f = 0) → total v m = 0 → total w m = 0.
Proof.
  intros Hv Hw. induction m as [|id f m Hm IH] using map_ind; [by rewrite !total_empty|]. rewrite !total_insert by done.
  intros H. pose proof (Hv f). pose proof (total_nonneg v m Hv). rewrite (Hw f), IH; lia.
Qed.

Section accounts.
Context {crypto : Crypto} {layout : Layout} {sizes : LayoutLaws}.

(** ** What a fact counts for *)
Definition encoded (f : SignedFact) : Z := default 0 (json_len f).
Definition edges (f : SignedFact) : Z :=
  Z.of_nat (length (dependencies f)) + Z.of_nat (length (fc_authority_uses (sf_content f))).
Definition of_author (a : Device) (w : SignedFact → Z) (f : SignedFact) : Z :=
  if decide (fc_author (sf_content f) = a) then w f else 0.
Definition usage (m : FactMap) (a : Device) : Z * Z := (total (of_author a (λ _, 1)) m, total (of_author a encoded) m).

Lemma encoded_nonneg f : 0 ≤ encoded f.
Proof. unfold encoded. destruct (law_json_len f) as (n & -> & Hn). cbn. lia. Qed.

Lemma checked_len_Ok limit n z : checked_len limit n = Ok z → z = Z.of_nat n.
Proof. unfold checked_len. destruct (_ <=? _); [|done]. by intros [= ->]. Qed.
Lemma checked_add_bytes_Ok limit x y z : checked_add_bytes limit x y = Ok z → z = x + y.
Proof. unfold checked_add_bytes. intros H%ok_or_Ok. by z_norm. Qed.

Lemma fact_cost_sizes g f cost : fact_cost g f = Ok cost → encoded_bytes cost = encoded f ∧ dependency_edges cost = edges f.
Proof.
  unfold fact_cost. intros H. apply bind_Ok_inv in H as (s & Hs & H). unfold fact_encoded_and_edges in Hs.
  apply bind_Ok_inv in Hs as (e & He%ok_or_Ok & Hs). apply bind_Ok_inv in Hs as (d & Hd%checked_len_Ok & Hs).
  apply bind_Ok_inv in Hs as (u & Hu%checked_len_Ok & Hs). apply bind_Ok_inv in Hs as (n & Hn%checked_add_bytes_Ok & Hs).
  injection Hs as <-. inv_ok. subst cost. cbn. unfold encoded, edges. rewrite He. cbn. split; [done|]. by subst.
Qed.

(** ** The accounts *)
Definition flying (w : SignedFact → Z) (flight : option SignedFact) : Z := from_option w 0 flight.

Record accounts (g : FactGraph) (flight : option SignedFact) : Prop := {
  ac_bytes : admitted_bytes g = total encoded (facts g);
  ac_edges : admitted_dependency_edges g = total edges (facts g);
  ac_count : admitted_fact_count g = Z.of_nat (size (facts g));
  ac_quarantined_bytes : quarantined_bytes (quarantine g) = total encoded (quarantined (quarantine g));
  ac_quarantined_edges : quarantined_dependency_edges (quarantine g) = total edges (quarantined (quarantine g));
  ac_quarantined_by : ∀ a, usage_of (quarantined_by_author (quarantine g)) a = usage (quarantined (quarantine g)) a;
  ac_retained_by : ∀ a, usage_of (retained_by_author g) a =
    ((usage (facts g) a).1 + (usage (quarantined (quarantine g)) a).1 + flying (of_author a (λ _, 1)) flight,
     (usage (facts g) a).2 + (usage (quarantined (quarantine g)) a).2 + flying (of_author a encoded) flight);
}.

Record within (g : FactGraph) : Prop := {
  wi_count : admitted_fact_count g ≤ max_admitted_facts (policy_limits g);
  wi_bytes : admitted_bytes g ≤ max_admitted_bytes (policy_limits g);
  wi_edges : admitted_dependency_edges g + quarantined_dependency_edges (quarantine g) ≤ max_dependency_edges (policy_limits g);
  wi_quarantined : Z.of_nat (size (quarantined (quarantine g))) ≤ max_quarantined_facts (policy_limits g);
  wi_quarantined_bytes : quarantined_bytes (quarantine g) ≤ max_quarantined_bytes (policy_limits g);
  wi_quarantined_by : ∀ a, (usage_of (quarantined_by_author (quarantine g)) a).1 ≤ max_quarantined_facts_per_author (policy_limits g) ∧
    (usage_of (quarantined_by_author (quarantine g)) a).2 ≤ max_quarantined_bytes_per_author (policy_limits g);
  wi_retained_by : ∀ a, (usage_of (retained_by_author g) a).1 ≤ max_retained_facts_per_author (policy_limits g) ∧
    (usage_of (retained_by_author g) a).2 ≤ max_retained_bytes_per_author (policy_limits g);
}.

(** The database budget covers the facts and their indexes, and at an insertion the
    commitment of the current projection as well. *)
Definition resident (g : FactGraph) : Prop :=
  admitted_bytes g + derived_index_bytes g ≤ max_database_bytes (policy_limits g).
Definition funded (g : FactGraph) : Prop :=
  admitted_bytes g + derived_index_bytes g + commitment_bytes (projection g) ≤ max_database_bytes (policy_limits g).

(** *** Per-author rows *)
Lemma retain_usage_of m author bytes a :
  usage_of (retain_usage m author bytes) a =
  if decide (author = a) then ((usage_of m a).1 + 1, (usage_of m a).2 + bytes) else usage_of m a.
Proof.
  unfold retain_usage. destruct (usage_of m author) as [n b] eqn:Hu. unfold usage_of at 1.
  destruct (decide (author = a)) as [->|]; [by rewrite lookup_insert_eq, Hu|by rewrite lookup_insert_ne].
Qed.

Lemma release_usage_of m author bytes a :
  (usage_of m author).1 ≠ 0 → ((usage_of m author).1 = 1 → (usage_of m author).2 = bytes) →
  usage_of (release_usage m author bytes) a =
  if decide (author = a) then ((usage_of m a).1 - 1, (usage_of m a).2 - bytes) else usage_of m a.
Proof.
  intros Hn Hb. unfold release_usage. assert (Hm : is_Some (m !! author)).
  { unfold usage_of in Hn. by destruct (m !! author). }
  destruct Hm as [[n b] Hm]. rewrite Hm. unfold usage_of in Hn, Hb. rewrite Hm in Hn, Hb. cbn in Hn, Hb. unfold usage_of at 1.
  destruct (decide (author = a)) as [->|].
  - unfold usage_of. rewrite Hm. cbn. destruct (Z.eqb_spec (n - 1) 0) as [E|E].
    + rewrite lookup_delete_eq. cbn. f_equal; lia.
    + by rewrite lookup_insert_eq.
  - destruct (_ =? _); [by rewrite lookup_delete_ne|by rewrite lookup_insert_ne].
Qed.

Lemma usage_insert m id f a :
  m !! id = None → usage (<[id := f]> m) a = ((usage m a).1 + of_author a (λ _, 1) f, (usage m a).2 + of_author a encoded f).
Proof. intros Hm. unfold usage. rewrite !total_insert by done. cbn. f_equal; lia. Qed.

Lemma usage_delete m id f a :
  m !! id = Some f → usage (delete id m) a = ((usage m a).1 - of_author a (λ _, 1) f, (usage m a).2 - of_author a encoded f).
Proof.
  intros Hm. unfold usage. rewrite (total_delete (of_author a (λ _, 1)) m id f), (total_delete (of_author a encoded) m id f) by done.
  cbn. f_equal; lia.
Qed.

(** With one fact of an author, the author's bytes are that fact's. *)
Lemma usage_nonneg m a : 0 ≤ (usage m a).1.
Proof. apply total_nonneg. intros f. unfold of_author. by destruct (decide _). Qed.
Lemma usage_zero m a : (usage m a).1 = 0 → (usage m a).2 = 0.
Proof.
  apply total_zero; intros f; unfold of_author; destruct (decide _); done.
Qed.

(** *** Reservations *)
Lemma checked_total_Ok dimension current additional limit z :
  checked_total dimension current additional limit = Ok z → current + additional ≤ limit.
Proof.
  unfold checked_total. intros H. apply bind_Ok_inv in H as (o & Ho%ok_or_Ok & H). apply bind_Ok_inv in H as ([] & Hc%check_capacity_Ok & _).
  z_norm. lia.
Qed.

Lemma reserve_retained_Ok g author cost :
  reserve_retained g author cost = Ok () →
  (usage_of (retained_by_author g) author).1 + 1 ≤ max_retained_facts_per_author (policy_limits g) ∧
  (usage_of (retained_by_author g) author).2 + encoded_bytes cost ≤ max_retained_bytes_per_author (policy_limits g).
Proof.
  unfold reserve_retained. destruct (usage_of _ author) as [n b]. intros H. apply bind_Ok_inv in H as (? & H1%checked_total_Ok & H).
  by apply bind_Ok_inv in H as (? & H2%checked_total_Ok & _).
Qed.

Lemma reserve_edges_Ok g cost :
  reserve_edges g cost = Ok () →
  admitted_dependency_edges g + quarantined_dependency_edges (quarantine g) + dependency_edges cost ≤ max_dependency_edges (policy_limits g).
Proof.
  unfold reserve_edges. intros H. apply bind_Ok_inv in H as (t & Ht%ok_or_Ok & H). z_norm.
  apply bind_Ok_inv in H as (? & H%checked_total_Ok & _). lia.
Qed.

Lemma reserve_admitted_Ok g f cost reserved :
  reserve_admitted g f cost reserved = Ok () →
  (reserved = false → reserve_retained g (fc_author (sf_content f)) cost = Ok ()) ∧
  admitted_fact_count g + 1 ≤ max_admitted_facts (policy_limits g) ∧
  admitted_bytes g + encoded_bytes cost ≤ max_admitted_bytes (policy_limits g) ∧ reserve_edges g cost = Ok ().
Proof.
  unfold reserve_admitted. intros H. apply bind_Ok_inv in H as ([] & H1 & H). apply bind_Ok_inv in H as (? & H2%checked_total_Ok & H).
  apply bind_Ok_inv in H as (? & H3%checked_total_Ok & H). apply bind_Ok_inv in H as (? & _ & H). apply bind_Ok_inv in H as ([] & _ & H).
  split_and!; [by intros ->|lia..|done].
Qed.

Lemma reserve_quarantine_Ok g f cost reserved :
  reserve_quarantine g f cost reserved = Ok () →
  let l := policy_limits g in let author := fc_author (sf_content f) in
  (reserved = false → reserve_retained g author cost = Ok ()) ∧
  Z.of_nat (size (quarantined (quarantine g))) + 1 ≤ max_quarantined_facts l ∧
  quarantined_bytes (quarantine g) + encoded_bytes cost ≤ max_quarantined_bytes l ∧ reserve_edges g cost = Ok () ∧
  (usage_of (quarantined_by_author (quarantine g)) author).1 + 1 ≤ max_quarantined_facts_per_author l ∧
  (usage_of (quarantined_by_author (quarantine g)) author).2 + encoded_bytes cost ≤ max_quarantined_bytes_per_author l.
Proof.
  unfold reserve_quarantine. intros H. cbn zeta. apply bind_Ok_inv in H as ([] & H1 & H).
  apply bind_Ok_inv in H as (? & ->%checked_len_Ok & H). apply bind_Ok_inv in H as (? & H2%checked_total_Ok & H).
  apply bind_Ok_inv in H as (? & H3%checked_total_Ok & H). apply bind_Ok_inv in H as ([] & H4 & H).
  destruct (usage_of _ _) as [n b]. apply bind_Ok_inv in H as (? & H5%checked_total_Ok & H).
  apply bind_Ok_inv in H as (? & H6%checked_total_Ok & _). split_and!; [by intros ->|done..].
Qed.

(** *** Operations *)
Definition in_flight (reserved : bool) (f : SignedFact) : option SignedFact := if reserved then Some f else None.

Lemma retained_after g f cost (reserved : bool) a :
  encoded_bytes cost = encoded f →
  usage_of (if reserved then retained_by_author g
            else retain_usage (retained_by_author g) (fc_author (sf_content f)) (encoded_bytes cost)) a =
  ((usage_of (retained_by_author g) a).1 + (if reserved then 0 else of_author a (λ _, 1) f),
   (usage_of (retained_by_author g) a).2 + (if reserved then 0 else of_author a encoded f)).
Proof.
  intros ->. destruct reserved; [by destruct (usage_of _ _); cbn; rewrite !Z.add_0_r|]. rewrite retain_usage_of. unfold of_author.
  destruct (decide _); [done|]. destruct (usage_of _ _). cbn. by rewrite !Z.add_0_r.
Qed.

Lemma retained_within g f cost (reserved : bool) :
  encoded_bytes cost = encoded f → within g → (reserved = false → reserve_retained g (fc_author (sf_content f)) cost = Ok ()) →
  ∀ a, (usage_of (if reserved then retained_by_author g
            else retain_usage (retained_by_author g) (fc_author (sf_content f)) (encoded_bytes cost)) a).1
         ≤ max_retained_facts_per_author (policy_limits g) ∧
       (usage_of (if reserved then retained_by_author g
            else retain_usage (retained_by_author g) (fc_author (sf_content f)) (encoded_bytes cost)) a).2
         ≤ max_retained_bytes_per_author (policy_limits g).
Proof.
  intros He Hw Hr a. pose proof (wi_retained_by _ Hw a) as [H1 H2]. destruct reserved; [done|]. rewrite retain_usage_of.
  destruct (decide _) as [<-|]; [|done]. by apply reserve_retained_Ok, Hr.
Qed.

Lemma flying_in_flight w (reserved : bool) f : flying w (in_flight reserved f) + (if reserved then 0 else w f) = w f.
Proof. destruct reserved; cbn; lia. Qed.

Lemma quarantined_wake q d :
  quarantined_bytes (wake_dependency q d) = quarantined_bytes q ∧
  quarantined_dependency_edges (wake_dependency q d) = quarantined_dependency_edges q ∧
  quarantined_by_author (wake_dependency q d) = quarantined_by_author q ∧ quarantined (wake_dependency q d) = quarantined q.
Proof. unfold wake_dependency. destruct (waiting_by_dependency q !! d); [|done]. by destruct (foldl _ _ _). Qed.

Lemma insert_accounts g f cost reserved previous g' :
  facts g !! sf_id f = None → fact_cost g f = Ok cost → insert_fact g f cost reserved previous = Ok g' →
  accounts g (in_flight reserved f) → accounts g' None ∧ (within g → within g').
Proof.
  intros Hnew [He Hd]%fact_cost_sizes Hi [A1 A2 A3 A4 A5 A6 A7].
  apply insert_fact_inv in Hi as (delta & prov & bytes & _ & _ & Hres & _ & Hdb & ->).
  apply reserve_admitted_Ok in Hres as (Hret & Hc & Hb & Hedges%reserve_edges_Ok).
  destruct (quarantined_wake (quarantine g) (sf_id f)) as (Q1 & Q2 & Q3 & Q4).
  split; [split; cbn; rewrite ?Q1, ?Q2, ?Q3, ?Q4, ?total_insert by done; try (lia || done)|].
  - rewrite map_size_insert_None by done. lia.
  - intros a. rewrite retained_after, A7 by done. cbn. rewrite ?total_insert by done.
    pose proof (flying_in_flight (of_author a (λ _, 1)) reserved f). pose proof (flying_in_flight (of_author a encoded) reserved f).
    f_equal; lia.
  - intros Hw. split; cbn; rewrite ?Q1, ?Q2, ?Q3, ?Q4; try apply Hw; try lia. by apply retained_within.
Qed.

Lemma quarantine_accounts g f cost reserved g' a :
  quarantined (quarantine g) !! sf_id f = None → fact_cost g f = Ok cost → admit_quarantined g f cost reserved = Ok (g', a) →
  accounts g (in_flight reserved f) → accounts g' None ∧ (within g → within g').
Proof.
  intros Hnew [He Hd]%fact_cost_sizes H [A1 A2 A3 A4 A5 A6 A7].
  unfold admit_quarantined in H. destruct (is_authorized_signer _ _); [|done]. cbn [negb] in H.
  apply bind_Ok_inv in H as ([] & Hres & H). injection H as <- _.
  apply reserve_quarantine_Ok in Hres as (Hret & Hc & Hb & Hedges%reserve_edges_Ok & Hac & Hab).
  split; [split; cbn; rewrite ?total_insert by done; try (lia || done)|].
  - intros x. rewrite retain_usage_of, A6, usage_insert by done. unfold of_author. rewrite He.
    destruct (decide _); [done|]. destruct (usage _ _). cbn. by rewrite !Z.add_0_r.
  - intros x. rewrite retained_after, A7 by done. cbn. rewrite ?total_insert by done.
    pose proof (flying_in_flight (of_author x (λ _, 1)) reserved f). pose proof (flying_in_flight (of_author x encoded) reserved f).
    f_equal; lia.
  - intros Hw. split; cbn; try apply Hw; try lia; [..|by apply retained_within].
    + rewrite map_size_insert_None by done. lia.
    + intros x. pose proof (wi_quarantined_by _ Hw x). rewrite retain_usage_of. destruct (decide _) as [<-|]; [|done]. done.
Qed.

Lemma author_counted a f : fc_author (sf_content f) = a → of_author a (λ _, 1) f = 1 ∧ of_author a encoded f = encoded f.
Proof. unfold of_author. intros ->. by rewrite !decide_True. Qed.

Lemma remove_accounts g id g' f :
  remove_quarantine g id = Ok (g', Some f) → quarantined (quarantine g) !! id = Some f →
  accounts g None → accounts g' (Some f) ∧ (within g → within g').
Proof.
  intros H Hf [A1 A2 A3 A4 A5 A6 A7]. unfold remove_quarantine in H. cbn [quarantined remove_ready] in H. rewrite Hf in H.
  apply bind_Ok_inv in H as (cost & [He Hd]%fact_cost_sizes & H). injection H as <-.
  pose proof (total_delete encoded _ _ _ Hf) as T1. pose proof (total_delete edges _ _ _ Hf) as T2.
  assert (Hu : ∀ x, usage_of (release_usage (quarantined_by_author (quarantine g)) (fc_author (sf_content f)) (encoded_bytes cost)) x =
    usage (delete id (quarantined (quarantine g))) x).
  { intros x. destruct (author_counted _ f eq_refl) as [O1 O2].
    pose proof (usage_delete _ _ _ (fc_author (sf_content f)) Hf) as Hdel. pose proof (usage_nonneg (delete id (quarantined (quarantine g))) (fc_author (sf_content f))) as Hnn.
    pose proof (usage_zero (delete id (quarantined (quarantine g))) (fc_author (sf_content f))) as Hz.
    rewrite Hdel, O1, O2 in Hnn, Hz. cbn [fst snd] in Hnn, Hz.
    rewrite release_usage_of, A6, (usage_delete _ _ f) by (try done; rewrite A6; lia).
    unfold of_author. rewrite He. destruct (decide _); [done|]. destruct (usage _ x). cbn. by rewrite !Z.sub_0_r. }
  split; [split; cbn; try (lia || done)|].
  - intros x. rewrite A7. cbn. pose proof (total_delete (of_author x (λ _, 1)) _ _ _ Hf). pose proof (total_delete (of_author x encoded) _ _ _ Hf).
    f_equal; lia.
  - assert (He0 : 0 ≤ edges f) by (unfold edges; lia).
    intros Hw. split; cbn; try apply Hw; try (pose proof (wi_edges _ Hw); lia).
    + pose proof (wi_quarantined _ Hw). rewrite map_size_delete_Some by by eexists. lia.
    + pose proof (wi_quarantined_bytes _ Hw). pose proof (encoded_nonneg f). lia.
    + intros x. pose proof (wi_quarantined_by _ Hw x) as [B1 B2]. rewrite Hu, (usage_delete _ _ f) by done. rewrite A6 in B1, B2.
      pose proof (encoded_nonneg f). cbn [fst snd]. unfold of_author. destruct (decide _); lia.
Qed.

Lemma release_accounts g f cost :
  encoded_bytes cost = encoded f → accounts g (Some f) →
  accounts (release_author g (fc_author (sf_content f)) cost) None ∧ (within g → within (release_author g (fc_author (sf_content f)) cost)).
Proof.
  intros He [A1 A2 A3 A4 A5 A6 A7]. set (author := fc_author (sf_content f)).
  assert (Hu : ∀ x, usage_of (release_usage (retained_by_author g) author (encoded_bytes cost)) x =
    ((usage_of (retained_by_author g) x).1 - of_author x (λ _, 1) f, (usage_of (retained_by_author g) x).2 - of_author x encoded f)).
  { intros x. destruct (author_counted _ f eq_refl) as [O1 O2].
    pose proof (usage_nonneg (facts g) author). pose proof (usage_nonneg (quarantined (quarantine g)) author).
    pose proof (usage_zero (facts g) author). pose proof (usage_zero (quarantined (quarantine g)) author).
    rewrite release_usage_of; [|rewrite A7; cbn -[usage]; unfold author in *; lia..].
    unfold of_author, author. rewrite He. destruct (decide _); [done|]. destruct (usage_of _ x). cbn. by rewrite !Z.sub_0_r. }
  split; [split; try done|].
  - intros x. cbn -[usage]. rewrite Hu, A7. cbn -[usage]. f_equal; lia.
  - intros Hw. split; try apply Hw. intros x. cbn. rewrite Hu. cbn. pose proof (wi_retained_by _ Hw x) as [B1 B2].
    pose proof (encoded_nonneg f). unfold of_author. destruct (decide _); lia.
Qed.

(** ** Composition *)
Notation exact g := (quarantine_exact (facts g) (quarantine g)).

Lemma admit_inner_accounts g f reserved validated supplied g' a :
  exact g → (∀ cost, validated = Some cost → prechecked g f cost) →
  admit_inner g f reserved validated supplied = Ok (g', a) → accounts g (in_flight reserved f) →
  (reserved = true → a ≠ AlreadyPresent) → accounts g' None ∧ (within g → within g').
Proof.
  intros Hq Hv H Ha Hr. unfold admit_inner in H. apply bind_Ok_inv in H as (checked & Hc & H).
  destruct checked as [cost|].
  2:{ injection H as <- <-. destruct reserved; [by destruct (Hr eq_refl)|done]. }
  assert (Hp : prechecked g f cost) by (destruct validated as [c|]; [injection Hc as <-; by apply Hv|by apply precheck_inv]).
  destruct Hp as [_ _ _ Hnew Hnq Hcost]. destruct (missing cost).
  - apply bind_Ok_inv in H as (causal & _ & H). apply bind_Ok_inv in H as ([] & _ & H).
    apply bind_Ok_inv in H as (g1 & Hi & H). injection H as <- <-. by eapply insert_accounts.
  - destruct validated; [by eapply quarantine_accounts|]. destruct (is_authorized_signer g _); [by eapply quarantine_accounts|done].
Qed.

(** A quarantined fact is neither admitted nor, once removed, quarantined. *)
Lemma retried_not_present g f g' a :
  facts g !! sf_id f = None → quarantined (quarantine g) !! sf_id f = None → admit_inner g f true None None = Ok (g', a) → a ≠ AlreadyPresent.
Proof.
  intros Hf Hq H ->. unfold admit_inner in H. apply bind_Ok_inv in H as ([cost|] & Hp & H).
  - destruct (missing cost).
    + apply bind_Ok_inv in H as (causal & _ & H). apply bind_Ok_inv in H as ([] & _ & H). by apply bind_Ok_inv in H as (g1 & _ & H).
    + destruct (is_authorized_signer _ _) eqn:Hs; [|done]. unfold admit_quarantined in H. rewrite Hs in H. cbn [negb] in H. by apply bind_Ok_inv in H as ([] & _ & H).
  - unfold precheck in Hp. apply bind_Ok_inv in Hp as ([] & _ & Hp). destruct (bool_decide (_ ≠ _)); [done|].
    apply bind_Ok_inv in Hp as ([] & _ & Hp). rewrite Hf, Hq in Hp. destruct (bool_decide _); [done|].
    apply bind_Ok_inv in Hp as (c & _ & Hp). destruct (missing c); [|done]. apply bind_Ok_inv in Hp as ([n|] & _ & Hp); [done|].
    by destruct (List.find _ _).
Qed.

Lemma retry_waiter_accounts g id g' b :
  exact g → retry_waiter g id = Ok (g', b) → accounts g None → accounts g' None ∧ (within g → within g').
Proof.
  intros Hq H Ha. unfold retry_waiter in H. apply bind_Ok_inv in H as ([g1 o] & Hr & H).
  pose proof (remove_quarantine_inv _ _ _ _ Hq Hr) as (Hq1 & Hf1 & Hqq & _ & ->).
  destruct (quarantined (quarantine g) !! id) as [f|] eqn:Hf.
  2:{ injection H as <- _. unfold remove_quarantine in Hr. cbn [quarantined remove_ready] in Hr. rewrite Hf in Hr. injection Hr as <-.
      destruct Ha. by split; [|intros []]. }
  destruct (remove_accounts _ _ _ _ Hr Hf Ha) as [Ha1 Hw1]. apply bind_Ok_inv in H as (cost & [He _]%fact_cost_sizes & H).
  destruct (qe_new _ _ Hq id f Hf) as (Hid & Hnf & _).
  destruct (admit_inner g1 f true None None) as [[g2 a]|e] eqn:Hadm.
  - injection H as <- _. destruct (admit_inner_accounts g1 f true None None g2 a) as [H1 H2]; try done; [|split; auto].
    intros _. eapply retried_not_present; [| |exact Hadm]; rewrite Hid; [by rewrite Hf1|]. rewrite Hqq. apply lookup_delete_eq.
  - destruct (is_terminal_waiter_error _ _ _); [|done]. injection H as <- _.
    destruct (release_accounts g1 f cost He Ha1) as [H1 H2]. split; auto.
Qed.

Lemma steps_tables g g' : rtc step g g' → exact g → exact g'.
Proof. induction 1 as [|x y z Hxy _ IH]; [done|]. intros Hx. apply IH. by eapply step_tables. Qed.

Lemma retry_waiters_accounts ids g touched g' touched' :
  exact g → retry_waiters g touched ids = Ok (g', touched') → accounts g None →
  exact g' ∧ accounts g' None ∧ (within g → within g').
Proof.
  revert g touched. induction ids as [|id ids IH]; intros g touched Hq H Ha; cbn [retry_waiters] in H; [by injection H as <- _|].
  apply bind_Ok_inv in H as ([g1 b] & H1 & H). destruct (retry_waiter_accounts _ _ _ _ Hq H1 Ha) as [Ha1 Hw1].
  pose proof (steps_tables _ _ (retry_waiter_steps _ _ _ _ H1) Hq) as Hq1.
  destruct (IH _ _ Hq1 H Ha1) as (? & ? & ?). split_and!; auto.
Qed.

Lemma retry_rounds_accounts rounds limit budget g processed touched g' touched' :
  exact g → retry_rounds rounds limit budget g processed touched = Ok (g', touched') → accounts g None →
  accounts g' None ∧ (within g → within g').
Proof.
  revert budget g processed touched. induction rounds as [|rounds IH]; intros budget g processed touched Hq H Ha;
    cbn [retry_rounds] in H; destruct (take _ _); try done.
  1,2: destruct (filter _ _); [by injection H as <- _|done].
  apply bind_Ok_inv in H as ([g1 t1] & H1 & H). destruct (retry_waiters_accounts _ _ _ _ _ Hq H1 Ha) as (Hq1 & Ha1 & Hw1).
  destruct (IH _ _ _ _ Hq1 H Ha1). split; auto.
Qed.

Lemma with_cache_accounts g cache : accounts g None → accounts (with_cache g cache) None ∧ (within g → within (with_cache g cache)).
Proof. intros []. split; [by split|]. intros []. by split. Qed.

Lemma admit_journaled_accounts g f g' a d :
  exact g → admit_journaled g f = Ok (g', a, d) → accounts g None → accounts g' None ∧ (within g → within g').
Proof.
  intros Hq H Ha. unfold admit_journaled in H. apply bind_Ok_inv in H as ([pa [cost|]] & Hp & H); cbn [snd] in H; [|by injection H as <- _ _].
  apply preflight_precheck, precheck_inv, (prechecked_cache _ _ _ None) in Hp. apply bind_Ok_inv in H as ([g1 a1] & H1 & H).
  apply bind_Ok_inv in H as ([g2 t] & H2 & H). destruct (is_bounded_and_unique _ _); [|done]. injection H as <- _ _. cbn [fst].
  assert (Hv : ∀ c, Some cost = Some c → prechecked (uncached g) f c) by (by intros c [= <-]).
  destruct (with_cache_accounts g None Ha) as [Hau Hwu].
  destruct (admit_inner_accounts (uncached g) _ _ _ _ _ _ Hq Hv H1 Hau ltac:(done)) as [Ha1 Hw0].
  assert (Hw1 : within g → within g1) by (intros Hw; by apply Hw0, Hwu). clear Hw0 Hwu.
  assert (Hq1 : exact g1).
  { apply (admit_inner_step g) in H1 as [[_ ?]|H1]; [done|by eapply step_tables|by right|done..]. }
  destruct a1; try (injection H2 as <- _; by split). destruct (_ =? _)%nat; [done|].
  destruct (retry_rounds_accounts _ _ _ _ _ _ _ _ Hq1 H2 Ha1). split; auto.
Qed.

Lemma bootstrap_accounts context roots p limits : accounts (from_bootstrap context roots p limits) None.
Proof. split; cbn; rewrite ?total_empty; try done; intros a; cbn; by rewrite ?total_empty. Qed.

Definition limits_ok (l : SemanticAdmissionPolicy) : Prop :=
  Forall (λ z, 0 ≤ z) [max_admitted_facts l; max_admitted_bytes l; max_database_bytes l; max_dependency_edges l; max_quarantined_facts l;
    max_quarantined_bytes l; max_quarantined_facts_per_author l; max_quarantined_bytes_per_author l;
    max_retained_facts_per_author l; max_retained_bytes_per_author l].

Lemma bootstrap_within context roots p limits : limits_ok limits → within (from_bootstrap context roots p limits).
Proof.
  intros H. unfold limits_ok in H. rewrite !Forall_cons in H. destruct_and!. by split.
Qed.

Lemma reachable_accounts context roots p limits g :
  reachable context roots p limits g → accounts g None ∧ (limits_ok limits → within g).
Proof.
  induction 1 as [|g f g' a Hr [Ha Hw] H|g f g' a d Hr [Ha Hw] H|g f e Hr [Ha Hw] _|g Hr [Ha Hw]].
  - split; [apply bootstrap_accounts|apply bootstrap_within].
  - unfold admit_fact in H. destruct (admit_inner_accounts g f false None None g' a) as [H1 H2]; try done; [by eapply reachable_tables|]. split; auto.
  - destruct (admit_journaled_accounts _ _ _ _ _ (reachable_tables _ _ _ _ _ Hr) H Ha). split; auto.
  - destruct (with_cache_accounts g None Ha). split; auto.
  - destruct (with_cache_accounts g (Some (generation g, projection g)) Ha). split; auto.
Qed.

(** *** The database budget *)
(** The recorded sizes of a commitment are not negative. *)
Fixpoint sized (n : MerkleNode) : Prop :=
  match n with
  | Empty _ b | Leaf _ _ b => 0 ≤ b
  | Branch l r _ b => 0 ≤ b ∧ sized l ∧ sized r
  end.

Lemma or_max_nonneg (o : option Z) : from_option (λ z, 0 ≤ z) True o → 0 ≤ or_max o.
Proof. destruct o; [done|]. intros _. by unfold or_max, u64_max. Qed.

Lemma checked_add_nonneg a b : 0 ≤ a → 0 ≤ b → from_option (λ z, 0 ≤ z) True (checked_add u64_max a b).
Proof. unfold checked_add. intros Ha Hb. destruct (_ <=? _); [cbn; lia|done]. Qed.

Lemma node_bytes_nonneg n : sized n → 0 ≤ node_bytes n.
Proof. destruct n; [done|done|by intros [? _]]. Qed.

Lemma leaf_sized entries : sized (leaf_node entries).
Proof.
  unfold leaf_node. cbn. generalize (1 + 32)%Z, (ltac:(done) : 0 ≤ 1 + 32). intros z. revert z.
  induction entries as [|e entries IH]; intros z Hz; [done|]. cbn. apply IH, or_max_nonneg, checked_add_nonneg; lia.
Qed.

Lemma branch_sized depth l r : sized l → sized r → sized (branch_node depth l r).
Proof.
  intros Hl Hr. split_and!; [|done..]. apply node_bytes_nonneg in Hl, Hr. apply or_max_nonneg.
  pose proof (checked_add_nonneg (1 + 32) (node_bytes l) ltac:(done) Hl) as H. destruct (checked_add _ _ (node_bytes l)) as [v|]; [|done].
  by apply checked_add_nonneg.
Qed.

Lemma update_sized rest n d key v : sized n → sized (update_merkle rest n d key v).
Proof.
  revert n. induction rest as [|rest IH]; intros n Hn; cbn [update_merkle].
  - destruct (update_entries _ key v); [done|apply leaf_sized].
  - assert (Hc : ∀ l r, sized l → sized r → sized (let '(l, r) :=
        if digest_bit d (256 - S rest) then (l, update_merkle rest r d key v) else (update_merkle rest l d key v, r) in
        if is_empty l && is_empty r then empty_node (256 - S rest) else branch_node (256 - S rest) l r)).
    { intros l r Hl Hr. destruct (digest_bit _ _); (destruct (_ && _); [done|]); apply branch_sized; auto. }
    destruct n as [| |l r]; [by apply Hc..|]. destruct Hn as (_ & ? & ?). by apply Hc.
Qed.

Lemma foldl_sized {A} (h : ProjectionCommitment → A → ProjectionCommitment) rows c :
  (∀ c row, sized c → sized (h c row)) → sized c → sized (foldl h c rows).
Proof. intros Hh. revert c. induction rows as [|row rows IH]; intros c Hc; [done|]. cbn. by apply IH, Hh. Qed.

Definition sized_graph (g : FactGraph) : Prop := sized (p_commitment (projection g)).

Lemma from_graph_sized (g : FactGraph) : sized (p_commitment (from_graph g)).
Proof. cbn. unfold commitment_from_maps. do 2 (apply foldl_sized; [intros ? ? ?; by apply update_sized|]). done. Qed.

Lemma updated_sized g previous f : sized (p_commitment previous) → sized (p_commitment (updated_projection g previous f)).
Proof.
  intros Hp. unfold updated_projection. destruct (projection_impact_for_fact g f). destruct (defer_projection_commitment g); [done|].
  cbn. do 2 (apply foldl_sized; [intros ? ? ?; by apply update_sized|]). done.
Qed.

Lemma projection_warm g : projection (warm g) = projection g.
Proof. unfold projection at 1. cbn. by rewrite Z.eqb_refl. Qed.

Lemma judging_sized g j : judging g j → sized_graph g → sized_graph j.
Proof. intros [->| ->] Hg; [done|]. apply from_graph_sized. Qed.

Lemma step_resident g g' : step g g' → sized_graph g ∧ resident g → sized_graph g' ∧ resident g'.
Proof.
  intros [j f cost causal reserved h Hj _ _ _ _ Hi|j f cost reserved h a Hj _ _ H|id h o H|author cost| |] [Hs Hb];
    try (split; [exact Hs|exact Hb]).
  - apply insert_fact_inv in Hi as (delta & prov & bytes & _ & _ & _ & _ & Hdb & ->).
    unfold sized_graph, resident. unfold projection at 1. cbn in *. rewrite Z.eqb_refl.
    pose proof (updated_sized (inserted_graph j f cost prov bytes) _ f Hs) as Hu. split; [done|].
    apply node_bytes_nonneg in Hu. unfold commitment_bytes, retained_bytes in Hdb. lia.
  - apply admit_quarantined_inv in H as (_ & _ & q & r & ->). split; [|by destruct Hj as [->| ->]].
    change (sized (p_commitment (projection (warm j)))). rewrite projection_warm. by eapply judging_sized.
  - apply remove_quarantine_frame in H as [q ->]. split; [exact Hs|exact Hb].
  - split; [apply from_graph_sized|done].
  - split; [|done]. unfold sized_graph. by rewrite projection_warm.
Qed.

Lemma reachable_resident context roots p limits g :
  0 ≤ max_database_bytes limits → reachable context roots p limits g → resident g.
Proof.
  intros Hl Hr. apply (reachable_invariant (λ g, sized_graph g ∧ resident g)) in Hr as [_ Hr]; [done| |apply step_resident].
  split; [apply from_graph_sized|done].
Qed.

Lemma insert_funded g f cost reserved previous g' : insert_fact g f cost reserved previous = Ok g' → funded g'.
Proof.
  intros H. apply insert_fact_inv in H as (delta & prov & bytes & _ & _ & _ & _ & Hdb & ->).
  unfold funded, projection. cbn in *. by rewrite Z.eqb_refl.
Qed.

Lemma warm_funded g : funded g → funded (warm g).
Proof. unfold funded. by rewrite projection_warm. Qed.

Lemma admit_inner_funded g f reserved validated supplied g' a :
  admit_inner g f reserved validated supplied = Ok (g', a) → a = Inserted ∨ funded g → funded g'.
Proof.
  intros H Hf. unfold admit_inner in H. apply bind_Ok_inv in H as ([cost|] & _ & H); [|injection H as <- <-; by destruct Hf].
  assert (Hq : admit_quarantined g f cost reserved = Ok (g', a) → funded g').
  { intros Hq. pose proof Hq as (_ & _ & q & r & ->)%admit_quarantined_inv. apply warm_funded. destruct Hf as [->|]; [|done].
    unfold admit_quarantined in Hq. destruct (negb _); [done|]. by apply bind_Ok_inv in Hq as ([] & _ & Hq). }
  destruct (missing cost); [|destruct validated; [by apply Hq|]; destruct (is_authorized_signer _ _); [by apply Hq|done]].
  apply bind_Ok_inv in H as (causal & _ & H). apply bind_Ok_inv in H as ([] & _ & H).
  apply bind_Ok_inv in H as (g1 & Hi & H). injection H as <- _. by eapply insert_funded.
Qed.

Lemma retry_waiter_funded g id g' b : retry_waiter g id = Ok (g', b) → funded g → funded g'.
Proof.
  unfold retry_waiter. intros H Hf. apply bind_Ok_inv in H as ([g1 o] & Hr & H).
  assert (Hf1 : funded g1) by (apply remove_quarantine_frame in Hr as [q ->]; exact Hf).
  destruct o as [f|]; [|by injection H as <- _]. apply bind_Ok_inv in H as (cost & _ & H).
  destruct (admit_inner g1 f true None None) as [[g2 a]|e] eqn:Ha.
  - injection H as <- _. eapply admit_inner_funded; [exact Ha|by right].
  - destruct (is_terminal_waiter_error _ _ _); [|done]. by injection H as <- _.
Qed.

Lemma retry_waiters_funded ids g touched g' touched' :
  retry_waiters g touched ids = Ok (g', touched') → funded g → funded g'.
Proof.
  revert g touched. induction ids as [|id ids IH]; intros g touched H Hf; cbn [retry_waiters] in H; [by injection H as <- _|].
  apply bind_Ok_inv in H as ([g1 b] & H1 & H). eapply IH; [exact H|]. by eapply retry_waiter_funded.
Qed.

Lemma retry_rounds_funded rounds limit budget g processed touched g' touched' :
  retry_rounds rounds limit budget g processed touched = Ok (g', touched') → funded g → funded g'.
Proof.
  revert budget g processed touched. induction rounds as [|rounds IH]; intros budget g processed touched H Hf;
    cbn [retry_rounds] in H; destruct (take _ _); try done.
  1,2: destruct (filter _ _); [by injection H as <- _|done].
  apply bind_Ok_inv in H as ([g1 t1] & H1 & H). eapply IH; [exact H|]. by eapply retry_waiters_funded.
Qed.

Lemma admit_journaled_funded g f g' d : admit_journaled g f = Ok (g', Inserted, d) → funded g'.
Proof.
  unfold admit_journaled. intros H. apply bind_Ok_inv in H as ([pa [cost|]] & _ & H); cbn [snd] in H; [|done].
  apply bind_Ok_inv in H as ([g1 a1] & H1 & H). apply bind_Ok_inv in H as ([g2 t] & H2 & H).
  destruct (is_bounded_and_unique _ _); [|done]. injection H as <- -> _. cbn [fst]. destruct (_ =? _)%nat; [done|].
  eapply retry_rounds_funded; [exact H2|]. eapply admit_inner_funded; [exact H1|by left].
Qed.

(** C15: The counters of every reachable graph are exact: admitted and quarantined
    bytes and dependency edges are the sums over the admitted and the quarantined
    facts, and every author's quarantined and retained rows count exactly its
    quarantined, respectively its admitted and quarantined, facts and their bytes.
    Promotion, repeated quarantine and terminal rejection of waiters neither leak
    nor double a reservation. *)
Theorem reachable_accounts_are_exact context roots p limits g :
  reachable context roots p limits g → accounts g None.
Proof. intros H. by apply (reachable_accounts _ _ _ _ _ H). Qed.

(** C20: Admission keeps the policy's limits.  With limits that are not negative, in every
    reachable graph the admitted and quarantined counts and bytes, the shared edge
    budget and every author's quarantined and retained usage are within their
    limits, and admitted bytes plus index bytes are within the database budget; and
    in the graph left by an admission, plain or journaled, that inserts its fact,
    admitted bytes plus index bytes plus the commitment of the current projection
    are within that budget. *)
Theorem reachable_within_limits context roots p limits g :
  reachable context roots p limits g → limits_ok limits →
  within g ∧ resident g ∧
  ∀ f g', (admit_fact g f = Ok (g', Inserted) ∨ ∃ d, admit_journaled g f = Ok (g', Inserted, d)) → funded g'.
Proof.
  intros H Hl. split_and!; [by apply (reachable_accounts _ _ _ _ _ H)| |].
  - eapply reachable_resident; [|exact H]. unfold limits_ok in Hl. rewrite !Forall_cons in Hl. tauto.
  - intros f g' [Hf|[d Hf]]; [unfold admit_fact in Hf; eapply admit_inner_funded; [exact Hf|by left]|by eapply admit_journaled_funded].
Qed.
End accounts.
