(* ===== verification/IndexBytes.v ===== *)
(** * The incremental index bytes are the full scan

    [exact_index_residency_delta] maintains [derived_index_bytes] fact by fact;
    [logical_index_residency_bytes] scans every index.  In reachable graphs they
    agree. *)

From S2P Require Import Prelude Ranking Bytes Identity Content Merkle Ancestry Projection FactGraph Residency.
From S2P Require Import Evaluator Admission GraphIndex GraphProvenance GraphInv QuarantineInv Accounts.
Local Open Scope Z_scope.

(** ** Sums *)
Definition sum_of {A} (c : A → Z) (l : list A) : Z := foldr (λ x acc, c x + acc) 0 l.

Lemma sum_of_ext {A} (c c' : A → Z) l : (∀ x, x ∈ l → c x = c' x) → sum_of c l = sum_of c' l.
Proof. induction l as [|x l IH]; intros H; [done|]. cbn. rewrite (H x) by left. f_equal. apply IH. intros y Hy. apply H. by right. Qed.
Lemma sum_of_perm {A} (c : A → Z) l l' : l ≡ₚ l' → sum_of c l = sum_of c l'.
Proof. unfold sum_of. induction 1; cbn; lia. Qed.
Lemma sum_of_add {A} (c c' : A → Z) l : sum_of (λ x, c x + c' x) l = sum_of c l + sum_of c' l.
Proof. unfold sum_of. induction l as [|x l IH]; cbn; lia. Qed.

Lemma sum_of_nonneg {A} (c : A → Z) l : (∀ x, 0 ≤ c x) → 0 ≤ sum_of c l.
Proof. unfold sum_of. intros Hc. induction l as [|x l IH]; cbn; [lia|]. specialize (Hc x). lia. Qed.

Section keyed.
Context {K A : Type} `{Countable K} (row item : Z).

(** The bytes of an index: a row per key and an item per entry. *)
Definition row_bytes (l : list A) : Z := row + item * Z.of_nat (length l).
Definition rows_total (ix : gmap K (list A)) : Z := map_fold (λ _ l acc, row_bytes l + acc) 0 ix.

Lemma rows_total_empty : rows_total ∅ = 0.
Proof. apply map_fold_empty. Qed.
Lemma rows_total_insert_None ix k l : ix !! k = None → rows_total (<[k := l]> ix) = row_bytes l + rows_total ix.
Proof. intros Hk. unfold rows_total. rewrite map_fold_insert_L; [done|intros; lia|done]. Qed.

(** What writing [l] at [k] adds. *)
Definition write_cost (old : option (list A)) (l : list A) : Z :=
  row_bytes l - match old with Some l' => row_bytes l' | None => 0 end.

Lemma rows_total_insert ix k l : rows_total (<[k := l]> ix) = rows_total ix + write_cost (ix !! k) l.
Proof.
  unfold write_cost. destruct (ix !! k) as [l'|] eqn:Hk; [|rewrite rows_total_insert_None by done; lia].
  rewrite <- insert_delete_eq, rows_total_insert_None by apply lookup_delete_eq.
  rewrite <- (insert_delete_id ix k l' Hk) at 2. rewrite rows_total_insert_None by apply lookup_delete_eq. lia.
Qed.

Lemma rows_total_foldl (h : list A → list A) ix keys :
  NoDup keys →
  rows_total (foldl (λ a k, <[k := h (default [] (a !! k))]> a) ix keys) =
  rows_total ix + sum_of (λ k, write_cost (ix !! k) (h (default [] (ix !! k)))) keys.
Proof.
  intros Hnd. revert ix. induction Hnd as [|x l Hx Hnd IH]; intros ix; cbn [foldl sum_of foldr]; [lia|].
  rewrite IH, rows_total_insert, <- Z.add_assoc. do 2 f_equal. apply sum_of_ext. intros k Hk.
  rewrite lookup_insert_ne; [done|]. by intros ->.
Qed.
End keyed.

Section bytes.
Context {crypto : Crypto} {laws : CryptoLaws} {layout : Layout} {sizes : LayoutLaws}.

(** ** Additive loops *)
Lemma deltas_sum {A} (h : Z * Z → A → result SemanticError (Z * Z)) (c : A → Z) l d d' :
  (∀ d x d', x ∈ l → h d x = Ok d' → d'.1 - d'.2 = d.1 - d.2 + c x) →
  deltas h d l = Ok d' → d'.1 - d'.2 = d.1 - d.2 + sum_of c l.
Proof.
  revert d. induction l as [|x l IH]; intros d Hh H; cbn [deltas] in H; cbn [sum_of foldr]; [injection H as <-; lia|].
  apply bind_Ok_inv in H as (d1 & H1 & H). apply Hh in H1; [|by left]. apply IH in H; [|intros; apply Hh; [by right|done]].
  unfold sum_of in H. lia.
Qed.

Lemma sum_bytes_Ok {A} limit (h : A → result SemanticError Z) (c : A → Z) l total :
  (∀ x, 0 ≤ c x) → (∀ x, c x ≤ u64_max → h x = Ok (c x)) → 0 ≤ total → total + sum_of c l ≤ u64_max →
  sum_bytes limit h total l = Ok (total + sum_of c l).
Proof.
  intros Hc Hh. revert total. induction l as [|x l IH]; intros total Ht Hle; cbn [sum_bytes sum_of foldr] in *; [f_equal; lia|].
  fold (sum_of c l) in *. pose proof (sum_of_nonneg c l Hc).
  pose proof (Hc x). rewrite Hh by lia. cbn [mbind result_bind]. unfold checked_add_bytes, checked_add.
  destruct (Z.leb_spec (total + c x) u64_max); [|lia]. cbn [ok_or mbind result_bind]. rewrite IH by lia. f_equal. lia.
Qed.

Lemma entry_bytes_Ok limit inline n value :
  0 < inline → 0 < value → inline + value * Z.of_nat n ≤ u64_max →
  checked_entry_bytes limit inline 0 n value = Ok (inline + value * Z.of_nat n).
Proof.
  intros Hi Hv Hle. assert (Hn : Z.of_nat n ≤ u64_max) by nia.
  unfold checked_entry_bytes, checked_len, checked_mul_bytes, checked_add_bytes, checked_mul, checked_add.
  destruct (Z.leb_spec (Z.of_nat n) u64_max); [|lia]. cbn [mbind result_bind].
  rewrite (Z.mul_comm (Z.of_nat n)). destruct (Z.leb_spec (value * Z.of_nat n) u64_max); [|lia]. cbn [mbind result_bind ok_or].
  rewrite Z.add_0_r. destruct (Z.leb_spec inline u64_max); [|lia]. cbn [mbind result_bind ok_or].
  destruct (Z.leb_spec (inline + value * Z.of_nat n) u64_max); [done|lia].
Qed.

(** ** One keyed row *)
Lemma length_set_insert {A} (cmp : A → A → comparison) `{!CmpSpec cmp} x l :
  increasing cmp l → x ∉ l → length (set_insert cmp x l) = S (length l).
Proof.
  intros Hl Hx. rewrite <- (Permutation_length (l := x :: l)); [done|]. apply NoDup_Permutation.
  - constructor; [done|by apply (increasing_NoDup cmp)].
  - by apply (increasing_NoDup cmp), set_insert_increasing.
  - intros y. rewrite elem_of_set_insert, elem_of_cons by done. done.
Qed.

Lemma length_filter_split {A} (b : A → bool) (l : list A) :
  (length (filter (λ x, b x = true) l) + length (filter (λ x, b x = false) l) = length l)%nat.
Proof.
  induction l as [|x l IH]; [done|]. rewrite !filter_cons.
  destruct (decide (b x = true)), (decide (b x = false)); cbn; try lia; [congruence|by destruct (b x)].
Qed.

Lemma set_row_delta_Ok {A} `{EqDecision A} limit row item (set : option (list A)) x added added' :
  x ∉ default [] set → set_row_delta limit row item set x added = Ok added' →
  added' = added + item + match set with None => row | Some _ => 0 end.
Proof.
  unfold set_row_delta. intros Hx H. apply bind_Ok_inv in H as (a & Ha & H). rewrite bool_decide_false in H by done.
  apply checked_add_bytes_Ok in H. destruct set; [injection Ha as <-|apply checked_add_bytes_Ok in Ha]; lia.
Qed.

Lemma set_write_cost {A} (cmp : A → A → comparison) `{!CmpSpec cmp} row item (set : option (list A)) x :
  increasing cmp (default [] set) → x ∉ default [] set →
  write_cost row item set (set_insert cmp x (default [] set)) = item + match set with None => row | Some _ => 0 end.
Proof.
  intros Hi Hx. unfold write_cost, row_bytes. rewrite length_set_insert, Nat2Z.inj_succ, Z.mul_succ_r by done.
  destruct set as [l|]; cbn; lia.
Qed.

Lemma sorted_rows_perm {W} (p : gmap FactId W) : sorted_rows b32_cmp p ≡ₚ map_to_list p.
Proof.
  apply NoDup_Permutation.
  - apply (NoDup_fmap_1 fst). rewrite keys_sorted_rows by apply _. apply sorted_set_NoDup, _.
  - apply NoDup_map_to_list.
  - intros [k v]. rewrite elem_of_sorted_rows, elem_of_map_to_list by apply _. done.
Qed.

Section insert.
Context (g : FactGraph) (f : SignedFact) (Hg : graph_exact g) (Hnew : facts g !! sf_id f = None)
        (Hdeps : ∀ d, d ∈ dependencies f → is_Some (facts g !! d)) (Hv : verify_fact f = Ok ()).
Notation m := (facts g).
Notation m' := (<[sf_id f := f]> m).
Notation dominated n h := (signed_head_is_dominated n (dependencies f) h).

Lemma dominated_old h : dominated m' h = dominated m h.
Proof.
  apply Bool.eq_iff_eq_true. rewrite !dominated_spec. 
  assert (Hp : ∀ d, d ∈ dependencies f → rtc (dep_edge m') d h ↔ rtc (dep_edge m) d h).
  { intros d [q Hq]%Hdeps. assert (Hd : d ≠ sf_id f) by congruence. split; (intros [->|Ht]%rtc_tc; [done|apply tc_rtc]).
    - by apply (path_old m f (ge_closed _ Hg) Hnew Hdeps) in Ht.
    - by apply (path_old m f (ge_closed _ Hg) Hnew Hdeps). }
  split; intros (d & Hd & Hr); exists d; (split; [done|by apply Hp]).
Qed.

Lemma heads_write_cost row (heads : option (list FactId)) :
  increasing b32_cmp (default [] heads) → sf_id f ∉ default [] heads →
  write_cost row size_fact_id heads (insert_maximal_head m' (default [] heads) (sf_id f)) =
  match heads with None => row | Some _ => 0 end + size_fact_id
  - size_fact_id * Z.of_nat (length (filter (λ h, dominated m h = true) (default [] heads))).
Proof.
  intros Hi Hx. unfold insert_maximal_head. rewrite lookup_insert_eq.
  rewrite (list_filter_iff _ (λ h, dominated m h = false)) by (intros h; by rewrite dominated_old).
  unfold write_cost, row_bytes. rewrite length_set_insert, Nat2Z.inj_succ, Z.mul_succ_r; [|apply _|by apply increasing_filter|].
  - pose proof (length_filter_split (λ h, dominated m h) (default [] heads)) as Hlen.
    destruct heads as [l|]; cbn [default from_option] in *; unfold id in *; [|cbn in *; lia]. cbv beta in Hlen. nia.
  - intros [_ ?]%list_elem_of_filter. done.
Qed.

Lemma head_replacement_Ok heads inline dynamic d d' :
  head_replacement_delta g heads (dependencies f) inline dynamic d = Ok d' →
  d'.1 - d'.2 = d.1 - d.2 + match heads with None => inline + dynamic | Some _ => 0 end + size_fact_id
                - size_fact_id * Z.of_nat (length (filter (λ h, dominated m h = true) (default [] heads))).
Proof.
  unfold head_replacement_delta. destruct d as [added removed]. intros H. apply bind_Ok_inv in H as (a & Ha & H).
  apply bind_Ok_inv in H as (a' & Ha'%checked_add_bytes_Ok & H). apply bind_Ok_inv in H as (n & Hn%checked_len_Ok & H).
  apply bind_Ok_inv in H as (b & Hb & H). apply bind_Ok_inv in H as (r & Hr%checked_add_bytes_Ok & H). injection H as <-.
  unfold checked_mul_bytes in Hb. apply ok_or_Ok in Hb. z_norm. subst n. cbn [fst snd].
  destruct heads as [l|]; [injection Ha as <-; lia|].
  apply bind_Ok_inv in Ha as (row & Hrow%checked_add_bytes_Ok & Ha%checked_add_bytes_Ok). lia.
Qed.

(** Rows of exact indexes are increasing lists of known facts. *)
Lemma exact_row {K} `{Countable K} (kind : K → SignedFact → bool) ix k :
  heads_exact kind m ix ∨ members_exact kind m ix → increasing b32_cmp (default [] (ix !! k)) ∧ sf_id f ∉ default [] (ix !! k).
Proof.
  intros [He|He]; specialize (He k); (destruct (ix !! k) as [l|]; [|split; [constructor|apply not_elem_of_nil]]);
    destruct He as (_ & Hi & Hl); (split; [done|]); intros Hx%Hl.
  - destruct Hx as [(h & Hh & _) _]. congruence.
  - destruct Hx as (h & Hh & _). congruence.
Qed.

Definition cell_heads_row (c : ExclusiveCell) : Z :=
  write_cost size_cell_row size_fact_id (cell_heads_index (indexes g) !! c)
    (insert_maximal_head m' (default [] (cell_heads_index (indexes g) !! c)) (sf_id f)).
Definition new_cell (c : ExclusiveCell) : Z := if decide (c ∈ cells_index (indexes g)) then 0 else size_cell.

Lemma cell_dynamic_zero c : cell_dynamic_bytes c = 0.
Proof. by destruct c. Qed.

Lemma cell_delta_Ok d c d' : cell_delta g (dependencies f) d c = Ok d' → d'.1 - d'.2 = d.1 - d.2 + (new_cell c + cell_heads_row c).
Proof.
  unfold cell_delta. intros H. apply bind_Ok_inv in H as (a & Ha & H). apply head_replacement_Ok in H. cbn [fst snd] in H.
  destruct (exact_row cell_kind (cell_heads_index (indexes g)) c) as [Hi Hx]; [left; apply Hg|].
  unfold cell_heads_row, new_cell. rewrite (heads_write_cost _ _ Hi Hx). rewrite cell_dynamic_zero in *.
  assert (Ha' : a = d.1 + if decide (c ∈ cells_index (indexes g)) then 0 else size_cell).
  { destruct (decide _); [rewrite bool_decide_true in Ha by done|rewrite bool_decide_false in Ha by done]; [injection Ha; lia|].
    apply bind_Ok_inv in Ha as (row & Hrow%checked_add_bytes_Ok & Ha%checked_add_bytes_Ok). lia. }
  destruct (cell_heads_index (indexes g) !! c); lia.
Qed.

Definition authority_heads_row (s : Device) : Z :=
  write_cost size_device_row size_fact_id (authority_heads_index (indexes g) !! s)
    (insert_maximal_head m' (default [] (authority_heads_index (indexes g) !! s)) (sf_id f)).
Definition authority_facts_row (s : Device) : Z :=
  write_cost size_device_row size_fact_id (authority_facts_index (indexes g) !! s)
    (set_insert b32_cmp (sf_id f) (default [] (authority_facts_index (indexes g) !! s))).

Lemma subject_delta_Ok d s d' :
  subject_delta g (sf_id f) (dependencies f) d s = Ok d' → d'.1 - d'.2 = d.1 - d.2 + (authority_heads_row s + authority_facts_row s).
Proof.
  unfold subject_delta. intros H. apply bind_Ok_inv in H as (row & Hrow%checked_add_bytes_Ok & H). apply bind_Ok_inv in H as (a & Ha & H).
  apply head_replacement_Ok in H. cbn [fst snd] in H. unfold device_dynamic_bytes in *.
  destruct (exact_row lineage_kind (authority_heads_index (indexes g)) s) as [Hi Hx]; [left; apply Hg|].
  destruct (exact_row authority_kind (authority_facts_index (indexes g)) s) as [Hi' Hx']; [right; apply Hg|].
  apply set_row_delta_Ok in Ha; [|done]. unfold authority_heads_row, authority_facts_row.
  rewrite (heads_write_cost _ _ Hi Hx), (set_write_cost b32_cmp) by done.
  destruct (authority_heads_index (indexes g) !! s), (authority_facts_index (indexes g) !! s); lia.
Qed.

Lemma indexed_subjects_eq :
  indexed_authority_subjects f =
  filter (λ s, is_payload_local_resolution (fc_body (sf_content f)) (fc_author (sf_content f)) s = false)
    (authority_use_subjects (fc_body (sf_content f)) (fc_author (sf_content f))).
Proof.
  apply verify_fact_Ok in Hv as [Hc _]. destruct Hc as (_ & _ & _ & Huses & _).
  apply (increasing_unique device_spelling_cmp); [apply btree_set_increasing, _|apply increasing_filter, sort_dedup_increasing, _|].
  intros s. unfold indexed_authority_subjects. rewrite elem_of_btree_set, list_elem_of_filter, <- Huses, !list_elem_of_fmap by apply _. split.
  - intros (u & -> & [Hp Hu]%list_elem_of_filter). split; [done|by exists u].
  - intros [Hp (u & -> & Hu)]. exists u. split; [done|]. by apply list_elem_of_filter.
Qed.

(** *** The selector row and the stand-down row *)
Lemma selector_row_new s p : p.1 = sf_id f → p ∉ default [] (authority_selector_index (indexes g) !! s) ∧
  increasing selector_cmp (default [] (authority_selector_index (indexes g) !! s)).
Proof.
  intros Hp. pose proof (exact_selectors _ _ (ge_indexes _ Hg) s) as He.
  destruct (authority_selector_index (indexes g) !! s) as [l|]; [|split; [apply not_elem_of_nil|constructor]].
  destruct He as (_ & Hi & Hl). split; [|done]. intros Hx%Hl. destruct Hx as (h & c & Hh & _). congruence.
Qed.

Lemma selector_delta_Ok limit added added' :
  match fc_body (sf_content f) with
  | AuthorityLineageResolution subject _ selected =>
      row ← checked_add_bytes limit size_selector_row (device_dynamic_bytes subject);
      set_row_delta limit row size_selector (authority_selector_index (indexes g) !! subject) (sf_id f, selected) added
  | _ => Ok added
  end = Ok added' →
  rows_total size_selector_row size_selector (authority_selector_index (index_fact_metadata m' (indexes g) (sf_id f))) =
  rows_total size_selector_row size_selector (authority_selector_index (indexes g)) + (added' - added).
Proof.
  unfold index_fact_metadata. rewrite lookup_insert_eq. cbn [authority_selector_index]. intros H.
  destruct (fc_body (sf_content f)) as [| | | | | | | |s c h]; try (injection H as <-; lia).
  apply bind_Ok_inv in H as (row & Hrow%checked_add_bytes_Ok & H). unfold device_dynamic_bytes in Hrow.
  destruct (selector_row_new s (sf_id f, h)) as [Hx Hi]; [done|]. apply set_row_delta_Ok in H; [|done].
  rewrite rows_total_insert, (set_write_cost selector_cmp) by done.
  destruct (authority_selector_index (indexes g) !! s); lia.
Qed.

Lemma stand_down_delta_Ok limit added added' :
  match stand_down_target (fc_body (sf_content f)) with
  | Some target =>
      row ← checked_add_bytes limit size_device_row (device_dynamic_bytes target);
      set_row_delta limit row size_fact_id (stand_down_index (indexes g) !! target) (sf_id f) added
  | None => Ok added
  end = Ok added' →
  rows_total size_device_row size_fact_id (stand_down_index (index_fact_metadata m' (indexes g) (sf_id f))) =
  rows_total size_device_row size_fact_id (stand_down_index (indexes g)) + (added' - added).
Proof.
  unfold index_fact_metadata. rewrite lookup_insert_eq. cbn [stand_down_index]. intros H.
  destruct (stand_down_target _) as [t|]; [|injection H as <-; lia].
  apply bind_Ok_inv in H as (row & Hrow%checked_add_bytes_Ok & H). unfold device_dynamic_bytes in Hrow.
  destruct (exact_row stand_down_kind (stand_down_index (indexes g)) t) as [Hi Hx]; [right; apply Hg|].
  apply set_row_delta_Ok in H; [|done]. unfold index_insert. rewrite rows_total_insert, (set_write_cost b32_cmp) by done.
  destruct (stand_down_index (indexes g) !! t); lia.
Qed.

(** *** Cells *)
Lemma size_union_list (l : list ExclusiveCell) (S : gset ExclusiveCell) :
  NoDup l → Z.of_nat (size (list_to_set l ∪ S)) = Z.of_nat (size S) + sum_of (λ c, if decide (c ∈ S) then 0 else 1) l.
Proof.
  induction 1 as [|x l Hx Hnd IH]; [cbn; rewrite union_empty_l_L; lia|]. cbn [list_to_set sum_of foldr]. fold (sum_of (λ c, if decide (c ∈ S) then 0 else 1) l).
  rewrite <- union_assoc_L. destruct (decide (x ∈ S)).
  - replace ({[x]} ∪ (list_to_set l ∪ S)) with (list_to_set l ∪ S); [lia|]. set_solver.
  - rewrite size_union, size_singleton; [lia|]. rewrite disjoint_singleton_l, not_elem_of_union, elem_of_list_to_set. done.
Qed.

(** *** Provenance *)
Definition provenance_bytes (row : AuthorityProvenanceRow) : Z := size_provenance_row + size_provenance * Z.of_nat (size row).
Definition provenance_total (p : AuthorityProvenance) : Z := map_fold (λ _ row acc, provenance_bytes row + acc) 0 p.
Definition provenance_old (p : AuthorityProvenance) (id : FactId) : Z :=
  match p !! id with Some row => provenance_bytes row | None => 0 end.

Lemma provenance_total_insert p id row :
  provenance_total (<[id := row]> p) = provenance_total p + provenance_bytes row - provenance_old p id.
Proof.
  assert (Hins : ∀ q r, q !! id = None → provenance_total (<[id := r]> q) = provenance_bytes r + provenance_total q).
  { intros q r Hq. unfold provenance_total. rewrite map_fold_insert_L; [done|intros; lia|done]. }
  unfold provenance_old. destruct (p !! id) as [old|] eqn:Hp; [|rewrite Hins by done; lia].
  rewrite <- insert_delete_eq, Hins by apply lookup_delete_eq. rewrite <- (insert_delete_id p id old Hp) at 2.
  rewrite Hins by apply lookup_delete_eq. lia.
Qed.

Lemma provenance_total_union changes p :
  provenance_total (changes ∪ p) =
  provenance_total p + sum_of (λ r, provenance_bytes r.2 - provenance_old p r.1) (map_to_list changes).
Proof.
  induction changes as [|id row changes Hid IH] using map_ind; [rewrite map_empty_union, map_to_list_empty; cbn; lia|].
  rewrite <- insert_union_l, provenance_total_insert, IH.
  rewrite (sum_of_perm _ _ _ (map_to_list_insert changes id row Hid)). cbn [sum_of foldr fst snd].
  replace (provenance_old (changes ∪ p) id) with (provenance_old p id); [unfold sum_of; lia|].
  unfold provenance_old. by rewrite lookup_union_r.
Qed.

Lemma provenance_row_bytes_Ok limit row n : provenance_row_bytes limit row = Ok n → n = provenance_bytes row.
Proof.
  unfold provenance_row_bytes, checked_entry_bytes. intros H. apply bind_Ok_inv in H as (c & ->%checked_len_Ok & H).
  apply bind_Ok_inv in H as (v & Hv' & H). apply bind_Ok_inv in H as (b & ->%checked_add_bytes_Ok & ->%checked_add_bytes_Ok).
  unfold checked_mul_bytes in Hv'. apply ok_or_Ok in Hv'. z_norm. unfold provenance_bytes. lia.
Qed.

Lemma provenance_delta_Ok limit rows d d' :
  provenance_delta_rows limit g d rows = Ok d' →
  d'.1 - d'.2 = d.1 - d.2 + sum_of (λ r, provenance_bytes r.2 - provenance_old (authority_provenance (indexes g)) r.1) rows.
Proof.
  revert d. induction rows as [|r rows IH]; intros d H; cbn [provenance_delta_rows] in H; cbn [sum_of foldr]; [injection H as <-; lia|].
  apply bind_Ok_inv in H as (d1 & H1 & H). apply IH in H. unfold sum_of in H. unfold provenance_delta_row in H1. destruct d as [a b].
  apply bind_Ok_inv in H1 as (b' & Hb & H1). apply bind_Ok_inv in H1 as (n & ->%provenance_row_bytes_Ok & H1).
  apply bind_Ok_inv in H1 as (a' & ->%checked_add_bytes_Ok & H1). injection H1 as <-. cbn [fst snd] in *.
  assert (b' = b + provenance_old (authority_provenance (indexes g)) r.1); [|lia]. unfold provenance_old.
  destruct (authority_provenance (indexes g) !! r.1); [|injection Hb as <-; lia].
  by apply bind_Ok_inv in Hb as (n & ->%provenance_row_bytes_Ok & Hb%checked_add_bytes_Ok).
Qed.

(** ** All indexes *)
Definition index_total (ix : Indexes) : Z :=
  rows_total size_cell_row size_fact_id (cell_heads_index ix) + rows_total size_device_row size_fact_id (authority_heads_index ix)
  + rows_total size_device_row size_fact_id (authority_facts_index ix)
  + rows_total size_selector_row size_selector (authority_selector_index ix) + provenance_total (authority_provenance ix)
  + size_cell * Z.of_nat (size (cells_index ix)) + rows_total size_device_row size_fact_id (stand_down_index ix).

Lemma inserted_cells_total :
  size_cell * Z.of_nat (size (list_to_set (body_cells (fc_body (sf_content f))) ∪ cells_index (indexes g))) =
  size_cell * Z.of_nat (size (cells_index (indexes g))) + sum_of new_cell (body_cells (fc_body (sf_content f))).
Proof.
  rewrite size_union_list by apply body_cells_NoDup. rewrite Z.mul_add_distr_l. f_equal.
  unfold sum_of, new_cell. induction (body_cells _) as [|c l IH]; cbn; [lia|]. rewrite <- IH. destruct (decide _); lia.
Qed.

Lemma index_delta_Ok d provenance :
  planned_provenance g f = Ok provenance → exact_index_residency_delta g f = Ok d →
  index_total (index_fact m' (set_provenance (indexes g) (provenance ∪ authority_provenance (indexes g))) (sf_id f)) =
  index_total (indexes g) + d.1 - d.2.
Proof.
  intros Hplan H. unfold exact_index_residency_delta in H. apply bind_Ok_inv in H as (d1 & H1 & H). apply bind_Ok_inv in H as (d2 & H2 & H).
  apply bind_Ok_inv in H as (a3 & H3 & H). apply bind_Ok_inv in H as (p & Hp & H). apply bind_Ok_inv in H as (a4 & ->%checked_add_bytes_Ok & H).
  apply bind_Ok_inv in H as (r & ->%checked_add_bytes_Ok & H). apply bind_Ok_inv in H as (a5 & H5 & H). injection H as <-.
  apply (deltas_sum _ (λ c, new_cell c + cell_heads_row c)) in H1; [|intros ? ? ? _; apply cell_delta_Ok].
  apply (deltas_sum _ (λ s, authority_heads_row s + authority_facts_row s)) in H2; [|intros ? ? ? _; apply subject_delta_Ok].
  rewrite sum_of_add in H1. rewrite sum_of_add in H2. apply selector_delta_Ok in H3. apply stand_down_delta_Ok in H5.
  unfold provenance_residency_delta in Hp. rewrite Hplan in Hp. cbn [mbind result_bind] in Hp. apply provenance_delta_Ok in Hp.
  pose proof (provenance_total_union provenance (authority_provenance (indexes g))) as Hpt.
  rewrite (sum_of_perm _ _ (map_to_list provenance)) in Hp by (by apply sorted_rows_perm).
  unfold index_total, index_fact, index_fact_heads. rewrite !lookup_insert_eq.
  cbn [cell_heads_index authority_heads_index authority_facts_index authority_selector_index authority_provenance cells_index stand_down_index].
  replace (authority_selector_index (index_fact_metadata m' (set_provenance (indexes g) _) (sf_id f)))
    with (authority_selector_index (index_fact_metadata m' (indexes g) (sf_id f))) by (unfold index_fact_metadata; by rewrite lookup_insert_eq).
  replace (stand_down_index (index_fact_metadata m' (set_provenance (indexes g) _) (sf_id f)))
    with (stand_down_index (index_fact_metadata m' (indexes g) (sf_id f))) by (unfold index_fact_metadata; by rewrite lookup_insert_eq).
  rewrite H3, H5. unfold index_fact_metadata. rewrite lookup_insert_eq.
  cbn [cell_heads_index authority_heads_index authority_facts_index authority_provenance cells_index set_provenance].
  unfold advance_heads, index_insert. rewrite Hpt, inserted_cells_total.
  rewrite (rows_total_foldl _ _ (λ l, insert_maximal_head m' l (sf_id f))) by apply body_cells_NoDup.
  rewrite <- indexed_subjects_eq. rewrite (rows_total_foldl _ _ (λ l, insert_maximal_head m' l (sf_id f))) by apply indexed_subjects_NoDup.
  rewrite (rows_total_foldl _ _ (λ l, set_insert b32_cmp (sf_id f) l)) by apply indexed_subjects_NoDup.
  cbn [fst snd] in *. unfold cell_heads_row, authority_heads_row, authority_facts_row in *. lia.
Qed.
End insert.

(** ** The invariant and the scan *)
Definition bytes_exact (g : FactGraph) : Prop :=
  graph_exact g ∧ derived_index_bytes g = index_total (indexes g) ∧ derived_index_bytes g ≤ u64_max.

Lemma judging_bytes g j : judging g j → bytes_exact g → bytes_exact j.
Proof. intros Hj (Hg & Hb). split; [by eapply judging_exact|]. by destruct Hj as [->| ->]. Qed.

Lemma step_bytes g g' : step g g' → bytes_exact g → bytes_exact g'.
Proof.
  intros Hs Hall. split; [eapply step_exact; [done|apply Hall]|].
  destruct Hs as [j f cost causal reserved h Hj Hp Hm _ _ Hi|j f cost reserved h a Hj _ _ H|id h o H|author cost| |];
    try apply Hall.
  - apply (judging_bytes g j Hj) in Hall as (Hg & Hb & Hle). destruct Hp as [Hv _ _ Hnew _ Hcost].
    assert (Hdeps : ∀ d, d ∈ dependencies f → is_Some (facts j !! d)).
    { apply missing_dependencies_nil. by rewrite <- (fact_cost_missing _ _ _ Hcost). }
    apply insert_fact_inv in Hi as (d & prov & bytes & Hd & Hplan & _ & Happ & _ & ->). cbn.
    rewrite (index_delta_Ok j f Hg Hnew Hdeps Hv d prov Hplan Hd). unfold apply_index_residency_delta in Happ.
    apply bind_Ok_inv in Happ as (after & Ha%ok_or_Ok & Happ). unfold checked_add_bytes in Happ. apply ok_or_Ok in Happ. z_norm. lia.
  - apply (judging_bytes g j Hj) in Hall. apply admit_quarantined_inv in H as (_ & _ & q & r & ->). apply Hall.
  - apply remove_quarantine_frame in H as [q ->]. apply Hall.
Qed.

Lemma rows_total_list {K A} `{Countable K} row item (ix : gmap K (list A)) :
  rows_total row item ix = sum_of (λ r, row_bytes row item r.2) (map_to_list ix).
Proof. unfold rows_total. rewrite map_fold_foldr. unfold sum_of. by induction (map_to_list ix) as [|[] l IH]; cbn; [|rewrite IH]. Qed.

Lemma rows_total_nonneg {K A} `{Countable K} row item (ix : gmap K (list A)) : 0 < row → 0 < item → 0 ≤ rows_total row item ix.
Proof. intros Hr Hi. rewrite rows_total_list. apply sum_of_nonneg. intros x. unfold row_bytes. lia. Qed.

Lemma keyed_rows_Ok {K A} `{Countable K} limit row item total (ix : gmap K (list A)) :
  0 < row → 0 < item → 0 ≤ total → total + rows_total row item ix ≤ u64_max →
  keyed_rows limit row item total ix = Ok (total + rows_total row item ix).
Proof.
  intros Hr Hi Ht Hle. unfold keyed_rows. rewrite rows_total_list in *.
  apply (sum_bytes_Ok limit _ (λ r, row_bytes row item r.2)); try done.
  - intros x. unfold row_bytes. lia.
  - intros x Hx. by apply entry_bytes_Ok.
Qed.

Lemma provenance_total_list p : provenance_total p = sum_of (λ r, provenance_bytes r.2) (map_to_list p).
Proof. unfold provenance_total. rewrite map_fold_foldr. unfold sum_of. by induction (map_to_list p) as [|[] l IH]; cbn; [|rewrite IH]. Qed.

Lemma sum_of_const {A} (z : Z) (l : list A) : sum_of (λ _, z) l = z * Z.of_nat (length l).
Proof. unfold sum_of. induction l as [|x l IH]; cbn; lia. Qed.

Lemma logical_scan g :
  index_total (indexes g) ≤ u64_max → logical_index_residency_bytes g = Ok (index_total (indexes g)).
Proof.
  intros Hle. pose proof law_sizes as Hs. rewrite !Forall_cons in Hs. destruct_and!. unfold index_total in *.
  pose proof (rows_total_nonneg size_cell_row size_fact_id (cell_heads_index (indexes g))).
  pose proof (rows_total_nonneg size_device_row size_fact_id (authority_heads_index (indexes g))).
  pose proof (rows_total_nonneg size_device_row size_fact_id (authority_facts_index (indexes g))).
  pose proof (rows_total_nonneg size_selector_row size_selector (authority_selector_index (indexes g))).
  pose proof (rows_total_nonneg size_device_row size_fact_id (stand_down_index (indexes g))).
  assert (Hpos : ∀ r : FactId * AuthorityProvenanceRow, 0 ≤ provenance_bytes r.2) by (intros r; unfold provenance_bytes; lia).
  assert (0 ≤ provenance_total (authority_provenance (indexes g))) by (rewrite provenance_total_list; by apply sum_of_nonneg).
  unfold logical_index_residency_bytes.
  rewrite keyed_rows_Ok by lia. cbn [mbind result_bind]. rewrite keyed_rows_Ok by lia. cbn [mbind result_bind].
  rewrite keyed_rows_Ok by lia. cbn [mbind result_bind]. rewrite keyed_rows_Ok by lia. cbn [mbind result_bind].
  rewrite (sum_bytes_Ok _ _ (λ r, provenance_bytes r.2)); rewrite <- ?provenance_total_list; try lia; try done.
  2:{ intros x Hx. apply entry_bytes_Ok; [lia|lia|exact Hx]. }
  cbn [mbind result_bind]. rewrite (sum_bytes_Ok _ _ (λ _, size_cell)); rewrite ?sum_of_const; try (change (length (elements ?s)) with (size s)); try lia.
  2:{ intros c Hc. rewrite cell_dynamic_zero. unfold checked_add_bytes, checked_add. rewrite Z.add_0_r. by destruct (Z.leb_spec size_cell u64_max); [|lia]. }
  cbn [mbind result_bind]. rewrite keyed_rows_Ok; try lia; done.
Qed.

(** C17: In every reachable graph the incrementally maintained [derived_index_bytes]
    is exactly what the full scan [logical_index_residency_bytes] returns, and the
    scan succeeds: the per-fact delta (new rows, new identities, replaced heads,
    changed provenance rows) never drifts from the indexes it accounts for. *)
Theorem derived_index_bytes_are_exact context roots p limits g :
  reachable context roots p limits g → logical_index_residency_bytes g = Ok (derived_index_bytes g).
Proof.
  intros Hr. assert (Hb : bytes_exact g).
  { revert g Hr. apply reachable_invariant; [|apply step_bytes]. split; [apply from_bootstrap_exact|]. cbn. unfold index_total. cbn.
    rewrite size_empty, !rows_total_empty. unfold provenance_total. rewrite map_fold_empty. unfold u64_max. lia. }
  destruct Hb as (_ & Hb & Hle). rewrite Hb in *. by apply logical_scan.
Qed.
End bytes.
