(* ===== verification/Scenarios.v ===== *)
(** * Concrete admission scenarios

    Small signed facts admitted under the demonstration cryptography and layout:
    instances at which the theorems on reachable graphs apply. *)

From S2P Require Import Prelude Ranking Bytes Identity Content Merkle Ancestry Projection FactGraph Residency.
From S2P Require Import Evaluator Admission GraphIndex GraphProvenance GraphInv Rebuild Authority QuarantineInv.
From S2P Require Import Journal Accounts IndexBytes.
Local Open Scope Z_scope.

(** ** The setting *)
#[export] Instance demo_layout : Layout := {|
  size_fact_id := 32; size_cell := 40; size_cell_row := 64; size_device_row := 32; size_selector := 64;
  size_selector_row := 32; size_provenance := 72; size_provenance_row := 56; json_len := λ _, Some 500 |}.

#[export] Instance demo_layout_laws : LayoutLaws.
Proof.
  split.
  - cbn. rewrite !Forall_cons, Forall_nil. unfold u64_max. lia.
  - intros f. exists 500. unfold u64_max. split; [done|lia].
Defined.

Definition demo_limits : SemanticAdmissionPolicy :=
  mkAdmissionPolicy 65535 64 32 64 100000 134217728 4096 16777216 256 4194304 10000 16777216 1000000 256 268435456.

Definition root : Device := Eval vm_compute in demo_sha256 (str "R").
Definition alice : Device := Eval vm_compute in demo_sha256 (str "A").
Definition bob : Device := Eval vm_compute in demo_sha256 (str "B").
Definition tom : Device := Eval vm_compute in demo_sha256 (str "T").
Definition scenario_context : MeshContextId := Eval vm_compute in demo_sha256 (str "context").
Definition start : FactGraph := from_bootstrap scenario_context {[root]} PolicyClosed demo_limits.

(** A signed fact with the given parents and authority predecessors. *)
Definition signed (body : FactBody) (author : Device) (parents : list FactId) (predecessors : Device → list FactId) : SignedFact :=
  let c := mkFactContent 4 (body_domain body) scenario_context body author (ids_sort_dedup parents)
             ((λ s, mkAuthorityUse s (predecessors s)) <$> authority_use_subjects body author) in
  let id := from_content c in
  mkSignedFact c id (sign_with author (b32 id)).

Definition verdict (r : result SemanticError (FactGraph * Admission * SemanticDelta)) : Admission + SemanticError :=
  match r with Ok (_, a, _) => inl a | Err e => inr e end.
Definition run (g : FactGraph) (f : SignedFact) : FactGraph :=
  match admit_journaled g f with Ok (g', _, _) => g' | Err _ => g end.

Lemma run_reachable context roots p limits g f :
  reachable context roots p limits g → reachable context roots p limits (run g f).
Proof.
  intros Hg. unfold run. destruct (admit_journaled g f) as [[[g' a] d]|e] eqn:H; [|done]. by eapply reach_journaled.
Qed.
Lemma start_reachable : reachable scenario_context {[root]} PolicyClosed demo_limits start.
Proof. constructor. Qed.

Lemma verdict_Ok g f a : verdict (admit_journaled g f) = inl a → ∃ d, admit_journaled g f = Ok (run g f, a, d).
Proof. unfold run. destruct (admit_journaled g f) as [[[g' a'] d]|e]; cbn; [|done]. intros [= ->]. by exists d. Qed.

(** Two grants by the root, one by the device the first of them promotes, and one
    that depends on the latter. *)
Definition grant_alice : SignedFact := Eval vm_compute in signed (RoleGrant alice Controller) root [] (λ _, []).
Definition grant_bob : SignedFact := Eval vm_compute in signed (RoleGrant bob Member) root [] (λ _, []).
Definition grant_tom : SignedFact := Eval vm_compute in
  signed (RoleGrant tom Member) alice [sf_id grant_alice] (λ s, if decide (s = alice) then [sf_id grant_alice] else []).

(** Waits for [grant_tom]. *)
Definition orphan : SignedFact := Eval vm_compute in
  signed (RoleGrant bob Member) root [sf_id grant_alice; sf_id grant_tom] (λ s, if decide (s = root) then [sf_id grant_alice] else []).

(** ** Instances *)
Definition after_alice : FactGraph := run start grant_alice.
Definition after_tom : FactGraph := run after_alice grant_tom.
Definition waiting : FactGraph := run after_alice orphan.

Lemma tom_admitted : facts after_tom !! sf_id grant_tom = Some grant_tom.
Proof. exact_no_check (@eq_refl (option SignedFact) (Some grant_tom)). Qed.
Lemma orphan_waits : quarantined (quarantine waiting) !! sf_id orphan = Some orphan ∧ ready_quarantine (quarantine waiting) = [].
Proof. split; [exact_no_check (@eq_refl (option SignedFact) (Some orphan))|exact_no_check (@eq_refl (list FactId) [])]. Qed.
Lemma tom_completes : verdict (admit_journaled waiting grant_tom) = inl Inserted.
Proof. exact_no_check (@eq_refl (Admission + SemanticError) (inl Inserted)). Qed.
Lemma after_alice_reachable : reachable scenario_context {[root]} PolicyClosed demo_limits after_alice.
Proof. unfold after_alice. exact (run_reachable _ _ _ _ _ _ start_reachable). Qed.
Lemma after_tom_reachable : reachable scenario_context {[root]} PolicyClosed demo_limits after_tom.
Proof. unfold after_tom, after_alice. exact (run_reachable _ _ _ _ _ _ (run_reachable _ _ _ _ _ _ start_reachable)). Qed.
Lemma waiting_reachable : reachable scenario_context {[root]} PolicyClosed demo_limits waiting.
Proof. unfold waiting, after_alice. exact (run_reachable _ _ _ _ _ _ (run_reachable _ _ _ _ _ _ start_reachable)). Qed.

(** *** Reachable graphs *)
Lemma reachable_graph_is_exact_witness : facts after_tom !! sf_id grant_tom = Some grant_tom ∧ graph_exact after_tom.
Proof. split; [exact tom_admitted|]. exact (reachable_graph_is_exact _ _ _ _ _ after_tom_reachable). Defined.

Definition alice_then_bob : FactGraph := run after_alice grant_bob.
Definition bob_then_alice : FactGraph := run (run start grant_bob) grant_alice.
Definition two_grants : FactMap := Eval vm_compute in
  <[sf_id grant_alice := grant_alice]> {[sf_id grant_bob := grant_bob]}.
Lemma same_facts : facts alice_then_bob = facts bob_then_alice.
Proof.
  transitivity two_grants; [exact_no_check (@eq_refl FactMap two_grants)|symmetry; exact_no_check (@eq_refl FactMap two_grants)].
Qed.
Lemma alice_then_bob_reachable : reachable scenario_context {[root]} PolicyClosed demo_limits alice_then_bob.
Proof. unfold alice_then_bob, after_alice. exact (run_reachable _ _ _ _ _ _ (run_reachable _ _ _ _ _ _ start_reachable)). Qed.
Lemma bob_then_alice_reachable : reachable scenario_context {[root]} PolicyClosed demo_limits bob_then_alice.
Proof. unfold bob_then_alice. exact (run_reachable _ _ _ _ _ _ (run_reachable _ _ _ _ _ _ start_reachable)). Qed.

Lemma facts_determine_projection_witness :
  facts alice_then_bob = facts bob_then_alice ∧ from_graph alice_then_bob = from_graph bob_then_alice.
Proof.
  split; [exact same_facts|].
  exact (proj2 (facts_determine_projection scenario_context {[root]} PolicyClosed demo_limits alice_then_bob
    scenario_context {[root]} PolicyClosed demo_limits bob_then_alice alice_then_bob_reachable bob_then_alice_reachable same_facts)).
Defined.

Lemma causal_past_is_exact_witness :
  ∃ past, causal_past alice_then_bob grant_tom = Ok past ∧ graph_exact past.
Proof.
  assert (H : match causal_past alice_then_bob grant_tom with Ok _ => true | Err _ => false end = true)
    by exact_no_check (@eq_refl bool true).
  destruct (causal_past alice_then_bob grant_tom) as [past|e] eqn:Hp; [|done]. exists past. split; [reflexivity|].
  refine (proj1 (causal_past_is_exact scenario_context {[root]} PolicyClosed demo_limits alice_then_bob grant_tom past
    alice_then_bob_reachable _ Hp)).
  assert (Hd : missing_dependencies alice_then_bob grant_tom = []) by exact_no_check (@eq_refl (list FactId) []).
  exact (missing_dependencies_nil _ _ Hd).
Defined.

Lemma rebuild_equals_incremental_witness :
  ∃ rebuilt, scoped_graph after_alice (dom (facts after_alice)) = Ok rebuilt ∧ indexes rebuilt = indexes after_alice.
Proof.
  assert (H : match scoped_graph after_alice (dom (facts after_alice)) with Ok _ => true | Err _ => false end = true)
    by exact_no_check (@eq_refl bool true).
  destruct (scoped_graph after_alice (dom (facts after_alice))) as [g|e] eqn:Hg; [|done]. exists g. split; [reflexivity|].
  exact (proj1 (proj2 (rebuild_equals_incremental scenario_context {[root]} PolicyClosed demo_limits after_alice g after_alice_reachable Hg))).
Defined.

(** *** Projection *)
Lemma sparse_update_is_full_projection_witness :
  update_from_graph after_alice (from_graph start) (dom (p_cells (from_graph after_alice)) ∪ dom (p_cells (from_graph start)))
    (dom (p_stand_down (from_graph after_alice)) ∪ dom (p_stand_down (from_graph start))) = from_graph after_alice.
Proof.
  pose proof (exact_graph_view after_alice (reachable_exact _ _ _ _ _ after_alice_reachable)) as Hv.
  refine (proj1 (sparse_update_is_full_projection after_alice (from_graph start) _ _ _ _)).
  - apply from_graph_committed.
  - split.
    + intros c [Hc%not_elem_of_dom Hs%not_elem_of_dom]%not_elem_of_union. rewrite Hc, Hs. reflexivity.
    + intros t [Ht%not_elem_of_dom Hs%not_elem_of_dom]%not_elem_of_union. rewrite Ht, Hs. reflexivity.
Defined.

Lemma projection_rollback_roundtrip_witness :
  let q := update_from_graph after_alice (from_graph start) {[RoleCell alice]} {[alice]} in
  let previous := sparse_entries (from_graph start) {[RoleCell alice]} {[alice]} in
  restore_sparse_entries q previous.1 previous.2 = (from_graph start).
Proof.
  refine (proj1 (projection_rollback_roundtrip after_alice (from_graph start) {[RoleCell alice]} {[alice]} 0 1 _)).
  apply from_graph_committed.
Defined.

Lemma projection_commitment_is_maintained_witness :
  committed (update_from_graph after_alice (from_graph start) {[RoleCell alice]} {[alice]}).
Proof.
  exact (proj1 (proj2 (proj2 (proj2 (projection_commitment_is_maintained after_alice (from_graph start))))
    (from_graph_committed start)) {[RoleCell alice]} {[alice]}).
Defined.



(** *** Quarantine and accounts *)
Lemma reachable_quarantine_is_exact_witness :
  quarantined (quarantine waiting) !! sf_id orphan = Some orphan ∧ quarantine_exact (facts waiting) (quarantine waiting).
Proof. split; [exact (proj1 orphan_waits)|]. exact (reachable_quarantine_is_exact _ _ _ _ _ waiting_reachable). Defined.

Lemma journal_delta_replays_witness :
  ∃ d, admit_journaled waiting grant_tom = Ok (run waiting grant_tom, Inserted, d) ∧
    fact_table (run waiting grant_tom) = replay_delta (fact_table waiting) d.
Proof.
  destruct (verdict_Ok _ _ _ tom_completes) as [d Hd]. exists d. split; [exact Hd|].
  exact (proj1 (journal_delta_replays _ _ _ _ _ _ _ _ _ waiting_reachable Hd)).
Defined.

Lemma waiting_journaled : journal_reachable scenario_context {[root]} PolicyClosed demo_limits waiting.
Proof.
  assert (H1 : verdict (admit_journaled start grant_alice) = inl Inserted) by exact_no_check (@eq_refl (Admission + SemanticError) (inl Inserted)).
  apply verdict_Ok in H1 as [d1 H1]. fold after_alice in H1.
  assert (H2 : verdict (admit_journaled after_alice orphan) = inl (Quarantined [sf_id grant_tom]))
    by exact_no_check (@eq_refl (Admission + SemanticError) (inl (Quarantined [sf_id grant_tom]))).
  apply verdict_Ok in H2 as [d2 H2]. fold waiting in H2.
  eapply journal_admit; [eapply journal_admit; [constructor|exact H1]|exact H2].
Qed.

Lemma journaled_admission_drains_witness : drained waiting ∧ drained (run waiting grant_tom).
Proof.
  destruct (verdict_Ok waiting grant_tom Inserted tom_completes) as [d Hd].
  destruct (journaled_admission_drains scenario_context {[root]} PolicyClosed demo_limits) as [H1 H2].
  split; [exact (H2 waiting waiting_journaled)|exact (H1 waiting grant_tom _ d waiting_reachable Hd)].
Defined.

Lemma reachable_accounts_are_exact_witness : accounts waiting None.
Proof. exact (reachable_accounts_are_exact _ _ _ _ _ waiting_reachable). Defined.

Lemma demo_limits_ok : limits_ok demo_limits.
Proof. unfold limits_ok. cbn. rewrite !Forall_cons, Forall_nil. lia. Qed.

Lemma reachable_within_limits_witness : within waiting ∧ resident waiting ∧ funded (run waiting grant_tom).
Proof.
  destruct (verdict_Ok waiting grant_tom Inserted tom_completes) as [d Hd].
  destruct (reachable_within_limits _ _ _ _ _ waiting_reachable demo_limits_ok) as (H1 & H2 & H3).
  split; [exact H1|]. split; [exact H2|]. exact (H3 grant_tom _ (or_intror (ex_intro _ d Hd))).
Defined.

Lemma derived_index_bytes_are_exact_witness : logical_index_residency_bytes after_tom = Ok (derived_index_bytes after_tom).
Proof. exact (derived_index_bytes_are_exact _ _ _ _ _ after_tom_reachable). Defined.
