(* ===== verification/BootstrapScenarios.v ===== *)
(** * A concrete mesh

    A closed mesh created under the demonstration cryptography, a fact admitted to its
    graph, and the same context with another proof: instances at which the theorems on
    bootstraps apply. *)

From S2P Require Import Prelude Ranking Bytes DeviceId Identity Content Merkle Ancestry Projection FactGraph Residency.
From S2P Require Import Evaluator Admission GraphIndex GraphProvenance GraphInv Rebuild Authority Bootstrap.
From S2P Require Import QuarantineInv Journal Accounts IndexBytes Scenarios.
Local Open Scope Z_scope.

Definition mesh_scope : string := "lab".
Definition mesh_creation : Bytes32 := Eval vm_compute in demo_sha256 (str "creation").
Definition mesh_context : MeshContextId := Eval vm_compute in
  demo_sha256 (context_bytes (closed_context mesh_scope SingleRootSignedMemberLogV1 root mesh_creation)).
Definition mesh_commitment : Bytes32 := Eval vm_compute in
  demo_sha256 (core_bytes (closed_core mesh_scope SingleRootSignedMemberLogV1 root mesh_creation)).
Definition mesh_signature : string := Eval vm_compute in
  sign_with (root : @SigningKey demo_crypto) (root_proof_transcript mesh_context mesh_commitment).
Definition mesh_record : BootstrapRecord :=
  mkRecord (mkContext CONTEXT_VERSION mesh_scope (Some SingleRootSignedMemberLogV1) (Some mesh_commitment))
    (Some (mkBasis BASIS_VERSION mesh_scope SingleRootSignedMemberLogV1 [root] mesh_creation [mesh_signature])).
Definition mesh_policy : VerifiedClosedPolicy := mkClosedPolicy SingleRootSignedMemberLogV1 mesh_scope mesh_commitment root.
Definition mesh : VerifiedBootstrap := mkVerified mesh_record mesh_context (ProjectClosed mesh_policy).

Lemma mesh_verified : from_record mesh_record = Ok mesh.
Proof. exact_no_check (@eq_refl (result BootstrapError VerifiedBootstrap) (Ok mesh)). Qed.

Definition mesh_start : FactGraph := bootstrapped_graph mesh demo_limits.
Definition mesh_grant : SignedFact := Eval vm_compute in
  let c := mkFactContent 4 (body_domain (RoleGrant alice Member)) mesh_context (RoleGrant alice Member) root []
             ((λ s, mkAuthorityUse s []) <$> authority_use_subjects (RoleGrant alice Member) root) in
  mkSignedFact c (from_content c) (sign_with (root : @SigningKey demo_crypto) (b32 (from_content c))).
Definition mesh_graph : FactGraph := run mesh_start mesh_grant.

Lemma mesh_graph_reachable :
  reachable (vb_context_id mesh) (list_to_set (verified_roots mesh)) (graph_policy mesh) demo_limits mesh_graph.
Proof. unfold mesh_graph. apply run_reachable. constructor. Qed.
Lemma mesh_grant_admitted : facts mesh_graph !! sf_id mesh_grant = Some mesh_grant.
Proof. exact_no_check (@eq_refl (option SignedFact) (Some mesh_grant)). Qed.

(** ** Instances *)
Lemma verification_is_exact_witness : verified mesh_record mesh ∧ verified_validate mesh = Ok ().
Proof.
  split; [exact (proj1 (proj1 (verification_is_exact mesh_record mesh)) mesh_verified)|].
  exact (proj2 (proj2 (verification_is_exact mesh_record mesh) mesh_verified)).
Defined.

Lemma closed_graph_rests_on_signed_root_witness :
  ∃ signature, verified_roots mesh = [root] ∧ context_id mesh_graph = mesh_context ∧
    verify (spell root) (root_proof_transcript (context_id mesh_graph) mesh_commitment) signature = Ok true ∧
    justified (facts mesh_graph) {[root]} mesh_grant.
Proof.
  exact (closed_graph_rests_on_signed_root mesh_record mesh mesh_policy demo_limits mesh_graph (sf_id mesh_grant) mesh_grant
    mesh_verified eq_refl mesh_graph_reachable mesh_grant_admitted).
Defined.

Lemma context_text_roundtrip_witness : context_from_text (context_text mesh_context) = Some mesh_context.
Proof. exact (proj1 (context_text_roundtrip mesh_context EmptyString)). Defined.

Lemma created_bootstrap_verifies_witness :
  ∃ v, create_closed mesh_scope [root : @SigningKey demo_crypto] mesh_creation = Ok v ∧ verified_roots v = [root].
Proof.
  pose proof (created_bootstrap_verifies mesh_scope (root : @SigningKey demo_crypto) mesh_creation eq_refl) as H.
  assert (validate_text mesh_scope "scope" = Ok ()) as E by (vm_compute; reflexivity). rewrite E in H.
  destruct H as (v & Hv & _ & Hr & _). exists v. split; [exact Hv|exact Hr].
Defined.

Lemma mesh_messages_differ : collision_free (record_messages mesh_record ++ record_messages mesh_record).
Proof.
  assert (sha256 (context_bytes (br_context mesh_record)) ≠
    sha256 (core_bytes (closed_core mesh_scope SingleRootSignedMemberLogV1 root mesh_creation))) as Hne by (vm_compute; discriminate).
  intros x y Hx Hy Heq.
  change (x ∈ [context_bytes (br_context mesh_record); core_bytes (closed_core mesh_scope SingleRootSignedMemberLogV1 root mesh_creation);
    context_bytes (br_context mesh_record); core_bytes (closed_core mesh_scope SingleRootSignedMemberLogV1 root mesh_creation)]) in Hx.
  change (y ∈ [context_bytes (br_context mesh_record); core_bytes (closed_core mesh_scope SingleRootSignedMemberLogV1 root mesh_creation);
    context_bytes (br_context mesh_record); core_bytes (closed_core mesh_scope SingleRootSignedMemberLogV1 root mesh_creation)]) in Hy.
  set (a := context_bytes _) in *. set (b := core_bytes _) in *. clearbody a b.
  repeat match goal with H : _ ∈ _ :: _ |- _ => apply elem_of_cons in H as [->|H] | H : _ ∈ [] |- _ => by apply not_elem_of_nil in H end; done.
Qed.

Lemma context_identity_binds_policy_witness :
  vb_policy mesh = ProjectClosed mesh_policy ∧ genesis_core <$> br_basis mesh_record = genesis_core <$> br_basis mesh_record.
Proof.
  split; [reflexivity|].
  refine (proj1 (proj2 (context_identity_binds_policy mesh_record mesh_record mesh mesh mesh_verified mesh_verified eq_refl _ _ mesh_messages_differ)));
    apply fits_small; vm_compute; repeat constructor.
Defined.
