(* ===== verification/Histories.v ===== *)
(** * Three histories of the causal graph

    Where the admitted set or the cached projection depends on arrival: concrete
    runs of [admit_journaled]. *)

From S2P Require Import Prelude Ranking Bytes Identity Content Merkle Ancestry Projection FactGraph Residency.
From S2P Require Import Evaluator Admission Scenarios.
Local Open Scope Z_scope.

(** Which facts are admitted depends on arrival: the three facts are all admitted in
    one order, and in another the third is refused for lack of authority although
    its own causal past is the same. *)
Theorem admission_depends_on_arrival :
  verdict (admit_journaled (run start grant_alice) grant_tom) = inl Inserted ∧
  verdict (admit_journaled (run (run start grant_alice) grant_tom) grant_bob) = inl Inserted ∧
  verdict (admit_journaled (run (run start grant_alice) grant_bob) grant_tom) = inr UnauthorizedRoleGrant.
Proof.
  split; [|split].
  - exact_no_check (@eq_refl (Admission + SemanticError) (inl Inserted)).
  - exact_no_check (@eq_refl (Admission + SemanticError) (inl Inserted)).
  - exact_no_check (@eq_refl (Admission + SemanticError) (inr UnauthorizedRoleGrant)).
Qed.

Definition member_alice : SignedFact := Eval vm_compute in signed (RoleGrant alice Member) root [] (λ _, []).
Definition next_grant : SignedFact := Eval vm_compute in
  signed (RoleGrant bob Member) root [sf_id member_alice] (λ s, if decide (s = root) then [sf_id member_alice] else []).
Definition premature : SignedFact := Eval vm_compute in
  signed (Resolution (RoleCell tom) [sf_id next_grant] (sf_id next_grant)) alice [sf_id member_alice; sf_id next_grant]
    (λ s, if decide (s = alice) then [sf_id member_alice] else []).

(** A waiter that turns out redundant blocks the fact it waits for: a member's
    premature resolution is quarantined, and the valid grant it depends on, which
    is admitted without it, is then refused with the waiter's error. *)
Theorem redundant_waiter_blocks_dependency :
  verdict (admit_journaled (run start member_alice) next_grant) = inl Inserted ∧
  verdict (admit_journaled (run start member_alice) premature) = inl (Quarantined [sf_id next_grant]) ∧
  verdict (admit_journaled (run (run start member_alice) premature) next_grant) =
    inr (NoOp "resolution has no live conflict").
Proof.
  split; [|split].
  - exact_no_check (@eq_refl (Admission + SemanticError) (inl Inserted)).
  - exact_no_check (@eq_refl (Admission + SemanticError) (inl (Quarantined [sf_id next_grant]))).
  - exact_no_check (@eq_refl (Admission + SemanticError) (inr (NoOp "resolution has no live conflict"))).
Qed.

(** The root makes two owners and admits a member; one owner, having seen that,
    demotes the root, and the other demotes it from before the member's grant. *)
Definition owner1 : Device := Eval vm_compute in demo_sha256 (str "O1").
Definition owner2 : Device := Eval vm_compute in demo_sha256 (str "O2").
Definition uses (l : list (Device * list FactId)) (s : Device) : list FactId :=
  default [] (snd <$> head (filter (λ p, p.1 = s) l)).
Definition own1 : SignedFact := Eval vm_compute in signed (RoleGrant owner1 Owner) root [] (uses []).
Definition own2 : SignedFact := Eval vm_compute in
  signed (RoleGrant owner2 Owner) root [sf_id own1] (uses [(root, [sf_id own1])]).
Definition late_member : SignedFact := Eval vm_compute in
  signed (RoleGrant alice Member) root [sf_id own2] (uses [(root, [sf_id own2])]).
Definition demote1 : SignedFact := Eval vm_compute in
  signed (RoleGrant root Controller) owner1 [sf_id own1; sf_id late_member]
    (uses [(root, [sf_id late_member]); (owner1, [sf_id own1])]).
Definition demote2 : SignedFact := Eval vm_compute in
  signed (RoleGrant root Member) owner2 [sf_id own2] (uses [(root, [sf_id own2]); (owner2, [sf_id own2])]).
Definition both : list FactId := Eval vm_compute in ids_sort_dedup [sf_id demote1; sf_id demote2].
Definition settle : SignedFact := Eval vm_compute in
  signed (Resolution (RoleCell root) both (sf_id demote1)) owner1 both (uses [(root, both); (owner1, [sf_id demote1])]).
Definition disputed_graph : FactGraph := run (run (run (run (run start own1) own2) late_member) demote1) demote2.
Definition settled_graph : FactGraph := run disputed_graph settle.

(** The cached projection can be stale after a role resolution: resolving the
    root's conflicting roles makes its earlier grant authoritative again, which a
    full projection shows and the incrementally updated one does not. *)
Theorem role_resolution_leaves_stale_projection :
  facts settled_graph !! sf_id settle = Some settle ∧
  p_cells (projection settled_graph) !! RoleCell alice = None ∧
  p_cells (from_graph settled_graph) !! RoleCell alice = Some (Value (sf_id late_member)).
Proof.
  split; [|split].
  - exact_no_check (@eq_refl (option SignedFact) (Some settle)).
  - exact_no_check (@eq_refl (option CellProjection) None).
  - exact_no_check (@eq_refl (option CellProjection) (Some (Value (sf_id late_member)))).
Qed.
